(* ===== verification/_CoqProject ===== *)
-Q . S2P
Prelude.v
Utils.v
MapStore.v
ArenaMap.v
Memory.v
SliceStores.v
SliceLaws.v
Sha256.v
TreeHasher.v
Effects.v
Proofs.v
Smt.v
DeepSubTree.v
Bulk.v
Pool.v
Sharded.v
Fuzz.v
ReadOnly.v
Trie.v
BulkLists.v
Merkle.v
Store.v
Partial.v
Footprint.v
Walk.v
SmtUpdate.v
SmtDelete.v
Spec.v
BulkSpec.v
ProofsCorrect.v
SmtSpec.v
SmtHolds.v
BulkMap.v
Calls.v
ShardedSpec.v
DeepSpec.v
DeepUpdate.v
DeepReplay.v
DeepBulk.v
Compaction.v
Typing.v
TypedTree.v
ToyHasher.v
BasicTheorems.v
Faults.v
PoolLogic.v
PoolSpec.v
PoolCalls.v
PoolTheorems.v
ArenaTree.v
SliceTree.v
ArenaBulk.v
ShardedArena.v
ArenaTheorems.v
SliceTheorems.v
SmtTheorems.v
FaultTheorems.v
ProofTheorems.v
DeepTheorems.v
BulkFuel.v
BulkTheorems.v
ShardedPool.v
ShardedGo.v
ShardedTheorems.v
ShardedFaults.v
FuzzTheorems.v
