(* ===== verification/Prelude.v ===== *)
(** * Sparse Merkle tree: a verification development

    The repository is a Go library of authenticated key-value stores.  A
    [SparseMerkleTree] commits to a map from keys to values with one root
    hash; its nodes live in a [MapStore] keyed by hash and its values in a
    [MapStore] keyed by the digest of the key (the path).  On it are built
    Merkle proofs and compact proofs, deep subtrees (trees of which only some
    branches are known), bulk updates, and a tree split into shards.

    ** The components and their files

    - treehasher.go: [TreeHasher].  The caller's [hash.Hash] is the class
      [Hasher] (a digest function and its size, with the law that a digest
      has that size); the stateful object, the encodings of leaves and nodes
      and their parsers are definitions.  Everything is generic in it.
    - utils.go: [Utils].  Bits of byte slices, slice reversal.
    - mapstore.go, mapstore_fixed.go: [MapStore].  The interface is the class
      [MapStore]; [LawfulMapStore n] states what the tree relies on for keys
      of [n] bytes, and the two stores discharge it.  [KeyedMap n] is
      [FixedSizeMap] with the key length as a parameter (32 in the code).
    - mapstore_arena.go: [ArenaMap].  Slabs with lengths and capacities,
      entries of uint32 fields; its theorems are at the end of the file.
    - The same stores once more, over references instead of values:
      [SliceStores].  [Memory] has the arrays of a Go memory and slices of them
      (make, append in place, reslicing with the capacity that is left); the
      map stores keep the slice that they are given, the arena copies its bytes
      to a slab and hands out slices of the slab.  [LawfulSliceStore] is the
      contract, which all of them meet ([SliceLaws]); [SliceTree] runs the
      methods of a tree on such stores.
    - smt.go: [Effects] and [Smt].  The methods are programs of a small
      effect monad ([prog]: store reads and writes, the root, errors,
      panics); [run] executes one on a tree with any two stores.  A struct
      field is a field of the record [SparseMerkleTree], a method a
      definition of the same name, a loop a [Fixpoint] named after it.
      options.go is the type [Option] of [Smt].
    - pool.go: [Pool].  The update and proof paths of smt.go and the bulk
      update of bulk.go, its deletions and its walk, once more, over the pooled
      objects: a digest is a slice ([ref]) of a buffer that later steps
      overwrite, the path slices are filled in place, objects are checked out
      of the pools and put back; a definition [f_buf] works on objects that its
      caller holds, [f_pooled] checks them out.  Such a method
      is a tree of operations ([bprog]); goroutines interleave at every
      operation ([cstep], [run_schedule]) on the pools they share.
    - proofs.go: [Proofs].  Verification, compaction, decompaction.
    - deepsubtree.go: [DeepSubTree].
    - bulk.go: [Bulk].  Also Go's [sort.Search] and [slices.SortStableFunc].
    - sharded.go: [Sharded], with SHA-256 itself in [Sha256] since shards are
      chosen by it.  Goroutines are explicit: an interleaving of their writes
      ([interleave]), an order in which the shards finish.  [ShardedGo] has
      the goroutines of the shards step by step, on the buffer pools they
      share, with the wait group and the first error.  [ShardedPool] has the
      pools of buckets and index buffers, and BulkUpdate on what they hand out.
    - fuzz/fuzz.go, fuzz/delete/fuzz.go: [Fuzz].  Both harnesses, on a tree
      with SHA-256.

    ** The specification

    [Trie] has the abstract tree ([tree], with insertion and deletion by
    path); [Merkle] its hashes; [Store] the stores that hold it.  [Spec]
    builds the tree of a finite map and its root ([tree_of], [merkle_root])
    and states the invariant: [smt_holds s m] says that the tree [s] holds
    exactly the map [m], its node store being the set of the nodes of
    [tree_of m] and nothing else.  [Walk], [SmtUpdate] and [SmtDelete] prove
    the loops of smt.go against the abstract tree, on a reference store;
    [SmtSpec] composes them; [run_sim] of [Effects] carries every run over to
    any pair of lawful stores, and [SmtHolds] collects the results.  [Calls]
    has sequences of calls and the abstract machine that they implement: its
    state is the map alone, its results are roots, proofs and values.
    For trees of which a part is known, [Partial] shows that with less data a
    program reports a missing key or does the same, [Footprint] that it does
    the same when the keys it reads are there; [DeepSpec] and [DeepUpdate]
    apply this to branches and updates, [DeepReplay] to sequences of
    insertions with several branches, [DeepBulk] to bulk updates.  Likewise
    there are [BulkLists], [BulkSpec] and [BulkMap] for the recursive walk of a
    bulk update,
    [ShardedSpec] for shards; [ProofsCorrect] and [Compaction] for proofs;
    [ReadOnly] for programs that write nothing, or do not assign the root.

    Other developments do not use the abstract tree.  [Typing] and [TypedTree]
    have a program logic for states whose stores hold well-formed data, for
    every hash function, of programs that do not panic or may.  [PoolLogic] is a
    program logic for goroutines on shared pools: [wp] owns the objects that a call has checked out, the
    invariant [config_inv] gives every object one owner, and every schedule
    keeps it, so a proof about one call holds in all interleavings.
    [PoolSpec] relates the programs over pooled buffers to those of [Smt] and
    [Bulk] in this logic ([sim]), [PoolCalls] sequences of calls ([refines]).
    [ArenaTree] bounds the Sets of an update and carries typed programs over
    to arena stores, which are no lawful stores; [ArenaBulk] does this for bulk
    updates and all calls, [ShardedArena] for sharded trees.  [BulkFuel] shows that the
    fuel of a bulk update does not matter.  [Faults] has stores of which any
    call may fail, and a syntactic condition ([strict]) under which a program
    lets no failure pass.  [extends] of [Memory] says that a memory grew and
    kept the bytes in use; every step of a slice store is one, so that what a
    store handed out never changes ([seen_stable]).

    ** The theorems

    - [SmtTheorems]: what Update, Delete, Get and Has do; that sequences of
      calls implement the abstract machine; that the root and
      the stores depend on the map alone; that after any calls equal roots mean
      equal answers of Get; that deleting everything leaves nothing; that stores
      are interchangeable; that an update that fails keeps the root, on any
      stores; what UpdateForRoot answers, wrongly, when the value is unchanged.
    - [ProofTheorems]: every key has an accepted proof, an accepted proof
      shows the value of the map, proofs are binding, the verifier never
      panics; compaction loses nothing; which compact proofs panic.
    - [DeepTheorems]: what a deep subtree answers, and the root it computes,
      are those of the full tree, for bulk updates too; with the branch of an
      updatable proof the update succeeds; a block of insertions, one by one or
      as a bulk update, can be replayed from the branches of its keys and of
      the leaves they meet, a block of deletions not always.
    - [BulkTheorems]: a bulk update is a sequence of updates, when no key is
      both set and deleted; what happens otherwise; its recursion ends on every
      store.
    - [FaultTheorems]: no method swallows the failure of a store; what an
      update leaves behind when a store fails in the middle of it.
      [ShardedFaults]: a sharded bulk update is not atomic, the shards that do
      not fail have their part of the batch.
    - [ShardedTheorems]: routing never leaves the range, the combined root is
      the balanced tree of the shards' roots and commits to all their maps,
      proofs of single shards are sound and complete, a bulk update is correct
      in every interleaving of its goroutines, which always end, and on pooled
      buckets.
    - [PoolTheorems]: goroutines that share the pools end, are never stuck, and
      have the results of their calls alone and without pools, those of the
      abstract machine on lawful stores; no object has two owners and the
      buffers are never written beyond the digest size.
    - [FuzzTheorems]: no update, read, proof or added branch panics on
      well-formed data, whatever the hash function, while a bulk update can, on
      a cycle; neither harness panics, on any input.
    - [ArenaTheorems]: trees and sharded trees on arena stores, for as many
      calls as the uint32 fields allow.
    - [SliceTheorems]: calls on stores of slices have the results they have on
      stores of values, and nothing that a store handed out is overwritten; the
      callers of a tree on arena stores may reuse their buffers; what a caller
      does who appends to a slice of a slab.
    - [BasicTheorems], [ArenaMap]: encodings, bits, stores.

    Collisions are hypotheses on concrete sets: [collision_free U] says that
    no two strings of the finite set [U] have one digest and that none has
    the all-zero placeholder, and [U] is always the set of the strings that
    the operations hash.  [ToyHasher] has a two-byte hasher and maps on which
    this is decided by evaluation; the witnesses of the theorems run on it.

    ** Bounds and fuel

    The walks take the depth of the tree, eight times the digest size, as
    the bound of the code does.  The recursion of a bulk update has fuel
    [S (depth - d)] at depth [d].  Below the last bit the code panics on its
    bit index, as the model does; on a tree that holds a map this does not
    happen, on a store that holds a cycle it does.  The fuel is another matter:
    a walk that runs out of it runs the program [out], an argument of
    [bulkApplyAtRoot], [buildSubtree] and [mergeLeafWithKVs], and
    [bulkApplyAtRoot_terminates] shows, on every store, that the result is the
    same for every [out] and all greater fuel: no call goes that deep.
    [BulkUpdate] passes a panic as [out].  The walk over pooled buffers
    ([bulkApplyAtRoot_buf]) has the same fuel and, by the simulation of
    [PoolSpec], the result of that walk.
    [sort.Search] has as much fuel as there are elements, the fold of shard
    roots as there are roots, the bit count as the shard count; the theorems
    state results, so that this is enough.  The fuzz loop has one unit for each
    byte of the input, and reads at least one byte in each round.

    ** What is not modelled

    - The capacities of pooled slices: an append never fails, and which
      buckets of a sharded bulk update are too small for the size hint is a
      parameter.
    - The memory model of Go: an operation of a goroutine (a read or write of
      a buffer, a call of a store, Get and Put of a pool, the section under the
      mutex) is one step, and steps are in one order.  A goroutine that panics
      ends the program, the objects it holds are lost.
    - A store that fails leaves its contents as they were.
    - Byte slices are values, outside [Pool] and [SliceStores]; in [SliceTree] a
      method works with the bytes that a slice had when it was handed out, which
      is what [seen_stable] justifies.  The sharded tree and the harnesses are
      not run on slices.
    - The shards of a sharded tree have stores of their own.
    - Go imports, and the types and variables that only name a library type.

    ** Left

    Which branches let a bulk update with deletions of a deep subtree succeed;
    those of the deleted keys are not enough in general
    ([two_deletions_missing_sibling] of [DeepTheorems]), and what succeeds is
    correct ([BulkUpdate_deep_sound]). *)

From stdpp Require Export prelude gmap list.
From Stdlib Require Export Strings.Byte.
From Stdlib Require Export ZArith Lia.

#[export] Set Warnings "-clear-no-such-hyp,-level-tolerance".

(** ** Bytes and byte slices *)

Abbreviation byte := Byte.byte.
Abbreviation x00 := Byte.x00.
Abbreviation x01 := Byte.x01.
Abbreviation bytes := (list byte).

#[export] Instance byte_eq_dec : EqDecision byte := Byte.byte_eq_dec.

#[export] Program Instance byte_countable : Countable byte :=
  inj_countable Byte.to_N Byte.of_N _.
Next Obligation. exact Byte.of_to_N. Qed.

(** The value of a byte and Go's conversion [byte(n)] of an integer, which
    keeps the low eight bits. *)
Definition byte_val (b : byte) : Z := Z.of_N (Byte.to_N b).

Definition byte_of_Z (z : Z) : byte :=
  match Byte.of_N (Z.to_N (z `mod` 256)) with
  | Some b => b
  | None => x00
  end.

(** [bytes.Equal] of the Go standard library. *)
Definition bytes_Equal (a b : bytes) : bool := bool_decide (a = b).

(** [bytes.Compare]: lexicographic order on byte values, a strict prefix
    being smaller. *)
Fixpoint bytes_Compare (a b : bytes) : comparison :=
  match a, b with
  | [], [] => Eq
  | [], _ :: _ => Lt
  | _ :: _, [] => Gt
  | x :: a', y :: b' =>
      match Z.compare (byte_val x) (byte_val y) with
      | Eq => bytes_Compare a' b'
      | c => c
      end
  end.

(** ** Errors, panics and outcomes *)

(** The errors the package returns.  [OtherError] stands for the errors a
    [MapStore] implementation of a caller may return besides
    [InvalidKeyError]. *)
Inductive error : Type :=
  | InvalidKeyError (Key : bytes)
  | errKeyAlreadyEmpty
  | ErrBadProof
  | ErrBulkInputMismatch
  | ErrInvalidShardCount
  | OtherError (code : N).

#[export] Instance error_eq_dec : EqDecision error.
Proof. solve_decision. Defined.

(** What a Go call does: it returns a value, returns an error, or panics (an
    index or a slice bound out of range, or an explicit [panic]). *)
Inductive outcome (A : Type) : Type :=
  | Ok (a : A)
  | Err (e : error)
  | Panic.
Arguments Ok {A} a.
Arguments Err {A} e.
Arguments Panic {A}.

#[export] Instance outcome_eq_dec `{EqDecision A} : EqDecision (outcome A).
Proof. solve_decision. Defined.

#[export] Instance outcome_ret : MRet outcome := @Ok.
#[export] Instance outcome_bind : MBind outcome := λ A B f m,
  match m with
  | Ok a => f a
  | Err e => Err e
  | Panic => Panic
  end.

Definition is_Ok {A} (o : outcome A) : Prop := ∃ a, o = Ok a.

(** [s[i]] *)
Definition index {A} (l : list A) (i : nat) : outcome A :=
  match l !! i with
  | Some x => Ok x
  | None => Panic
  end.

Lemma index_ok {A} (l : list A) i x : l !! i = Some x → index l i = Ok x.
Proof. intros Hx. unfold index. by rewrite Hx. Qed.

Lemma index_elem {A} (l : list A) i x : index l i = Ok x → x ∈ l.
Proof.
  unfold index. destruct (l !! i) eqn:E; [|done]. intros [= ->].
  by eapply list_elem_of_lookup_2.
Qed.

(** [s[lo:hi]]; a slice is modelled with capacity equal to its length, so a
    bound beyond the length panics. *)
Definition slice (d : bytes) (lo hi : nat) : outcome bytes :=
  if bool_decide (lo ≤ hi ∧ hi ≤ length d)
  then Ok (take (hi - lo) (drop lo d))
  else Panic.

Lemma slice_inv d lo hi q :
  slice d lo hi = Ok q → (lo ≤ hi ∧ hi ≤ length d) ∧ q = take (hi - lo) (drop lo d).
Proof. unfold slice. case_bool_decide; [|done]. by intros [= <-]. Qed.

Lemma bind_inv {A B} (m : outcome A) (f : A → outcome B) b :
  m ≫= f = Ok b → ∃ a, m = Ok a ∧ f a = Ok b.
Proof. destruct m; [|done..]. by eexists. Qed.

(** [dst := make([]byte, n); copy(dst, src)] *)
Definition make_copy (n : nat) (src : bytes) : bytes :=
  take n src ++ replicate (n - length src) x00.

Lemma make_copy_id n k : length k = n → make_copy n k = k.
Proof.
  intros <-. unfold make_copy.
  by rewrite take_ge, Nat.sub_diag, app_nil_r by done.
Qed.

(** ** Sets of list elements *)

Lemma list_to_set_reverse `{Countable A} (l : list A) :
  list_to_set (C := gset A) (reverse l) = list_to_set l.
Proof. apply set_eq. intros x. by rewrite !elem_of_list_to_set, elem_of_reverse. Qed.
