(* ===== verification/Utils.v ===== *)
(** * utils.go: bit access, bit counting, common prefixes, reversal.

    [position] arguments are natural numbers: every call of the package
    passes a non-negative [int]. *)

From S2P Require Import Prelude.

(** [getBitAtFromMSB]: the bit at an offset from the most significant bit.
    The index [data[position/8]] panics out of range. *)
Definition getBitAtFromMSB (data : bytes) (position : nat) : outcome Z :=
  b ← index data (position / 8);
  if (Z.land (byte_val b) (Z.shiftl 1 (8 - 1 - Z.of_nat position `mod` 8)) >? 0)%Z
  then Ok 1%Z
  else Ok 0%Z.

(** [setBitAtFromMSB] mutates [data]; the model returns the new contents. *)
Definition setBitAtFromMSB (data : bytes) (position : nat) : outcome bytes :=
  b ← index data (position / 8);
  let n := Z.lor (byte_val b) (Z.shiftl 1 (8 - 1 - Z.of_nat position `mod` 8)) in
  Ok (<[(position / 8)%nat := byte_of_Z n]> data).

(** The loop of [countSetBits] from index [i], [n] iterations to go. *)
Fixpoint countSetBits_loop (data : bytes) (n i : nat) (count : Z) : outcome Z :=
  match n with
  | 0 => Ok count
  | S n' =>
      b ← getBitAtFromMSB data i;
      countSetBits_loop data n' (S i) (if (b =? 1)%Z then (count + 1)%Z else count)
  end.

Definition countSetBits (data : bytes) : outcome Z :=
  countSetBits_loop data (length data * 8) 0 0.

(** The loop of [countCommonPrefix]; the [else] branch breaks. *)
Fixpoint countCommonPrefix_loop (data1 data2 : bytes) (n i : nat) (count : nat)
    : outcome nat :=
  match n with
  | 0 => Ok count
  | S n' =>
      b1 ← getBitAtFromMSB data1 i;
      b2 ← getBitAtFromMSB data2 i;
      if (b1 =? b2)%Z
      then countCommonPrefix_loop data1 data2 n' (S i) (S count)
      else Ok count
  end.

Definition countCommonPrefix (data1 data2 : bytes) : outcome nat :=
  countCommonPrefix_loop data1 data2 (length data1 * 8) 0 0.

Definition emptyBytes (len : nat) : bytes := replicate len x00.

(** [reverseByteSlicesInPlace] swaps the entries at [left] and [right] and
    moves both towards the middle.  [fuel] bounds the iterations: the length
    of the slice is enough, since [right - left] shrinks by two each time. *)
Fixpoint reverse_loop {A} (fuel : nat) (slices : list A) (left right : Z) : outcome (list A) :=
  match fuel with
  | 0 => Ok slices
  | S fuel' =>
      if (left <? right)%Z then
        x ← index slices (Z.to_nat left);
        y ← index slices (Z.to_nat right);
        reverse_loop fuel' (<[Z.to_nat right := x]> (<[Z.to_nat left := y]> slices))
          (left + 1) (right - 1)
      else Ok slices
  end.

Definition reverseByteSlicesInPlace {A} (slices : list A) : outcome (list A) :=
  reverse_loop (length slices) slices 0 (Z.of_nat (length slices) - 1).

Definition reverseByteSlices {A} (slices : list A) : outcome (list A) :=
  reverseByteSlicesInPlace slices.

(** ** The bits of a byte slice *)

(** The eight bits of a byte, most significant first, and the bits of a byte
    slice: the specification of a position counted from the MSB. *)
Definition byte_bits (b : byte) : list bool :=
  (λ i, N.testbit (Byte.to_N b) (7 - i)) <$> [0; 1; 2; 3; 4; 5; 6; 7]%N.

Arguments byte_bits : simpl never.

Fixpoint bits (d : bytes) : list bool :=
  match d with
  | [] => []
  | b :: d' => byte_bits b ++ bits d'
  end.

Definition bit_of_Z (z : Z) : bool := (z =? 1)%Z.
Definition Z_of_bit (b : bool) : Z := if b then 1%Z else 0%Z.

Lemma length_byte_bits b : length (byte_bits b) = 8.
Proof. done. Qed.

Lemma bits_cons b d : bits (b :: d) = byte_bits b ++ bits d.
Proof. done. Qed.

Lemma length_bits d : length (bits d) = length d * 8.
Proof. induction d as [|b d IH]; simpl; lia. Qed.

Lemma byte_bits_inj b c : byte_bits b = byte_bits c → b = c.
Proof.
  intros Heq.
  assert (∀ x, Byte.of_bits
            (nth 7 (byte_bits x) false, (nth 6 (byte_bits x) false,
            (nth 5 (byte_bits x) false, (nth 4 (byte_bits x) false,
            (nth 3 (byte_bits x) false, (nth 2 (byte_bits x) false,
            (nth 1 (byte_bits x) false, nth 0 (byte_bits x) false))))))) = x) as Hinv.
  { intros x. by destruct x. }
  by rewrite <-(Hinv b), <-(Hinv c), Heq.
Qed.

Lemma bits_inj d e : bits d = bits e → d = e.
Proof.
  revert e. induction d as [|b d IH]; intros [|c e]; try done.
  intros Heq. change (byte_bits b ++ bits d = byte_bits c ++ bits e) in Heq.
  apply app_inj_1 in Heq as [Hb Hd]; [|done].
  f_equal; [by apply byte_bits_inj | by apply IH].
Qed.

Lemma bits_lookup d i :
  bits d !! i = (b ← d !! (i / 8); byte_bits b !! (i `mod` 8)).
Proof.
  revert i. induction d as [|b d IH]; intros i.
  { by rewrite !lookup_nil. }
  change (bits (b :: d)) with (byte_bits b ++ bits d).
  destruct (decide (i < 8)).
  - rewrite lookup_app_l by (rewrite length_byte_bits; lia).
    by rewrite Nat.div_small, Nat.mod_small by lia.
  - rewrite lookup_app_r by (rewrite length_byte_bits; lia).
    rewrite length_byte_bits, IH.
    assert (i / 8 = S ((i - 8) / 8)) as ->.
    { replace i with (i - 8 + 1 * 8) at 1 by lia. rewrite Nat.div_add; lia. }
    assert (i `mod` 8 = (i - 8) `mod` 8) as ->; [|done].
    replace i with (i - 8 + 1 * 8) at 1 by lia. apply Nat.Div0.mod_add.
Qed.

Lemma byte_bit_mask b j : (j < 8) →
  byte_bits b !! j =
    Some (Z.land (byte_val b) (Z.shiftl 1 (8 - 1 - Z.of_nat j)) >? 0)%Z.
Proof.
  intros Hj. destruct b; do 8 (destruct j as [|j]; [done|]); lia.
Qed.

(** [getBitAtFromMSB] reads the bit of the specification, and panics exactly
    past the last bit. *)
Lemma getBitAtFromMSB_bits d i :
  getBitAtFromMSB d i =
    match bits d !! i with
    | Some b => Ok (Z_of_bit b)
    | None => Panic
    end.
Proof.
  unfold getBitAtFromMSB, index. rewrite bits_lookup.
  destruct (d !! (i / 8)) as [b|]; [|done].
  cbn [mbind option_bind outcome_bind].
  assert (i `mod` 8 < 8) by (apply Nat.mod_upper_bound; lia).
  rewrite byte_bit_mask by done.
  rewrite Nat2Z.inj_mod. by destruct (_ >? 0)%Z.
Qed.

Lemma getBitAtFromMSB_ok d i b :
  bits d !! i = Some b → getBitAtFromMSB d i = Ok (Z_of_bit b).
Proof. intros Hb. by rewrite getBitAtFromMSB_bits, Hb. Qed.

Lemma Z_of_bit_eqb a b : (Z_of_bit a =? Z_of_bit b)%Z = Bool.eqb a b.
Proof. by destruct a, b. Qed.

(** ** Setting and counting bits *)

Lemma byte_bits_set b j : (j < 8) →
  byte_bits (byte_of_Z (Z.lor (byte_val b) (Z.shiftl 1 (8 - 1 - Z.of_nat j)))) =
    <[j := true]> (byte_bits b).
Proof.
  intros Hj. destruct b; do 8 (destruct j as [|j]; [done|]); lia.
Qed.

Lemma bits_insert d k c :
  k < length d →
  ∀ j b, d !! k = Some b → j < 8 → byte_bits c = <[j := true]> (byte_bits b) →
  bits (<[k := c]> d) = <[(k * 8 + j)%nat := true]> (bits d).
Proof.
  revert k. induction d as [|b0 d IH]; intros [|k] Hk j b Hb Hj Hc;
    cbn [insert list_insert length] in *; try lia; rewrite !bits_cons.
  - injection Hb as ->. rewrite insert_app_l by (rewrite length_byte_bits; lia).
    by rewrite Hc.
  - rewrite (insert_app_r_alt (byte_bits b0)) by (rewrite length_byte_bits; lia).
    rewrite length_byte_bits. replace (S k * 8 + j - 8) with (k * 8 + j) by lia.
    f_equal. eapply IH; eauto. lia.
Qed.

(** Setting a bit that exists changes that bit of the slice to 1 and no other
    one, and keeps the length. *)
Lemma setBitAtFromMSB_spec d i :
  i < length d * 8 →
  ∃ d', setBitAtFromMSB d i = Ok d' ∧ length d' = length d ∧
        bits d' = <[i := true]> (bits d).
Proof.
  intros Hi. unfold setBitAtFromMSB, index.
  assert (i / 8 < length d) as Hk by (apply Nat.Div0.div_lt_upper_bound; lia).
  destruct (d !! (i / 8)) as [b|] eqn:Hb.
  2: { apply lookup_ge_None in Hb. lia. }
  cbn [mbind outcome_bind]. eexists. split; [done|]. split; [apply length_insert|].
  assert (i `mod` 8 < 8) as Hj by (apply Nat.mod_upper_bound; lia).
  rewrite (bits_insert d (i / 8) _ Hk (i `mod` 8) b Hb Hj).
  - f_equal. rewrite (Nat.div_mod_eq i 8) at 3. lia.
  - change 8%Z with (Z.of_nat 8) at 2. rewrite <-Nat2Z.inj_mod. by apply byte_bits_set.
Qed.

(** The number of one bits in a list of bits. *)
Definition count_true (l : list bool) : nat := length (filter (λ b, b = true) l).

Lemma count_true_cons b l :
  count_true (b :: l) = (if b then 1 else 0) + count_true l.
Proof. by destruct b. Qed.

Lemma countSetBits_loop_spec d n i c :
  n + i = length (bits d) →
  countSetBits_loop d n i c = Ok (c + Z.of_nat (count_true (drop i (bits d))))%Z.
Proof.
  revert i c. induction n as [|n IH]; intros i c Hn; simpl.
  { rewrite drop_ge by lia. unfold count_true. simpl. f_equal. lia. }
  destruct (lookup_lt_is_Some_2 (bits d) i) as [b Hb]; [lia|].
  rewrite (getBitAtFromMSB_ok _ _ _ Hb). cbn [mbind outcome_bind].
  rewrite IH by lia. rewrite (drop_S _ _ _ Hb), count_true_cons.
  destruct b; simpl; f_equal; lia.
Qed.

Lemma countSetBits_spec d : countSetBits d = Ok (Z.of_nat (count_true (bits d))).
Proof.
  unfold countSetBits. rewrite countSetBits_loop_spec.
  - by rewrite drop_0.
  - rewrite length_bits. lia.
Qed.

(** ** Common prefixes *)

(** The length of the longest common prefix of two bit lists. *)
Fixpoint lcp (l k : list bool) : nat :=
  match l, k with
  | a :: l', b :: k' => if Bool.eqb a b then S (lcp l' k') else 0
  | _, _ => 0
  end.

Lemma countCommonPrefix_loop_spec d e n i c :
  length d = length e → n + i = length (bits d) →
  countCommonPrefix_loop d e n i c = Ok (c + lcp (drop i (bits d)) (drop i (bits e))).
Proof.
  intros Hlen. assert (length (bits d) = length (bits e)) as Hl
    by (rewrite !length_bits; lia).
  revert i c. induction n as [|n IH]; intros i c Hn; simpl.
  { rewrite !drop_ge by lia. simpl. f_equal. lia. }
  destruct (lookup_lt_is_Some_2 (bits d) i) as [a Ha]; [lia|].
  destruct (lookup_lt_is_Some_2 (bits e) i) as [b Hb]; [lia|].
  rewrite (getBitAtFromMSB_ok _ _ _ Ha), (getBitAtFromMSB_ok _ _ _ Hb).
  cbn [mbind outcome_bind]. rewrite Z_of_bit_eqb.
  rewrite (drop_S _ _ _ Ha), (drop_S _ _ _ Hb). simpl.
  destruct (Bool.eqb a b).
  - rewrite IH by lia. f_equal. lia.
  - f_equal. lia.
Qed.

Lemma countCommonPrefix_spec d e :
  length d = length e → countCommonPrefix d e = Ok (lcp (bits d) (bits e)).
Proof.
  intros Hl. unfold countCommonPrefix. rewrite countCommonPrefix_loop_spec.
  - by rewrite !drop_0.
  - done.
  - rewrite length_bits. lia.
Qed.

Lemma lcp_le_l l k : lcp l k ≤ length l.
Proof.
  revert k. induction l as [|a l IH]; intros [|b k]; simpl; try lia.
  destruct (Bool.eqb a b); [|lia]. specialize (IH k). lia.
Qed.

Lemma lcp_comm l k : lcp l k = lcp k l.
Proof.
  revert k. induction l as [|a l IH]; intros [|b k]; simpl; try done.
  rewrite IH. by destruct a, b.
Qed.

(** Two bit lists of one length that are not equal differ at their common
    prefix, and agree before it. *)
Lemma lcp_full l k : length l = length k → lcp l k = length l → l = k.
Proof.
  revert k. induction l as [|a l IH]; intros [|b k] Hlen; simpl in *; try lia; [done|].
  destruct (Bool.eqb a b) eqn:E; [|lia].
  apply Bool.eqb_prop in E as ->. intros. f_equal. apply IH; lia.
Qed.

Lemma lcp_self l : lcp l l = length l.
Proof. induction l as [|[] l IH]; simpl; congruence. Qed.

(** ** Reversal in place *)

Lemma insert_middle {A} (l1 l2 : list A) x y n :
  n = length l1 → <[n := y]> (l1 ++ x :: l2) = l1 ++ y :: l2.
Proof. intros ->. by rewrite insert_app_r_alt, Nat.sub_diag by lia. Qed.

Lemma swap_ends {A} (pre m post : list A) x y i j :
  i = length pre → j = length pre + S (length m) →
  (pre ++ x :: m ++ y :: post) !! i = Some x ∧
  (pre ++ x :: m ++ y :: post) !! j = Some y ∧
  <[j := x]> (<[i := y]> (pre ++ x :: m ++ y :: post)) = pre ++ y :: m ++ x :: post.
Proof.
  intros Hi Hj.
  assert (∀ a b, pre ++ a :: m ++ b :: post = (pre ++ a :: m) ++ b :: post) as E
    by (intros; by rewrite <-app_assoc).
  split; [by apply list_lookup_middle|]. split.
  - rewrite E. apply list_lookup_middle. by rewrite length_app.
  - rewrite insert_middle by done. rewrite (E y y), insert_middle; [by rewrite <-E|].
    by rewrite length_app.
Qed.

Lemma reverse_loop_spec {A} fuel (pre mid post : list A) :
  length mid ≤ fuel →
  reverse_loop fuel (pre ++ mid ++ post) (Z.of_nat (length pre))
    (Z.of_nat (length pre + length mid) - 1) =
    Ok (pre ++ reverse mid ++ post).
Proof.
  revert pre mid post. induction fuel as [|fuel IH]; intros pre mid post Hfuel.
  { destruct mid; simpl in *; [done|lia]. }
  cbn [reverse_loop]. destruct (Z.ltb_spec (Z.of_nat (length pre))
                   (Z.of_nat (length pre + length mid) - 1)) as [Hlt|Hge].
  2: { destruct mid as [|x [|y mid]]; simpl in *; [done|done|lia]. }
  destruct mid as [|x mid]; [simpl in *; lia|].
  destruct mid as [|y mid _] using rev_ind; [simpl in *; lia|].
  cbn [length] in Hlt, Hfuel |- *. rewrite length_app in Hlt, Hfuel |- *.
  cbn [length] in Hlt, Hfuel |- *.
  replace (pre ++ (x :: mid ++ [y]) ++ post) with (pre ++ x :: mid ++ y :: post)
    by (simpl; by rewrite <-!app_assoc).
  edestruct (swap_ends pre mid post x y) as (H1 & H2 & H3); [done..|].
  unfold index. rewrite Nat2Z.id.
  replace (Z.to_nat _) with (length pre + S (length mid)) by lia.
  rewrite H1, H2. cbn [mbind outcome_bind]. rewrite H3.
  specialize (IH (pre ++ [y]) mid (x :: post)).
  rewrite length_app in IH. cbn [length] in IH.
  rewrite reverse_cons, reverse_app. cbn [reverse rev_append app].
  rewrite <-!app_assoc in *. cbn [app] in *. rewrite <-IH by lia.
  f_equal; lia.
Qed.

Lemma reverseByteSlicesInPlace_spec {A} (l : list A) :
  reverseByteSlicesInPlace l = Ok (reverse l).
Proof.
  unfold reverseByteSlicesInPlace.
  pose proof (reverse_loop_spec (length l) [] l []) as H.
  rewrite app_nil_r in H. simpl in H. rewrite app_nil_r in H. by apply H.
Qed.

Lemma lcp_nth i l k : i < lcp l k → nth i l false = nth i k false.
Proof.
  revert i k. induction l as [|a l IH]; intros i [|b k]; simpl; try lia.
  destruct (Bool.eqb a b) eqn:E; [|lia]. apply Bool.eqb_prop in E as ->.
  destruct i as [|i]; [done|]. intros. apply IH. lia.
Qed.

Lemma lcp_differ l k :
  lcp l k < length l → lcp l k < length k →
  nth (lcp l k) k false = negb (nth (lcp l k) l false).
Proof.
  revert k. induction l as [|a l IH]; intros [|b k]; simpl; try lia.
  destruct (Bool.eqb a b) eqn:E; [intros; apply IH; lia|].
  intros _ _. by destruct a, b.
Qed.

Lemma lcp_prefix pre l k : pre `prefix_of` l → pre `prefix_of` k → length pre ≤ lcp l k.
Proof.
  intros [l' ->] [k' ->]. induction pre as [|a pre IH]; simpl; [lia|].
  rewrite Bool.eqb_reflx. lia.
Qed.
