(* ===== verification/MapStore.v ===== *)
(** * mapstore.go, mapstore_fixed.go: the [MapStore] interface, [SimpleMap]
    and [FixedSizeMap].

    The interface is the class [MapStore]; [LawfulMapStore n] states what the
    tree relies on for keys of [n] bytes: the store behaves as a finite map,
    and a [Get] or [Delete] of an absent key returns [InvalidKeyError]. *)

From Stdlib Require Import Strings.String.
From S2P Require Import Prelude.

Class MapStore (S : Type) : Type := {
  ms_Get : bytes → S → outcome bytes;
  ms_Set : bytes → bytes → S → outcome unit * S;
  ms_Delete : bytes → S → outcome unit * S;
}.

Class LawfulMapStore (n : nat) (S : Type) `{MapStore S} : Type := {
  (** [ms_rep s m]: the store [s] is well formed and holds the map [m]. *)
  ms_rep : S → gmap bytes bytes → Prop;
  ms_Get_law s m k : ms_rep s m → length k = n →
    ms_Get k s = match m !! k with
                 | Some v => Ok v
                 | None => Err (InvalidKeyError k)
                 end;
  ms_Set_law s m k v : ms_rep s m → length k = n →
    ∃ s', ms_Set k v s = (Ok tt, s') ∧ ms_rep s' (<[k := v]> m);
  ms_Delete_law s m k : ms_rep s m → length k = n →
    match m !! k with
    | Some _ => ∃ s', ms_Delete k s = (Ok tt, s') ∧ ms_rep s' (delete k m)
    | None => ms_Delete k s = (Err (InvalidKeyError k), s)
    end;
}.

(** [InvalidKeyError.Error]: [fmt.Sprintf] with the verb %x writes two
    hexadecimal digits for each byte. *)
Definition hex_digit (z : Z) : byte := byte_of_Z (if (z <? 10)%Z then 48 + z else 87 + z)%Z.

Definition InvalidKeyError_Error (Key : bytes) : bytes :=
  list_byte_of_string "invalid key: " ++
  Key ≫= (λ b, [hex_digit (byte_val b / 16); hex_digit (byte_val b `mod` 16)]%Z).

(** ** SimpleMap *)

(** A Go [map[string][]byte]. *)
Record SimpleMap : Type := mkSimpleMap { sm_m : gmap bytes bytes }.

Definition NewSimpleMap : SimpleMap := mkSimpleMap ∅.

Definition SimpleMap_Get (key : bytes) (sm : SimpleMap) : outcome bytes :=
  match sm_m sm !! key with
  | Some value => Ok value
  | None => Err (InvalidKeyError key)
  end.

Definition SimpleMap_Set (key value : bytes) (sm : SimpleMap) : outcome unit * SimpleMap :=
  (Ok tt, mkSimpleMap (<[key := value]> (sm_m sm))).

Definition SimpleMap_Delete (key : bytes) (sm : SimpleMap) : outcome unit * SimpleMap :=
  match sm_m sm !! key with
  | Some _ => (Ok tt, mkSimpleMap (delete key (sm_m sm)))
  | None => (Err (InvalidKeyError key), sm)
  end.

#[export] Instance SimpleMap_MapStore : MapStore SimpleMap := {|
  ms_Get := SimpleMap_Get;
  ms_Set := SimpleMap_Set;
  ms_Delete := SimpleMap_Delete;
|}.

#[export] Program Instance SimpleMap_lawful n : LawfulMapStore n SimpleMap := {|
  ms_rep s m := sm_m s = m;
|}.
Next Obligation. by intros n s m k <- _. Qed.
Next Obligation. intros n s m k v <- _. by eexists. Qed.
Next Obligation.
  intros n s m k <- _. simpl. unfold SimpleMap_Delete.
  destruct (sm_m s !! k); eauto.
Qed.

(** ** Maps keyed by arrays of a fixed length *)

(** A Go map keyed by byte arrays of length [n], through a conversion of the
    key that panics on another length.  [FixedSizeMap] is the case [n = 32]. *)
Record KeyedMap (n : nat) : Type := mkKeyedMap { km_m : gmap bytes bytes }.
Arguments mkKeyedMap {n} km_m.
Arguments km_m {n} k.

(** [toFixedKey]: the array [k] of [n] bytes starts zeroed and receives a
    copy of [key]. *)
Definition toFixedKey (n : nat) (key : bytes) : outcome bytes :=
  if bool_decide (length key ≠ n) then Panic else Ok (make_copy n key).

Definition KeyedMap_Get {n} (key : bytes) (sm : KeyedMap n) : outcome bytes :=
  k ← toFixedKey n key;
  match km_m sm !! k with
  | Some value => Ok value
  | None => Err (InvalidKeyError key)
  end.

Definition KeyedMap_Set {n} (key value : bytes) (sm : KeyedMap n) : outcome unit * KeyedMap n :=
  match toFixedKey n key with
  | Ok k => (Ok tt, mkKeyedMap (<[k := value]> (km_m sm)))
  | Err e => (Err e, sm)
  | Panic => (Panic, sm)
  end.

Definition KeyedMap_Delete {n} (key : bytes) (sm : KeyedMap n) : outcome unit * KeyedMap n :=
  match toFixedKey n key with
  | Ok k =>
      match km_m sm !! k with
      | Some _ => (Ok tt, mkKeyedMap (delete k (km_m sm)))
      | None => (Err (InvalidKeyError key), sm)
      end
  | Err e => (Err e, sm)
  | Panic => (Panic, sm)
  end.

#[export] Instance KeyedMap_MapStore n : MapStore (KeyedMap n) := {|
  ms_Get := KeyedMap_Get;
  ms_Set := KeyedMap_Set;
  ms_Delete := KeyedMap_Delete;
|}.

Lemma toFixedKey_ok n k : length k = n → toFixedKey n k = Ok k.
Proof.
  intros Hk. unfold toFixedKey. rewrite bool_decide_false by lia.
  by rewrite make_copy_id.
Qed.

#[export] Program Instance KeyedMap_lawful n : LawfulMapStore n (KeyedMap n) := {|
  ms_rep s m := km_m s = m;
|}.
Next Obligation.
  intros n s m k <- Hk. simpl. unfold KeyedMap_Get. by rewrite toFixedKey_ok.
Qed.
Next Obligation.
  intros n s m k v <- Hk. simpl. unfold KeyedMap_Set. rewrite toFixedKey_ok by done.
  by eexists.
Qed.
Next Obligation.
  intros n s m k <- Hk. simpl. unfold KeyedMap_Delete. rewrite toFixedKey_ok by done.
  destruct (km_m s !! k); eauto.
Qed.

(** ** FixedSizeMap *)

Abbreviation FixedSizeMap := (KeyedMap 32).

Definition NewFixedSizeMap : FixedSizeMap := mkKeyedMap ∅.

(** The capacity [cap] only sizes the Go map in advance. *)
Definition NewFixedSizeMapWithCapacity (cap : nat) : FixedSizeMap := mkKeyedMap ∅.

Definition FixedSizeMap_Len (sm : FixedSizeMap) : nat := size (km_m sm).
