(* ===== verification/ArenaMap.v ===== *)
(** * mapstore_arena.go: the slab arena store.

    [ArenaFixedSizeMap] keeps the bytes of its values in slabs and maps a key
    to a slab number, an offset and a length, each a uint32.  The store is
    modelled with the lengths and capacities of its slices, so the panics and
    the truncations of the code are those of the model. *)

From S2P Require Import Prelude MapStore.

(** A Go byte slice that owns its backing array: its bytes and its capacity.
    The array is zero beyond the length. *)
Record goSlice : Type := mkSlice { sl_bytes : bytes; sl_cap : nat }.

Definition nilSlice : goSlice := mkSlice [] 0.

Definition sl_backing (s : goSlice) : bytes :=
  sl_bytes s ++ replicate (sl_cap s - length (sl_bytes s)) x00.

(** [s[lo:hi]]: the bounds are checked against the capacity. *)
Definition sl_slice (s : goSlice) (lo hi : Z) : outcome bytes :=
  if bool_decide (0 ≤ lo ≤ hi ∧ hi ≤ Z.of_nat (sl_cap s))%Z
  then Ok (take (Z.to_nat (hi - lo)) (drop (Z.to_nat lo) (sl_backing s)))
  else Panic.

(** [uint32(n)] *)
Definition uint32 (z : Z) : Z := (z `mod` 2 ^ 32)%Z.

Record arenaEntry : Type := mkEntry { slab : Z; off : Z; ln : Z }.

Record ArenaFixedSizeMap : Type := mkArena {
  am_m : gmap bytes arenaEntry;
  am_slabs : list goSlice;
  am_cur : goSlice;
  am_slabSize : nat;
}.

Definition defaultArenaSlabSize : nat := 256 * 1024.

Definition NewArenaFixedSizeMapWithSlabSize (slabSize : nat) : ArenaFixedSizeMap :=
  let slabSize := if slabSize <? 64 then 64 else slabSize in
  mkArena ∅ [] nilSlice slabSize.

Definition NewArenaFixedSizeMap : ArenaFixedSizeMap :=
  NewArenaFixedSizeMapWithSlabSize defaultArenaSlabSize.

Definition Arena_Get (key : bytes) (am : ArenaFixedSizeMap) : outcome bytes :=
  k ← toFixedKey 32 key;
  match am_m am !! k with
  | Some e =>
      s ← index (am_slabs am) (Z.to_nat (slab e));
      sl_slice s (off e) (uint32 (off e + ln e))
  | None => Err (InvalidKeyError key)
  end.

(** The first part of [Set]: a slab with room for [n] more bytes. *)
Definition Arena_grow (n : nat) (am : ArenaFixedSizeMap) : ArenaFixedSizeMap :=
  if sl_cap (am_cur am) <? length (sl_bytes (am_cur am)) + n then
    let size := if am_slabSize am <? n then n else am_slabSize am in
    let cur := mkSlice [] size in
    mkArena (am_m am) (am_slabs am ++ [cur]) cur (am_slabSize am)
  else am.

Definition Arena_Set (key value : bytes) (am : ArenaFixedSizeMap)
    : outcome unit * ArenaFixedSizeMap :=
  let n := length value in
  let am := Arena_grow n am in
  let off := length (sl_bytes (am_cur am)) in
  let cur := mkSlice (sl_bytes (am_cur am) ++ value) (sl_cap (am_cur am)) in
  match am_slabs am with
  | [] => (Panic, mkArena (am_m am) [] cur (am_slabSize am))
  | _ :: _ =>
      let slabs := <[(length (am_slabs am) - 1)%nat := cur]> (am_slabs am) in
      match toFixedKey 32 key with
      | Ok k =>
          let e := mkEntry (uint32 (Z.of_nat (length slabs) - 1)) (uint32 (Z.of_nat off))
                     (uint32 (Z.of_nat n)) in
          (Ok tt, mkArena (<[k := e]> (am_m am)) slabs cur (am_slabSize am))
      | Err e => (Err e, mkArena (am_m am) slabs cur (am_slabSize am))
      | Panic => (Panic, mkArena (am_m am) slabs cur (am_slabSize am))
      end
  end.

Definition Arena_Delete (key : bytes) (am : ArenaFixedSizeMap)
    : outcome unit * ArenaFixedSizeMap :=
  match toFixedKey 32 key with
  | Ok k =>
      match am_m am !! k with
      | Some _ => (Ok tt, mkArena (delete k (am_m am)) (am_slabs am) (am_cur am) (am_slabSize am))
      | None => (Err (InvalidKeyError key), am)
      end
  | Err e => (Err e, am)
  | Panic => (Panic, am)
  end.

#[export] Instance Arena_MapStore : MapStore ArenaFixedSizeMap := {|
  ms_Get := Arena_Get;
  ms_Set := Arena_Set;
  ms_Delete := Arena_Delete;
|}.

Definition Arena_Len (am : ArenaFixedSizeMap) : nat := size (am_m am).

Definition Arena_SlabBytes (am : ArenaFixedSizeMap) : nat :=
  foldl (λ total s, total + length (sl_bytes s)) 0 (am_slabs am).

Definition Arena_Reset (am : ArenaFixedSizeMap) : ArenaFixedSizeMap :=
  mkArena ∅ (take 0 (am_slabs am)) nilSlice (am_slabSize am).

(** ** Sequences of operations on a store *)

Inductive map_op : Type :=
  | OpGet (key : bytes)
  | OpSet (key value : bytes)
  | OpDelete (key : bytes).

(** The results of the operations in order; a panic ends the sequence. *)
Fixpoint run_ops {S} `{MapStore S} (ops : list map_op) (s : S) : list (outcome bytes) :=
  match ops with
  | [] => []
  | op :: ops' =>
      let '(o, s') :=
        match op with
        | OpGet k => (ms_Get k s, s)
        | OpSet k v => let '(o, s') := ms_Set k v s in (_ ← o; Ok [], s')
        | OpDelete k => let '(o, s') := ms_Delete k s in (_ ← o; Ok [], s')
        end in
      match o with
      | Panic => [Panic]
      | _ => o :: run_ops ops' s'
      end
  end.

(** The values set are not empty and fit into a uint32. *)
Definition op_fits (op : map_op) : bool :=
  match op with
  | OpSet _ v => bool_decide (v ≠ [] ∧ (Z.of_nat (length v) < 2 ^ 32)%Z)
  | _ => true
  end.

(** ** The invariant *)

(** The entry of a key points to the bytes of its value. *)
Definition entry_value (slabs : list goSlice) (e : arenaEntry) (v : bytes) : Prop :=
  ∃ s pre post, slabs !! Z.to_nat (slab e) = Some s ∧ sl_bytes s = pre ++ v ++ post ∧
    off e = Z.of_nat (length pre) ∧ ln e = Z.of_nat (length v).

(** Slabs fit into their capacity, which fits into a uint32; the current
    slab is the last one; the entries hold the map; [budget] more values can
    be set before the slab numbers overflow. *)
Record arena_rep (am : ArenaFixedSizeMap) (m : gmap bytes bytes) (budget : nat) : Prop := {
  ar_slabs : Forall (λ s, length (sl_bytes s) ≤ sl_cap s ∧ (Z.of_nat (sl_cap s) < 2 ^ 32)%Z)
               (am_slabs am);
  ar_cur : am_cur am = default nilSlice (last (am_slabs am));
  ar_size : 0 < am_slabSize am ∧ (Z.of_nat (am_slabSize am) < 2 ^ 32)%Z;
  ar_map : map_Forall2 (λ _ e v, entry_value (am_slabs am) e v) (am_m am) m;
  ar_budget : (Z.of_nat (length (am_slabs am) + budget) ≤ 2 ^ 32)%Z;
}.

Lemma uint32_small z : (0 ≤ z < 2 ^ 32)%Z → uint32 z = z.
Proof. apply Z.mod_small. Qed.

Lemma arena_lookup am m budget k :
  arena_rep am m budget →
  match am_m am !! k, m !! k with
  | Some e, Some v => entry_value (am_slabs am) e v
  | None, None => True
  | _, _ => False
  end.
Proof. intros Hr. pose proof (ar_map _ _ _ Hr k) as Hk. by inversion Hk. Qed.

(** An entry yields the value it points to. *)
Lemma entry_value_slice slabs e v :
  Forall (λ s, length (sl_bytes s) ≤ sl_cap s ∧ (Z.of_nat (sl_cap s) < 2 ^ 32)%Z) slabs →
  entry_value slabs e v →
  (s ← index slabs (Z.to_nat (slab e)); sl_slice s (off e) (uint32 (off e + ln e))) = Ok v.
Proof.
  intros Hs (s & pre & post & Hl & Hb & Ho & Hn).
  destruct (Forall_lookup_1 _ _ _ _ Hs Hl) as [Hcap H32].
  assert (length pre + (length v + length post) ≤ sl_cap s) as Hle
    by (rewrite Hb, !length_app in Hcap; lia).
  unfold index. rewrite Hl. cbn [mbind outcome_bind]. unfold sl_slice.
  rewrite Ho, Hn, uint32_small by lia.
  rewrite bool_decide_true by lia. f_equal. unfold sl_backing. rewrite Hb, Nat2Z.id.
  rewrite <-!(assoc_L (++)), drop_app_length.
  replace (Z.to_nat _) with (length v) by lia. apply take_app_length.
Qed.

Lemma arena_Get_spec am m budget key :
  arena_rep am m budget →
  ms_Get key am = ms_Get key (mkKeyedMap (n := 32) m).
Proof.
  intros Hr. cbn. unfold Arena_Get, KeyedMap_Get. destruct (toFixedKey 32 key) as [k| |]; [|done..].
  cbn [mbind outcome_bind km_m]. pose proof (arena_lookup _ _ _ k Hr) as Hk.
  destruct (am_m am !! k) as [e|], (m !! k) as [v|]; try done.
  by apply entry_value_slice, Hk; destruct Hr.
Qed.

Lemma arena_Delete_spec am m budget key :
  arena_rep am m budget →
  (ms_Delete key am).1 = (ms_Delete key (mkKeyedMap (n := 32) m)).1 ∧
  arena_rep (ms_Delete key am).2 (km_m (ms_Delete key (mkKeyedMap (n := 32) m)).2) budget.
Proof.
  intros Hr. cbn. unfold Arena_Delete, KeyedMap_Delete.
  destruct (toFixedKey 32 key) as [k| |]; [|done..].
  cbn [km_m]. pose proof (arena_lookup _ _ _ k Hr) as Hk.
  destruct (am_m am !! k) as [e|], (m !! k) as [v|]; try done.
  split; [done|]. destruct Hr. constructor; try done. by apply map_Forall2_delete.
Qed.

(** Making room keeps the map, and leaves a current slab with room. *)
Lemma arena_grow_spec am m budget n :
  arena_rep am m (S budget) → 0 < n → (Z.of_nat n < 2 ^ 32)%Z →
  ∃ slabs cur, am_slabs (Arena_grow n am) = slabs ++ [cur] ∧
    am_cur (Arena_grow n am) = cur ∧ length (sl_bytes cur) + n ≤ sl_cap cur ∧
    arena_rep (Arena_grow n am) m budget.
Proof.
  intros [Hs Hc [Hz1 Hz2] Hm Hb] Hn H32. unfold Arena_grow.
  destruct (Nat.ltb_spec (sl_cap (am_cur am)) (length (sl_bytes (am_cur am)) + n)) as [Hlt|Hge].
  - set (size := if am_slabSize am <? n then n else am_slabSize am).
    assert (n ≤ size ∧ (Z.of_nat size < 2 ^ 32)%Z) as [Hn1 Hn2]
      by (subst size; destruct (Nat.ltb_spec (am_slabSize am) n); lia).
    eexists _, _. split_and!; [done|done|done|]. constructor; cbn.
    + apply Forall_app. split; [done|]. by repeat constructor; [cbn; lia|].
    + by rewrite last_snoc.
    + done.
    + eapply map_Forall2_impl; [exact Hm|].
      intros k e v (s & pre & post & Hl & ?). exists s, pre, post.
      split; [by apply lookup_app_l_Some|done].
    + rewrite length_app. cbn [length]. lia.
  - assert (am_slabs am ≠ []) as Hne.
    { intros E. rewrite E in Hc. rewrite Hc in Hge. cbn in Hge. lia. }
    destruct (am_slabs am) as [|cur slabs _] eqn:E using rev_ind; [done|].
    rewrite last_snoc in Hc. cbn in Hc. exists slabs, cur.
    split_and!; [done|done|by rewrite <-Hc|]. constructor; rewrite ?E; try done.
    + by rewrite last_snoc.
    + lia.
Qed.

Lemma arena_Set_spec am m budget key value :
  arena_rep am m (S budget) → value ≠ [] → (Z.of_nat (length value) < 2 ^ 32)%Z →
  (ms_Set key value am).1 = (ms_Set key value (mkKeyedMap (n := 32) m)).1 ∧
  arena_rep (ms_Set key value am).2 (km_m (ms_Set key value (mkKeyedMap (n := 32) m)).2) budget.
Proof.
  intros Hr Hv H32.
  destruct (arena_grow_spec am m budget (length value) Hr) as (slabs & cur & E1 & E2 & Hle & Hr');
    [by destruct value; [|cbn; lia]|done|]. clear Hr.
  cbn. unfold Arena_Set, KeyedMap_Set. rewrite E1, E2.
  assert (∀ {A B} (l : list A) x (a b : B),
    (match l ++ [x] with [] => a | _ :: _ => b end) = b) as Hmatch by by intros ?? [].
  rewrite Hmatch. clear Hmatch.
  set (cur' := mkSlice (sl_bytes cur ++ value) (sl_cap cur)).
  assert (<[(length (slabs ++ [cur]) - 1)%nat := cur']> (slabs ++ [cur]) = slabs ++ [cur'])
    as ->.
  { rewrite length_app. cbn [length]. rewrite Nat.add_sub. by rewrite insert_app_r_alt, Nat.sub_diag. }
  destruct Hr' as [Hs Hc Hz Hm Hb]. rewrite E1 in *.
  apply Forall_app in Hs as [Hs1 Hs2]. apply Forall_singleton in Hs2 as [Hcap Hcap32].
  assert (∀ e v, entry_value (slabs ++ [cur]) e v → entry_value (slabs ++ [cur']) e v) as Hmono.
  { intros e v (s & pre & post & Hl & Hbytes & Ho & Hn).
    apply lookup_snoc_Some in Hl as [[Hlt Hl]|[Heq <-]].
    - exists s, pre, post. split; [|done]. by apply lookup_app_l_Some.
    - exists cur', pre, (post ++ value). split_and!; [|cbn|done|done].
      + by rewrite lookup_app_r, Heq, Nat.sub_diag by lia.
      + by rewrite Hbytes, <-!(assoc_L (++)). }
  assert (∀ M M', map_Forall2 (λ _ e v, entry_value (slabs ++ [cur']) e v) M M' →
    arena_rep (mkArena M (slabs ++ [cur']) cur' (am_slabSize (Arena_grow (length value) am))) M'
      budget) as Hrep.
  { intros M M' HM. constructor; cbn; try done.
    - apply Forall_app. split; [done|]. repeat constructor; [|done]. cbn.
      rewrite length_app. lia.
    - by rewrite last_snoc.
    - rewrite length_app in *. done. }
  assert (map_Forall2 (λ _ e v, entry_value (slabs ++ [cur']) e v)
    (am_m (Arena_grow (length value) am)) m) as Hm'
    by (eapply map_Forall2_impl; [exact Hm|]; intros ? e v; apply Hmono).
  destruct (toFixedKey 32 key) as [k| |]; cbn; (split; [done|]); apply Hrep; [|done..].
  apply map_Forall2_insert_2; [|done].
  exists cur', (sl_bytes cur), []. cbn [slab off ln sl_bytes cur'].
  rewrite !length_app in *. cbn [length] in *.
  rewrite !uint32_small by lia. rewrite app_nil_r. split_and!; [|done..].
  rewrite lookup_app_r by lia. replace (_ - _) with 0 by lia. done.
Qed.

(** The results of a sequence of operations that fit. *)
Lemma run_ops_arena ops : ∀ am m budget,
  arena_rep am m budget → forallb op_fits ops = true → length ops ≤ budget →
  run_ops ops am = run_ops ops (mkKeyedMap (n := 32) m).
Proof.
  induction ops as [|op ops IH]; intros am m budget Hr Hf Hlen; [done|].
  cbn [forallb length] in *. apply andb_prop in Hf as [Hf1 Hf2].
  destruct budget as [|budget]; [lia|].
  assert (arena_rep am m budget) as Hr1 by (destruct Hr; constructor; try done; lia).
  destruct op as [k|k v|k]; cbn [run_ops].
  - rewrite (arena_Get_spec am m budget k Hr1).
    destruct (ms_Get k _); [..|done]; f_equal; apply (IH _ _ budget); done || lia.
  - apply bool_decide_eq_true in Hf1 as [Hv Hv32].
    destruct (arena_Set_spec am m budget k v Hr Hv Hv32) as [E Hr2].
    destruct (ms_Set k v am) as [o s], (ms_Set k v (mkKeyedMap (n := 32) m)) as [o' [m']].
    cbn [fst snd km_m] in *. subst o'.
    destruct o; cbn [mbind outcome_bind]; [..|done]; f_equal; apply (IH _ _ budget); done || lia.
  - destruct (arena_Delete_spec am m budget k Hr1) as [E Hr2].
    destruct (ms_Delete k am) as [o s], (ms_Delete k (mkKeyedMap (n := 32) m)) as [o' [m']].
    cbn [fst snd km_m] in *. subst o'.
    destruct o; cbn [mbind outcome_bind]; [..|done]; f_equal; apply (IH _ _ budget); done || lia.
Qed.

Lemma arena_rep_new slabSize :
  (Z.of_nat slabSize < 2 ^ 32)%Z →
  arena_rep (NewArenaFixedSizeMapWithSlabSize slabSize) ∅ (Z.to_nat (2 ^ 32)).
Proof.
  intros H32. unfold NewArenaFixedSizeMapWithSlabSize.
  constructor; cbn [am_slabs am_cur am_slabSize am_m].
  - constructor.
  - done.
  - destruct (Nat.ltb_spec slabSize 64); lia.
  - apply map_Forall2_empty.
  - cbn [length]. lia.
Qed.

Lemma foldl_add_bytes l n :
  foldl (λ total s, total + length (sl_bytes s)) n l =
  n + foldl (λ total s, total + length (sl_bytes s)) 0 l.
Proof.
  revert n. induction l as [|s l IH]; intros n; cbn [foldl]; [lia|].
  rewrite (IH (n + _)), (IH (0 + _)). lia.
Qed.

Lemma Arena_SlabBytes_app m l1 l2 c1 c2 c3 z1 z2 z3 :
  Arena_SlabBytes (mkArena m (l1 ++ l2) c1 z1) =
  Arena_SlabBytes (mkArena m l1 c2 z2) + Arena_SlabBytes (mkArena m l2 c3 z3).
Proof. unfold Arena_SlabBytes. cbn [am_slabs]. by rewrite foldl_app, foldl_add_bytes. Qed.

(** ** What the arena store guarantees *)

(** C18: the arena store behaves as the fixed-size map: every sequence of
    operations from new stores gives the same results, panics included, as
    long as the slab size and the values fit into a uint32, no value is
    empty, and there are at most 2^32 operations. *)
Theorem arena_refines_FixedSizeMap slabSize ops :
  (Z.of_nat slabSize < 2 ^ 32)%Z → forallb op_fits ops = true →
  (Z.of_nat (length ops) ≤ 2 ^ 32)%Z →
  run_ops ops (NewArenaFixedSizeMapWithSlabSize slabSize) = run_ops ops NewFixedSizeMap.
Proof.
  intros H32 Hops Hlen. eapply run_ops_arena; [by apply arena_rep_new|done|lia].
Qed.

(** The bytes of overwritten and deleted values stay in the slabs: Set
    grows SlabBytes by the length of the value whatever the key held, and
    Delete leaves it; Reset drops everything, bytes, entries and slabs. *)
Theorem Arena_SlabBytes_correct am m budget key value :
  arena_rep am m (S budget) → op_fits (OpSet key value) = true →
  Arena_SlabBytes (ms_Set key value am).2 = Arena_SlabBytes am + length value ∧
  Arena_SlabBytes (ms_Delete key am).2 = Arena_SlabBytes am ∧
  Arena_SlabBytes (Arena_Reset am) = 0 ∧ Arena_Len (Arena_Reset am) = 0.
Proof.
  intros Hr [Hv H32]%bool_decide_eq_true.
  split_and!; [|cbn; unfold Arena_Delete; by repeat case_match|done|done].
  destruct (arena_grow_spec am m budget (length value) Hr) as (slabs & cur & E1 & E2 & _ & _);
    [by destruct value; [|cbn; lia]|done|].
  assert (Arena_SlabBytes (Arena_grow (length value) am) = Arena_SlabBytes am) as <-.
  { unfold Arena_grow. case_match; [|done]. destruct am as [M l c z]. cbn [am_m am_slabs].
    rewrite (Arena_SlabBytes_app _ _ _ _ c c z z z). cbn. lia. }
  cbn. unfold Arena_Set. destruct (Arena_grow (length value) am) as [M l c z].
  cbn [am_slabs am_cur] in *. subst l c.
  assert (∀ o m', Arena_SlabBytes
    (o : outcome unit, mkArena m' (<[(length (slabs ++ [cur]) - 1)%nat :=
       mkSlice (sl_bytes cur ++ value) (sl_cap cur)]> (slabs ++ [cur]))
       (mkSlice (sl_bytes cur ++ value) (sl_cap cur)) z).2 =
    Arena_SlabBytes (mkArena M (slabs ++ [cur]) cur z) + length value) as Hset.
  { intros o m'. rewrite length_app. cbn [length snd]. rewrite Nat.add_sub.
    rewrite insert_app_r_alt, Nat.sub_diag by lia.
    rewrite !(Arena_SlabBytes_app _ _ _ _ cur cur z z z). cbn. rewrite length_app.
    unfold Arena_SlabBytes. cbn. lia. }
  destruct (slabs ++ [cur]) as [|s0 l0] eqn:El; [by destruct slabs|].
  destruct (toFixedKey 32 key); apply Hset.
Qed.

(** An empty value breaks the store: Set of an empty value panics on a
    store without slabs, new or just reset, for every key, where the other
    stores accept it. *)
Theorem arena_empty_value_panics slabSize am key :
  (ms_Set key [] (NewArenaFixedSizeMapWithSlabSize slabSize)).1 = Panic ∧
  (ms_Set key [] (Arena_Reset am)).1 = Panic ∧
  (length key = 32 → (ms_Set key [] NewFixedSizeMap).1 = Ok tt).
Proof.
  split_and!; [done|done|]. intros Hk. cbn. unfold KeyedMap_Set. by rewrite toFixedKey_ok.
Qed.

(** Lengths are kept as uint32: a new store returns, for a value of n
    bytes that was just set, its first n mod 2^32 bytes; the value itself
    when it is shorter than 2^32. *)
Theorem arena_truncates_length slabSize key value :
  length key = 32 → value ≠ [] →
  ms_Get key (ms_Set key value (NewArenaFixedSizeMapWithSlabSize slabSize)).2 =
    Ok (take (Z.to_nat (Z.of_nat (length value) `mod` 2 ^ 32)) value).
Proof.
  intros Hk Hv. unfold NewArenaFixedSizeMapWithSlabSize.
  set (size := if slabSize <? 64 then 64 else slabSize). cbn [ms_Set ms_Get Arena_MapStore].
  unfold Arena_Set, Arena_grow. cbn [am_cur sl_bytes sl_cap nilSlice length am_slabSize].
  destruct (Nat.ltb_spec 0 (0 + length value)); [|by destruct value; [|cbn in *; lia]].
  cbn [am_slabs am_cur am_m sl_bytes sl_cap app length insert list_insert list_alter Nat.sub].
  rewrite toFixedKey_ok by done. unfold Arena_Get. cbn [snd].
  rewrite toFixedKey_ok by done. cbn [mbind outcome_bind am_m am_slabs].
  rewrite lookup_insert_eq. cbn [slab off ln].
  change (uint32 (Z.of_nat 0)) with 0%Z. rewrite Z.add_0_l.
  change (index _ _) with (Ok (mkSlice value (if size <? length value then length value else size))).
  cbn [mbind outcome_bind]. unfold sl_slice, sl_backing. cbn [sl_bytes sl_cap].
  unfold uint32. rewrite Zmod_mod. set (n := (Z.of_nat (length value) `mod` 2 ^ 32)%Z).
  assert (0 ≤ n ≤ Z.of_nat (length value))%Z as Hn.
  { subst n. pose proof (Z.mod_pos_bound (Z.of_nat (length value)) (2 ^ 32)).
    pose proof (Z.mod_le (Z.of_nat (length value)) (2 ^ 32)). lia. }
  rewrite bool_decide_true
    by (destruct (Nat.ltb_spec size (length value)); lia).
  f_equal. rewrite drop_0, Z.sub_0_r. rewrite take_app_le by lia. done.
Qed.

(** ** Witnesses *)
Section witnesses.

Definition arena_key (b : byte) : bytes := replicate 32 b.

Definition arena_ops : list map_op :=
  [OpSet (arena_key x00) [x01]; OpGet (arena_key x00); OpSet (arena_key x00) (replicate 70 x01);
   OpSet (arena_key x01) [x00; x01]; OpGet (arena_key x00); OpDelete (arena_key x00);
   OpGet (arena_key x00); OpGet (arena_key x01); OpDelete [x00]; OpGet (arena_key x01)].

Lemma arena_refines_FixedSizeMap_witness :
  run_ops arena_ops (NewArenaFixedSizeMapWithSlabSize 64) = run_ops arena_ops NewFixedSizeMap.
Proof.
  apply arena_refines_FixedSizeMap; [reflexivity|vm_compute; reflexivity|vm_compute; discriminate].
Defined.

Lemma Arena_SlabBytes_correct_witness :
  let am := NewArenaFixedSizeMapWithSlabSize 64 in
  let key := arena_key x01 in
  Arena_SlabBytes (ms_Set key [x01] am).2 = Arena_SlabBytes am + length [x01] ∧
  Arena_SlabBytes (ms_Delete key am).2 = Arena_SlabBytes am ∧
  Arena_SlabBytes (Arena_Reset am) = 0 ∧ Arena_Len (Arena_Reset am) = 0.
Proof.
  intros am key. apply (Arena_SlabBytes_correct am ∅ 0); [|vm_compute; reflexivity].
  constructor; cbn; [constructor|done|split; lia|apply map_Forall2_empty|lia].
Defined.

Lemma arena_empty_value_panics_witness :
  (ms_Set (arena_key x00) [] (NewArenaFixedSizeMapWithSlabSize 64)).1 = Panic ∧
  (ms_Set (arena_key x00) [] (Arena_Reset NewArenaFixedSizeMap)).1 = Panic ∧
  (length (arena_key x00) = 32 → (ms_Set (arena_key x00) [] NewFixedSizeMap).1 = Ok tt).
Proof. apply arena_empty_value_panics. Defined.

Lemma arena_truncates_length_witness :
  ms_Get (arena_key x00)
    (ms_Set (arena_key x00) [x01; x00] (NewArenaFixedSizeMapWithSlabSize 64)).2 =
    Ok (take (Z.to_nat (Z.of_nat (length [x01; x00]) `mod` 2 ^ 32)) [x01; x00]).
Proof. apply arena_truncates_length; [reflexivity|discriminate]. Defined.
End witnesses.
