(* ===== verification/Memory.v ===== *)
(** * Go's byte slices in memory.

    The stores return and keep byte slices, which are references: arrays in a
    memory, seen through an offset, a length and a capacity.  This file has
    the memory, the slice operations that the stores use, and [extends]: the
    used parts of the arrays, on which slices may rely, grow and never
    change. *)

From S2P Require Import Prelude.

(** The arrays that were allocated, in order.  They are never freed. *)
Abbreviation memory := (list bytes).

Record sref : Type := mkRef { r_array : nat; r_off : nat; r_len : nat; r_cap : nat }.

#[export] Instance sref_eq_dec : EqDecision sref.
Proof. solve_decision. Defined.

Definition nilRef : sref := mkRef 0 0 0 0.

Definition array (h : memory) (a : nat) : bytes := default [] (h !! a).

(** The bytes of a slice. *)
Definition read (h : memory) (s : sref) : bytes :=
  take (r_len s) (drop (r_off s) (array h (r_array s))).

(** A slice over a new array with the bytes [v] and no spare capacity. *)
Definition alloc (v : bytes) (h : memory) : sref * memory :=
  (mkRef (length h) 0 (length v) (length v), h ++ [v]).

(** [make([]byte, 0, size)] *)
Definition make_empty (size : nat) (h : memory) : sref * memory :=
  (mkRef (length h) 0 0 size, h ++ [replicate size x00]).

Definition overwrite (o : nat) (v l : bytes) : bytes :=
  take o l ++ v ++ drop (o + length v) l.

(** [copy(s[i:], v)], for bytes that fit. *)
Definition write (s : sref) (i : nat) (v : bytes) (h : memory) : memory :=
  alter (overwrite (r_off s + i) v) (r_array s) h.

(** [append(s, v...)]: in place when the capacity allows.  A new array has no
    spare capacity here; the language leaves it open, and the arena never
    comes to need one. *)
Definition append (s : sref) (v : bytes) (h : memory) : sref * memory :=
  if r_len s + length v <=? r_cap s
  then (mkRef (r_array s) (r_off s) (r_len s + length v) (r_cap s), write s (r_len s) v h)
  else alloc (read h s ++ v) h.

(** [s[lo:hi]]: the bounds are checked against the capacity, and the result
    keeps the capacity that is left. *)
Definition reslice (s : sref) (lo hi : Z) : outcome sref :=
  if bool_decide (0 ≤ lo ≤ hi ∧ hi ≤ Z.of_nat (r_cap s))%Z
  then Ok (mkRef (r_array s) (r_off s + Z.to_nat lo) (Z.to_nat (hi - lo)) (r_cap s - Z.to_nat lo))
  else Panic.

Lemma array_snoc h v a : array (h ++ [v]) a = if decide (a = length h) then v else array h a.
Proof.
  unfold array. case_decide as Ha.
  - subst a. by rewrite lookup_app_r, Nat.sub_diag by done.
  - destruct (decide (a < length h)).
    + by rewrite lookup_app_l.
    + rewrite !lookup_ge_None_2; [done|lia|rewrite length_app; cbn; lia].
Qed.

Lemma read_alloc v h : read (alloc v h).2 (alloc v h).1 = v.
Proof.
  unfold read. cbn. rewrite array_snoc, decide_True by done.
  by rewrite drop_0, take_ge.
Qed.

Lemma array_write s i v h a :
  array (write s i v h) a =
    if decide (a = r_array s) then
      if decide (r_array s < length h) then overwrite (r_off s + i) v (array h a) else array h a
    else array h a.
Proof.
  unfold array, write. case_decide as Ha; [subst a|by rewrite list_lookup_alter_ne].
  rewrite list_lookup_alter_eq. case_decide as Hl.
  - by apply lookup_lt_is_Some in Hl as [l ->].
  - by rewrite lookup_ge_None_2 by lia.
Qed.

Lemma length_write s i v h : length (write s i v h) = length h.
Proof. apply length_alter. Qed.

Lemma length_overwrite o v l : o + length v ≤ length l → length (overwrite o v l) = length l.
Proof. intros H. unfold overwrite. rewrite !length_app, length_take, length_drop. lia. Qed.

Lemma take_overwrite o n v l : n ≤ o → o ≤ length l → take n (overwrite o v l) = take n l.
Proof.
  intros Hn Ho. unfold overwrite. rewrite take_app_le by (rewrite length_take; lia).
  by rewrite take_take, Nat.min_l by lia.
Qed.

Lemma take_overwrite_end o v l :
  o ≤ length l → take (o + length v) (overwrite o v l) = take o l ++ v.
Proof.
  intros Ho. unfold overwrite. rewrite (assoc_L (++)). apply take_app_length'.
  rewrite length_app, length_take. lia.
Qed.

(** Reading what was overwritten. *)
Lemma take_drop_overwrite o v l n :
  length v ≤ n → o + n ≤ length l →
  take n (drop o (overwrite o v l)) = v ++ drop (length v) (take n (drop o l)).
Proof.
  intros Hv Hl. unfold overwrite. rewrite drop_app_length' by (rewrite length_take; lia).
  rewrite take_app_ge by done. f_equal. rewrite <-drop_drop, take_drop_commute.
  do 2 f_equal. lia.
Qed.

Lemma read_append s v h :
  r_array s < length h → r_off s + r_len s ≤ length (array h (r_array s)) →
  read (append s v h).2 (append s v h).1 = read h s ++ v.
Proof.
  intros Ha Hl. unfold append. destruct (Nat.leb_spec (r_len s + length v) (r_cap s)).
  - unfold read. cbn. rewrite array_write, !decide_True by done. rewrite !take_drop_commute.
    rewrite Nat.add_assoc, take_overwrite_end by done.
    rewrite drop_app_le by (rewrite length_take; lia). done.
  - apply read_alloc.
Qed.

(** ** The used parts of the arrays *)

(** [u] has for every array the length of its used part. *)
Definition mem_ok (h : memory) (u : list nat) : Prop := Forall2 (λ n l, n ≤ length l) u h.

(** The slice sees used bytes only. *)
Definition settled (u : list nat) (s : sref) : Prop :=
  r_off s + r_len s ≤ default 0 (u !! r_array s).

(** The used parts grow, those of the arrays outside of [O] stay, no used
    byte changes, and arrays keep their length. *)
Record extends (O : gset nat) (h : memory) (u : list nat) (h' : memory) (u' : list nat) : Prop := {
  ext_ok : mem_ok h' u';
  ext_length : length u ≤ length u';
  ext_used a n : u !! a = Some n →
    ∃ n', u' !! a = Some n' ∧ n ≤ n' ∧ (a ∉ O → n' = n) ∧ take n (array h' a) = take n (array h a) ∧
      length (array h' a) = length (array h a);
}.

Lemma mem_ok_array h u a n :
  mem_ok h u → u !! a = Some n → a < length h ∧ n ≤ length (array h a).
Proof.
  intros Hok Ha. destruct (Forall2_lookup_l _ _ _ _ _ Hok Ha) as (l & Hl & Hn).
  split; [by eapply lookup_lt_Some|]. unfold array. by rewrite Hl.
Qed.

Lemma mem_ok_length h u : mem_ok h u → length u = length h.
Proof. apply Forall2_length. Qed.

Lemma extends_refl O h u : mem_ok h u → extends O h u h u.
Proof. intros Hok. split; [done..|]. intros a n Ha. by exists n. Qed.

Lemma extends_weaken O O' h u h' u' : extends O h u h' u' → O ⊆ O' → extends O' h u h' u'.
Proof. intros [Hok Hl H] HO. split; [done..|]. intros a n (n' & ? & ? & ? & ?)%H. exists n'. set_solver. Qed.

(** The second part may also extend arrays that the first part allocated. *)
Lemma extends_trans O O' h u h1 u1 h2 u2 :
  extends O h u h1 u1 → extends O' h1 u1 h2 u2 →
  (∀ a, a ∈ O' → a ∈ O ∨ length u ≤ a) → extends O h u h2 u2.
Proof.
  intros [Hok1 Hl1 H1] [Hok2 Hl2 H2] HO. split; [done|lia|]. intros a n Ha.
  destruct (H1 a n Ha) as (n1 & Ha1 & Hn1 & HO1 & E1 & L1).
  destruct (H2 a n1 Ha1) as (n2 & Ha2 & Hn2 & HO2 & E2 & L2).
  exists n2. split_and!; [done|lia| | |congruence].
  - intros Hout. rewrite HO2; [by apply HO1|]. intros Hin%HO.
    apply lookup_lt_Some in Ha. destruct Hin; [done|lia].
  - apply (f_equal (take n)) in E2. rewrite !take_take, !Nat.min_l in E2 by lia. by rewrite E2.
Qed.

Lemma settled_extends O h u h' u' s : extends O h u h' u' → settled u s → settled u' s.
Proof.
  intros [_ _ H] Hs. unfold settled in *. destruct (u !! r_array s) as [n|] eqn:E; cbn in Hs; [|lia].
  destruct (H _ _ E) as (n' & -> & Hn & _). cbn. lia.
Qed.

(** What a slice reads stays. *)
Lemma read_extends O h u h' u' s : extends O h u h' u' → settled u s → read h' s = read h s.
Proof.
  intros [_ _ H] Hs. unfold settled, read in *.
  destruct (u !! r_array s) as [n|] eqn:E; cbn in Hs.
  - destruct (H _ _ E) as (n' & _ & _ & _ & Ht & _).
    rewrite !take_drop_commute. f_equal.
    apply (f_equal (take (r_off s + r_len s))) in Ht.
    by rewrite !take_take, !Nat.min_l in Ht by lia.
  - by replace (r_len s) with 0 by lia.
Qed.

(** A new array, of which the first [n] bytes are used. *)
Lemma extends_new O h u v n : mem_ok h u → n ≤ length v → extends O h u (h ++ [v]) (u ++ [n]).
Proof.
  intros Hok Hn. split.
  - by apply Forall2_app; [|repeat constructor].
  - rewrite length_app. lia.
  - intros a n0 Ha. exists n0. apply lookup_app_l_Some with (l2 := [n]) in Ha as Ha'.
    apply lookup_lt_Some in Ha. rewrite (mem_ok_length _ _ Hok) in Ha.
    by rewrite array_snoc, decide_False by lia.
Qed.

Lemma settled_new h u v : mem_ok h u → settled (u ++ [length v]) (alloc v h).1.
Proof.
  intros Hok. unfold settled. cbn.
  by rewrite <-(mem_ok_length _ _ Hok), lookup_app_r, Nat.sub_diag by done.
Qed.

(** Bytes written behind the used part of an array extend it. *)
Lemma extends_write h u s i v n :
  mem_ok h u → u !! r_array s = Some n → r_off s + i = n →
  n + length v ≤ length (array h (r_array s)) →
  extends {[r_array s]} h u (write s i v h) (<[r_array s := n + length v]> u).
Proof.
  intros Hok Ha Hi Hle. destruct (mem_ok_array _ _ _ _ Hok Ha) as [Hlt _].
  assert (∀ a m, u !! a = Some m →
    ∃ m', <[r_array s:=n + length v]> u !! a = Some m' ∧ m ≤ m' ∧
      (a ∉ ({[r_array s]} : gset nat) → m' = m) ∧
      take m (array (write s i v h) a) = take m (array h a) ∧
      length (array (write s i v h) a) = length (array h a)) as Hused.
  { intros a m Hm. rewrite array_write. destruct (decide (a = r_array s)) as [->|Hne].
    - rewrite Ha in Hm. injection Hm as <-. rewrite (decide_True _ _ Hlt).
      exists (n + length v). rewrite list_lookup_insert_eq by (by eapply lookup_lt_Some).
      rewrite Hi, take_overwrite, length_overwrite by lia.
      split_and!; [done|lia|by rewrite elem_of_singleton; intros []|done..].
    - exists m. by rewrite list_lookup_insert_ne. }
  split; [|by rewrite length_insert|exact Hused].
  apply Forall2_same_length_lookup_2.
  { rewrite length_insert, length_write. by apply mem_ok_length. }
  intros a m l Hm Hl. assert (array (write s i v h) a = l) as <- by (unfold array; by rewrite Hl).
  rewrite array_write. destruct (decide (a = r_array s)) as [->|Hne].
  - rewrite list_lookup_insert_eq in Hm by (by eapply lookup_lt_Some). injection Hm as <-.
    rewrite (decide_True _ _ Hlt), Hi, length_overwrite by lia. done.
  - rewrite list_lookup_insert_ne in Hm by done. by eapply mem_ok_array.
Qed.
