(* ===== verification/SliceStores.v ===== *)
(** * The stores as keepers of slices.

    The stores of mapstore.go, mapstore_fixed.go and mapstore_arena.go over
    slices in memory.  The Go maps keep the slice that the caller passes to
    [Set]; the arena copies its bytes to a slab and [Get] returns a slice of
    the slab, with the rest of the slab as capacity.

    [LawfulSliceStore] is the contract with the tree: a store holds a map of
    values, writes only behind the used parts of its own arrays, and the
    slices that it returns see used bytes.  The Go maps meet it here, the arena
    in [SliceLaws]. *)

From S2P Require Import Prelude MapStore ArenaMap Memory.

Class SliceStore (S : Type) : Type := {
  ss_Get : bytes → S → outcome sref;
  ss_Set : bytes → sref → S → memory → outcome unit * S * memory;
  ss_Delete : bytes → S → outcome unit * S;
}.

(** ** SimpleMap and FixedSizeMap *)

(** A Go map of slices; keys are copied. *)
Record SliceMap : Type := mkSliceMap { sl_m : gmap bytes sref }.

Definition SimpleMap_Get_slice (key : bytes) (sm : SliceMap) : outcome sref :=
  match sl_m sm !! key with
  | Some value => Ok value
  | None => Err (InvalidKeyError key)
  end.

Definition SimpleMap_Set_slice (key : bytes) (value : sref) (sm : SliceMap) (h : memory)
    : outcome unit * SliceMap * memory :=
  (Ok tt, mkSliceMap (<[key := value]> (sl_m sm)), h).

Definition SimpleMap_Delete_slice (key : bytes) (sm : SliceMap) : outcome unit * SliceMap :=
  match sl_m sm !! key with
  | Some _ => (Ok tt, mkSliceMap (delete key (sl_m sm)))
  | None => (Err (InvalidKeyError key), sm)
  end.

#[export] Instance SimpleMap_SliceStore : SliceStore SliceMap := {|
  ss_Get := SimpleMap_Get_slice;
  ss_Set := SimpleMap_Set_slice;
  ss_Delete := SimpleMap_Delete_slice;
|}.

Record FixedSliceMap : Type := mkFixedSliceMap { fl_m : gmap bytes sref }.

Definition FixedSizeMap_Get_slice (key : bytes) (sm : FixedSliceMap) : outcome sref :=
  k ← toFixedKey 32 key;
  match fl_m sm !! k with
  | Some value => Ok value
  | None => Err (InvalidKeyError key)
  end.

Definition FixedSizeMap_Set_slice (key : bytes) (value : sref) (sm : FixedSliceMap) (h : memory)
    : outcome unit * FixedSliceMap * memory :=
  match toFixedKey 32 key with
  | Ok k => (Ok tt, mkFixedSliceMap (<[k := value]> (fl_m sm)), h)
  | Err e => (Err e, sm, h)
  | Panic => (Panic, sm, h)
  end.

Definition FixedSizeMap_Delete_slice (key : bytes) (sm : FixedSliceMap)
    : outcome unit * FixedSliceMap :=
  match toFixedKey 32 key with
  | Ok k =>
      match fl_m sm !! k with
      | Some _ => (Ok tt, mkFixedSliceMap (delete k (fl_m sm)))
      | None => (Err (InvalidKeyError key), sm)
      end
  | Err e => (Err e, sm)
  | Panic => (Panic, sm)
  end.

#[export] Instance FixedSizeMap_SliceStore : SliceStore FixedSliceMap := {|
  ss_Get := FixedSizeMap_Get_slice;
  ss_Set := FixedSizeMap_Set_slice;
  ss_Delete := FixedSizeMap_Delete_slice;
|}.

(** ** ArenaFixedSizeMap *)

Record SliceArena : Type := mkSliceArena {
  sa_m : gmap bytes arenaEntry;
  sa_slabs : list sref;
  sa_cur : sref;
  sa_slabSize : nat;
}.

Definition NewSliceArena (slabSize : nat) : SliceArena :=
  let slabSize := if slabSize <? 64 then 64 else slabSize in
  mkSliceArena ∅ [] nilRef slabSize.

Definition Arena_Get_slice (key : bytes) (am : SliceArena) : outcome sref :=
  k ← toFixedKey 32 key;
  match sa_m am !! k with
  | Some e =>
      s ← index (sa_slabs am) (Z.to_nat (slab e));
      reslice s (off e) (uint32 (off e + ln e))
  | None => Err (InvalidKeyError key)
  end.

Definition Arena_grow_slice (n : nat) (am : SliceArena) (h : memory) : SliceArena * memory :=
  if r_cap (sa_cur am) <? r_len (sa_cur am) + n then
    let size := if sa_slabSize am <? n then n else sa_slabSize am in
    let '(cur, h) := make_empty size h in
    (mkSliceArena (sa_m am) (sa_slabs am ++ [cur]) cur (sa_slabSize am), h)
  else (am, h).

Definition Arena_Set_slice (key : bytes) (value : sref) (am : SliceArena) (h : memory)
    : outcome unit * SliceArena * memory :=
  let n := r_len value in
  let '(am, h) := Arena_grow_slice n am h in
  let off := r_len (sa_cur am) in
  let '(cur, h) := append (sa_cur am) (read h value) h in
  match sa_slabs am with
  | [] => (Panic, mkSliceArena (sa_m am) [] cur (sa_slabSize am), h)
  | _ :: _ =>
      let slabs := <[(length (sa_slabs am) - 1)%nat := cur]> (sa_slabs am) in
      match toFixedKey 32 key with
      | Ok k =>
          let e := mkEntry (uint32 (Z.of_nat (length slabs) - 1)) (uint32 (Z.of_nat off))
                     (uint32 (Z.of_nat n)) in
          (Ok tt, mkSliceArena (<[k := e]> (sa_m am)) slabs cur (sa_slabSize am), h)
      | Err e => (Err e, mkSliceArena (sa_m am) slabs cur (sa_slabSize am), h)
      | Panic => (Panic, mkSliceArena (sa_m am) slabs cur (sa_slabSize am), h)
      end
  end.

Definition Arena_Delete_slice (key : bytes) (am : SliceArena) : outcome unit * SliceArena :=
  match toFixedKey 32 key with
  | Ok k =>
      match sa_m am !! k with
      | Some _ => (Ok tt, mkSliceArena (delete k (sa_m am)) (sa_slabs am) (sa_cur am) (sa_slabSize am))
      | None => (Err (InvalidKeyError key), am)
      end
  | Err e => (Err e, am)
  | Panic => (Panic, am)
  end.

Definition Arena_Reset_slice (am : SliceArena) : SliceArena :=
  mkSliceArena ∅ (take 0 (sa_slabs am)) nilRef (sa_slabSize am).

#[export] Instance Arena_SliceStore : SliceStore SliceArena := {|
  ss_Get := Arena_Get_slice;
  ss_Set := Arena_Set_slice;
  ss_Delete := Arena_Delete_slice;
|}.

(** ** The contract *)

(** A store over keys of [n] bytes that holds the map [m] and has room for
    [b] more values. *)
Class LawfulSliceStore (n : nat) (S : Type) `{SliceStore S} : Type := {
  ss_rep : nat → memory → list nat → S → gmap bytes bytes → Prop;
  (** The arrays that the store writes to. *)
  ss_owned : S → gset nat;
  ss_owned_law b h u s m a : ss_rep b h u s m → a ∈ ss_owned s → a < length u;
  ss_frame_law O b h u h' u' s m :
    ss_rep b h u s m → extends O h u h' u' → O ## ss_owned s → ss_rep b h' u' s m;
  ss_room_law b h u s m : ss_rep (Datatypes.S b) h u s m → ss_rep b h u s m;
  ss_Get_law b h u s m k : ss_rep b h u s m → mem_ok h u → length k = n →
    match m !! k with
    | Some v => ∃ g, ss_Get k s = Ok g ∧ settled u g ∧ read h g = v
    | None => ss_Get k s = Err (InvalidKeyError k)
    end;
  ss_Delete_law b h u s m k : ss_rep b h u s m → length k = n →
    match m !! k with
    | Some _ => ∃ s', ss_Delete k s = (Ok tt, s') ∧ ss_rep b h u s' (delete k m) ∧
        ss_owned s' = ss_owned s
    | None => ss_Delete k s = (Err (InvalidKeyError k), s)
    end;
  ss_Set_law b h u s m k g : ss_rep (Datatypes.S b) h u s m → mem_ok h u → length k = n →
    settled u g → read h g ≠ [] → (Z.of_nat (length (read h g)) < 2 ^ 32)%Z →
    ∃ s' h' u', ss_Set k g s h = (Ok tt, s', h') ∧ extends (ss_owned s) h u h' u' ∧
      ss_rep b h' u' s' (<[k := read h g]> m) ∧
      ∀ a, a ∈ ss_owned s' → a ∈ ss_owned s ∨ length u ≤ a;
}.

(** The Go maps own no array: the slices that they keep see used bytes. *)
Definition slices_rep (h : memory) (u : list nat) (l : gmap bytes sref) (m : gmap bytes bytes) : Prop :=
  map_Forall2 (λ _ g v, settled u g ∧ read h g = v) l m.

Lemma slices_rep_lookup h u l m k :
  slices_rep h u l m →
  match l !! k, m !! k with
  | Some g, Some v => settled u g ∧ read h g = v
  | None, None => True
  | _, _ => False
  end.
Proof. intros Hl. pose proof (Hl k) as Hk. by inversion Hk. Qed.

Lemma slices_rep_extends O h u h' u' l m :
  slices_rep h u l m → extends O h u h' u' → slices_rep h' u' l m.
Proof.
  intros Hl Hext. eapply map_Forall2_impl; [exact Hl|]. intros _ g v [Hs Hr].
  split; [by eapply settled_extends|]. by erewrite read_extends.
Qed.

Lemma slices_rep_insert h u l m k g :
  slices_rep h u l m → settled u g → slices_rep h u (<[k := g]> l) (<[k := read h g]> m).
Proof. intros Hl Hg. by apply map_Forall2_insert_2. Qed.

Lemma slices_rep_delete h u l m k :
  slices_rep h u l m → slices_rep h u (delete k l) (delete k m).
Proof. apply map_Forall2_delete. Qed.

#[export] Program Instance SimpleMap_slices n : LawfulSliceStore n SliceMap := {|
  ss_rep b h u s m := slices_rep h u (sl_m s) m;
  ss_owned s := ∅;
|}.
Next Obligation. set_solver. Qed.
Next Obligation. cbn. intros. by eapply slices_rep_extends. Qed.
Next Obligation. done. Qed.
Next Obligation.
  intros n b h u [l] m k Hs _ _. cbn in *. unfold SimpleMap_Get_slice. cbn.
  pose proof (slices_rep_lookup _ _ _ _ k Hs). destruct (l !! k), (m !! k); naive_solver.
Qed.
Next Obligation.
  intros n b h u [l] m k Hs _. cbn in *. unfold SimpleMap_Delete_slice. cbn.
  pose proof (slices_rep_lookup _ _ _ _ k Hs). destruct (l !! k), (m !! k); try done.
  eexists. split_and!; [done|by apply slices_rep_delete|done].
Qed.
Next Obligation.
  intros n b h u [l] m k g Hs Hok _ Hg _ _. eexists _, h, u.
  split_and!; [done|by apply extends_refl|by apply slices_rep_insert|set_solver].
Qed.

(** At a length known to be 32. *)
Program Definition FixedSizeMap_slices {n} (H32 : n = 32) : LawfulSliceStore n FixedSliceMap := {|
  ss_rep b h u s m := slices_rep h u (fl_m s) m;
  ss_owned s := ∅;
|}.
Next Obligation. set_solver. Qed.
Next Obligation. cbn. intros. by eapply slices_rep_extends. Qed.
Next Obligation. done. Qed.
Next Obligation.
  intros n -> b h u [l] m k Hs _ Hk. cbn in *. unfold FixedSizeMap_Get_slice.
  rewrite toFixedKey_ok by done. cbn.
  pose proof (slices_rep_lookup _ _ _ _ k Hs). destruct (l !! k), (m !! k); naive_solver.
Qed.
Next Obligation.
  intros n -> b h u [l] m k Hs Hk. cbn in *. unfold FixedSizeMap_Delete_slice.
  rewrite toFixedKey_ok by done. cbn.
  pose proof (slices_rep_lookup _ _ _ _ k Hs). destruct (l !! k), (m !! k); try done.
  eexists. split_and!; [done|by apply slices_rep_delete|done].
Qed.
Next Obligation.
  intros n -> b h u [l] m k g Hs Hok Hk Hg _ _. cbn [ss_Set FixedSizeMap_SliceStore].
  unfold FixedSizeMap_Set_slice. rewrite toFixedKey_ok by done. eexists _, h, u.
  split_and!; [done|by apply extends_refl|by apply slices_rep_insert|set_solver].
Qed.
