(* ===== verification/SliceLaws.v ===== *)
(** * The contract of the arena as a keeper of slices.

    The arena of [SliceStores] holds in memory what that of [ArenaMap] holds as
    values, slab by slab, and meets the contract [LawfulSliceStore].  So does a
    value of the interface [MapStore], a store of any of the three kinds. *)

From S2P Require Import Prelude MapStore ArenaMap Memory SliceStores.

(** ** The arena meets the contract *)

(** A slab in memory and its contents: the array is the slab's capacity long,
    and used up to the slab's length. *)
Record slab_rep (h : memory) (u : list nat) (s : sref) (sl : goSlice) : Prop := {
  sb_off : r_off s = 0;
  sb_len : r_len s = length (sl_bytes sl);
  sb_cap : r_cap s = sl_cap sl;
  sb_bytes : take (r_len s) (array h (r_array s)) = sl_bytes sl;
  sb_array : length (array h (r_array s)) = sl_cap sl;
  sb_used : u !! r_array s = Some (r_len s);
}.

Record arena_slices (h : memory) (u : list nat) (sa : SliceArena) (am : ArenaFixedSizeMap)
    : Prop := {
  as_m : sa_m sa = am_m am;
  as_slabs : Forall2 (slab_rep h u) (sa_slabs sa) (am_slabs am);
  as_cur : sa_cur sa = default nilRef (last (sa_slabs sa));
  as_slabSize : sa_slabSize sa = am_slabSize am;
  as_arrays : NoDup (r_array <$> sa_slabs sa);
}.

Definition arena_owned (sa : SliceArena) : gset nat := list_to_set (r_array <$> sa_slabs sa).

Lemma elem_of_arena_owned sa a : a ∈ arena_owned sa ↔ ∃ s, s ∈ sa_slabs sa ∧ r_array s = a.
Proof.
  unfold arena_owned. rewrite elem_of_list_to_set, list_elem_of_fmap. naive_solver.
Qed.

Lemma slab_rep_extends O h u h' u' s sl :
  extends O h u h' u' → slab_rep h u s sl → r_array s ∉ O → slab_rep h' u' s sl.
Proof.
  intros [_ _ Hext] [] Hout. destruct (Hext _ _ sb_used0) as (n & Hn & _ & Heq & Ht & Hl).
  rewrite (Heq Hout) in Hn. split; try done; by rewrite ?Hl, ?Ht.
Qed.

Lemma slabs_rep_extends O h u h' u' l sls :
  extends O h u h' u' → Forall2 (slab_rep h u) l sls → (∀ s, s ∈ l → r_array s ∉ O) →
  Forall2 (slab_rep h' u') l sls.
Proof.
  intros Hext Hl HO. apply Forall2_same_length_lookup_2; [by eapply Forall2_length|].
  intros i s sl Hs Hsl. eapply slab_rep_extends; [done|by eapply Forall2_lookup_lr|].
  by eapply HO, list_elem_of_lookup_2.
Qed.

Lemma arena_slices_extends O h u h' u' sa am :
  extends O h u h' u' → arena_slices h u sa am → O ## arena_owned sa → arena_slices h' u' sa am.
Proof.
  intros Hext [] HO. split; try done.
  eapply slabs_rep_extends; [done..|]. intros s Hs Hin.
  apply (HO (r_array s)); [done|]. apply elem_of_arena_owned. eauto.
Qed.

Lemma arena_owned_lt h u sa am a : arena_slices h u sa am → a ∈ arena_owned sa → a < length u.
Proof.
  intros [] (s & Hs & <-)%elem_of_arena_owned.
  apply list_elem_of_lookup in Hs as [i Hs].
  destruct (Forall2_lookup_l _ _ _ _ _ as_slabs0 Hs) as (sl & _ & []). by eapply lookup_lt_Some.
Qed.

(** The slice that [Get] returns is the entry's part of its slab. *)
Lemma arena_entry_slice h u sa am m b k e v :
  arena_slices h u sa am → arena_rep am m b → length k = 32 →
  sa_m sa !! k = Some e → m !! k = Some v →
  ∃ s, sa_slabs sa !! Z.to_nat (slab e) = Some s ∧
    let g := mkRef (r_array s) (Z.to_nat (off e)) (length v) (r_cap s - Z.to_nat (off e)) in
    ss_Get k sa = Ok g ∧ settled u g ∧ read h g = v ∧
    off e = Z.of_nat (Z.to_nat (off e)) ∧ ln e = Z.of_nat (length v) ∧
    Z.to_nat (off e) + length v ≤ length (array h (r_array s)) ∧
    length (array h (r_array s)) = r_cap s ∧ is_Some (u !! r_array s).
Proof.
  intros Hsa Hr Hk He Hv. rewrite (as_m _ _ _ _ Hsa) in He.
  pose proof (arena_lookup _ _ _ k Hr) as Hev. rewrite He, Hv in Hev.
  destruct Hev as (sl & pre & post & Hl & Hb & Ho & Hn).
  destruct (Forall2_lookup_r _ _ _ _ _ (as_slabs _ _ _ _ Hsa) Hl) as (s & Hs & []).
  destruct (Forall_lookup_1 _ _ _ _ (ar_slabs _ _ _ Hr) Hl) as [Hcap H32].
  assert (length pre + (length v + length post) = r_len s) as Hlen
    by (rewrite sb_len0, Hb, !length_app; lia).
  exists s. split; [done|]. rewrite Ho, Nat2Z.id. cbn zeta. split_and!; try done; [|..|lia|congruence].
  - cbn. unfold Arena_Get_slice. rewrite toFixedKey_ok by done. cbn [mbind outcome_bind].
    rewrite (as_m _ _ _ _ Hsa), He, (index_ok _ _ _ Hs). cbn [mbind outcome_bind]. unfold reslice.
    rewrite Ho, Hn, uint32_small by lia. rewrite bool_decide_true by lia.
    rewrite Nat2Z.id, sb_off0. do 2 f_equal. lia.
  - unfold settled. cbn. rewrite sb_used0. cbn. lia.
  - unfold read. cbn. rewrite take_drop_commute.
    replace (take _ _) with (take (length pre + length v) (take (r_len s) (array h (r_array s))))
      by (rewrite take_take; f_equal; lia).
    rewrite sb_bytes0, Hb, (assoc_L (++)), take_app_length' by (rewrite length_app; lia).
    by rewrite drop_app_length.
Qed.

Lemma arena_Get_slice_spec h u sa am m b k :
  arena_slices h u sa am → arena_rep am m b → length k = 32 →
  match m !! k with
  | Some v => ∃ g, ss_Get k sa = Ok g ∧ settled u g ∧ read h g = v
  | None => ss_Get k sa = Err (InvalidKeyError k)
  end.
Proof.
  intros Hsa Hr Hk. destruct (m !! k) as [v|] eqn:Ev.
  - pose proof (arena_lookup _ _ _ k Hr) as He. rewrite Ev, <-(as_m _ _ _ _ Hsa) in He.
    destruct (sa_m sa !! k) as [e|] eqn:E; [|done].
    destruct (arena_entry_slice h u sa am m b k e v Hsa Hr Hk E Ev) as (s & _ & ? & ? & ? & _). eauto.
  - pose proof (arena_lookup _ _ _ k Hr) as He. rewrite Ev, <-(as_m _ _ _ _ Hsa) in He.
    cbn. unfold Arena_Get_slice. rewrite toFixedKey_ok by done. cbn. by destruct (sa_m sa !! k).
Qed.

(** Making room allocates at most one slab. *)
Lemma arena_grow_slice_spec h u sa am m b n :
  arena_slices h u sa am → arena_rep am m b → mem_ok h u →
  ∃ sa' h' u', Arena_grow_slice n sa h = (sa', h') ∧ extends ∅ h u h' u' ∧
    arena_slices h' u' sa' (Arena_grow n am) ∧
    ∀ a, a ∈ arena_owned sa' → a ∈ arena_owned sa ∨ length u ≤ a.
Proof.
  intros Hsa Hr Hok. pose proof Hsa as [Hm Hs Hc Hz Hnd].
  assert (r_cap (sa_cur sa) = sl_cap (am_cur am) ∧
    r_len (sa_cur sa) = length (sl_bytes (am_cur am))) as [Ecap Elen].
  { rewrite Hc, (ar_cur _ _ _ Hr). destruct (am_slabs am) as [|sl slabs _] eqn:E using rev_ind.
    - by apply Forall2_nil_inv_r in Hs as ->.
    - apply Forall2_app_inv_r in Hs as (l & k & _ & Hk & ->).
      apply Forall2_cons_inv_r in Hk as (s & k' & [] & ->%Forall2_nil_inv_r & ->).
      by rewrite !last_snoc. }
  unfold Arena_grow_slice, Arena_grow. rewrite Ecap, Elen.
  destruct (_ <? _); [|exists sa, h, u; split_and!; [done|by apply extends_refl|done|by left]].
  rewrite Hz. set (size := if am_slabSize am <? n then n else am_slabSize am).
  pose proof (mem_ok_length _ _ Hok) as Hlen.
  assert (extends ∅ h u (h ++ [replicate size x00]) (u ++ [0])) as Hext
    by (apply extends_new; [done|lia]).
  eexists _, _, (u ++ [0]). split_and!; [done|exact Hext| |].
  - split; cbn.
    + done.
    + apply Forall2_app; [by apply (as_slabs _ _ _ _ (arena_slices_extends _ _ _ _ _ _ _ Hext Hsa
        (disjoint_empty_l _)))|].
      constructor; [|done]. split; cbn; try done.
      * rewrite array_snoc, decide_True by done. apply length_replicate.
      * by rewrite <-Hlen, lookup_app_r, Nat.sub_diag by done.
    + by rewrite last_snoc.
    + done.
    + rewrite fmap_app. cbn. apply NoDup_app. split_and!; [done| |apply NoDup_singleton].
      intros a (s & -> & Hin)%list_elem_of_fmap E%list_elem_of_singleton.
      assert (r_array s < length u); [|lia]. eapply (arena_owned_lt _ _ _ _ _ Hsa).
      apply elem_of_arena_owned. eauto.
  - intros a (s & Hin & <-)%elem_of_arena_owned. cbn in Hin.
    apply elem_of_app in Hin as [Hin| ->%list_elem_of_singleton]; [left|right; cbn; lia].
    apply elem_of_arena_owned. eauto.
Qed.

(** Bytes appended to a slab with room for them. *)
Lemma slab_append h u r sl v :
  slab_rep h u r sl → mem_ok h u → length (sl_bytes sl) + length v ≤ sl_cap sl →
  ∃ r' h' u', append r v h = (r', h') ∧ extends {[r_array r]} h u h' u' ∧
    r_array r' = r_array r ∧ slab_rep h' u' r' (mkSlice (sl_bytes sl ++ v) (sl_cap sl)).
Proof.
  intros [Hoff Hlen Hcap Hbytes Harr Hused] Hok Hroom. unfold append.
  rewrite (proj2 (Nat.leb_le _ _)) by lia. destruct (mem_ok_array _ _ _ _ Hok Hused) as [Hlt _].
  eexists _, _, (<[r_array r := r_len r + length v]> u).
  split_and!; [done|apply extends_write; [done..|lia|lia]|done|].
  assert (array (write r (r_len r) v h) (r_array r) =
    overwrite (r_len r) v (array h (r_array r))) as Ea
    by by rewrite array_write, !decide_True, Hoff by done.
  split; cbn; rewrite ?Ea.
  - done.
  - rewrite length_app. lia.
  - done.
  - by rewrite take_overwrite_end, Hbytes by lia.
  - rewrite length_overwrite; lia.
  - apply list_lookup_insert_eq. by eapply lookup_lt_Some.
Qed.

Lemma insert_last {A} (l : list A) x y : <[(length (l ++ [x]) - 1)%nat := y]> (l ++ [x]) = l ++ [y].
Proof. rewrite length_app, Nat.add_sub. by rewrite insert_app_r_alt, Nat.sub_diag. Qed.

Lemma match_snoc {A B} (l : list A) x (a b : B) : match l ++ [x] with [] => a | _ :: _ => b end = b.
Proof. by destruct l. Qed.

(** A Set appends the value to the current slab, in place. *)
Lemma arena_Set_slice_spec h u sa am m b k g :
  arena_slices h u sa am → arena_rep am m (S b) → mem_ok h u → length k = 32 →
  settled u g → read h g ≠ [] → (Z.of_nat (length (read h g)) < 2 ^ 32)%Z →
  ∃ sa' h' u', ss_Set k g sa h = (Ok tt, sa', h') ∧ extends (arena_owned sa) h u h' u' ∧
    arena_slices h' u' sa' (ms_Set k (read h g) am).2 ∧
    ∀ a, a ∈ arena_owned sa' → a ∈ arena_owned sa ∨ length u ≤ a.
Proof.
  intros Hsa Hr Hok Hk Hg Hv H32. set (v := read h g) in *.
  assert (r_len g = length v) as Hn.
  { unfold v, read. rewrite length_take, length_drop. unfold settled in Hg.
    destruct (u !! r_array g) as [n|] eqn:E; cbn in Hg; [|lia].
    destruct (mem_ok_array _ _ _ _ Hok E). lia. }
  destruct (arena_grow_spec am m b (length v) Hr) as (slabs & cur & E1 & E2 & Hroom & Hr');
    [by destruct v; [|cbn; lia]|done|].
  destruct (arena_grow_slice_spec h u sa am m (S b) (length v) Hsa Hr Hok)
    as (sa1 & h1 & u1 & Eg & Hext1 & Hsa1 & Hown1).
  pose proof Hsa1 as [Hm1 Hs1 Hc1 Hz1 Hnd1]. rewrite E1 in Hs1.
  apply Forall2_app_inv_r in Hs1 as (rs & rs' & Hrs & Hcur & Ers).
  apply Forall2_cons_inv_r in Hcur as (r & rs2 & Hcur & ->%Forall2_nil_inv_r & ->).
  rewrite Ers, last_snoc in Hc1. cbn in Hc1.
  destruct (slab_append h1 u1 r cur v Hcur (ext_ok _ _ _ _ _ Hext1) Hroom)
    as (r' & h2 & u2 & Ea & Hext2 & Hr2 & Hsl).
  assert (length rs = length slabs) as Hlen by by eapply Forall2_length.
  assert (∀ a, a ∈ arena_owned sa1 ↔ a ∈ r_array <$> rs ++ [r']) as Hown.
  { intros a. unfold arena_owned. rewrite elem_of_list_to_set, Ers, !fmap_app. cbn.
    by rewrite Hr2. }
  assert (extends (arena_owned sa) h u h2 u2) as Hext.
  { eapply extends_trans; [|exact Hext2|].
    - eapply extends_weaken; [exact Hext1|set_solver].
    - intros a ->%elem_of_singleton. apply Hown1, elem_of_arena_owned. exists r.
      rewrite Ers. split; [set_solver|done]. }
  cbn. unfold Arena_Set_slice, Arena_Set. rewrite Hn, Eg, Hc1, E2, E1.
  rewrite (read_extends _ _ _ _ _ g Hext1 Hg). fold v. rewrite Ea, Ers, !match_snoc, !insert_last.
  rewrite toFixedKey_ok by done. eexists _, h2, u2. split_and!; [done|done| |].
  - split; cbn.
    + rewrite Hm1, !length_app, Hlen. do 4 f_equal. by destruct Hcur.
    + apply Forall2_app; [|by constructor].
      eapply (slabs_rep_extends _ _ _ _ _ _ _ Hext2); [exact Hrs|].
      rewrite Ers, fmap_app in Hnd1. apply NoDup_app in Hnd1 as (_ & Hnd & _).
      intros s Hs Es%elem_of_singleton. apply (Hnd (r_array s)); [by apply list_elem_of_fmap_2|].
      rewrite Es. by left.
    + by rewrite last_snoc.
    + done.
    + rewrite fmap_app. cbn. rewrite Hr2. by rewrite Ers, fmap_app in Hnd1.
  - intros a (s & Hin & <-)%elem_of_arena_owned. apply Hown1, Hown. cbn in Hin.
    by apply list_elem_of_fmap_2.
Qed.

Program Definition Arena_slices {n} (H32 : n = 32) : LawfulSliceStore n SliceArena := {|
  ss_rep b h u s m := ∃ am, arena_slices h u s am ∧ arena_rep am m b;
  ss_owned := arena_owned;
|}.
Next Obligation. cbn. intros n -> b h u s m a (am & Hs & _). by eapply arena_owned_lt. Qed.
Next Obligation.
  cbn. intros n -> O b h u h' u' s m (am & Hs & Hr) Hext HO. exists am.
  split; [by eapply arena_slices_extends|done].
Qed.
Next Obligation.
  cbn. intros n -> b h u s m (am & Hs & []). exists am. split; [done|]. split; try done. lia.
Qed.
Next Obligation.
  cbn beta. intros n -> b h u s m k (am & Hs & Hr) _ Hk. by eapply arena_Get_slice_spec.
Qed.
Next Obligation.
  cbn beta. intros n -> b h u s m k (am & Hs & Hr) Hk. cbn. unfold Arena_Delete_slice.
  destruct (arena_Delete_spec am m b k Hr) as [E Hr']. cbn in E, Hr'. revert E Hr'.
  unfold Arena_Delete, KeyedMap_Delete. rewrite !toFixedKey_ok by done. cbn.
  destruct Hs as [Hm Hsl Hc Hz Hnd]. rewrite Hm.
  destruct (am_m am !! k), (m !! k); try done; intros _ Hr'.
  eexists. split_and!; [done| |done]. eexists. split; [|exact Hr']. by split; cbn; rewrite ?Hm.
Qed.
Next Obligation.
  cbn beta. intros n -> b h u s m k g (am & Hs & Hr) Hok Hk Hg Hv H32.
  destruct (arena_Set_slice_spec h u s am m b k g Hs Hr Hok Hk Hg Hv H32)
    as (s' & h' & u' & E & Hext & Hs' & Hown).
  exists s', h', u'. split_and!; [done..| |done]. eexists. split; [exact Hs'|].
  destruct (arena_Set_spec am m b k (read h g) Hr Hv H32) as [_ Hr'].
  cbn in Hr'. unfold KeyedMap_Set in Hr'. by rewrite toFixedKey_ok in Hr' by done.
Qed.

Lemma ss_rep_le {n S} `{LawfulSliceStore n S} b b' h u (s : S) m :
  ss_rep b h u s m → b' ≤ b → ss_rep b' h u s m.
Proof. intros Hs Hb. induction Hb as [|b Hb IH]; [done|]. by apply IH, ss_room_law. Qed.

Lemma arena_slices_new {n} (H32 : n = 32) slabSize b :
  (Z.of_nat slabSize < 2 ^ 32)%Z → (Z.of_nat b ≤ 2 ^ 32)%Z →
  ss_rep (LawfulSliceStore := Arena_slices H32) b [] [] (NewSliceArena slabSize) ∅.
Proof.
  intros Hslab Hb. apply (ss_rep_le (Z.to_nat (2 ^ 32))); [|lia].
  exists (NewArenaFixedSizeMapWithSlabSize slabSize).
  split; [|by apply arena_rep_new]. unfold NewSliceArena, NewArenaFixedSizeMapWithSlabSize.
  split; cbn; [done|constructor|done|done|constructor].
Qed.

(** ** A store of any of the three kinds *)

(** A value of the interface [MapStore]: a call goes to the store's own
    method. *)
Inductive AnyStore : Type :=
  | AnySimpleMap (s : SliceMap)
  | AnyFixedSizeMap (s : FixedSliceMap)
  | AnyArena (s : SliceArena).

(** The state after a call, as an interface value again. *)
Definition wrap_Set {A B} (f : A → B) (r : outcome unit * A * memory) : outcome unit * B * memory :=
  (r.1.1, f r.1.2, r.2).

Definition wrap_Delete {A B} (f : A → B) (r : outcome unit * A) : outcome unit * B := (r.1, f r.2).

#[export] Instance AnyStore_SliceStore : SliceStore AnyStore := {|
  ss_Get k s :=
    match s with
    | AnySimpleMap s => ss_Get k s
    | AnyFixedSizeMap s => ss_Get k s
    | AnyArena s => ss_Get k s
    end;
  ss_Set k g s h :=
    match s with
    | AnySimpleMap s => wrap_Set AnySimpleMap (ss_Set k g s h)
    | AnyFixedSizeMap s => wrap_Set AnyFixedSizeMap (ss_Set k g s h)
    | AnyArena s => wrap_Set AnyArena (ss_Set k g s h)
    end;
  ss_Delete k s :=
    match s with
    | AnySimpleMap s => wrap_Delete AnySimpleMap (ss_Delete k s)
    | AnyFixedSizeMap s => wrap_Delete AnyFixedSizeMap (ss_Delete k s)
    | AnyArena s => wrap_Delete AnyArena (ss_Delete k s)
    end;
|}.

(** What a constructor of the code returns. *)
Inductive new_store : AnyStore → Prop :=
  | new_SimpleMap : new_store (AnySimpleMap (mkSliceMap ∅))
  | new_FixedSizeMap : new_store (AnyFixedSizeMap (mkFixedSliceMap ∅))
  | new_Arena slabSize : (Z.of_nat slabSize < 2 ^ 32)%Z → new_store (AnyArena (NewSliceArena slabSize)).

Section any.
Context {n : nat} (H32 : n = 32).
#[local] Instance any_fixed : LawfulSliceStore n FixedSliceMap := FixedSizeMap_slices H32.
#[local] Instance any_arena : LawfulSliceStore n SliceArena := Arena_slices H32.
#[local] Instance any_simple : LawfulSliceStore n SliceMap := SimpleMap_slices n.

Lemma wrap_Delete_law {A B} `{LawfulSliceStore n A} (f : A → B) (R : B → gmap bytes bytes → Prop)
    (own : B → gset nat) b h u (s : A) m k :
  ss_rep b h u s m → length k = n → (∀ s' m', R (f s') m' ↔ ss_rep b h u s' m') →
  (∀ s', own (f s') = ss_owned s') →
  match m !! k with
  | Some _ => ∃ s', wrap_Delete f (ss_Delete k s) = (Ok tt, s') ∧ R s' (delete k m) ∧
      own s' = own (f s)
  | None => wrap_Delete f (ss_Delete k s) = (Err (InvalidKeyError k), f s)
  end.
Proof.
  intros Hs Hk HR Hown. pose proof (ss_Delete_law _ _ _ _ _ _ Hs Hk) as Hd.
  destruct (m !! k); [|by rewrite Hd]. destruct Hd as (s' & -> & Hs' & E).
  exists (f s'). split_and!; [done|by apply HR|by rewrite !Hown].
Qed.

Lemma wrap_Set_law {A B} `{LawfulSliceStore n A} (f : A → B)
    (R : memory → list nat → B → gmap bytes bytes → Prop) (own : B → gset nat) b h u (s : A) m k g :
  ss_rep (S b) h u s m → mem_ok h u → length k = n → settled u g → read h g ≠ [] →
  (Z.of_nat (length (read h g)) < 2 ^ 32)%Z →
  (∀ h' u' s' m', R h' u' (f s') m' ↔ ss_rep b h' u' s' m') → (∀ s', own (f s') = ss_owned s') →
  ∃ s' h' u', wrap_Set f (ss_Set k g s h) = (Ok tt, s', h') ∧ extends (own (f s)) h u h' u' ∧
    R h' u' s' (<[k := read h g]> m) ∧ ∀ a, a ∈ own s' → a ∈ own (f s) ∨ length u ≤ a.
Proof.
  intros Hs Hok Hk Hg Hv Hfit HR Hown.
  destruct (ss_Set_law _ _ _ _ _ _ _ Hs Hok Hk Hg Hv Hfit) as (s' & h' & u' & -> & Hext & Hs' & Ho).
  exists (f s'), h', u'. rewrite !Hown. split_and!; [done|done|by apply HR|done].
Qed.

Definition any_rep (b : nat) (h : memory) (u : list nat) (s : AnyStore) (m : gmap bytes bytes)
    : Prop :=
  match s with
  | AnySimpleMap s => ss_rep b h u s m
  | AnyFixedSizeMap s => ss_rep b h u s m
  | AnyArena s => ss_rep b h u s m
  end.

Definition any_owned (s : AnyStore) : gset nat :=
  match s with
  | AnySimpleMap s => ss_owned s
  | AnyFixedSizeMap s => ss_owned s
  | AnyArena s => ss_owned s
  end.

Program Definition AnyStore_slices : LawfulSliceStore n AnyStore := {|
  ss_rep := any_rep;
  ss_owned := any_owned;
|}.
Next Obligation. intros b h u [s|s|s] m a; apply ss_owned_law. Qed.
Next Obligation. intros O b h u h' u' [s|s|s] m; apply ss_frame_law. Qed.
Next Obligation. intros b h u [s|s|s] m; apply ss_room_law. Qed.
Next Obligation.
  intros b h u [s|s|s] m k; cbn [ss_Get AnyStore_SliceStore any_rep]; apply ss_Get_law.
Qed.
Next Obligation.
  intros b h u [s|s|s] m k Hs Hk; cbn [ss_Delete AnyStore_SliceStore any_rep] in *;
    by apply (wrap_Delete_law _ (any_rep b h u) any_owned b h u).
Qed.
Next Obligation.
  intros b h u [s|s|s] m k g Hs Hok Hk Hg Hv Hfit; cbn [ss_Set AnyStore_SliceStore any_rep] in *;
    by apply (wrap_Set_law _ (any_rep b) any_owned b h u).
Qed.

Lemma new_store_rep s b :
  new_store s → (Z.of_nat b ≤ 2 ^ 32)%Z →
  ss_rep (LawfulSliceStore := AnyStore_slices) b [] [] s ∅.
Proof.
  intros [| |slabSize Hslab] Hb; [apply map_Forall2_empty..|]. by apply arena_slices_new.
Qed.
End any.
