(* ===== verification/Sha256.v ===== *)
(** * crypto/sha256 of the Go standard library.

    SHA-256 (FIPS 180-4), executable, with 32-bit words as integers.  It
    routes keys to shards. *)

From S2P Require Import Prelude.

Definition word (z : Z) : Z := (z `mod` 2 ^ 32)%Z.

Definition rotr (n x : Z) : Z := Z.lor (Z.shiftr x n) (word (Z.shiftl x (32 - n))).

Definition sha_Ch (x y z : Z) : Z := Z.lxor (Z.land x y) (Z.land (Z.lxor x (2 ^ 32 - 1)) z).
Definition sha_Maj (x y z : Z) : Z :=
  Z.lxor (Z.lxor (Z.land x y) (Z.land x z)) (Z.land y z).
Definition big_sigma0 (x : Z) : Z := Z.lxor (Z.lxor (rotr 2 x) (rotr 13 x)) (rotr 22 x).
Definition big_sigma1 (x : Z) : Z := Z.lxor (Z.lxor (rotr 6 x) (rotr 11 x)) (rotr 25 x).
Definition small_sigma0 (x : Z) : Z := Z.lxor (Z.lxor (rotr 7 x) (rotr 18 x)) (Z.shiftr x 3).
Definition small_sigma1 (x : Z) : Z := Z.lxor (Z.lxor (rotr 17 x) (rotr 19 x)) (Z.shiftr x 10).

(** The constants: the first 32 bits of the fractional parts of the cube
    roots of the first 64 primes, and of the square roots of the first 8. *)
Definition primes : list Z :=
  filter (λ p, forallb (λ d, negb (p `mod` d =? 0)%Z) (seqZ 2 (p - 2)) = true) (seqZ 2 310).

(** The integer cube root, bit by bit from [n] bits down. *)
Fixpoint cbrt (n : nat) (z r : Z) : Z :=
  match n with
  | 0 => r
  | S n' =>
      let r' := (r + 2 ^ Z.of_nat n')%Z in
      cbrt n' z (if (r' ^ 3 <=? z)%Z then r' else r)
  end.

Definition sha_K : list Z :=
  Eval vm_compute in (λ p, word (cbrt 36 (p * 2 ^ 96) 0)) <$> primes.

Definition sha_H0 : list Z :=
  Eval vm_compute in (λ p, word (Z.sqrt (p * 2 ^ 64))) <$> take 8 primes.

(** Big-endian bytes of an integer, [n] of them. *)
Fixpoint be_bytes (n : nat) (z : Z) : bytes :=
  match n with
  | 0 => []
  | S n' => be_bytes n' (z / 256)%Z ++ [byte_of_Z z]
  end.

Definition be_word (bs : bytes) : Z := foldl (λ acc b, (acc * 256 + byte_val b)%Z) 0%Z bs.

(** The padded message: a multiple of 64 bytes. *)
Definition sha_pad (d : bytes) : bytes :=
  let zeros := Z.to_nat ((55 - Z.of_nat (length d)) `mod` 64) in
  d ++ [byte_of_Z 128] ++ replicate zeros x00 ++ be_bytes 8 (8 * Z.of_nat (length d)).

(** [n] chunks of [k] elements. *)
Fixpoint chunks {A} (n k : nat) (l : list A) : list (list A) :=
  match n with
  | 0 => []
  | S n' => take k l :: chunks n' k (drop k l)
  end.

(** The message schedule, last word first. *)
Fixpoint sha_schedule (n : nat) (ws : list Z) : list Z :=
  match n with
  | 0 => ws
  | S n' =>
      let at_ i := nth i ws 0%Z in
      let w := word (small_sigma1 (at_ 1%nat) + at_ 6%nat + small_sigma0 (at_ 14%nat) + at_ 15%nat)%Z in
      sha_schedule n' (w :: ws)
  end.

(** One round on the working variables [a .. h]. *)
Definition sha_round (vs : list Z) (kw : Z * Z) : list Z :=
  match vs with
  | [a; b; c; d; e; f; g; h] =>
      let t1 := (h + big_sigma1 e + sha_Ch e f g + kw.1 + kw.2)%Z in
      let t2 := (big_sigma0 a + sha_Maj a b c)%Z in
      [word (t1 + t2); a; b; c; word (d + t1); e; f; g]
  | _ => vs
  end.

Definition sha_block (hs : list Z) (block : bytes) : list Z :=
  let ws := reverse (sha_schedule 48 (reverse (be_word <$> chunks 16 4 block))) in
  zip_with (λ a b, word (a + b)) hs (foldl sha_round hs (zip sha_K ws)).

Definition sha256 (d : bytes) : bytes :=
  let msg := sha_pad d in
  let hs := foldl sha_block sha_H0 (chunks (length msg / 64) 64 msg) in
  concat (be_bytes 4 <$> hs).

(** ** The standard's examples, and the length of a digest *)

Definition ascii_abc : bytes := byte_of_Z <$> [97; 98; 99]%Z.

Example sha256_abc :
  byte_val <$> sha256 ascii_abc =
    [0xba; 0x78; 0x16; 0xbf; 0x8f; 0x01; 0xcf; 0xea; 0x41; 0x41; 0x40; 0xde; 0x5d; 0xae; 0x22; 0x23;
     0xb0; 0x03; 0x61; 0xa3; 0x96; 0x17; 0x7a; 0x9c; 0xb4; 0x10; 0xff; 0x61; 0xf2; 0x00; 0x15;
     0xad]%Z.
Proof. vm_compute. reflexivity. Qed.

Example sha256_empty :
  byte_val <$> sha256 [] =
    [0xe3; 0xb0; 0xc4; 0x42; 0x98; 0xfc; 0x1c; 0x14; 0x9a; 0xfb; 0xf4; 0xc8; 0x99; 0x6f; 0xb9; 0x24;
     0x27; 0xae; 0x41; 0xe4; 0x64; 0x9b; 0x93; 0x4c; 0xa4; 0x95; 0x99; 0x1b; 0x78; 0x52; 0xb8;
     0x55]%Z.
Proof. vm_compute. reflexivity. Qed.

(** Two blocks. *)
Example sha256_two_blocks :
  take 4 (byte_val <$> sha256 (replicate 64 (byte_of_Z 97))) = [0xff; 0xe0; 0x54; 0xfe]%Z.
Proof. vm_compute. reflexivity. Qed.

Lemma length_sha_round vs kw : length vs = 8 → length (sha_round vs kw) = 8.
Proof. by do 9 (destruct vs as [|? vs]; try done). Qed.

Lemma length_sha_rounds vs l : length vs = 8 → length (foldl sha_round vs l) = 8.
Proof.
  revert vs. induction l as [|kw l IH]; intros vs Hvs; [done|]. cbn. by apply IH, length_sha_round.
Qed.

Lemma length_sha_block hs block : length hs = 8 → length (sha_block hs block) = 8.
Proof.
  intros Hhs. unfold sha_block. rewrite length_zip_with, (length_sha_rounds hs) by done. lia.
Qed.

Lemma length_sha_blocks hs bs : length hs = 8 → length (foldl sha_block hs bs) = 8.
Proof.
  revert hs. induction bs as [|b bs IH]; intros hs Hhs; [done|]. cbn. by apply IH, length_sha_block.
Qed.

Lemma length_sha256 d : length (sha256 d) = 32.
Proof.
  unfold sha256. set (hs := foldl _ _ _).
  assert (length hs = 8) as Hhs by by apply length_sha_blocks.
  by do 9 (destruct hs as [|? hs]; try done).
Qed.
