(* ===== verification/TreeHasher.v ===== *)
(** * treehasher.go: the tree hasher and the encoding of leaves and nodes.

    The [hash.Hash] object the caller supplies is the class [Hasher]: a digest
    function and a digest size, with the documented law that [Sum] appends
    [Size] bytes.  Everything of the tree is generic in it. *)

From S2P Require Import Prelude.

Class Hasher : Type := {
  hsum : bytes → bytes;
  hsize : nat;
  hsum_length : ∀ d, length (hsum d) = hsize;
}.

(** ** The stateful [hash.Hash] object *)

(** Its state is the bytes written since the last [Reset]. *)
Definition hashState : Type := bytes.
Definition hash_New : hashState := [].
Definition hash_Write (p : bytes) (h : hashState) : hashState := h ++ p.
Definition hash_Reset (h : hashState) : hashState := [].

Section hasher.
Context {HS : Hasher}.

(** [Sum(b)] appends the digest of what was written to [b]; it does not
    change the state. *)
Definition hash_Sum (b : bytes) (h : hashState) : bytes := b ++ hsum h.

(** [treeHasher.digest] and [treeHasher.digestInto]: write, sum, reset.
    [digestInto] appends to [dst[:0]]. *)
Definition digest_run (data : bytes) (h : hashState) : bytes * hashState :=
  let h1 := hash_Write data h in
  let sum := hash_Sum [] h1 in
  (sum, hash_Reset h1).

Definition digestInto_run (dst data : bytes) (h : hashState) : bytes * hashState :=
  let h1 := hash_Write data h in
  let sum := hash_Sum (take 0 dst) h1 in
  (sum, hash_Reset h1).

(** The digests of the tree code, on a hasher that is in its reset state
    (see [digest_run_reset] below). *)
Definition digest (data : bytes) : bytes := fst (digest_run data hash_New).
Definition digestInto (data : bytes) : bytes := fst (digestInto_run [] data hash_New).

Definition path (key : bytes) : bytes := digest key.
Definition pathInto (key : bytes) : bytes := digestInto key.

Definition leafPrefix : bytes := [x00].
Definition nodePrefix : bytes := [x01].

Definition pathSize : nat := hsize.

(** The field that [newTreeHasher] sets: [pathSize] zero bytes. *)
Definition zeroValue : bytes := replicate pathSize x00.

Definition placeholder : bytes := zeroValue.

(** Both return the hash and the encoded value. *)
Definition digestLeaf (p leafData : bytes) : bytes * bytes :=
  let value := leafPrefix ++ p ++ leafData in
  (fst (digest_run value hash_New), value).

Definition digestLeafInto (p leafData : bytes) : bytes * bytes :=
  let value := leafPrefix ++ p ++ leafData in
  (fst (digestInto_run [] value hash_New), value).

Definition digestNode (leftData rightData : bytes) : bytes * bytes :=
  let value := nodePrefix ++ leftData ++ rightData in
  (fst (digest_run value hash_New), value).

Definition digestNodeInto (leftData rightData : bytes) : bytes * bytes :=
  let value := nodePrefix ++ leftData ++ rightData in
  (fst (digestInto_run [] value hash_New), value).

Definition parseLeaf (data : bytes) : outcome (bytes * bytes) :=
  p ← slice data (length leafPrefix) (pathSize + length leafPrefix);
  v ← slice data (length leafPrefix + pathSize) (length data);
  Ok (p, v).

Definition isLeaf (data : bytes) : outcome bool :=
  p ← slice data 0 (length leafPrefix);
  Ok (bytes_Equal p leafPrefix).

Definition parseNode (data : bytes) : outcome (bytes * bytes) :=
  l ← slice data (length nodePrefix) (pathSize + length nodePrefix);
  r ← slice data (length nodePrefix + pathSize) (length data);
  Ok (l, r).
End hasher.

(** ** Encodings *)

Section encodings.
Context {HS : Hasher}.

(** The encoded value of a leaf and of an inner node. *)
Definition leaf_data (p vh : bytes) : bytes := leafPrefix ++ p ++ vh.
Definition node_data (l r : bytes) : bytes := nodePrefix ++ l ++ r.

(** A run of a digest leaves the hasher reset, whatever was pending; from
    the reset state it computes the digest of its argument alone. *)
Lemma digest_run_reset data h :
  snd (digest_run data h) = hash_New ∧ fst (digest_run data h) = hsum (h ++ data).
Proof. done. Qed.

Lemma digestInto_run_eq dst data h : digestInto_run dst data h = digest_run data h.
Proof. done. Qed.

Lemma digest_hsum d : digest d = hsum d.
Proof. done. Qed.

Lemma digestLeaf_eq p vh : digestLeaf p vh = (hsum (leaf_data p vh), leaf_data p vh).
Proof. done. Qed.

Lemma digestNode_eq l r : digestNode l r = (hsum (node_data l r), node_data l r).
Proof. done. Qed.

Lemma length_path k : length (path k) = hsize.
Proof. apply hsum_length. Qed.

Lemma length_placeholder : length placeholder = hsize.
Proof. apply length_replicate. Qed.

Lemma slice_ok d lo hi :
  lo ≤ hi → hi ≤ length d → slice d lo hi = Ok (take (hi - lo) (drop lo d)).
Proof. intros. unfold slice. by rewrite bool_decide_true. Qed.

Lemma parse_pair (a : byte) (l r : bytes) :
  length l = hsize →
  slice (a :: l ++ r) 1 (pathSize + 1) = Ok l ∧
  slice (a :: l ++ r) (1 + pathSize) (length (a :: l ++ r)) = Ok r.
Proof.
  intros Hl. unfold pathSize. split; rewrite slice_ok; cbn [length]; rewrite ?length_app; try lia.
  - change (drop 1 (a :: l ++ r)) with (l ++ r).
    by rewrite take_app_length' by lia.
  - change (drop (1 + hsize) (a :: l ++ r)) with (drop hsize (l ++ r)).
    rewrite drop_app_length' by lia. rewrite take_ge; [done|lia].
Qed.

(** Decoding gives back what was encoded. *)
Lemma parseLeaf_leaf_data p vh :
  length p = hsize → parseLeaf (leaf_data p vh) = Ok (p, vh).
Proof.
  intros Hp. destruct (parse_pair x00 p vh Hp) as [H1 H2].
  unfold parseLeaf, leaf_data, leafPrefix in *.
  change ([x00] ++ p ++ vh) with (x00 :: p ++ vh). change (length [x00]) with 1.
  rewrite H1. cbn [mbind outcome_bind]. by rewrite H2.
Qed.

Lemma parseNode_node_data l r :
  length l = hsize → parseNode (node_data l r) = Ok (l, r).
Proof.
  intros Hl. destruct (parse_pair x01 l r Hl) as [H1 H2].
  unfold parseNode, node_data, nodePrefix in *.
  change ([x01] ++ l ++ r) with (x01 :: l ++ r). change (length [x01]) with 1.
  rewrite H1. cbn [mbind outcome_bind]. by rewrite H2.
Qed.

Lemma isLeaf_leaf_data p vh : isLeaf (leaf_data p vh) = Ok true.
Proof. done. Qed.

Lemma isLeaf_node_data l r : isLeaf (node_data l r) = Ok false.
Proof. done. Qed.

Lemma leaf_data_inj p q v w :
  length p = length q → leaf_data p v = leaf_data q w → p = q ∧ v = w.
Proof. intros Hl Heq. injection Heq as Heq. by apply app_inj_1 in Heq. Qed.

Lemma node_data_inj a b c d :
  length a = length c → node_data a b = node_data c d → a = c ∧ b = d.
Proof. intros Hl Heq. injection Heq as Heq. by apply app_inj_1 in Heq. Qed.

Lemma length_leaf_data p v : length (leaf_data p v) = 1 + length p + length v.
Proof. unfold leaf_data, leafPrefix. by rewrite !length_app. Qed.

Lemma leaf_node_data p v l r : leaf_data p v ≠ node_data l r.
Proof. done. Qed.
End encodings.

#[global] Opaque leaf_data node_data.
