(* ===== verification/Effects.v ===== *)
(** * Programs over the tree's stores.

    The methods of [SparseMerkleTree] are programs of a small effect monad:
    they call [Get], [Set] and [Delete] of the node and the value store, read
    and assign the root, return errors and panic.  [run] executes a program
    on a tree whose two stores implement the [MapStore] interface; an error
    or a panic keeps the state changes made before it, as in Go.

    [run_sim] is the contract between the tree and its stores: what a program
    does on the reference store it does on every lawful store. *)

From S2P Require Import Prelude MapStore.

Inductive store_id : Type := NodeStore | ValueStore.

Inductive prog (A : Type) : Type :=
  | Ret (a : A)
  | Throw (e : error)
  | Crash
  | GetOp (st : store_id) (k : bytes) (c : error + bytes → prog A)
  | SetOp (st : store_id) (k v : bytes) (c : option error → prog A)
  | DeleteOp (st : store_id) (k : bytes) (c : option error → prog A)
  | RootOp (c : bytes → prog A)
  | SetRootOp (r : bytes) (c : prog A).
Arguments Ret {A} a.
Arguments Throw {A} e.
Arguments Crash {A}.
Arguments GetOp {A} st k c.
Arguments SetOp {A} st k v c.
Arguments DeleteOp {A} st k c.
Arguments RootOp {A} c.
Arguments SetRootOp {A} r c.

#[export] Instance prog_ret : MRet prog := @Ret.
#[export] Instance prog_bind : MBind prog := λ A B f,
  fix bind (m : prog A) : prog B :=
    match m with
    | Ret a => f a
    | Throw e => Throw e
    | Crash => Crash
    | GetOp st k c => GetOp st k (λ r, bind (c r))
    | SetOp st k v c => SetOp st k v (λ r, bind (c r))
    | DeleteOp st k c => DeleteOp st k (λ r, bind (c r))
    | RootOp c => RootOp (λ r, bind (c r))
    | SetRootOp r c => SetRootOp r (bind c)
    end.

(** [v, err := m]: the error as a value.  A panic is not caught. *)
Fixpoint try {A} (m : prog A) : prog (error + A) :=
  match m with
  | Ret a => Ret (inr a)
  | Throw e => Ret (inl e)
  | Crash => Crash
  | GetOp st k c => GetOp st k (λ r, try (c r))
  | SetOp st k v c => SetOp st k v (λ r, try (c r))
  | DeleteOp st k c => DeleteOp st k (λ r, try (c r))
  | RootOp c => RootOp (λ r, try (c r))
  | SetRootOp r c => SetRootOp r (try c)
  end.

(** A computation without store effects. *)
Definition lift {A} (o : outcome A) : prog A :=
  match o with
  | Ok a => Ret a
  | Err e => Throw e
  | Panic => Crash
  end.

Definition throw_or {A} (a : A) (e : option error) : prog A :=
  match e with Some e => Throw e | None => Ret a end.

(** [smt.nodes.Get(k)] and the like, with the error returned to the caller. *)
Definition store_Get (st : store_id) (k : bytes) : prog bytes :=
  GetOp st k (λ r, match r with inl e => Throw e | inr v => Ret v end).
Definition store_Set (st : store_id) (k v : bytes) : prog unit :=
  SetOp st k v (throw_or tt).
Definition store_Delete (st : store_id) (k : bytes) : prog unit :=
  DeleteOp st k (throw_or tt).

Abbreviation nodes_Get := (store_Get NodeStore).
Abbreviation nodes_Set := (store_Set NodeStore).
Abbreviation nodes_Delete := (store_Delete NodeStore).
Abbreviation values_Get := (store_Get ValueStore).
Abbreviation values_Set := (store_Set ValueStore).
Abbreviation values_Delete := (store_Delete ValueStore).

(** [smt.Root()] and [smt.SetRoot(root)] *)
Definition Root : prog bytes := RootOp Ret.
Definition SetRoot (root : bytes) : prog unit := SetRootOp root (Ret tt).

(** [for _, x := range l { ... return err on error ... }] *)
Fixpoint for_each {A} (l : list A) (body : A → prog unit) : prog unit :=
  match l with
  | [] => Ret tt
  | x :: l' => body x ;; for_each l' body
  end.

(** ** The tree's state and the execution of a program *)

(** The struct [SparseMerkleTree]; its tree hasher is the [Hasher] every
    method is generic in. *)
Record SparseMerkleTree (N V : Type) : Type := mkSMT {
  nodes : N;
  values : V;
  root : bytes;
}.
Arguments mkSMT {N V} nodes values root.
Arguments nodes {N V} _.
Arguments values {N V} _.
Arguments root {N V} _.

Section run.
Context {N V : Type} `{MapStore N} `{MapStore V}.
Implicit Types s : SparseMerkleTree N V.

Definition do_Get (st : store_id) (k : bytes) s : outcome bytes :=
  match st with
  | NodeStore => ms_Get k (nodes s)
  | ValueStore => ms_Get k (values s)
  end.

Definition do_Set (st : store_id) (k v : bytes) s : outcome unit * SparseMerkleTree N V :=
  match st with
  | NodeStore => let '(o, n) := ms_Set k v (nodes s) in (o, mkSMT n (values s) (root s))
  | ValueStore => let '(o, w) := ms_Set k v (values s) in (o, mkSMT (nodes s) w (root s))
  end.

Definition do_Delete (st : store_id) (k : bytes) s : outcome unit * SparseMerkleTree N V :=
  match st with
  | NodeStore => let '(o, n) := ms_Delete k (nodes s) in (o, mkSMT n (values s) (root s))
  | ValueStore => let '(o, w) := ms_Delete k (values s) in (o, mkSMT (nodes s) w (root s))
  end.

Fixpoint run {A} (m : prog A) s : outcome A * SparseMerkleTree N V :=
  match m with
  | Ret a => (Ok a, s)
  | Throw e => (Err e, s)
  | Crash => (Panic, s)
  | GetOp st k c =>
      match do_Get st k s with
      | Ok v => run (c (inr v)) s
      | Err e => run (c (inl e)) s
      | Panic => (Panic, s)
      end
  | SetOp st k v c =>
      match do_Set st k v s with
      | (Ok _, s') => run (c None) s'
      | (Err e, s') => run (c (Some e)) s'
      | (Panic, s') => (Panic, s')
      end
  | DeleteOp st k c =>
      match do_Delete st k s with
      | (Ok _, s') => run (c None) s'
      | (Err e, s') => run (c (Some e)) s'
      | (Panic, s') => (Panic, s')
      end
  | RootOp c => run (c (root s)) s
  | SetRootOp r c => run c (mkSMT (nodes s) (values s) r)
  end.

Lemma run_GetOp {A} st k (c : error + bytes → prog A) s :
  run (GetOp st k c) s =
    match do_Get st k s with
    | Ok v => run (c (inr v)) s
    | Err e => run (c (inl e)) s
    | Panic => (Panic, s)
    end.
Proof. done. Qed.

Lemma run_SetOp {A} st k v (c : option error → prog A) s :
  run (SetOp st k v c) s =
    match do_Set st k v s with
    | (Ok _, s') => run (c None) s'
    | (Err e, s') => run (c (Some e)) s'
    | (Panic, s') => (Panic, s')
    end.
Proof. done. Qed.

Lemma run_DeleteOp {A} st k (c : option error → prog A) s :
  run (DeleteOp st k c) s =
    match do_Delete st k s with
    | (Ok _, s') => run (c None) s'
    | (Err e, s') => run (c (Some e)) s'
    | (Panic, s') => (Panic, s')
    end.
Proof. done. Qed.

Lemma run_RootOp {A} (c : bytes → prog A) s : run (RootOp c) s = run (c (root s)) s.
Proof. done. Qed.

Lemma run_SetRootOp {A} r (c : prog A) s :
  run (SetRootOp r c) s = run c (mkSMT (nodes s) (values s) r).
Proof. done. Qed.

Lemma run_bind {A B} (m : prog A) (f : A → prog B) s :
  run (m ≫= f) s =
    match run m s with
    | (Ok a, s') => run (f a) s'
    | (Err e, s') => (Err e, s')
    | (Panic, s') => (Panic, s')
    end.
Proof.
  revert s. induction m as [| | |st k c IH|st k v c IH|st k c IH|c IH|r c IH];
    intros s; simpl; try done; try apply IH.
  - destruct (do_Get st k s); [apply IH..|done].
  - destruct (do_Set st k v s) as [[] s']; [apply IH..|done].
  - destruct (do_Delete st k s) as [[] s']; [apply IH..|done].
Qed.

Lemma run_bind_Ok {A B} (m : prog A) (f : A → prog B) s a s' :
  run m s = (Ok a, s') → run (m ≫= f) s = run (f a) s'.
Proof. intros Hm. by rewrite run_bind, Hm. Qed.

Lemma run_try {A} (m : prog A) s :
  run (try m) s =
    match run m s with
    | (Ok a, s') => (Ok (inr a), s')
    | (Err e, s') => (Ok (inl e), s')
    | (Panic, s') => (Panic, s')
    end.
Proof.
  revert s. induction m as [| | |st k c IH|st k v c IH|st k c IH|c IH|r c IH];
    intros s; simpl; try done; try apply IH.
  - destruct (do_Get st k s); [apply IH..|done].
  - destruct (do_Set st k v s) as [[] s']; [apply IH..|done].
  - destruct (do_Delete st k s) as [[] s']; [apply IH..|done].
Qed.

Lemma run_lift {A} (o : outcome A) s : run (lift o) s = (o, s).
Proof. by destruct o. Qed.

Lemma run_Root s : run Root s = (Ok (root s), s).
Proof. done. Qed.

Lemma run_SetRoot r s : run (SetRoot r) s = (Ok tt, mkSMT (nodes s) (values s) r).
Proof. done. Qed.
End run.

(** ** The reference store and the simulation *)

Section sim.
Context {n : nat} {N V : Type} `{LawfulMapStore n N} `{LawfulMapStore n V}.

(** A tree on lawful stores represents a tree on reference stores. *)
Record tree_rep (s : SparseMerkleTree N V) (g : SparseMerkleTree (KeyedMap n) (KeyedMap n))
    : Prop := {
  rep_nodes : ms_rep (nodes s) (km_m (nodes g));
  rep_values : ms_rep (values s) (km_m (values g));
  rep_root : root s = root g;
}.

Lemma toFixedKey_panic k : length k ≠ n → toFixedKey n k = Panic.
Proof. intros. unfold toFixedKey. by rewrite bool_decide_true. Qed.

Lemma sim_Get st k s g :
  tree_rep s g → length k = n → do_Get st k s = do_Get st k g.
Proof.
  intros [Hn Hv Hr] Hk. destruct st; simpl; unfold KeyedMap_Get;
    rewrite toFixedKey_ok by done; by apply ms_Get_law.
Qed.

Lemma sim_Set st k v s g o g' :
  tree_rep s g → length k = n → do_Set st k v g = (o, g') →
  o = Ok tt ∧ ∃ s', do_Set st k v s = (Ok tt, s') ∧ tree_rep s' g'.
Proof.
  intros [Hn Hv Hr] Hk. destruct st; simpl; unfold KeyedMap_Set;
    rewrite toFixedKey_ok by done; intros [= <- <-]; split; try done.
  - destruct (ms_Set_law (nodes s) _ k v Hn Hk) as (x & -> & Hx). by eexists.
  - destruct (ms_Set_law (values s) _ k v Hv Hk) as (x & -> & Hx). by eexists.
Qed.

Lemma sim_Delete st k s g o g' :
  tree_rep s g → length k = n → do_Delete st k g = (o, g') →
  ∃ s', do_Delete st k s = (o, s') ∧ tree_rep s' g'.
Proof.
  intros [Hn Hv Hr] Hk. destruct st; simpl; unfold KeyedMap_Delete;
    rewrite toFixedKey_ok by done.
  - pose proof (ms_Delete_law (nodes s) _ k Hn Hk) as Hd.
    destruct (km_m (nodes g) !! k); intros [= <- <-].
    + destruct Hd as (x & -> & Hx). by eexists.
    + rewrite Hd. eexists. split; [done|]. by destruct s.
  - pose proof (ms_Delete_law (values s) _ k Hv Hk) as Hd.
    destruct (km_m (values g) !! k); intros [= <- <-].
    + destruct Hd as (x & -> & Hx). by eexists.
    + rewrite Hd. eexists. split; [done|]. by destruct s.
Qed.

Lemma sim_key_panic st k (g : SparseMerkleTree (KeyedMap n) (KeyedMap n)) :
  length k ≠ n →
  do_Get st k g = Panic ∧ (∀ v, do_Set st k v g = (Panic, g)) ∧ do_Delete st k g = (Panic, g).
Proof.
  intros Hk. split_and!; [|intros v|]; destruct g, st; simpl;
    unfold KeyedMap_Get, KeyedMap_Set, KeyedMap_Delete; by rewrite toFixedKey_panic.
Qed.

(** A program that does not panic on the reference stores has the same
    outcome on lawful stores, and the final states correspond. *)
Lemma run_sim {A} (m : prog A) s g o g' :
  tree_rep s g → run m g = (o, g') → o ≠ Panic →
  ∃ s', run m s = (o, s') ∧ tree_rep s' g'.
Proof.
  revert s g. induction m as [a|e| |st k c IH|st k v c IH|st k c IH|c IH|r c IH];
    intros s g Hrep Hrun Ho; cbn [run] in *; try (simplify_eq; by eauto).
  - destruct (decide (length k = n)) as [Hk|Hk].
    2: { destruct (sim_key_panic st k g Hk) as (E & _). rewrite E in Hrun. congruence. }
    rewrite (sim_Get st k s g Hrep Hk). destruct (do_Get st k g); [..|congruence]; eauto.
  - destruct (decide (length k = n)) as [Hk|Hk].
    2: { destruct (sim_key_panic st k g Hk) as (_ & E & _). rewrite E in Hrun. congruence. }
    destruct (do_Set st k v g) as [o1 g1] eqn:E.
    destruct (sim_Set _ _ _ _ _ _ _ Hrep Hk E) as (-> & s1 & -> & Hrep1). eauto.
  - destruct (decide (length k = n)) as [Hk|Hk].
    2: { destruct (sim_key_panic st k g Hk) as (_ & _ & E). rewrite E in Hrun. congruence. }
    destruct (do_Delete st k g) as [o1 g1] eqn:E.
    destruct (sim_Delete _ _ _ _ _ _ Hrep Hk E) as (s1 & -> & Hrep1).
    destruct o1; [eauto..|congruence].
  - rewrite (rep_root _ _ Hrep). eauto.
  - destruct Hrep. eapply IH; eauto. by constructor.
Qed.
End sim.

Arguments run : simpl never.
