(* ===== verification/Proofs.v ===== *)
(** * proofs.go: Merkle proofs, their verification and their compaction. *)

From S2P Require Import Prelude Utils TreeHasher.

(** [right] and [defaultValue] of smt.go. *)
Definition right : Z := 1.
Definition defaultValue : bytes := [].

(** A nil slice is [None] where the code tells nil from empty. *)
Record SparseMerkleProof : Type := mkProof {
  SideNodes : list bytes;
  NonMembershipLeafData : option bytes;
  SiblingData : option bytes;
}.

Record SparseCompactMerkleProof : Type := mkCompactProof {
  cSideNodes : list bytes;
  cNonMembershipLeafData : option bytes;
  BitMask : bytes;
  NumSideNodes : Z;
  cSiblingData : option bytes;
}.

(** [int(math.Ceil(float64(n) / float64(8)))]: exact for the values it is
    applied to, lengths and counts far below 2^53. *)
Definition ceil8 (n : Z) : Z := ((n + 7) / 8)%Z.

Section proofs.
Context {HS : Hasher}.

Definition sanityCheck (proof : SparseMerkleProof) : bool :=
  if pathSize * 8 <? length (SideNodes proof) then false
  else if match NonMembershipLeafData proof with
          | None => false
          | Some d => bool_decide (length d ≠ length leafPrefix + pathSize + hsize)
          end then false
  else if negb (forallb (λ v, length v =? hsize) (SideNodes proof)) then false
  else match SiblingData proof, SideNodes proof with
       | None, _ => true
       | _, [] => true
       | Some sib, s0 :: _ => bytes_Equal s0 (digest sib)
       end.

Definition compact_sanityCheck (proof : SparseCompactMerkleProof) : outcome bool :=
  let n := NumSideNodes proof in
  if (n <? 0)%Z || (n >? Z.of_nat (pathSize * 8))%Z then Ok false
  else if negb (Z.of_nat (length (BitMask proof)) =? ceil8 n)%Z then Ok false
  else if (n >? 0)%Z then
    c ← countSetBits (BitMask proof);
    Ok (Z.of_nat (length (cSideNodes proof)) =? n - c)%Z
  else Ok true.

(** One entry of [updates]: a hash and the value it is the digest of. *)
Abbreviation update := (bytes * bytes)%type.

(** The loop "Recompute root", from index [i] with the remaining side nodes
    [sns]; [len] is [len(proof.SideNodes)]. *)
Fixpoint verify_loop (p : bytes) (len : nat) (sns : list bytes) (i : nat)
    (currentHash : bytes) (updates : list update) : outcome (bytes * list update) :=
  match sns with
  | [] => Ok (currentHash, updates)
  | sn :: sns' =>
      let node := make_copy pathSize sn in
      b ← getBitAtFromMSB p (len - 1 - i);
      let '(currentHash', currentData) :=
        if (b =? right)%Z then digestNode node currentHash
        else digestNode currentHash node in
      verify_loop p len sns' (S i) currentHash' (updates ++ [(currentHash', currentData)])
  end.

(** "Determine what the leaf hash should be": [None] when the proof fails
    because the supplied leaf is not an unrelated one. *)
Definition verify_leaf (proof : SparseMerkleProof) (p value : bytes)
    : outcome (option (bytes * list update)) :=
  if bytes_Equal value defaultValue then
    match NonMembershipLeafData proof with
    | None => Ok (Some (placeholder, []))
    | Some d =>
        '(actualPath, valueHash) ← parseLeaf d;
        if bytes_Equal actualPath p then Ok None
        else
          let '(currentHash, currentData) := digestLeaf actualPath valueHash in
          Ok (Some (currentHash, [(currentHash, currentData)]))
    end
  else
    let valueHash := digest value in
    let '(currentHash, currentData) := digestLeaf p valueHash in
    Ok (Some (currentHash, [(currentHash, currentData)])).

Definition verifyProofWithUpdates (proof : SparseMerkleProof) (root key value : bytes)
    : outcome (bool * list update) :=
  let p := path key in
  if negb (sanityCheck proof) then Ok (false, [])
  else
    r ← verify_leaf proof p value;
    match r with
    | None => Ok (false, [])
    | Some (currentHash, updates) =>
        '(currentHash, updates) ←
          verify_loop p (length (SideNodes proof)) (SideNodes proof) 0 currentHash updates;
        Ok (bytes_Equal currentHash root, updates)
    end.

Definition VerifyProof (proof : SparseMerkleProof) (root key value : bytes) : outcome bool :=
  '(result, _) ← verifyProofWithUpdates proof root key value;
  Ok result.

(** The loop of [CompactProof]: the bit mask and the kept side nodes. *)
Fixpoint compact_loop (sns : list bytes) (i : nat) (bitMask : bytes) (kept : list bytes)
    : outcome (bytes * list bytes) :=
  match sns with
  | [] => Ok (bitMask, kept)
  | sn :: sns' =>
      let node := make_copy hsize sn in
      if bytes_Equal node placeholder then
        bitMask' ← setBitAtFromMSB bitMask i;
        compact_loop sns' (S i) bitMask' kept
      else compact_loop sns' (S i) bitMask (kept ++ [node])
  end.

Definition CompactProof (proof : SparseMerkleProof) : outcome SparseCompactMerkleProof :=
  if negb (sanityCheck proof) then Err ErrBadProof
  else
    let bitMask := emptyBytes (Z.to_nat (ceil8 (Z.of_nat (length (SideNodes proof))))) in
    '(bitMask, compactedSideNodes) ← compact_loop (SideNodes proof) 0 bitMask [];
    Ok (mkCompactProof compactedSideNodes (NonMembershipLeafData proof) bitMask
          (Z.of_nat (length (SideNodes proof))) (SiblingData proof)).

(** The loop of [DecompactProof]: [n] iterations to go, the next index [i]
    and the next kept side node [position]. *)
Fixpoint decompact_loop (bitMask : bytes) (sns : list bytes) (n i position : nat)
    (acc : list bytes) : outcome (list bytes) :=
  match n with
  | 0 => Ok acc
  | S n' =>
      b ← getBitAtFromMSB bitMask i;
      if (b =? 1)%Z then
        decompact_loop bitMask sns n' (S i) position (acc ++ [placeholder])
      else
        sn ← index sns position;
        decompact_loop bitMask sns n' (S i) (S position) (acc ++ [sn])
  end.

Definition DecompactProof (proof : SparseCompactMerkleProof) : outcome SparseMerkleProof :=
  ok ← compact_sanityCheck proof;
  if negb ok then Err ErrBadProof
  else
    decompactedSideNodes ←
      decompact_loop (BitMask proof) (cSideNodes proof) (Z.to_nat (NumSideNodes proof)) 0 0 [];
    Ok (mkProof decompactedSideNodes (cNonMembershipLeafData proof) (cSiblingData proof)).

(** [VerifyCompactProof] answers false on a decompaction error. *)
Definition VerifyCompactProof (proof : SparseCompactMerkleProof) (root key value : bytes)
    : outcome bool :=
  match DecompactProof proof with
  | Ok decompactedProof => VerifyProof decompactedProof root key value
  | Err _ => Ok false
  | Panic => Panic
  end.
End proofs.
