(* ===== verification/Smt.v ===== *)
(** * smt.go: the sparse Merkle tree.

    Every method of [SparseMerkleTree] as a program over the node store, the
    value store and the root. *)

From S2P Require Import Prelude Utils MapStore TreeHasher Effects Proofs.

(** The slices [fillSideNodes] fills. *)
Record pathSlices : Type := mkPathSlices {
  sideNodes : list bytes;
  pathNodes : list bytes;
}.

(** A nil byte slice has no bytes. *)
Definition of_nil (d : option bytes) : bytes := default [] d.

Section smt.
Context {HS : Hasher}.

Definition depth : nat := pathSize * 8.

(** ** Construction *)

(** options.go: a function that changes the tree it is given. *)
Definition Option (N V : Type) : Type := SparseMerkleTree N V → SparseMerkleTree N V.

Definition NewSparseMerkleTree {N V} (nodes : N) (values : V) (options : list (Option N V))
    : SparseMerkleTree N V :=
  let smt := foldl (λ smt option, option smt) (mkSMT nodes values []) options in
  mkSMT (Effects.nodes smt) (Effects.values smt) placeholder.

Definition ImportSparseMerkleTree {N V} (nodes : N) (values : V) (root : bytes)
    : SparseMerkleTree N V :=
  mkSMT nodes values root.

(** ** Reading *)

Definition Get (key : bytes) : prog bytes :=
  root ← Root;
  if bytes_Equal root placeholder then Ret defaultValue
  else
    r ← try (values_Get (path key));
    match r with
    | inl (InvalidKeyError _) => Ret defaultValue
    | inl e => Throw e
    | inr value => Ret value
    end.

Definition Has (key : bytes) : prog bool :=
  val ← Get key;
  Ret (negb (bytes_Equal defaultValue val)).

(** ** Walking down *)

(** The loop of [fillSideNodes] from depth [i], [n] iterations to go.  It
    returns the slices in root-to-leaf order, the last side node and the
    final [currentData] (nil after a placeholder). *)
Fixpoint fillSideNodes_loop (p : bytes) (n i : nat) (currentData sideNode : bytes)
    (sns pns : list bytes) : prog (list bytes * list bytes * bytes * option bytes) :=
  match n with
  | 0 => Ret (sns, pns, sideNode, Some currentData)
  | S n' =>
      '(leftNode, rightNode) ← lift (parseNode currentData);
      b ← lift (getBitAtFromMSB p i);
      let sideNode := if (b =? right)%Z then leftNode else rightNode in
      let nodeHash := if (b =? right)%Z then rightNode else leftNode in
      let sns := sns ++ [sideNode] in
      let pns := pns ++ [nodeHash] in
      if bytes_Equal nodeHash placeholder then Ret (sns, pns, sideNode, None)
      else
        currentData ← nodes_Get nodeHash;
        leaf ← lift (isLeaf currentData);
        if (leaf : bool) then Ret (sns, pns, sideNode, Some currentData)
        else fillSideNodes_loop p n' (S i) currentData sideNode sns pns
  end.

(** [fillSideNodes] on empty slices: the slices, the leaf data and the
    sibling data. *)
Definition fillSideNodes (p root : bytes) (getSiblingData : bool)
    : prog (pathSlices * option bytes * option bytes) :=
  if bytes_Equal root placeholder then Ret (mkPathSlices [] [root], None, None)
  else
    currentData ← nodes_Get root;
    leaf ← lift (isLeaf currentData);
    if (leaf : bool) then Ret (mkPathSlices [] [root], Some currentData, None)
    else
      '(sns, pns, sideNode, currentData) ←
        fillSideNodes_loop p depth 0 currentData [] [] [root];
      siblingData ←
        (if getSiblingData then d ← nodes_Get sideNode; Ret (Some d) else Ret None);
      sns ← lift (reverseByteSlicesInPlace sns);
      pns ← lift (reverseByteSlicesInPlace pns);
      Ret (mkPathSlices sns pns, currentData, siblingData).

Definition sideNodesForRoot (p root : bytes) (getSiblingData : bool)
    : prog (list bytes * list bytes * option bytes * option bytes) :=
  '(ps, leafData, siblingData) ← fillSideNodes p root getSiblingData;
  Ret (sideNodes ps, pathNodes ps, leafData, siblingData).

(** ** Deleting *)

(** The loop of [deleteWithSideNodes] over the remaining side nodes [sns]
    from index [i]; [len] is [len(sideNodes)]. *)
Fixpoint deleteWithSideNodes_loop (p : bytes) (len : nat) (sns : list bytes) (i : nat)
    (currentHash currentData : option bytes) (nonPlaceholderReached : bool)
    : prog (option bytes) :=
  match sns with
  | [] => Ret currentHash
  | sideNode :: sns' =>
      (* the block "if currentData == nil": [None] is its [continue] *)
      st ← match currentData with
           | Some d => Ret (Some (d, nonPlaceholderReached))
           | None =>
               sideNodeValue ← nodes_Get sideNode;
               leaf ← lift (isLeaf sideNodeValue);
               if (leaf : bool) then Ret None else Ret (Some (placeholder, true))
           end;
      match st with
      | None =>
          deleteWithSideNodes_loop p len sns' (S i) (Some sideNode) (Some sideNode)
            nonPlaceholderReached
      | Some (currentData, nonPlaceholderReached) =>
          if negb nonPlaceholderReached && bytes_Equal sideNode placeholder then
            deleteWithSideNodes_loop p len sns' (S i) currentHash (Some currentData)
              nonPlaceholderReached
          else
            b ← lift (getBitAtFromMSB p (len - 1 - i));
            let '(currentHash, currentData) :=
              if (b =? right)%Z then digestNodeInto sideNode currentData
              else digestNodeInto currentData sideNode in
            nodes_Set currentHash currentData ;;
            deleteWithSideNodes_loop p len sns' (S i) (Some currentHash) (Some currentHash)
              true
      end
  end.

Definition deleteWithSideNodes (p : bytes) (sideNodes pathNodes : list bytes)
    (oldLeafData : option bytes) : prog bytes :=
  pathNode0 ← lift (index pathNodes 0);
  if bytes_Equal pathNode0 placeholder then Throw errKeyAlreadyEmpty
  else
    '(actualPath, _) ← lift (parseLeaf (of_nil oldLeafData));
    if negb (bytes_Equal p actualPath) then Throw errKeyAlreadyEmpty
    else
      for_each pathNodes nodes_Delete ;;
      currentHash ← deleteWithSideNodes_loop p (length sideNodes) sideNodes 0 None None false;
      match currentHash with
      | None => Ret placeholder
      | Some h => Ret h
      end.

(** ** Inserting and updating *)

(** The final loop of [updateWithSideNodes] from [i], [n] iterations to go.
    The entries of [sideNodes] are never nil: they are slices of the data
    of a parsed node. *)
Fixpoint updateWithSideNodes_loop (p : bytes) (sideNodes : list bytes)
    (commonPrefixCount : nat) (n i : nat) (currentData : bytes) : prog bytes :=
  match n with
  | 0 => Ret currentData
  | S n' =>
      let offsetOfSideNodes := (Z.of_nat depth - Z.of_nat (length sideNodes))%Z in
      sideNode ←
        (if (Z.of_nat i - offsetOfSideNodes <? 0)%Z then
           if bool_decide (commonPrefixCount ≠ depth) &&
              (Z.of_nat commonPrefixCount >? Z.of_nat depth - 1 - Z.of_nat i)%Z
           then Ret (Some placeholder)
           else Ret None
         else
           sn ← lift (index sideNodes (Z.to_nat (Z.of_nat i - offsetOfSideNodes)));
           Ret (Some sn));
      match sideNode with
      | None => updateWithSideNodes_loop p sideNodes commonPrefixCount n' (S i) currentData
      | Some sideNode =>
          b ← lift (getBitAtFromMSB p (depth - 1 - i));
          let '(currentHash, currentData) :=
            if (b =? right)%Z then digestNodeInto sideNode currentData
            else digestNodeInto currentData sideNode in
          nodes_Set currentHash currentData ;;
          updateWithSideNodes_loop p sideNodes commonPrefixCount n' (S i) currentHash
      end
  end.

Definition updateWithSideNodes (p value : bytes) (sideNodes pathNodes : list bytes)
    (oldLeafData : option bytes) : prog bytes :=
  let valueHash := digestInto value in
  let '(currentHash, currentData) := digestLeafInto p valueHash in
  nodes_Set currentHash currentData ;;
  let currentData := currentHash in
  pathNode0 ← lift (index pathNodes 0);
  '(commonPrefixCount, oldValueHash) ←
    (if bytes_Equal pathNode0 placeholder then Ret (depth, None)
     else
       '(actualPath, oldValueHash) ← lift (parseLeaf (of_nil oldLeafData));
       c ← lift (countCommonPrefix p actualPath);
       Ret (c, Some oldValueHash));
  (* [inl r] is the early "return r, nil" *)
  next ←
    (if bool_decide (commonPrefixCount ≠ depth) then
       b ← lift (getBitAtFromMSB p commonPrefixCount);
       let '(currentHash, currentData) :=
         if (b =? right)%Z then digestNodeInto pathNode0 currentData
         else digestNodeInto currentData pathNode0 in
       nodes_Set currentHash currentData ;;
       Ret (inr currentHash)
     else
       match oldValueHash with
       | Some oldValueHash =>
           if bytes_Equal oldValueHash valueHash then
             root ← Root; Ret (inl root)
           else
             nodes_Delete pathNode0 ;;
             values_Delete p ;;
             Ret (inr currentData)
       | None => Ret (inr currentData)
       end);
  match next with
  | inl root => Ret root
  | inr currentData =>
      for_each (drop 1 pathNodes) nodes_Delete ;;
      newRoot ← updateWithSideNodes_loop p sideNodes commonPrefixCount depth 0 currentData;
      values_Set p value ;;
      Ret newRoot
  end.

(** ** The update API *)

Definition UpdateForRoot (key value root : bytes) : prog bytes :=
  let p := pathInto key in
  '(ps, oldLeafData, _) ← fillSideNodes p root false;
  if bytes_Equal value defaultValue then
    r ← try (deleteWithSideNodes p (sideNodes ps) (pathNodes ps) oldLeafData);
    match r with
    | inl errKeyAlreadyEmpty => Ret root
    | _ =>
        values_Delete p ;;
        match r with
        | inl e => Throw e
        | inr newRoot => Ret newRoot
        end
    end
  else updateWithSideNodes p value (sideNodes ps) (pathNodes ps) oldLeafData.

Definition DeleteForRoot (key root : bytes) : prog bytes :=
  UpdateForRoot key defaultValue root.

Definition Update (key value : bytes) : prog bytes :=
  root ← Root;
  newRoot ← UpdateForRoot key value root;
  SetRoot newRoot ;;
  Ret newRoot.

Definition Delete (key : bytes) : prog bytes := Update key defaultValue.

(** ** Proofs *)

Definition doProveForRoot (key root : bytes) (isUpdatable : bool) : prog SparseMerkleProof :=
  let p := path key in
  '(ps, leafData, siblingData) ← fillSideNodes p root isUpdatable;
  (* the entries of [ps.sideNodes] are slices of node data, never nil *)
  let nonEmptySideNodes := sideNodes ps in
  pathNode0 ← lift (index (pathNodes ps) 0);
  nonMembershipLeafData ←
    (if negb (bytes_Equal pathNode0 placeholder) then
       '(actualPath, _) ← lift (parseLeaf (of_nil leafData));
       if negb (bytes_Equal actualPath p) then Ret leafData else Ret None
     else Ret None);
  Ret (mkProof nonEmptySideNodes nonMembershipLeafData siblingData).

Definition ProveForRoot (key root : bytes) : prog SparseMerkleProof :=
  doProveForRoot key root false.

Definition Prove (key : bytes) : prog SparseMerkleProof :=
  root ← Root;
  ProveForRoot key root.

Definition ProveUpdatableForRoot (key root : bytes) : prog SparseMerkleProof :=
  doProveForRoot key root true.

Definition ProveUpdatable (key : bytes) : prog SparseMerkleProof :=
  root ← Root;
  ProveUpdatableForRoot key root.

Definition ProveCompactForRoot (key root : bytes) : prog SparseCompactMerkleProof :=
  proof ← ProveForRoot key root;
  lift (CompactProof proof).

Definition ProveCompact (key : bytes) : prog SparseCompactMerkleProof :=
  root ← Root;
  ProveCompactForRoot key root.
End smt.
