(* ===== verification/DeepSubTree.v ===== *)
(** * deepsubtree.go: deep subtrees.

    A [DeepSparseMerkleSubTree] is a tree whose stores hold only the branches
    added to it; it shares the methods of [SparseMerkleTree]. *)

From S2P Require Import Prelude Utils MapStore TreeHasher Effects Proofs Smt.

Section deep.
Context {HS : Hasher}.

(** The struct embeds the tree and has no other field. *)
Definition DeepSparseMerkleSubTree (N V : Type) : Type := SparseMerkleTree N V.

Definition NewDeepSparseMerkleSubTree {N V} (nodes : N) (values : V) (root : bytes)
    : DeepSparseMerkleSubTree N V :=
  ImportSparseMerkleTree nodes values root.

Definition AddBranch (proof : SparseMerkleProof) (key value : bytes) : prog unit :=
  root ← Root;
  '(result, updates) ← lift (verifyProofWithUpdates proof root key value);
  if negb result then Throw ErrBadProof
  else
    (if negb (bytes_Equal value defaultValue) then values_Set (path key) value else Ret tt) ;;
    for_each updates (λ update, nodes_Set update.1 update.2) ;;
    match SiblingData proof, SideNodes proof with
    | Some siblingData, sideNode0 :: _ => nodes_Set sideNode0 siblingData
    | _, _ => Ret tt
    end.

(** The loop of [GetDescend] at depth [i], [n] iterations to go, with the code
    after the loop at the end. *)
Fixpoint GetDescend_loop (p : bytes) (n i : nat) (currentHash : bytes) : prog bytes :=
  match n with
  | 0 => values_Get p
  | S n' =>
      currentData ← nodes_Get currentHash;
      leaf ← lift (isLeaf currentData);
      if (leaf : bool) then
        '(p', _) ← lift (parseLeaf currentData);
        if negb (bytes_Equal p p') then Ret defaultValue else values_Get p
      else
        '(leftNode, rightNode) ← lift (parseNode currentData);
        b ← lift (getBitAtFromMSB p i);
        let currentHash := if (b =? right)%Z then rightNode else leftNode in
        if bytes_Equal currentHash placeholder then Ret defaultValue
        else GetDescend_loop p n' (S i) currentHash
  end.

Definition GetDescend (key : bytes) : prog bytes :=
  root ← Root;
  if bytes_Equal root placeholder then Ret defaultValue
  else GetDescend_loop (path key) depth 0 root.

Definition HasDescend (key : bytes) : prog bool :=
  val ← GetDescend key;
  Ret (negb (bytes_Equal defaultValue val)).
End deep.
