(* ===== verification/Bulk.v ===== *)
(** * bulk.go: batches of updates in one walk. *)

From S2P Require Import Prelude Utils MapStore TreeHasher Effects Proofs Smt.

(** A path and a value. *)
Abbreviation bulkKV := (bytes * bytes)%type.

(** ** The Go library functions the code calls *)

(** [sort.Search(n, f)]: a binary search for the smallest index in [i, j)
    with [f]; [j] when there is none.  [fuel] bounds the iterations, [j - i]
    of them are enough. *)
Fixpoint Search_loop (fuel : nat) (f : nat → outcome bool) (i j : nat) : outcome nat :=
  match fuel with
  | 0 => Ok i
  | S fuel' =>
      if i <? j then
        let h := (i + j) / 2 in
        b ← f h;
        if (b : bool) then Search_loop fuel' f i h else Search_loop fuel' f (S h) j
      else Ok i
  end.

Definition Search (n : nat) (f : nat → outcome bool) : outcome nat := Search_loop n f 0 n.

(** [slices.SortStableFunc] by path: elements that compare equal keep their
    order, which determines the result; it is computed by insertion. *)
Fixpoint sort_insert (x : bulkKV) (l : list bulkKV) : list bulkKV :=
  match l with
  | [] => [x]
  | y :: l' =>
      match bytes_Compare x.1 y.1 with
      | Gt => y :: sort_insert x l'
      | _ => x :: l
      end
  end.

Definition SortStableFunc (kvs : list bulkKV) : list bulkKV := foldr sort_insert [] kvs.

(** ** bulk.go *)

(** The loop "Dedup adjacent same-path entries" from [r], [n] iterations to
    go, on the array [kvs] it compacts in place: the array and the final
    [w]. *)
Fixpoint dedup_loop (n r w : nat) (kvs : list bulkKV) : outcome (list bulkKV * nat) :=
  match n with
  | 0 => Ok (kvs, w)
  | S n' =>
      x ← index kvs r;
      same ← (if S r <? length kvs then y ← index kvs (S r); Ok (bytes_Equal x.1 y.1)
              else Ok false);
      if (same : bool) then dedup_loop n' (S r) w kvs
      else
        let kvs := if bool_decide (w ≠ r) then <[w := x]> kvs else kvs in
        dedup_loop n' (S r) (S w) kvs
  end.

Definition dedup (kvs : list bulkKV) : outcome (list bulkKV) :=
  '(kvs, w) ← dedup_loop (length kvs) 0 0 kvs;
  Ok (take w kvs).

Section bulk.
Context {HS : Hasher}.

Definition partitionByBit (kvs : list bulkKV) (depth : nat) : outcome nat :=
  if length kvs =? 0 then Ok 0
  else Search (length kvs) (λ i,
    kv ← index kvs i;
    b ← getBitAtFromMSB kv.1 depth;
    Ok (b =? right)%Z).

(** [fuel] bounds the recursion, and [out] stands for what is beyond it.
    [S (depth - d)] is enough, since the partition of two keys at a depth beyond
    the path panics: then [out] does not matter. *)
Fixpoint buildSubtree (out : prog bytes) (fuel d : nat) (kvs : list bulkKV) : prog bytes :=
  match fuel with
  | 0 => out
  | S fuel' =>
      match kvs with
      | [] => Ret placeholder
      | [(p, value)] =>
          let valueHash := digestInto value in
          let '(leafHash, leafData) := digestLeaf p valueHash in
          nodes_Set leafHash leafData ;;
          values_Set p value ;;
          Ret leafHash
      | _ =>
          splitIdx ← lift (partitionByBit kvs d);
          let leftKVs := take splitIdx kvs in
          let rightKVs := drop splitIdx kvs in
          leftHash ← (if length leftKVs =? 0 then Ret placeholder
                      else buildSubtree out fuel' (S d) leftKVs);
          rightHash ← (if length rightKVs =? 0 then Ret placeholder
                       else buildSubtree out fuel' (S d) rightKVs);
          let '(nodeHash, nodeData) := digestNode leftHash rightHash in
          nodes_Set nodeHash nodeData ;;
          Ret nodeHash
      end
  end.

Definition mergeLeafWithKVs (out : prog bytes) (fuel : nat) (currentHash leafData : bytes) (d : nat)
    (kvs : list bulkKV) : prog bytes :=
  '(leafPath, existingValueHash) ← lift (parseLeaf leafData);
  let shadowed := existsb (λ kv, bytes_Equal kv.1 leafPath) kvs in
  same ← (if shadowed && (length kvs =? 1) then
            kv0 ← lift (index kvs 0);
            Ret (bytes_Equal existingValueHash (digestInto kv0.2))
          else Ret false);
  if (same : bool) then Ret currentHash
  else
    nodes_Delete currentHash ;;
    merged ← (if negb shadowed then
                oldValue ← values_Get leafPath;
                insertIdx ← lift (Search (length kvs) (λ i,
                  kv ← index kvs i;
                  Ok (match bytes_Compare kv.1 leafPath with Lt => false | _ => true end)));
                Ret (take insertIdx kvs ++ [(leafPath, oldValue)] ++ drop insertIdx kvs)
              else Ret kvs);
    buildSubtree out fuel d merged.

(** Here too [S (depth - d)] is enough fuel. *)
Fixpoint bulkApplyAtRoot (out : prog bytes) (fuel : nat) (currentHash : bytes) (d : nat) (kvs : list bulkKV)
    : prog bytes :=
  match fuel with
  | 0 => out
  | S fuel' =>
      if length kvs =? 0 then Ret currentHash
      else if bytes_Equal currentHash placeholder then buildSubtree out fuel d kvs
      else
        nodeData ← nodes_Get currentHash;
        leaf ← lift (isLeaf nodeData);
        if (leaf : bool) then mergeLeafWithKVs out fuel currentHash nodeData d kvs
        else
          '(leftHash, rightHash) ← lift (parseNode nodeData);
          splitIdx ← lift (partitionByBit kvs d);
          let leftKVs := take splitIdx kvs in
          let rightKVs := drop splitIdx kvs in
          newLeft ← bulkApplyAtRoot out fuel' leftHash (S d) leftKVs;
          newRight ← bulkApplyAtRoot out fuel' rightHash (S d) rightKVs;
          if bytes_Equal newLeft leftHash && bytes_Equal newRight rightHash
          then Ret currentHash
          else
            nodes_Delete currentHash ;;
            let '(newHash, newData) := digestNode newLeft newRight in
            nodes_Set newHash newData ;;
            Ret newHash
  end.

Definition BulkUpdate (keys values : list bytes) : prog bytes :=
  if negb (length keys =? length values) then Throw ErrBulkInputMismatch
  else if length keys =? 0 then Root
  else
    for_each (zip keys values) (λ kv,
      if bytes_Equal kv.2 defaultValue then _ ← Delete kv.1; Ret tt else Ret tt) ;;
    let kvs := (λ kv, (path kv.1, kv.2)) <$>
               filter (λ kv, ¬ bytes_Equal kv.2 defaultValue = true) (zip keys values) in
    if length kvs =? 0 then Root
    else
      kvs ← lift (dedup (SortStableFunc kvs));
      root ← Root;
      newRoot ← bulkApplyAtRoot Crash (S depth) root 0 kvs;
      SetRoot newRoot ;;
      Ret newRoot.
End bulk.
