(* ===== verification/Pool.v ===== *)
(** * pool.go: the pooled buffers of the update path, and goroutines that share
    them.

    [UpdateForRoot] and [doProveForRoot] take their outer slices from one
    [sync.Pool], [UpdateForRoot] and [BulkUpdate] their hash buffers from
    another, and give them back when they return.  Here these functions and what
    they call are written as the code has them, over those objects: a digest is
    a slice of a buffer that later steps overwrite, the slices are appended to in
    place, and what the caller keeps is only the
    copy made at the end.  [Smt] and [Bulk] have the same functions with values
    in place of buffers; [PoolSpec] shows that they do the same.

    A program is a tree of operations, each an access to the stores or the
    root of one tree, to a buffer, to the path slices or to a pool.
    [thread_step] does one of them, [cstep] one of any goroutine: the memory
    and the pools are shared, and the goroutines interleave at every access. *)

From S2P Require Import Prelude Utils MapStore TreeHasher Effects Proofs Smt Bulk.

Definition pathSliceCap : nat := 256.
Definition hashBufCap : nat := 64.

Record updateScratch : Type := mkUpdateScratch {
  pathBuf : bytes;
  valueHashBuf : bytes;
  hashBufA : bytes;
  hashBufB : bytes;
}.

(** [new(updateScratch)] *)
Definition new_updateScratch : updateScratch :=
  let zero := replicate hashBufCap x00 in mkUpdateScratch zero zero zero zero.

Definition new_pathSlices : pathSlices := mkPathSlices [] [].

Inductive bufName : Type := PathBuf | ValueHashBuf | HashBufA | HashBufB.

#[export] Instance bufName_eq_dec : EqDecision bufName.
Proof. solve_decision. Defined.

Definition buf_get (b : bufName) (sc : updateScratch) : bytes :=
  match b with
  | PathBuf => pathBuf sc
  | ValueHashBuf => valueHashBuf sc
  | HashBufA => hashBufA sc
  | HashBufB => hashBufB sc
  end.

Definition buf_set (b : bufName) (d : bytes) (sc : updateScratch) : updateScratch :=
  match b with
  | PathBuf => mkUpdateScratch d (valueHashBuf sc) (hashBufA sc) (hashBufB sc)
  | ValueHashBuf => mkUpdateScratch (pathBuf sc) d (hashBufA sc) (hashBufB sc)
  | HashBufA => mkUpdateScratch (pathBuf sc) (valueHashBuf sc) d (hashBufB sc)
  | HashBufB => mkUpdateScratch (pathBuf sc) (valueHashBuf sc) (hashBufA sc) d
  end.

(** [copy(dst, sum)] for a [dst] with room for it. *)
Definition buf_write (b : bufName) (sum : bytes) (sc : updateScratch) : updateScratch :=
  buf_set b (sum ++ drop (length sum) (buf_get b sc)) sc.

(** A byte slice: the first [Size()] bytes of a buffer of the scratch object
    [id], or bytes that nothing overwrites (a fresh allocation, or a part of
    data that a store holds). *)
Inductive ref : Type := In (id : nat) (b : bufName) | Own (d : bytes).

#[export] Instance ref_eq_dec : EqDecision ref.
Proof. solve_decision. Defined.

(** ** Programs over the pooled memory *)

(** Objects are named by their address. *)
Inductive bprog (A : Type) : Type :=
  | BRet (a : A)
  | BThrow (e : error)
  | BCrash
  | BGetOp (st : store_id) (k : bytes) (c : error + bytes → bprog A)
  | BSetOp (st : store_id) (k v : bytes) (c : option error → bprog A)
  | BDeleteOp (st : store_id) (k : bytes) (c : option error → bprog A)
  | BRootOp (c : ref → bprog A)
  | BSetRootOp (r : ref) (c : bprog A)
  | BLoadOp (r : ref) (c : bytes → bprog A)
  | BStoreOp (id : nat) (b : bufName) (sum : bytes) (c : bprog A)
  | BReadSlicesOp (sid : nat) (c : pathSlices → bprog A)
  | BWriteSlicesOp (sid : nat) (ps : pathSlices) (c : bprog A)
  | BGetScratchOp (c : nat → bprog A)
  | BPutScratchOp (id : nat) (c : bprog A)
  | BGetSlicesOp (c : nat → bprog A)
  | BPutSlicesOp (sid : nat) (c : bprog A).
Arguments BRet {A} a.
Arguments BThrow {A} e.
Arguments BCrash {A}.
Arguments BGetOp {A} st k c.
Arguments BSetOp {A} st k v c.
Arguments BDeleteOp {A} st k c.
Arguments BRootOp {A} c.
Arguments BSetRootOp {A} r c.
Arguments BLoadOp {A} r c.
Arguments BStoreOp {A} id b sum c.
Arguments BReadSlicesOp {A} sid c.
Arguments BWriteSlicesOp {A} sid ps c.
Arguments BGetScratchOp {A} c.
Arguments BPutScratchOp {A} id c.
Arguments BGetSlicesOp {A} c.
Arguments BPutSlicesOp {A} sid c.

(** [k] goes on from the outcome of a program; a panic ends it. *)
Fixpoint bcont {A B} (c : bprog A) (k : error + A → bprog B) : bprog B :=
  match c with
  | BRet a => k (inr a)
  | BThrow e => k (inl e)
  | BCrash => BCrash
  | BGetOp st key c => BGetOp st key (λ r, bcont (c r) k)
  | BSetOp st key v c => BSetOp st key v (λ r, bcont (c r) k)
  | BDeleteOp st key c => BDeleteOp st key (λ r, bcont (c r) k)
  | BRootOp c => BRootOp (λ r, bcont (c r) k)
  | BSetRootOp r c => BSetRootOp r (bcont c k)
  | BLoadOp r c => BLoadOp r (λ d, bcont (c d) k)
  | BStoreOp id b sum c => BStoreOp id b sum (bcont c k)
  | BReadSlicesOp sid c => BReadSlicesOp sid (λ ps, bcont (c ps) k)
  | BWriteSlicesOp sid ps c => BWriteSlicesOp sid ps (bcont c k)
  | BGetScratchOp c => BGetScratchOp (λ id, bcont (c id) k)
  | BPutScratchOp id c => BPutScratchOp id (bcont c k)
  | BGetSlicesOp c => BGetSlicesOp (λ sid, bcont (c sid) k)
  | BPutSlicesOp sid c => BPutSlicesOp sid (bcont c k)
  end.

Definition bret {A} (a : A) : bprog A := BRet a.
Definition throw {A} (e : error) : bprog A := BThrow e.

#[export] Instance bprog_ret : MRet bprog := @BRet.
#[export] Instance bprog_bind : MBind bprog := λ A B f c,
  bcont c (λ r, match r with inl e => BThrow e | inr a => f a end).

Definition btry {A} (c : bprog A) : bprog (error + A) := bcont c BRet.

Definition bthrow_or {A} (r : error + A) : bprog A :=
  match r with
  | inl e => BThrow e
  | inr a => BRet a
  end.

(** A program of [Smt]: it reads the root through the slice the tree has, and
    assigns fresh slices. *)
Fixpoint call {A} (P : prog A) : bprog A :=
  match P with
  | Ret a => BRet a
  | Throw e => BThrow e
  | Crash => BCrash
  | GetOp st k c => BGetOp st k (λ r, call (c r))
  | SetOp st k v c => BSetOp st k v (λ r, call (c r))
  | DeleteOp st k c => BDeleteOp st k (λ r, call (c r))
  | RootOp c => BRootOp (λ r, BLoadOp r (λ d, call (c d)))
  | SetRootOp r c => BSetRootOp (Own r) (call c)
  end.

Definition load (r : ref) : bprog bytes := BLoadOp r BRet.
Definition bRoot : bprog ref := BRootOp BRet.
Definition bSetRoot (r : ref) : bprog unit := BSetRootOp r (BRet tt).
Definition read_slices (sid : nat) : bprog pathSlices := BReadSlicesOp sid BRet.
Definition write_slices (sid : nat) (ps : pathSlices) : bprog unit :=
  BWriteSlicesOp sid ps (BRet tt).

Definition append_pathNode (sid : nat) (d : bytes) : bprog unit :=
  ps ← read_slices sid;
  write_slices sid (mkPathSlices (sideNodes ps) (pathNodes ps ++ [d])).
Definition append_sideNode (sid : nat) (d : bytes) : bprog unit :=
  ps ← read_slices sid;
  write_slices sid (mkPathSlices (sideNodes ps ++ [d]) (pathNodes ps)).

(** ** The pools *)

Definition getPathSlices : bprog nat := BGetSlicesOp BRet.
Definition getUpdateScratch : bprog nat := BGetScratchOp BRet.

(** The entries are set to nil, the lengths to 0. *)
Definition putPathSlices (sid : nat) : bprog unit :=
  p ← read_slices sid;
  write_slices sid (mkPathSlices ((λ _, []) <$> sideNodes p) ((λ _, []) <$> pathNodes p)) ;;
  p ← read_slices sid;
  write_slices sid (mkPathSlices (take 0 (sideNodes p)) (take 0 (pathNodes p))) ;;
  BPutSlicesOp sid (BRet tt).

Definition putUpdateScratch (id : nat) : bprog unit := BPutScratchOp id (BRet tt).

Section pool.
Context {HS : Hasher}.

(** [hasher.Sum(dst[:0])] for a buffer [dst] of the scratch object [id]: the digest
    overwrites the start of the buffer, or is allocated when it has no room. *)
Definition sum_into (id : nat) (b : bufName) (sum : bytes) : bprog ref :=
  if hsize <=? hashBufCap then BStoreOp id b sum (BRet (In id b)) else bret (Own sum).

(** The digests read their arguments before they write the buffer. *)
Definition digestInto_buf (id : nat) (b : bufName) (data : bytes) : bprog ref :=
  sum_into id b (digestInto data).

Definition digestLeafInto_buf (id : nat) (b : bufName) (p leafData : ref) : bprog (ref * bytes) :=
  p ← load p;
  leafData ← load leafData;
  let '(sum, value) := digestLeafInto p leafData in
  h ← sum_into id b sum;
  bret (h, value).

Definition digestNodeInto_buf (id : nat) (b : bufName) (leftData rightData : ref)
    : bprog (ref * bytes) :=
  leftData ← load leftData;
  rightData ← load rightData;
  let '(sum, value) := digestNodeInto leftData rightData in
  h ← sum_into id b sum;
  bret (h, value).

(** [hashBufs[turn]] *)
Definition hashBufs (turn : bool) : bufName := if turn then HashBufB else HashBufA.

(** ** fillSideNodes *)

(** The loop from depth [i], [n] iterations to go: it appends to the path
    slices, and returns the last side node and the final [currentData]. *)
Fixpoint fillSideNodes_buf_loop (sid : nat) (p : ref) (n i : nat) (currentData sideNode : bytes)
    : bprog (bytes * option bytes) :=
  match n with
  | 0 => bret (sideNode, Some currentData)
  | S n' =>
      '(leftNode, rightNode) ← call (lift (parseNode currentData));
      path ← load p;
      b ← call (lift (getBitAtFromMSB path i));
      let sideNode := if (b =? right)%Z then leftNode else rightNode in
      let nodeHash := if (b =? right)%Z then rightNode else leftNode in
      append_sideNode sid sideNode ;;
      append_pathNode sid nodeHash ;;
      if bytes_Equal nodeHash placeholder then bret (sideNode, None)
      else
        currentData ← call (nodes_Get nodeHash);
        leaf ← call (lift (isLeaf currentData));
        if (leaf : bool) then bret (sideNode, Some currentData)
        else fillSideNodes_buf_loop sid p n' (S i) currentData sideNode
  end.

Definition fillSideNodes_buf (sid : nat) (p root : ref) (getSiblingData : bool)
    : bprog (option bytes * option bytes) :=
  root ← load root;
  append_pathNode sid root ;;
  if bytes_Equal root placeholder then bret (None, None)
  else
    currentData ← call (nodes_Get root);
    leaf ← call (lift (isLeaf currentData));
    if (leaf : bool) then bret (Some currentData, None)
    else
      '(sideNode, currentData) ← fillSideNodes_buf_loop sid p depth 0 currentData [];
      siblingData ←
        (if getSiblingData then d ← call (nodes_Get sideNode); bret (Some d) else bret None);
      ps ← read_slices sid;
      sns ← call (lift (reverseByteSlicesInPlace (sideNodes ps)));
      pns ← call (lift (reverseByteSlicesInPlace (pathNodes ps)));
      write_slices sid (mkPathSlices sns pns) ;;
      bret (currentData, siblingData).

(** ** Deleting *)

(** [turn] starts false; a nil slice is [None]. *)
Fixpoint deleteWithSideNodes_buf_loop (id : nat) (p : ref) (len : nat) (sns : list bytes) (i : nat)
    (currentHash currentData : option ref) (nonPlaceholderReached turn : bool)
    : bprog (option ref) :=
  match sns with
  | [] => bret currentHash
  | sideNode :: sns' =>
      st ← match currentData with
           | Some d => bret (Some (d, nonPlaceholderReached))
           | None =>
               sideNodeValue ← call (nodes_Get sideNode);
               leaf ← call (lift (isLeaf sideNodeValue));
               if (leaf : bool) then bret None else bret (Some (Own placeholder, true))
           end;
      match st with
      | None =>
          deleteWithSideNodes_buf_loop id p len sns' (S i) (Some (Own sideNode))
            (Some (Own sideNode)) nonPlaceholderReached turn
      | Some (currentData, nonPlaceholderReached) =>
          if negb nonPlaceholderReached && bytes_Equal sideNode placeholder then
            deleteWithSideNodes_buf_loop id p len sns' (S i) currentHash (Some currentData)
              nonPlaceholderReached turn
          else
            path ← load p;
            b ← call (lift (getBitAtFromMSB path (len - 1 - i)));
            '(currentHash, data) ←
              (if (b =? right)%Z
               then digestNodeInto_buf id (hashBufs turn) (Own sideNode) currentData
               else digestNodeInto_buf id (hashBufs turn) currentData (Own sideNode));
            key ← load currentHash;
            call (nodes_Set key data) ;;
            deleteWithSideNodes_buf_loop id p len sns' (S i) (Some currentHash)
              (Some currentHash) true (negb turn)
      end
  end.

Definition deleteWithSideNodes_buf (id : nat) (p : ref) (sideNodes pathNodes : list bytes)
    (oldLeafData : option bytes) : bprog ref :=
  pathNode0 ← call (lift (index pathNodes 0));
  if bytes_Equal pathNode0 placeholder then throw errKeyAlreadyEmpty
  else
    '(actualPath, _) ← call (lift (parseLeaf (of_nil oldLeafData)));
    path ← load p;
    if negb (bytes_Equal path actualPath) then throw errKeyAlreadyEmpty
    else
      call (for_each pathNodes nodes_Delete) ;;
      currentHash ←
        deleteWithSideNodes_buf_loop id p (length sideNodes) sideNodes 0 None None false false;
      match currentHash with
      | None => bret (Own placeholder)
      | Some h => bret h
      end.

(** ** Inserting and updating *)

Fixpoint updateWithSideNodes_buf_loop (id : nat) (p : ref) (sideNodes : list bytes)
    (commonPrefixCount : nat) (n i : nat) (currentData : ref) (turn : bool) : bprog ref :=
  match n with
  | 0 => bret currentData
  | S n' =>
      let offsetOfSideNodes := (Z.of_nat depth - Z.of_nat (length sideNodes))%Z in
      sideNode ←
        (if (Z.of_nat i - offsetOfSideNodes <? 0)%Z then
           if bool_decide (commonPrefixCount ≠ depth) &&
              (Z.of_nat commonPrefixCount >? Z.of_nat depth - 1 - Z.of_nat i)%Z
           then bret (Some placeholder)
           else bret None
         else
           sn ← call (lift (index sideNodes (Z.to_nat (Z.of_nat i - offsetOfSideNodes))));
           bret (Some sn));
      match sideNode with
      | None =>
          updateWithSideNodes_buf_loop id p sideNodes commonPrefixCount n' (S i) currentData turn
      | Some sideNode =>
          path ← load p;
          b ← call (lift (getBitAtFromMSB path (depth - 1 - i)));
          '(currentHash, data) ←
            (if (b =? right)%Z
             then digestNodeInto_buf id (hashBufs turn) (Own sideNode) currentData
             else digestNodeInto_buf id (hashBufs turn) currentData (Own sideNode));
          key ← load currentHash;
          call (nodes_Set key data) ;;
          updateWithSideNodes_buf_loop id p sideNodes commonPrefixCount n' (S i) currentHash
            (negb turn)
      end
  end.

Definition updateWithSideNodes_buf (id : nat) (p : ref) (value : bytes)
    (sideNodes pathNodes : list bytes) (oldLeafData : option bytes) : bprog ref :=
  valueHash ← digestInto_buf id ValueHashBuf value;
  '(currentHash, data) ← digestLeafInto_buf id (hashBufs false) p valueHash;
  key ← load currentHash;
  call (nodes_Set key data) ;;
  let currentData := currentHash in
  pathNode0 ← call (lift (index pathNodes 0));
  '(commonPrefixCount, oldValueHash) ←
    (if bytes_Equal pathNode0 placeholder then bret (depth, None)
     else
       '(actualPath, oldValueHash) ← call (lift (parseLeaf (of_nil oldLeafData)));
       path ← load p;
       c ← call (lift (countCommonPrefix path actualPath));
       bret (c, Some oldValueHash));
  (* [inl r] is the early "return r, nil" *)
  next ←
    (if bool_decide (commonPrefixCount ≠ depth) then
       path ← load p;
       b ← call (lift (getBitAtFromMSB path commonPrefixCount));
       '(currentHash, data) ←
         (if (b =? right)%Z
          then digestNodeInto_buf id (hashBufs true) (Own pathNode0) currentData
          else digestNodeInto_buf id (hashBufs true) currentData (Own pathNode0));
       key ← load currentHash;
       call (nodes_Set key data) ;;
       bret (inr (currentHash, false))
     else
       match oldValueHash with
       | Some oldValueHash =>
           vh ← load valueHash;
           if bytes_Equal oldValueHash vh then root ← bRoot; bret (inl root)
           else
             call (nodes_Delete pathNode0) ;;
             path ← load p;
             call (values_Delete path) ;;
             bret (inr (currentData, true))
       | None => bret (inr (currentData, true))
       end);
  match next with
  | inl root => bret root
  | inr (currentData, turn) =>
      call (for_each (drop 1 pathNodes) nodes_Delete) ;;
      newRoot ←
        updateWithSideNodes_buf_loop id p sideNodes commonPrefixCount depth 0 currentData turn;
      path ← load p;
      call (values_Set path value) ;;
      bret newRoot
  end.

(** The body of [UpdateForRoot] between the pool calls, with the final copy of
    the new root into a fresh allocation. *)
Definition UpdateForRoot_buf (sid id : nat) (key value : bytes) (root : ref)
    : bprog ref :=
  p ← digestInto_buf id PathBuf key;
  '(oldLeafData, _) ← fillSideNodes_buf sid p root false;
  ps ← read_slices sid;
  if bytes_Equal value defaultValue then
    r ← btry (deleteWithSideNodes_buf id p (sideNodes ps) (pathNodes ps) oldLeafData);
    match r with
    | inl errKeyAlreadyEmpty => bret root
    | _ =>
        path ← load p;
        call (values_Delete path) ;;
        match r with
        | inl e => throw e
        | inr newRoot => out ← load newRoot; bret (Own out)
        end
    end
  else
    newRoot ← updateWithSideNodes_buf id p value (sideNodes ps) (pathNodes ps) oldLeafData;
    out ← load newRoot;
    bret (Own out).

(** The body of [doProveForRoot] between the pool calls. *)
Definition doProveForRoot_buf (sid : nat) (key : bytes) (root : ref) (isUpdatable : bool)
    : bprog SparseMerkleProof :=
  let p := path key in
  '(leafData, siblingData) ← fillSideNodes_buf sid (Own p) root isUpdatable;
  ps ← read_slices sid;
  let nonEmptySideNodes := sideNodes ps in
  pathNode0 ← call (lift (index (pathNodes ps) 0));
  nonMembershipLeafData ←
    (if negb (bytes_Equal pathNode0 placeholder) then
       '(actualPath, _) ← call (lift (parseLeaf (of_nil leafData)));
       if negb (bytes_Equal actualPath p) then bret leafData else bret None
     else bret None);
  bret (mkProof nonEmptySideNodes nonMembershipLeafData siblingData).

(** ** The walk of a bulk update

    It writes the digests of values to a buffer of the scratch object [id]; the
    hashes that it returns are the hash it was given, fresh allocations, the
    placeholder or parts of stored data.  Out of fuel it panics, as the walk of
    [BulkUpdate] does, whose result does not depend on that
    ([bulkApplyAtRoot_terminates] of [BulkTheorems]). *)

Fixpoint buildSubtree_buf (id fuel d : nat) (kvs : list bulkKV) : bprog ref :=
  match fuel with
  | 0 => BCrash
  | S fuel' =>
      match kvs with
      | [] => bret (Own placeholder)
      | [(p, value)] =>
          valueHash ← digestInto_buf id ValueHashBuf value;
          valueHash ← load valueHash;
          let '(leafHash, leafData) := digestLeaf p valueHash in
          call (nodes_Set leafHash leafData) ;;
          call (values_Set p value) ;;
          bret (Own leafHash)
      | _ =>
          splitIdx ← call (lift (partitionByBit kvs d));
          let leftKVs := take splitIdx kvs in
          let rightKVs := drop splitIdx kvs in
          leftHash ← (if length leftKVs =? 0 then bret (Own placeholder)
                      else buildSubtree_buf id fuel' (S d) leftKVs);
          rightHash ← (if length rightKVs =? 0 then bret (Own placeholder)
                       else buildSubtree_buf id fuel' (S d) rightKVs);
          left ← load leftHash;
          right ← load rightHash;
          let '(nodeHash, nodeData) := digestNode left right in
          call (nodes_Set nodeHash nodeData) ;;
          bret (Own nodeHash)
      end
  end.

Definition mergeLeafWithKVs_buf (id fuel : nat) (currentHash : ref) (leafData : bytes) (d : nat)
    (kvs : list bulkKV) : bprog ref :=
  '(leafPath, existingValueHash) ← call (lift (parseLeaf leafData));
  let shadowed := existsb (λ kv, bytes_Equal kv.1 leafPath) kvs in
  same ← (if shadowed && (length kvs =? 1) then
            kv0 ← call (lift (index kvs 0));
            newValueHash ← digestInto_buf id ValueHashBuf kv0.2;
            vh ← load newValueHash;
            bret (bytes_Equal existingValueHash vh)
          else bret false);
  if (same : bool) then bret currentHash
  else
    current ← load currentHash;
    call (nodes_Delete current) ;;
    merged ← (if negb shadowed then
                oldValue ← call (values_Get leafPath);
                insertIdx ← call (lift (Search (length kvs) (λ i,
                  kv ← index kvs i;
                  Ok (match bytes_Compare kv.1 leafPath with Lt => false | _ => true end))));
                bret (take insertIdx kvs ++ [(leafPath, oldValue)] ++ drop insertIdx kvs)
              else bret kvs);
    buildSubtree_buf id fuel d merged.

Fixpoint bulkApplyAtRoot_buf (id fuel : nat) (currentHash : ref) (d : nat) (kvs : list bulkKV)
    : bprog ref :=
  match fuel with
  | 0 => BCrash
  | S fuel' =>
      if length kvs =? 0 then bret currentHash
      else
        current ← load currentHash;
        if bytes_Equal current placeholder then buildSubtree_buf id fuel d kvs
        else
          nodeData ← call (nodes_Get current);
          leaf ← call (lift (isLeaf nodeData));
          if (leaf : bool) then mergeLeafWithKVs_buf id fuel currentHash nodeData d kvs
          else
            '(leftHash, rightHash) ← call (lift (parseNode nodeData));
            splitIdx ← call (lift (partitionByBit kvs d));
            let leftKVs := take splitIdx kvs in
            let rightKVs := drop splitIdx kvs in
            newLeft ← bulkApplyAtRoot_buf id fuel' (Own leftHash) (S d) leftKVs;
            newRight ← bulkApplyAtRoot_buf id fuel' (Own rightHash) (S d) rightKVs;
            left ← load newLeft;
            right ← load newRight;
            if bytes_Equal left leftHash && bytes_Equal right rightHash then bret currentHash
            else
              current ← load currentHash;
              call (nodes_Delete current) ;;
              let '(newHash, newData) := digestNode left right in
              call (nodes_Set newHash newData) ;;
              bret (Own newHash)
  end.

(** ** The methods

    The objects go back on every return of an error or a result, in the order
    of the deferred calls.  After a panic the pools are of no more use. *)

Definition UpdateForRoot_pooled (key value : bytes) (root : ref) : bprog ref :=
  ps ← getPathSlices;
  sc ← getUpdateScratch;
  r ← btry (UpdateForRoot_buf ps sc key value root);
  putUpdateScratch sc ;;
  putPathSlices ps ;;
  bthrow_or r.

Definition Update_pooled (key value : bytes) : bprog ref :=
  root ← bRoot;
  newRoot ← UpdateForRoot_pooled key value root;
  bSetRoot newRoot ;;
  bret newRoot.

Definition Delete_pooled (key : bytes) : bprog ref := Update_pooled key defaultValue.

Definition doProveForRoot_pooled (key : bytes) (root : ref) (isUpdatable : bool)
    : bprog SparseMerkleProof :=
  ps ← getPathSlices;
  r ← btry (doProveForRoot_buf ps key root isUpdatable);
  putPathSlices ps ;;
  bthrow_or r.

(** The deletions of a bulk update, which are done one by one. *)
Fixpoint BulkUpdate_deletes_pooled (kvs : list (bytes * bytes)) : bprog unit :=
  match kvs with
  | [] => bret tt
  | kv :: kvs' =>
      (if bytes_Equal kv.2 defaultValue then _ ← Delete_pooled kv.1; bret tt else bret tt) ;;
      BulkUpdate_deletes_pooled kvs'
  end.

(** The walk has a scratch object, which goes back on every return; the tree
    keeps the walk's result, the caller gets a copy. *)
Definition BulkUpdate_pooled (keys values : list bytes) : bprog ref :=
  if negb (length keys =? length values) then throw ErrBulkInputMismatch
  else if length keys =? 0 then bRoot
  else
    BulkUpdate_deletes_pooled (zip keys values) ;;
    let kvs := (λ kv, (path kv.1, kv.2)) <$>
               filter (λ kv, ¬ bytes_Equal kv.2 defaultValue = true) (zip keys values) in
    if length kvs =? 0 then bRoot
    else
      kvs ← call (lift (dedup (SortStableFunc kvs)));
      sc ← getUpdateScratch;
      r ← btry
        (root ← bRoot;
         newRoot ← bulkApplyAtRoot_buf sc (S depth) root 0 kvs;
         bSetRoot newRoot ;;
         out ← load newRoot;
         bret (Own out));
      putUpdateScratch sc ;;
      bthrow_or r.
End pool.

(** ** The shared memory *)

(** A [sync.Pool]: all objects that were made, by address, and the ones that
    are not checked out. *)
Record pool (T : Type) : Type := mkPool {
  objs : gmap nat T;
  idle : list nat;
}.
Arguments mkPool {T} objs idle.
Arguments objs {T} _.
Arguments idle {T} _.

Definition empty_pool {T} : pool T := mkPool ∅ [].

(** [Get] takes any object of the pool, or makes a new one: [pick] is the
    choice. *)
Definition pool_get {T} (new : T) (pick : nat) (p : pool T) : nat * pool T :=
  match idle p !! pick with
  | Some id => (id, mkPool (objs p) (delete pick (idle p)))
  | None => let id := fresh (dom (objs p)) in (id, mkPool (<[id := new]> (objs p)) (idle p))
  end.

Definition pool_put {T} (id : nat) (p : pool T) : pool T := mkPool (objs p) (id :: idle p).

Definition pool_write {T} (id : nat) (x : T) (p : pool T) : pool T :=
  mkPool (<[id := x]> (objs p)) (idle p).

Record pools : Type := mkPools {
  updateScratchPool : pool updateScratch;
  pathSlicesPool : pool pathSlices;
}.

Definition no_pools : pools := mkPools empty_pool empty_pool.

(** The bytes of a slice now, unless it is one of an unknown object. *)
Definition deref {HS : Hasher} (h : gmap nat updateScratch) (r : ref) : option bytes :=
  match r with
  | In id b => sc ← h !! id; Some (take hsize (buf_get b sc))
  | Own d => Some d
  end.

(** ** Goroutines *)

(** A tree that a goroutine works on; its root is a slice. *)
Record pooledTree (N V : Type) : Type := mkPooled {
  p_nodes : N;
  p_values : V;
  p_root : ref;
}.
Arguments mkPooled {N V} p_nodes p_values p_root.
Arguments p_nodes {N V} _.
Arguments p_values {N V} _.
Arguments p_root {N V} _.

(** A goroutine: what is left to do, and the tree. *)
Abbreviation thread N V A := (bprog A * pooledTree N V)%type.

(** The goroutines and the memory they share. *)
Abbreviation config N V A := (list (thread N V A) * pools)%type.

Section threads.
Context {HS : Hasher} {N V : Type} `{MapStore N, MapStore V}.
Implicit Types (t : pooledTree N V) (w : pools).

Definition p_stores t : SparseMerkleTree N V := mkSMT (p_nodes t) (p_values t) [].
Definition p_with (s : SparseMerkleTree N V) t : pooledTree N V :=
  mkPooled (nodes s) (values s) (p_root t).

(** One operation.  [None]: the program has ended, or it names an object that
    does not exist.  A panic of a store is one of the program. *)
Definition thread_step {A} (pick : nat) (c : bprog A) t w : option (bprog A * pooledTree N V * pools) :=
  match c with
  | BRet _ | BThrow _ | BCrash => None
  | BGetOp st k c =>
      Some (match do_Get st k (p_stores t) with
            | Ok v => c (inr v)
            | Err e => c (inl e)
            | Panic => BCrash
            end, t, w)
  | BSetOp st k v c =>
      let '(o, s) := do_Set st k v (p_stores t) in
      Some (match o with
            | Ok _ => c None
            | Err e => c (Some e)
            | Panic => BCrash
            end, p_with s t, w)
  | BDeleteOp st k c =>
      let '(o, s) := do_Delete st k (p_stores t) in
      Some (match o with
            | Ok _ => c None
            | Err e => c (Some e)
            | Panic => BCrash
            end, p_with s t, w)
  | BRootOp c => Some (c (p_root t), t, w)
  | BSetRootOp r c => Some (c, mkPooled (p_nodes t) (p_values t) r, w)
  | BLoadOp r c => d ← deref (objs (updateScratchPool w)) r; Some (c d, t, w)
  | BStoreOp id b sum c =>
      sc ← objs (updateScratchPool w) !! id;
      Some (c, t, mkPools (pool_write id (buf_write b sum sc) (updateScratchPool w)) (pathSlicesPool w))
  | BReadSlicesOp sid c => ps ← objs (pathSlicesPool w) !! sid; Some (c ps, t, w)
  | BWriteSlicesOp sid ps c =>
      _ ← objs (pathSlicesPool w) !! sid;
      Some (c, t, mkPools (updateScratchPool w) (pool_write sid ps (pathSlicesPool w)))
  | BGetScratchOp c =>
      let '(id, p) := pool_get new_updateScratch pick (updateScratchPool w) in
      Some (c id, t, mkPools p (pathSlicesPool w))
  | BPutScratchOp id c =>
      Some (c, t, mkPools (pool_put id (updateScratchPool w)) (pathSlicesPool w))
  | BGetSlicesOp c =>
      let '(sid, p) := pool_get new_pathSlices pick (pathSlicesPool w) in
      Some (c sid, t, mkPools (updateScratchPool w) p)
  | BPutSlicesOp sid c =>
      Some (c, t, mkPools (updateScratchPool w) (pool_put sid (pathSlicesPool w)))
  end.

(** A step of the goroutine [i]. *)
Definition config_step {A} (i pick : nat) (cfg : config N V A) : option (config N V A) :=
  let '(ths, w) := cfg in
  '(c, t) ← ths !! i;
  '(c, t, w) ← thread_step pick c t w;
  Some (<[i := (c, t)]> ths, w).

Definition cstep {A} (cfg cfg' : config N V A) : Prop :=
  ∃ i pick, config_step i pick cfg = Some cfg'.

(** The steps of a schedule; a goroutine that cannot move is skipped. *)
Fixpoint run_schedule {A} (sched : list (nat * nat)) (cfg : config N V A) : config N V A :=
  match sched with
  | [] => cfg
  | (i, pick) :: sched' => run_schedule sched' (default cfg (config_step i pick cfg))
  end.

(** How a goroutine ended. *)
Definition ended {A} (c : bprog A) : option (outcome A) :=
  match c with
  | BRet a => Some (Ok a)
  | BThrow e => Some (Err e)
  | BCrash => Some Panic
  | _ => None
  end.
End threads.
