(* ===== verification/Sharded.v ===== *)
(** * sharded.go: a tree split into shards.

    The shards are trees of their own; a key goes to the shard that the high
    bits of its SHA-256 digest name.  The goroutines of the code become
    explicit orders: an interleaving of the writes that compute the shard
    numbers, and an order in which the shards of a bulk update finish. *)

From S2P Require Import Prelude Utils MapStore Sha256 TreeHasher Effects Proofs Smt Bulk.

(** Every way to run sequences of steps concurrently: each step is the next
    one of some sequence. *)
Inductive interleave {A} : list (list A) → list A → Prop :=
  | interleave_done ls : Forall (λ l, l = []) ls → interleave ls []
  | interleave_step ls i x l rest :
      ls !! i = Some (x :: l) → interleave (<[i := l]> ls) rest → interleave ls (x :: rest).

Record ShardedSMT (N V : Type) : Type := mkSharded {
  shards : list (SparseMerkleTree N V);
  shardBits : Z;
}.
Arguments mkSharded {N V} shards shardBits.
Arguments shards {N V} _.
Arguments shardBits {N V} _.

(** ** Routing *)

(** [h[0] >> (8 - shardBits)] for [h] the SHA-256 digest of the key; the
    shift count is an unsigned 64-bit integer. *)
Definition shard_idx (key : bytes) (shardBits : Z) : Z :=
  let h := sha256 key in
  Z.shiftr (byte_val (hd x00 h)) ((8 - shardBits) `mod` 2 ^ 64).

Definition shardOf {N V} (s : ShardedSMT N V) (key : bytes) : nat :=
  Z.to_nat (shard_idx key (shardBits s)).

(** One iteration [idxs[i] = ...] of a goroutine. *)
Definition write_idx (keys : list bytes) (shardBits : Z) (i : nat) (idxs : list Z)
    : outcome (list Z) :=
  k ← index keys i;
  _ ← index idxs i;
  Ok (<[i := shard_idx k shardBits]> idxs).

Fixpoint write_idxs (keys : list bytes) (shardBits : Z) (order : list nat) (idxs : list Z)
    : outcome (list Z) :=
  match order with
  | [] => Ok idxs
  | i :: order' => idxs ← write_idx keys shardBits i idxs; write_idxs keys shardBits order' idxs
  end.

(** The indices each goroutine writes, in its order; [procs] is
    [runtime.GOMAXPROCS(0)]. *)
Definition goroutine_idxs (n procs : nat) : list (list nat) :=
  let chunks := if 16 <? procs then 16 else procs in
  let chunks := if n <? chunks then n else chunks in
  let chunkSize := (n + chunks - 1) / chunks in
  omap (λ c,
    let start := c * chunkSize in
    let end_ := if n <? start + chunkSize then n else start + chunkSize in
    if end_ <=? start then None else Some (seq start (end_ - start))) (seq 0 chunks).

(** The orders in which [parallelComputeShardIdxs] may write. *)
Definition idxs_order (n procs : nat) (order : list nat) : Prop :=
  if n =? 0 then order = []
  else if n <? 1024 then order = seq 0 n
  else interleave (goroutine_idxs n procs) order.

Definition parallelComputeShardIdxs (order : list nat) (idxs : list Z) (keys : list bytes)
    (shardBits : Z) : outcome (list Z) :=
  write_idxs keys shardBits order idxs.

Section sharded.
Context {HS : Hasher} {N V : Type} `{MapStore N} `{MapStore V}.
Abbreviation Sharded := (ShardedSMT N V).

(** ** Construction *)

(** The loop that counts the bits: [fuel] iterations at most. *)
Fixpoint count_bits (fuel : nat) (x bits : Z) : Z :=
  match fuel with
  | 0 => bits
  | S fuel' => if (x >? 1)%Z then count_bits fuel' (Z.shiftr x 1) (bits + 1) else bits
  end.

Definition NewShardedSMT (shardCount : Z) (mapstoreFactory : nat → N * V) : outcome Sharded :=
  if (shardCount <? 1)%Z || (shardCount >? 256)%Z then Err ErrInvalidShardCount
  else if negb (Z.land shardCount (shardCount - 1) =? 0)%Z then Err ErrInvalidShardCount
  else
    let bits := count_bits (Z.to_nat shardCount) shardCount 0 in
    Ok (mkSharded
      ((λ i, let '(nodes, values) := mapstoreFactory i in NewSparseMerkleTree nodes values [])
         <$> seq 0 (Z.to_nat shardCount))
      bits).

(** ** The combined root *)

(** The hash object is reset before each use and keeps its state after. *)
Definition mergeHash (h : hashState) (left right : bytes) : bytes * hashState :=
  let h := hash_Reset h in
  let h := hash_Write nodePrefix h in
  let h := hash_Write left h in
  let h := hash_Write right h in
  (hash_Sum [] h, h).

(** One level: pairs are merged, an odd last element with itself. *)
Fixpoint merge_level (h : hashState) (level : list bytes) : list bytes * hashState :=
  match level with
  | [] => ([], h)
  | [x] => let '(y, h) := mergeHash h x x in ([y], h)
  | x :: y :: level' =>
      let '(z, h) := mergeHash h x y in
      let '(next, h) := merge_level h level' in
      (z :: next, h)
  end.

(** The loop over the levels; the number of roots is enough fuel. *)
Fixpoint merge_levels (fuel : nat) (h : hashState) (level : list bytes) : list bytes :=
  match fuel with
  | 0 => level
  | S fuel' =>
      if 1 <? length level then
        let '(next, h) := merge_level h level in merge_levels fuel' h next
      else level
  end.

Definition computeRoot (s : Sharded) : outcome bytes :=
  let level := root <$> shards s in
  let level := merge_levels (length level) hash_New level in
  r ← index level 0;
  Ok (make_copy (length r) r).

Definition Sharded_Root (s : Sharded) : outcome bytes :=
  match computeRoot s with
  | Ok r => Ok r
  | _ => Panic
  end.

Definition ShardRoot (s : Sharded) (idx : Z) : outcome bytes :=
  if (idx <? 0)%Z then Panic else t ← index (shards s) (Z.to_nat idx); Ok (root t).

Definition ShardCount (s : Sharded) : nat := length (shards s).

Definition Equal (a b : bytes) : bool := bytes_Equal a b.

(** ** Single keys *)

(** A method of the tree [s.shards[idx]]. *)
Definition on_shard {A} (idx : nat) (P : prog A) (s : Sharded) : outcome A * Sharded :=
  match shards s !! idx with
  | Some t => let '(o, t') := run P t in (o, mkSharded (<[idx := t']> (shards s)) (shardBits s))
  | None => (Panic, s)
  end.

Definition Sharded_Update (key value : bytes) (s : Sharded) : outcome bytes * Sharded :=
  let idx := shardOf s key in
  let '(o, s) := on_shard idx (Update key value) s in
  match o with
  | Ok _ => (computeRoot s, s)
  | Err e => (Err e, s)
  | Panic => (Panic, s)
  end.

Definition Sharded_Get (key : bytes) (s : Sharded) : outcome bytes * Sharded :=
  let idx := shardOf s key in
  on_shard idx (Get key) s.

(** ** Bulk updates *)

(** The bucketing loop: keys and values by shard. *)
Fixpoint fill_buckets (idxs : list Z) (kvs : list (bytes * bytes))
    (buckets : list (list bytes * list bytes)) : outcome (list (list bytes * list bytes)) :=
  match idxs, kvs with
  | idx :: idxs', (k, v) :: kvs' =>
      bucket ← index buckets (Z.to_nat idx);
      fill_buckets idxs' kvs'
        (<[Z.to_nat idx := (bucket.1 ++ [k], bucket.2 ++ [v])]> buckets)
  | _, _ => Ok buckets
  end.

(** The goroutines of the shards finish in the order [order]; the first error
    is kept.  A panic in a goroutine ends the program. *)
Fixpoint run_shards (order : list nat) (buckets : list (list bytes * list bytes))
    (s : Sharded) (gotErr : option error) : outcome (option error) * Sharded :=
  match order with
  | [] => (Ok gotErr, s)
  | i :: order' =>
      match buckets !! i with
      | Some (ks, vs) =>
          let '(o, s) := on_shard i (BulkUpdate ks vs) s in
          match o with
          | Ok _ => run_shards order' buckets s gotErr
          | Err e =>
              run_shards order' buckets s
                (match gotErr with None => Some e | Some _ => gotErr end)
          | Panic => (Panic, s)
          end
      | None => (Panic, s)
      end
  end.

(** The shards that get a goroutine. *)
Definition active_shards (buckets : list (list bytes * list bytes)) : list nat :=
  filter (λ i, match buckets !! i with Some (ks, _) => negb (length ks =? 0) | None => false end = true)
    (seq 0 (length buckets)).

(** [idxs0] is what the pooled buffer holds at first; [idx_order] the order of
    the writes to it; [shard_order] that of the shards. *)
Definition Sharded_BulkUpdate (idxs0 : list Z) (idx_order : list nat)
    (shard_order : list nat → list nat) (keys values : list bytes) (s : Sharded)
    : outcome bytes * Sharded :=
  if negb (length keys =? length values) then (Err ErrBulkInputMismatch, s)
  else if length keys =? 0 then (computeRoot s, s)
  else if length (shards s) =? 0 then (Panic, s)
  else
    let buckets0 := replicate (length (shards s)) ([], []) in
    match (idxs ← parallelComputeShardIdxs idx_order idxs0 keys (shardBits s);
           fill_buckets idxs (zip keys values) buckets0) with
    | Ok buckets =>
        let '(o, s) := run_shards (shard_order (active_shards buckets)) buckets s None in
        match o with
        | Ok None => (computeRoot s, s)
        | Ok (Some e) => (Err e, s)
        | Err e => (Err e, s)
        | Panic => (Panic, s)
        end
    | Err e => (Err e, s)
    | Panic => (Panic, s)
    end.
End sharded.
