(* ===== verification/Fuzz.v ===== *)
(** * fuzz/fuzz.go and fuzz/delete/fuzz.go: the fuzz harnesses.

    Both drive a tree on two [SimpleMap]s with SHA-256.  They ignore the
    errors of the calls; a panic of a call is a panic of the harness.  A
    [bytes.Reader] is the bytes left to read. *)

From S2P Require Import Prelude Utils MapStore Sha256 TreeHasher Effects Proofs Smt.

(** [sha256.New()] *)
#[export] Instance sha256_hasher : Hasher :=
  {| hsum := sha256; hsize := 32; hsum_length := length_sha256 |}.

Abbreviation fuzz_tree := (SparseMerkleTree SimpleMap SimpleMap).

Definition new_tree : fuzz_tree := NewSparseMerkleTree NewSimpleMap NewSimpleMap [].

(** [tree.Method(...)] as a statement: the results are dropped. *)
Definition call {A} (P : prog A) (t : fuzz_tree) : outcome fuzz_tree :=
  match run P t with
  | (Panic, _) => Panic
  | (_, t') => Ok t'
  end.

(** ** fuzz/fuzz.go *)

Inductive op : Type := op_Get | op_Update | op_Delete | op_Prove | op_Has.

(** [op(int(b) % int(Noop))] *)
Definition op_of_byte (b : byte) : op :=
  match (byte_val b mod 5)%Z with
  | 0%Z => op_Get
  | 1%Z => op_Update
  | 2%Z => op_Delete
  | 3%Z => op_Prove
  | _ => op_Has
  end.

(** A byte, or 0 at the end. *)
Definition readByte (r : bytes) : byte * bytes :=
  match r with
  | [] => (x00, [])
  | b :: r' => (b, r')
  end.

(** The closure [key] on its variables [keys] and [r]. *)
Definition fuzz_key (keys : list bytes) (r : bytes) : outcome (bytes * list bytes * bytes) :=
  let '(b, r) := readByte r in
  if (byte_val b <? 127)%Z then
    let '(n, r) := readByte r in
    let n := Z.to_nat (byte_val n / 2) in
    let k := make_copy n r in
    Ok (k, keys ++ [k], drop n r)
  else if length keys =? 0 then Ok ([], keys, r)
  else
    let '(j, r) := readByte r in
    k ← index keys (Z.to_nat (byte_val j) mod length keys);
    Ok (k, keys, r).

(** [binary.BigEndian.PutUint64] of the counter into 32 zero bytes. *)
Definition fuzz_value (i : nat) : bytes := be_bytes 8 (Z.of_nat i `mod` 2 ^ 64) ++ replicate 24 x00.

Definition fuzz_op (o : op) (key : bytes) (i : nat) (t : fuzz_tree) : outcome fuzz_tree :=
  match o with
  | op_Get => call (Get key) t
  | op_Update => call (Update key (fuzz_value i)) t
  | op_Delete => call (Delete key) t
  | op_Prove => call (Prove key) t
  | op_Has => call (Has key) t
  end.

(** The loop until the reader is empty; each iteration reads a byte, so the
    number of bytes is enough fuel. *)
Fixpoint fuzz_loop (fuel i : nat) (r : bytes) (keys : list bytes) (t : fuzz_tree) : outcome fuzz_tree :=
  match r with
  | [] => Ok t
  | b :: r =>
      match fuel with
      | 0 => Panic
      | S fuel' =>
          '(key, keys, r) ← fuzz_key keys r;
          t ← fuzz_op (op_of_byte b) key i t;
          fuzz_loop fuel' (S i) r keys t
      end
  end.

Definition Fuzz (input : bytes) : outcome Z :=
  if length input <? 100 then Ok 0%Z
  else
    _ ← fuzz_loop (length input) 0 input [] new_tree;
    Ok 1%Z.

(** ** fuzz/delete/fuzz.go *)

(** [bytes.Split(data, []byte{sep})] *)
Fixpoint Split (sep : byte) (data : bytes) : list bytes :=
  match data with
  | [] => [[]]
  | b :: data' =>
      if bool_decide (b = sep) then [] :: Split sep data'
      else match Split sep data' with
           | s :: ss => (b :: s) :: ss
           | [] => [[b]]
           end
  end.

(** The loop over the pairs from index [i]; [n] bounds its iterations. *)
Fixpoint delete_fuzz_loop (n i : nat) (splits : list bytes) (t : fuzz_tree) : outcome fuzz_tree :=
  if i <? length splits - 1 then
    match n with
    | 0 => Panic
    | S n' =>
        key ← index splits i;
        value ← index splits (i + 1);
        t ← call (Update key value) t;
        delete_fuzz_loop n' (i + 2) splits t
    end
  else Ok t.

Definition star : byte := byte_of_Z 42.

Definition delete_Fuzz (data : bytes) : outcome Z :=
  if length data =? 0 then Ok (-1)%Z
  else
    let splits := Split star data in
    if length splits <? 3 then Ok (-1)%Z
    else
      t ← delete_fuzz_loop (length splits) 0 splits new_tree;
      deleteKey ← index splits (length splits - 1);
      match (run (Delete deleteKey) t).1 with
      | Err _ => Ok 0%Z
      | Panic => Panic
      | Ok newRoot => if length newRoot =? 0 then Panic else Ok 1%Z
      end.
