(* ===== verification/ReadOnly.v ===== *)
(** * Programs that do not write, and programs that do not assign the root.

    [readonly] holds of a program without [Set], [Delete] and [SetRoot]; it
    leaves every state as it is, on every store and for every outcome. *)

From S2P Require Import Prelude Utils MapStore TreeHasher Effects Proofs Smt.

Fixpoint readonly {A} (m : prog A) : Prop :=
  match m with
  | Ret _ | Throw _ | Crash => True
  | GetOp _ _ c => ∀ r, readonly (c r)
  | RootOp c => ∀ r, readonly (c r)
  | SetOp _ _ _ _ | DeleteOp _ _ _ | SetRootOp _ _ => False
  end.

Lemma readonly_run {A N V} (m : prog A) `{MapStore N, MapStore V} (s : SparseMerkleTree N V) :
  readonly m → (run m s).2 = s.
Proof.
  induction m as [a|e| |st k c IH|st k v c IH|st k c IH|c IH|r c IH]; intros Hm;
    unfold run; fold (@run N V _ _ A); try done.
  - cbn. destruct (do_Get st k s); [apply IH, Hm..|done].
  - apply IH, Hm.
Qed.

Create HintDb readonly.

Lemma readonly_bind {A B} (m : prog A) (f : A → prog B) :
  readonly m → (∀ a, readonly (f a)) → readonly (m ≫= f).
Proof.
  intros Hm Hf. induction m as [a|e| |st k c IH|st k v c IH|st k c IH|c IH|r c IH]; simpl in *;
    naive_solver.
Qed.

Lemma readonly_try {A} (m : prog A) : readonly m → readonly (try m).
Proof.
  induction m as [a|e| |st k c IH|st k v c IH|st k c IH|c IH|r c IH]; simpl in *; naive_solver.
Qed.

Lemma readonly_Ret {A} (a : A) : readonly (Ret a).
Proof. done. Qed.

Lemma readonly_Throw {A} e : readonly (@Throw A e).
Proof. done. Qed.

Lemma readonly_lift {A} (o : outcome A) : readonly (lift o).
Proof. by destruct o. Qed.

Lemma readonly_Root : readonly Root.
Proof. done. Qed.

Lemma readonly_Get st k : readonly (store_Get st k).
Proof. by intros [|]. Qed.

#[export] Hint Resolve readonly_Ret readonly_Throw readonly_lift readonly_Root readonly_Get
  : readonly.

(** Walks through a program to its store operations. *)
Ltac readonly_step :=
  match goal with
  | |- readonly (_ ≫= _) => apply readonly_bind; [|intros]
  | |- readonly (try _) => apply readonly_try
  | |- readonly (match ?x with _ => _ end) => destruct x
  | |- readonly (let '_ := ?x in _) => destruct x
  | |- _ => solve [auto with readonly]
  end.
Ltac solve_readonly := repeat readonly_step.

Section readonly.
Context {HS : Hasher}.

Lemma readonly_smt_Get key : readonly (Get key).
Proof. unfold Get. solve_readonly. Qed.

Lemma readonly_fillSideNodes_loop p n i d sd sns pns :
  readonly (fillSideNodes_loop p n i d sd sns pns).
Proof.
  revert i d sd sns pns. induction n as [|n IH]; intros i d sd sns pns;
    cbn [fillSideNodes_loop]; solve_readonly; apply IH.
Qed.

#[local] Hint Resolve readonly_smt_Get readonly_fillSideNodes_loop : readonly.

Lemma readonly_fillSideNodes p r b : readonly (fillSideNodes p r b).
Proof. unfold fillSideNodes. solve_readonly. Qed.

#[local] Hint Resolve readonly_fillSideNodes : readonly.

Lemma readonly_Has key : readonly (Has key).
Proof. unfold Has. solve_readonly. Qed.

Lemma readonly_doProveForRoot key r b : readonly (doProveForRoot key r b).
Proof. unfold doProveForRoot. solve_readonly. Qed.

#[local] Hint Resolve readonly_doProveForRoot : readonly.

Lemma readonly_Prove key : readonly (Prove key).
Proof. unfold Prove, ProveForRoot. solve_readonly. Qed.

Lemma readonly_ProveUpdatable key : readonly (ProveUpdatable key).
Proof. unfold ProveUpdatable, ProveUpdatableForRoot. solve_readonly. Qed.
End readonly.

#[export] Hint Resolve readonly_smt_Get readonly_Has readonly_doProveForRoot : readonly.

(** ** Programs that do not assign the root *)

Fixpoint keeps_root {A} (m : prog A) : Prop :=
  match m with
  | Ret _ | Throw _ | Crash => True
  | GetOp _ _ c => ∀ r, keeps_root (c r)
  | RootOp c => ∀ r, keeps_root (c r)
  | SetOp _ _ _ c | DeleteOp _ _ c => ∀ r, keeps_root (c r)
  | SetRootOp _ _ => False
  end.

(** On every store, a failing one included: a store cannot reach the root. *)
Lemma keeps_root_run {A N V} (m : prog A) `{MapStore N, MapStore V} (s : SparseMerkleTree N V) :
  keeps_root m → root (run m s).2 = root s.
Proof.
  revert s. induction m as [a|e| |st k c IH|st k v c IH|st k c IH|c IH|r c IH]; intros s Hm;
    unfold run; fold (@run N V _ _ A); try done.
  - cbn. destruct (do_Get st k s); [apply IH, Hm..|done].
  - assert (root (do_Set st k v s).2 = root s) as Hs by (destruct st; cbn; by case_match).
    destruct (do_Set st k v s) as [[] s']; [rewrite <-Hs; apply IH, Hm..|done].
  - assert (root (do_Delete st k s).2 = root s) as Hs by (destruct st; cbn; by case_match).
    destruct (do_Delete st k s) as [[] s']; [rewrite <-Hs; apply IH, Hm..|done].
  - apply IH, Hm.
Qed.

Lemma readonly_keeps_root {A} (m : prog A) : readonly m → keeps_root m.
Proof. induction m; simpl in *; naive_solver. Qed.

Lemma keeps_root_bind {A B} (m : prog A) (f : A → prog B) :
  keeps_root m → (∀ a, keeps_root (f a)) → keeps_root (m ≫= f).
Proof.
  intros Hm Hf. induction m as [a|e| |st k c IH|st k v c IH|st k c IH|c IH|r c IH]; simpl in *;
    naive_solver.
Qed.

Lemma keeps_root_try {A} (m : prog A) : keeps_root m → keeps_root (try m).
Proof.
  induction m as [a|e| |st k c IH|st k v c IH|st k c IH|c IH|r c IH]; simpl in *; naive_solver.
Qed.

Lemma keeps_root_Set st k v : keeps_root (store_Set st k v).
Proof. by intros [|]. Qed.

Lemma keeps_root_Delete st k : keeps_root (store_Delete st k).
Proof. by intros [|]. Qed.

Lemma keeps_root_for_each {A} (l : list A) (body : A → prog unit) :
  (∀ x, keeps_root (body x)) → keeps_root (for_each l body).
Proof. intros Hb. induction l; [done|]. by apply keeps_root_bind. Qed.

#[export] Hint Resolve readonly_keeps_root : readonly.
#[export] Hint Resolve keeps_root_Set keeps_root_Delete : readonly.

Ltac keeps_root_step :=
  match goal with
  | |- keeps_root (_ ≫= _) => apply keeps_root_bind; [|intros]
  | |- keeps_root (try _) => apply keeps_root_try
  | |- keeps_root (for_each _ _) => apply keeps_root_for_each; intros
  | |- keeps_root (match ?x with _ => _ end) => destruct x
  | |- keeps_root (let '_ := ?x in _) => destruct x
  | |- _ => solve [auto with readonly]
  end.
Ltac solve_keeps_root := repeat keeps_root_step.

Section keeps_root.
Context {HS : Hasher}.

Lemma keeps_root_deleteWithSideNodes_loop p len sns i h d b :
  keeps_root (deleteWithSideNodes_loop p len sns i h d b).
Proof.
  revert i h d b. induction sns as [|sn sns IH]; intros i h d b;
    cbn [deleteWithSideNodes_loop]; solve_keeps_root; apply IH.
Qed.

Lemma keeps_root_updateWithSideNodes_loop p sns c n i d :
  keeps_root (updateWithSideNodes_loop p sns c n i d).
Proof.
  revert i d. induction n as [|n IH]; intros i d;
    cbn [updateWithSideNodes_loop]; solve_keeps_root; apply IH.
Qed.

#[local] Hint Resolve keeps_root_deleteWithSideNodes_loop keeps_root_updateWithSideNodes_loop
  readonly_fillSideNodes : readonly.

Lemma keeps_root_UpdateForRoot key value r : keeps_root (UpdateForRoot key value r).
Proof.
  unfold UpdateForRoot, deleteWithSideNodes, updateWithSideNodes. solve_keeps_root.
Qed.
End keeps_root.
