(* ===== verification/Trie.v ===== *)
(** * The abstract tree: the specification of what the stores hold.

    A [tree] is a compressed binary trie of paths: a subtree with one key is
    a leaf, a subtree with none is [Empty].  [wf] is the shape invariant of
    the Go tree, [tmap] the map a tree stands for, [tinsert] and [tremove]
    the specification of insertion and deletion.  A well-formed tree is
    determined by its map ([wf_unique]). *)

From S2P Require Import Prelude Utils TreeHasher.

Inductive tree : Type :=
  | Empty
  | Leaf (p v : bytes)
  | Node (l r : tree).

#[export] Instance tree_eq_dec : EqDecision tree.
Proof. solve_decision. Defined.

(** The bit of a path at a depth. *)
Definition bit (p : bytes) (d : nat) : bool := nth d (bits p) false.

(** The node with children [t] and [s], [t] on the side of [b]. *)
Definition join (b : bool) (t s : tree) : tree := if b then Node s t else Node t s.

(** The node of two subtrees, unless it holds at most one leaf. *)
Definition tjoin (l r : tree) : tree :=
  match l, r with
  | Empty, Empty => Empty
  | Empty, Leaf _ _ => r
  | Leaf _ _, Empty => l
  | _, _ => Node l r
  end.

Fixpoint nleaves (t : tree) : nat :=
  match t with
  | Empty => 0
  | Leaf _ _ => 1
  | Node l r => nleaves l + nleaves r
  end.

Fixpoint tmap (t : tree) : gmap bytes bytes :=
  match t with
  | Empty => ∅
  | Leaf p v => {[p := v]}
  | Node l r => tmap l ∪ tmap r
  end.

(** [rebuild p d sibs e]: the tree that has [e] below the siblings [sibs],
    given from the top, on the path [p] from depth [d]. *)
Fixpoint rebuild (p : bytes) (d : nat) (sibs : list tree) (e : tree) : tree :=
  match sibs with
  | [] => e
  | s :: sibs' => join (bit p d) (rebuild p (S d) sibs' e) s
  end.

(** The siblings on the path [p] from the top, and where the walk ends. *)
Fixpoint descend (p : bytes) (d : nat) (t : tree) : list tree * tree :=
  match t with
  | Node l r =>
      let '(sibs, e) := descend p (S d) (if bit p d then r else l) in
      ((if bit p d then l else r) :: sibs, e)
  | _ => ([], t)
  end.

(** Two leaves that part at depth [c], below a chain of nodes from depth [d]. *)
Definition tsplit (d : nat) (p v q w : bytes) : tree :=
  let c := lcp (bits p) (bits q) in
  rebuild p d (replicate (c - d) Empty) (join (bit p c) (Leaf p v) (Leaf q w)).

Fixpoint tinsert (d : nat) (p v : bytes) (t : tree) : tree :=
  match t with
  | Empty => Leaf p v
  | Leaf q w => if bool_decide (p = q) then Leaf p v else tsplit d p v q w
  | Node l r =>
      if bit p d then Node l (tinsert (S d) p v r) else Node (tinsert (S d) p v l) r
  end.

Fixpoint tremove (d : nat) (p : bytes) (t : tree) : tree :=
  match t with
  | Empty => Empty
  | Leaf q w => if bool_decide (p = q) then Empty else Leaf q w
  | Node l r =>
      if bit p d then tjoin l (tremove (S d) p r) else tjoin (tremove (S d) p l) r
  end.

Section trie.
Context {HS : Hasher}.

(** The shape of a subtree at the position [pre] (the bits from the root):
    its leaves have paths of the digest size that start with [pre], and
    values that are not the default one; a node has two leaves or more. *)
Fixpoint wf (pre : list bool) (t : tree) : Prop :=
  match t with
  | Empty => True
  | Leaf p v => length p = hsize ∧ v ≠ [] ∧ pre `prefix_of` bits p
  | Node l r => wf (pre ++ [false]) l ∧ wf (pre ++ [true]) r ∧ 2 ≤ nleaves l + nleaves r
  end.

Lemma wf_node pre l r :
  wf pre (Node l r) ↔
  wf (pre ++ [false]) l ∧ wf (pre ++ [true]) r ∧ 2 ≤ nleaves l + nleaves r.
Proof. done. Qed.

(** *** Prefixes and bits *)

Lemma prefix_bit pre b p :
  pre ++ [b] `prefix_of` bits p → bit p (length pre) = b.
Proof.
  intros [k Hk]. unfold bit. rewrite Hk, <-app_assoc.
  rewrite app_nth2, Nat.sub_diag by lia. done.
Qed.

Lemma prefix_snoc pre p :
  pre `prefix_of` bits p → length pre < length (bits p) →
  pre ++ [bit p (length pre)] `prefix_of` bits p.
Proof.
  intros [k Hk] Hlt. unfold bit. rewrite Hk in *. rewrite length_app in Hlt.
  rewrite app_nth2, Nat.sub_diag by lia. destruct k as [|b k]; simpl in *; [lia|].
  exists k. by rewrite <-app_assoc.
Qed.

Lemma prefix_weaken pre b p : pre ++ [b] `prefix_of` bits p → pre `prefix_of` bits p.
Proof. intros H. etrans; [|exact H]. by apply prefix_app_r. Qed.

Lemma wf_weaken_leaf pre b p v : wf (pre ++ [b]) (Leaf p v) → wf pre (Leaf p v).
Proof. intros (?&?&?). split_and!; eauto using prefix_weaken. Qed.

Lemma bit_lookup p d : d < length (bits p) → bits p !! d = Some (bit p d).
Proof.
  intros Hd. unfold bit. destruct (lookup_lt_is_Some_2 _ _ Hd) as [b Hb].
  rewrite Hb. f_equal. symmetry. by apply nth_lookup_Some.
Qed.

(** *** The map of a tree *)

Lemma tmap_wf pre t q w :
  wf pre t → tmap t !! q = Some w →
  length q = hsize ∧ w ≠ [] ∧ pre `prefix_of` bits q.
Proof.
  revert pre. induction t as [|p v|l IHl r IHr]; intros pre; simpl.
  - by rewrite lookup_empty.
  - intros (?&?&?) [<- <-]%lookup_singleton_Some. done.
  - intros (Hl & Hr & _). rewrite lookup_union_Some_raw.
    intros [H|[_ H]].
    + destruct (IHl _ Hl H) as (?&?&?). eauto using prefix_weaken.
    + destruct (IHr _ Hr H) as (?&?&?). eauto using prefix_weaken.
Qed.

Lemma tmap_side pre b t q :
  wf (pre ++ [b]) t → bit q (length pre) ≠ b → tmap t !! q = None.
Proof.
  intros Hwf Hb. destruct (tmap t !! q) eqn:E; [|done].
  destruct (tmap_wf _ _ _ _ Hwf E) as (_ & _ & Hp).
  by apply prefix_bit in Hp.
Qed.

Lemma tmap_node pre l r q :
  wf pre (Node l r) →
  tmap (Node l r) !! q = tmap (if bit q (length pre) then r else l) !! q.
Proof.
  intros (Hl & Hr & _). simpl. rewrite lookup_union.
  destruct (bit q (length pre)) eqn:E.
  - rewrite (tmap_side _ _ _ _ Hl) by congruence. by rewrite (left_id None _).
  - rewrite (tmap_side _ _ _ _ Hr) by congruence. by rewrite (right_id None _).
Qed.

Lemma tmap_disjoint pre l r : wf pre (Node l r) → tmap l ##ₘ tmap r.
Proof.
  intros (Hl & Hr & _). apply map_disjoint_spec. intros q w1 w2 H1 H2.
  destruct (tmap_wf _ _ _ _ Hl H1) as (_ & _ & P1).
  destruct (tmap_wf _ _ _ _ Hr H2) as (_ & _ & P2).
  apply prefix_bit in P1, P2. congruence.
Qed.

Lemma size_tmap pre t : wf pre t → size (tmap t) = nleaves t.
Proof.
  revert pre. induction t as [|p v|l IHl r IHr]; intros pre Hwf.
  - apply map_size_empty.
  - apply map_size_singleton.
  - pose proof (tmap_disjoint _ _ _ Hwf). destruct Hwf as (Hl & Hr & _). simpl.
    rewrite map_size_disj_union by done. by rewrite (IHl _ Hl), (IHr _ Hr).
Qed.

Lemma nleaves_0 pre t : wf pre t → nleaves t = 0 → t = Empty.
Proof. destruct t; simpl; [done|lia|]. intros (?&?&?). lia. Qed.

Lemma nleaves_pos pre t : wf pre t → t ≠ Empty → 1 ≤ nleaves t.
Proof. destruct t; simpl; [done|lia|]. intros (?&?&?). lia. Qed.

Lemma wf_has_leaf pre t : wf pre t → t ≠ Empty → ∃ q w, tmap t !! q = Some w.
Proof.
  intros Hwf Hne. destruct (map_choose (tmap t)) as (q & w & H); [|by eauto].
  intros E. apply map_size_empty_iff in E. rewrite (size_tmap _ _ Hwf) in E.
  pose proof (nleaves_pos _ _ Hwf Hne). lia.
Qed.

(** *** Canonicity: a well-formed tree is determined by its map. *)
Lemma wf_unique pre t1 t2 : wf pre t1 → wf pre t2 → tmap t1 = tmap t2 → t1 = t2.
Proof.
  revert pre t2. induction t1 as [|p v|l1 IHl r1 IHr]; intros pre t2 W1 W2 Heq;
    pose proof (size_tmap _ _ W1) as S1; pose proof (size_tmap _ _ W2) as S2;
    rewrite Heq, S2 in S1.
  - symmetry. by eapply nleaves_0.
  - destruct t2 as [|p2 v2|l2 r2]; simpl in S1; [lia| |destruct W2 as (?&?&?); lia].
    simpl in Heq. apply (f_equal (lookup p)) in Heq.
    rewrite lookup_singleton_eq in Heq. symmetry in Heq.
    by apply lookup_singleton_Some in Heq as [-> ->].
  - destruct t2 as [|p2 v2|l2 r2];
      [destruct W1 as (?&?&?); simpl in *; lia..|].
    assert (∀ q, tmap (if bit q (length pre) then r1 else l1) !! q =
                 tmap (if bit q (length pre) then r2 else l2) !! q) as Hq.
    { intros q. rewrite <-!tmap_node by done. by rewrite Heq. }
    destruct W1 as (Wl1 & Wr1 & _), W2 as (Wl2 & Wr2 & _).
    f_equal; [eapply IHl|eapply IHr]; try done; apply map_eq; intros q; specialize (Hq q);
      destruct (bit q (length pre)) eqn:E; try done;
      by rewrite !(tmap_side pre _ _ q) by (done || congruence).
Qed.

(** A node determines its position. *)
Lemma wf_node_pos l r pre pre' : wf pre (Node l r) → wf pre' (Node l r) → pre = pre'.
Proof.
  assert (∀ t pre pre', wf pre t → wf pre' t → 2 ≤ nleaves t → pre = pre') as H.
  2: { intros W1 W2. eapply H; eauto. simpl. by destruct W1 as (?&?&?). }
  clear. induction t as [|p v|l IHl r IHr]; simpl; intros pre pre'; [lia..|].
  intros (Wl & Wr & Hn) (Wl' & Wr' & _) _.
  destruct (decide (2 ≤ nleaves l)) as [Hl|Hl].
  { exact (proj1 (app_inj_tail _ _ _ _ (IHl _ _ Wl Wl' Hl))). }
  destruct (decide (2 ≤ nleaves r)) as [Hr|Hr].
  { exact (proj1 (app_inj_tail _ _ _ _ (IHr _ _ Wr Wr' Hr))). }
  destruct (wf_has_leaf _ _ Wl) as (q1 & w1 & H1); [intros ->; simpl in *; lia|].
  destruct (wf_has_leaf _ _ Wr) as (q2 & w2 & H2); [intros ->; simpl in *; lia|].
  destruct (tmap_wf _ _ _ _ Wl H1) as (_ & _ & [k1 P1]).
  destruct (tmap_wf _ _ _ _ Wl' H1) as (_ & _ & [k1' P1']).
  destruct (tmap_wf _ _ _ _ Wr H2) as (_ & _ & [k2 P2]).
  destruct (tmap_wf _ _ _ _ Wr' H2) as (_ & _ & [k2' P2']).
  rewrite P1 in P1'. rewrite P2 in P2'. clear -P1' P2'.
  rewrite <-!app_assoc in *. simpl in *.
  revert pre' P1' P2'. induction pre as [|b pre IH]; intros [|b' pre'] E1 E2; simpl in *;
    [done|congruence..|]. f_equal; [congruence|]. apply IH; congruence.
Qed.
End trie.

(** ** Insertion and removal *)

Section insert_remove.
Context {HS : Hasher}.

Lemma nleaves_join b t s : nleaves (join b t s) = nleaves t + nleaves s.
Proof. destruct b; simpl; lia. Qed.

Lemma wf_join pre b t s :
  wf pre (join b t s) ↔
  wf (pre ++ [b]) t ∧ wf (pre ++ [negb b]) s ∧ 2 ≤ nleaves t + nleaves s.
Proof. destruct b; simpl; rewrite ?(Nat.add_comm (nleaves s)); tauto. Qed.

Lemma tmap_join pre b t s : wf pre (join b t s) → tmap (join b t s) = tmap t ∪ tmap s.
Proof.
  intros Hwf. destruct b; simpl; [|done]. apply map_union_comm.
  by eapply (tmap_disjoint _ s t).
Qed.

Lemma lcp_lt_hsize p q :
  length p = hsize → length q = hsize → p ≠ q →
  lcp (bits p) (bits q) < length (bits p) ∧ lcp (bits p) (bits q) < length (bits q).
Proof.
  intros Hp Hq Hne. assert (length (bits p) = length (bits q)) as Hl
    by (rewrite !length_bits; lia).
  destruct (decide (lcp (bits p) (bits q) = length (bits p))) as [E|E].
  - destruct Hne. by apply bits_inj, lcp_full.
  - pose proof (lcp_le_l (bits p) (bits q)). lia.
Qed.

Lemma prefix_snoc_hsize pre p :
  pre `prefix_of` bits p → length pre < length (bits p) →
  pre ++ [bit p (length pre)] `prefix_of` bits p.
Proof. apply prefix_snoc. Qed.

Lemma tsplit_spec pre p v q w :
  wf pre (Leaf p v) → wf pre (Leaf q w) → p ≠ q →
  wf pre (tsplit (length pre) p v q w) ∧
  nleaves (tsplit (length pre) p v q w) = 2 ∧
  tmap (tsplit (length pre) p v q w) = <[p := v]> {[q := w]}.
Proof.
  unfold tsplit. set (c := lcp (bits p) (bits q)).
  intros Wp Wq Hne. destruct Wp as (Hp & Hv & Pp), Wq as (Hq & Hw & Pq).
  pose proof (lcp_prefix _ _ _ Pp Pq) as Hc. fold c in Hc.
  destruct (lcp_lt_hsize p q Hp Hq Hne) as [L1 L2]. fold c in L1, L2.
  assert (bit q c = negb (bit p c)) as Hdiff by by apply lcp_differ.
  remember (c - length pre) as n eqn:En.
  revert pre Pp Pq Hc En. induction n as [|n IH]; intros pre Pp Pq Hc En; simpl.
  - assert (length pre = c) as Hl by lia.
    assert (wf pre (join (bit p c) (Leaf p v) (Leaf q w))) as W.
    { apply wf_join. simpl. rewrite <-Hl in L1, L2 |- *. split_and!; try done; try lia.
      - by apply prefix_snoc.
      - rewrite Hl, <-Hdiff, <-Hl. by apply prefix_snoc. }
    split_and!; [done|by rewrite nleaves_join|].
    rewrite (tmap_join _ _ _ _ W). simpl. by rewrite insert_union_singleton_l.
  - assert (bit q (length pre) = bit p (length pre)) as Hb.
    { symmetry. apply lcp_nth. fold c. lia. }
    destruct (IH (pre ++ [bit p (length pre)])) as (W & N & M);
      [apply prefix_snoc; lia || done
      |rewrite <-Hb; apply prefix_snoc; lia || done
      |rewrite length_app; simpl; lia..|].
    rewrite length_app, Nat.add_1_r in W, N, M.
    assert (wf pre (join (bit p (length pre))
      (rebuild p (S (length pre)) (replicate n Empty)
         (join (bit p c) (Leaf p v) (Leaf q w))) Empty)) as W'.
    { apply wf_join. simpl. rewrite N. split_and!; try done; lia. }
    split_and!; [done|rewrite nleaves_join, N; done|].
    rewrite (tmap_join _ _ _ _ W'), M. apply (right_id ∅ _).
Qed.

Lemma tinsert_spec pre p v t :
  wf pre t → wf pre (Leaf p v) →
  wf pre (tinsert (length pre) p v t) ∧
  nleaves t ≤ nleaves (tinsert (length pre) p v t) ∧
  1 ≤ nleaves (tinsert (length pre) p v t) ∧
  tmap (tinsert (length pre) p v t) = <[p := v]> (tmap t).
Proof.
  revert pre. induction t as [|q w|l IHl r IHr]; intros pre Wt Wp; cbn [tinsert].
  - split_and!; try done; simpl; lia.
  - case_bool_decide as E.
    + subst q. split_and!; try done; simpl. by rewrite insert_singleton_eq.
    + destruct (tsplit_spec pre p v q w) as (W & N & M); [done..|].
      split_and!; try done; rewrite N; simpl; lia.
  - apply wf_node in Wt as (Wl & Wr & Hn).
    assert (length pre < length (bits p)) as Hlt.
    { destruct (decide (length pre < length (bits p))) as [|Hge]; [done|exfalso].
      assert (∀ b t, wf (pre ++ [b]) t → nleaves t = 0) as H0.
      { intros b t Ht. rewrite <-(size_tmap _ _ Ht).
        apply map_size_empty_iff, map_eq. intros q. rewrite lookup_empty.
        destruct (tmap t !! q) as [w|] eqn:Eq; [|done].
        destruct (tmap_wf _ _ _ _ Ht Eq) as (Hq & _ & [k Hk]).
        apply (f_equal length) in Hk. destruct Wp as (Hp & _).
        rewrite !length_app in Hk. simpl in Hk. rewrite !length_bits in *. lia. }
      rewrite (H0 _ _ Wl), (H0 _ _ Wr) in Hn. lia. }
    destruct Wp as (Hp & Hv & Pp).
    assert (wf (pre ++ [bit p (length pre)]) (Leaf p v)) as Wp'.
    { split_and!; try done. by apply prefix_snoc. }
    destruct (bit p (length pre)) eqn:Hb.
    + destruct (IHr _ Wr Wp') as (W & N & N1 & M).
      rewrite length_app, Nat.add_1_r in W, N, N1, M.
      rewrite wf_node. split_and!; simpl; try done; try lia.
      rewrite M. rewrite insert_union_r; [done|].
      eapply tmap_side; [done|congruence].
    + destruct (IHl _ Wl Wp') as (W & N & N1 & M).
      rewrite length_app, Nat.add_1_r in W, N, N1, M.
      rewrite wf_node. split_and!; simpl; try done; try lia.
      rewrite M. by rewrite insert_union_l.
Qed.

Lemma wf_tjoin pre l r :
  wf (pre ++ [false]) l → wf (pre ++ [true]) r → wf pre (tjoin l r).
Proof.
  intros Wl Wr. destruct l, r; cbn [tjoin]; eauto using wf_weaken_leaf;
    (split_and!; [done..|]); simpl in *;
    repeat match goal with H : _ ∧ _ |- _ => destruct H end; lia.
Qed.

Lemma tmap_tjoin l r : tmap (tjoin l r) = tmap l ∪ tmap r.
Proof. destruct l, r; simpl; rewrite ?(left_id ∅ _), ?(right_id ∅ _); done. Qed.

Lemma tremove_spec pre p t :
  wf pre t →
  wf pre (tremove (length pre) p t) ∧ tmap (tremove (length pre) p t) = delete p (tmap t).
Proof.
  revert pre. induction t as [|q w|l IHl r IHr]; intros pre Wt; cbn [tremove].
  - split; [done|]. simpl. by rewrite delete_empty.
  - case_bool_decide as E.
    + subst q. split; [done|]. simpl. by rewrite delete_singleton_eq.
    + split; [done|]. simpl. by rewrite delete_singleton_ne.
  - destruct Wt as (Wl & Wr & Hn). simpl. rewrite delete_union.
    destruct (bit p (length pre)) eqn:Hb.
    + destruct (IHr _ Wr) as (W & M). rewrite length_app, Nat.add_1_r in W, M.
      split; [by apply wf_tjoin|]. rewrite tmap_tjoin, M. f_equal. symmetry.
      apply delete_id. eapply tmap_side; [done|congruence].
    + destruct (IHl _ Wl) as (W & M). rewrite length_app, Nat.add_1_r in W, M.
      split; [by apply wf_tjoin|]. rewrite tmap_tjoin, M. f_equal. symmetry.
      apply delete_id. eapply tmap_side; [done|congruence].
Qed.
End insert_remove.

(** ** The walk down a tree *)

Section walk.
Context {HS : Hasher}.

Lemma descend_node p d l r :
  descend p d (Node l r) =
    ((if bit p d then l else r) :: (descend p (S d) (if bit p d then r else l)).1,
     (descend p (S d) (if bit p d then r else l)).2).
Proof. simpl. by destruct (descend p (S d) _). Qed.

Lemma join_children p d l r :
  join (bit p d) (if bit p d then r else l) (if bit p d then l else r) = Node l r.
Proof. by destruct (bit p d). Qed.

Lemma rebuild_descend p d t :
  rebuild p d (descend p d t).1 (descend p d t).2 = t.
Proof.
  revert d. induction t as [|q w|l IHl r IHr]; intros d; [done..|].
  rewrite descend_node. simpl. rewrite <-(join_children p d l r). f_equal.
  destruct (bit p d); auto.
Qed.

Lemma descend_end p d t l r : (descend p d t).2 ≠ Node l r.
Proof.
  revert d. induction t as [|q w|a IHl b IHr]; intros d; [done..|].
  rewrite descend_node. simpl. destruct (bit p d); auto.
Qed.

Lemma tinsert_descend p v d t :
  tinsert d p v t =
    rebuild p d (descend p d t).1
      (tinsert (d + length (descend p d t).1) p v (descend p d t).2).
Proof.
  revert d. induction t as [|q w|l IHl r IHr]; intros d.
  - by rewrite Nat.add_0_r.
  - by rewrite Nat.add_0_r.
  - rewrite descend_node. simpl. rewrite <-Nat.add_succ_comm.
    destruct (bit p d); simpl; by f_equal.
Qed.

(** Where the walk along a path ends in a well-formed tree. *)
Lemma descend_wf pre p t :
  wf pre t → pre `prefix_of` bits p → length p = hsize →
  length pre + length (descend p (length pre) t).1 ≤ length (bits p) ∧
  wf (take (length pre + length (descend p (length pre) t).1) (bits p))
    (descend p (length pre) t).2 ∧
  tmap t !! p = tmap (descend p (length pre) t).2 !! p.
Proof.
  intros Wt Pp Hp. revert pre Wt Pp. induction t as [|q w|l IHl r IHr]; intros pre Wt Pp.
  1,2: rewrite Nat.add_0_r; split_and!; [by apply prefix_length| |done];
    destruct Pp as [k ->]; by rewrite take_app_length.
  rewrite descend_node, (tmap_node pre) by done.
  destruct (decide (length pre < length (bits p))) as [Hlt|Hge].
  2: { exfalso. apply wf_node in Wt as (Wl & Wr & Hn).
    assert (∀ b s, wf (pre ++ [b]) s → nleaves s = 0) as H0.
    { intros b s Hs. destruct (decide (s = Empty)) as [->|Hne]; [done|exfalso].
      destruct (wf_has_leaf _ _ Hs Hne) as (q & w & Hq).
      destruct (tmap_wf _ _ _ _ Hs Hq) as (Hlq & _ & Pq).
      apply prefix_length in Pq. rewrite length_app in Pq. simpl in Pq.
      rewrite length_bits in *. lia. }
    rewrite (H0 _ _ Wl), (H0 _ _ Wr) in Hn. lia. }
  assert (pre ++ [bit p (length pre)] `prefix_of` bits p) as Pp' by by apply prefix_snoc.
  apply wf_node in Wt as (Wl & Wr & _). simpl.
  rewrite <-Nat.add_succ_comm.
  destruct (bit p (length pre)); [destruct (IHr _ Wr Pp') as (H1 & H2 & H3)
    |destruct (IHl _ Wl Pp') as (H1 & H2 & H3)];
    rewrite length_app, Nat.add_1_r in H1, H2, H3; done.
Qed.
End walk.

(** ** Removal along a path *)

Definition tjoin_at (b : bool) (t s : tree) : tree := if b then tjoin s t else tjoin t s.

(** Rebuilding with the nodes of at most one leaf collapsed. *)
Fixpoint trebuild (p : bytes) (d : nat) (sibs : list tree) (e : tree) : tree :=
  match sibs with
  | [] => e
  | s :: sibs' => tjoin_at (bit p d) (trebuild p (S d) sibs' e) s
  end.

Lemma trebuild_app p d s1 s2 e :
  trebuild p d (s1 ++ s2) e = trebuild p d s1 (trebuild p (d + length s1) s2 e).
Proof.
  revert d. induction s1 as [|s s1 IH]; intros d; simpl; [by rewrite Nat.add_0_r|].
  by rewrite IH, <-Nat.add_succ_comm.
Qed.

Lemma trebuild_snoc p sibs s e :
  trebuild p 0 (sibs ++ [s]) e = trebuild p 0 sibs (tjoin_at (bit p (length sibs)) e s).
Proof. by rewrite trebuild_app. Qed.

Lemma rebuild_snoc p sibs s e :
  rebuild p 0 (sibs ++ [s]) e = rebuild p 0 sibs (join (bit p (length sibs)) e s).
Proof.
  assert (∀ d, rebuild p d (sibs ++ [s]) e
             = rebuild p d sibs (join (bit p (d + length sibs)) e s)) as H; [|apply (H 0)].
  induction sibs as [|x sibs IH]; intros d; simpl; [by rewrite Nat.add_0_r|].
  by rewrite IH, <-Nat.add_succ_comm.
Qed.

(** Above a node nothing collapses. *)
Lemma trebuild_join p d sibs b x y :
  trebuild p d sibs (join b x y) = rebuild p d sibs (join b x y).
Proof.
  revert d. induction sibs as [|s sibs IH]; intros d; [done|]. simpl. rewrite IH.
  destruct sibs as [|s' sibs]; simpl.
  - destruct (bit p d), b; simpl; by destruct s.
  - destruct (bit p d), (bit p (S d)); simpl; by destruct s.
Qed.

Lemma tremove_descend p d t :
  tremove d p t =
    trebuild p d (descend p d t).1 (tremove (d + length (descend p d t).1) p (descend p d t).2).
Proof.
  revert d. induction t as [|q w|l IHl r IHr]; intros d.
  - by rewrite Nat.add_0_r.
  - by rewrite Nat.add_0_r.
  - rewrite descend_node. simpl. rewrite <-Nat.add_succ_comm.
    destruct (bit p d); simpl; by f_equal.
Qed.
