(* ===== verification/BulkLists.v ===== *)
(** * The lists of a batch: order, search, sorting and deduplication.

    [bytes_Compare] orders paths as their bits do, so a bit below a common
    prefix is monotone over a sorted list; sorting and deduplication keep,
    for each path, its last value. *)

From Stdlib Require Import Sorting.Sorted.
From S2P Require Import Prelude Utils Trie Bulk.

(** ** The order of byte slices is that of their bits *)

Fixpoint lex_le (l k : list bool) : bool :=
  match l, k with
  | a :: l', b :: k' => if Bool.eqb a b then lex_le l' k' else negb a
  | _, _ => true
  end.

Definition all_bytes : list byte :=
  (λ n, default x00 (Byte.of_N (N.of_nat n))) <$> seq 0 256.

Lemma elem_of_all_bytes b : b ∈ all_bytes.
Proof.
  apply list_elem_of_fmap. exists (N.to_nat (Byte.to_N b)). split.
  - by rewrite N2Nat.id, Byte.of_to_N.
  - apply elem_of_seq. pose proof (Byte.to_N_bounded b). lia.
Qed.

(** Checked on all pairs of bytes. *)
Definition byte_order_ok : bool :=
  forallb (λ x, forallb (λ y,
    match (byte_val x ?= byte_val y)%Z with
    | Lt => lex_le (byte_bits x) (byte_bits y) && negb (bool_decide (byte_bits x = byte_bits y))
    | Eq => bool_decide (x = y)
    | Gt => true
    end) all_bytes) all_bytes.

Lemma byte_order x y :
  match (byte_val x ?= byte_val y)%Z with
  | Lt => lex_le (byte_bits x) (byte_bits y) = true ∧ byte_bits x ≠ byte_bits y
  | Eq => x = y
  | Gt => True
  end.
Proof.
  assert (byte_order_ok = true) as H by (vm_compute; reflexivity).
  unfold byte_order_ok in H. rewrite forallb_forall in H.
  specialize (H x (proj1 (list_elem_of_In _ _) (elem_of_all_bytes x))). cbn beta in H.
  rewrite forallb_forall in H.
  specialize (H y (proj1 (list_elem_of_In _ _) (elem_of_all_bytes y))). cbn beta in H.
  destruct (byte_val x ?= byte_val y)%Z; [by apply bool_decide_eq_true in H| |done].
  apply andb_prop in H as [H1 H2]. split; [done|].
  apply negb_true_iff, bool_decide_eq_false in H2. done.
Qed.

Lemma lex_le_app l1 k1 l2 k2 :
  length l1 = length k1 → lex_le l1 k1 = true →
  (l1 = k1 → lex_le l2 k2 = true) → lex_le (l1 ++ l2) (k1 ++ k2) = true.
Proof.
  revert k1. induction l1 as [|a l1 IH]; intros [|b k1] Hl H1 H2; try done; [by apply H2|].
  cbn [app lex_le] in *. destruct (Bool.eqb a b) eqn:E; [|done].
  apply Bool.eqb_prop in E as ->. apply IH; [by injection Hl|done|].
  intros ->. by apply H2.
Qed.

Lemma bytes_Compare_lex a b :
  length a = length b → bytes_Compare a b ≠ Gt → lex_le (bits a) (bits b) = true.
Proof.
  revert b. induction a as [|x a IH]; intros [|y b] Hl Hc; try done.
  rewrite !bits_cons. cbn [bytes_Compare] in Hc. pose proof (byte_order x y) as Hxy.
  injection Hl as Hl. apply lex_le_app; [done|..].
  - destruct (byte_val x ?= byte_val y)%Z; [subst y|by destruct Hxy|done].
    clear. induction (byte_bits x) as [|c l IH]; [done|]. cbn. by rewrite Bool.eqb_reflx.
  - intros Heq. apply IH; [done|]. destruct (byte_val x ?= byte_val y)%Z; [done| |done].
    by destruct Hxy.
Qed.

(** Below a common prefix the first bit is monotone. *)
Lemma lex_le_bit pre l k :
  lex_le l k = true → pre `prefix_of` l → pre `prefix_of` k →
  nth (length pre) l false = true → length pre < length k → nth (length pre) k false = true.
Proof.
  intros Hle [l' ->] [k' ->]. induction pre as [|a pre IH]; cbn [app length nth lex_le] in *.
  - destruct l' as [|a l'], k' as [|b k']; cbn in *; try done; [lia|].
    intros -> _. by destruct b.
  - rewrite Bool.eqb_reflx in Hle. intros Hb Hlt. apply IH; [done|done|lia].
Qed.

(** ** The order itself *)

Definition path_le (a b : bytes) : Prop := bytes_Compare a b ≠ Gt.

Lemma bytes_Compare_refl a : bytes_Compare a a = Eq.
Proof. induction a as [|x a IH]; [done|]. cbn. by rewrite Z.compare_refl. Qed.

Lemma byte_val_inj x y : byte_val x = byte_val y → x = y.
Proof. intros H. pose proof (byte_order x y) as Hxy. by rewrite H, Z.compare_refl in Hxy. Qed.

Lemma bytes_Compare_eq a b : bytes_Compare a b = Eq → a = b.
Proof.
  revert b. induction a as [|x a IH]; intros [|y b]; try done. cbn.
  destruct (Z.compare_spec (byte_val x) (byte_val y)) as [E|E|E]; [|done..].
  intros H. f_equal; [by apply byte_val_inj|by apply IH].
Qed.

Lemma bytes_Compare_antisym a b : bytes_Compare b a = CompOpp (bytes_Compare a b).
Proof.
  revert b. induction a as [|x a IH]; intros [|y b]; try done. cbn.
  rewrite (Z.compare_antisym (byte_val x)), (IH b). by destruct (byte_val x ?= byte_val y)%Z.
Qed.

Lemma bytes_Compare_Lt_trans a b c :
  bytes_Compare a b = Lt → bytes_Compare b c = Lt → bytes_Compare a c = Lt.
Proof.
  revert b c. induction a as [|x a IH]; intros [|y b] [|z c]; try done. cbn.
  destruct (Z.compare_spec (byte_val x) (byte_val y)) as [E1|E1|E1]; try done;
    destruct (Z.compare_spec (byte_val y) (byte_val z)) as [E2|E2|E2]; try done; intros H1 H2.
  - rewrite E1, E2, Z.compare_refl. by apply IH with b.
  - by rewrite E1, (proj2 (Z.compare_lt_iff _ _) E2).
  - by rewrite <-E2, (proj2 (Z.compare_lt_iff _ _) E1).
  - by rewrite (proj2 (Z.compare_lt_iff _ _) (Z.lt_trans _ _ _ E1 E2)).
Qed.

Definition path_lt (a b : bytes) : Prop := bytes_Compare a b = Lt.

Lemma path_le_lt_eq a b : path_le a b ↔ path_lt a b ∨ a = b.
Proof.
  unfold path_le, path_lt. split.
  - destruct (bytes_Compare a b) eqn:E; [right; by apply bytes_Compare_eq|by left|done].
  - intros [->| ->]; [done|]. by rewrite bytes_Compare_refl.
Qed.

Lemma path_lt_irrefl a : ¬ path_lt a a.
Proof. unfold path_lt. by rewrite bytes_Compare_refl. Qed.

#[export] Instance path_lt_trans : Transitive path_lt.
Proof. intros a b c. apply bytes_Compare_Lt_trans. Qed.

#[export] Instance path_le_trans : Transitive path_le.
Proof.
  intros a b c [H1| ->]%path_le_lt_eq [H2| ->]%path_le_lt_eq; apply path_le_lt_eq; eauto.
  left. by etrans.
Qed.

Lemma path_le_total a b : bytes_Compare a b = Gt → path_le b a.
Proof. intros H. unfold path_le. by rewrite bytes_Compare_antisym, H. Qed.

(** ** Sorting *)

Abbreviation kv_le := (λ a b : bulkKV, path_le a.1 b.1).
Abbreviation kv_lt := (λ a b : bulkKV, path_lt a.1 b.1).

Lemma sort_insert_elem x l y : y ∈ sort_insert x l ↔ y = x ∨ y ∈ l.
Proof.
  induction l as [|z l IH]; cbn [sort_insert]; [by rewrite list_elem_of_singleton, elem_of_nil; tauto|].
  destruct (bytes_Compare x.1 z.1); rewrite ?elem_of_cons, ?IH; tauto.
Qed.

Lemma sort_insert_sorted x l :
  StronglySorted kv_le l → StronglySorted kv_le (sort_insert x l).
Proof.
  induction 1 as [|z l Hl IH Hz]; cbn [sort_insert]; [repeat constructor|].
  destruct (bytes_Compare x.1 z.1) eqn:E.
  1,2: assert (path_le x.1 z.1) as Hxz by (unfold path_le; congruence);
    constructor; [by constructor|]; constructor; [done|];
    eapply Forall_impl; [exact Hz|]; intros y Hy; by etrans.
  constructor; [done|]. apply Forall_forall. intros y Hy%sort_insert_elem.
  destruct Hy as [->|Hy]; [by apply path_le_total|]. by eapply Forall_forall in Hz.
Qed.

Lemma SortStableFunc_sorted l : StronglySorted kv_le (SortStableFunc l).
Proof. induction l as [|x l IH]; cbn; [constructor|by apply sort_insert_sorted]. Qed.

(** Stability: the elements of one path keep their order. *)
Lemma sort_insert_filter p x l :
  filter (λ kv, kv.1 = p) (sort_insert x l) = filter (λ kv, kv.1 = p) (x :: l).
Proof.
  induction l as [|z l IH]; [done|]. cbn [sort_insert].
  destruct (bytes_Compare x.1 z.1) eqn:E; [done..|].
  destruct (decide (z.1 = p)) as [Hz|Hz].
  - assert (x.1 ≠ p) as Hx by (intros Hx; rewrite Hx, Hz, bytes_Compare_refl in E; done).
    rewrite filter_cons_True, IH by done. by rewrite !(filter_cons_False _ x), filter_cons_True by done.
  - rewrite filter_cons_False, IH by done.
    destruct (decide (x.1 = p)).
    + by rewrite !(filter_cons_True _ x), filter_cons_False by done.
    + by rewrite !(filter_cons_False _ x), filter_cons_False by done.
Qed.

Lemma SortStableFunc_filter p l :
  filter (λ kv, kv.1 = p) (SortStableFunc l) = filter (λ kv, kv.1 = p) l.
Proof.
  induction l as [|x l IH]; [done|]. cbn [SortStableFunc foldr].
  change (foldr sort_insert [] l) with (SortStableFunc l).
  rewrite sort_insert_filter, !filter_cons. by rewrite IH.
Qed.

(** ** Deduplication *)

Fixpoint dedup_spec (l : list bulkKV) : list bulkKV :=
  match l with
  | [] => []
  | x :: l' =>
      match l' with
      | y :: _ => if bytes_Equal x.1 y.1 then dedup_spec l' else x :: dedup_spec l'
      | [] => [x]
      end
  end.

Lemma dedup_spec_cons2 x y l :
  dedup_spec (x :: y :: l) =
    if bytes_Equal x.1 y.1 then dedup_spec (y :: l) else x :: dedup_spec (y :: l).
Proof. done. Qed.

(** The array of the loop, [x] the element it reads next. *)
Lemma dedup_read (dn junk l : list bulkKV) x r :
  length dn + length junk = r →
  (dn ++ junk ++ x :: l) !! r = Some x ∧ (dn ++ junk ++ x :: l) !! S r = l !! 0.
Proof.
  intros Hr. rewrite (assoc_L (++)), !lookup_app_r by (rewrite length_app; lia).
  rewrite length_app. replace (r - _) with 0 by lia. by replace (S r - _) with 1 by lia.
Qed.

(** It writes [x] to the front, over the first of the elements it dropped. *)
Lemma dedup_write (dn junk l : list bulkKV) x w r :
  length dn = w → length dn + length junk = r →
  ∃ junk', (if bool_decide (w ≠ r) then <[w:=x]> (dn ++ junk ++ x :: l) else dn ++ junk ++ x :: l) =
    (dn ++ [x]) ++ junk' ++ l ∧ length junk' = length junk.
Proof.
  intros Hw Hr. destruct junk as [|z junk].
  - exists []. rewrite bool_decide_false by (cbn in Hr; lia). by rewrite <-(assoc_L (++)).
  - exists (junk ++ [x]). rewrite bool_decide_true by (cbn in Hr; lia). cbn.
    rewrite insert_middle by done. split; [by rewrite <-!(assoc_L (++))|].
    rewrite length_app. cbn. lia.
Qed.

(** The in-place loop: what it read is behind it, what it wrote is in front. *)
Lemma dedup_loop_spec l : ∀ done junk w r kvs,
  kvs = done ++ junk ++ l → length done = w → length done + length junk = r →
  ∃ kvs' w', dedup_loop (length l) r w kvs = Ok (kvs', w') ∧
    take w' kvs' = done ++ dedup_spec l.
Proof.
  induction l as [|x l IH]; intros dn junk w r kvs -> Hw Hr; cbn [length dedup_loop].
  { eexists _, _. split; [done|]. rewrite app_nil_r. cbn. rewrite app_nil_r.
    rewrite take_app_le, take_ge by lia. done. }
  destruct (dedup_read dn junk l x r Hr) as [Hx Hy].
  rewrite (index_ok _ _ _ Hx). cbn [mbind outcome_bind].
  rewrite !length_app. cbn [length].
  assert (∀ same : bool, (if same then ∃ y l', l = y :: l' ∧ x.1 = y.1
                   else dedup_spec (x :: l) = x :: dedup_spec l) →
    ∃ kvs' w',
      (if (same : bool) then dedup_loop (length l) (S r) w (dn ++ junk ++ x :: l)
       else dedup_loop (length l) (S r) (S w)
              (if bool_decide (w ≠ r) then <[w:=x]> (dn ++ junk ++ x :: l)
               else dn ++ junk ++ x :: l)) = Ok (kvs', w') ∧
      take w' kvs' = dn ++ dedup_spec (x :: l)) as Hstep.
  { intros [] Hs.
    - destruct Hs as (y & l' & -> & Hxy).
      destruct (IH dn (junk ++ [x]) w (S r) (dn ++ junk ++ x :: y :: l')) as (k' & w' & E & T).
      + by rewrite <-!(assoc_L (++)).
      + done.
      + rewrite length_app. cbn. lia.
      + exists k', w'. rewrite dedup_spec_cons2. unfold bytes_Equal.
        by rewrite bool_decide_true.
    - rewrite Hs. destruct (dedup_write dn junk l x w r Hw Hr) as (junk' & -> & Hj).
      destruct (IH (dn ++ [x]) junk' (S w) (S r) _ eq_refl) as (k' & w' & E & T).
      + rewrite length_app. cbn. lia.
      + rewrite length_app, Hj. cbn. lia.
      + exists k', w'. split; [done|]. by rewrite T, <-(assoc_L (++)). }
  destruct l as [|y l'].
  - cbn [length]. destruct (Nat.ltb_spec (S r) (length dn + (length junk + 1))); [lia|].
    cbn [mbind outcome_bind]. by apply (Hstep false).
  - cbn [length]. destruct (Nat.ltb_spec (S r) (length dn + (length junk + S (S (length l'))))); [|lia].
    rewrite (index_ok _ _ y Hy). cbn [mbind outcome_bind].
    apply (Hstep (bytes_Equal x.1 y.1)). unfold bytes_Equal. clear.
    destruct (decide (x.1 = y.1)) as [E|E].
    + rewrite bool_decide_true by done. by exists y, l'.
    + rewrite bool_decide_false by done. rewrite dedup_spec_cons2. unfold bytes_Equal. by rewrite bool_decide_false.
Qed.

Lemma dedup_dedup_spec l : dedup l = Ok (dedup_spec l).
Proof.
  unfold dedup. destruct (dedup_loop_spec l [] [] 0 0 l eq_refl eq_refl eq_refl) as (k & w & -> & T).
  cbn [mbind outcome_bind]. by rewrite T.
Qed.

Lemma dedup_spec_elem l x : x ∈ dedup_spec l → x ∈ l.
Proof.
  induction l as [|a [|b l] IH]; [done..|]. rewrite dedup_spec_cons2.
  destruct (bytes_Equal a.1 b.1).
  - intros Hx. right. by apply IH.
  - intros [->|Hx]%elem_of_cons; [by left|right; by apply IH].
Qed.

(** On a sorted list the result is strictly sorted. *)
Lemma dedup_spec_sorted l :
  StronglySorted kv_le l → StronglySorted kv_lt (dedup_spec l).
Proof.
  induction l as [|a [|b l] IH]; intros Hs; [constructor|by repeat constructor|].
  apply StronglySorted_inv in Hs as [Hs Ha]. specialize (IH Hs).
  rewrite dedup_spec_cons2. unfold bytes_Equal. case_bool_decide as E; [done|].
  constructor; [done|]. apply Forall_forall. intros x Hx%dedup_spec_elem.
  pose proof (proj1 (Forall_forall _ _) Ha x Hx) as Hax.
  apply path_le_lt_eq in Hax as [|Heq]; [done|].
  exfalso. apply E. apply Forall_cons in Ha as [Hab _].
  apply StronglySorted_inv in Hs as [_ Hb].
  assert (path_le b.1 x.1) as Hbx.
  { apply elem_of_cons in Hx as [->|Hx]; [apply (path_le_lt_eq b.1); by right|].
    by apply (proj1 (Forall_forall _ _) Hb). }
  apply path_le_lt_eq in Hab as [Hab|]; [|done].
  apply path_le_lt_eq in Hbx as [Hbx|Hbx]; rewrite <-Heq in Hbx; [|congruence].
  exfalso. apply (path_lt_irrefl a.1). by etrans.
Qed.

(** The last element of a path stays. *)
Lemma dedup_spec_last p l :
  last (filter (λ kv, kv.1 = p) (dedup_spec l)) = last (filter (λ kv, kv.1 = p) l).
Proof.
  induction l as [|a [|b l] IH]; [done..|]. rewrite dedup_spec_cons2.
  unfold bytes_Equal. case_bool_decide as E.
  - rewrite IH. destruct (decide (a.1 = p)) as [Ha|Ha]; [|by rewrite (filter_cons_False _ a)].
    rewrite (filter_cons_True _ a) by done. rewrite last_cons.
    rewrite filter_cons_True by congruence.
    rewrite !last_cons. by destruct (last (filter _ l)).
  - destruct (decide (a.1 = p)) as [Ha|Ha].
    + rewrite !(filter_cons_True _ a) by done. by rewrite !last_cons, IH.
    + by rewrite !(filter_cons_False _ a) by done.
Qed.

(** ** The map of a list of updates *)

Lemma kv_lt_nodup l : StronglySorted kv_lt l → NoDup l.*1.
Proof.
  induction 1 as [|x l Hl IH Hx]; cbn; constructor; [|done].
  intros (y & Hy & Hin)%list_elem_of_fmap.
  pose proof (proj1 (Forall_forall _ _) Hx y Hin) as Hlt. cbn in Hlt.
  rewrite Hy in Hlt. by apply path_lt_irrefl in Hlt.
Qed.

Lemma foldl_insert_lookup (l : list bulkKV) (m : gmap bytes bytes) p :
  foldl (λ m kv, <[kv.1 := kv.2]> m) m l !! p =
    match last (filter (λ kv, kv.1 = p) l) with
    | Some kv => Some kv.2
    | None => m !! p
    end.
Proof.
  induction l as [|x l IH] using rev_ind; [done|].
  rewrite foldl_snoc, filter_app. destruct (decide (x.1 = p)) as [<-|Hne].
  - rewrite lookup_insert_eq, (filter_cons_True _ x) by done. cbn. by rewrite last_snoc.
  - rewrite lookup_insert_ne, (filter_cons_False _ x) by done. cbn. by rewrite app_nil_r.
Qed.

Lemma list_to_map_last (l : list bulkKV) p :
  NoDup l.*1 →
  (list_to_map l : gmap bytes bytes) !! p = snd <$> last (filter (λ kv, kv.1 = p) l).
Proof.
  induction l as [|x l IH]; intros Hnd; [done|].
  cbn [fmap list_fmap] in Hnd. apply NoDup_cons in Hnd as [Hx Hnd]. destruct x as [q v].
  rewrite list_to_map_cons. destruct (decide (q = p)) as [->|Hne].
  - rewrite lookup_insert_eq, filter_cons_True by done. rewrite last_cons.
    replace (filter (λ kv : bytes * bytes, kv.1 = p) l) with (@nil bulkKV); [done|].
    destruct (filter (λ kv : bytes * bytes, kv.1 = p) l) as [|y k] eqn:E; [done|].
    assert (y ∈ filter (λ kv : bytes * bytes, kv.1 = p) l) as [Hy Hin]%list_elem_of_filter
      by (rewrite E; by left).
    destruct Hx. apply list_elem_of_fmap. by exists y.
  - rewrite lookup_insert_ne, filter_cons_False by done. by apply IH.
Qed.

(** What [BulkUpdate] builds from its list, as a map. *)
Lemma sort_dedup_map l m :
  (list_to_map (dedup_spec (SortStableFunc l)) : gmap bytes bytes) ∪ m =
  foldl (λ m kv, <[kv.1 := kv.2]> m) m l.
Proof.
  apply map_eq. intros p. rewrite foldl_insert_lookup, lookup_union.
  rewrite list_to_map_last
    by (apply kv_lt_nodup, dedup_spec_sorted, SortStableFunc_sorted).
  rewrite dedup_spec_last, SortStableFunc_filter.
  destruct (last _); cbn; by destruct (m !! p).
Qed.

Lemma sort_dedup_elem l kv : kv ∈ dedup_spec (SortStableFunc l) → kv ∈ l.
Proof.
  intros Hin%dedup_spec_elem.
  assert (kv ∈ filter (λ kv', kv'.1 = kv.1) (SortStableFunc l)) as Hf
    by by apply list_elem_of_filter.
  rewrite SortStableFunc_filter in Hf. by apply list_elem_of_filter in Hf as [_ ?].
Qed.

(** ** Binary search *)

(** On a predicate that is false below [k] and true from [k] on. *)
Lemma Search_loop_spec (f : nat → outcome bool) k n : ∀ fuel i j,
  j - i ≤ fuel → i ≤ k ≤ j → j ≤ n →
  (∀ x, x < n → f x = Ok (k <=? x)) → Search_loop fuel f i j = Ok k.
Proof.
  induction fuel as [|fuel IH]; intros i j Hf Hk Hj Hfx; cbn [Search_loop].
  { f_equal. lia. }
  destruct (Nat.ltb_spec i j) as [Hij|Hij]; [|f_equal; lia].
  assert (i ≤ (i + j) / 2 < j) as Hh.
  { split; [apply Nat.div_le_lower_bound; lia|apply Nat.Div0.div_lt_upper_bound; lia]. }
  rewrite Hfx by lia. cbn [mbind outcome_bind].
  destruct (Nat.leb_spec k ((i + j) / 2)); apply IH; done || lia.
Qed.

Lemma Search_spec n k f :
  k ≤ n → (∀ x, x < n → f x = Ok (k <=? x)) → Search n f = Ok k.
Proof. intros Hk Hf. unfold Search. apply (Search_loop_spec f k n); done || lia. Qed.

(** A monotone test on a list splits it. *)
Lemma monotone_split {A} (P : A → bool) (l : list A) :
  (∀ i j x y, i ≤ j → l !! i = Some x → l !! j = Some y → P x = true → P y = true) →
  ∃ k, k ≤ length l ∧ (∀ i x, l !! i = Some x → P x = (k <=? i)) ∧
    take k l = filter (λ x, ¬ P x = true) l ∧ drop k l = filter (λ x, P x = true) l.
Proof.
  induction l as [|a l IH]; intros Hm.
  { exists 0. by split_and!. }
  destruct (P a) eqn:Ha.
  - assert (∀ x, x ∈ a :: l → P x = true) as Hall.
    { intros x [i Hi]%list_elem_of_lookup. by apply (Hm 0 i a x); [lia|..]. }
    exists 0. split_and!; [lia| | |].
    + intros i x Hi. apply Hall. by eapply list_elem_of_lookup_2.
    + symmetry. cbn [take].
      destruct (filter _ (a :: l)) as [|y k] eqn:E; [done|].
      assert (y ∈ filter (λ x, ¬ P x = true) (a :: l)) as [Hy Hin]%list_elem_of_filter
        by (rewrite E; by left).
      destruct Hy. by apply Hall.
    + cbn [drop]. symmetry.
      clear -Hall. induction (a :: l) as [|b k IHk]; [done|].
      rewrite filter_cons_True by (apply Hall; by left). f_equal. apply IHk.
      intros x Hx. apply Hall. by right.
  - destruct IH as (k & Hk & Hlt & Ht & Hd).
    { intros i j x y Hij Hx Hy. apply (Hm (S i) (S j)); [lia|done..]. }
    exists (S k). cbn [length take drop]. split_and!; [lia| | |].
    + intros [|i] x Hi; [by injection Hi as <-|]. by rewrite (Hlt i x Hi).
    + by rewrite filter_cons_True, Ht by congruence.
    + by rewrite filter_cons_False by congruence.
Qed.

Lemma strongly_sorted_le (R : bulkKV → bulkKV → Prop) l i j x y :
  StronglySorted R l → i < j → l !! i = Some x → l !! j = Some y → R x y.
Proof.
  intros Hs. revert i j. induction Hs as [|z l Hl IH Hz]; intros i j Hij Hi Hj; [done|].
  destruct j as [|j]; [lia|]. destruct i as [|i].
  - injection Hi as <-. by apply (Forall_lookup_1 _ _ _ _ Hz Hj).
  - apply (IH i j); [lia|done..].
Qed.
