(* ===== verification/Merkle.v ===== *)
(** * The hashes of a tree and the store that holds it.

    [thash] and [tdata] give the hash and the stored value of a subtree,
    [dataset] the set of values a tree occupies in the node store.  Under
    [collision_free U], for a finite set [U] of byte strings that contains
    the data involved, a node store is determined by a set of values
    ([store_of]), and its operations are set operations. *)

From S2P Require Import Prelude Utils MapStore TreeHasher Effects Trie.

(** No two strings of [U] have one digest, and none has the placeholder. *)
Record collision_free {HS : Hasher} (U : gset bytes) : Prop := {
  cf_inj x y : x ∈ U → y ∈ U → hsum x = hsum y → x = y;
  cf_zero x : x ∈ U → hsum x ≠ placeholder;
}.

(** A decision procedure, for concrete sets. *)
Definition collision_freeb {HS : Hasher} (U : gset bytes) : bool :=
  let l := (λ x, (hsum x, x)) <$> elements U in
  forallb (λ a, negb (bytes_Equal a.1 placeholder) &&
    forallb (λ b, implb (bytes_Equal a.1 b.1) (bytes_Equal a.2 b.2)) l) l.

Section merkle.
Context {HS : Hasher}.

Fixpoint thash (t : tree) : bytes :=
  match t with
  | Empty => placeholder
  | Leaf p v => hsum (leaf_data p (hsum v))
  | Node l r => hsum (node_data (thash l) (thash r))
  end.

Definition tdata (t : tree) : bytes :=
  match t with
  | Empty => []
  | Leaf p v => leaf_data p (hsum v)
  | Node l r => node_data (thash l) (thash r)
  end.

(** The values of all subtrees that are not empty. *)
Fixpoint dataset (t : tree) : gset bytes :=
  match t with
  | Empty => ∅
  | Leaf p v => {[tdata (Leaf p v)]}
  | Node l r => {[tdata (Node l r)]} ∪ dataset l ∪ dataset r
  end.

Fixpoint valset (t : tree) : gset bytes :=
  match t with
  | Empty => ∅
  | Leaf p v => {[v]}
  | Node l r => valset l ∪ valset r
  end.

(** Every string that is hashed to build the tree. *)
Definition preimages (t : tree) : gset bytes := dataset t ∪ valset t.

Lemma collision_freeb_spec U : collision_freeb U = true → collision_free U.
Proof.
  unfold collision_freeb. rewrite forallb_forall. intros H. constructor.
  - intros x y Hx Hy Heq.
    specialize (H (hsum x, x)). rewrite <-list_elem_of_In, list_elem_of_fmap in H.
    destruct (andb_prop _ _ (H ltac:(exists x; by rewrite elem_of_elements))) as [_ H2].
    rewrite forallb_forall in H2. specialize (H2 (hsum y, y)).
    rewrite <-list_elem_of_In, list_elem_of_fmap in H2.
    specialize (H2 ltac:(exists y; by rewrite elem_of_elements)).
    unfold bytes_Equal in H2. simpl in H2. rewrite bool_decide_true in H2 by done.
    by apply bool_decide_eq_true in H2.
  - intros x Hx Heq.
    specialize (H (hsum x, x)). rewrite <-list_elem_of_In, list_elem_of_fmap in H.
    destruct (andb_prop _ _ (H ltac:(exists x; by rewrite elem_of_elements))) as [H1 _].
    simpl in H1. unfold bytes_Equal in H1. by rewrite bool_decide_true in H1.
Qed.

Lemma collision_free_mono U U' : U' ⊆ U → collision_free U → collision_free U'.
Proof. intros Hsub [Hi Hz]. constructor; set_solver. Qed.

Lemma length_thash t : length (thash t) = hsize.
Proof. destruct t; simpl; [apply length_placeholder|apply hsum_length..]. Qed.

Lemma thash_tdata t : t ≠ Empty → thash t = hsum (tdata t).
Proof. by destruct t. Qed.

Lemma tdata_in_dataset t : t ≠ Empty → tdata t ∈ dataset t.
Proof. destruct t; simpl; set_solver. Qed.

Lemma dataset_node l r :
  dataset (Node l r) = {[tdata (Node l r)]} ∪ dataset l ∪ dataset r.
Proof. done. Qed.

Lemma preimages_node l r :
  preimages (Node l r) = {[tdata (Node l r)]} ∪ preimages l ∪ preimages r.
Proof. unfold preimages. simpl. set_solver. Qed.

Lemma dataset_join b t s :
  dataset (join b t s) = {[tdata (join b t s)]} ∪ dataset t ∪ dataset s.
Proof. destruct b; simpl; set_solver. Qed.

Lemma preimages_join b t s :
  preimages (join b t s) = {[tdata (join b t s)]} ∪ preimages t ∪ preimages s.
Proof. unfold preimages. destruct b; simpl; set_solver. Qed.

Section collision_free.
Context (U : gset bytes) (CF : collision_free U).

Lemma tdata_hash_ne t : preimages t ⊆ U → t ≠ Empty → thash t ≠ placeholder.
Proof.
  intros Ht Hne. rewrite thash_tdata by done. apply (cf_zero _ CF).
  pose proof (tdata_in_dataset t Hne). set_solver.
Qed.

Lemma thash_inj pre1 pre2 t1 t2 :
  wf pre1 t1 → wf pre2 t2 → preimages t1 ⊆ U → preimages t2 ⊆ U →
  thash t1 = thash t2 → t1 = t2.
Proof.
  revert pre1 pre2 t2. induction t1 as [|p v|l IHl r IHr];
    intros pre1 pre2 t2 W1 W2 U1 U2 Heq.
  - destruct (decide (t2 = Empty)) as [->|Hne]; [done|].
    by destruct (tdata_hash_ne t2 U2 Hne).
  - destruct t2 as [|q w|l2 r2].
    + by destruct (tdata_hash_ne _ U1 ltac:(done)).
    + apply (cf_inj _ CF) in Heq; [|unfold preimages in *; set_solver..].
      destruct W1 as (Hp & _), W2 as (Hq & _).
      apply leaf_data_inj in Heq as [-> Hv]; [|lia]. f_equal.
      apply (cf_inj _ CF) in Hv; unfold preimages in *; set_solver.
    + apply (cf_inj _ CF) in Heq; [|unfold preimages in *; set_solver..].
      by apply leaf_node_data in Heq.
  - destruct t2 as [|q w|l2 r2].
    + by destruct (tdata_hash_ne _ U1 ltac:(done)).
    + apply (cf_inj _ CF) in Heq; [|unfold preimages in *; set_solver..].
      symmetry in Heq. by apply leaf_node_data in Heq.
    + apply (cf_inj _ CF) in Heq; [|unfold preimages in *; set_solver..].
      apply node_data_inj in Heq as [Hl Hr]; [|by rewrite !length_thash].
      apply wf_node in W1 as (?&?&_), W2 as (?&?&_).
      rewrite preimages_node in U1, U2.
      f_equal; [eapply IHl|eapply IHr]; eauto; set_solver.
Qed.

Lemma tdata_inj pre1 pre2 t1 t2 :
  wf pre1 t1 → wf pre2 t2 → preimages t1 ⊆ U → preimages t2 ⊆ U →
  t1 ≠ Empty → t2 ≠ Empty → tdata t1 = tdata t2 → t1 = t2.
Proof.
  intros. eapply thash_inj; eauto. rewrite !thash_tdata by done. by f_equal.
Qed.
End collision_free.

(** Every value of a tree is the value of a subtree at some position. *)
Lemma dataset_inv pre t d :
  wf pre t → d ∈ dataset t →
  ∃ s k, d = tdata s ∧ s ≠ Empty ∧ wf (pre ++ k) s ∧
         preimages s ⊆ preimages t ∧ tmap s ⊆ tmap t.
Proof.
  revert pre. induction t as [|p v|l IHl r IHr]; intros pre Wt Hd.
  - set_solver.
  - exists (Leaf p v), []. rewrite app_nil_r. simpl in Hd. set_solver.
  - rewrite dataset_node in Hd. apply elem_of_union in Hd as [Hd|Hd];
      [apply elem_of_union in Hd as [Hd|Hd]|].
    + exists (Node l r), []. rewrite app_nil_r. set_solver.
    + apply wf_node in Wt as W. destruct W as (Wl & Wr & _).
      destruct (IHl _ Wl Hd) as (s & k & -> & Hne & Ws & Us & Ms).
      exists s, (false :: k). rewrite <-app_assoc in Ws.
      split_and!; try done; [rewrite preimages_node; set_solver|].
      etrans; [exact Ms|]. apply map_union_subseteq_l.
    + apply wf_node in Wt as W. destruct W as (Wl & Wr & _).
      destruct (IHr _ Wr Hd) as (s & k & -> & Hne & Ws & Us & Ms).
      exists s, (true :: k). rewrite <-app_assoc in Ws.
      split_and!; try done; [rewrite preimages_node; set_solver|].
      etrans; [exact Ms|]. apply map_union_subseteq_r. by eapply tmap_disjoint.
Qed.

Section disjointness.
Context (U : gset bytes) (CF : collision_free U).

(** The value of a node is found in a tree only below the node's own
    position. *)
Lemma node_in_dataset pre pre' t l r :
  wf pre t → preimages t ⊆ U → wf pre' (Node l r) → preimages (Node l r) ⊆ U →
  tdata (Node l r) ∈ dataset t → pre `prefix_of` pre'.
Proof.
  intros Wt Ut Wn Un Hd.
  destruct (dataset_inv _ _ _ Wt Hd) as (s & k & Heq & Hne & Ws & Us & _).
  assert (Node l r = s) as <- by (eapply (tdata_inj U CF); eauto; set_solver).
  rewrite (wf_node_pos l r pre' (pre ++ k)) by done. by apply prefix_app_r.
Qed.

Lemma leaf_in_dataset pre pre' t p v :
  wf pre t → preimages t ⊆ U → wf pre' (Leaf p v) → preimages (Leaf p v) ⊆ U →
  tdata (Leaf p v) ∈ dataset t → tmap t !! p = Some v.
Proof.
  intros Wt Ut Wn Un Hd.
  destruct (dataset_inv _ _ _ Wt Hd) as (s & k & Heq & Hne & Ws & Us & Ms).
  assert (Leaf p v = s) as <- by (eapply (tdata_inj U CF); eauto; set_solver).
  eapply lookup_weaken; [|done]. apply lookup_singleton_eq.
Qed.

(** The three parts of a node occupy disjoint sets of values. *)
Lemma node_disjoint pre l r :
  wf pre (Node l r) → preimages (Node l r) ⊆ U →
  tdata (Node l r) ∉ dataset l ∧ tdata (Node l r) ∉ dataset r ∧
  dataset l ## dataset r.
Proof.
  intros W Un. pose proof Un as Un'. rewrite preimages_node in Un'.
  apply wf_node in W as W'. destruct W' as (Wl & Wr & _).
  assert (∀ b t, wf (pre ++ [b]) t → preimages t ⊆ U → tdata (Node l r) ∉ dataset t) as H.
  { intros b t Wt Ut Hd.
    pose proof (node_in_dataset _ _ _ _ _ Wt Ut W Un Hd) as Hp.
    apply prefix_length in Hp. rewrite length_app in Hp. simpl in Hp. lia. }
  split_and!; [eapply H; [exact Wl|set_solver]|eapply H; [exact Wr|set_solver]|].
  intros d Hl Hr.
  destruct (dataset_inv _ _ _ Wl Hl) as (s & k & -> & Hne & Ws & Us & Ms).
  destruct (dataset_inv _ _ _ Wr Hr) as (s' & k' & Heq & Hne' & Ws' & Us' & Ms').
  assert (s = s') as <- by (eapply (tdata_inj U CF); eauto; set_solver).
  destruct (wf_has_leaf _ _ Ws Hne) as (q & w & Hq).
  pose proof (tmap_disjoint _ _ _ W) as Hdisj.
  eapply map_disjoint_spec; [exact Hdisj|..]; by eapply lookup_weaken.
Qed.

Lemma join_disjoint pre b t s :
  wf pre (join b t s) → preimages (join b t s) ⊆ U →
  tdata (join b t s) ∉ dataset t ∧ tdata (join b t s) ∉ dataset s ∧
  dataset t ## dataset s.
Proof.
  intros W Ut. destruct b; simpl in *.
  - destruct (node_disjoint _ _ _ W Ut) as (?&?&?). split_and!; [done..|].
    by apply symmetry.
  - by apply node_disjoint in W.
Qed.
End disjointness.
End merkle.
