(* ===== verification/Store.v ===== *)
(** * Node stores as sets of values.

    [tree_state E M r] is the reference state whose node store holds exactly
    the values of the set [E], each under its digest, whose value store is
    [M] and whose root is [r].  On such states the store operations are set
    operations; the lemmas of the hint database [store] rewrite them. *)

From S2P Require Import Prelude MapStore TreeHasher Effects Trie Merkle.

Section store.
Context {HS : Hasher}.

Abbreviation refstore := (KeyedMap hsize).
Abbreviation refstate := (SparseMerkleTree refstore refstore).

Definition store_of (E : gset bytes) : gmap bytes bytes :=
  set_to_map (λ d, (hsum d, d)) E.

Definition tree_state (E : gset bytes) (M : gmap bytes bytes) (r : bytes) : refstate :=
  mkSMT (mkKeyedMap (store_of E)) (mkKeyedMap M) r.

Section laws.
Context (U : gset bytes) (CF : collision_free U).
Implicit Types E : gset bytes.

Lemma lookup_store_of E h d :
  E ⊆ U → store_of E !! h = Some d ↔ d ∈ E ∧ hsum d = h.
Proof.
  intros HE. unfold store_of. rewrite lookup_set_to_map.
  - split; [intros (y & Hy & [= <- <-]); done|intros [Hd <-]; by exists d].
  - simpl. intros x y Hx Hy Heq. apply (cf_inj _ CF); [set_solver..|done].
Qed.

Lemma store_of_elem E d : E ⊆ U → d ∈ E → store_of E !! hsum d = Some d.
Proof. intros HE Hd. by apply lookup_store_of. Qed.

Lemma store_of_not_elem E d :
  E ⊆ U → d ∈ U → d ∉ E → store_of E !! hsum d = None.
Proof.
  intros HE Hd Hn. destruct (store_of E !! hsum d) as [x|] eqn:Ex; [|done].
  apply lookup_store_of in Ex as [Hx Heq]; [|done].
  apply (cf_inj _ CF) in Heq; [congruence|set_solver..].
Qed.

Lemma store_of_placeholder E : E ⊆ U → store_of E !! placeholder = None.
Proof.
  intros HE. destruct (store_of E !! placeholder) as [x|] eqn:Ex; [|done].
  apply lookup_store_of in Ex as [Hx Heq]; [|done].
  destruct (cf_zero _ CF x); [set_solver|done].
Qed.

Lemma store_of_insert E d :
  E ⊆ U → d ∈ U → <[hsum d := d]> (store_of E) = store_of ({[d]} ∪ E).
Proof.
  intros HE Hd. apply map_eq. intros h. apply option_eq. intros x.
  rewrite lookup_store_of by set_solver. rewrite lookup_insert_Some.
  rewrite lookup_store_of by done. split.
  - intros [[<- <-]|[_ [? <-]]]; set_solver.
  - intros [[->%elem_of_singleton|Hx]%elem_of_union <-]; [by left|].
    destruct (decide (d = x)) as [->|Hne]; [by left|right].
    split; [|done]. intros Heq. apply (cf_inj _ CF) in Heq; set_solver.
Qed.

Lemma store_of_delete E d :
  E ⊆ U → d ∈ U → delete (hsum d) (store_of E) = store_of (E ∖ {[d]}).
Proof.
  intros HE Hd. apply map_eq. intros h. apply option_eq. intros x.
  rewrite lookup_store_of by set_solver. rewrite lookup_delete_Some.
  rewrite lookup_store_of by done. split.
  - intros [Hne [Hx <-]]. set_solver.
  - intros [Hx <-]. split; [|set_solver].
    intros Heq. apply (cf_inj _ CF) in Heq; set_solver.
Qed.

Lemma store_of_empty : store_of ∅ = ∅.
Proof. unfold store_of. apply map_empty. intros i.
  destruct (_ !! i) as [x|] eqn:Ex; [|done].
  apply (lookup_store_of ∅) in Ex as [Hx _]; set_solver. Qed.

(** *** The operations of the reference state *)

Lemma run_nodes_Get E M r d :
  E ⊆ U → d ∈ E →
  run (nodes_Get (hsum d)) (tree_state E M r) = (Ok d, tree_state E M r).
Proof.
  intros HE Hd. unfold run. simpl. unfold KeyedMap_Get.
  rewrite toFixedKey_ok by apply hsum_length. simpl.
  by rewrite store_of_elem.
Qed.

Lemma run_nodes_Get_absent E M r d :
  E ⊆ U → d ∈ U → d ∉ E →
  run (nodes_Get (hsum d)) (tree_state E M r) =
    (Err (InvalidKeyError (hsum d)), tree_state E M r).
Proof.
  intros HE Hd Hn. unfold run. simpl. unfold KeyedMap_Get.
  rewrite toFixedKey_ok by apply hsum_length. simpl.
  by rewrite store_of_not_elem.
Qed.

Lemma run_nodes_Set E M r d :
  E ⊆ U → d ∈ U →
  run (nodes_Set (hsum d) d) (tree_state E M r) = (Ok tt, tree_state ({[d]} ∪ E) M r).
Proof.
  intros HE Hd. unfold run. simpl. unfold KeyedMap_Set.
  rewrite toFixedKey_ok by apply hsum_length. simpl.
  by rewrite store_of_insert.
Qed.

Lemma run_nodes_Delete E M r d :
  E ⊆ U → d ∈ E →
  run (nodes_Delete (hsum d)) (tree_state E M r) = (Ok tt, tree_state (E ∖ {[d]}) M r).
Proof.
  intros HE Hd. unfold run. simpl. unfold KeyedMap_Delete.
  rewrite toFixedKey_ok by apply hsum_length. simpl.
  rewrite store_of_elem by done. simpl. by rewrite store_of_delete by set_solver.
Qed.

(** Deleting the values of a list without repetition, one by one. *)
Lemma run_nodes_Delete_all ds E M r :
  E ⊆ U → NoDup ds → list_to_set ds ⊆ E →
  run (for_each (hsum <$> ds) nodes_Delete) (tree_state E M r) =
    (Ok tt, tree_state (E ∖ list_to_set ds) M r).
Proof.
  intros HE Hnd. revert E HE. induction Hnd as [|d ds Hd Hnd IH]; intros E HE Hsub.
  - simpl. unfold run. do 2 f_equal. set_solver.
  - rewrite fmap_cons. cbn [for_each]. rewrite list_to_set_cons in *.
    erewrite run_bind_Ok by (apply run_nodes_Delete; set_solver).
    rewrite IH.
    + do 2 f_equal. set_solver.
    + set_solver.
    + intros x Hx. apply elem_of_difference. split; [set_solver|].
      intros ->%elem_of_singleton. by apply elem_of_list_to_set in Hx.
Qed.
End laws.

Lemma run_values_Get E M r p :
  length p = hsize →
  run (values_Get p) (tree_state E M r) =
    (match M !! p with Some v => Ok v | None => Err (InvalidKeyError p) end,
     tree_state E M r).
Proof.
  intros Hp. unfold run. simpl. unfold KeyedMap_Get. rewrite toFixedKey_ok by done.
  simpl. by destruct (M !! p).
Qed.

Lemma run_values_Set E M r p v :
  length p = hsize →
  run (values_Set p v) (tree_state E M r) = (Ok tt, tree_state E (<[p := v]> M) r).
Proof.
  intros Hp. unfold run. simpl. unfold KeyedMap_Set. by rewrite toFixedKey_ok.
Qed.

Lemma run_values_Delete E M r p v :
  length p = hsize → M !! p = Some v →
  run (values_Delete p) (tree_state E M r) = (Ok tt, tree_state E (delete p M) r).
Proof.
  intros Hp Hv. unfold run. simpl. unfold KeyedMap_Delete.
  rewrite toFixedKey_ok by done. simpl. by rewrite Hv.
Qed.

Lemma run_lift_Ok {A} (o : outcome A) a (s : refstate) :
  o = Ok a → run (lift o) s = (Ok a, s).
Proof. by intros ->. Qed.

Lemma run_Ret {A} (a : A) (s : refstate) : run (Ret a) s = (Ok a, s).
Proof. done. Qed.
End store.

Abbreviation refstate := (SparseMerkleTree (KeyedMap hsize) (KeyedMap hsize)).
