(* ===== verification/Partial.v ===== *)
(** * Trees with part of the data.

    [g ⊑ f]: the stores of [g] hold part of what those of [f] hold.  A
    [monotone] program run on [g] reports a missing key, or does what it does
    on [f]: with less data it may fail, but not differ. *)

From S2P Require Import Prelude Utils MapStore TreeHasher Effects Proofs Smt.
From S2P Require Import Merkle Store DeepSubTree Bulk.

Section partial.
Context {HS : Hasher}.

Record part_of (g f : refstate) : Prop := {
  part_nodes : km_m (nodes g) ⊆ km_m (nodes f);
  part_values : km_m (values g) ⊆ km_m (values f);
  part_root : root g = root f;
}.

Definition missing {A} (r : outcome A * refstate) : Prop :=
  ∃ k g', r = (Err (InvalidKeyError k), g').

Definition agree {A} (r1 r2 : outcome A * refstate) : Prop :=
  r1.1 = r2.1 ∧ part_of r1.2 r2.2.

Definition monotone {A} (P : prog A) : Prop :=
  ∀ g f, part_of g f → missing (run P g) ∨ agree (run P g) (run P f).

(** *** The monotone programs *)

Lemma monotone_bind {A B} (m : prog A) (k : A → prog B) :
  monotone m → (∀ a, monotone (k a)) → monotone (m ≫= k).
Proof.
  intros Hm Hk g f Hgf. rewrite !run_bind.
  destruct (Hm g f Hgf) as [(x & g' & ->)|[E Hp]]; [left; by eexists _, _|].
  destruct (run m g) as [o g'], (run m f) as [o' f']. cbn [fst snd] in *. subst o'.
  destruct o; [by apply Hk|by right..].
Qed.

(** A caught error is fine when a missing key is reported again. *)
Lemma monotone_try_bind {A B} (m : prog A) (k : error + A → prog B) :
  monotone m → (∀ r, monotone (k r)) →
  (∀ x g, missing (run (k (inl (InvalidKeyError x))) g)) → monotone (try m ≫= k).
Proof.
  intros Hm Hk Hmiss g f Hgf. rewrite !run_bind, !run_try.
  destruct (Hm g f Hgf) as [(x & g' & ->)|[E Hp]]; [left; by apply Hmiss|].
  destruct (run m g) as [o g'], (run m f) as [o' f']. cbn [fst snd] in *. subst o'.
  destruct o; [by apply Hk..|by right].
Qed.

Lemma monotone_Ret {A} (a : A) : monotone (Ret a).
Proof. intros g f Hgf. by right. Qed.

Lemma monotone_Throw {A} e : monotone (@Throw A e).
Proof. intros g f Hgf. by right. Qed.

Lemma monotone_Crash {A} : monotone (@Crash A).
Proof. intros g f Hgf. by right. Qed.

Lemma monotone_lift {A} (o : outcome A) : monotone (lift o).
Proof. intros g f Hgf. right. by rewrite !run_lift. Qed.

Lemma monotone_Root : monotone Root.
Proof. intros g f Hgf. right. rewrite !run_Root. split; [cbn; f_equal; apply Hgf|done]. Qed.

Lemma monotone_SetRoot r : monotone (SetRoot r).
Proof. intros g f Hgf. right. rewrite !run_SetRoot. destruct Hgf. by split; [|constructor]. Qed.

Lemma monotone_Get st k : monotone (store_Get st k).
Proof.
  intros [[gn] [gv] gr] [[fn] [fv] fr] [Hn Hv Hr]. cbn in *. subst gr.
  destruct (decide (length k = hsize)) as [Hk|Hk].
  2: { right. unfold run. destruct st; cbn; unfold KeyedMap_Get; rewrite toFixedKey_panic by done;
       by split; [|constructor]. }
  destruct st; unfold store_Get, run; cbn; unfold KeyedMap_Get; rewrite toFixedKey_ok by done;
    cbn.
  - destruct (gn !! k) as [x|] eqn:E; [right|left; by eexists _, _].
    rewrite (lookup_weaken _ _ _ _ E Hn). by split; [|constructor].
  - destruct (gv !! k) as [x|] eqn:E; [right|left; by eexists _, _].
    rewrite (lookup_weaken _ _ _ _ E Hv). by split; [|constructor].
Qed.

Lemma monotone_Set st k v : monotone (store_Set st k v).
Proof.
  intros [[gn] [gv] gr] [[fn] [fv] fr] [Hn Hv Hr]. cbn in *. subst gr. right.
  destruct (decide (length k = hsize)) as [Hk|Hk].
  - destruct st; unfold store_Set, run; cbn; unfold KeyedMap_Set; rewrite toFixedKey_ok by done;
      cbn; split; try done; constructor; try done; by apply insert_mono.
  - unfold run. destruct st; cbn; unfold KeyedMap_Set; rewrite toFixedKey_panic by done;
      by split; [|constructor].
Qed.

Lemma monotone_Delete st k : monotone (store_Delete st k).
Proof.
  intros [[gn] [gv] gr] [[fn] [fv] fr] [Hn Hv Hr]. cbn in *. subst gr.
  destruct (decide (length k = hsize)) as [Hk|Hk].
  2: { right. unfold run. destruct st; cbn; unfold KeyedMap_Delete; rewrite toFixedKey_panic by done;
       by split; [|constructor]. }
  destruct st; unfold store_Delete, run; cbn; unfold KeyedMap_Delete;
    rewrite toFixedKey_ok by done; cbn.
  - destruct (gn !! k) as [x|] eqn:E; [right|left; by eexists _, _].
    rewrite (lookup_weaken _ _ _ _ E Hn). split; [done|]. constructor; try done.
    by apply delete_mono.
  - destruct (gv !! k) as [x|] eqn:E; [right|left; by eexists _, _].
    rewrite (lookup_weaken _ _ _ _ E Hv). split; [done|]. constructor; try done.
    by apply delete_mono.
Qed.

Lemma monotone_for_each {A} (l : list A) (body : A → prog unit) :
  (∀ x, monotone (body x)) → monotone (for_each l body).
Proof.
  intros Hb. induction l as [|x l IH]; [apply monotone_Ret|]. by apply monotone_bind.
Qed.
End partial.

Create HintDb monotone.
#[export] Hint Resolve monotone_Crash monotone_Ret monotone_Throw monotone_lift monotone_Root
  monotone_SetRoot monotone_Get monotone_Set monotone_Delete : monotone.

Ltac monotone_step :=
  match goal with
  | |- monotone (try _ ≫= _) => apply monotone_try_bind
  | |- monotone (_ ≫= _) => apply monotone_bind; [|intros]
  | |- monotone (for_each _ _) => apply monotone_for_each; intros
  | |- monotone (match ?x with _ => _ end) => destruct x
  | |- _ => solve [auto with monotone]
  end.
Ltac solve_monotone := repeat monotone_step.

Section programs.
Context {HS : Hasher}.

Lemma monotone_fillSideNodes_loop p n i d sd sns pns :
  monotone (fillSideNodes_loop p n i d sd sns pns).
Proof.
  revert i d sd sns pns. induction n as [|n IH]; intros i d sd sns pns;
    cbn [fillSideNodes_loop]; solve_monotone; apply IH.
Qed.

Lemma monotone_deleteWithSideNodes_loop p len sns i h d b :
  monotone (deleteWithSideNodes_loop p len sns i h d b).
Proof.
  revert i h d b. induction sns as [|sn sns IH]; intros i h d b;
    cbn [deleteWithSideNodes_loop]; solve_monotone; apply IH.
Qed.

Lemma monotone_updateWithSideNodes_loop p sns c n i d :
  monotone (updateWithSideNodes_loop p sns c n i d).
Proof.
  revert i d. induction n as [|n IH]; intros i d;
    cbn [updateWithSideNodes_loop]; solve_monotone; apply IH.
Qed.

#[local] Hint Resolve monotone_fillSideNodes_loop monotone_deleteWithSideNodes_loop
  monotone_updateWithSideNodes_loop : monotone.

Lemma monotone_fillSideNodes p r b : monotone (fillSideNodes p r b).
Proof. unfold fillSideNodes. solve_monotone. Qed.

Lemma monotone_deleteWithSideNodes p sns pns d : monotone (deleteWithSideNodes p sns pns d).
Proof. unfold deleteWithSideNodes. solve_monotone. Qed.

Lemma monotone_updateWithSideNodes p v sns pns d :
  monotone (updateWithSideNodes p v sns pns d).
Proof. unfold updateWithSideNodes. solve_monotone. Qed.

#[local] Hint Resolve monotone_fillSideNodes monotone_deleteWithSideNodes
  monotone_updateWithSideNodes : monotone.

Lemma monotone_UpdateForRoot key value r : monotone (UpdateForRoot key value r).
Proof.
  unfold UpdateForRoot. apply monotone_bind; [solve_monotone|]. intros [[ps old] sib].
  case_match; [|solve_monotone]. apply monotone_try_bind; [solve_monotone|intros; solve_monotone|].
  intros x [[gn] [gv] gr]. unfold missing. rewrite run_bind.
  unfold store_Delete, run. cbn. unfold KeyedMap_Delete.
  rewrite toFixedKey_ok by apply length_path. cbn.
  destruct (gv !! hsum key); do 2 eexists; reflexivity.
Qed.

#[local] Hint Resolve monotone_UpdateForRoot : monotone.

Lemma monotone_Update key value : monotone (Update key value).
Proof. unfold Update. solve_monotone. Qed.

Lemma monotone_GetDescend_loop p n i h : monotone (GetDescend_loop p n i h).
Proof.
  revert i h. induction n as [|n IH]; intros i h; cbn [GetDescend_loop]; solve_monotone; apply IH.
Qed.

#[local] Hint Resolve monotone_GetDescend_loop : monotone.

Lemma monotone_GetDescend key : monotone (GetDescend key).
Proof. unfold GetDescend. solve_monotone. Qed.

(** *** Bulk updates *)

Lemma monotone_buildSubtree fuel d kvs : monotone (buildSubtree Crash fuel d kvs).
Proof.
  revert d kvs. induction fuel as [|fuel IH]; intros d kvs; [apply monotone_Crash|].
  cbn [buildSubtree]. destruct kvs as [|[p v] [|kv kvs]]; [solve_monotone..|].
  apply monotone_bind; [auto with monotone|]. intros i. cbv zeta.
  apply monotone_bind; [case_match; [auto with monotone|apply IH]|]. intros l.
  apply monotone_bind; [case_match; [auto with monotone|apply IH]|]. intros r. solve_monotone.
Qed.

#[local] Hint Resolve monotone_buildSubtree : monotone.

Lemma monotone_mergeLeafWithKVs fuel h ld d kvs : monotone (mergeLeafWithKVs Crash fuel h ld d kvs).
Proof. unfold mergeLeafWithKVs. solve_monotone. Qed.

#[local] Hint Resolve monotone_mergeLeafWithKVs : monotone.

Lemma monotone_bulkApplyAtRoot fuel h d kvs : monotone (bulkApplyAtRoot Crash fuel h d kvs).
Proof.
  revert h d kvs. induction fuel as [|fuel IH]; intros h d kvs; [apply monotone_Crash|].
  cbn [bulkApplyAtRoot]. solve_monotone; apply IH.
Qed.

#[local] Hint Resolve monotone_bulkApplyAtRoot monotone_Update : monotone.

Lemma monotone_BulkUpdate keys values : monotone (BulkUpdate keys values).
Proof. unfold BulkUpdate, Delete. solve_monotone. Qed.
End programs.

#[export] Hint Resolve monotone_Update monotone_GetDescend monotone_BulkUpdate : monotone.
