(* ===== verification/Footprint.v ===== *)
(** * The keys a program looks at.

    [within K P]: every key that [P] reads or deletes is in [K], whatever the
    stores answer; [reads K P f]: in its run on [f].  Two states that agree on
    [K] then give [P] one outcome, and still agree on [K] after it. *)

From S2P Require Import Prelude Utils MapStore TreeHasher Effects Proofs Smt Merkle Store.

Section footprint.
Context {HS : Hasher}.
Implicit Types (K : store_id → bytes → Prop) (g f : refstate).

Fixpoint within {A} K (P : prog A) : Prop :=
  match P with
  | GetOp st k c => K st k ∧ ∀ r, within K (c r)
  | SetOp _ _ _ c => ∀ r, within K (c r)
  | DeleteOp st k c => K st k ∧ ∀ r, within K (c r)
  | RootOp c => ∀ r, within K (c r)
  | SetRootOp _ c => within K c
  | Ret _ | Throw _ | Crash => True
  end.

Definition store_map (st : store_id) g : gmap bytes bytes :=
  match st with NodeStore => km_m (nodes g) | ValueStore => km_m (values g) end.

Record same_on K g f : Prop := {
  same_root : root g = root f;
  same_maps st k : K st k → store_map st g !! k = store_map st f !! k;
}.

Lemma do_Get_same K st k g f : same_on K g f → K st k → do_Get st k g = do_Get st k f.
Proof.
  intros [_ Hs] Hk. specialize (Hs st k Hk). destruct (decide (length k = hsize)) as [Hl|Hl].
  - destruct st; cbn in *; unfold KeyedMap_Get; rewrite toFixedKey_ok by done; cbn; by rewrite Hs.
  - destruct (sim_key_panic st k g Hl) as (-> & _), (sim_key_panic st k f Hl) as (-> & _). done.
Qed.

Lemma do_Set_same K st k v g f :
  same_on K g f →
  (do_Set st k v g).1 = (do_Set st k v f).1 ∧ same_on K (do_Set st k v g).2 (do_Set st k v f).2.
Proof.
  intros [Hr Hs]. destruct (decide (length k = hsize)) as [Hl|Hl].
  - destruct st; cbn; unfold KeyedMap_Set; rewrite !toFixedKey_ok by done; cbn; split; try done;
      constructor; try done; intros [] x Hx; cbn; try (by apply (Hs _ _ Hx));
      destruct (decide (k = x)) as [->|]; rewrite ?lookup_insert_eq, ?lookup_insert_ne by done;
      try done; by apply (Hs _ _ Hx).
  - destruct (sim_key_panic st k g Hl) as (_ & E1 & _), (sim_key_panic st k f Hl) as (_ & E2 & _).
    rewrite E1, E2. by split.
Qed.

Lemma do_Delete_same K st k g f :
  same_on K g f → K st k →
  (do_Delete st k g).1 = (do_Delete st k f).1 ∧
  same_on K (do_Delete st k g).2 (do_Delete st k f).2.
Proof.
  intros [Hr Hs] Hk. destruct (decide (length k = hsize)) as [Hl|Hl].
  - pose proof (Hs st k Hk) as Hst.
    destruct st; cbn in *; unfold KeyedMap_Delete; rewrite !toFixedKey_ok by done; cbn;
      rewrite Hst; [destruct (km_m (nodes f) !! k)|destruct (km_m (values f) !! k)];
      cbn; split; try done; constructor; try done;
      intros [] x Hx; cbn; try (by apply (Hs _ _ Hx));
      destruct (decide (k = x)) as [->|]; rewrite ?lookup_delete_eq, ?lookup_delete_ne by done;
      try done; by apply (Hs _ _ Hx).
  - destruct (sim_key_panic st k g Hl) as (_ & _ & E1), (sim_key_panic st k f Hl) as (_ & _ & E2).
    rewrite E1, E2. by split.
Qed.

(** Every key that the run of [P] on [f] reads or deletes is in [K]. *)
Fixpoint reads {A} K (P : prog A) f : Prop :=
  match P with
  | Ret _ | Throw _ | Crash => True
  | GetOp st k c => K st k ∧
      match do_Get st k f with
      | Ok v => reads K (c (inr v)) f
      | Err e => reads K (c (inl e)) f
      | Panic => True
      end
  | SetOp st k v c =>
      match do_Set st k v f with
      | (Ok _, f') => reads K (c None) f'
      | (Err e, f') => reads K (c (Some e)) f'
      | (Panic, _) => True
      end
  | DeleteOp st k c => K st k ∧
      match do_Delete st k f with
      | (Ok _, f') => reads K (c None) f'
      | (Err e, f') => reads K (c (Some e)) f'
      | (Panic, _) => True
      end
  | RootOp c => reads K (c (root f)) f
  | SetRootOp r c => reads K c (mkSMT (nodes f) (values f) r)
  end.

Lemma within_reads {A} K (P : prog A) f : within K P → reads K P f.
Proof.
  revert f. induction P as [a|e| |st k c IH|st k v c IH|st k c IH|c IH|r c IH]; intros f Hw;
    cbn -[do_Get do_Set do_Delete] in *; try done.
  - destruct Hw as [Hk Hw]. split; [done|]. destruct (do_Get st k f); auto.
  - destruct (do_Set st k v f) as [[] f']; auto.
  - destruct Hw as [Hk Hw]. split; [done|]. destruct (do_Delete st k f) as [[] f']; auto.
  - auto.
  - auto.
Qed.

Lemma reads_bind {A B} K (P : prog A) (k : A → prog B) f :
  reads K P f → (∀ a f', run P f = (Ok a, f') → reads K (k a) f') → reads K (P ≫= k) f.
Proof.
  revert f. induction P as [a|e| |st x c IH|st x v c IH|st x c IH|c IH|r c IH]; intros f HP Hk;
    cbn -[do_Get do_Set do_Delete] in *; try done.
  - by apply Hk.
  - destruct HP as [? HP]. split; [done|]. setoid_rewrite run_GetOp in Hk.
    destruct (do_Get st x f); by try apply IH.
  - setoid_rewrite run_SetOp in Hk. destruct (do_Set st x v f) as [[] f']; by try apply IH.
  - destruct HP as [? HP]. split; [done|]. setoid_rewrite run_DeleteOp in Hk.
    destruct (do_Delete st x f) as [[] f']; by try apply IH.
  - by apply IH.
  - by apply IH.
Qed.

Lemma reads_mono {A} K K' (P : prog A) f : (∀ st k, K st k → K' st k) → reads K P f → reads K' P f.
Proof.
  intros HK. revert f. induction P as [a|e| |st k c IH|st k v c IH|st k c IH|c IH|r c IH]; intros f HP;
    cbn -[do_Get do_Set do_Delete] in *; try done.
  - destruct HP as [? HP]. split; [auto|]. destruct (do_Get st k f); auto.
  - destruct (do_Set st k v f) as [[] f']; auto.
  - destruct HP as [? HP]. split; [auto|]. destruct (do_Delete st k f) as [[] f']; auto.
  - auto.
  - auto.
Qed.

(** The states need to agree on what is read. *)
Lemma run_same_reads {A} K (P : prog A) g f :
  reads K P f → same_on K g f →
  (run P g).1 = (run P f).1 ∧ same_on K (run P g).2 (run P f).2.
Proof.
  revert g f. induction P as [a|e| |st k c IH|st k v c IH|st k c IH|c IH|r c IH];
    intros g f Hw Hs; cbn -[do_Get do_Set do_Delete] in *; try done;
    rewrite ?run_GetOp, ?run_SetOp, ?run_DeleteOp, ?run_RootOp, ?run_SetRootOp.
  - destruct Hw as [Hk Hw]. rewrite (do_Get_same K st k g f Hs Hk).
    destruct (do_Get st k f); [by apply IH..|done].
  - destruct (do_Set_same K st k v g f Hs) as [E Hs'].
    destruct (do_Set st k v g) as [o g'], (do_Set st k v f) as [o' f']. cbn [fst snd] in *. subst o'.
    destruct o; [by apply IH..|done].
  - destruct Hw as [Hk Hw]. destruct (do_Delete_same K st k g f Hs Hk) as [E Hs'].
    destruct (do_Delete st k g) as [o g'], (do_Delete st k f) as [o' f']. cbn [fst snd] in *.
    subst o'. destruct o; [by apply IH..|done].
  - rewrite (same_root _ _ _ Hs). by apply IH.
  - apply IH; [done|]. destruct Hs. by constructor.
Qed.

Lemma run_same {A} K (P : prog A) g f :
  within K P → same_on K g f →
  (run P g).1 = (run P f).1 ∧ same_on K (run P g).2 (run P f).2.
Proof. intros Hw. by apply run_same_reads, within_reads. Qed.

Lemma same_on_or K K' g f :
  same_on K g f → same_on K' g f → same_on (λ st k, K st k ∨ K' st k) g f.
Proof. intros [Hr H1] [_ H2]. split; [done|]. intros st k [?|?]; auto. Qed.

Lemma same_on_mono K K' g f : (∀ st k, K' st k → K st k) → same_on K g f → same_on K' g f.
Proof. intros HK [Hr Hs]. split; [done|]. auto. Qed.

(** *** Programs within a footprint *)

Lemma within_bind {A B} K (m : prog A) (k : A → prog B) :
  within K m → (∀ a, within K (k a)) → within K (m ≫= k).
Proof.
  intros Hm Hk. induction m as [a|e| |st x c IH|st x v c IH|st x c IH|c IH|r c IH];
    cbn in *; try done; try (by apply Hk).
  - destruct Hm as [? Hm]. split; [done|]. intros r. by apply IH.
  - intros r. by apply IH.
  - destruct Hm as [? Hm]. split; [done|]. intros r. by apply IH.
  - intros r. by apply IH.
  - by apply IH.
Qed.

Lemma within_try {A} K (m : prog A) : within K m → within K (try m).
Proof.
  intros Hm. induction m as [a|e| |st x c IH|st x v c IH|st x c IH|c IH|r c IH]; cbn in *; try done.
  - destruct Hm as [? Hm]. split; [done|]. intros r. by apply IH.
  - intros r. by apply IH.
  - destruct Hm as [? Hm]. split; [done|]. intros r. by apply IH.
  - intros r. by apply IH.
  - by apply IH.
Qed.

Lemma within_mono {A} K K' (P : prog A) :
  (∀ st k, K st k → K' st k) → within K P → within K' P.
Proof.
  intros HK. induction P; cbn; intros HP; try done; try (destruct HP; split; [by apply HK|]);
    intros; naive_solver.
Qed.

Lemma within_lift {A} K (o : outcome A) : within K (lift o).
Proof. by destruct o. Qed.

(** A pure result is known in the rest of the program. *)
Lemma within_bind_lift {A B} K (o : outcome A) (k : A → prog B) :
  (∀ a, o = Ok a → within K (k a)) → within K (lift o ≫= k).
Proof. intros Hk. destruct o; [by apply Hk|done..]. Qed.

Lemma within_Get K st k : K st k → within K (store_Get st k).
Proof. intros Hk. split; [done|]. by intros []. Qed.

Lemma within_Set K st k v : within K (store_Set st k v).
Proof. by intros []. Qed.

Lemma within_Delete K st k : K st k → within K (store_Delete st k).
Proof. intros Hk. split; [done|]. by intros []. Qed.

Lemma within_for_each {A} K (l : list A) (body : A → prog unit) :
  (∀ x, x ∈ l → within K (body x)) → within K (for_each l body).
Proof.
  induction l as [|x l IH]; intros Hb; [done|]. apply within_bind; [apply Hb; by left|].
  intros _. apply IH. intros y Hy. apply Hb. by right.
Qed.
End footprint.

Create HintDb within.
#[export] Hint Resolve within_lift within_Set within_Get within_Delete : within.

Ltac within_step :=
  match goal with
  | |- within _ (try _) => apply within_try
  | |- within _ (lift _ ≫= _) => apply within_bind_lift; intros
  | |- within _ (_ ≫= _) => apply within_bind; [|intros]
  | |- within _ (for_each _ _) => apply within_for_each; intros
  | |- within _ (match ?x with _ => _ end) => destruct x
  | |- within _ Root => intros ?; exact I
  | |- within _ (Ret _) => exact I
  | |- within _ (Throw _) => exact I
  | |- _ => solve [auto with within]
  end.
Ltac solve_within := repeat within_step.

(** ** The footprint of an update *)
Section update.
Context {HS : Hasher}.
Implicit Types K : store_id → bytes → Prop.

Lemma within_updateWithSideNodes_loop K p sns c n i d :
  within K (updateWithSideNodes_loop p sns c n i d).
Proof.
  revert i d. induction n as [|n IH]; intros i d; cbn [updateWithSideNodes_loop]; solve_within;
    apply IH.
Qed.

(** An insertion deletes the path's nodes and the old value; it reads
    nothing else. *)
Lemma within_updateWithSideNodes K p v sns pns d :
  (∀ h, h ∈ pns → K NodeStore h) → K ValueStore p →
  within K (updateWithSideNodes p v sns pns d).
Proof.
  intros Hn Hv. unfold updateWithSideNodes.
  solve_within; try apply within_updateWithSideNodes_loop; apply within_Delete, Hn.
  - by eapply index_elem.
  - rewrite <-(take_drop 1 pns). apply elem_of_app. by right.
Qed.

(** Once it has data, the loop of a deletion reads nothing. *)
Lemma within_delete_loop_Some K p len sns i h d b :
  within K (deleteWithSideNodes_loop p len sns i h (Some d) b).
Proof.
  revert i h d b. induction sns as [|sn sns IH]; intros i h d b;
    cbn [deleteWithSideNodes_loop]; [done|].
  change (within K (if negb b && bytes_Equal sn placeholder then
      deleteWithSideNodes_loop p len sns (S i) h (Some d) b
    else
      x ← lift (getBitAtFromMSB p (len - 1 - i));
      let '(h', d') := if (x =? right)%Z then digestNodeInto sn d else digestNodeInto d sn in
      nodes_Set h' d' ;; deleteWithSideNodes_loop p len sns (S i) (Some h') (Some h') true)).
  solve_within; apply IH.
Qed.

Lemma within_delete_loop K p len sns i h b :
  (∀ sn, head sns = Some sn → K NodeStore sn) →
  within K (deleteWithSideNodes_loop p len sns i h None b).
Proof.
  intros Hk. destruct sns as [|sn sns]; cbn [deleteWithSideNodes_loop]; [done|].
  specialize (Hk sn eq_refl).
  apply within_bind; [solve_within|]. intros [[d b']|]; solve_within;
    apply within_delete_loop_Some.
Qed.

Lemma within_deleteWithSideNodes K p sns pns d :
  (∀ h, h ∈ pns → K NodeStore h) → (∀ sn, head sns = Some sn → K NodeStore sn) →
  within K (deleteWithSideNodes p sns pns d).
Proof.
  intros Hn Hs. unfold deleteWithSideNodes. solve_within. by apply within_delete_loop.
Qed.
End update.
