(* ===== verification/Walk.v ===== *)
(** * Walking down and climbing up.

    [fillSideNodes] collects the siblings of [descend]; [climb] is the
    bottom-up recomputation the loops of updateWithSideNodes and
    deleteWithSideNodes perform, and computes the hash of [rebuild]. *)

From S2P Require Import Prelude Utils MapStore TreeHasher Effects Proofs Smt Trie.
From S2P Require Import Merkle Store.

Section walk.
Context {HS : Hasher}.

(** ** The siblings and the spine of a path *)

(** The values of the inner nodes above [e], from the top. *)
Fixpoint spine (p : bytes) (d : nat) (sibs : list tree) (e : tree) : list bytes :=
  match sibs with
  | [] => []
  | s :: sibs' => tdata (rebuild p d sibs e) :: spine p (S d) sibs' e
  end.

Definition sibset (sibs : list tree) : gset bytes := ⋃ (dataset <$> sibs).
Definition sibpre (sibs : list tree) : gset bytes := ⋃ (preimages <$> sibs).

Lemma sibset_nil : sibset [] = ∅.
Proof. done. Qed.
Lemma sibpre_nil : sibpre [] = ∅.
Proof. done. Qed.
Lemma sibset_cons s sibs : sibset (s :: sibs) = dataset s ∪ sibset sibs.
Proof. done. Qed.
Lemma sibpre_cons s sibs : sibpre (s :: sibs) = preimages s ∪ sibpre sibs.
Proof. done. Qed.

Lemma sibset_app s1 s2 : sibset (s1 ++ s2) = sibset s1 ∪ sibset s2.
Proof.
  induction s1 as [|s s1 IH]; simpl; [rewrite sibset_nil; set_solver|].
  rewrite !sibset_cons, IH. set_solver.
Qed.

Lemma sibset_pre sibs : sibset sibs ⊆ sibpre sibs.
Proof.
  induction sibs as [|s sibs IH]; [done|]. rewrite sibset_cons, sibpre_cons.
  unfold preimages. set_solver.
Qed.

Lemma sibset_replicate_Empty n : sibset (replicate n Empty) = ∅.
Proof. induction n as [|n IH]; [done|]. simpl. rewrite sibset_cons, IH. set_solver. Qed.

Lemma dataset_rebuild p d sibs e :
  dataset (rebuild p d sibs e) = list_to_set (spine p d sibs e) ∪ sibset sibs ∪ dataset e.
Proof.
  revert d. induction sibs as [|s sibs IH]; intros d.
  - simpl. rewrite sibset_nil. set_solver.
  - cbn [rebuild spine]. rewrite dataset_join, IH, sibset_cons, list_to_set_cons. set_solver.
Qed.

Lemma preimages_rebuild p d sibs e :
  preimages (rebuild p d sibs e) =
    list_to_set (spine p d sibs e) ∪ sibpre sibs ∪ preimages e.
Proof.
  revert d. induction sibs as [|s sibs IH]; intros d.
  - simpl. rewrite sibpre_nil. set_solver.
  - cbn [rebuild spine]. rewrite preimages_join, IH, sibpre_cons, list_to_set_cons.
    set_solver.
Qed.

Lemma rebuild_app p d s1 s2 e :
  rebuild p d (s1 ++ s2) e = rebuild p d s1 (rebuild p (d + length s1) s2 e).
Proof.
  revert d. induction s1 as [|s s1 IH]; intros d; simpl; [by rewrite Nat.add_0_r|].
  by rewrite IH, <-Nat.add_succ_comm.
Qed.

(** The spine, the siblings and the end of a path are disjoint sets of
    values, and the spine has no repetition. *)
Lemma rebuild_disjoint U (CF : collision_free U) pre p sibs e :
  wf pre (rebuild p (length pre) sibs e) →
  preimages (rebuild p (length pre) sibs e) ⊆ U →
  NoDup (spine p (length pre) sibs e) ∧
  list_to_set (spine p (length pre) sibs e) ## sibset sibs ∪ dataset e ∧
  sibset sibs ## dataset e.
Proof.
  revert pre. induction sibs as [|s sibs IH]; intros pre W HU; cbn [rebuild spine].
  { rewrite sibset_nil. split; [constructor|split; set_solver]. }
  cbn [rebuild] in W, HU.
  destruct (join_disjoint U CF _ _ _ _ W HU) as (D1 & D2 & D3).
  rewrite preimages_join in HU. apply wf_join in W as (W1 & W2 & _).
  specialize (IH (pre ++ [bit p (length pre)])).
  rewrite length_app, Nat.add_1_r in IH.
  destruct IH as (H1 & H2 & H3); [done|set_solver|].
  rewrite dataset_rebuild in D1, D3.
  rewrite sibset_cons, list_to_set_cons. split_and!.
  - constructor; [|done]. intros Hin. apply D1. by apply elem_of_union_l,
      elem_of_union_l, elem_of_list_to_set.
  - set_solver.
  - set_solver.
Qed.

(** The values of a stored tree, split along a path. *)
Lemma path_sets U (CF : collision_free U) p t :
  wf [] t → preimages t ⊆ U →
  let sibs := (descend p 0 t).1 in
  let e := (descend p 0 t).2 in
  NoDup (spine p 0 sibs e) ∧ dataset t ⊆ U ∧
  dataset t = list_to_set (spine p 0 sibs e) ∪ sibset sibs ∪ dataset e ∧
  list_to_set (spine p 0 sibs e) ## sibset sibs ∪ dataset e ∧ sibset sibs ## dataset e.
Proof.
  intros W HU. cbn zeta. pose proof (rebuild_descend p 0 t) as Ht.
  pose proof W as W'. pose proof HU as HU'. rewrite <-Ht in W', HU'.
  destruct (rebuild_disjoint U CF [] p _ _ W' HU') as (H1 & H2 & H3).
  split_and!; try done; [unfold preimages in HU; clear -HU; set_solver|].
  rewrite <-Ht at 1. apply dataset_rebuild.
Qed.

Lemma path_univ U p t :
  preimages t ⊆ U →
  preimages (descend p 0 t).2 ⊆ U ∧ sibpre (descend p 0 t).1 ⊆ U.
Proof.
  rewrite <-(rebuild_descend p 0 t) at 1. rewrite preimages_rebuild. clear. set_solver.
Qed.

(** ** Climbing *)

(** From the bottom: one side node per level, the position of the bit being
    [base] plus the number of side nodes left. *)
Fixpoint climb (p : bytes) (base : nat) (sns : list bytes) (cur : bytes) : prog bytes :=
  match sns with
  | [] => Ret cur
  | sn :: sns' =>
      b ← lift (getBitAtFromMSB p (base + length sns'));
      let '(h, d) :=
        if (b =? right)%Z then digestNodeInto sn cur else digestNodeInto cur sn in
      nodes_Set h d ;;
      climb p base sns' h
  end.

Lemma climb_app p base l1 l2 cur (s : refstate) :
  run (climb p base (l1 ++ l2) cur) s =
  run (cur' ← climb p (base + length l2) l1 cur; climb p base l2 cur') s.
Proof.
  revert cur s. induction l1 as [|x l1 IH]; intros cur s; [done|].
  cbn [app climb]. rewrite length_app.
  replace (base + (length l1 + length l2)) with (base + length l2 + length l1) by lia.
  rewrite !run_bind. destruct (run (lift _) s) as [[b| |] s1]; [|done..].
  destruct (if (b =? right)%Z then _ else _) as [h d].
  rewrite !run_bind. destruct (run (nodes_Set h d) s1) as [[| |] s2]; [|done..].
  rewrite IH. by rewrite run_bind.
Qed.

Lemma digest_join b x y :
  (if (Z_of_bit b =? right)%Z then digestNodeInto (thash y) (thash x)
   else digestNodeInto (thash x) (thash y)) =
  (thash (join b x y), tdata (join b x y)).
Proof. by destruct b. Qed.

Lemma join_not_Empty b x y : join b x y ≠ Empty.
Proof. by destruct b. Qed.

Lemma run_climb U (CF : collision_free U) p sibs :
  ∀ d e E M r, E ⊆ U → list_to_set (spine p d sibs e) ⊆ U →
    d + length sibs ≤ length (bits p) →
    run (climb p d (thash <$> reverse sibs) (thash e)) (tree_state E M r) =
      (Ok (thash (rebuild p d sibs e)),
       tree_state (list_to_set (spine p d sibs e) ∪ E) M r).
Proof.
  induction sibs as [|s sibs IH]; intros d e E M r HE Hsp Hlen.
  { simpl. unfold run. do 2 f_equal. set_solver. }
  cbn [spine] in *. rewrite list_to_set_cons in *.
  rewrite reverse_cons, fmap_app, climb_app. cbn [length fmap list_fmap].
  cbn [length] in Hlen. rewrite Nat.add_1_r.
  erewrite run_bind_Ok by (apply IH; [done|set_solver|lia]).
  cbn [climb length]. rewrite Nat.add_0_r.
  assert (d < length (bits p)) as Hd by lia.
  erewrite run_bind_Ok
    by (apply run_lift_Ok, getBitAtFromMSB_ok, bit_lookup, Hd).
  rewrite digest_join, (thash_tdata _ (join_not_Empty _ _ _)).
  erewrite run_bind_Ok by (eapply run_nodes_Set; set_solver).
  rewrite run_Ret. cbn [rebuild]. rewrite (thash_tdata _ (join_not_Empty _ _ _)).
  do 2 f_equal. set_solver.
Qed.

(** The final loop of updateWithSideNodes climbs along the side nodes,
    preceded by placeholders down to the common prefix. *)
Lemma updateWithSideNodes_loop_climb p sns cpc n i cur (s : refstate) :
  i + n = depth → length sns ≤ depth → cpc ≤ depth →
  let L := replicate (if bool_decide (cpc = depth) then 0 else cpc - length sns) placeholder
           ++ sns in
  run (updateWithSideNodes_loop p sns cpc n i cur) s =
  run (climb p 0 (drop (length L - n) L) cur) s.
Proof.
  intros Hn Hsns Hcpc L.
  assert (length L = (if bool_decide (cpc = depth) then 0 else cpc - length sns)
                     + length sns) as HL.
  { subst L. by rewrite length_app, length_replicate. }
  revert i cur s Hn. induction n as [|n IH]; intros i cur s Hn.
  { rewrite drop_ge by lia. done. }
  cbn [updateWithSideNodes_loop].
  destruct (decide (length L ≤ n)) as [Hle|Hgt].
  - rewrite (run_bind_Ok _ _ _ None s).
    + rewrite IH by lia. do 2 f_equal. f_equal. lia.
    + rewrite (proj2 (Z.ltb_lt _ _)) by (case_bool_decide; lia).
      destruct (bool_decide (cpc ≠ depth)) eqn:E; [|done].
      apply bool_decide_eq_true in E. rewrite bool_decide_false in HL by done.
      destruct (Z.gtb_spec (Z.of_nat cpc) (Z.of_nat depth - 1 - Z.of_nat i)); [lia|done].
  - destruct (lookup_lt_is_Some_2 L (length L - S n)) as [x Hx]; [lia|].
    rewrite (drop_S _ _ _ Hx). replace (S (length L - S n)) with (length L - n) by lia.
    rewrite (run_bind_Ok _ _ _ (Some x) s).
    + cbn [climb]. rewrite length_drop.
      replace (0 + (length L - (length L - n))) with (depth - 1 - i) by lia.
      rewrite !run_bind. destruct (run (lift _) s) as [[b| |] s1]; [|done..].
      destruct (if (b =? right)%Z then _ else _) as [h d].
      rewrite !run_bind. destruct (run (nodes_Set h d) s1) as [[| |] s2]; [|done..].
      by apply IH; lia.
    + subst L. destruct (Z.ltb_spec (Z.of_nat i - (Z.of_nat depth - Z.of_nat (length sns))) 0)
        as [Hlt|Hge].
      * rewrite lookup_app_l in Hx by (rewrite length_replicate; lia).
        apply lookup_replicate in Hx as [-> Hx].
        destruct (bool_decide (cpc = depth)) eqn:E; [lia|].
        apply bool_decide_eq_false in E. rewrite bool_decide_true by done.
        rewrite (proj2 (Z.gtb_lt _ _)) by lia. done.
      * rewrite lookup_app_r in Hx by (rewrite length_replicate; lia).
        rewrite length_replicate in Hx.
        replace (Z.to_nat _) with
          (length (replicate (if bool_decide (cpc = depth) then 0 else cpc - length sns)
            placeholder ++ sns) - S n
           - (if bool_decide (cpc = depth) then 0 else cpc - length sns)) by lia.
        unfold index. rewrite Hx. done.
Qed.

(** ** Walking down *)

(** The values of the subtrees on a path. *)
Fixpoint branch (p : bytes) (d : nat) (t : tree) : list bytes :=
  match t with
  | Empty => []
  | Leaf _ _ => [tdata t]
  | Node l r => tdata t :: branch p (S d) (if bit p d then r else l)
  end.

Definition end_list (e : tree) : list bytes :=
  match e with Empty => [] | _ => [tdata e] end.

Lemma branch_spine p d t :
  branch p d t = spine p d (descend p d t).1 (descend p d t).2 ++ end_list (descend p d t).2.
Proof.
  revert d. induction t as [|q w|l IHl r IHr]; intros d; [done..|].
  cbn [branch]. pose proof (rebuild_descend p d (Node l r)) as Hr.
  rewrite descend_node in *. cbn [fst snd spine] in *. rewrite Hr. cbn [app].
  f_equal. destruct (bit p d); [apply IHr|apply IHl].
Qed.

Lemma branch_head p d t : t ≠ Empty → tdata t ∈ (list_to_set (branch p d t) : gset bytes).
Proof. destruct t; [done|..]; cbn [branch]; intros _; rewrite list_to_set_cons; set_solver. Qed.

Lemma branch_dataset p d t : list_to_set (branch p d t) ⊆ dataset t.
Proof.
  revert d. induction t as [|q w|l IHl r IHr]; intros d; cbn [branch].
  - done.
  - rewrite list_to_set_cons. cbn. clear. set_solver.
  - rewrite list_to_set_cons, dataset_node. specialize (IHl (S d)). specialize (IHr (S d)).
    destruct (bit p d); clear -IHl IHr; set_solver.
Qed.

(** The leaf data [fillSideNodes] reports: nil for a placeholder. *)
Definition end_data (e : tree) : option bytes :=
  match e with Empty => None | _ => Some (tdata e) end.

(** What the loop does once it chose the child with hash [h]. *)
Definition visit (p : bytes) (n d : nat) (sib h : bytes) (sns pns : list bytes)
    : prog (list bytes * list bytes * bytes * option bytes) :=
  if bytes_Equal h placeholder then Ret (sns ++ [sib], pns ++ [h], sib, None)
  else
    currentData ← nodes_Get h;
    leaf ← lift (isLeaf currentData);
    if (leaf : bool) then Ret (sns ++ [sib], pns ++ [h], sib, Some currentData)
    else fillSideNodes_loop p n (S d) currentData sib (sns ++ [sib]) (pns ++ [h]).

Lemma fillSideNodes_loop_step p n d l r sd sns pns (s : refstate) :
  d < length (bits p) →
  run (fillSideNodes_loop p (S n) d (tdata (Node l r)) sd sns pns) s =
  run (visit p n d (thash (if bit p d then l else r)) (thash (if bit p d then r else l))
         sns pns) s.
Proof.
  intros Hd. cbn [fillSideNodes_loop tdata].
  erewrite run_bind_Ok by (apply run_lift_Ok, parseNode_node_data, length_thash).
  cbn beta iota.
  erewrite run_bind_Ok by (apply run_lift_Ok, getBitAtFromMSB_ok, bit_lookup, Hd).
  by destruct (bit p d).
Qed.

(** The walk below a subtree [t] at position [pre], from the visit of [t]:
    the siblings, the hashes of the path and the data of its end. *)
Lemma visit_run U (CF : collision_free U) p E M r :
  length p = hsize → E ⊆ U →
  ∀ t pre n d sns pns sib,
    wf pre t → pre `prefix_of` bits p → length pre = S d → n + S d = depth →
    list_to_set (branch p (S d) t) ⊆ E → preimages t ⊆ U →
    let sibs := (descend p (S d) t).1 in
    let e := (descend p (S d) t).2 in
    run (visit p n d sib (thash t) sns pns) (tree_state E M r) =
      (Ok (sns ++ sib :: (thash <$> sibs),
           pns ++ (hsum <$> spine p (S d) sibs e) ++ [thash e],
           default sib (last (thash <$> sibs)), end_data e),
       tree_state E M r).
Proof.
  intros Hp HE t. induction t as [|q w|l IHl r0 IHr];
    intros pre n d sns pns sib W Pp Hd Hn HD HU; unfold visit, bytes_Equal.
  { by rewrite bool_decide_true. }
  all: rewrite bool_decide_false by (by eapply tdata_hash_ne).
  all: rewrite thash_tdata at 1 by done.
  all: erewrite run_bind_Ok
    by (apply (run_nodes_Get U CF); [done|by apply HD, branch_head]).
  { by erewrite run_bind_Ok by (apply run_lift_Ok, isLeaf_leaf_data). }
  erewrite run_bind_Ok by (apply run_lift_Ok, isLeaf_node_data). cbn beta iota.
  pose proof (descend_wf _ _ _ W Pp Hp) as (Hlen & _ & _). rewrite Hd in Hlen.
  pose proof (rebuild_descend p (S d) (Node l r0)) as Hreb.
  rewrite descend_node in Hlen, Hreb |- *. cbn [fst snd length] in *.
  assert (length (bits p) = depth) as Hdep
    by (rewrite length_bits, Hp; unfold depth, pathSize; lia).
  destruct n as [|n]; [lia|].
  rewrite fillSideNodes_loop_step by lia.
  pose proof (prefix_snoc pre p Pp ltac:(lia)) as Pp'. rewrite Hd in Pp'.
  apply wf_node in W as (Wl & Wr & _).
  cbn [branch] in HD. rewrite list_to_set_cons in HD. apply union_subseteq in HD as [_ HD].
  rewrite preimages_node in HU. apply union_subseteq in HU as [[_ Ul]%union_subseteq Ur].
  cbn [spine]. rewrite Hreb.
  assert (length (pre ++ [bit p (S d)]) = S (S d)) by (rewrite length_app; simpl; lia).
  destruct (bit p (S d)); [erewrite IHr by (done || lia)|erewrite IHl by (done || lia)].
  all: rewrite !fmap_cons, <-!app_assoc; cbn [app]; rewrite !last_cons; by destruct (last _).
Qed.

(** The last sibling on a path is never empty: its node has two leaves. *)
Lemma last_sibling pre p t s :
  wf pre t → last (descend p (length pre) t).1 = Some s → s ≠ Empty ∧ tdata s ∈ dataset t.
Proof.
  revert pre. induction t as [|q w|l IHl r IHr]; intros pre W; [done..|].
  rewrite descend_node. cbn [fst]. rewrite last_cons. apply wf_node in W as (Wl & Wr & Hn).
  rewrite dataset_node.
  specialize (IHl (pre ++ [false]) Wl). specialize (IHr (pre ++ [true]) Wr).
  rewrite length_app, Nat.add_1_r in IHl, IHr.
  destruct (bit p (length pre));
    [destruct (last (descend p (S (length pre)) r).1) as [x|] eqn:E
    |destruct (last (descend p (S (length pre)) l).1) as [x|] eqn:E].
  1: intros [= ->]; destruct (IHr eq_refl); split; [done|by apply elem_of_union_r].
  2: intros [= ->]; destruct (IHl eq_refl);
    split; [done|by apply elem_of_union_l, elem_of_union_r].
  all: apply last_None in E; intros [= ->].
  - assert (s ≠ Empty) as Hs.
    { intros ->. destruct r as [| |r1 r2]; simpl in Hn; [lia..|].
      rewrite descend_node in E. discriminate. }
    split; [done|]. by apply elem_of_union_l, elem_of_union_r, tdata_in_dataset.
  - assert (s ≠ Empty) as Hs.
    { intros ->. destruct l as [| |l1 l2]; simpl in Hn; [lia..|].
      rewrite descend_node in E. discriminate. }
    split; [done|]. by apply elem_of_union_r, tdata_in_dataset.
Qed.

(** [fillSideNodes] on a tree of which the path is stored, and the last
    sibling if its data is asked for: the side nodes are the siblings of the
    path from the bottom, the path nodes its subtrees from the bottom. *)
Lemma fillSideNodes_run_part U (CF : collision_free U) p E M r t (getSib : bool) :
  length p = hsize → E ⊆ U → wf [] t → preimages t ⊆ U →
  list_to_set (branch p 0 t) ⊆ E →
  (getSib = true → ∀ s, last (descend p 0 t).1 = Some s → tdata s ∈ E) →
  let sibs := (descend p 0 t).1 in
  let e := (descend p 0 t).2 in
  run (fillSideNodes p (thash t) getSib) (tree_state E M r) =
    (Ok (mkPathSlices (thash <$> reverse sibs) (thash e :: (hsum <$> reverse (spine p 0 sibs e))),
         end_data e,
         if getSib then tdata <$> last sibs else None),
     tree_state E M r).
Proof.
  intros Hp HE W HU HD HD0. unfold fillSideNodes, bytes_Equal.
  destruct t as [|q w|l r0].
  { rewrite bool_decide_true by done. by destruct getSib. }
  all: rewrite bool_decide_false by (by eapply tdata_hash_ne).
  all: rewrite thash_tdata at 1 by done.
  all: erewrite run_bind_Ok
    by (apply (run_nodes_Get U CF); [done|by apply HD, branch_head]).
  { erewrite run_bind_Ok by (apply run_lift_Ok, isLeaf_leaf_data). by destruct getSib. }
  erewrite run_bind_Ok by (apply run_lift_Ok, isLeaf_node_data). cbn beta iota zeta.
  pose proof (descend_wf [] p _ W (prefix_nil _) Hp) as (Hlen & _ & _).
  pose proof (rebuild_descend p 0 (Node l r0)) as Hreb.
  pose proof (λ s, last_sibling [] p _ s W) as Hlast.
  rewrite descend_node in Hlen, Hreb, Hlast, HD0 |- *. cbn [fst snd length Nat.add] in *.
  assert (length (bits p) = depth) as Hdep
    by (rewrite length_bits, Hp; unfold depth, pathSize; lia).
  destruct depth as [|n] eqn:Edep; [lia|].
  rewrite (run_bind _ _ (tree_state E M r)), fillSideNodes_loop_step by lia.
  pose proof (prefix_snoc [] p (prefix_nil _) ltac:(simpl; lia)) as Pp'.
  apply wf_node in W as (Wl & Wr & _).
  cbn [branch] in HD. rewrite list_to_set_cons in HD. apply union_subseteq in HD as [_ HD].
  rewrite preimages_node in HU. apply union_subseteq in HU as [[_ Ul]%union_subseteq Ur].
  rewrite (visit_run U CF p E M r Hp HE _ ([] ++ [bit p 0]) n 0);
    [|by destruct (bit p 0)|done|done|rewrite Edep; lia|by destruct (bit p 0)..].
  cbn beta iota. cbn [spine]. rewrite Hreb.
  set (sibs := (if bit p 0 then l else r0) :: _) in *.
  set (e := (descend p 1 _).2).
  set (sp := spine _ _ _ _).
  rewrite (run_bind_Ok _ _ _ (if getSib then tdata <$> last sibs else None)
             (tree_state E M r)).
  - rewrite !reverseByteSlicesInPlace_spec. cbn [lift mbind prog_bind]. rewrite run_Ret.
    rewrite !fmap_reverse. cbn [app].
    replace (reverse (thash (Node l r0) :: (hsum <$> sp) ++ [thash e]))
      with (thash e :: reverse (hsum <$> tdata (Node l r0) :: sp)); [done|].
    by rewrite fmap_cons, !reverse_cons, reverse_app.
  - destruct getSib; [|done].
    destruct (last sibs) as [s|] eqn:El; [|by apply last_None in El].
    destruct (Hlast s eq_refl) as [Hne _].
    replace (default _ _) with (thash s).
    + rewrite thash_tdata by done. erewrite run_bind_Ok; [done|].
      apply (run_nodes_Get U CF); [done|]. by apply HD0.
    + subst sibs. rewrite last_cons in El. rewrite fmap_last.
      destruct (last _) as [y|]; simpl in *; congruence.
Qed.

(** With the whole tree stored. *)
Lemma fillSideNodes_run U (CF : collision_free U) p E M r t getSib :
  length p = hsize → E ⊆ U → wf [] t → dataset t ⊆ E → preimages t ⊆ U →
  let sibs := (descend p 0 t).1 in
  let e := (descend p 0 t).2 in
  run (fillSideNodes p (thash t) getSib) (tree_state E M r) =
    (Ok (mkPathSlices (thash <$> reverse sibs) (thash e :: (hsum <$> reverse (spine p 0 sibs e))),
         end_data e,
         if getSib then tdata <$> last sibs else None),
     tree_state E M r).
Proof.
  intros Hp HE W HD HU. apply (fillSideNodes_run_part U CF); try done.
  - etrans; [apply branch_dataset|done].
  - intros _ s Hs. by apply HD, (last_sibling [] p t s W).
Qed.
End walk.
