(* ===== verification/SmtUpdate.v ===== *)
(** * Update on the reference state.

    [run_UpdateForRoot_insert]: on the state that holds exactly a well-formed
    tree, an update with a non-default value ends in the state that holds
    exactly the tree of [tinsert], whichever way the walk ends. *)

From S2P Require Import Prelude Utils MapStore TreeHasher Effects Proofs Smt Trie.
From S2P Require Import Merkle Store Walk.

Section update.
Context {HS : Hasher} (U : gset bytes) (CF : collision_free U).

Lemma length_bits_depth p : length p = hsize → length (bits p) = depth.
Proof. intros Hp. rewrite length_bits, Hp. unfold depth, pathSize. lia. Qed.

Lemma fmap_replicate_Empty k : thash <$> replicate k Empty = replicate k placeholder.
Proof. by rewrite fmap_replicate. Qed.

(** The common end of updateWithSideNodes: delete the old spine, climb, set
    the value. *)
Lemma update_finish p v sibs e k e1 cpc E M r :
  length p = hsize → E ⊆ U →
  NoDup (spine p 0 sibs e) → list_to_set (spine p 0 sibs e) ⊆ E →
  list_to_set (spine p 0 (sibs ++ replicate k Empty) e1) ⊆ U →
  length sibs + k ≤ depth → cpc ≤ depth →
  k = (if bool_decide (cpc = depth) then 0 else cpc - length sibs) →
  run (for_each (hsum <$> reverse (spine p 0 sibs e)) nodes_Delete ;;
       newRoot ← updateWithSideNodes_loop p (thash <$> reverse sibs) cpc depth 0 (thash e1);
       values_Set p v ;;
       Ret newRoot) (tree_state E M r) =
    (Ok (thash (rebuild p 0 (sibs ++ replicate k Empty) e1)),
     tree_state (list_to_set (spine p 0 (sibs ++ replicate k Empty) e1) ∪
                 E ∖ list_to_set (spine p 0 sibs e)) (<[p := v]> M) r).
Proof.
  intros Hp HE Hnd Hsp Hsp' Hlen Hcpc Hk.
  erewrite run_bind_Ok.
  2: { apply (run_nodes_Delete_all U CF); [done|by rewrite reverse_Permutation|by rewrite list_to_set_reverse]. }
  rewrite list_to_set_reverse, run_bind.
  rewrite updateWithSideNodes_loop_climb; [|lia|rewrite length_fmap, length_reverse; lia|done].
  rewrite length_fmap, length_reverse, <-Hk.
  rewrite (proj2 (Nat.sub_0_le _ _))
    by (rewrite length_app, length_replicate, length_fmap, length_reverse; lia).
  rewrite drop_0, <-fmap_replicate_Empty, <-fmap_app.
  rewrite <-(reverse_replicate k Empty), <-reverse_app.
  rewrite (run_climb U CF); [|set_solver|done|].
  - cbn beta iota.
    rewrite (run_bind_Ok _ _ _ _ _ (run_values_Set _ _ _ _ v Hp)).
    by rewrite !reverse_replicate.
  - rewrite length_app, length_replicate, (length_bits_depth p Hp). lia.
Qed.

(** A program of the form "Set the new leaf, ..., finish". *)
Lemma update_new_leaf p v E M r {A} (k : unit → prog A) :
  E ⊆ U → tdata (Leaf p v) ∈ U →
  run (nodes_Set (thash (Leaf p v)) (tdata (Leaf p v)) ≫= k) (tree_state E M r) =
  run (k tt) (tree_state ({[tdata (Leaf p v)]} ∪ E) M r).
Proof. intros HE Hd. by erewrite run_bind_Ok by by apply (run_nodes_Set U CF). Qed.

(** Where the parts of a rebuilt tree sit. *)
Lemma wf_rebuild_end p pre sibs e :
  wf pre (rebuild p (length pre) sibs e) →
  ∃ pre', length pre' = length pre + length sibs ∧ wf pre' e.
Proof.
  revert pre. induction sibs as [|s sibs IH]; intros pre W.
  { exists pre. by rewrite Nat.add_0_r. }
  cbn [rebuild] in W. apply wf_join in W as (W & _ & _).
  specialize (IH (pre ++ [bit p (length pre)])).
  rewrite length_app, Nat.add_1_r in IH. destruct (IH W) as (pre' & Hl & We).
  exists pre'. simpl. split; [lia|done].
Qed.

Lemma spine_inv p pre sibs e x :
  wf pre (rebuild p (length pre) sibs e) → x ∈ spine p (length pre) sibs e →
  ∃ pre' l r, x = tdata (Node l r) ∧ wf pre' (Node l r) ∧
    length pre' < length pre + length sibs ∧
    preimages (Node l r) ⊆ preimages (rebuild p (length pre) sibs e).
Proof.
  revert pre. induction sibs as [|s sibs IH]; intros pre W; cbn [spine].
  { by intros ?%not_elem_of_nil. }
  cbn [rebuild length] in *. intros [->|Hx]%elem_of_cons.
  - destruct (join _ _ _) as [| |l r] eqn:E; [by destruct (bit p (length pre))..|].
    exists pre, l, r. split_and!; [done|done|lia|done].
  - rewrite preimages_join. apply wf_join in W as (W & _ & _).
    specialize (IH (pre ++ [bit p (length pre)])).
    rewrite length_app, Nat.add_1_r in IH.
    destruct (IH W Hx) as (pre' & l & r & -> & Wn & Hl & HU).
    exists pre', l, r. split_and!; [done|done|lia|]. clear -HU. set_solver.
Qed.

(** A node at the end of a path is not on the spine of another tree with the
    same path above it. *)
Lemma end_not_spine p sibs sibs' e b x y :
  wf [] (rebuild p 0 sibs e) → preimages (rebuild p 0 sibs e) ⊆ U →
  wf [] (rebuild p 0 sibs' (join b x y)) →
  preimages (rebuild p 0 sibs' (join b x y)) ⊆ U →
  length sibs ≤ length sibs' →
  tdata (join b x y) ∉ (list_to_set (spine p 0 sibs e) : gset bytes).
Proof.
  intros W HU W' HU' Hlen. rewrite elem_of_list_to_set. intros Hin.
  destruct (spine_inv p [] sibs e _ W Hin) as (pre1 & l & r & Heq & Wn & Hl & HUn).
  destruct (wf_rebuild_end p [] sibs' _ W') as (pre2 & Hl2 & We).
  assert (join b x y = Node l r) as Ej.
  { eapply (tdata_inj U CF); try done.
    - rewrite preimages_rebuild in HU'. clear -HU'. set_solver.
    - by etrans.
    - by apply join_not_Empty. }
  rewrite Ej in We. rewrite (wf_node_pos l r pre1 pre2 Wn We) in Hl. simpl in *. lia.
Qed.

Context (key value : bytes) (Hv : value ≠ []).
Let p := path key.
Let Hp : length p = hsize := length_path key.

Section on_tree.
Context (t : tree) (Wt : wf [] t).
Context (HU : preimages t ⊆ U) (HU' : preimages (tinsert 0 p value t) ⊆ U).
Let sibs := (descend p 0 t).1.
Let e := (descend p 0 t).2.

Lemma wf_new_leaf : wf [] (Leaf p value).
Proof. split_and!; [done|done|apply prefix_nil]. Qed.

Lemma insert_facts :
  t = rebuild p 0 sibs e ∧
  tinsert 0 p value t = rebuild p 0 sibs (tinsert (length sibs) p value e) ∧
  length sibs ≤ depth ∧ wf (take (length sibs) (bits p)) e ∧
  tmap t !! p = tmap e !! p ∧
  tmap (tinsert 0 p value t) = <[p := value]> (tmap t) ∧
  wf [] (tinsert 0 p value t).
Proof.
  destruct (descend_wf [] p t Wt (prefix_nil _) Hp) as (H1 & H2 & H3).
  destruct (tinsert_spec [] p value t Wt wf_new_leaf) as (H4 & _ & _ & H5).
  split_and!; try done.
  - symmetry. apply rebuild_descend.
  - apply (tinsert_descend p value 0 t).
  - by rewrite <-(length_bits_depth p Hp).
Qed.

(** The state in which the walk finds the tree. *)
Let before := tree_state (dataset t) (tmap t) (thash t).
Let after := tree_state (dataset (tinsert 0 p value t)) (tmap (tinsert 0 p value t)) (thash t).
Let upd := updateWithSideNodes p value (thash <$> reverse sibs)
             (thash e :: (hsum <$> reverse (spine p 0 sibs e))) (end_data e).

Lemma sets_before :
  NoDup (spine p 0 sibs e) ∧ dataset t ⊆ U ∧
  dataset t = list_to_set (spine p 0 sibs e) ∪ sibset sibs ∪ dataset e ∧
  list_to_set (spine p 0 sibs e) ## sibset sibs ∪ dataset e ∧ sibset sibs ## dataset e.
Proof. exact (path_sets U CF p t Wt HU). Qed.

(** Leaves do not occur on a spine. *)
Lemma leaf_not_spine q w d sibs' e' :
  leaf_data q w ∉ (list_to_set (spine p d sibs' e') : gset bytes).
Proof.
  rewrite elem_of_list_to_set. revert d. induction sibs' as [|s sibs' IH]; intros d;
    cbn [spine]; [apply not_elem_of_nil|].
  intros [Heq|Hin]%elem_of_cons; [|by eapply IH].
  cbn [rebuild] in Heq. destruct (bit p d); by apply leaf_node_data in Heq.
Qed.

(** Replacing the spine [S] by [S'] after adding [X]. *)
Lemma swap_spine (S S' B X : gset bytes) :
  S ## B → S ## X → S' ∪ (X ∪ (S ∪ B)) ∖ S = S' ∪ B ∪ X.
Proof. intros. apply set_eq. intros x. set_solver. Qed.

Lemma swap_spine_node (S S' B C X Y : gset bytes) :
  S ## B ∪ C → S ## X → S ## Y →
  S' ∪ (X ∪ (Y ∪ (S ∪ B ∪ C))) ∖ S = S' ∪ B ∪ (X ∪ Y ∪ C).
Proof. intros. apply set_eq. intros x. set_solver. Qed.

Lemma after_eq sibs' e' :
  tinsert 0 p value t = rebuild p 0 sibs' e' →
  list_to_set (spine p 0 sibs' e') ∪ sibset sibs' ∪ dataset e' =
    dataset (tinsert 0 p value t) ∧
  list_to_set (spine p 0 sibs' e') ⊆ U ∧ preimages e' ⊆ U.
Proof.
  intros Heq. rewrite Heq, dataset_rebuild. split; [done|].
  rewrite Heq, preimages_rebuild in HU'. set_solver.
Qed.

(** The start of an update: the new leaf is set. *)
Ltac start_update :=
  subst upd before; unfold updateWithSideNodes;
  change (digestLeafInto p (digestInto value))
    with (thash (Leaf p value), tdata (Leaf p value)); cbn beta iota zeta;
  rewrite update_new_leaf by done;
  cbn [index lookup list_lookup lift mbind prog_bind]; unfold bytes_Equal.

(** The walk ended at a leaf, [He : e = Leaf q w], which is parsed. *)
Ltac parse_end_leaf He q w :=
  replace (thash e) with (thash (Leaf q w)) by (by rewrite He);
  replace (end_data e) with (Some (leaf_data q (hsum w))) by (by rewrite He);
  rewrite bool_decide_false by (by eapply (tdata_hash_ne U CF));
  cbn [of_nil default id];
  rewrite parseLeaf_leaf_data by done; cbn [lift mbind prog_bind].

Lemma end_univ : preimages e ⊆ U.
Proof. by destruct (path_univ U p t HU). Qed.

Lemma new_leaf_univ : tdata (Leaf p value) ∈ U → {[tdata (Leaf p value)]} ∪ dataset t ⊆ U.
Proof.
  intros Hl. destruct sets_before as (_ & HE & _).
  apply union_least; [by apply singleton_subseteq_l|done].
Qed.

(** The walk ends at a placeholder: the leaf is added there. *)
Lemma update_at_empty : e = Empty → run upd before = (Ok (thash (tinsert 0 p value t)), after).
Proof.
  intros He. destruct sets_before as (Hnd & HE & Hds & Hsp & _).
  destruct insert_facts as (_ & Ht' & Hlen & _ & _ & Hmap & _).
  rewrite He in Ht'. cbn [tinsert] in Ht'.
  destruct (after_eq sibs (Leaf p value) Ht') as (Hafter & HspU & HeU).
  assert (tdata (Leaf p value) ∈ U) as HlU by (unfold preimages in HeU; set_solver).
  start_update. rewrite He. cbn [thash]. rewrite bool_decide_true by done. cbn [mbind prog_bind].
  rewrite bool_decide_false by (intros E; by apply E). cbn [mbind prog_bind drop].
  rewrite <-He.
  erewrite (update_finish p value sibs e 0 (Leaf p value)); try done.
  - cbn [replicate]. rewrite app_nil_r, <-Ht'. subst after. rewrite Hmap. do 2 f_equal.
    rewrite <-Hafter, Hds, He in *. cbn [dataset] in *. rewrite (right_id_L ∅ (∪)) in *.
    apply swap_spine; [done|]. by apply disjoint_singleton_r, leaf_not_spine.
  - by apply new_leaf_univ.
  - rewrite Hds. clear. set_solver.
  - cbn [replicate]. by rewrite app_nil_r.
  - lia.
  - by rewrite bool_decide_true.
Qed.

(** The walk ends at a leaf with another path: the two leaves are put
    below a chain of nodes. *)
Lemma update_at_other_leaf q w :
  e = Leaf q w → q ≠ p → run upd before = (Ok (thash (tinsert 0 p value t)), after).
Proof.
  intros He Hne. destruct sets_before as (Hnd & HE & Hds & Hsp & _).
  destruct insert_facts as (Ht & Ht' & Hlen & We & _ & Hmap & Wt').
  rewrite He in We, Ht'. cbn [tinsert] in Ht'. destruct We as (Hq & Hw & Pq).
  rewrite bool_decide_false in Ht' by congruence.
  destruct (lcp_lt_hsize p q Hp Hq (not_eq_sym Hne)) as [Hc _].
  assert (length sibs ≤ lcp (bits p) (bits q)) as Hn.
  { transitivity (length (take (length sibs) (bits p))).
    - rewrite length_take, (length_bits_depth p Hp). lia.
    - by apply lcp_prefix; [apply prefix_take|]. }
  unfold tsplit in Ht'. set (c := lcp (bits p) (bits q)) in *.
  rewrite <-(rebuild_app p 0) in Ht'.
  set (J := join (bit p c) (Leaf p value) (Leaf q w)) in *.
  destruct (after_eq _ J Ht') as (Hafter & HspU & HeU).
  assert (dataset J ⊆ U) as HlU by (unfold preimages in HeU; clear -HeU; set_solver).
  unfold J in HlU. rewrite dataset_join in HlU. cbn [dataset] in HlU.
  apply union_subseteq in HlU as [[HJ%singleton_subseteq_l
    Hl%singleton_subseteq_l]%union_subseteq Ho].
  pose proof end_univ as HeU'. rewrite He in HeU'.
  start_update. parse_end_leaf He q w.
  rewrite countCommonPrefix_spec by congruence. fold c.
  cbn [lift mbind prog_bind].
  rewrite bool_decide_true by (rewrite <-(length_bits_depth p Hp); lia).
  rewrite (getBitAtFromMSB_ok _ _ _ (bit_lookup p c Hc)).
  cbn [lift mbind prog_bind]. rewrite digest_join.
  fold J. fold J in HJ. pose proof (new_leaf_univ Hl) as HE1.
  assert (thash J = hsum (tdata J)) as EJ by apply thash_tdata, join_not_Empty.
  rewrite (run_bind_Ok _ _ _ (inr (thash J))
    (tree_state ({[tdata J]} ∪ ({[tdata (Leaf p value)]} ∪ dataset t)) (tmap t) (thash t))).
  2: { rewrite EJ. by erewrite run_bind_Ok by by apply (run_nodes_Set U CF). }
  cbn [drop].
  rewrite (update_finish p value sibs e (c - length sibs) J c); try done.
  - rewrite <-Ht'. subst after. rewrite Hmap. do 2 f_equal.
    rewrite <-Hafter, Hds, He in *. rewrite sibset_app, sibset_replicate_Empty.
    rewrite (right_id_L ∅ (∪)). rewrite (dataset_join _ _ _ : dataset J = _).
    fold J. cbn [dataset].
    apply swap_spine_node; [done| |by apply disjoint_singleton_r, leaf_not_spine].
    apply disjoint_singleton_r.
    rewrite Ht' in Wt', HU'. eapply end_not_spine; try done.
    + by rewrite <-Ht.
    + by rewrite <-Ht.
    + rewrite length_app. lia.
  - apply union_least; [by apply singleton_subseteq_l|done].
  - rewrite Hds. clear. set_solver.
  - rewrite <-(length_bits_depth p Hp). lia.
  - rewrite <-(length_bits_depth p Hp). lia.
  - rewrite bool_decide_false; [done|]. rewrite <-(length_bits_depth p Hp). lia.
Qed.

(** The walk ends at the leaf of the path itself: the same value changes
    nothing, another one replaces the leaf. *)
Lemma swap_spine_leaf (S S' B X Y : gset bytes) :
  S ## B ∪ Y → S ## X → B ## Y → X ## Y →
  S' ∪ ((X ∪ (S ∪ B ∪ Y)) ∖ Y) ∖ S = S' ∪ B ∪ X.
Proof. intros. apply set_eq. intros x. set_solver. Qed.

Lemma update_at_same_leaf w :
  e = Leaf p w → run upd before = (Ok (thash (tinsert 0 p value t)), after).
Proof.
  intros He. destruct sets_before as (Hnd & HE & Hds & Hsp & Hsib).
  destruct insert_facts as (Ht & Ht' & Hlen & _ & Hlk & Hmap & _).
  rewrite He in Ht', Hlk. cbn [tinsert] in Ht'. rewrite bool_decide_true in Ht' by done.
  cbn [tmap] in Hlk. rewrite lookup_singleton_eq in Hlk.
  destruct (after_eq _ _ Ht') as (Hafter & HspU & HeU).
  pose proof end_univ as HeU'. rewrite He in HeU'.
  assert (tdata (Leaf p value) ∈ U ∧ value ∈ U) as [Hl HvU]
    by (unfold preimages in HeU; clear -HeU; set_solver).
  assert (tdata (Leaf p w) ∈ U ∧ w ∈ U) as [Hl' HwU]
    by (unfold preimages in HeU'; clear -HeU'; set_solver).
  assert (tdata (Leaf p w) ∈ dataset t) as Hin
    by (rewrite Hds, He; clear; set_solver).
  start_update. parse_end_leaf He p w.
  rewrite countCommonPrefix_spec, lcp_self, (length_bits_depth p Hp) by done.
  cbn [lift mbind prog_bind]. rewrite bool_decide_false by (intros E; by apply E).
  pose proof (new_leaf_univ Hl) as HE1.
  change (digestInto value) with (hsum value).
  case_bool_decide as Heq.
  - apply (cf_inj _ CF) in Heq as ->; [|done..].
    assert (tinsert 0 p value t = t) as Hsame by (by rewrite Ht', <-He, <-Ht).
    cbn [mbind prog_bind]. unfold run, Root. simpl.
    subst after. rewrite Hsame. do 2 f_equal. clear -Hin. set_solver.
  - assert (tdata (Leaf p w) ≠ tdata (Leaf p value)) as Hdiff.
    { intros E. by apply leaf_data_inj in E as [_ E]. }
    rewrite (run_bind_Ok _ _ _ (inr (thash (Leaf p value)))
      (tree_state (({[tdata (Leaf p value)]} ∪ dataset t) ∖ {[tdata (Leaf p w)]})
         (delete p (tmap t)) (thash t))).
    2: { rewrite (thash_tdata (Leaf p w)) by done.
      erewrite run_bind_Ok
        by (apply (run_nodes_Delete U CF); [done|by apply elem_of_union_r]).
      by erewrite run_bind_Ok by (by eapply run_values_Delete). }
    cbn [drop].
    rewrite (update_finish p value sibs e 0 (Leaf p value) depth); try done;
      cbn [replicate]; rewrite ?app_nil_r; try done; try lia.
    + rewrite <-Ht'. subst after. rewrite Hmap, insert_delete_eq. do 2 f_equal.
      rewrite <-Hafter, Hds, He in *. cbn [dataset] in *.
      apply swap_spine_leaf; [done|by apply disjoint_singleton_r, leaf_not_spine|done|].
      apply disjoint_singleton_l. by apply not_elem_of_singleton, not_eq_sym.
    + etrans; [|exact HE1]. clear. set_solver.
    + rewrite Hds. rewrite He in *. cbn [dataset] in *.
      clear -Hsp. set_solver.
    + by rewrite bool_decide_true.
Qed.

(** Whatever the root of the tree object is: the same value changes nothing,
    and that root is returned. *)
Lemma update_at_same_value r :
  e = Leaf p value →
  run upd (tree_state (dataset t) (tmap t) r) = (Ok r, tree_state (dataset t) (tmap t) r).
Proof.
  intros He. destruct sets_before as (_ & HE & Hds & _).
  pose proof end_univ as HeU. rewrite He in HeU.
  assert (tdata (Leaf p value) ∈ U) as Hl
    by (unfold preimages in HeU; clear -HeU; set_solver).
  assert (tdata (Leaf p value) ∈ dataset t) as Hin
    by (rewrite Hds, He; clear; set_solver).
  start_update. parse_end_leaf He p value.
  rewrite countCommonPrefix_spec, lcp_self, (length_bits_depth p Hp) by done.
  cbn [lift mbind prog_bind]. rewrite bool_decide_false by (intros E; by apply E).
  change (digestInto value) with (hsum value). rewrite bool_decide_true by done.
  cbn [mbind prog_bind]. unfold run, Root. simpl. do 2 f_equal. clear -Hin. set_solver.
Qed.

Lemma run_updateWithSideNodes : run upd before = (Ok (thash (tinsert 0 p value t)), after).
Proof.
  assert (∃ x, e = x) as [[|q w|l r] He] by eauto.
  - by apply update_at_empty.
  - destruct (decide (q = p)) as [->|Hne].
    + by eapply update_at_same_leaf.
    + by eapply update_at_other_leaf.
  - by destruct (descend_end p 0 t l r).
Qed.
End on_tree.

(** UpdateForRoot at the current root with a non-default value. *)
Lemma run_UpdateForRoot_insert t :
  wf [] t → preimages t ⊆ U → preimages (tinsert 0 p value t) ⊆ U →
  run (UpdateForRoot key value (thash t)) (tree_state (dataset t) (tmap t) (thash t)) =
    (Ok (thash (tinsert 0 p value t)),
     tree_state (dataset (tinsert 0 p value t)) (tmap (tinsert 0 p value t)) (thash t)).
Proof.
  intros Wt HU HU'. unfold UpdateForRoot. change (pathInto key) with p.
  erewrite run_bind_Ok.
  2: { apply (fillSideNodes_run U CF); try done; unfold preimages in HU; clear -HU;
       set_solver. }
  cbn beta iota. unfold bytes_Equal. rewrite bool_decide_false by done.
  by apply run_updateWithSideNodes.
Qed.

(** UpdateForRoot at the root of the stored tree with the value that the tree
    has, whatever root the tree object has. *)
Lemma run_UpdateForRoot_same t r :
  wf [] t → preimages t ⊆ U → tmap t !! p = Some value →
  run (UpdateForRoot key value (thash t)) (tree_state (dataset t) (tmap t) r) =
    (Ok r, tree_state (dataset t) (tmap t) r).
Proof.
  intros Wt HU Hlk. unfold UpdateForRoot. change (pathInto key) with p.
  erewrite run_bind_Ok.
  2: { apply (fillSideNodes_run U CF); try done; unfold preimages in HU; clear -HU;
       set_solver. }
  cbn beta iota. unfold bytes_Equal. rewrite bool_decide_false by done.
  apply update_at_same_value; [done..|].
  destruct (descend_wf [] p t Wt (prefix_nil _) Hp) as (_ & _ & Hend).
  cbn [length] in Hend. rewrite Hlk in Hend. pose proof (descend_end p 0 t) as Hne.
  destruct (descend p 0 t).2 as [|q w|l r']; [done| |by destruct (Hne l r')].
  symmetry in Hend. cbn [snd tmap] in *. by apply lookup_singleton_Some in Hend as [-> ->].
Qed.
End update.
