(* ===== verification/SmtDelete.v ===== *)
(** * Delete on the reference state.

    [run_UpdateForRoot_delete]: an update with the default value ends in the
    state that holds exactly the tree of [tremove], with the sibling leaf
    bubbled up to its new place. *)

From S2P Require Import Prelude Utils MapStore TreeHasher Effects Proofs Smt Trie.
From S2P Require Import Merkle Store Walk SmtUpdate.

Section delete.
Context {HS : Hasher} (U : gset bytes) (CF : collision_free U).

(** ** The loop of deleteWithSideNodes *)

(** Once a sibling that is not a placeholder was reached, the loop climbs. *)
Lemma delete_loop_climb p len sns i ch cur (s : refstate) :
  i + length sns = len → sns ≠ [] ∨ ch = Some cur →
  run (deleteWithSideNodes_loop p len sns i ch (Some cur) true) s =
  run (h ← climb p 0 sns cur; Ret (Some h)) s.
Proof.
  revert i ch cur s. induction sns as [|sn sns IH]; intros i ch cur s Hlen Hch.
  { destruct Hch as [ | -> ]; done. }
  cbn [deleteWithSideNodes_loop climb mbind prog_bind negb andb]. simpl in Hlen.
  replace (len - 1 - i) with (0 + length sns) by lia.
  rewrite !run_bind. destruct (run (lift _) s) as [[b| |] s1]; [|done..].
  destruct (if (b =? right)%Z then _ else _) as [h d].
  rewrite !run_bind. destruct (run (nodes_Set h d) s1) as [[| |] s2]; [|done..].
  rewrite IH by (lia || by right). by rewrite run_bind.
Qed.

Lemma delete_loop_not_placeholder p len sn sns i ch cur :
  bytes_Equal sn placeholder = false →
  deleteWithSideNodes_loop p len (sn :: sns) i ch (Some cur) false =
  deleteWithSideNodes_loop p len (sn :: sns) i ch (Some cur) true.
Proof. intros E. cbn [deleteWithSideNodes_loop mbind prog_bind negb andb]. by rewrite E. Qed.

Lemma run_delete_climb p len sibs i ch e E M r :
  E ⊆ U → list_to_set (spine p 0 sibs e) ⊆ U → i + length sibs = len →
  length sibs ≤ length (bits p) → sibs ≠ [] ∨ ch = Some (thash e) →
  run (deleteWithSideNodes_loop p len (thash <$> reverse sibs) i ch (Some (thash e)) true)
    (tree_state E M r) =
    (Ok (Some (thash (rebuild p 0 sibs e))),
     tree_state (list_to_set (spine p 0 sibs e) ∪ E) M r).
Proof.
  intros HE Hsp Hlen Hbits Hch. rewrite delete_loop_climb.
  - by erewrite run_bind_Ok by by apply (run_climb U CF).
  - rewrite length_fmap, length_reverse. lia.
  - destruct Hch as [Hch|]; [left|by right]. intros Hnil.
    apply fmap_nil_inv, (f_equal reverse) in Hnil. by rewrite reverse_involutive in Hnil.
Qed.

(** A leaf bubbles up past placeholders, and is joined with the first
    sibling that is not one. *)
Lemma run_delete_bubble p len q w E M r sibs i :
  E ⊆ U → sibpre sibs ⊆ U → i + length sibs = len → length sibs ≤ length (bits p) →
  preimages (trebuild p 0 sibs (Leaf q w)) ⊆ U →
  ∃ sibs' e',
    trebuild p 0 sibs (Leaf q w) = rebuild p 0 sibs' e' ∧
    sibset sibs' ∪ dataset e' = sibset sibs ∪ dataset (Leaf q w) ∧
    run (deleteWithSideNodes_loop p len (thash <$> reverse sibs) i
           (Some (thash (Leaf q w))) (Some (thash (Leaf q w))) false) (tree_state E M r) =
      (Ok (Some (thash (rebuild p 0 sibs' e'))),
       tree_state (list_to_set (spine p 0 sibs' e') ∪ E) M r).
Proof.
  intros HE. revert i. induction sibs as [|s sibs IH] using rev_ind;
    intros i HU Hlen Hbits HT.
  { exists [], (Leaf q w). split_and!; [done|done|]. unfold run. simpl.
    do 2 f_equal. clear. set_solver. }
  rewrite length_app in Hlen, Hbits. simpl in Hlen, Hbits.
  assert (sibpre sibs ∪ preimages s ⊆ U) as [Us Us']%union_subseteq.
  { etrans; [|exact HU]. clear. induction sibs as [|x l IH]; simpl;
      rewrite !sibpre_cons || rewrite sibpre_nil; set_solver. }
  rewrite trebuild_snoc in HT |- *.
  destruct (decide (s = Empty)) as [->|Hne].
  - replace (tjoin_at _ (Leaf q w) Empty) with (Leaf q w) in * by by destruct (bit p _).
    destruct (IH (S i)) as (sibs' & e' & H1 & H2 & H3); [done|lia|lia|done|].
    exists sibs', e'. split_and!; [done| |].
    + rewrite H2, sibset_app. unfold sibset at 3. simpl. clear. set_solver.
    + rewrite <-H3, reverse_snoc. cbn [fmap list_fmap thash].
      cbn [deleteWithSideNodes_loop mbind prog_bind negb andb]. unfold bytes_Equal.
      by rewrite bool_decide_true.
  - assert (tjoin_at (bit p (length sibs)) (Leaf q w) s
            = join (bit p (length sibs)) (Leaf q w) s) as Ej
      by (destruct (bit p (length sibs)); by destruct s).
    rewrite Ej, trebuild_join, <-rebuild_snoc in HT |- *.
    exists (sibs ++ [s]), (Leaf q w). split_and!; [done|done|].
    rewrite <-(run_delete_climb p len (sibs ++ [s]) i (Some (thash (Leaf q w)))).
    + rewrite reverse_snoc. cbn [fmap list_fmap].
      rewrite delete_loop_not_placeholder; [done|].
      apply bool_decide_eq_false. by eapply tdata_hash_ne.
    + done.
    + rewrite preimages_rebuild in HT. clear -HT. set_solver.
    + rewrite length_app. simpl. lia.
    + rewrite length_app. simpl. lia.
    + by right.
Qed.

(** The whole loop below an emptied leaf: [E] is the store without the old
    path. *)
Lemma run_delete_loop p sibs E M r :
  E ⊆ U → sibpre sibs ⊆ U → sibset sibs ⊆ E → length sibs ≤ length (bits p) →
  (∀ s, last sibs = Some s → s ≠ Empty) →
  preimages (trebuild p 0 sibs Empty) ⊆ U →
  ∃ sibs' e' o,
    trebuild p 0 sibs Empty = rebuild p 0 sibs' e' ∧
    sibset sibs' ∪ dataset e' = sibset sibs ∧
    default placeholder o = thash (trebuild p 0 sibs Empty) ∧
    run (deleteWithSideNodes_loop p (length sibs) (thash <$> reverse sibs) 0 None None false)
      (tree_state E M r) =
      (Ok o, tree_state (list_to_set (spine p 0 sibs' e') ∪ E) M r).
Proof.
  intros HE HU HD Hbits Hlast HT.
  destruct sibs as [|s sibs _] using rev_ind.
  { exists [], Empty, None. split_and!; [done| |done|].
    - rewrite sibset_nil. clear. set_solver.
    - unfold run. simpl. do 2 f_equal. clear. set_solver. }
  specialize (Hlast s (last_snoc _ _)).
  assert (sibpre sibs ∪ preimages s ⊆ U) as [Us Us']%union_subseteq.
  { etrans; [|exact HU]. clear. induction sibs as [|x l IH]; simpl;
      rewrite !sibpre_cons || rewrite sibpre_nil; set_solver. }
  rewrite sibset_app in HD |- *. rewrite sibset_cons, sibset_nil in HD |- *.
  rewrite (right_id_L ∅ (∪)) in HD |- *.
  assert (tdata s ∈ E) as Hin by by apply HD, elem_of_union_r, tdata_in_dataset.
  rewrite length_app in Hbits. simpl in Hbits.
  assert (run (nodes_Get (thash s)) (tree_state E M r) = (Ok (tdata s), tree_state E M r)) as HG
    by (rewrite thash_tdata by done; by apply (run_nodes_Get U CF)).
  rewrite trebuild_snoc in HT |- *.
  destruct s as [|q w|l r0]; [done| |].
  - replace (tjoin_at _ Empty (Leaf q w)) with (Leaf q w) in * by by destruct (bit p _).
    destruct (run_delete_bubble p (length (sibs ++ [Leaf q w])) q w E M r sibs 1)
      as (sibs' & e' & H1 & H2 & H3); try done; [rewrite length_app; simpl; lia|lia|].
    exists sibs', e', (Some (thash (rebuild p 0 sibs' e'))).
    split_and!; [done|done|by rewrite H1|]. rewrite <-H3, reverse_snoc.
    cbn [fmap list_fmap deleteWithSideNodes_loop]. rewrite (run_bind _ _ (tree_state E M r)).
    erewrite run_bind_Ok by exact HG.
    by erewrite run_bind_Ok by (apply run_lift_Ok, isLeaf_leaf_data).
  - assert (tjoin_at (bit p (length sibs)) Empty (Node l r0)
            = join (bit p (length sibs)) Empty (Node l r0)) as Ej
      by by destruct (bit p (length sibs)).
    rewrite Ej, trebuild_join, <-rebuild_snoc in HT |- *.
    exists (sibs ++ [Node l r0]), Empty,
      (Some (thash (rebuild p 0 (sibs ++ [Node l r0]) Empty))).
    split_and!; [done| |done|].
    { rewrite sibset_app, sibset_cons, sibset_nil. clear. set_solver. }
    rewrite <-(run_delete_climb p (length (sibs ++ [Node l r0])) _ 0 None).
    + rewrite reverse_snoc. cbn [fmap list_fmap deleteWithSideNodes_loop].
      rewrite (run_bind _ _ (tree_state E M r)).
      erewrite run_bind_Ok by exact HG.
      by erewrite run_bind_Ok by (apply run_lift_Ok, isLeaf_node_data).
    + done.
    + rewrite preimages_rebuild in HT. clear -HT. set_solver.
    + done.
    + rewrite length_app. simpl. lia.
    + left. by destruct sibs.
Qed.

Context (key : bytes).
Let p := path key.
Let Hp : length p = hsize := length_path key.

Section on_tree.
Context (t : tree) (Wt : wf [] t).
Context (HU : preimages t ⊆ U) (HU' : preimages (tremove 0 p t) ⊆ U).
Let sibs := (descend p 0 t).1.
Let e := (descend p 0 t).2.
Let del := deleteWithSideNodes p (thash <$> reverse sibs)
             (thash e :: (hsum <$> reverse (spine p 0 sibs e))) (end_data e).

Lemma removal_facts :
  length sibs ≤ length (bits p) ∧ wf (take (length sibs) (bits p)) e ∧
  tmap t !! p = tmap e !! p ∧ preimages e ⊆ U ∧ sibpre sibs ⊆ U.
Proof.
  destruct (descend_wf [] p t Wt (prefix_nil _) Hp) as (H1 & H2 & H3).
  destruct (path_univ U p t HU) as [H4 H5]. done.
Qed.

Lemma removal_sets :
  NoDup (spine p 0 sibs e) ∧ dataset t ⊆ U ∧
  dataset t = list_to_set (spine p 0 sibs e) ∪ sibset sibs ∪ dataset e ∧
  list_to_set (spine p 0 sibs e) ## sibset sibs ∪ dataset e ∧ sibset sibs ## dataset e.
Proof. exact (path_sets U CF p t Wt HU). Qed.

(** The key is not in the tree: nothing is changed. *)
Lemma delete_absent (g : refstate) :
  tmap t !! p = None → run del g = (Err errKeyAlreadyEmpty, g) ∧ tremove 0 p t = t.
Proof.
  intros Habs. destruct removal_facts as (_ & We & Hlk & HeU & _).
  split.
  - rewrite Hlk in Habs. unfold del, deleteWithSideNodes.
    cbn [index lookup list_lookup lift mbind prog_bind]. unfold bytes_Equal.
    assert (∃ x, e = x) as [[|q w|l r] He] by eauto; rewrite He in *.
    + by rewrite bool_decide_true.
    + rewrite bool_decide_false by by eapply (tdata_hash_ne U CF).
      cbn [end_data of_nil default id tdata]. destruct We as (Hq & _).
      rewrite parseLeaf_leaf_data by done. cbn [lift mbind prog_bind].
      rewrite bool_decide_false; [done|]. intros <-.
      cbn [tmap] in Habs. by rewrite lookup_singleton_eq in Habs.
    + by destruct (descend_end p 0 t l r).
  - destruct (tremove_spec [] p t Wt) as [W M]. eapply wf_unique; [done..|].
    etrans; [exact M|]. by apply delete_id.
Qed.

(** The key is in the tree. *)
Lemma delete_present w M r :
  tmap t !! p = Some w →
  run del (tree_state (dataset t) M r) =
    (Ok (thash (tremove 0 p t)), tree_state (dataset (tremove 0 p t)) M r).
Proof.
  intros Hpres. destruct removal_facts as (Hlen & We & Hlk & HeU & HsU).
  destruct removal_sets as (Hnd & HE & Hds & Hsp & Hsib).
  assert (e = Leaf p w) as He.
  { rewrite Hlk in Hpres. assert (∃ x, e = x) as [[|q w'|l r'] He] by eauto; rewrite He in *.
    - done.
    - cbn [tmap] in Hpres. by apply lookup_singleton_Some in Hpres as [-> ->].
    - by destruct (descend_end p 0 t l r'). }
  assert (tremove 0 p t = trebuild p 0 sibs Empty) as HT.
  { rewrite (tremove_descend p 0 t). change (descend p 0 t).2 with e.
    rewrite He. cbn [tremove]. by rewrite bool_decide_true. }
  destruct (run_delete_loop p sibs (sibset sibs) M r) as (sibs' & e' & o & H1 & H2 & H3 & H4).
  - etrans; [|exact HE]. rewrite Hds. clear. set_solver.
  - done.
  - done.
  - done.
  - intros s Hs. by apply (last_sibling [] p t s Wt).
  - by rewrite <-HT.
  - rewrite HT, H1, dataset_rebuild, <-(assoc_L (∪)), H2, <-H1.
    unfold del, deleteWithSideNodes.
    cbn [index lookup list_lookup lift mbind prog_bind]. unfold bytes_Equal.
    rewrite bool_decide_false
      by (eapply (tdata_hash_ne U CF); [done|by rewrite He]).
    replace (end_data e) with (Some (leaf_data p (hsum w))) by by rewrite He.
    cbn [of_nil default id].
    rewrite parseLeaf_leaf_data by done. cbn [lift mbind prog_bind].
    rewrite bool_decide_true by done. cbn [negb].
    rewrite (run_bind_Ok _ _ _ tt (tree_state (sibset sibs) M r)).
    + rewrite length_fmap, length_reverse, run_bind, H4, <-H3. by destruct o.
    + replace (thash e :: _) with (hsum <$> tdata e :: reverse (spine p 0 sibs e))
        by by rewrite He.
      rewrite (run_nodes_Delete_all U CF).
      * do 2 f_equal. rewrite Hds.
        rewrite list_to_set_cons, list_to_set_reverse, He in *. cbn [dataset] in *.
        clear -Hsp Hsib. apply set_eq. set_solver.
      * done.
      * apply NoDup_cons. rewrite reverse_Permutation. split; [|done].
        rewrite <-(elem_of_list_to_set (C:=gset bytes)).
        rewrite He. apply leaf_not_spine.
      * rewrite Hds, list_to_set_cons, list_to_set_reverse, He. cbn [dataset].
        clear. set_solver.
Qed.
End on_tree.

(** UpdateForRoot at the current root with the default value. *)
Lemma run_UpdateForRoot_delete t :
  wf [] t → preimages t ⊆ U → preimages (tremove 0 p t) ⊆ U →
  run (UpdateForRoot key defaultValue (thash t)) (tree_state (dataset t) (tmap t) (thash t)) =
    (Ok (thash (tremove 0 p t)),
     tree_state (dataset (tremove 0 p t)) (tmap (tremove 0 p t)) (thash t)).
Proof.
  intros Wt HU HU'. unfold UpdateForRoot. change (pathInto key) with p.
  erewrite run_bind_Ok.
  2: { apply (fillSideNodes_run U CF); try done; unfold preimages in HU; clear -HU;
       set_solver. }
  cbn beta iota. unfold bytes_Equal at 1. rewrite bool_decide_true by done.
  cbn [sideNodes pathNodes].
  rewrite run_bind, run_try. destruct (tremove_spec [] p t Wt) as [_ Hmap].
  simpl in Hmap.
  destruct (tmap t !! p) as [w|] eqn:Hlk.
  - rewrite (delete_present t Wt HU HU' w _ _ Hlk).
    erewrite run_bind_Ok by (by eapply run_values_Delete). by rewrite Hmap.
  - destruct (delete_absent t Wt HU
      (tree_state (dataset t) (tmap t) (thash t)) Hlk) as [Hrun Hsame].
    rewrite Hrun, Hsame. done.
Qed.
End delete.
