(* ===== verification/Spec.v ===== *)
(** * The specification: the sparse Merkle tree of a finite map.

    [tree_of m] builds the compressed Merkle tree of a map from paths to
    values top down, [merkle_root m] is its hash.  [smt_holds s m] is the
    invariant of the Go object: its stores and its root are those of the tree
    of [m], with nothing else in the node store. *)

From S2P Require Import Prelude Utils MapStore TreeHasher Effects Smt Trie Merkle.
From S2P Require Import Store.

(** No key: the empty subtree; one key: a leaf; otherwise a node that splits
    the keys by the bit at depth [d].  [n] levels are left below. *)
Fixpoint build (n d : nat) (kvs : list (bytes * bytes)) : tree :=
  match kvs with
  | [] => Empty
  | [(p, v)] => Leaf p v
  | _ =>
      match n with
      | 0 => Empty
      | S n' =>
          Node (build n' (S d) (filter (λ kv, ¬ bit kv.1 d = true) kvs))
               (build n' (S d) (filter (λ kv, bit kv.1 d = true) kvs))
      end
  end.

Section spec.
Context {HS : Hasher}.

Definition tree_of (m : gmap bytes bytes) : tree := build depth 0 (map_to_list m).

Definition merkle_root (m : gmap bytes bytes) : bytes := thash (tree_of m).

(** The paths of a map have the digest size, and no value is the default. *)
Definition valid_map (m : gmap bytes bytes) : Prop :=
  map_Forall (λ p v, length p = hsize ∧ v ≠ []) m.

(** The strings hashed to build the tree of a map. *)
Definition map_preimages (m : gmap bytes bytes) : gset bytes := preimages (tree_of m).

Lemma build_cons2 n d a b l :
  build (S n) d (a :: b :: l) =
    Node (build n (S d) (filter (λ kv, ¬ bit kv.1 d = true) (a :: b :: l)))
         (build n (S d) (filter (λ kv, bit kv.1 d = true) (a :: b :: l))).
Proof. by destruct a. Qed.

Lemma build_spec n pre kvs :
  n + length pre = depth → NoDup kvs.*1 →
  (∀ p v, (p, v) ∈ kvs → wf pre (Leaf p v)) →
  wf pre (build n (length pre) kvs) ∧
  nleaves (build n (length pre) kvs) = length kvs ∧
  tmap (build n (length pre) kvs) = list_to_map kvs.
Proof.
  revert pre kvs. induction n as [|n IH]; intros pre kvs Hn Hnd Hkv.
  - destruct kvs as [|[p v] [|[q w] kvs]].
    + done.
    + split_and!; [by apply Hkv; left|done|done].
    + exfalso. destruct (Hkv p v) as (Hp & _ & Pp); [by left|].
      destruct (Hkv q w) as (Hq & _ & Pq); [by right; left|].
      assert (∀ x, length x = hsize → pre `prefix_of` bits x → bits x = pre) as H.
      { intros x Hx [k Hk]. rewrite Hk. destruct k as [|b k]; [by rewrite app_nil_r|].
        apply (f_equal length) in Hk. rewrite length_app, length_bits in Hk. simpl in Hk.
        unfold depth, pathSize in Hn. lia. }
      assert (p = q) as -> by (apply bits_inj; rewrite !H by done; done).
      apply NoDup_cons in Hnd as [Hnd _]. apply Hnd. by left.
  - destruct kvs as [|[p v] [|kv kvs]].
    { done. }
    { split_and!; [by apply Hkv; left|done|done]. }
    rewrite build_cons2. set (l := (p, v) :: kv :: kvs) in *.
    set (f1 := filter (λ kv, bit kv.1 (length pre) = true) l).
    set (f0 := filter (λ kv, ¬ bit kv.1 (length pre) = true) l).
    assert (f1 ++ f0 ≡ₚ l) as Hperm by apply filter_app_complement.
    assert (NoDup (f1 ++ f0).*1) as Hnd' by by rewrite Hperm.
    rewrite fmap_app, NoDup_app in Hnd'. destruct Hnd' as (Hnd1 & _ & Hnd0).
    assert (∀ b p v, (p, v) ∈ l → bit p (length pre) = b → wf (pre ++ [b]) (Leaf p v)) as Hside.
    { intros b q w Hin Hb. destruct (Hkv q w Hin) as (Hq & Hw & Pq).
      split_and!; [done|done|]. rewrite <-Hb. apply prefix_snoc; [done|].
      rewrite length_bits, Hq. unfold depth, pathSize in Hn. lia. }
    destruct (IH (pre ++ [false]) f0) as (W0 & N0 & M0).
    { rewrite length_app. cbn [length]. lia. }
    { done. }
    { intros q w [Hb Hin]%list_elem_of_filter. apply Hside; [done|].
      by apply not_true_is_false. }
    destruct (IH (pre ++ [true]) f1) as (W1 & N1 & M1).
    { rewrite length_app. cbn [length]. lia. }
    { done. }
    { intros q w [Hb Hin]%list_elem_of_filter. by apply Hside. }
    rewrite length_app, Nat.add_1_r in *.
    assert (length f1 + length f0 = length l) as Hl by (by rewrite <-length_app, Hperm).
    assert (wf pre (Node (build n (S (length pre)) f0) (build n (S (length pre)) f1))) as W.
    { apply wf_node. split_and!; [done..|]. rewrite N0, N1. simpl in Hl. lia. }
    split_and!; [done|cbn [nleaves]; rewrite N0, N1; lia|].
    cbn [tmap]. rewrite map_union_comm by by eapply tmap_disjoint.
    rewrite M0, M1, <-list_to_map_app. apply list_to_map_proper; [|done].
    by rewrite Hperm.
Qed.

(** The tree of a valid map is well formed, and is the only well-formed
    tree with that map. *)
Lemma tree_of_spec m : valid_map m → wf [] (tree_of m) ∧ tmap (tree_of m) = m.
Proof.
  intros Hm. destruct (build_spec depth [] (map_to_list m)) as (H1 & _ & H3).
  - simpl. lia.
  - apply NoDup_fst_map_to_list.
  - intros p v Hin%elem_of_map_to_list. destruct (Hm p v Hin) as [Hp Hv].
    split_and!; [done|done|apply prefix_nil].
  - split; [done|]. unfold tree_of. simpl in H3. by rewrite H3, list_to_map_to_list.
Qed.

Lemma wf_valid_map t : wf [] t → valid_map (tmap t).
Proof. intros W p v Hp. by destruct (tmap_wf _ _ _ _ W Hp) as (?&?&_). Qed.

Lemma tree_of_tmap t : wf [] t → tree_of (tmap t) = t.
Proof.
  intros W. destruct (tree_of_spec (tmap t)) as [W' M]; [by apply wf_valid_map|].
  by eapply wf_unique.
Qed.

(** At full depth a subtree is a leaf with the whole path. *)
Lemma wf_full_depth pre t :
  wf pre t → t ≠ Empty → length pre = depth →
  ∃ q w, t = Leaf q w ∧ length q = hsize ∧ bits q = pre.
Proof.
  intros W Hne Hlen. destruct t as [|q w|l r]; [done| |].
  - destruct W as (Hq & _ & Pq). exists q, w. split_and!; [done|done|].
    destruct Pq as [k Hk]. rewrite Hk. destruct k; [by rewrite app_nil_r|].
    apply (f_equal length) in Hk. rewrite length_bits, length_app, Hq, Hlen in Hk.
    cbn [length] in Hk. unfold depth, pathSize in Hk. lia.
  - apply wf_node in W as (Wl & Wr & Hn).
    assert (∃ b s, wf (pre ++ [b]) s ∧ s ≠ Empty) as (b & s & Ws & Hs).
    { destruct (decide (l = Empty)) as [->|]; [|by exists false, l].
      exists true, r. split; [done|]. intros ->. cbn in Hn. lia. }
    destruct (wf_has_leaf _ _ Ws Hs) as (q & w & Hq).
    destruct (tmap_wf _ _ _ _ Ws Hq) as (Hql & _ & Pq).
    apply prefix_length in Pq. rewrite length_app, length_bits, Hql, Hlen in Pq.
    cbn [length] in Pq. unfold depth, pathSize in Pq. lia.
Qed.

Lemma valid_map_insert m p v :
  valid_map m → length p = hsize → v ≠ [] → valid_map (<[p := v]> m).
Proof. intros. by apply map_Forall_insert_2. Qed.

Lemma valid_map_delete m p : valid_map m → valid_map (delete p m).
Proof. apply map_Forall_delete. Qed.

Lemma tree_of_insert m key v :
  valid_map m → v ≠ [] →
  tree_of (<[path key := v]> m) = tinsert 0 (path key) v (tree_of m).
Proof.
  intros Hm Hv. destruct (tree_of_spec m Hm) as [W M].
  destruct (tinsert_spec [] (path key) v (tree_of m)) as (W' & _ & _ & M'); [done| |].
  - split_and!; [apply length_path|done|apply prefix_nil].
  - cbn [length] in *. rewrite <-(tree_of_tmap _ W'). by rewrite M', M.
Qed.

Lemma tree_of_delete m p :
  valid_map m → tree_of (delete p m) = tremove 0 p (tree_of m).
Proof.
  intros Hm. destruct (tree_of_spec m Hm) as [W M].
  destruct (tremove_spec [] p (tree_of m) W) as (W' & M').
  cbn [length] in *. rewrite <-(tree_of_tmap _ W'). by rewrite M', M.
Qed.

(** The reference state of a map. *)
Definition map_state (m : gmap bytes bytes) (r : bytes) : refstate :=
  tree_state (dataset (tree_of m)) m r.

(** ** The invariant of a tree object on lawful stores *)
Section holds.
Context {N V : Type} `{LawfulMapStore hsize N} `{LawfulMapStore hsize V}.

Definition smt_holds (s : SparseMerkleTree N V) (m : gmap bytes bytes) : Prop :=
  valid_map m ∧ tree_rep s (map_state m (merkle_root m)).

(** What a program does on the reference state of [m] it does on [s]. *)
Lemma smt_holds_run {A} (P : prog A) s m a m' :
  smt_holds s m → valid_map m' →
  run P (map_state m (merkle_root m)) = (Ok a, map_state m' (merkle_root m')) →
  ∃ s', run P s = (Ok a, s') ∧ smt_holds s' m'.
Proof.
  intros [Hm Hrep] Hm' Hrun.
  destruct (run_sim P s _ _ _ Hrep Hrun) as (s' & Hs' & Hrep'); [done|].
  by exists s'.
Qed.

Lemma smt_holds_root s m : smt_holds s m → root s = merkle_root m.
Proof. intros [_ Hrep]. apply Hrep. Qed.
End holds.
End spec.
