(* ===== verification/BulkSpec.v ===== *)
(** * The bulk walk against the tree it builds.

    [buildSubtree] stores the tree of its list; [bulkApplyAtRoot] turns the
    stored subtree [t] into the well-formed tree [t'] whose map is that of [t]
    overridden by the list, and touches no other value of the node store. *)

From Stdlib Require Import Sorting.Sorted.
From stdpp Require Import sorting.
From S2P Require Import Prelude Utils MapStore TreeHasher Effects Proofs Smt Bulk Trie.
From S2P Require Import BulkLists Merkle Store Spec.

Section bulk.
Context {HS : Hasher}.
Implicit Types (kvs : list bulkKV).

(** A sorted list without repeated paths, of leaves below the position. *)
Definition kvs_ok (pre : list bool) (kvs : list bulkKV) : Prop :=
  StronglySorted kv_lt kvs ∧ Forall (λ kv, wf pre (Leaf kv.1 kv.2)) kvs.

Lemma StronglySorted_filter {A} (R : A → A → Prop) (P : A → Prop) `{∀ x, Decision (P x)} l :
  StronglySorted R l → StronglySorted R (filter P l).
Proof.
  induction 1 as [|x l Hl IH Hx]; [constructor|]. rewrite filter_cons.
  case_decide; [|done]. constructor; [done|]. apply Forall_forall.
  intros y [_ Hy]%list_elem_of_filter. by eapply Forall_forall in Hx.
Qed.

Lemma kvs_ok_filter pre b (P : bulkKV → Prop) `{∀ x, Decision (P x)} kvs :
  kvs_ok pre kvs → length pre < depth →
  (∀ kv, P kv → bit kv.1 (length pre) = b) → kvs_ok (pre ++ [b]) (filter P kvs).
Proof.
  intros [Hs Hw] Hd HP. split; [by apply StronglySorted_filter|].
  apply Forall_forall. intros kv [Hkv Hin]%list_elem_of_filter.
  destruct (proj1 (Forall_forall _ _) Hw kv Hin) as (Hl & Hv & Hp).
  split_and!; [done|done|]. rewrite <-(HP _ Hkv). apply prefix_snoc; [done|].
  rewrite length_bits, Hl. unfold depth, pathSize in Hd. lia.
Qed.

Lemma kvs_ok_left pre kvs :
  kvs_ok pre kvs → length pre < depth →
  kvs_ok (pre ++ [false]) (filter (λ kv, ¬ bit kv.1 (length pre) = true) kvs).
Proof. intros. apply kvs_ok_filter; [done..|]. intros kv. by apply not_true_is_false. Qed.

Lemma kvs_ok_right pre kvs :
  kvs_ok pre kvs → length pre < depth →
  kvs_ok (pre ++ [true]) (filter (λ kv, bit kv.1 (length pre) = true) kvs).
Proof. intros. by apply kvs_ok_filter. Qed.

(** The bit below a common prefix is monotone on a sorted list. *)
Lemma kvs_bit_monotone pre kvs i j x y :
  kvs_ok pre kvs → length pre < depth → i ≤ j → kvs !! i = Some x → kvs !! j = Some y →
  bit x.1 (length pre) = true → bit y.1 (length pre) = true.
Proof.
  intros [Hs Hw] Hd Hij Hi Hj Hb. destruct (decide (i = j)) as [->|Hne]; [congruence|].
  assert (path_lt x.1 y.1) as Hlt by (by apply (strongly_sorted_le kv_lt kvs i j x y Hs); [lia|..]).
  destruct (Forall_lookup_1 _ _ _ _ Hw Hi) as (Hx & _ & Px).
  destruct (Forall_lookup_1 _ _ _ _ Hw Hj) as (Hy & _ & Py).
  unfold bit in *. eapply lex_le_bit; [|exact Px|exact Py|done|].
  - apply bytes_Compare_lex; [lia|]. unfold path_lt in Hlt. congruence.
  - rewrite length_bits, Hy. unfold depth, pathSize in Hd. lia.
Qed.

Lemma partitionByBit_spec pre kvs :
  kvs_ok pre kvs → length pre < depth →
  ∃ k, partitionByBit kvs (length pre) = Ok k ∧
    take k kvs = filter (λ kv, ¬ bit kv.1 (length pre) = true) kvs ∧
    drop k kvs = filter (λ kv, bit kv.1 (length pre) = true) kvs.
Proof.
  intros Hok Hd.
  destruct (monotone_split (λ kv : bulkKV, bit kv.1 (length pre)) kvs) as (k & Hk & Hf & Ht & Hdr).
  { intros i j x y. by apply kvs_bit_monotone. }
  exists k. split_and!; [|done|done]. unfold partitionByBit.
  destruct (Nat.eqb_spec (length kvs) 0) as [E|E]; [f_equal; lia|].
  apply Search_spec; [done|]. intros i Hi.
  destruct (lookup_lt_is_Some_2 kvs i Hi) as [kv Hkv].
  rewrite (index_ok _ _ _ Hkv). cbn [mbind outcome_bind].
  destruct (Forall_lookup_1 _ _ _ _ (proj2 Hok) Hkv) as (Hl & _ & _).
  rewrite (getBitAtFromMSB_ok _ _ (bit kv.1 (length pre))).
  2: { apply bit_lookup. rewrite length_bits, Hl. unfold depth, pathSize in Hd. lia. }
  cbn [mbind outcome_bind]. rewrite <-(Hf _ _ Hkv). by destruct (bit kv.1 (length pre)).
Qed.

(** Two paths below a position leave room for another level. *)
Lemma kvs_ok_room pre a b kvs : kvs_ok pre (a :: b :: kvs) → length pre < depth.
Proof.
  intros [Hs Hw]. apply StronglySorted_inv in Hs as [_ Hab].
  apply Forall_cons in Hab as [Hab _]. apply Forall_cons in Hw as [(Ha & _ & Pa) Hw].
  apply Forall_cons in Hw as [(Hb & _ & Pb) _].
  destruct (decide (length pre < depth)) as [|Hge]; [done|exfalso].
  assert (∀ p, length p = hsize → pre `prefix_of` bits p → bits p = pre) as Hfull.
  { intros p Hp [k Hk]. rewrite Hk. destruct k; [by rewrite app_nil_r|].
    apply (f_equal length) in Hk. rewrite length_bits, length_app, Hp in Hk.
    cbn [length] in Hk. unfold depth, pathSize in Hge. lia. }
  assert (a.1 = b.1) as Heq by (apply bits_inj; by rewrite !Hfull).
  rewrite Heq in Hab. by apply path_lt_irrefl in Hab.
Qed.

(** ** Maps of lists and their parts *)

Lemma list_to_map_filter (P : bulkKV → Prop) `{∀ kv, Decision (P kv)} (f : bytes → bool) kvs q :
  (∀ kv, P kv ↔ f kv.1 = true) →
  (list_to_map (filter P kvs) : gmap bytes bytes) !! q =
    if f q then (list_to_map kvs : gmap bytes bytes) !! q else None.
Proof.
  intros HP. induction kvs as [|[p v] kvs IH]; [by destruct (f q)|].
  destruct (f p) eqn:Hp.
  - rewrite filter_cons_True by by apply HP. rewrite !list_to_map_cons.
    destruct (decide (p = q)) as [->|Hne].
    + by rewrite !lookup_insert_eq, Hp.
    + by rewrite !lookup_insert_ne.
  - rewrite filter_cons_False by (rewrite HP; cbn; congruence). rewrite IH, list_to_map_cons.
    destruct (decide (p = q)) as [->|]; [by rewrite Hp|]. by rewrite lookup_insert_ne.
Qed.

Abbreviation kmap kvs := (list_to_map kvs : gmap bytes bytes).

Lemma kmap_filter_right d kvs q :
  kmap (filter (λ kv, bit kv.1 d = true) kvs) !! q = if bit q d then kmap kvs !! q else None.
Proof.
  by apply (list_to_map_filter _ (λ p, bit p d)).
Qed.

Lemma kmap_filter_left d kvs q :
  kmap (filter (λ kv, ¬ bit kv.1 d = true) kvs) !! q = if bit q d then None else kmap kvs !! q.
Proof.
  rewrite (list_to_map_filter _ (λ p, negb (bit p d))).
  - by destruct (bit q d).
  - intros kv. by destruct (bit kv.1 d).
Qed.

(** The side of a position. *)
Lemma tmap_child pre l r q (b : bool) :
  wf pre (Node l r) →
  tmap (if b then r else l) !! q =
    if Bool.eqb (bit q (length pre)) b then tmap (Node l r) !! q else None.
Proof.
  intros W. pose proof (tmap_node pre l r q W) as Hn. apply wf_node in W as (Wl & Wr & _).
  destruct (bit q (length pre)) eqn:Hq, b; cbn [Bool.eqb].
  - by rewrite Hn.
  - apply (tmap_side pre false); [done|congruence].
  - apply (tmap_side pre true); [done|congruence].
  - by rewrite Hn.
Qed.

(** Overriding a tree's map splits over the children. *)
Lemma child_maps (pre : list bool) kvs (l' r' : tree) (ml mr : gmap bytes bytes) :
  wf pre (Node l' r') → tmap (Node l' r') = kmap kvs ∪ (ml ∪ mr) →
  (∀ q, bit q (length pre) = true → ml !! q = None) →
  (∀ q, bit q (length pre) = false → mr !! q = None) →
  tmap l' = kmap (filter (λ kv, ¬ bit kv.1 (length pre) = true) kvs) ∪ ml ∧
  tmap r' = kmap (filter (λ kv, bit kv.1 (length pre) = true) kvs) ∪ mr.
Proof.
  intros W Hm Hl Hr. split; apply map_eq; intros q.
  - rewrite (tmap_child pre l' r' q false W), Hm, !lookup_union, kmap_filter_left.
    destruct (bit q (length pre)) eqn:Hq; cbn [Bool.eqb].
    + by rewrite (Hl q Hq).
    + rewrite (Hr q Hq). by rewrite (right_id None _).
  - rewrite (tmap_child pre l' r' q true W), Hm, !lookup_union, kmap_filter_right.
    destruct (bit q (length pre)) eqn:Hq; cbn [Bool.eqb].
    + rewrite (Hl q Hq). by rewrite (left_id None _).
    + by rewrite (Hr q Hq).
Qed.

Lemma kmap_sides (d : nat) kvs (M : gmap bytes bytes) :
  kmap (filter (λ kv, bit kv.1 d = true) kvs) ∪
    (kmap (filter (λ kv, ¬ bit kv.1 d = true) kvs) ∪ M) = kmap kvs ∪ M.
Proof.
  apply map_eq. intros q. rewrite !lookup_union, kmap_filter_left, kmap_filter_right.
  destruct (bit q d); by destruct (kmap kvs !! q), (M !! q).
Qed.

Lemma kvs_ok_size pre kvs : kvs_ok pre kvs → size (kmap kvs) = length kvs.
Proof.
  intros [Hs _]. apply kv_lt_nodup in Hs. induction kvs as [|[p v] kvs IH]; [apply map_size_empty|].
  cbn [fmap list_fmap fst] in Hs. apply NoDup_cons in Hs as [Hp Hs].
  rewrite list_to_map_cons, map_size_insert_None.
  - cbn. by rewrite IH.
  - by apply not_elem_of_list_to_map_1.
Qed.

Section run.
Context (U : gset bytes) (CF : collision_free U).

(** *** Building a subtree *)

(** With fuel left, the code's special case for an empty side is what the
    recursive call does. *)
Lemma buildSubtree_node fuel d a b kvs :
  0 < fuel →
  buildSubtree Crash (S fuel) d (a :: b :: kvs) =
    (splitIdx ← lift (partitionByBit (a :: b :: kvs) d);
     leftHash ← buildSubtree Crash fuel (S d) (take splitIdx (a :: b :: kvs));
     rightHash ← buildSubtree Crash fuel (S d) (drop splitIdx (a :: b :: kvs));
     let '(nodeHash, nodeData) := digestNode leftHash rightHash in
     nodes_Set nodeHash nodeData ;; Ret nodeHash).
Proof.
  intros Hfuel. destruct a as [p v].
  assert (∀ l, (if length l =? 0 then Ret placeholder else buildSubtree Crash fuel (S d) l) =
    buildSubtree Crash fuel (S d) l) as Hside by (intros []; [destruct fuel; [lia|done]|done]).
  change (buildSubtree Crash (S fuel) d ((p, v) :: b :: kvs)) with
    (splitIdx ← lift (partitionByBit ((p, v) :: b :: kvs) d);
     leftHash ← (if length (take splitIdx ((p, v) :: b :: kvs)) =? 0 then Ret placeholder
                 else buildSubtree Crash fuel (S d) (take splitIdx ((p, v) :: b :: kvs)));
     rightHash ← (if length (drop splitIdx ((p, v) :: b :: kvs)) =? 0 then Ret placeholder
                  else buildSubtree Crash fuel (S d) (drop splitIdx ((p, v) :: b :: kvs)));
     let '(nodeHash, nodeData) := digestNode leftHash rightHash in
     nodes_Set nodeHash nodeData ;; Ret nodeHash).
  destruct (partitionByBit ((p, v) :: b :: kvs) d) as [k| |]; [|done|done].
  cbn [lift mbind prog_bind]. by rewrite !Hside.
Qed.

Lemma run_buildSubtree fuel : ∀ pre kvs t' E M r,
  fuel + length pre = S depth → length pre ≤ depth → kvs_ok pre kvs →
  wf pre t' → tmap t' = kmap kvs → preimages t' ⊆ U → E ⊆ U →
  run (buildSubtree Crash fuel (length pre) kvs) (tree_state E M r) =
    (Ok (thash t'), tree_state (dataset t' ∪ E) (kmap kvs ∪ M) r).
Proof.
  induction fuel as [|fuel IH]; intros pre kvs t' E M r Hf Hpre Hok W Hm HU HE; [lia|].
  pose proof (size_tmap _ _ W) as Hsize. rewrite Hm, (kvs_ok_size pre kvs Hok) in Hsize.
  destruct kvs as [|[p v] [|kv2 kvs]].
  - symmetry in Hsize. apply (nleaves_0 pre) in Hsize as ->; [|done].
    cbn. by rewrite run_Ret, !(left_id_L ∅ (∪)).
  - assert (t' = Leaf p v) as ->.
    { apply (wf_unique pre); [done|by apply (Forall_inv (proj2 Hok))|]. rewrite Hm. cbn.
      by rewrite insert_empty. }
    cbn [buildSubtree]. rewrite digestLeaf_eq.
    destruct (Forall_inv (proj2 Hok)) as (Hp & _ & _). cbn [fst] in Hp.
    erewrite run_bind_Ok
      by (apply (run_nodes_Set U CF); [done|unfold preimages in HU; cbn in HU; set_solver]).
    erewrite run_bind_Ok by by apply run_values_Set.
    rewrite run_Ret. cbn. by rewrite insert_empty, insert_union_singleton_l.
  - destruct t' as [|q w|l' r']; [cbn in Hsize; lia..|].
    pose proof (kvs_ok_room pre _ _ kvs Hok) as Hroom. rewrite buildSubtree_node by lia.
    set (l := (p, v) :: kv2 :: kvs) in *.
    destruct (partitionByBit_spec pre l Hok Hroom) as (k & Ek & Et & Ed).
    destruct (child_maps pre l l' r' ∅ ∅ W) as [Ml Mr]; [by rewrite Hm, !(right_id_L ∅ (∪))|done..|].
    rewrite (right_id_L ∅ (∪)) in Ml, Mr.
    apply wf_node in W as W'. destruct W' as (Wl & Wr & _).
    erewrite run_bind_Ok by by apply run_lift_Ok. rewrite Et, Ed.
    pose proof HU as HUn. rewrite preimages_node in HUn.
    apply union_subseteq in HUn as [[Un Ul]%union_subseteq Ur].
    assert (dataset l' ∪ E ⊆ U) as HE' by (clear -Ul HE; unfold preimages in Ul; set_solver).
    pose proof (IH (pre ++ [false])) as IHl. pose proof (IH (pre ++ [true])) as IHr.
    rewrite length_app, Nat.add_1_r in IHl, IHr.
    erewrite run_bind_Ok by (apply IHl; try done; [lia..|by apply kvs_ok_left]).
    erewrite run_bind_Ok by (apply IHr; try done; [lia..|by apply kvs_ok_right]).
    rewrite digestNode_eq. erewrite run_bind_Ok
      by (apply (run_nodes_Set U CF); clear -Un Ur HE'; unfold preimages in Ur; cbn in *; set_solver).
    rewrite run_Ret, kmap_sides. do 2 f_equal.
    rewrite dataset_node. cbn [tdata]. clear. set_solver.
Qed.

(** *** Merging with a leaf *)

Definition shadowed (q : bytes) (kvs : list bulkKV) : bool :=
  existsb (λ kv, bytes_Equal kv.1 q) kvs.

Lemma shadowed_spec q kvs : shadowed q kvs = true ↔ is_Some (kmap kvs !! q).
Proof.
  induction kvs as [|[p v] kvs IH]; [split; [done|by intros []]|].
  cbn. rewrite orb_true_iff. unfold bytes_Equal. rewrite bool_decide_eq_true.
  destruct (decide (p = q)) as [->|Hne].
  - rewrite lookup_insert_eq. split; [by eexists|by left].
  - rewrite lookup_insert_ne by done. rewrite <-IH. unfold shadowed. tauto.
Qed.

(** The position where a new leaf goes. *)
Lemma merge_position pre q w kvs :
  kvs_ok pre kvs → wf pre (Leaf q w) → kmap kvs !! q = None →
  ∃ k, Search (length kvs) (λ i,
         kv ← index kvs i;
         Ok (match bytes_Compare kv.1 q with Lt => false | _ => true end)) = Ok k ∧
    kvs_ok pre (take k kvs ++ [(q, w)] ++ drop k kvs) ∧
    kmap (take k kvs ++ [(q, w)] ++ drop k kvs) = kmap kvs ∪ {[q := w]}.
Proof.
  intros [Hs Hw] Hq Hnone.
  set (P := λ kv : bulkKV, match bytes_Compare kv.1 q with Lt => false | _ => true end).
  assert (∀ kv, kv ∈ kvs → if P kv then path_lt q kv.1 else path_lt kv.1 q) as HP.
  { intros kv Hin. unfold P, path_lt. destruct (bytes_Compare kv.1 q) eqn:E; [|done|].
    - apply bytes_Compare_eq in E. subst q. exfalso.
      apply not_elem_of_list_to_map_2 in Hnone. destruct Hnone.
      apply list_elem_of_fmap. by exists kv.
    - by rewrite bytes_Compare_antisym, E. }
  destruct (monotone_split P kvs) as (k & Hk & Hf & Ht & Hd).
  { intros i j x y Hij Hi Hj Px. destruct (decide (i = j)) as [->|]; [congruence|].
    assert (path_lt x.1 y.1) as Hlt by (by apply (strongly_sorted_le kv_lt kvs i j x y Hs); [lia|..]).
    pose proof (HP x (list_elem_of_lookup_2 _ _ _ Hi)) as Hx. rewrite Px in Hx.
    pose proof (HP y (list_elem_of_lookup_2 _ _ _ Hj)) as Hy.
    destruct (P y); [done|]. exfalso. apply (path_lt_irrefl q). etrans; [exact Hx|]. by etrans. }
  exists k. split_and!.
  - apply Search_spec; [done|]. intros i Hi. destruct (lookup_lt_is_Some_2 kvs i Hi) as [kv Hkv].
    rewrite (index_ok _ _ _ Hkv). cbn [mbind outcome_bind]. f_equal. by apply Hf.
  - rewrite <-(take_drop k kvs) in Hw. apply Forall_app in Hw as [Hw1 Hw2].
    split; [|apply Forall_app; split; [done|by constructor]].
    assert (∀ x, x ∈ take k kvs → path_lt x.1 q) as H1.
    { intros x Hx. rewrite Ht in Hx. apply list_elem_of_filter in Hx as [Hx Hin].
      specialize (HP x Hin). by apply not_true_is_false in Hx as Hx'; rewrite Hx' in HP. }
    assert (∀ x, x ∈ drop k kvs → path_lt q x.1) as H2.
    { intros x Hx. rewrite Hd in Hx. apply list_elem_of_filter in Hx as [Hx Hin].
      specialize (HP x Hin). by rewrite Hx in HP. }
    rewrite <-(take_drop k kvs) in Hs. apply StronglySorted_app in Hs as (H3 & Hs1 & Hs2).
    apply StronglySorted_app. split_and!; [|done|].
    + intros x y Hx [->|Hy]%elem_of_cons; [by apply H1|by apply H3].
    + cbn [app]. constructor; [done|]. apply Forall_forall. apply H2.
  - rewrite list_to_map_app. cbn [app]. rewrite list_to_map_cons.
    rewrite <-(take_drop k kvs) in Hnone at 1. rewrite list_to_map_app in Hnone.
    apply lookup_union_None in Hnone as [Hn1 Hn2].
    rewrite insert_union_singleton_l, (map_union_comm {[q := w]})
      by by apply map_disjoint_singleton_l.
    rewrite (assoc_L (∪)), <-list_to_map_app, take_drop. done.
Qed.

(** An insertion that shadows the leaf. *)
Lemma kmap_shadow kvs q w : is_Some (kmap kvs !! q) → kmap kvs ∪ {[q := w]} = kmap kvs.
Proof.
  intros [v Hv]. apply map_eq. intros p. rewrite lookup_union.
  destruct (decide (q = p)) as [<-|]; [by rewrite lookup_singleton_eq, Hv|].
  rewrite lookup_singleton_ne by done. by rewrite (right_id None _).
Qed.

(** [mergeLeafWithKVs] after its short circuit. *)
Definition rebuild_leaf (fuel : nat) (d : nat) (q h : bytes) (kvs : list bulkKV) : prog bytes :=
  nodes_Delete h ;;
  merged ← (if negb (shadowed q kvs) then
              oldValue ← values_Get q;
              insertIdx ← lift (Search (length kvs) (λ i,
                kv ← index kvs i;
                Ok (match bytes_Compare kv.1 q with Lt => false | _ => true end)));
              Ret (take insertIdx kvs ++ [(q, oldValue)] ++ drop insertIdx kvs)
            else Ret kvs);
  buildSubtree Crash fuel d merged.

Lemma run_rebuild_leaf fuel pre q w kvs t' R M r :
  fuel + length pre = S depth → length pre ≤ depth → kvs_ok pre kvs →
  wf pre (Leaf q w) → preimages (Leaf q w) ⊆ U →
  wf pre t' → tmap t' = kmap kvs ∪ {[q := w]} → preimages t' ⊆ U →
  R ⊆ U → tdata (Leaf q w) ∉ R → M !! q = Some w →
  run (rebuild_leaf fuel (length pre) q (thash (Leaf q w)) kvs)
    (tree_state ({[tdata (Leaf q w)]} ∪ R) M r) =
    (Ok (thash t'), tree_state (dataset t' ∪ R) (kmap kvs ∪ M) r).
Proof.
  intros Hf Hpre Hok Wq HUq W Hm HU HR HqR HMq. pose proof Wq as (Hq & _ & _).
  assert (leaf_data q (hsum w) ∈ U) as HdU
    by (unfold preimages in HUq; cbn in HUq; clear -HUq; set_solver).
  unfold rebuild_leaf. cbn [thash tdata] in *. erewrite run_bind_Ok
    by (apply (run_nodes_Delete U CF); [clear -HdU HR; set_solver|clear; set_solver]).
  replace (({[leaf_data q (hsum w)]} ∪ R) ∖ {[leaf_data q (hsum w)]}) with R
    by (apply set_eq; clear -HqR; set_solver).
  destruct (shadowed q kvs) eqn:Hsh; cbn [negb].
  - rewrite (run_bind_Ok _ _ _ kvs (tree_state R M r)) by done.
    apply run_buildSubtree; try done. by rewrite Hm, kmap_shadow by by apply shadowed_spec.
  - assert (kmap kvs !! q = None) as Hnone.
    { apply eq_None_not_Some. rewrite <-shadowed_spec. congruence. }
    destruct (merge_position pre q w kvs Hok Wq Hnone) as (k & Ek & Hok' & Hkm).
    rewrite run_bind. rewrite (run_bind_Ok _ _ _ w (tree_state R M r))
      by (rewrite run_values_Get, HMq by done; done).
    erewrite run_bind_Ok by by apply run_lift_Ok. rewrite run_Ret.
    rewrite (run_buildSubtree fuel pre _ t' R M r) by (done || by rewrite Hkm).
    do 2 f_equal. rewrite Hkm, <-(assoc_L (∪)). f_equal.
    rewrite <-insert_union_singleton_l. by apply insert_id.
Qed.

Lemma run_mergeLeafWithKVs fuel pre q w kvs t' R M r :
  fuel + length pre = S depth → length pre ≤ depth → kvs_ok pre kvs → kvs ≠ [] →
  wf pre (Leaf q w) → preimages (Leaf q w) ⊆ U →
  wf pre t' → tmap t' = kmap kvs ∪ {[q := w]} → preimages t' ⊆ U →
  R ⊆ U → tdata (Leaf q w) ∉ R → M !! q = Some w →
  run (mergeLeafWithKVs Crash fuel (thash (Leaf q w)) (tdata (Leaf q w)) (length pre) kvs)
    (tree_state ({[tdata (Leaf q w)]} ∪ R) M r) =
    (Ok (thash t'), tree_state (dataset t' ∪ R) (kmap kvs ∪ M) r).
Proof.
  intros Hf Hpre Hok Hne Wq HUq W Hm HU HR HqR HMq. pose proof Wq as (Hq & Hw & Pq).
  pose proof (run_rebuild_leaf fuel pre q w kvs t' R M r) as Hrest. do 11 (specialize (Hrest ltac:(done))).
  set (σ := tree_state ({[tdata (Leaf q w)]} ∪ R) M r) in *.
  unfold mergeLeafWithKVs. cbn [tdata].
  erewrite run_bind_Ok by (by apply run_lift_Ok, parseLeaf_leaf_data). cbn beta iota.
  change (existsb (λ kv, bytes_Equal kv.1 q) kvs) with (shadowed q kvs).
  destruct (shadowed q kvs && (length kvs =? 1)) eqn:Hsc.
  2: { by rewrite (run_bind_Ok _ _ _ false σ). }
  apply andb_prop in Hsc as [Hsh Hlen%Nat.eqb_eq].
  destruct kvs as [|[p v] [|]]; [done| |done]. clear Hlen.
  apply shadowed_spec in Hsh as Hsome. cbn in Hsh. rewrite orb_false_r in Hsh.
  apply bool_decide_eq_true in Hsh as ->.
  rewrite (run_bind_Ok _ _ _ (bytes_Equal (hsum w) (hsum v)) σ) by done.
  unfold bytes_Equal at 1. case_bool_decide as Hwv; [|exact Hrest].
  rewrite kmap_shadow in Hm by done. cbn in Hm |- *. rewrite insert_empty in Hm |- *.
  assert (t' = Leaf q v) as -> by (apply (wf_unique pre); [done|by apply (Forall_inv (proj2 Hok))|done]).
  assert (v = w) as ->.
  { symmetry. unfold preimages in HU, HUq. cbn in HU, HUq.
    apply (cf_inj _ CF); [clear -HUq; set_solver|clear -HU; set_solver|done]. }
  rewrite run_Ret, <-insert_union_singleton_l. do 2 f_equal. cbn. by rewrite insert_id.
Qed.

(** *** The walk *)

Lemma side_disjoint pre a b :
  wf (pre ++ [false]) a → wf (pre ++ [true]) b → preimages a ⊆ U → preimages b ⊆ U →
  dataset a ## dataset b.
Proof.
  intros Wa Wb Ua Ub d Ha Hb.
  destruct (dataset_inv _ _ _ Wa Ha) as (s & k & -> & Hne & Ws & Us & Ms).
  destruct (dataset_inv _ _ _ Wb Hb) as (s' & k' & Heq & Hne' & Ws' & Us' & Ms').
  assert (s = s') as <- by (eapply (tdata_inj U CF); eauto; set_solver).
  destruct (wf_has_leaf _ _ Ws Hne) as (q & w & Hq).
  destruct (tmap_wf _ _ _ _ Wa (lookup_weaken _ _ _ _ Hq Ms)) as (_ & _ & P1).
  destruct (tmap_wf _ _ _ _ Wb (lookup_weaken _ _ _ _ Hq Ms')) as (_ & _ & P2).
  apply prefix_bit in P1, P2. congruence.
Qed.

Lemma node_not_below pre b l r c :
  wf pre (Node l r) → preimages (Node l r) ⊆ U → wf (pre ++ [b]) c → preimages c ⊆ U →
  tdata (Node l r) ∉ dataset c.
Proof.
  intros W HU Wc Uc Hd. pose proof (node_in_dataset U CF _ _ _ _ _ Wc Uc W HU Hd) as Hp.
  apply prefix_length in Hp. rewrite length_app in Hp. cbn [length] in Hp. lia.
Qed.

(** The set of values after the node is replaced. *)
Lemma replace_node_set (n n' : bytes) (A B R : gset bytes) :
  n ∉ A → n ∉ B → n ∉ R → {[n']} ∪ (B ∪ ({[n]} ∪ A ∪ R)) ∖ {[n]} = {[n']} ∪ A ∪ B ∪ R.
Proof. intros. apply set_eq. intros x. set_solver. Qed.

(** The maps of the children, before and after the left one is overridden. *)
Lemma node_maps (pre : list bool) (l r : tree) (M : gmap bytes bytes) :
  wf pre (Node l r) → tmap (Node l r) ⊆ M → tmap l ⊆ M ∧ tmap r ⊆ M.
Proof.
  intros W HM. pose proof (tmap_disjoint _ _ _ W). split; (etrans; [|exact HM]).
  - apply map_union_subseteq_l.
  - by apply map_union_subseteq_r.
Qed.

Lemma right_map_kept (pre : list bool) (r : tree) kvs (M : gmap bytes bytes) :
  wf (pre ++ [true]) r → tmap r ⊆ M →
  tmap r ⊆ kmap (filter (λ kv, ¬ bit kv.1 (length pre) = true) kvs) ∪ M.
Proof.
  intros Wr HM. apply map_subseteq_spec. intros q v Hq. rewrite lookup_union_r.
  - by eapply lookup_weaken.
  - rewrite kmap_filter_left. destruct (tmap_wf _ _ _ _ Wr Hq) as (_ & _ & Pq).
    apply prefix_bit in Pq. by rewrite Pq.
Qed.

Lemma overridden_is_node pre kvs l r t' :
  wf pre (Node l r) → wf pre t' → tmap t' = kmap kvs ∪ tmap (Node l r) →
  ∃ l' r', t' = Node l' r'.
Proof.
  intros W W' Hm. pose proof (size_tmap _ _ W) as S1. pose proof (size_tmap _ _ W') as S2.
  assert (size (tmap (Node l r)) ≤ size (tmap t')) as Hle.
  { rewrite Hm, <-!size_dom. apply subseteq_size. rewrite dom_union_L. apply union_subseteq_r. }
  apply wf_node in W as (_ & _ & Hn). cbn [nleaves] in S1.
  destruct t' as [|q w|l' r']; [cbn [nleaves] in S2; lia..|]. by exists l', r'.
Qed.

Lemma node_univ l r :
  preimages (Node l r) ⊆ U →
  tdata (Node l r) ∈ U ∧ preimages l ⊆ U ∧ preimages r ⊆ U ∧ dataset l ⊆ U ∧ dataset r ⊆ U.
Proof.
  rewrite preimages_node. intros [[Un Ul]%union_subseteq Ur]%union_subseteq.
  apply singleton_subseteq_l in Un. split_and!; try done; unfold preimages in *; clear -Ul Ur;
    set_solver.
Qed.

(** What follows the walks of the two children. *)
Lemma run_replace_node pre l r l' r' R M rt :
  wf pre (Node l r) → preimages (Node l r) ⊆ U → wf pre (Node l' r') → preimages (Node l' r') ⊆ U →
  R ⊆ U → R ## dataset (Node l r) →
  run (if bytes_Equal (thash l') (thash l) && bytes_Equal (thash r') (thash r)
       then Ret (thash (Node l r))
       else nodes_Delete (thash (Node l r)) ;;
         let '(newHash, newData) := digestNode (thash l') (thash r') in
         nodes_Set newHash newData ;; Ret newHash)
    (tree_state (dataset r' ∪ ({[tdata (Node l r)]} ∪ dataset l' ∪ R)) M rt) =
    (Ok (thash (Node l' r')), tree_state (dataset (Node l' r') ∪ R) M rt).
Proof.
  intros W HU W' HU' HR Hdisj. apply wf_node in W as W1. destruct W1 as (Wl & Wr & _).
  pose proof W' as W2. apply wf_node in W2 as (Wl' & Wr' & _).
  destruct (node_univ l r HU) as (Un & Ul & Ur & Dl & Dr).
  destruct (node_univ l' r' HU') as (Un' & Ul' & Ur' & Dl' & Dr').
  destruct (bytes_Equal (thash l') (thash l) && bytes_Equal (thash r') (thash r)) eqn:Hsame.
  { apply andb_prop in Hsame as [Hsl%bool_decide_eq_true Hsr%bool_decide_eq_true].
    apply (thash_inj U CF (pre ++ [false]) (pre ++ [false])) in Hsl as ->; [|done..].
    apply (thash_inj U CF (pre ++ [true]) (pre ++ [true])) in Hsr as ->; [|done..].
    rewrite run_Ret, dataset_node. do 2 f_equal. apply set_eq. clear. set_solver. }
  pose proof (node_not_below pre false l r l' W HU Wl' Ul') as Nl'.
  pose proof (node_not_below pre true l r r' W HU Wr' Ur') as Nr'.
  rewrite dataset_node in Hdisj. set (n := tdata (Node l r)) in *.
  change (thash (Node l r)) with (hsum n).
  erewrite run_bind_Ok
    by (apply (run_nodes_Delete U CF); [clear -Un Dl' Dr' HR; set_solver|clear; set_solver]).
  rewrite digestNode_eq. erewrite run_bind_Ok
    by (apply (run_nodes_Set U CF); [clear -Un Dl' Dr' HR; set_solver|exact Un']).
  rewrite run_Ret, replace_node_set by (done || (clear -Hdisj; set_solver)).
  by rewrite dataset_node.
Qed.

(** The conditions of the walk of a subtree [t] with the batch [kvs], which
    leads to the subtree [t']; [R] and [M]: the other nodes, all values. *)
Record walk_ok (pre : list bool) (t t' : tree) kvs (R : gset bytes) (M : gmap bytes bytes) : Prop := {
  wo_kvs : kvs_ok pre kvs;
  wo_wf : wf pre t;
  wo_univ : preimages t ⊆ U;
  wo_wf' : wf pre t';
  wo_map : tmap t' = kmap kvs ∪ tmap t;
  wo_univ' : preimages t' ⊆ U;
  wo_rest : R ⊆ U;
  wo_disj : R ## dataset t;
  wo_values : tmap t ⊆ M;
}.

Abbreviation lefts pre kvs := (filter (λ kv, ¬ bit kv.1 (length pre) = true) kvs).
Abbreviation rights pre kvs := (filter (λ kv, bit kv.1 (length pre) = true) kvs).

(** The walks of the two children meet the conditions, the left one first. *)
Lemma walk_ok_children pre l r l' r' kvs R M :
  length pre < depth → walk_ok pre (Node l r) (Node l' r') kvs R M →
  let n := tdata (Node l r) in
  walk_ok (pre ++ [false]) l l' (lefts pre kvs) ({[n]} ∪ dataset r ∪ R) M ∧
  walk_ok (pre ++ [true]) r r' (rights pre kvs) ({[n]} ∪ dataset l' ∪ R) (kmap (lefts pre kvs) ∪ M) ∧
  dataset (Node l r) ∪ R = dataset l ∪ ({[n]} ∪ dataset r ∪ R) ∧
  dataset l' ∪ ({[n]} ∪ dataset r ∪ R) = dataset r ∪ ({[n]} ∪ dataset l' ∪ R).
Proof.
  intros Hroom [Hok W HUt W' Hm HUt' HR Hdisj HM] n.
  pose proof W as W1. apply wf_node in W1 as (Wl & Wr & _).
  pose proof W' as W2. apply wf_node in W2 as (Wl' & Wr' & _).
  destruct (node_univ l r HUt) as (Un & Ul & Ur & Dl & Dr).
  destruct (node_univ l' r' HUt') as (Un' & Ul' & Ur' & Dl' & Dr').
  destruct (node_disjoint U CF pre l r W HUt) as (Nl & Nr & Hlr).
  pose proof (side_disjoint pre l' r Wl' Wr Ul' Ur) as Hl'r.
  destruct (child_maps pre kvs l' r' (tmap l) (tmap r) W' Hm) as [Ml Mr].
  { intros q Hq. apply (tmap_side pre false); [done|congruence]. }
  { intros q Hq. apply (tmap_side pre true); [done|congruence]. }
  destruct (node_maps pre l r M W HM) as [HMl HMr].
  rewrite dataset_node in *. fold n in Un, Nl, Nr, Hdisj |- *. split_and!.
  - split; try done; [by apply kvs_ok_left|clear -Un Dr HR; set_solver|
      clear -Nl Hlr Hdisj; set_solver].
  - split; try done; [by apply kvs_ok_right|clear -Un Dl' HR; set_solver|
      clear -Nr Hl'r Hdisj; set_solver|by apply (right_map_kept pre)].
  - apply set_eq. clear. set_solver.
  - apply set_eq. clear. set_solver.
Qed.

(** One level of the walk, given the walks of the two children. *)
Lemma run_bulk_node fuel pre l r l' r' kvs R M rt :
  length pre < depth → kvs ≠ [] → walk_ok pre (Node l r) (Node l' r') kvs R M →
  (∀ b t kvs t' R M, walk_ok (pre ++ [b]) t t' kvs R M →
     run (bulkApplyAtRoot Crash fuel (thash t) (S (length pre)) kvs) (tree_state (dataset t ∪ R) M rt) =
       (Ok (thash t'), tree_state (dataset t' ∪ R) (kmap kvs ∪ M) rt)) →
  run (bulkApplyAtRoot Crash (S fuel) (thash (Node l r)) (length pre) kvs)
    (tree_state (dataset (Node l r) ∪ R) M rt) =
    (Ok (thash (Node l' r')), tree_state (dataset (Node l' r') ∪ R) (kmap kvs ∪ M) rt).
Proof.
  intros Hroom Hne Hwalk IH.
  destruct (walk_ok_children _ _ _ _ _ _ _ _ Hroom Hwalk) as (Hl & Hr & Es & Em).
  destruct Hwalk as [Hok W HUt W' Hm HUt' HR Hdisj HM].
  rewrite <-(run_replace_node pre l r) by done.
  destruct (node_univ l r HUt) as (Un & Ul & Ur & Dl & Dr).
  (* down to the partition *)
  cbn [bulkApplyAtRoot]. destruct (Nat.eqb_spec (length kvs) 0) as [E0|_]; [by destruct kvs|].
  unfold bytes_Equal at 1. rewrite bool_decide_false by by apply (tdata_hash_ne U CF).
  rewrite thash_tdata at 1 by done.
  erewrite run_bind_Ok
    by (apply (run_nodes_Get U CF); rewrite dataset_node; [clear -Un Dl Dr HR; set_solver|clear; set_solver]).
  cbn [tdata]. erewrite run_bind_Ok by (apply run_lift_Ok, isLeaf_node_data). cbn beta iota.
  erewrite run_bind_Ok by (apply run_lift_Ok, parseNode_node_data, length_thash). cbn beta iota.
  destruct (partitionByBit_spec pre kvs Hok Hroom) as (k & Ek & Et & Ed).
  erewrite run_bind_Ok by by apply run_lift_Ok. rewrite Et, Ed.
  (* the children *)
  rewrite Es. erewrite run_bind_Ok by by eapply (IH false l).
  rewrite Em. erewrite run_bind_Ok by by eapply (IH true r).
  by rewrite kmap_sides.
Qed.

Lemma run_bulkApplyAtRoot fuel : ∀ pre t kvs t' R M rt,
  fuel + length pre = S depth → length pre ≤ depth → walk_ok pre t t' kvs R M →
  run (bulkApplyAtRoot Crash fuel (thash t) (length pre) kvs) (tree_state (dataset t ∪ R) M rt) =
    (Ok (thash t'), tree_state (dataset t' ∪ R) (kmap kvs ∪ M) rt).
Proof.
  induction fuel as [|fuel IH]; intros pre t kvs t' R M rt Hf Hpre Hwalk; [lia|].
  pose proof Hwalk as [Hok W HUt W' Hm HUt' HR Hdisj HM].
  destruct (decide (kvs = [])) as [->|Hne].
  { cbn in Hm. rewrite (left_id_L ∅ (∪)) in Hm.
    assert (t' = t) as -> by by apply (wf_unique pre).
    cbn. by rewrite run_Ret, (left_id_L ∅ (∪)). }
  destruct t as [|q w|l r].
  - cbn [bulkApplyAtRoot thash]. destruct (Nat.eqb_spec (length kvs) 0); [by destruct kvs|].
    unfold bytes_Equal. rewrite bool_decide_true by done.
    cbn [dataset]. rewrite (left_id_L ∅ (∪)). cbn [tmap] in Hm. rewrite (right_id_L ∅ (∪)) in Hm.
    by apply run_buildSubtree.
  - cbn [bulkApplyAtRoot]. destruct (Nat.eqb_spec (length kvs) 0); [by destruct kvs|].
    unfold bytes_Equal. rewrite bool_decide_false by by apply (tdata_hash_ne U CF).
    rewrite thash_tdata at 1 by done. cbn [dataset] in *.
    assert (tdata (Leaf q w) ∈ U) as Hd
      by (clear -HUt; unfold preimages in HUt; cbn [dataset] in HUt; set_solver).
    erewrite run_bind_Ok
      by (apply (run_nodes_Get U CF); [clear -Hd HR; set_solver|clear; set_solver]).
    erewrite run_bind_Ok by (apply run_lift_Ok, isLeaf_leaf_data). cbn beta iota.
    apply run_mergeLeafWithKVs; try done; [clear -Hdisj; set_solver|].
    eapply lookup_weaken; [|exact HM]. apply lookup_singleton_eq.
  - destruct (overridden_is_node pre kvs l r t' W W' Hm) as (l' & r' & ->).
    assert (length pre < depth) as Hroom.
    { destruct (decide (length pre = depth)) as [E|]; [|lia].
      by destruct (wf_full_depth pre (Node l r) W) as (? & ? & ? & _). }
    apply run_bulk_node; try done.
    intros b t kvs' t'' R' M' ?.
    specialize (IH (pre ++ [b]) t kvs' t'' R' M' rt).
    rewrite length_app, Nat.add_1_r in IH. apply IH; done || lia.
Qed.
End run.
End bulk.
