(* ===== verification/ProofsCorrect.v ===== *)
(** * Verification of Merkle proofs: completeness lemmas and soundness.

    [vclimb] is the hash the verifier recomputes, from the top; the loop of
    verifyProofWithUpdates computes it from the bottom.  Two accepted proofs
    for one root and one key have the same side nodes and the same value,
    unless the digests of the verifier's own inputs collide. *)

From S2P Require Import Prelude Utils TreeHasher Proofs Trie Merkle.

Section verify.
Context {HS : Hasher}.

(** The digest input of a level, and the recomputed hash. *)
Definition vnode (p : bytes) (d : nat) (sn x : bytes) : bytes :=
  if bit p d then node_data sn x else node_data x sn.

Fixpoint vclimb (p : bytes) (d : nat) (sns : list bytes) (h : bytes) : bytes :=
  match sns with
  | [] => h
  | sn :: sns' => hsum (vnode p d sn (vclimb p (S d) sns' h))
  end.

(** The digest inputs of all levels, from the top. *)
Fixpoint vdata (p : bytes) (d : nat) (sns : list bytes) (h : bytes) : list bytes :=
  match sns with
  | [] => []
  | sn :: sns' => vnode p d sn (vclimb p (S d) sns' h) :: vdata p (S d) sns' h
  end.

Definition hashed (x : bytes) : bytes * bytes := (hsum x, x).

Lemma verify_loop_app p len l1 l2 i cur u :
  verify_loop p len (l1 ++ l2) i cur u =
    ('(cur', u') ← verify_loop p len l1 i cur u;
     verify_loop p len l2 (i + length l1) cur' u').
Proof.
  revert i cur u. induction l1 as [|x l1 IH]; intros i cur u; simpl.
  { by rewrite Nat.add_0_r. }
  destruct (getBitAtFromMSB p (len - 1 - i)) as [b| |]; simpl; [|done..].
  destruct (if (b =? right)%Z then _ else _) as [h d].
  rewrite IH. by rewrite <-Nat.add_succ_comm.
Qed.

Lemma digest_vnode p d sn cur :
  (if (Z_of_bit (bit p d) =? right)%Z then digestNode sn cur else digestNode cur sn) =
  hashed (vnode p d sn cur).
Proof. unfold vnode. by destruct (bit p d). Qed.

(** The verifier's loop, on side nodes of the digest size. *)
Lemma verify_loop_vclimb p sns :
  ∀ d len i h u, Forall (λ sn, length sn = hsize) sns →
    len = i + length sns + d → d + length sns ≤ length (bits p) →
    verify_loop p len (reverse sns) i h u =
      Ok (vclimb p d sns h, u ++ (hashed <$> reverse (vdata p d sns h))).
Proof.
  induction sns as [|sn sns IH]; intros d len i h u Hsn Hlen Hbits.
  { simpl. by rewrite app_nil_r. }
  apply Forall_cons in Hsn as [Hsn Hsns]. cbn [length] in *.
  rewrite reverse_cons, verify_loop_app, (IH (S d)); [|done|lia|lia].
  cbn [mbind outcome_bind]. rewrite length_reverse. cbn [verify_loop].
  rewrite make_copy_id by done.
  replace (len - 1 - (i + length sns)) with d by lia.
  rewrite (getBitAtFromMSB_ok _ _ _ (bit_lookup p d ltac:(lia))).
  cbn [mbind outcome_bind]. rewrite digest_vnode. unfold hashed at 1.
  cbn [vclimb vdata]. by rewrite reverse_cons, fmap_app, (assoc_L (++)).
Qed.

(** ** Inversion of an accepted proof *)

Lemma sanityCheck_true proof :
  sanityCheck proof = true →
  length (SideNodes proof) ≤ hsize * 8 ∧
  Forall (λ sn, length sn = hsize) (SideNodes proof) ∧
  (∀ d, NonMembershipLeafData proof = Some d → length d = 1 + hsize + hsize).
Proof.
  unfold sanityCheck, pathSize. destruct (Nat.ltb_spec (hsize * 8) (length (SideNodes proof)));
    [done|].
  destruct (match NonMembershipLeafData proof with Some d => _ | None => _ end) eqn:E1; [done|].
  destruct (forallb _ _) eqn:E2; [|done]. intros _. split_and!; [done| |].
  - apply Forall_forall. intros x Hx. rewrite forallb_forall in E2.
    apply Nat.eqb_eq, E2. by apply list_elem_of_In.
  - intros d Hd. rewrite Hd in E1. by apply bool_decide_eq_false, dec_stable in E1.
Qed.

Lemma sanityCheck_sibling proof d sn sns :
  sanityCheck proof = true → SiblingData proof = Some d → SideNodes proof = sn :: sns →
  sn = digest d.
Proof.
  unfold sanityCheck. intros Hs Hd Hsn. rewrite Hd, Hsn in Hs.
  destruct (pathSize * 8 <? _); [done|]. destruct (match _ with Some _ => _ | _ => _ end); [done|].
  destruct (negb _); [done|]. by apply bool_decide_eq_true in Hs.
Qed.

(** A leaf the verifier starts from: a placeholder, or the leaf of a path
    of the digest size. *)
Inductive start (p value : bytes) : bytes → list bytes → Prop :=
  | start_placeholder : value = [] → start p value placeholder []
  | start_other q x :
      value = [] → length q = hsize → q ≠ p →
      start p value (hsum (leaf_data q x)) [leaf_data q x]
  | start_member :
      value ≠ [] → start p value (hsum (leaf_data p (hsum value))) [leaf_data p (hsum value)].

Lemma verify_leaf_ok proof p value :
  sanityCheck proof = true → length p = hsize →
  verify_leaf proof p value = Ok None ∨
  ∃ h ds, verify_leaf proof p value = Ok (Some (h, hashed <$> ds)) ∧ start p value h ds.
Proof.
  intros (_ & _ & Hnm)%sanityCheck_true Hp. unfold verify_leaf, bytes_Equal.
  case_bool_decide as Hv.
  - destruct (NonMembershipLeafData proof) as [d|] eqn:Hd.
    2: { right. exists placeholder, []. split; [done|]. by constructor. }
    specialize (Hnm d eq_refl).
    unfold parseLeaf. rewrite !slice_ok by (unfold leafPrefix, pathSize; simpl; lia).
    cbn [mbind outcome_bind]. set (q := take _ _). set (x := take _ (drop (_ + _) _)).
    assert (length q = hsize) as Hq.
    { subst q. rewrite length_take, length_drop. unfold leafPrefix, pathSize. simpl. lia. }
    case_bool_decide as Hqp; [by left|right]. exists (hsum (leaf_data q x)), [leaf_data q x].
    split; [done|]. by constructor.
  - right. exists (hsum (leaf_data p (hsum value))), [leaf_data p (hsum value)].
    split; [done|]. by constructor.
Qed.

(** Verification never panics: it rejects, or compares a recomputed hash
    with the root. *)
Lemma verifyProofWithUpdates_spec proof key value :
  (∀ rt, verifyProofWithUpdates proof rt key value = Ok (false, [])) ∨
  ∃ h ds,
    start (path key) value h ds ∧ sanityCheck proof = true ∧
    ∀ rt, verifyProofWithUpdates proof rt key value =
      Ok (bytes_Equal (vclimb (path key) 0 (reverse (SideNodes proof)) h) rt,
          (hashed <$> ds) ++
          (hashed <$> reverse (vdata (path key) 0 (reverse (SideNodes proof)) h))).
Proof.
  unfold verifyProofWithUpdates. destruct (sanityCheck proof) eqn:Hs; [|by left].
  cbn [negb]. destruct (verify_leaf_ok proof (path key) value Hs (length_path key))
    as [E|(h & ds & E & Hst)]; rewrite E; cbn [mbind outcome_bind]; [by left|right].
  exists h, ds. split_and!; [done|done|]. intros rt.
  apply sanityCheck_true in Hs as (Hlen & Hsn & _).
  rewrite <-(reverse_involutive (SideNodes proof)) at 1 2.
  rewrite (verify_loop_vclimb _ _ 0).
  - done.
  - by apply Forall_reverse.
  - rewrite !length_reverse. lia.
  - rewrite length_reverse, length_bits, length_path. lia.
Qed.

(** ** Soundness *)

(** What a verification hashes: the value of a membership proof, the leaf
    and one node per level. *)
Definition proof_preimages (proof : SparseMerkleProof) (key value : bytes) : gset bytes :=
  (if bytes_Equal value defaultValue then ∅ else {[value]}) ∪
  match verifyProofWithUpdates proof [] key value with
  | Ok (_, updates) => list_to_set updates.*2
  | _ => ∅
  end.

Lemma hashed_snd l : (hashed <$> l).*2 = l.
Proof. induction l as [|x l IH]; csimpl; by rewrite ?IH. Qed.

Lemma VerifyProof_inv proof rt key value :
  VerifyProof proof rt key value = Ok true →
  ∃ h ds,
    start (path key) value h ds ∧ sanityCheck proof = true ∧
    vclimb (path key) 0 (reverse (SideNodes proof)) h = rt ∧
    list_to_set ds ⊆ proof_preimages proof key value ∧
    list_to_set (vdata (path key) 0 (reverse (SideNodes proof)) h)
      ⊆ proof_preimages proof key value ∧
    (value ≠ [] → value ∈ proof_preimages proof key value).
Proof.
  unfold VerifyProof, proof_preimages.
  destruct (verifyProofWithUpdates_spec proof key value) as [E|(h & ds & Hst & Hs & E)];
    rewrite !E; [done|]. cbn [mbind outcome_bind]. intros [= Heq%bool_decide_eq_true].
  exists h, ds. rewrite fmap_app, !hashed_snd, list_to_set_app_L, list_to_set_reverse.
  split_and!; [done|done|done|clear; set_solver|clear; set_solver|].
  intros Hv. unfold bytes_Equal. rewrite bool_decide_false by done. clear. set_solver.
Qed.

Lemma length_vclimb p d sns h : length h = hsize → length (vclimb p d sns h) = hsize.
Proof. destruct sns; [done|]. intros _. apply hsum_length. Qed.

Lemma length_start p value h ds : start p value h ds → length h = hsize.
Proof. destruct 1; [apply length_placeholder|apply hsum_length..]. Qed.

Section collision_free.
Context (U : gset bytes) (CF : collision_free U).

Lemma start_not_node p value h ds l r :
  start p value h ds → list_to_set ds ⊆ U → node_data l r ∈ U →
  h ≠ hsum (node_data l r).
Proof.
  intros Hst Hds Hn Heq. destruct Hst as [_|q x _ _ _|_].
  - by apply (cf_zero _ CF (node_data l r)).
  - apply (cf_inj _ CF) in Heq; [|set_solver..]. by apply leaf_node_data in Heq.
  - apply (cf_inj _ CF) in Heq; [|set_solver..]. by apply leaf_node_data in Heq.
Qed.

Lemma vnode_node p d sn x : ∃ l r, vnode p d sn x = node_data l r.
Proof. unfold vnode. destruct (bit p d); eauto. Qed.

Lemma vnode_inj p d s1 s2 x1 x2 :
  length s1 = hsize → length s2 = hsize → length x1 = hsize → length x2 = hsize →
  vnode p d s1 x1 = vnode p d s2 x2 → s1 = s2 ∧ x1 = x2.
Proof.
  unfold vnode. destruct (bit p d); intros ???? Heq; apply node_data_inj in Heq; naive_solver lia.
Qed.

(** Two recomputations of one root go through the same side nodes from the
    same leaf hash. *)
Lemma vclimb_inj p v1 v2 h1 h2 ds1 ds2 :
  start p v1 h1 ds1 → start p v2 h2 ds2 → list_to_set ds1 ⊆ U → list_to_set ds2 ⊆ U →
  ∀ s1 s2 d, Forall (λ sn, length sn = hsize) s1 → Forall (λ sn, length sn = hsize) s2 →
    list_to_set (vdata p d s1 h1) ⊆ U → list_to_set (vdata p d s2 h2) ⊆ U →
    vclimb p d s1 h1 = vclimb p d s2 h2 → s1 = s2 ∧ h1 = h2.
Proof.
  intros H1 H2 D1 D2 s1. induction s1 as [|a s1 IH]; intros [|b s2] d F1 F2 U1 U2 Heq;
    cbn [vclimb vdata] in *; rewrite ?list_to_set_cons in *.
  - done.
  - destruct (vnode_node p d b (vclimb p (S d) s2 h2)) as (l & r & E). rewrite E in *.
    exfalso. eapply (start_not_node p v1 h1); [done|done| |done]. set_solver.
  - destruct (vnode_node p d a (vclimb p (S d) s1 h1)) as (l & r & E). rewrite E in *.
    exfalso. eapply (start_not_node p v2 h2); [done|done| |done]. set_solver.
  - apply union_subseteq in U1 as [U1%singleton_subseteq_l U1'],
      U2 as [U2%singleton_subseteq_l U2'].
    apply Forall_cons in F1 as [Fa F1], F2 as [Fb F2].
    apply (cf_inj _ CF) in Heq; [|done..].
    apply vnode_inj in Heq as [-> Hx];
      [|by eauto using length_vclimb, length_start..].
    destruct (IH s2 (S d)) as [-> ->]; done.
Qed.

Lemma start_inj p v1 v2 h ds1 ds2 :
  length p = hsize →
  start p v1 h ds1 → start p v2 h ds2 → list_to_set ds1 ⊆ U → list_to_set ds2 ⊆ U →
  (v1 ≠ [] → v1 ∈ U) → (v2 ≠ [] → v2 ∈ U) → v1 = v2.
Proof.
  intros Hp H1 H2 D1 D2 V1 V2.
  inversion H1 as [|q x Ev1 Hq Hqp Eh Ed|Ev1 Eh Ed]; subst; clear H1;
    inversion H2 as [|q' x' Ev2 Hq' Hqp' Eh' Ed'|Ev2 Eh' Ed']; subst; clear H2; try done.
  all: simpl in *; rewrite ?(right_id_L ∅ (∪)), ?singleton_subseteq_l in *.
  - by destruct (cf_zero _ CF (leaf_data p (hsum v2))).
  - apply (cf_inj _ CF) in Eh'; [|done..]. apply leaf_data_inj in Eh'; naive_solver lia.
  - by destruct (cf_zero _ CF (leaf_data p (hsum v1))).
  - apply (cf_inj _ CF) in Eh'; [|done..]. apply leaf_data_inj in Eh'; naive_solver lia.
  - apply (cf_inj _ CF) in Eh'; [|done..]. apply leaf_data_inj in Eh' as [_ Hv]; [|done].
    apply (cf_inj _ CF) in Hv; auto.
Qed.

Lemma VerifyProof_inj proof1 proof2 rt key v1 v2 :
  VerifyProof proof1 rt key v1 = Ok true → VerifyProof proof2 rt key v2 = Ok true →
  proof_preimages proof1 key v1 ⊆ U → proof_preimages proof2 key v2 ⊆ U →
  v1 = v2 ∧ SideNodes proof1 = SideNodes proof2.
Proof.
  intros (h1 & ds1 & H1 & S1 & E1 & D1 & N1 & V1)%VerifyProof_inv
    (h2 & ds2 & H2 & S2 & E2 & D2 & N2 & V2)%VerifyProof_inv HU1 HU2.
  apply sanityCheck_true in S1 as (_ & F1 & _), S2 as (_ & F2 & _).
  destruct (vclimb_inj (path key) v1 v2 h1 h2 ds1 ds2 H1 H2
    ltac:(by etrans) ltac:(by etrans) (reverse (SideNodes proof1))
    (reverse (SideNodes proof2)) 0) as [Hs ->].
  - by apply Forall_reverse.
  - by apply Forall_reverse.
  - by etrans.
  - by etrans.
  - congruence.
  - split.
    + eapply (start_inj (path key)); [apply length_path|done|done|by etrans|by etrans|auto..].
    + by rewrite <-(reverse_involutive (SideNodes proof1)), Hs, reverse_involutive.
Qed.
End collision_free.
End verify.
