(* ===== verification/SmtSpec.v ===== *)
(** * The tree's methods against the specification.

    On the reference state of a map, every method of smt.go computes what the
    map says, and the updates lead to the reference state of the updated
    map. *)

From S2P Require Import Prelude Utils MapStore TreeHasher Effects Proofs Smt Trie.
From S2P Require Import Merkle Store Walk SmtUpdate SmtDelete Spec ProofsCorrect.

(** A map after an update with a value: the default value deletes. *)
Definition update_map {HS : Hasher} (key value : bytes) (m : gmap bytes bytes) : gmap bytes bytes :=
  if bytes_Equal value defaultValue then delete (path key) m else <[path key := value]> m.

(** The value of a key: the default value when it is absent. *)
Definition map_value {HS : Hasher} (m : gmap bytes bytes) (key : bytes) : bytes :=
  default defaultValue (m !! path key).

(** A list of updates, in order. *)
Definition update_all {HS : Hasher} (kvs : list (bytes * bytes)) (m : gmap bytes bytes)
    : gmap bytes bytes :=
  foldl (λ m kv, update_map kv.1 kv.2 m) m kvs.

Definition run_updates {HS : Hasher} (kvs : list (bytes * bytes)) : prog unit :=
  for_each kvs (λ kv, _ ← Update kv.1 kv.2; Ret tt).

(** Everything hashed on the way. *)
Fixpoint history_preimages {HS : Hasher} (kvs : list (bytes * bytes)) (m : gmap bytes bytes)
    : gset bytes :=
  map_preimages m ∪
  match kvs with
  | [] => ∅
  | (k, v) :: kvs' => history_preimages kvs' (update_map k v m)
  end.

Section smt_spec.
Context {HS : Hasher}.

Abbreviation mstate m := (map_state m (merkle_root m)).

Lemma valid_map_empty : valid_map ∅.
Proof. apply map_Forall_empty. Qed.

Lemma valid_map_update key value m : valid_map m → valid_map (update_map key value m).
Proof.
  intros Hm. unfold update_map, bytes_Equal. case_bool_decide.
  - by apply valid_map_delete.
  - apply valid_map_insert; [done|apply length_path|done].
Qed.

Lemma valid_map_update_all kvs m : valid_map m → valid_map (update_all kvs m).
Proof.
  revert m. induction kvs as [|[k v] kvs IH]; intros m Hm; [done|].
  by apply IH, valid_map_update.
Qed.

Lemma tree_of_empty : tree_of ∅ = Empty.
Proof. unfold tree_of. rewrite map_to_list_empty. by destruct depth. Qed.

Lemma map_value_update_same key value m : map_value (update_map key value m) key = value.
Proof.
  unfold map_value, update_map, bytes_Equal. case_bool_decide as E.
  - by rewrite lookup_delete_eq.
  - by rewrite lookup_insert_eq.
Qed.

Lemma map_value_update_other key key' value m :
  path key ≠ path key' → map_value (update_map key value m) key' = map_value m key'.
Proof.
  intros Hne. unfold map_value, update_map. case_match.
  - by rewrite lookup_delete_ne.
  - by rewrite lookup_insert_ne.
Qed.

(** ** Proofs *)

(** The proof of a key: the siblings of its path, and the leaf at its end
    when that leaf is another one. *)
Definition map_proof (m : gmap bytes bytes) (key : bytes) (upd : bool) : SparseMerkleProof :=
  let '(sibs, e) := descend (path key) 0 (tree_of m) in
  mkProof (thash <$> reverse sibs)
    (match e with
     | Leaf q w => if bool_decide (q = path key) then None else Some (tdata e)
     | _ => None
     end)
    (if upd then tdata <$> last sibs else None).

(** The verifier recomputes the root of the tree from such a proof. *)
Lemma vclimb_rebuild p d sibs e :
  vclimb p d (thash <$> sibs) (thash e) = thash (rebuild p d sibs e) ∧
  vdata p d (thash <$> sibs) (thash e) = spine p d sibs e.
Proof.
  revert d. induction sibs as [|s sibs IH]; intros d; [done|].
  destruct (IH (S d)) as [E1 E2]. rewrite fmap_cons. cbn [vclimb vdata rebuild spine].
  rewrite E1, E2. unfold vnode. by destruct (bit p d).
Qed.

Lemma map_proof_sane m key upd :
  valid_map m → sanityCheck (map_proof m key upd) = true.
Proof.
  intros Hm. destruct (tree_of_spec m Hm) as [W _]. unfold map_proof.
  pose proof (λ s, last_sibling [] (path key) _ s W) as Hlast.
  pose proof (descend_wf [] (path key) _ W (prefix_nil _) (length_path _)) as (Hlen & We & _).
  cbn [length] in *. rewrite length_bits, length_path in Hlen.
  destruct (descend (path key) 0 (tree_of m)) as [sibs e]. cbn [fst snd Nat.add] in *.
  unfold sanityCheck, pathSize. cbn [SideNodes NonMembershipLeafData SiblingData].
  rewrite length_fmap, length_reverse.
  destruct (Nat.ltb_spec (hsize * 8) (length sibs)); [lia|].
  assert ((match (match e with
            | Leaf q _ => if bool_decide (q = path key) then None else Some (tdata e)
            | _ => None end) with
          | Some d => bool_decide (length d ≠ length leafPrefix + hsize + hsize)
          | None => false end) = false) as ->.
  { destruct e as [|q w|]; [done| |done]. case_bool_decide; [done|].
    apply bool_decide_eq_false. intros []. destruct We as (Hq & _). cbn [tdata].
    rewrite length_leaf_data, hsum_length. simpl. lia. }
  assert (forallb (λ v, length v =? hsize) (thash <$> reverse sibs) = true) as ->.
  { apply forallb_forall. intros x Hx. apply list_elem_of_In, list_elem_of_fmap in Hx
      as (s & -> & _). apply Nat.eqb_eq, length_thash. }
  cbn [negb]. destruct upd; [|done].
  destruct (last sibs) as [s|] eqn:El; [|done]. apply last_Some in El as [l' ->].
  rewrite reverse_snoc. destruct (Hlast s) as [Hne _]; [done|].
  simpl. unfold bytes_Equal. rewrite thash_tdata by done. by apply bool_decide_eq_true.
Qed.

Lemma map_proof_start m key upd :
  valid_map m →
  verify_leaf (map_proof m key upd) (path key) (map_value m key) =
    let e := (descend (path key) 0 (tree_of m)).2 in
    Ok (Some (thash e, match e with Empty => [] | _ => [hashed (tdata e)] end)).
Proof.
  intros Hm. destruct (tree_of_spec m Hm) as [W M]. unfold map_proof, map_value.
  pose proof (descend_end (path key) 0 (tree_of m)) as Hend.
  pose proof (descend_wf [] (path key) _ W (prefix_nil _) (length_path _))
    as (_ & We & Hlk).
  cbn [length] in *. rewrite M in Hlk. rewrite Hlk.
  destruct (descend (path key) 0 (tree_of m)) as [sibs e]. cbn [fst snd] in *.
  unfold verify_leaf, bytes_Equal. cbn [NonMembershipLeafData].
  destruct e as [|q w|l r]; [done| |by destruct (Hend l r)].
  destruct We as (Hq & Hw & _). cbn [tmap].
  destruct (decide (q = path key)) as [->|E2].
  - rewrite lookup_singleton_eq. cbn [default id].
    by rewrite bool_decide_false by done.
  - rewrite lookup_singleton_ne by done. cbn [default id].
    rewrite bool_decide_true by done. rewrite bool_decide_false by done.
    cbn [tdata]. rewrite parseLeaf_leaf_data by done.
    cbn [mbind outcome_bind]. by rewrite bool_decide_false.
Qed.

(** Verifying it hashes the spine of the path and its leaf. *)
Lemma map_proof_updates m key upd rt :
  valid_map m →
  let '(sibs, e) := descend (path key) 0 (tree_of m) in
  verifyProofWithUpdates (map_proof m key upd) rt key (map_value m key) =
    Ok (bytes_Equal (merkle_root m) rt,
        hashed <$> match e with Empty => [] | _ => [tdata e] end ++
                   reverse (spine (path key) 0 sibs e)).
Proof.
  intros Hm. unfold verifyProofWithUpdates.
  rewrite map_proof_sane by done. cbn [negb].
  rewrite map_proof_start by done. cbn zeta.
  pose proof (proj1 (tree_of_spec m Hm)) as W.
  pose proof (descend_wf [] (path key) _ W (prefix_nil _) (length_path _)) as (Hlen & _).
  pose proof (rebuild_descend (path key) 0 (tree_of m)) as Hreb. unfold map_proof.
  cbn [length] in Hlen.
  destruct (descend (path key) 0 (tree_of m)) as [sibs e]. cbn [fst snd Nat.add] in *.
  cbn [mbind outcome_bind SideNodes]. rewrite fmap_reverse.
  destruct (vclimb_rebuild (path key) 0 sibs e) as [E1 E2].
  rewrite (verify_loop_vclimb _ _ 0).
  - cbn [mbind outcome_bind]. rewrite E1, E2, Hreb, fmap_app. by destruct e.
  - apply Forall_fmap, Forall_forall. intros s _. apply length_thash.
  - rewrite length_reverse. lia.
  - by rewrite length_fmap.
Qed.

Lemma map_proof_verifies m key upd :
  valid_map m →
  VerifyProof (map_proof m key upd) (merkle_root m) key (map_value m key) = Ok true.
Proof.
  intros Hm. unfold VerifyProof.
  pose proof (map_proof_updates m key upd (merkle_root m) Hm) as E.
  destruct (descend _ _ _) as [sibs e]. rewrite E. cbn [mbind outcome_bind].
  unfold bytes_Equal. by rewrite bool_decide_true.
Qed.

(** What it hashes is part of what building the map's tree hashes. *)
Lemma map_proof_preimages m key upd :
  valid_map m →
  proof_preimages (map_proof m key upd) key (map_value m key) ⊆ map_preimages m.
Proof.
  intros Hm. unfold proof_preimages.
  pose proof (map_proof_updates m key upd [] Hm) as E.
  pose proof (preimages_rebuild (path key) 0 (descend (path key) 0 (tree_of m)).1
                (descend (path key) 0 (tree_of m)).2) as HP.
  rewrite rebuild_descend in HP.
  pose proof (tree_of_spec m Hm) as [W M].
  pose proof (descend_wf [] (path key) _ W (prefix_nil _) (length_path _)) as (_ & We & Hlk).
  cbn [length] in Hlk. rewrite M in Hlk.
  pose proof (descend_end (path key) 0 (tree_of m)) as Hend. unfold map_preimages.
  destruct (descend _ _ _) as [sibs e]. rewrite E. cbn [fst snd] in *.
  rewrite hashed_snd, list_to_set_app_L, list_to_set_reverse. clear E W M.
  apply union_least; [|rewrite HP; unfold preimages; destruct e; cbn; clear; set_solver].
  unfold map_value. rewrite Hlk. unfold bytes_Equal. case_bool_decide as Hv; [set_solver|].
  rewrite HP. destruct e as [|q w|l r]; [by destruct Hv| |by destruct (Hend l r)].
  cbn [tmap] in *. unfold preimages.
  destruct ({[q := w]} !! path key) as [x|] eqn:Ex; [|by destruct Hv].
  apply lookup_singleton_Some in Ex as [_ ->]. cbn. clear. set_solver.
Qed.

Section collision_free.
Context (U : gset bytes) (CF : collision_free U).

(** The store of a map holds exactly the subtrees of its tree. *)
Lemma mstate_tree m :
  valid_map m →
  mstate m = tree_state (dataset (tree_of m)) (tmap (tree_of m)) (thash (tree_of m)).
Proof. intros Hm. unfold map_state. by rewrite (proj2 (tree_of_spec m Hm)). Qed.

Lemma dataset_univ m : map_preimages m ⊆ U → dataset (tree_of m) ⊆ U.
Proof. unfold map_preimages, preimages. set_solver. Qed.

Lemma run_UpdateForRoot key value m :
  valid_map m → map_preimages m ⊆ U → map_preimages (update_map key value m) ⊆ U →
  run (UpdateForRoot key value (merkle_root m)) (mstate m) =
    (Ok (merkle_root (update_map key value m)),
     map_state (update_map key value m) (merkle_root m)).
Proof.
  intros Hm HU HU'. destruct (tree_of_spec m Hm) as [W M].
  pose proof (valid_map_update key value m Hm) as Hm'.
  destruct (tree_of_spec _ Hm') as [_ M'].
  assert (map_state (update_map key value m) (merkle_root m) =
    tree_state (dataset (tree_of (update_map key value m)))
      (tmap (tree_of (update_map key value m))) (thash (tree_of m))) as ->
    by (unfold map_state; by rewrite M').
  rewrite mstate_tree by done. unfold merkle_root.
  clear M' Hm'. revert HU'. unfold update_map, map_preimages, bytes_Equal.
  case_bool_decide as E.
  - rewrite E, tree_of_delete by done. by apply (run_UpdateForRoot_delete U CF).
  - rewrite tree_of_insert by done. by apply (run_UpdateForRoot_insert U CF).
Qed.

Lemma run_Update key value m :
  valid_map m → map_preimages m ⊆ U → map_preimages (update_map key value m) ⊆ U →
  run (Update key value) (mstate m) =
    (Ok (merkle_root (update_map key value m)), mstate (update_map key value m)).
Proof.
  intros Hm HU HU'. unfold Update.
  erewrite run_bind_Ok by apply run_Root. cbn [root].
  erewrite run_bind_Ok by by apply run_UpdateForRoot. done.
Qed.

Lemma run_run_updates kvs m :
  valid_map m → history_preimages kvs m ⊆ U →
  run (run_updates kvs) (mstate m) = (Ok tt, mstate (update_all kvs m)).
Proof.
  revert m. induction kvs as [|[k v] kvs IH]; intros m Hm HU; [done|].
  cbn [history_preimages] in HU. apply union_subseteq in HU as [HU HU'].
  unfold run_updates. cbn [for_each].
  rewrite (run_bind_Ok _ _ _ tt (mstate (update_map k v m))).
  - by apply IH; [apply valid_map_update|].
  - erewrite run_bind_Ok; [done|]. apply run_Update; [done..|].
    destruct kvs as [|[k' v'] kvs]; cbn [history_preimages] in HU';
      by apply union_subseteq in HU' as [? _].
Qed.

(** The root is the placeholder exactly for the empty map. *)
Lemma merkle_root_placeholder m :
  valid_map m → map_preimages m ⊆ U → merkle_root m = placeholder ↔ m = ∅.
Proof.
  intros Hm HU. destruct (tree_of_spec m Hm) as [W M]. split.
  - intros Hr. destruct (decide (tree_of m = Empty)) as [E|E].
    + by rewrite E in M.
    + by destruct (tdata_hash_ne U CF _ HU E).
  - intros ->. unfold merkle_root. by rewrite tree_of_empty.
Qed.

Lemma run_Get key m :
  valid_map m → map_preimages m ⊆ U →
  run (Get key) (mstate m) = (Ok (map_value m key), mstate m).
Proof.
  intros Hm HU. unfold Get. erewrite run_bind_Ok by apply run_Root. cbn [root].
  unfold bytes_Equal. case_bool_decide as E.
  - apply merkle_root_placeholder in E as ->; [|done..]. done.
  - rewrite run_bind, run_try. unfold map_state.
    rewrite run_values_Get by apply length_path. unfold map_value.
    by destruct (m !! path key).
Qed.

Lemma run_Has key m :
  valid_map m → map_preimages m ⊆ U →
  run (Has key) (mstate m) = (Ok (bool_decide (is_Some (m !! path key))), mstate m).
Proof.
  intros Hm HU. unfold Has. erewrite run_bind_Ok by by apply run_Get.
  unfold map_value, bytes_Equal. destruct (m !! path key) as [v|] eqn:E.
  - destruct (Hm _ _ E) as [_ Hv]. unfold run. simpl.
    rewrite bool_decide_false by (intros <-; by apply Hv). done.
  - done.
Qed.

Lemma run_doProveForRoot key upd m :
  valid_map m → map_preimages m ⊆ U →
  run (doProveForRoot key (merkle_root m) upd) (mstate m) =
    (Ok (map_proof m key upd), mstate m).
Proof.
  intros Hm HU. destruct (tree_of_spec m Hm) as [W M]. unfold doProveForRoot.
  unfold map_state at 1. erewrite run_bind_Ok.
  2: { apply (fillSideNodes_run U CF); [apply length_path|by apply dataset_univ|done..]. }
  cbn beta iota. unfold map_proof.
  pose proof (descend_end (path key) 0 (tree_of m)) as Hend.
  pose proof (descend_wf [] (path key) _ W (prefix_nil _) (length_path _)) as (_ & We & _).
  pose proof (proj1 (path_univ U (path key) _ HU)) as Ue. cbn [length] in *.
  destruct (descend (path key) 0 (tree_of m)) as [sibs e]. cbn [fst snd] in *.
  cbn [pathNodes sideNodes index lookup list_lookup lift].
  rewrite (run_bind_Ok (Ret (thash e)) _ _ (thash e) _ eq_refl).
  unfold bytes_Equal. destruct e as [|q w|l r]; [..|by destruct (Hend l r)].
  - by rewrite bool_decide_true by done.
  - rewrite bool_decide_false by by eapply (tdata_hash_ne U CF).
    cbn [negb end_data tdata of_nil default id]. destruct We as (Hq & _).
    rewrite parseLeaf_leaf_data by done. cbn [lift mbind prog_bind].
    by case_bool_decide.
Qed.

Lemma run_Prove key m :
  valid_map m → map_preimages m ⊆ U →
  run (Prove key) (mstate m) = (Ok (map_proof m key false), mstate m).
Proof.
  intros Hm HU. unfold Prove. erewrite run_bind_Ok by apply run_Root.
  by apply run_doProveForRoot.
Qed.

Lemma run_ProveUpdatable key m :
  valid_map m → map_preimages m ⊆ U →
  run (ProveUpdatable key) (mstate m) = (Ok (map_proof m key true), mstate m).
Proof.
  intros Hm HU. unfold ProveUpdatable. erewrite run_bind_Ok by apply run_Root.
  by apply run_doProveForRoot.
Qed.
End collision_free.
End smt_spec.
