(* ===== verification/SmtHolds.v ===== *)
(** * Trees that hold a map, on every pair of lawful stores.

    The runs of [SmtSpec] on the reference state, carried over to the lawful
    stores of a caller: what each operation does to a tree for which
    [smt_holds s m]. *)

From S2P Require Import Prelude Utils MapStore TreeHasher Effects Proofs Smt ReadOnly.
From S2P Require Import Trie Merkle Store Spec SmtSpec.

Section lawful.
Context {HS : Hasher}.
Context {N V : Type} `{LawfulMapStore hsize N} `{LawfulMapStore hsize V}.
Implicit Types (s : SparseMerkleTree N V) (m : gmap bytes bytes).

Lemma smt_holds_new (nodes : N) (values : V) :
  ms_rep nodes ∅ → ms_rep values ∅ → smt_holds (NewSparseMerkleTree nodes values []) ∅.
Proof.
  intros Hn Hv. split; [apply valid_map_empty|].
  unfold map_state, merkle_root. rewrite tree_of_empty. cbn [dataset thash].
  unfold tree_state, store_of, set_to_map. rewrite elements_empty. by constructor.
Qed.

Lemma smt_holds_updates kvs s m :
  smt_holds s m → collision_free (history_preimages kvs m) →
  ∃ s', run (run_updates kvs) s = (Ok tt, s') ∧ smt_holds s' (update_all kvs m).
Proof.
  intros Hs CF. apply smt_holds_run with m; [done|by apply valid_map_update_all, Hs|].
  eapply run_run_updates; [exact CF|apply Hs|done].
Qed.

(** Reading programs have one outcome on the reference state and on [s]. *)
Lemma smt_holds_read {A} (P : prog A) s m a :
  smt_holds s m → readonly P →
  run P (map_state m (merkle_root m)) = (Ok a, map_state m (merkle_root m)) →
  run P s = (Ok a, s).
Proof.
  intros Hs HP Hrun. destruct (smt_holds_run P s m a m Hs (proj1 Hs) Hrun) as (s' & E & _).
  pose proof (readonly_run P s HP) as R. rewrite E in *. cbn in R. by subst.
Qed.

Lemma smt_holds_unchanged key s m :
  smt_holds s m → m !! path key = None → update_map key defaultValue m = m.
Proof.
  intros _ Hk. unfold update_map, bytes_Equal. rewrite bool_decide_true by done.
  by apply delete_id.
Qed.

Lemma smt_holds_update s m key value :
  smt_holds s m →
  collision_free (map_preimages m ∪ map_preimages (update_map key value m)) →
  ∃ s', run (Update key value) s = (Ok (merkle_root (update_map key value m)), s') ∧
        smt_holds s' (update_map key value m).
Proof.
  intros Hs CF. apply smt_holds_run with m; [done|by apply valid_map_update, Hs|].
  eapply run_Update; [exact CF|apply Hs|set_solver..].
Qed.

Lemma smt_holds_get s m key :
  smt_holds s m → collision_free (map_preimages m) →
  run (Get key) s = (Ok (map_value m key), s).
Proof.
  intros Hs CF. eapply smt_holds_read; [done|auto with readonly|].
  eapply run_Get; [exact CF|apply Hs|done].
Qed.
End lawful.

Lemma merkle_root_inj {HS : Hasher} (m1 m2 : gmap bytes bytes) :
  valid_map m1 → valid_map m2 → collision_free (map_preimages m1 ∪ map_preimages m2) →
  merkle_root m1 = merkle_root m2 → m1 = m2.
Proof.
  intros H1 H2 CF Heq.
  destruct (tree_of_spec m1 H1) as [W1 M1], (tree_of_spec m2 H2) as [W2 M2].
  rewrite <-M1, <-M2. f_equal.
  eapply (thash_inj _ CF); [done|done|unfold map_preimages; set_solver..|done].
Qed.
