(* ===== verification/BulkMap.v ===== *)
(** * What a bulk update does to a map.

    [bulk_map] is the map after a batch; the runs of the deletions and of the
    recursive walk of [BulkSpec] compose to a run of [BulkUpdate] that ends in
    the state of that map. *)

From Stdlib Require Import Sorting.Sorted.
From S2P Require Import Prelude Utils MapStore TreeHasher Effects Proofs Smt Bulk Trie.
From S2P Require Import BulkLists Merkle Store Spec BulkSpec SmtSpec SmtHolds.

(** The deletions and the insertions of a batch. *)
Definition deletions (kvs : list (bytes * bytes)) : list (bytes * bytes) :=
  filter (λ kv, bytes_Equal kv.2 defaultValue = true) kvs.
Definition insertions (kvs : list (bytes * bytes)) : list (bytes * bytes) :=
  filter (λ kv, ¬ bytes_Equal kv.2 defaultValue = true) kvs.

(** A map after a batch: the deletions come first, then the insertions, in
    order. *)
Definition bulk_map {HS : Hasher} (kvs : list (bytes * bytes)) (m : gmap bytes bytes)
    : gmap bytes bytes :=
  update_all (insertions kvs) (update_all (deletions kvs) m).

(** What is hashed: the deletions one by one, and the final tree. *)
Definition bulk_preimages {HS : Hasher} (kvs : list (bytes * bytes)) (m : gmap bytes bytes)
    : gset bytes :=
  history_preimages (deletions kvs) m ∪ map_preimages (bulk_map kvs m).

Section bulk.
Context {HS : Hasher}.
Abbreviation mstate m := (map_state m (merkle_root m)).

Lemma history_preimages_first kvs m : map_preimages m ⊆ history_preimages kvs m.
Proof. destruct kvs; cbn [history_preimages]; apply union_subseteq_l. Qed.

Lemma history_preimages_last kvs m : map_preimages (update_all kvs m) ⊆ history_preimages kvs m.
Proof.
  revert m. induction kvs as [|[k v] kvs IH]; intros m; [apply union_subseteq_l|].
  cbn [history_preimages]. etrans; [apply IH|]. apply union_subseteq_r.
Qed.

Lemma insertions_map (l : list (bytes * bytes)) m :
  Forall (λ kv, ¬ bytes_Equal kv.2 defaultValue = true) l →
  update_all l m = foldl (λ m kv, <[kv.1 := kv.2]> m) m ((λ kv, (path kv.1, kv.2)) <$> l).
Proof.
  intros Hl. revert m. induction Hl as [|[k v] l Hv Hl IH]; intros m; [done|].
  cbn. rewrite <-IH. unfold update_all. cbn. unfold update_map.
  cbn [snd] in Hv. by apply not_true_is_false in Hv as ->.
Qed.

Section collision_free.
Context (U : gset bytes) (CF : collision_free U).

Lemma run_bulk_deletes kvs m :
  valid_map m → history_preimages (deletions kvs) m ⊆ U →
  run (for_each kvs (λ kv,
         if bytes_Equal kv.2 defaultValue then _ ← Delete kv.1; Ret tt else Ret tt)) (mstate m) =
    (Ok tt, mstate (update_all (deletions kvs) m)).
Proof.
  revert m. induction kvs as [|[k v] kvs IH]; intros m Hm HU; [done|].
  cbn [for_each fst snd]. unfold deletions in *.
  destruct (bytes_Equal v defaultValue) eqn:E.
  - rewrite filter_cons_True in HU |- * by done. cbn [history_preimages] in HU.
    apply bool_decide_eq_true in E as ->. apply union_subseteq in HU as [HU HU'].
    rewrite (run_bind_Ok _ _ _ tt (mstate (update_map k defaultValue m))).
    + by apply IH; [apply valid_map_update|].
    + erewrite run_bind_Ok; [done|]. apply (run_Update U CF); [done..|].
      etrans; [apply history_preimages_first|exact HU'].
  - rewrite filter_cons_False in HU |- * by (cbn; congruence).
    rewrite (run_bind_Ok _ _ _ tt (mstate m)) by done. by apply IH.
Qed.

(** What [bulkApplyAtRoot] gets. *)
Definition batch (kvs : list (bytes * bytes)) : list bulkKV :=
  dedup_spec (SortStableFunc ((λ kv, (path kv.1, kv.2)) <$> insertions kvs)).

Lemma batch_map kvs m :
  update_all (insertions kvs) m = (list_to_map (batch kvs) : gmap bytes bytes) ∪ m.
Proof.
  unfold batch. rewrite sort_dedup_map. apply insertions_map, Forall_forall.
  by intros kv [? _]%list_elem_of_filter.
Qed.

Lemma batch_walk_ok kvs m :
  valid_map m → map_preimages m ⊆ U → map_preimages (update_all (insertions kvs) m) ⊆ U →
  walk_ok U [] (tree_of m) (tree_of (update_all (insertions kvs) m)) (batch kvs) ∅ m.
Proof.
  intros Hm HU HU'. pose proof (valid_map_update_all (insertions kvs) m Hm) as Hm'.
  destruct (tree_of_spec _ Hm) as [W M], (tree_of_spec _ Hm') as [W' M'].
  split; try done.
  - split; [apply dedup_spec_sorted, SortStableFunc_sorted|].
    apply Forall_forall. intros kv (kv' & -> & [Hv _]%list_elem_of_filter)%sort_dedup_elem%list_elem_of_fmap.
    split_and!; [apply length_path| |apply prefix_nil]. cbn [snd]. intros E. apply Hv. by rewrite E.
  - by rewrite M', M, batch_map.
  - by rewrite M.
Qed.

Lemma run_BulkUpdate keys values m :
  valid_map m → length keys = length values → bulk_preimages (zip keys values) m ⊆ U →
  run (BulkUpdate keys values) (mstate m) =
    (Ok (merkle_root (bulk_map (zip keys values) m)), mstate (bulk_map (zip keys values) m)).
Proof.
  intros Hm Hlen HU. unfold BulkUpdate. rewrite Hlen, Nat.eqb_refl. cbn [negb].
  unfold bulk_preimages in HU. apply union_subseteq in HU as [HU1 HU2].
  destruct (Nat.eqb_spec (length values) 0) as [E|E].
  { by destruct values, keys. }
  erewrite run_bind_Ok by by apply run_bulk_deletes.
  set (kvs := zip keys values) in *. set (m1 := update_all (deletions kvs) m) in *.
  assert (valid_map m1) as Hm1 by by apply valid_map_update_all.
  assert (map_preimages m1 ⊆ U) as HUm1 by (etrans; [apply history_preimages_last|done]).
  change (filter (λ kv, ¬ bytes_Equal kv.2 defaultValue = true) kvs) with (insertions kvs).
  cbv zeta. destruct (Nat.eqb_spec (length ((λ kv, (path kv.1, kv.2)) <$> insertions kvs)) 0) as [E0|E0].
  { rewrite length_fmap in E0. apply length_zero_iff_nil in E0.
    unfold bulk_map. fold m1. by rewrite E0. }
  rewrite dedup_dedup_spec. erewrite run_bind_Ok by by apply run_lift_Ok.
  erewrite run_bind_Ok by apply run_Root. cbn [root map_state tree_state].
  rewrite (run_bind_Ok _ _ _ (merkle_root (bulk_map kvs m))
    (map_state (bulk_map kvs m) (merkle_root m1))).
  - erewrite run_bind_Ok by apply run_SetRoot. done.
  - pose proof (run_bulkApplyAtRoot U CF (S depth) [] (tree_of m1) (batch kvs)
      (tree_of (bulk_map kvs m)) ∅ m1 (merkle_root m1)) as Hrun.
    rewrite !(right_id_L ∅ (∪)), <-batch_map in Hrun. cbn [length] in Hrun.
    apply Hrun; [lia|lia|]. by apply batch_walk_ok.
Qed.
End collision_free.

(** *** When the order of a batch does not matter *)

Lemma update_all_lookup l m p :
  update_all l m !! p =
    match last (filter (λ kv, path kv.1 = p) l) with
    | Some kv => if bytes_Equal kv.2 defaultValue then None else Some kv.2
    | None => m !! p
    end.
Proof.
  unfold update_all. induction l as [|x l IH] using rev_ind; [done|].
  rewrite foldl_snoc, filter_app. unfold update_map at 1.
  destruct (decide (path x.1 = p)) as [<-|Hne].
  - rewrite (filter_cons_True _ x) by done. cbn. rewrite last_snoc.
    destruct (bytes_Equal x.2 defaultValue); [by rewrite lookup_delete_eq|by rewrite lookup_insert_eq].
  - rewrite (filter_cons_False _ x) by done. cbn. rewrite app_nil_r.
    destruct (bytes_Equal x.2 defaultValue); [by rewrite lookup_delete_ne|by rewrite lookup_insert_ne].
Qed.

Lemma filter_ext_in {A} (P1 P2 : A → Prop) `{∀ x, Decision (P1 x), ∀ x, Decision (P2 x)} (l : list A) :
  (∀ x, x ∈ l → P1 x ↔ P2 x) → filter P1 l = filter P2 l.
Proof.
  induction l as [|x l IH]; intros HP; [done|]. rewrite !filter_cons.
  rewrite IH by (intros y Hy; apply HP; by right).
  pose proof (HP x ltac:(by left)). repeat case_decide; tauto.
Qed.

(** No key is both deleted and set. *)
Definition no_conflict (kvs : list (bytes * bytes)) : Prop :=
  ∀ k v k', (k, v) ∈ insertions kvs → (k', []) ∈ deletions kvs → path k ≠ path k'.

Lemma bulk_map_update_all kvs m : no_conflict kvs → bulk_map kvs m = update_all kvs m.
Proof.
  intros Hnc. apply map_eq. intros p. unfold bulk_map. rewrite !update_all_lookup.
  unfold insertions, deletions in *. rewrite !list_filter_filter.
  destruct (decide (Exists (λ kv, path kv.1 = p ∧ bytes_Equal kv.2 defaultValue = false) kvs))
    as [Hex|Hno].
  - apply Exists_exists in Hex as ([k v] & Hin & Hk & Hv). cbn [fst snd] in Hk, Hv.
    (* every update of the path is an insertion *)
    assert (∀ kv, kv ∈ kvs → path kv.1 = p → ¬ bytes_Equal kv.2 defaultValue = true) as Hall.
    { intros [k' v'] Hin' Hk' Hv'. cbn [fst snd] in *. apply bool_decide_eq_true in Hv' as Hv2.
      apply (Hnc k v k'); [apply list_elem_of_filter; cbn [snd]; split; [congruence|done]| |congruence].
      apply list_elem_of_filter. split; [done|]. by rewrite Hv2 in Hin'. }
    assert (filter (λ kv, path kv.1 = p ∧ ¬ bytes_Equal kv.2 defaultValue = true) kvs =
            filter (λ kv, path kv.1 = p) kvs) as ->.
    { apply filter_ext_in. naive_solver. }
    destruct (last (filter (λ kv, path kv.1 = p) kvs)) as [kv|] eqn:El; [done|].
    apply last_None in El. exfalso. assert ((k, v) ∈ filter (λ kv, path kv.1 = p) kvs) as Hf
      by by apply list_elem_of_filter. rewrite El in Hf. by apply not_elem_of_nil in Hf.
  - assert (filter (λ kv, path kv.1 = p ∧ ¬ bytes_Equal kv.2 defaultValue = true) kvs = []) as ->.
    { destruct (filter _ kvs) as [|[k v] l] eqn:E; [done|]. exfalso. apply Hno, Exists_exists.
      assert ((k, v) ∈ filter (λ kv, path kv.1 = p ∧ ¬ bytes_Equal kv.2 defaultValue = true) kvs)
        as [[Hk Hv] Hin]%list_elem_of_filter by (rewrite E; by left).
      exists (k, v). split_and!; [done|done|by apply not_true_is_false]. }
    cbn [last].
    rewrite (filter_ext_in (λ kv, path kv.1 = p ∧ bytes_Equal kv.2 defaultValue = true)
      (λ kv, path kv.1 = p)); [done|].
    intros [k v] Hin. split; [by intros [? _]|].
    intros Hk. split; [done|]. destruct (bytes_Equal _ _) eqn:Hv; [done|].
    exfalso. apply Hno, Exists_exists. by exists (k, v).
Qed.

(** *** Trees on lawful stores *)
Section lawful.
Context {N V : Type} `{LawfulMapStore hsize N} `{LawfulMapStore hsize V}.
Implicit Types (s : SparseMerkleTree N V) (m : gmap bytes bytes).

Lemma smt_holds_bulk s m keys values :
  smt_holds s m → length keys = length values →
  collision_free (bulk_preimages (zip keys values) m) →
  ∃ s', run (BulkUpdate keys values) s = (Ok (merkle_root (bulk_map (zip keys values) m)), s') ∧
        smt_holds s' (bulk_map (zip keys values) m).
Proof.
  intros Hs Hlen CF. apply smt_holds_run with m; [done| |].
  - by apply valid_map_update_all, valid_map_update_all, Hs.
  - eapply run_BulkUpdate; [exact CF|apply Hs|done|done].
Qed.

End lawful.
End bulk.
