(* ===== verification/Calls.v ===== *)
(** * Sequences of calls on a tree, and what they promise.

    A call is a method with its arguments, its result a root, a proof or a
    value, or the error that the caller sees; a sequence of calls goes on after
    an error.  [call_spec] is the abstract machine: its state is the map of
    the keys' values alone.  A tree that holds a map implements it. *)

From S2P Require Import Prelude Utils MapStore TreeHasher Effects Proofs Smt Bulk ReadOnly.
From S2P Require Import Trie Merkle Store Spec SmtSpec SmtHolds BulkMap.

(** What a client may call on its tree. *)
Inductive pcall : Type :=
  | PUpdate (key value : bytes)
  | PBulkUpdate (keys values : list bytes)
  | PProve (key : bytes) (isUpdatable : bool)
  | PGet (key : bytes).

(** The results, with the errors; roots are of the type [R]. *)
Inductive presult (R : Type) : Type :=
  | PRoot (r : error + R)
  | PProof (r : error + SparseMerkleProof)
  | PValue (r : error + bytes).
Arguments PRoot {R} r.
Arguments PProof {R} r.
Arguments PValue {R} r.

Section calls.
Context {HS : Hasher}.
Implicit Types m : gmap bytes bytes.

Definition call_plain (c : pcall) : prog (presult bytes) :=
  match c with
  | PUpdate key value => r ← try (Update key value); Ret (PRoot r)
  | PBulkUpdate keys values => r ← try (BulkUpdate keys values); Ret (PRoot r)
  | PProve key isUpdatable =>
      r ← try (root ← Root; doProveForRoot key root isUpdatable);
      Ret (PProof r)
  | PGet key => r ← try (Get key); Ret (PValue r)
  end.

(** One call after the other, errors or not: the results in order. *)
Fixpoint calls_plain (cs : list pcall) : prog (list (presult bytes)) :=
  match cs with
  | [] => Ret []
  | c :: cs' => r ← call_plain c; rs ← calls_plain cs'; Ret (r :: rs)
  end.

(** ** The abstract machine *)

Definition call_spec (c : pcall) m : presult bytes * gmap bytes bytes :=
  match c with
  | PUpdate key value =>
      let m' := update_map key value m in (PRoot (inr (merkle_root m')), m')
  | PBulkUpdate keys values =>
      if length keys =? length values then
        let m' := bulk_map (zip keys values) m in (PRoot (inr (merkle_root m')), m')
      else (PRoot (inl ErrBulkInputMismatch), m)
  | PProve key isUpdatable => (PProof (inr (map_proof m key isUpdatable)), m)
  | PGet key => (PValue (inr (map_value m key)), m)
  end.

Fixpoint calls_spec (cs : list pcall) m : list (presult bytes) * gmap bytes bytes :=
  match cs with
  | [] => ([], m)
  | c :: cs' =>
      let '(r, m1) := call_spec c m in
      let '(rs, m2) := calls_spec cs' m1 in
      (r :: rs, m2)
  end.

(** What the calls hash. *)
Definition call_preimages (c : pcall) m : gset bytes :=
  match c with
  | PUpdate key value => map_preimages m ∪ map_preimages (update_map key value m)
  | PBulkUpdate keys values => bulk_preimages (zip keys values) m
  | _ => map_preimages m
  end.

Fixpoint calls_preimages (cs : list pcall) m : gset bytes :=
  match cs with
  | [] => ∅
  | c :: cs' => call_preimages c m ∪ calls_preimages cs' (call_spec c m).2
  end.

(** ** Maps of keys *)

(** Every entry is under the path of a key. *)
Definition keyed m : Prop := ∀ p, is_Some (m !! p) → ∃ key, p = path key.

Lemma keyed_empty : keyed ∅.
Proof. intros p [v Hv]. by rewrite lookup_empty in Hv. Qed.

Lemma keyed_update_all kvs : ∀ m, keyed m → keyed (update_all kvs m).
Proof.
  induction kvs as [|[k v] kvs IH]; intros m Hm; [done|]. apply IH. intros p [x Hx]. cbn in Hx.
  unfold update_map in Hx. destruct (bytes_Equal v defaultValue).
  - apply lookup_delete_Some in Hx as [_ Hx]. eauto.
  - apply lookup_insert_Some in Hx as [[<- _]|[_ Hx]]; eauto.
Qed.

Lemma keyed_calls cs : ∀ m, keyed m → keyed (calls_spec cs m).2.
Proof.
  induction cs as [|c cs IH]; intros m Hm; [done|]. cbn [calls_spec].
  assert (keyed (call_spec c m).2) as Hc.
  { destruct c as [key value|keys values| |]; cbn; try done.
    - exact (keyed_update_all [(key, value)] m Hm).
    - destruct (_ =? _); [|done]. by do 2 apply keyed_update_all. }
  destruct (call_spec c m) as [r m1]. specialize (IH m1 Hc).
  by destruct (calls_spec cs m1) as [rs m2].
Qed.

(** Such a map is known when the values of all keys are. *)
Lemma map_value_ext m1 m2 :
  valid_map m1 → valid_map m2 → keyed m1 → keyed m2 →
  (∀ key, map_value m1 key = map_value m2 key) → m1 = m2.
Proof.
  intros V1 V2 K1 K2 Heq.
  assert (∀ m p, valid_map m → m !! p = match default [] (m !! p) with [] => None | v => Some v end)
    as Hdef.
  { intros m p Vm. destruct (m !! p) as [[|b v]|] eqn:E; [|done..]. by destruct (Vm _ _ E). }
  apply map_eq. intros p.
  destruct (decide (is_Some (m1 !! p) ∨ is_Some (m2 !! p))) as [Hp|Hp].
  - assert (∃ key, p = path key) as [key ->] by (destruct Hp; eauto).
    rewrite (Hdef m1), (Hdef m2) by done.
    change (default [] (m1 !! path key)) with (map_value m1 key). by rewrite Heq.
  - apply Decidable.not_or in Hp as [H1 H2]. apply eq_None_not_Some in H1, H2. congruence.
Qed.

Section lawful.
Context {N V : Type} `{LawfulMapStore hsize N} `{LawfulMapStore hsize V}.
Implicit Types s : SparseMerkleTree N V.

Lemma smt_holds_call c s m :
  smt_holds s m → collision_free (call_preimages c m) →
  ∃ s', run (call_plain c) s = (Ok (call_spec c m).1, s') ∧ smt_holds s' (call_spec c m).2.
Proof.
  intros Hs CF. destruct c as [key value|keys values|key b|key]; cbn [call_plain call_preimages call_spec] in *.
  - destruct (smt_holds_update s m key value Hs CF) as (s' & E & Hs').
    exists s'. by rewrite run_bind, run_try, E.
  - destruct (Nat.eqb_spec (length keys) (length values)) as [Hlen|Hlen].
    + destruct (smt_holds_bulk s m keys values Hs Hlen CF) as (s' & E & Hs').
      exists s'. by rewrite run_bind, run_try, E.
    + exists s. rewrite run_bind, run_try. unfold BulkUpdate. by rewrite (proj2 (Nat.eqb_neq _ _) Hlen).
  - exists s. rewrite run_bind, run_try. erewrite smt_holds_read; [done|done|solve_readonly|].
    erewrite run_bind_Ok by apply run_Root. eapply run_doProveForRoot; [exact CF|apply Hs|done].
  - exists s. by rewrite run_bind, run_try, (smt_holds_get s m key Hs CF).
Qed.

(** A tree implements the abstract machine. *)
Lemma smt_holds_calls cs : ∀ s m,
  smt_holds s m → collision_free (calls_preimages cs m) →
  ∃ s', run (calls_plain cs) s = (Ok (calls_spec cs m).1, s') ∧ smt_holds s' (calls_spec cs m).2.
Proof.
  induction cs as [|c cs IH]; intros s m Hs CF; cbn [calls_plain calls_spec calls_preimages] in *.
  { by exists s. }
  destruct (smt_holds_call c s m Hs) as (s1 & E1 & Hs1).
  { by eapply collision_free_mono; [apply union_subseteq_l|]. }
  destruct (call_spec c m) as [r m1]. cbn [fst snd] in *.
  destruct (IH s1 m1 Hs1) as (s2 & E2 & Hs2).
  { by eapply collision_free_mono; [apply union_subseteq_r|]. }
  destruct (calls_spec cs m1) as [rs m2]. exists s2.
  by rewrite run_bind, E1, run_bind, E2.
Qed.
End lawful.
End calls.
