(* ===== verification/ShardedSpec.v ===== *)
(** * The maps and the combined root of a sharded tree.

    [sharded_holds s ms] is the invariant: a power of two of shards, the i-th
    of which holds the i-th map.  [shard_root b] is the balanced tree of
    [2 ^ b] roots, top down.  The lemmas follow sharded.go: routing, the fold
    to a combined root, the parallel computation of the shard numbers, the
    buckets, and the shards in any order. *)

From S2P Require Import Prelude Utils MapStore Sha256 TreeHasher Effects Proofs Smt Bulk.
From S2P Require Import Sharded Trie Merkle Store Spec SmtSpec SmtHolds BulkMap.

(** ** Routing *)

Lemma byte_val_bound b : (0 ≤ byte_val b < 256)%Z.
Proof. by destruct b. Qed.

Lemma shard_idx_bound key b : (0 ≤ b ≤ 8)%Z → (0 ≤ shard_idx key b < 2 ^ b)%Z.
Proof.
  intros Hb. unfold shard_idx. rewrite Z.mod_small by lia.
  pose proof (byte_val_bound (hd x00 (sha256 key))).
  rewrite Z.shiftr_div_pow2 by lia. split; [apply Z.div_pos; lia|].
  apply Z.div_lt_upper_bound; [lia|]. rewrite <-Z.pow_add_r by lia.
  replace (8 - b + b)%Z with 8%Z by lia. lia.
Qed.

(** ** The combined root *)
Section root.
Context {HS : Hasher}.

Fixpoint shard_root (b : nat) (l : list bytes) : bytes :=
  match b with
  | 0 => hd [] l
  | S b' => hsum (node_data (shard_root b' (take (2 ^ b') l)) (shard_root b' (drop (2 ^ b') l)))
  end.

(** What the fold hashes. *)
Fixpoint root_preimages (b : nat) (l : list bytes) : gset bytes :=
  match b with
  | 0 => ∅
  | S b' =>
      {[node_data (shard_root b' (take (2 ^ b') l)) (shard_root b' (drop (2 ^ b') l))]} ∪
      root_preimages b' (take (2 ^ b') l) ∪ root_preimages b' (drop (2 ^ b') l)
  end.

(** One level of the fold, on an even number of hashes. *)
Fixpoint merge_pairs (l : list bytes) : list bytes :=
  match l with
  | x :: y :: l' => hsum (node_data x y) :: merge_pairs l'
  | _ => []
  end.

Lemma mergeHash_digest h x y : (mergeHash h x y).1 = hsum (node_data x y).
Proof.
  unfold mergeHash, hash_Sum, hash_Write, hash_Reset. cbn [fst].
  rewrite !app_nil_l, <-app_assoc. done.
Qed.

Lemma merge_level_pairs n h l : length l = n + n → (merge_level h l).1 = merge_pairs l.
Proof.
  revert h l. induction n as [|n IH]; intros h l Hl; [by destruct l|].
  destruct l as [|x [|y l]]; [done|cbn in Hl; lia|]. cbn [merge_level merge_pairs].
  pose proof (mergeHash_digest h x y) as E. destruct (mergeHash h x y) as [z h'].
  specialize (IH h' l ltac:(cbn in Hl; lia)).
  destruct (merge_level h' l) as [next h'']. cbn [fst] in *. by subst.
Qed.

Lemma length_merge_pairs n l : length l = n + n → length (merge_pairs l) = n.
Proof.
  revert l. induction n as [|n IH]; intros l Hl; [by destruct l|].
  destruct l as [|x [|y l]]; [done|cbn in Hl; lia|]. cbn. f_equal. apply IH. cbn in Hl. lia.
Qed.

Lemma merge_pairs_app n l1 l2 :
  length l1 = n + n → merge_pairs (l1 ++ l2) = merge_pairs l1 ++ merge_pairs l2.
Proof.
  revert l1. induction n as [|n IH]; intros l1 Hl; [by destruct l1|].
  destruct l1 as [|x [|y l1]]; [done|cbn in Hl; lia|]. cbn. f_equal. apply IH. cbn in Hl. lia.
Qed.

Lemma shard_root_pairs b l : length l = 2 ^ S b → shard_root (S b) l = shard_root b (merge_pairs l).
Proof.
  revert l. induction b as [|b IH]; intros l Hl.
  { by destruct l as [|x [|y [|z l]]]. }
  rewrite <-(take_drop (2 ^ S b) l).
  assert (length (take (2 ^ S b) l) = 2 ^ S b) as H1 by (rewrite length_take, Hl; cbn; lia).
  assert (length (drop (2 ^ S b) l) = 2 ^ S b) as H2 by (rewrite length_drop, Hl; cbn; lia).
  revert H1 H2. generalize (take (2 ^ S b) l) (drop (2 ^ S b) l). clear l Hl. intros l1 l2 H1 H2.
  assert (2 ^ S b = 2 ^ b + 2 ^ b) as E by (cbn; lia).
  rewrite (merge_pairs_app (2 ^ b)) by lia.
  pose proof (length_merge_pairs (2 ^ b) l1 ltac:(lia)) as H1'.
  change (shard_root (S (S b)) ?l) with
    (hsum (node_data (shard_root (S b) (take (2 ^ S b) l)) (shard_root (S b) (drop (2 ^ S b) l)))).
  change (shard_root (S b) (merge_pairs l1 ++ merge_pairs l2)) with
    (hsum (node_data (shard_root b (take (2 ^ b) (merge_pairs l1 ++ merge_pairs l2)))
       (shard_root b (drop (2 ^ b) (merge_pairs l1 ++ merge_pairs l2))))).
  rewrite !take_app_length', !drop_app_length', !IH by done. done.
Qed.

Lemma pow2_lt (b : nat) : b < 2 ^ b.
Proof. apply Nat.pow_gt_lin_r. lia. Qed.

Lemma merge_levels_root fuel b h l :
  length l = 2 ^ b → b ≤ fuel → merge_levels fuel h l = [shard_root b l].
Proof.
  revert fuel h l. induction b as [|b IH]; intros fuel h l Hl Hfuel.
  - destruct l as [|x [|y l]]; try done. by destruct fuel.
  - destruct fuel as [|fuel]; [lia|]. cbn [merge_levels].
    assert (2 ^ S b = 2 ^ b + 2 ^ b) as E by (cbn; lia). pose proof (pow2_lt b).
    rewrite (proj2 (Nat.ltb_lt _ _)) by lia.
    pose proof (merge_level_pairs (2 ^ b) h l ltac:(lia)) as Hp.
    destruct (merge_level h l) as [next h']. cbn [fst] in Hp. subst next.
    rewrite shard_root_pairs by done. apply IH; [|lia]. apply length_merge_pairs. lia.
Qed.

Lemma length_shard_root b l :
  length l = 2 ^ b → Forall (λ x, length x = hsize) l → length (shard_root b l) = hsize.
Proof.
  destruct b; [|intros; apply hsum_length].
  destruct l as [|x [|]]; [done|by intros _ [? _]%Forall_cons|done].
Qed.

Lemma take_drop_half b (l : list bytes) (P : bytes → Prop) :
  length l = 2 ^ S b → Forall P l →
  (length (take (2 ^ b) l) = 2 ^ b ∧ Forall P (take (2 ^ b) l)) ∧
  length (drop (2 ^ b) l) = 2 ^ b ∧ Forall P (drop (2 ^ b) l).
Proof.
  intros Hl HP. assert (2 ^ S b = 2 ^ b + 2 ^ b) by (cbn; lia).
  split_and!; [rewrite length_take; lia|by apply Forall_take|rewrite length_drop; lia|
    by apply Forall_drop].
Qed.

Lemma shard_root_inj U b l1 l2 :
  collision_free U → length l1 = 2 ^ b → length l2 = 2 ^ b →
  Forall (λ x, length x = hsize) l1 → Forall (λ x, length x = hsize) l2 →
  root_preimages b l1 ⊆ U → root_preimages b l2 ⊆ U →
  shard_root b l1 = shard_root b l2 → l1 = l2.
Proof.
  intros CF. revert l1 l2. induction b as [|b IH]; intros l1 l2 H1 H2 F1 F2 U1 U2 Heq.
  { destruct l1 as [|x [|]], l2 as [|y [|]]; try done. cbn in Heq. by subst. }
  destruct (take_drop_half b l1 _ H1 F1) as [[??] [??]].
  destruct (take_drop_half b l2 _ H2 F2) as [[??] [??]]. cbn [root_preimages shard_root] in *.
  apply union_subseteq in U1 as [[U1 ?]%union_subseteq ?], U2 as [[U2 ?]%union_subseteq ?].
  apply (cf_inj _ CF) in Heq;
    [|by apply singleton_subseteq_l|by apply singleton_subseteq_l].
  apply node_data_inj in Heq as [E1 E2]; [|by rewrite !length_shard_root].
  rewrite <-(take_drop (2 ^ b) l1), <-(take_drop (2 ^ b) l2). f_equal; auto.
Qed.
End root.

(** ** The parallel computation of the shard numbers *)

Lemma interleave_concat {A} (ls : list (list A)) (l : list A) :
  interleave ls l → l ≡ₚ concat ls.
Proof.
  induction 1 as [ls Hls|ls i x l rest Hi Hint IH].
  - induction Hls as [|? ls -> Hls IH]; [done|exact IH].
  - rewrite IH. clear Hint IH. revert i Hi. induction ls as [|l0 ls IH]; intros i Hi; [done|].
    destruct i as [|i]; cbn in *; [by simplify_eq|].
    rewrite <-IH by done. by rewrite Permutation_middle.
Qed.

(** [min (a + b) n] elements from [a] on, cut into chunks. *)
Lemma chunk_ranges n size m :
  0 < size →
  concat (omap (λ c,
    let start := c * size in
    let end_ := if n <? start + size then n else start + size in
    if end_ <=? start then None else Some (seq start (end_ - start))) (seq 0 m)) =
  seq 0 (Nat.min n (m * size)).
Proof.
  intros Hsize. induction m as [|m IH].
  { by rewrite Nat.min_r by lia. }
  rewrite seq_S, omap_app, concat_app, IH. cbn zeta. cbn [omap list_omap Nat.add].
  destruct (Nat.leb_spec (if n <? m * size + size then n else m * size + size) (m * size)) as [Hle|Hlt];
    destruct (Nat.ltb_spec n (m * size + size)); cbn [concat]; rewrite app_nil_r; try lia.
  - f_equal. lia.
  - rewrite Nat.min_r by lia. rewrite <-(seq_app (m * size) _ 0). f_equal. lia.
  - rewrite Nat.min_r by lia. rewrite <-(seq_app (m * size) _ 0). f_equal. lia.
Qed.

(** The goroutines split the indices: each index in order, exactly once. *)
Lemma goroutine_idxs_split n procs :
  1024 ≤ n → 0 < procs → concat (goroutine_idxs n procs) = seq 0 n.
Proof.
  intros Hn Hp. unfold goroutine_idxs. cbn zeta.
  set (c1 := if 16 <? procs then 16 else procs).
  set (c2 := if n <? c1 then n else c1).
  assert (0 < c2) as Hc by (subst c1 c2; repeat case_match; lia).
  set (size := (n + c2 - 1) / c2).
  assert (n ≤ c2 * size) as Hs.
  { pose proof (Nat.div_mod (n + c2 - 1) c2 ltac:(lia)).
    pose proof (Nat.mod_upper_bound (n + c2 - 1) c2 ltac:(lia)). subst size. lia. }
  rewrite chunk_ranges by (destruct size; lia). f_equal. lia.
Qed.

Lemma idxs_order_perm n procs order :
  0 < procs → idxs_order n procs order → order ≡ₚ seq 0 n.
Proof.
  intros Hp. unfold idxs_order. destruct (Nat.eqb_spec n 0) as [->|Hn]; [by intros ->|].
  destruct (Nat.ltb_spec n 1024); [by intros ->|].
  intros Ho%interleave_concat. by rewrite Ho, goroutine_idxs_split.
Qed.

Lemma write_idxs_ok keys b order idxs :
  length idxs = length keys → Forall (λ i, i < length keys) order →
  ∃ idxs', write_idxs keys b order idxs = Ok idxs' ∧ length idxs' = length keys ∧
    ∀ i, idxs' !! i = if decide (i ∈ order) then (λ k, shard_idx k b) <$> keys !! i else idxs !! i.
Proof.
  intros Hl Ho. revert idxs Hl. induction Ho as [|j order Hj Ho IH]; intros idxs Hl.
  - exists idxs. split_and!; [done|done|]. intros i. by rewrite decide_False by apply not_elem_of_nil.
  - destruct (lookup_lt_is_Some_2 keys j Hj) as [k Hk].
    destruct (lookup_lt_is_Some_2 idxs j ltac:(lia)) as [x Hx].
    destruct (IH (<[j := shard_idx k b]> idxs)) as (idxs' & E & Hl' & Hi);
      [by rewrite length_insert|].
    exists idxs'. split_and!; [|done|].
    + cbn [write_idxs]. unfold write_idx.
      by rewrite (index_ok _ _ _ Hk), (index_ok _ _ _ Hx).
    + intros i. rewrite Hi. destruct (decide (i ∈ order)) as [Hin|Hin].
      * by rewrite decide_True by by right.
      * destruct (decide (i = j)) as [->|Hne].
        -- rewrite decide_True by by left.
           rewrite list_lookup_insert_eq by lia. by rewrite Hk.
        -- rewrite decide_False by (intros [?|?]%elem_of_cons; done).
           by rewrite list_lookup_insert_ne.
Qed.

Lemma parallelComputeShardIdxs_run keys b idxs procs order :
  length idxs = length keys → 0 < procs → idxs_order (length keys) procs order →
  parallelComputeShardIdxs order idxs keys b = Ok ((λ k, shard_idx k b) <$> keys).
Proof.
  intros Hl Hp Hperm%idxs_order_perm; [|done]. unfold parallelComputeShardIdxs.
  destruct (write_idxs_ok keys b order idxs Hl) as (idxs' & -> & Hl' & Hi).
  { rewrite Hperm. apply Forall_seq. lia. }
  f_equal. apply list_eq. intros i. rewrite Hi, list_lookup_fmap.
  destruct (decide (i ∈ order)) as [|Hin]; [done|].
  rewrite Hperm in Hin. rewrite elem_of_seq in Hin.
  rewrite !lookup_ge_None_2 by lia. done.
Qed.

(** ** The buckets *)

(** The pairs of a batch that go to shard [i]. *)
Definition routed (b : Z) (i : nat) (kvs : list (bytes * bytes)) : list (bytes * bytes) :=
  filter (λ kv, Z.to_nat (shard_idx kv.1 b) = i) kvs.

Lemma NoDup_active_shards buckets : NoDup (active_shards buckets).
Proof. apply NoDup_filter, NoDup_seq. Qed.

Lemma fill_buckets_run b kvs buckets :
  Forall (λ kv, Z.to_nat (shard_idx kv.1 b) < length buckets) kvs →
  ∃ buckets', fill_buckets ((λ k, shard_idx k b) <$> kvs.*1) kvs buckets = Ok buckets' ∧
    length buckets' = length buckets ∧
    ∀ i ks vs, buckets !! i = Some (ks, vs) →
      buckets' !! i = Some (ks ++ (routed b i kvs).*1, vs ++ (routed b i kvs).*2).
Proof.
  revert buckets. induction kvs as [|[k v] kvs IH]; intros buckets Hk.
  - exists buckets. split_and!; [done|done|]. intros i ks vs ->. by rewrite !app_nil_r.
  - apply Forall_cons in Hk as [Hk Hkvs]. cbn [fst] in Hk.
    destruct (lookup_lt_is_Some_2 buckets _ Hk) as [[ks0 vs0] H0].
    destruct (IH (<[Z.to_nat (shard_idx k b) := (ks0 ++ [k], vs0 ++ [v])]> buckets))
      as (buckets' & E & Hl & Hb); [by rewrite length_insert|].
    exists buckets'. cbn [fmap list_fmap fill_buckets fst snd]. rewrite (index_ok _ _ _ H0).
    split_and!; [done|by rewrite Hl, length_insert|]. intros i ks vs Hi.
    unfold routed in *. destruct (decide (Z.to_nat (shard_idx k b) = i)) as [<-|Hne].
    + rewrite (Hb _ (ks0 ++ [k]) (vs0 ++ [v])) by by rewrite list_lookup_insert_eq.
      simplify_eq. rewrite filter_cons_True by done. cbn. by rewrite <-!app_assoc.
    + rewrite filter_cons_False by done. apply Hb. by rewrite list_lookup_insert_ne.
Qed.

(** ** Trees that hold maps *)
Section holds.
Context {HS : Hasher}.
Context {N V : Type} `{LawfulMapStore hsize N} `{LawfulMapStore hsize V}.
Implicit Types (s : ShardedSMT N V) (ms : list (gmap bytes bytes)).

Record sharded_holds s ms : Prop := {
  sh_bits : (0 ≤ shardBits s ≤ 8)%Z;
  sh_length : length (shards s) = 2 ^ Z.to_nat (shardBits s);
  sh_maps : Forall2 smt_holds (shards s) ms;
}.

(** The combined root that [2 ^ b] maps determine, and what it hashes. *)
Definition sharded_root (b : Z) ms : bytes := shard_root (Z.to_nat b) (merkle_root <$> ms).

Definition sharded_preimages (b : Z) ms : gset bytes :=
  ⋃ (map_preimages <$> ms) ∪ root_preimages (Z.to_nat b) (merkle_root <$> ms).

Lemma sharded_holds_length s ms : sharded_holds s ms → length ms = 2 ^ Z.to_nat (shardBits s).
Proof. intros [_ <- HF]. by apply Forall2_length in HF. Qed.

Lemma shardOf_bound s ms key : sharded_holds s ms → shardOf s key < length (shards s).
Proof.
  intros [Hb Hl _]. pose proof (shard_idx_bound key (shardBits s) Hb) as Hi.
  rewrite Hl. unfold shardOf. apply Nat2Z.inj_lt. rewrite Z2Nat.id, Nat2Z.inj_pow, Z2Nat.id; lia.
Qed.

Lemma shardOf_lookup s ms key :
  sharded_holds s ms →
  ∃ t m, shards s !! shardOf s key = Some t ∧ ms !! shardOf s key = Some m ∧ smt_holds t m.
Proof.
  intros Hs. destruct (lookup_lt_is_Some_2 _ _ (shardOf_bound s ms key Hs)) as [t Ht].
  destruct (Forall2_lookup_l _ _ _ _ _ (sh_maps _ _ Hs) Ht) as (m & Hm & Htm). eauto.
Qed.

Lemma sharded_holds_roots s ms : sharded_holds s ms → root <$> shards s = merkle_root <$> ms.
Proof.
  intros [_ _ HF]. induction HF as [|t m ts ms Htm HF IH]; [done|].
  cbn. by rewrite (smt_holds_root _ _ Htm), IH.
Qed.

(** Equal roots, equal maps. *)
Lemma maps_of_roots (U : gset bytes) (ts1 ts2 : list (SparseMerkleTree N V)) ms1 ms2 :
  collision_free U → Forall2 smt_holds ts1 ms1 → Forall2 smt_holds ts2 ms2 →
  ⋃ (map_preimages <$> ms1) ⊆ U → ⋃ (map_preimages <$> ms2) ⊆ U →
  merkle_root <$> ms1 = merkle_root <$> ms2 → ms1 = ms2.
Proof.
  intros CF F1. revert ts2 ms2. induction F1 as [|t1 m1 ts1 ms1 Ht1 F1 IH];
    intros ts2 ms2 F2 U1 U2 Heq; [by destruct ms2|].
  destruct F2 as [|t2 m2 ts2 ms2 Ht2 F2]; [done|]. cbn in *. injection Heq as Hm Hms.
  apply union_subseteq in U1 as [??], U2 as [??]. f_equal.
  - apply merkle_root_inj; [apply Ht1|apply Ht2| |done].
    eapply collision_free_mono; [|exact CF]. by apply union_least.
  - eauto.
Qed.

Lemma merkle_roots_size ms : Forall (λ x, length x = hsize) (merkle_root <$> ms).
Proof. apply Forall_fmap, Forall_forall. intros m _. apply length_thash. Qed.

Lemma computeRoot_run s ms : sharded_holds s ms → computeRoot s = Ok (sharded_root (shardBits s) ms).
Proof.
  intros Hs. unfold computeRoot. cbn zeta. rewrite (sharded_holds_roots s ms Hs).
  pose proof (sharded_holds_length s ms Hs) as Hl.
  rewrite (merge_levels_root _ (Z.to_nat (shardBits s)));
    [|by rewrite length_fmap|rewrite length_fmap, Hl; apply Nat.lt_le_incl, pow2_lt].
  cbn [index lookup list_lookup mbind outcome_bind]. by rewrite make_copy_id.
Qed.

(** Replacing the tree and the map of one shard. *)
Lemma sharded_holds_insert s ms i t m :
  sharded_holds s ms → smt_holds t m →
  sharded_holds (mkSharded (<[i := t]> (shards s)) (shardBits s)) (<[i := m]> ms).
Proof.
  intros [Hb Hl HF] Ht. split; cbn [shards shardBits];
    [done|by rewrite length_insert|by apply Forall2_insert].
Qed.

(** A method of a shard that succeeds. *)
Lemma on_shard_run {A} (P : prog A) i s t a t' :
  shards s !! i = Some t → run P t = (Ok a, t') →
  on_shard i P s = (Ok a, mkSharded (<[i := t']> (shards s)) (shardBits s)).
Proof. intros Ht HP. unfold on_shard. by rewrite Ht, HP. Qed.

(** ** The shards of a bulk update, in any order *)

(** The maps after the shards of [done] have run. *)
Definition bulk_maps (b : Z) (done : list nat) (kvs : list (bytes * bytes)) ms
    : list (gmap bytes bytes) :=
  imap (λ i m, if decide (i ∈ done) then bulk_map (routed b i kvs) m else m) ms.

Lemma run_shards_run b kvs buckets order s ms gotErr :
  sharded_holds s ms → NoDup order →
  (∀ i, i ∈ order → ∃ m, ms !! i = Some m ∧ collision_free (bulk_preimages (routed b i kvs) m) ∧
     buckets !! i = Some ((routed b i kvs).*1, (routed b i kvs).*2)) →
  ∃ s', run_shards order buckets s gotErr = (Ok gotErr, s') ∧
    sharded_holds s' (bulk_maps b order kvs ms) ∧ shardBits s' = shardBits s.
Proof.
  intros Hs Hnd. revert s ms Hs. induction Hnd as [|i order Hi Hnd IH]; intros s ms Hs Hall.
  - exists s. split_and!; [done| |done]. replace (bulk_maps b [] kvs ms) with ms; [done|].
    apply list_eq. intros j. unfold bulk_maps. rewrite list_lookup_imap.
    destruct (ms !! j); [|done]. cbn. by rewrite decide_False by apply not_elem_of_nil.
  - destruct (Hall i ltac:(by left)) as (m & Hm & CF & Hbucket).
    destruct (Forall2_lookup_r _ _ _ _ _ (sh_maps _ _ Hs) Hm) as (t & Ht & Htm).
    destruct (smt_holds_bulk t m (routed b i kvs).*1 (routed b i kvs).*2 Htm) as (t' & E & Ht').
    { by rewrite !length_fmap. }
    { by rewrite zip_fst_snd. }
    rewrite zip_fst_snd in Ht'.
    pose proof (sharded_holds_insert s ms i t' _ Hs Ht') as Hs1.
    destruct (IH _ _ Hs1) as (s' & E' & Hs' & Hb').
    { intros j Hj. destruct (Hall j ltac:(by right)) as (mj & Hmj & ? & ?).
      exists mj. by rewrite list_lookup_insert_ne by (intros ->; done). }
    exists s'. cbn [run_shards]. rewrite Hbucket, (on_shard_run _ _ _ _ _ _ Ht E).
    split_and!; [done| |done].
    replace (bulk_maps b (i :: order) kvs ms)
      with (bulk_maps b order kvs (<[i := bulk_map (routed b i kvs) m]> ms)); [done|].
    apply list_eq. intros j. unfold bulk_maps. rewrite !list_lookup_imap.
    destruct (decide (j = i)) as [->|Hne].
    + rewrite list_lookup_insert_eq by by eapply lookup_lt_Some. rewrite Hm. cbn.
      by rewrite decide_False, decide_True by (done || by left).
    + rewrite list_lookup_insert_ne by done. destruct (ms !! j); [|done]. cbn. f_equal.
      apply decide_ext. rewrite elem_of_cons. tauto.
Qed.

Lemma routed_bulk_nil m : bulk_map [] m = m.
Proof. done. Qed.
End holds.

(** ** The shard counts *)

(** The bit test accepts exactly the powers of two, and the loop counts
    their logarithm. *)
Definition shard_count_ok (c : Z) : bool :=
  if (Z.land c (c - 1) =? 0)%Z
  then let b := count_bits (Z.to_nat c) c 0 in (0 <=? b)%Z && (b <=? 8)%Z && (c =? 2 ^ b)%Z
  else forallb (λ b, negb (c =? 2 ^ b)%Z) (seqZ 0 9).

Lemma shard_counts_ok c : (1 ≤ c ≤ 256)%Z → shard_count_ok c = true.
Proof.
  intros Hc. assert (forallb shard_count_ok (seqZ 1 256) = true) as H by (vm_compute; reflexivity).
  rewrite forallb_forall in H. apply H, list_elem_of_In, elem_of_seqZ. lia.
Qed.

Lemma pow2_8_bound b : (0 ≤ b ≤ 8)%Z → (1 ≤ 2 ^ b ≤ 256)%Z.
Proof.
  intros Hb. pose proof (Z.pow_le_mono_r 2 b 8 ltac:(lia) ltac:(lia)).
  pose proof (Z.pow_pos_nonneg 2 b ltac:(lia) ltac:(lia)). lia.
Qed.
