(* ===== verification/DeepSpec.v ===== *)
(** * Deep subtrees against the tree they are part of.

    [deep_holds g m]: the stores of [g] hold part of those of the tree of the
    map [m], and [g] has its root.  An accepted branch adds the subtrees on
    its path, the map's value and the sibling, nothing else. *)

From S2P Require Import Prelude Utils MapStore TreeHasher Effects Proofs Smt DeepSubTree.
From S2P Require Import ReadOnly Trie Merkle Store Partial Walk Spec ProofsCorrect SmtSpec.

Section branch.
Context {HS : Hasher}.

Section collision_free.
Context (U : gset bytes) (CF : collision_free U).
Implicit Types (g : refstate) (m : gmap bytes bytes).

Definition has_nodes (g : refstate) (l : list bytes) : Prop :=
  Forall (λ d, km_m (n := hsize) (nodes g) !! hsum d = Some d) l.

Lemma run_nodes_Get_has g d :
  km_m (nodes g) !! hsum d = Some d → run (nodes_Get (hsum d)) g = (Ok d, g).
Proof.
  intros Hd. unfold run. cbn. unfold KeyedMap_Get.
  rewrite toFixedKey_ok by apply hsum_length. cbn. by rewrite Hd.
Qed.

Lemma run_values_Get_has g p v :
  length p = hsize → km_m (values g) !! p = Some v → run (values_Get p) g = (Ok v, g).
Proof.
  intros Hp Hv. unfold run. cbn. unfold KeyedMap_Get.
  rewrite toFixedKey_ok by done. cbn. by rewrite Hv.
Qed.

Lemma run_GetDescend_loop_leaf p g q w pre n :
  length p = hsize → wf pre (Leaf q w) → pre `prefix_of` bits p → n + length pre = depth →
  km_m (nodes g) !! thash (Leaf q w) = Some (tdata (Leaf q w)) →
  (∀ v, tmap (Leaf q w) !! p = Some v → km_m (values g) !! p = Some v) →
  run (GetDescend_loop p n (length pre) (thash (Leaf q w))) g =
    (Ok (default [] (tmap (Leaf q w) !! p)), g).
Proof.
  intros Hp W Pp Hn Hd Hv. destruct n as [|n].
  - destruct (wf_full_depth pre (Leaf q w)) as (q' & w' & [= <- <-] & Hq & Hpre); [done..|].
    assert (q = p) as ->.
    { apply bits_inj. rewrite Hpre. destruct Pp as [k Hk]. rewrite Hk. destruct k.
      - by rewrite app_nil_r.
      - apply (f_equal length) in Hk. rewrite length_bits, length_app in Hk. cbn in Hk, Hn.
        unfold depth, pathSize in Hn. lia. }
    cbn [GetDescend_loop tmap] in *. rewrite lookup_singleton_eq in *.
    by apply run_values_Get_has; auto.
  - cbn [GetDescend_loop]. rewrite thash_tdata by done.
    erewrite run_bind_Ok by by apply run_nodes_Get_has.
    erewrite run_bind_Ok by (apply run_lift_Ok, isLeaf_leaf_data). cbn beta iota.
    destruct W as (Hq & _).
    erewrite run_bind_Ok by (by apply run_lift_Ok, parseLeaf_leaf_data).
    cbn beta iota. unfold bytes_Equal. cbn [tmap] in *. case_bool_decide as E; cbn [negb].
    + subst q. rewrite lookup_singleton_eq in *. by apply run_values_Get_has; auto.
    + by rewrite lookup_singleton_ne.
Qed.

(** Descending needs the subtrees on the path and the value. *)
Lemma run_GetDescend_loop p g t : ∀ pre n,
  length p = hsize → wf pre t → pre `prefix_of` bits p → n + length pre = depth →
  t ≠ Empty → preimages t ⊆ U → has_nodes g (branch p (length pre) t) →
  (∀ w, tmap t !! p = Some w → km_m (values g) !! p = Some w) →
  run (GetDescend_loop p n (length pre) (thash t)) g = (Ok (default [] (tmap t !! p)), g).
Proof.
  intros pre n Hp. revert pre n. induction t as [|q w|l IHl r IHr]; intros pre n W Pp Hn Hne HU Hg Hv.
  { done. }
  { inversion Hg as [|x y Hd _]; subst. by apply run_GetDescend_loop_leaf. }
  destruct n as [|n].
  { destruct (wf_full_depth pre (Node l r)) as (? & ? & ? & _); done. }
  cbn [GetDescend_loop branch] in *. apply Forall_cons in Hg as [Hd Hg].
  rewrite thash_tdata by done.
  erewrite run_bind_Ok by by apply run_nodes_Get_has.
  erewrite run_bind_Ok by (apply run_lift_Ok, isLeaf_node_data). cbn beta iota. cbn [tdata].
  erewrite run_bind_Ok by (apply run_lift_Ok, parseNode_node_data, length_thash).
  cbn beta iota.
  assert (length pre < length (bits p)) as Hlt
    by (rewrite length_bits; unfold depth, pathSize in Hn; lia).
  erewrite run_bind_Ok by (apply run_lift_Ok, getBitAtFromMSB_ok, bit_lookup, Hlt).
  pose proof (tmap_node _ _ _ p W) as Hmap. rewrite Hmap in *.
  pose proof (prefix_snoc _ _ Pp Hlt) as Pp'.
  apply wf_node in W as (Wl & Wr & _). rewrite preimages_node in HU.
  assert (∀ b s, bit p (length pre) = b → wf (pre ++ [b]) s → preimages s ⊆ U →
    has_nodes g (branch p (S (length pre)) s) →
    (∀ w, tmap s !! p = Some w → km_m (values g) !! p = Some w) →
    (∀ pre n, wf pre s → pre `prefix_of` bits p → n + length pre = depth → s ≠ Empty →
       preimages s ⊆ U → has_nodes g (branch p (length pre) s) →
       (∀ w, tmap s !! p = Some w → km_m (values g) !! p = Some w) →
       run (GetDescend_loop p n (length pre) (thash s)) g = (Ok (default [] (tmap s !! p)), g)) →
    run (if bytes_Equal (thash s) placeholder then Ret defaultValue
         else GetDescend_loop p n (S (length pre)) (thash s)) g =
      (Ok (default [] (tmap s !! p)), g)) as Hstep.
  { intros b s Hb Ws Us Hgs Hvs IH. destruct (decide (s = Empty)) as [->|Hs].
    - unfold bytes_Equal. by rewrite bool_decide_true.
    - unfold bytes_Equal. rewrite bool_decide_false by by apply (tdata_hash_ne U CF).
      specialize (IH (pre ++ [b]) n). rewrite length_app, Nat.add_1_r in IH.
      rewrite Hb in Pp'. apply IH; done || lia. }
  destruct (bit p (length pre)) eqn:Hb; cbn [Z_of_bit].
  - apply (Hstep true r); [done|done|clear -HU; set_solver|done|done|apply IHr].
  - apply (Hstep false l); [done|done|clear -HU; set_solver|done|done|apply IHl].
Qed.

(** ** Deep subtrees *)

Definition deep_holds (g : refstate) (m : gmap bytes bytes) : Prop :=
  valid_map m ∧ part_of g (map_state m (merkle_root m)).

Lemma run_GetDescend g m key :
  deep_holds g m → map_preimages m ⊆ U →
  has_nodes g (branch (path key) 0 (tree_of m)) →
  (∀ w, m !! path key = Some w → km_m (values g) !! path key = Some w) →
  run (GetDescend key) g = (Ok (map_value m key), g).
Proof.
  intros [Hm Hp] HU Hg Hv. destruct (tree_of_spec m Hm) as [W M]. unfold GetDescend.
  erewrite run_bind_Ok by apply run_Root. rewrite (part_root _ _ Hp). cbn [root map_state tree_state].
  unfold bytes_Equal. case_bool_decide as E.
  - apply (merkle_root_placeholder U CF) in E as ->; [|done..]. done.
  - unfold map_value. rewrite <-M at 2.
    apply (run_GetDescend_loop (path key) g (tree_of m) [] depth);
      [apply length_path|done|apply prefix_nil|cbn; lia| |done|done|by rewrite M].
    intros Hem. apply E. unfold merkle_root. by rewrite Hem.
Qed.

Lemma full_has_nodes m l :
  map_preimages m ⊆ U → list_to_set l ⊆ dataset (tree_of m) →
  has_nodes (map_state m (merkle_root m)) l.
Proof.
  intros HU Hl. apply Forall_forall. intros d Hd.
  apply (store_of_elem U CF); [by apply dataset_univ|].
  apply Hl. by apply elem_of_list_to_set.
Qed.

(** Storing a value of the tree in a deep subtree. *)
Lemma deep_nodes_Set g m d :
  deep_holds g m → map_preimages m ⊆ U → d ∈ dataset (tree_of m) →
  ∃ g', run (nodes_Set (hsum d) d) g = (Ok tt, g') ∧ deep_holds g' m ∧
    km_m (nodes g) ⊆ km_m (nodes g') ∧ km_m (nodes g') !! hsum d = Some d ∧
    values g' = values g.
Proof.
  intros [Hm [Hn Hv Hr]] HU Hd. destruct g as [[gn] [gv] gr]. cbn in *. eexists.
  assert (store_of (dataset (tree_of m)) !! hsum d = Some d) as Hs
    by (apply (store_of_elem U CF); [by apply dataset_univ|done]).
  split.
  { unfold run. cbn. unfold KeyedMap_Set. by rewrite toFixedKey_ok by apply hsum_length. }
  cbn. split_and!; [split; [done|constructor; try done]| |by rewrite lookup_insert_eq|done].
  - apply map_subseteq_spec. intros h x. cbn. intros [[<- <-]|[_ Hx]]%lookup_insert_Some; [done|].
    by eapply lookup_weaken.
  - apply map_subseteq_spec. intros h x Hx. apply lookup_insert_Some.
    destruct (decide (hsum d = h)) as [<-|]; [left; split; [done|]|by right].
    pose proof (lookup_weaken _ _ _ _ Hx Hn) as Hx'. cbn in Hx'. congruence.
Qed.

Lemma deep_add_nodes m l : ∀ g,
  deep_holds g m → map_preimages m ⊆ U → list_to_set l ⊆ dataset (tree_of m) →
  ∃ g', run (for_each (hashed <$> l) (λ u, nodes_Set u.1 u.2)) g = (Ok tt, g') ∧
    deep_holds g' m ∧ km_m (nodes g) ⊆ km_m (nodes g') ∧ has_nodes g' l ∧ values g' = values g.
Proof.
  induction l as [|d l IH]; intros g Hg HU Hl.
  { exists g. split_and!; [done|done|done|constructor|done]. }
  rewrite list_to_set_cons in Hl. apply union_subseteq in Hl as [Hd%singleton_subseteq_l Hl].
  destruct (deep_nodes_Set g m d Hg HU Hd) as (g1 & E1 & H1 & S1 & D1 & V1).
  destruct (IH g1 H1 HU Hl) as (g2 & E2 & H2 & S2 & D2 & V2).
  exists g2. rewrite fmap_cons. cbn [for_each hashed fst snd].
  rewrite (run_bind_Ok _ _ _ _ _ E1). split_and!; [done|done|by etrans| |congruence].
  apply Forall_cons. split; [|done]. by eapply lookup_weaken.
Qed.

(** The leaf a proof of the map starts from. *)
Lemma map_start m key :
  valid_map m → let e := (descend (path key) 0 (tree_of m)).2 in
  start (path key) (map_value m key) (thash e) (end_list e).
Proof.
  intros Hm e. destruct (tree_of_spec m Hm) as [W M].
  pose proof (descend_wf [] (path key) _ W (prefix_nil _) (length_path _)) as (_ & We & Hlk).
  pose proof (descend_end (path key) 0 (tree_of m)) as Hend.
  cbn [length] in *. rewrite M in Hlk. unfold map_value. rewrite Hlk. fold e in We, Hend |- *.
  destruct e as [|q w|l r]; [by constructor| |by destruct (Hend l r)].
  destruct We as (Hq & Hw & _). cbn [tmap thash end_list tdata].
  destruct (decide (q = path key)) as [->|Hne].
  - rewrite lookup_singleton_eq. by constructor.
  - rewrite lookup_singleton_ne by done. by constructor.
Qed.

(** One leaf hash is the hash of one leaf. *)
Lemma start_data_inj p v1 v2 h ds1 ds2 :
  start p v1 h ds1 → start p v2 h ds2 → list_to_set ds1 ⊆ U → list_to_set ds2 ⊆ U → ds1 = ds2.
Proof.
  assert (∀ v h ds, start p v h ds → ds = [] ∧ h = placeholder ∨ ∃ d, ds = [d] ∧ h = hsum d)
    as Hcase by (intros ??? []; eauto).
  intros [[-> ->]|(d1 & -> & ->)]%Hcase [[-> Hh]|(d2 & -> & Hh)]%Hcase; try done; cbn;
    rewrite ?(right_id_L ∅ (∪)), ?singleton_subseteq_l; intros H1 H2.
  - symmetry in Hh. by apply (cf_zero _ CF) in Hh.
  - by apply (cf_zero _ CF) in Hh.
  - f_equal. by apply (cf_inj _ CF).
Qed.

(** A proof that is accepted for the map's root has the side nodes of the
    map's tree, and its updates are the subtrees on the path. *)
Lemma accepted_updates m proof key value :
  valid_map m → map_preimages m ⊆ U → proof_preimages proof key value ⊆ U →
  VerifyProof proof (merkle_root m) key value = Ok true →
  let t := tree_of m in
  value = map_value m key ∧
  SideNodes proof = thash <$> reverse (descend (path key) 0 t).1 ∧
  verifyProofWithUpdates proof (merkle_root m) key value =
    Ok (true, hashed <$> reverse (branch (path key) 0 t)).
Proof.
  intros Hm HU HUp Hacc t.
  assert (value = map_value m key ∧ SideNodes proof = SideNodes (map_proof m key false))
    as [Hval Hsns].
  { eapply (VerifyProof_inj U CF); [exact Hacc|by apply map_proof_verifies|done|].
    etrans; [by apply map_proof_preimages|done]. }
  assert (SideNodes (map_proof m key false) = thash <$> reverse (descend (path key) 0 t).1)
    as Hside by (unfold map_proof; by destruct (descend _ _ _)).
  rewrite Hside in Hsns. split_and!; [done|done|].
  pose proof (VerifyProof_inv _ _ _ _ Hacc) as (h' & ds' & Hst' & _ & Hroot & Hds' & _ & _).
  destruct (verifyProofWithUpdates_spec proof key value) as [E|(h & ds & Hst & Hs & E)].
  { unfold VerifyProof in Hacc. by rewrite E in Hacc. }
  assert (list_to_set ds ⊆ U ∧
    list_to_set (vdata (path key) 0 (reverse (SideNodes proof)) h) ⊆ U) as [Dd Dv].
  { unfold proof_preimages in HUp. rewrite E, fmap_app, !hashed_snd, list_to_set_app_L,
      list_to_set_reverse in HUp. clear -HUp. set_solver. }
  unfold VerifyProof in Hacc. rewrite E in Hacc. cbn [mbind outcome_bind] in Hacc. injection Hacc as Hacc.
  rewrite E, Hacc. f_equal. f_equal.
  assert (reverse (SideNodes proof) = thash <$> (descend (path key) 0 t).1) as Hrev
    by (by rewrite Hsns, fmap_reverse, reverse_involutive).
  rewrite Hrev in Dv, Hacc |- *.
  apply bool_decide_eq_true in Hacc.
  pose proof (map_start m key Hm) as Hst2. cbn zeta in Hst2. fold t in Hst2.
  pose proof (branch_spine (path key) 0 t) as Hb.
  pose proof (branch_dataset (path key) 0 t) as HbU.
  pose proof (rebuild_descend (path key) 0 t) as Hreb.
  destruct (descend (path key) 0 t) as [sibs e]. cbn [fst snd] in *.
  destruct (vclimb_rebuild (path key) 0 sibs e) as [C1 C2].
  assert (dataset t ⊆ U) as HtU by by apply dataset_univ.
  rewrite Hb, list_to_set_app_L in HbU.
  assert (h = thash e) as ->.
  { assert (Forall (λ sn, length sn = hsize) (thash <$> sibs)) as HF.
    { apply Forall_forall. intros x Hx. apply list_elem_of_fmap in Hx as (s & -> & _).
      apply length_thash. }
    eapply (vclimb_inj U CF (path key) value (map_value m key) h (thash e) ds (end_list e) Hst Hst2
      Dd ltac:(clear -HbU HtU; set_solver) (thash <$> sibs) (thash <$> sibs) 0 HF HF Dv).
    - rewrite C2. clear -HbU HtU. set_solver.
    - by rewrite C1, Hreb. }
  assert (ds = end_list e) as ->.
  { eapply start_data_inj; [exact Hst|exact Hst2|done|]. clear -HbU HtU. set_solver. }
  rewrite C2, <-fmap_app. f_equal. rewrite Hb, reverse_app. f_equal. by destruct e.
Qed.
(** Setting the map's value of a key. *)
Lemma deep_values_Set g m key v :
  deep_holds g m → m !! path key = Some v →
  ∃ g', run (values_Set (path key) v) g = (Ok tt, g') ∧ deep_holds g' m ∧
    nodes g' = nodes g ∧ km_m (values g') !! path key = Some v.
Proof.
  intros [Hm [Hn Hv Hr]] Hk. destruct g as [[gn] [gv] gr]. cbn in *. eexists.
  split.
  { unfold run. cbn. unfold KeyedMap_Set. by rewrite toFixedKey_ok by apply length_path. }
  cbn. split_and!; [split; [done|constructor; try done]|done|by rewrite lookup_insert_eq].
  by apply insert_subseteq_l.
Qed.

(** The data of the sibling of an accepted proof is that of the tree. *)
Lemma accepted_sibling m proof key value d sn sns :
  valid_map m → map_preimages m ⊆ U → proof_preimages proof key value ⊆ U → d ∈ U →
  VerifyProof proof (merkle_root m) key value = Ok true →
  SiblingData proof = Some d → SideNodes proof = sn :: sns →
  sn = hsum d ∧ d ∈ dataset (tree_of m).
Proof.
  intros Hm HU HUp Hd Hacc Hsib Hsn.
  destruct (accepted_updates m proof key value Hm HU HUp Hacc) as (_ & Hsns & _).
  destruct (VerifyProof_inv _ _ _ _ Hacc) as (_ & _ & _ & Hsane & _).
  pose proof (sanityCheck_sibling _ _ _ _ Hsane Hsib Hsn) as Hdig. rewrite digest_hsum in Hdig.
  split; [done|]. rewrite Hsn in Hsns.
  pose proof (λ s, last_sibling [] (path key) _ s (proj1 (tree_of_spec m Hm))) as Hlast.
  cbn [length] in Hlast.
  destruct (descend (path key) 0 (tree_of m)).1 as [|s sibs _] using rev_ind; [done|].
  rewrite reverse_snoc in Hsns. injection Hsns as Hsns _.
  destruct (Hlast s) as [Hne Hin]; [apply last_snoc|].
  assert (d = tdata s) as ->; [|done].
  apply (cf_inj _ CF); [done| |].
  - by apply (dataset_univ U CF m HU).
  - by rewrite <-Hdig, Hsns, thash_tdata.
Qed.

Definition sibling_preimages (proof : SparseMerkleProof) : gset bytes :=
  match SiblingData proof with Some d => {[d]} | None => ∅ end.

(** AddBranch with an accepted proof. *)
Lemma run_AddBranch g m proof key value :
  deep_holds g m → map_preimages m ⊆ U → proof_preimages proof key value ⊆ U →
  sibling_preimages proof ⊆ U →
  VerifyProof proof (merkle_root m) key value = Ok true →
  ∃ g', run (AddBranch proof key value) g = (Ok tt, g') ∧ deep_holds g' m ∧
    has_nodes g' (branch (path key) 0 (tree_of m)) ∧
    (∀ w, m !! path key = Some w → km_m (values g') !! path key = Some w) ∧
    (∀ d sn sns, SiblingData proof = Some d → SideNodes proof = sn :: sns →
       km_m (nodes g') !! sn = Some d).
Proof.
  intros Hg HU HUp HUs Hacc. pose proof Hg as [Hm Hp].
  destruct (accepted_updates m proof key value Hm HU HUp Hacc) as (Hval & _ & Hupd).
  unfold AddBranch. rewrite (run_bind_Ok _ _ _ _ _ (run_Root g)), (part_root _ _ Hp).
  cbn [root map_state tree_state].
  erewrite run_bind_Ok by by apply run_lift_Ok. cbn beta iota. cbn [negb].
  (* the value *)
  assert (∃ g1, run (if negb (bytes_Equal value defaultValue)
                     then values_Set (path key) value else Ret tt) g = (Ok tt, g1) ∧
    deep_holds g1 m ∧ nodes g1 = nodes g ∧
    ∀ w, m !! path key = Some w → km_m (values g1) !! path key = Some w)
    as (g1 & E1 & H1 & N1 & V1).
  { unfold bytes_Equal, map_value in *. case_bool_decide as Hv; cbn [negb].
    - exists g. split_and!; try done. intros w Hw. destruct (Hm _ _ Hw) as [_ Hne].
      rewrite Hw in Hval. cbn in Hval. destruct Hne. by rewrite <-Hval.
    - destruct (m !! path key) as [w|] eqn:Hw; [|by destruct Hv]. cbn in Hval. subst w.
      destruct (deep_values_Set g m key value Hg Hw) as (g1 & ? & ? & ? & ?).
      exists g1. split_and!; try done. by intros ? [= <-]. }
  rewrite (run_bind_Ok _ _ _ _ _ E1).
  (* the nodes *)
  destruct (deep_add_nodes m (reverse (branch (path key) 0 (tree_of m))) g1 H1 HU)
    as (g2 & E2 & H2 & S2 & D2 & V2).
  { rewrite list_to_set_reverse. apply branch_dataset. }
  rewrite (run_bind_Ok _ _ _ _ _ E2).
  assert (has_nodes g2 (branch (path key) 0 (tree_of m))) as D2'.
  { unfold has_nodes in *. rewrite <-(reverse_involutive (branch _ _ _)). by apply Forall_reverse. }
  (* the sibling *)
  destruct (SiblingData proof) as [d|] eqn:Hsib; [destruct (SideNodes proof) as [|sn sns] eqn:Hsn|].
  1,3: exists g2; rewrite run_Ret; split_and!; try done; intros w Hw; rewrite V2; by apply V1.
  unfold sibling_preimages in HUs. rewrite Hsib in HUs.
  destruct (accepted_sibling m proof key value d sn sns Hm HU HUp) as [-> Hin];
    [clear -HUs; set_solver|done|done|done|].
  destruct (deep_nodes_Set g2 m d H2 HU Hin) as (g3 & E3 & H3 & S3 & D3 & V3).
  exists g3. split_and!; [done|done| | |by intros ??? [= <-] [= <- <-]].
  - eapply Forall_impl; [exact D2'|]. intros x Hx. exact (lookup_weaken _ _ _ _ Hx S3).
  - intros w Hw. rewrite V3, V2. by apply V1.
Qed.
End collision_free.
End branch.
