(* ===== verification/DeepUpdate.v ===== *)
(** * Updates of a deep subtree that has the branch of the key.

    An update reads and deletes the nodes of the path, the last sibling when
    it deletes, and the value of the key: with these a deep subtree does what
    the whole tree does. *)

From S2P Require Import Prelude Utils MapStore TreeHasher Effects Proofs Smt DeepSubTree.
From S2P Require Import Trie Merkle Store Partial Footprint Walk Spec ProofsCorrect SmtSpec.
From S2P Require Import DeepSpec.

Section deep_update.
Context {HS : Hasher}.
Context (U : gset bytes) (CF : collision_free U).
Implicit Types (g : refstate) (m : gmap bytes bytes).

(** The node store of a deep subtree is a set of values of the tree. *)
Lemma deep_tree_state g m :
  deep_holds g m → map_preimages m ⊆ U →
  ∃ E, E ⊆ dataset (tree_of m) ∧ (∀ d, km_m (nodes g) !! hsum d = Some d → d ∈ E) ∧
    g = tree_state E (km_m (values g)) (merkle_root m).
Proof.
  intros [Hm [Hn Hv Hr]] HU. destruct g as [[gn] [gv] gr]. cbn in *. subst gr.
  pose proof (dataset_univ U CF m HU) as HD.
  assert (∀ h d, gn !! h = Some d → d ∈ dataset (tree_of m) ∧ hsum d = h) as Hgn.
  { intros h d Hd. apply (lookup_store_of U CF _ h d HD). by eapply lookup_weaken. }
  exists (filter (λ d, gn !! hsum d = Some d) (dataset (tree_of m))). split_and!.
  - intros d. by rewrite elem_of_filter; intros [_ ?].
  - intros d Hd. apply elem_of_filter. split; [done|]. by apply (Hgn (hsum d)).
  - unfold tree_state. do 2 f_equal. apply map_eq. intros h. apply option_eq. intros d.
    rewrite (lookup_store_of U CF), elem_of_filter
      by (intros x; rewrite elem_of_filter; intros [_ ?]; by apply HD).
    split; [|by intros [[? _] <-]]. intros Hd. destruct (Hgn h d Hd) as [? <-]. done.
Qed.

(** What UpdateForRoot does after its walk. *)
Definition after_walk (key value root : bytes) (w : pathSlices * option bytes * option bytes)
    : prog bytes :=
  let p := path key in
  let '(ps, oldLeafData, _) := w in
  if bytes_Equal value defaultValue then
    r ← try (deleteWithSideNodes p (sideNodes ps) (pathNodes ps) oldLeafData);
    match r with
    | inl errKeyAlreadyEmpty => Ret root
    | _ =>
        values_Delete p ;;
        match r with
        | inl e => Throw e
        | inr newRoot => Ret newRoot
        end
    end
  else updateWithSideNodes p value (sideNodes ps) (pathNodes ps) oldLeafData.

Lemma UpdateForRoot_walk key value root :
  UpdateForRoot key value root = fillSideNodes (path key) root false ≫= after_walk key value root.
Proof. done. Qed.

(** The keys it reads or deletes. *)
Definition update_keys (key value : bytes) (ps : pathSlices) (st : store_id) (k : bytes) : Prop :=
  match st with
  | NodeStore => k ∈ pathNodes ps ∨ value = defaultValue ∧ head (sideNodes ps) = Some k
  | ValueStore => k = path key
  end.

Lemma within_after_walk key value root ps old sib :
  within (update_keys key value ps) (after_walk key value root (ps, old, sib)).
Proof.
  unfold after_walk, bytes_Equal. case_bool_decide as Hv.
  - apply within_bind.
    + apply within_try, within_deleteWithSideNodes; [by left|by right].
    + intros [[]|]; try exact I; apply within_bind; try done; by apply within_Delete.
  - apply within_updateWithSideNodes; [by left|done].
Qed.

(** The branch of a key, its value and its last sibling. *)
Definition updatable (g : refstate) m (key value : bytes) : Prop :=
  has_nodes g (branch (path key) 0 (tree_of m)) ∧
  (∀ w, m !! path key = Some w → km_m (values g) !! path key = Some w) ∧
  (value = defaultValue → ∀ s, last (descend (path key) 0 (tree_of m)).1 = Some s →
     km_m (nodes g) !! thash s = Some (tdata s)).

Lemma updatable_same g m key value :
  deep_holds g m → map_preimages m ⊆ U → updatable g m key value →
  let sibs := (descend (path key) 0 (tree_of m)).1 in
  let e := (descend (path key) 0 (tree_of m)).2 in
  same_on (update_keys key value
    (mkPathSlices (thash <$> reverse sibs)
       (thash e :: (hsum <$> reverse (spine (path key) 0 sibs e)))))
    g (map_state m (merkle_root m)).
Proof.
  intros [Hm Hp] HU (Hn & Hv & Hs) sibs e. pose proof (dataset_univ U CF m HU) as HD.
  destruct (tree_of_spec m Hm) as [W _].
  assert (∀ d, d ∈ branch (path key) 0 (tree_of m) →
    km_m (nodes g) !! hsum d = km_m (nodes (map_state m (merkle_root m))) !! hsum d) as Hbr.
  { intros d Hd. rewrite (proj1 (Forall_forall _ _) Hn d Hd). symmetry.
    eapply lookup_weaken; [exact (proj1 (Forall_forall _ _) Hn d Hd)|apply Hp]. }
  rewrite branch_spine in Hbr. fold sibs e in Hbr.
  constructor; [apply Hp|]. intros [] k; cbn [update_keys pathNodes sideNodes store_map].
  - intros [[->|Hk]%elem_of_cons|[-> Hk]].
    + destruct (decide (e = Empty)) as [He|He].
      * rewrite He. assert (store_of (dataset (tree_of m)) !! placeholder = None) as Hnone
          by by apply (store_of_placeholder U CF).
        cbn [thash map_state nodes tree_state km_m]. rewrite Hnone.
        eapply lookup_weaken_None; [exact Hnone|apply Hp].
      * rewrite thash_tdata by done. apply Hbr, elem_of_app. right.
        destruct e; [done|by left..].
    + apply list_elem_of_fmap in Hk as (d & -> & Hd). apply Hbr, elem_of_app. left.
      by apply elem_of_reverse.
    + rewrite head_lookup, list_lookup_fmap, <-head_lookup, head_reverse in Hk.
      destruct (last sibs) as [s|] eqn:El; [|done]. injection Hk as <-.
      rewrite (Hs eq_refl s El). symmetry. eapply lookup_weaken; [by apply Hs|apply Hp].
  - intros ->. destruct (m !! path key) as [w|] eqn:Ew.
    + by rewrite (Hv w eq_refl).
    + etrans; [|symmetry; exact Ew]. eapply lookup_weaken_None; [exact Ew|apply Hp].
Qed.

(** It succeeds, and whatever else the two trees agreed on, they agree on
    after it. *)
Lemma run_Update_deep_on K g m key value :
  deep_holds g m → map_preimages m ⊆ U → map_preimages (update_map key value m) ⊆ U →
  updatable g m key value → same_on K g (map_state m (merkle_root m)) →
  ∃ g', run (Update key value) g = (Ok (merkle_root (update_map key value m)), g') ∧
    same_on K g' (map_state (update_map key value m) (merkle_root (update_map key value m))).
Proof.
  intros Hg HU HU' Hup HK. pose proof Hg as [Hm Hp]. destruct (tree_of_spec m Hm) as [W _].
  pose proof (run_Update U CF key value m Hm HU HU') as Hfull.
  pose proof (same_on_or _ _ _ _ (updatable_same g m key value Hg HU Hup) HK) as Hsame.
  cbn zeta in Hsame.
  destruct (deep_tree_state g m Hg HU) as (E & HE & Hmem & Eg).
  pose proof (dataset_univ U CF m HU) as HD.
  set (sibs := (descend (path key) 0 (tree_of m)).1) in *.
  set (e := (descend (path key) 0 (tree_of m)).2) in *.
  set (ps := mkPathSlices _ _) in *. set (f := map_state m (merkle_root m)) in *.
  assert (run (fillSideNodes (path key) (merkle_root m) false) f =
    (Ok (ps, end_data e, None), f)) as Ef
    by (by apply (fillSideNodes_run U CF); [apply length_path|..]).
  assert (run (fillSideNodes (path key) (merkle_root m) false) g =
    (Ok (ps, end_data e, None), g)) as Egw.
  { rewrite Eg. apply (fillSideNodes_run_part U CF); [apply length_path|by etrans|done..| |done].
    intros d Hd%elem_of_list_to_set. by apply Hmem, (proj1 (Forall_forall _ _) (proj1 Hup)). }
  revert Hfull. unfold Update. rewrite !(run_bind Root), !run_Root, (part_root _ _ Hp).
  change (root (map_state m (merkle_root m))) with (merkle_root m).
  change (root f) with (merkle_root m). cbv beta iota.
  rewrite !UpdateForRoot_walk, !run_bind, Ef, Egw.
  assert (within (λ st k, update_keys key value ps st k ∨ K st k)
    (after_walk key value (merkle_root m) (ps, end_data e, None))) as Hwithin
    by (eapply within_mono; [|apply within_after_walk]; by left).
  destruct (run_same _ _ g f Hwithin Hsame) as [E1 Hs1].
  destruct (run (after_walk _ _ _ _) g) as [o g1], (run (after_walk _ _ _ _) f) as [o' f1].
  cbn [fst snd] in *. subst o'. destruct o as [r| |]; [|done..]. rewrite !run_bind, !run_SetRoot.
  rewrite !run_Ret. intros Hfull. pose proof (f_equal snd Hfull) as Ef'. cbn [snd] in Ef'.
  apply (f_equal fst) in Hfull. cbn [fst] in Hfull. injection Hfull as ->.
  eexists. split; [done|]. rewrite <-Ef'.
  destruct Hs1 as [_ Hs1]. split; [done|]. intros st k Hk. specialize (Hs1 st k (or_intror Hk)).
  by destruct st.
Qed.

Lemma run_Update_deep g m key value :
  deep_holds g m → map_preimages m ⊆ U → map_preimages (update_map key value m) ⊆ U →
  updatable g m key value →
  (run (Update key value) g).1 = Ok (merkle_root (update_map key value m)).
Proof.
  intros Hg HU HU' Hup.
  destruct (run_Update_deep_on (λ _ _, False) g m key value) as (g' & -> & _); try done.
  split; [apply Hg|done].
Qed.
End deep_update.
