(* ===== verification/DeepReplay.v ===== *)
(** * Sequences of updates on a deep subtree with several branches.

    An insertion keeps every branch that is known: what it adds to the path of
    another key it also stores, and the rest was on that path before.  So a
    deep subtree with the branches of some keys can replay any sequence of
    insertions and overwrites of these keys.  (A deletion moves a sibling up,
    whose data a later deletion needs and no branch has.) *)

From S2P Require Import Prelude Utils MapStore TreeHasher Effects Proofs Smt DeepSubTree.
From S2P Require Import Trie Merkle Store Partial Footprint Walk Spec ProofsCorrect SmtSpec.
From S2P Require Import DeepSpec DeepUpdate.

Section branches.
Context {HS : Hasher}.
Context (U : gset bytes) (CF : collision_free U).

(** What an insertion puts on the path of a key is new, or was there. *)
Lemma branch_insert k v p d t : ∀ pre,
  wf pre t → wf pre (tinsert (length pre) k v t) →
  preimages t ⊆ U → preimages (tinsert (length pre) k v t) ⊆ U →
  d ∈ branch p (length pre) (tinsert (length pre) k v t) → d ∈ dataset t →
  d ∈ branch p (length pre) t.
Proof.
  induction t as [|q w|l IHl r IHr]; intros pre W W' HU HU' Hb Hd; [set_solver| |].
  { cbn [dataset] in Hd. apply elem_of_singleton in Hd as ->. by left. }
  set (n := length pre) in *.
  set (l' := if bit k n then l else tinsert (S n) k v l).
  set (r' := if bit k n then tinsert (S n) k v r else r).
  assert (tinsert n k v (Node l r) = Node l' r') as Et
    by (subst l' r'; cbn [tinsert]; by destruct (bit k n)).
  rewrite Et in W', HU', Hb. pose proof W as (Wl & Wr & _). pose proof W' as (Wl' & Wr' & _).
  destruct (node_disjoint U CF _ _ _ W' HU') as (_ & _ & Hdisj).
  assert (∀ b x y s, wf pre (Node x y) → preimages (Node x y) ⊆ U → wf (pre ++ [b]) s →
    preimages s ⊆ U → tdata (Node x y) ∉ dataset s) as Habove.
  { intros b x y s Wn Un Ws Us Hs. pose proof (node_in_dataset U CF _ _ _ _ _ Ws Us Wn Un Hs) as Hp.
    apply prefix_length in Hp. rewrite length_app in Hp. cbn in Hp. lia. }
  assert (preimages l ⊆ U ∧ preimages r ⊆ U) as [Ul Ur]
    by (rewrite preimages_node in HU; clear -HU; set_solver).
  assert (preimages l' ⊆ U ∧ preimages r' ⊆ U) as [Ul' Ur']
    by (rewrite preimages_node in HU'; clear -HU'; set_solver).
  cbn [branch] in Hb |- *. rewrite dataset_node, !elem_of_union, elem_of_singleton in Hd.
  apply elem_of_cons in Hb as [->|Hb].
  { destruct Hd as [[->|Hd]|Hd]; [by left| |].
    - by destruct (Habove _ _ _ _ W' HU' Wl Ul Hd).
    - by destruct (Habove _ _ _ _ W' HU' Wr Ur Hd). }
  right. pose proof (branch_dataset p (S n) (if bit p n then r' else l') d
    (proj2 (elem_of_list_to_set _ _) Hb)) as Hin.
  assert (d ≠ tdata (Node l r)) as Hne.
  { intros ->. destruct (bit p n); [by destruct (Habove _ _ _ _ W HU Wr' Ur' Hin)
    |by destruct (Habove _ _ _ _ W HU Wl' Ul' Hin)]. }
  destruct Hd as [[|Hd]|Hd]; [done|..]; subst l' r';
    destruct (bit p n) eqn:Ep, (bit k n) eqn:Ek; try done;
    try (by destruct (Hdisj d)).
  - specialize (IHl (pre ++ [false])). rewrite length_app, Nat.add_1_r in IHl. by apply IHl.
  - specialize (IHr (pre ++ [true])). rewrite length_app, Nat.add_1_r in IHr. by apply IHr.
Qed.
End branches.

(** *** Deep subtrees with several branches *)
Section replay.
Context {HS : Hasher}.
Context (U : gset bytes) (CF : collision_free U).
Implicit Types (g : refstate) (m : gmap bytes bytes).

Definition has_branch g m (p : bytes) : Prop :=
  has_nodes g (branch p 0 (tree_of m)) ∧
  ∀ w, m !! p = Some w → km_m (values g) !! p = Some w.

(** The keys on which the subtree and the whole tree agree before the update
    that inserts [key]: the branches of [ps] after it, as far as they are
    there before, and the values of [ps]. *)
Definition replay_keys m' (ps : list bytes) (st : store_id) (k : bytes) : Prop :=
  match st with
  | NodeStore => ∃ p d, p ∈ ps ∧ k = hsum d ∧ d ∈ branch p 0 (tree_of m')
  | ValueStore => k ∈ ps
  end.

Lemma replay_same g m key value ps :
  deep_holds g m → value ≠ [] →
  map_preimages m ⊆ U → map_preimages (update_map key value m) ⊆ U →
  (∀ p, p ∈ ps → has_branch g m p) →
  same_on (replay_keys (update_map key value m) ps) g (map_state m (merkle_root m)).
Proof.
  intros [Hm Hp] Hv HU HU' Hps. pose proof (dataset_univ U CF m HU) as HD.
  pose proof (dataset_univ U CF _ HU') as HD'.
  destruct (tree_of_spec m Hm) as [W _].
  destruct (tree_of_spec _ (valid_map_update key value m Hm)) as [W' _].
  constructor; [apply Hp|]. intros [] k; cbn [replay_keys store_map].
  - intros (p & d & Hin & -> & Hd). destruct (Hps p Hin) as [Hn _].
    pose proof (branch_dataset p 0 _ d (proj2 (elem_of_list_to_set _ _) Hd)) as Hd'.
    destruct (decide (d ∈ dataset (tree_of m))) as [Hold|Hnew].
    + assert (d ∈ branch p 0 (tree_of m)) as Hb.
      { unfold update_map, bytes_Equal in HU', Hd, W'.
        rewrite bool_decide_false in HU', Hd, W' by done. unfold map_preimages in HU, HU'.
        rewrite tree_of_insert in HU', Hd, W' by done.
        by apply (branch_insert U CF (path key) value p d (tree_of m) []). }
      rewrite (proj1 (Forall_forall _ _) Hn d Hb). symmetry.
      eapply lookup_weaken; [exact (proj1 (Forall_forall _ _) Hn d Hb)|apply Hp].
    + assert (km_m (nodes (map_state m (merkle_root m))) !! hsum d = None) as Hnone
        by by apply (store_of_not_elem U CF); [|apply HD'|].
      rewrite Hnone. eapply lookup_weaken_None; [exact Hnone|apply Hp].
  - intros Hin. destruct (Hps k Hin) as [_ Hval]. destruct (m !! k) as [w|] eqn:Ew.
    + rewrite (Hval w eq_refl). symmetry. exact Ew.
    + etrans; [|symmetry; exact Ew]. eapply lookup_weaken_None; [exact Ew|apply Hp].
Qed.
(** A deep subtree that does not report a missing key does what the whole
    tree does. *)
Lemma deep_run {A} (P : prog A) g m a f' :
  deep_holds g m → monotone P → run P (map_state m (merkle_root m)) = (Ok a, f') →
  missing (run P g) ∨ ∃ g', run P g = (Ok a, g') ∧ part_of g' f'.
Proof.
  intros [Hm Hp] HP E. destruct (HP _ _ Hp) as [|[E1 Hp']]; [by left|right].
  rewrite E in *. destruct (run P g) as [o g']. cbn in *. subst o. by eexists.
Qed.

Definition has_branches g m (ps : list bytes) : Prop := ∀ p, p ∈ ps → has_branch g m p.

(** An insertion of a key whose branch is known. *)
Lemma replay_update g m key value ps :
  deep_holds g m → value ≠ [] → path key ∈ ps → has_branches g m ps →
  map_preimages m ⊆ U → map_preimages (update_map key value m) ⊆ U →
  ∃ g', run (Update key value) g = (Ok (merkle_root (update_map key value m)), g') ∧
    deep_holds g' (update_map key value m) ∧ has_branches g' (update_map key value m) ps.
Proof.
  intros Hg Hv Hin Hps HU HU'. pose proof (proj1 Hg) as Hm.
  pose proof (valid_map_update key value m Hm) as Hm'.
  destruct (Hps _ Hin) as [Hn Hval].
  destruct (run_Update_deep_on U CF (replay_keys (update_map key value m) ps) g m key value Hg HU HU')
    as (g' & E & Hsame);
    [by split_and!|by apply replay_same|].
  exists g'. split; [done|].
  destruct (deep_run (Update key value) g m _ _ Hg (monotone_Update key value)
    (run_Update U CF key value m Hm HU HU')) as [(k & g2 & E2)|(g2 & E2 & Hp)];
    rewrite E in E2; [done|injection E2 as <-].
  split; [by split|]. intros p Hp'. destruct Hsame as [_ Hs]. split.
  - apply Forall_forall. intros d Hd.
    assert (replay_keys (update_map key value m) ps NodeStore (hsum d)) as Hk by by exists p, d.
    rewrite (Hs NodeStore (hsum d) Hk : km_m (nodes g') !! hsum d = _).
    pose proof (full_has_nodes U CF _ (branch p 0 (tree_of (update_map key value m))) HU'
      (branch_dataset _ _ _)) as Hfull.
    exact (proj1 (Forall_forall _ _) Hfull d Hd).
  - intros w Hw. by rewrite (Hs ValueStore p Hp' : km_m (values g') !! p = _).
Qed.

Lemma replay_updates kvs ps : ∀ g m,
  deep_holds g m → has_branches g m ps → history_preimages kvs m ⊆ U →
  Forall (λ kv, path kv.1 ∈ ps ∧ kv.2 ≠ []) kvs →
  ∃ g', run (run_updates kvs) g = (Ok tt, g') ∧ deep_holds g' (update_all kvs m) ∧
    has_branches g' (update_all kvs m) ps.
Proof.
  induction kvs as [|[k v] kvs IH]; intros g m Hg Hps HU Hkvs; [by exists g|].
  apply Forall_cons in Hkvs as [[Hin Hv] Hkvs]. cbn [history_preimages fst snd] in *.
  apply union_subseteq in HU as [HU HU'].
  assert (map_preimages (update_map k v m) ⊆ U) as HU1
    by (destruct kvs as [|[k' v'] kvs]; cbn [history_preimages] in HU';
        by apply union_subseteq in HU' as [? _]).
  destruct (replay_update g m k v ps Hg Hv Hin Hps HU HU1) as (g1 & E1 & Hg1 & Hps1).
  destruct (IH g1 _ Hg1 Hps1 HU' Hkvs) as (g2 & E2 & Hg2 & Hps2).
  exists g2. split_and!; [|done..]. unfold run_updates in *. cbn [for_each fst snd].
  rewrite (run_bind_Ok _ _ _ tt g1); [done|]. by rewrite (run_bind_Ok _ _ _ _ _ E1).
Qed.
End replay.

(** *** Adding branches *)

(** Programs that delete nothing keep what the stores have. *)
Fixpoint no_delete {A} (m : prog A) : Prop :=
  match m with
  | Ret _ | Throw _ | Crash => True
  | GetOp _ _ c => ∀ r, no_delete (c r)
  | SetOp _ _ _ c => ∀ r, no_delete (c r)
  | RootOp c => ∀ r, no_delete (c r)
  | SetRootOp _ c => no_delete c
  | DeleteOp _ _ _ => False
  end.

Section add_branches.
Context {HS : Hasher}.
Implicit Types (g : refstate) (m : gmap bytes bytes).

Lemma no_delete_bind {A B} (P : prog A) (f : A → prog B) :
  no_delete P → (∀ a, no_delete (f a)) → no_delete (P ≫= f).
Proof. intros HP Hf. induction P; cbn in *; naive_solver. Qed.

Lemma no_delete_Set st k v : no_delete (store_Set st k v).
Proof. by intros [|]. Qed.

Lemma no_delete_for_each {A} (l : list A) (body : A → prog unit) :
  (∀ x, no_delete (body x)) → no_delete (for_each l body).
Proof. intros Hb. induction l; [done|]. by apply no_delete_bind. Qed.

Lemma no_delete_AddBranch proof key value : no_delete (AddBranch proof key value).
Proof.
  unfold AddBranch. apply no_delete_bind; [done|]. intros r.
  apply no_delete_bind; [by destruct (verifyProofWithUpdates _ _ _ _)|]. intros [b us].
  destruct (negb b); [done|].
  apply no_delete_bind; [destruct (negb _); [apply no_delete_Set|done]|]. intros _.
  apply no_delete_bind; [apply no_delete_for_each; intros; apply no_delete_Set|]. intros _.
  destruct (SiblingData proof), (SideNodes proof); try done. apply no_delete_Set.
Qed.

Lemma do_Set_grows st k v g st' k' :
  is_Some (store_map st' g !! k') → is_Some (store_map st' (do_Set st k v g).2 !! k').
Proof.
  intros Hk. destruct st; cbn; unfold KeyedMap_Set; destruct (toFixedKey hsize k) as [x| |];
    destruct st'; cbn in *; try done; destruct (decide (x = k')) as [->|];
    rewrite ?lookup_insert_eq, ?lookup_insert_ne by done; first [done|by eexists].
Qed.

Lemma no_delete_run {A} (P : prog A) g st k :
  no_delete P → is_Some (store_map st g !! k) → is_Some (store_map st (run P g).2 !! k).
Proof.
  revert g. induction P as [| | |st' k' c IH|st' k' v c IH|st' k' c IH|c IH|r c IH]; intros g HP Hk;
    rewrite ?run_GetOp, ?run_SetOp, ?run_RootOp, ?run_SetRootOp; cbn [no_delete] in HP; try done.
  - destruct (do_Get st' k' g); [by apply IH..|done].
  - pose proof (do_Set_grows st' k' v g st k Hk) as Hk'.
    destruct (do_Set st' k' v g) as [[] g']; [by apply IH..|done].
  - by apply IH.
  - apply IH; [done|]. by destruct st.
Qed.

Lemma has_branch_grows {A} (P : prog A) g g' o m p :
  no_delete P → run P g = (o, g') → deep_holds g m → deep_holds g' m →
  has_branch g m p → has_branch g' m p.
Proof.
  intros HP E [Hm Hg] [_ Hg'] [Hn Hv].
  assert (∀ st k x, store_map st g !! k = Some x → store_map st g' !! k = Some x) as Hkeep.
  { intros st k x Hx. pose proof (no_delete_run P g st k HP (mk_is_Some _ _ Hx)) as [y Hy].
    rewrite E in Hy. cbn [snd] in Hy. rewrite Hy. destruct st; cbn [store_map] in *.
    - pose proof (lookup_weaken _ _ _ _ Hx (part_nodes _ _ Hg)) as H1.
      pose proof (lookup_weaken _ _ _ _ Hy (part_nodes _ _ Hg')) as H2. congruence.
    - pose proof (lookup_weaken _ _ _ _ Hx (part_values _ _ Hg)) as H1.
      pose proof (lookup_weaken _ _ _ _ Hy (part_values _ _ Hg')) as H2. congruence. }
  split; [|intros w Hw; by apply (Hkeep ValueStore), Hv].
  eapply Forall_impl; [exact Hn|]. intros d Hd. by apply (Hkeep NodeStore).
Qed.

(** Keys with their proofs and values, one branch each. *)
Definition add_branches (brs : list (bytes * SparseMerkleProof * bytes)) : prog unit :=
  for_each brs (λ br, AddBranch br.1.2 br.1.1 br.2).

Lemma map_proof_sibling m key upd :
  valid_map m → sibling_preimages (map_proof m key upd) ⊆ map_preimages m.
Proof.
  intros Hm. destruct (tree_of_spec m Hm) as [W _]. unfold sibling_preimages, map_proof.
  pose proof (λ s, last_sibling [] (path key) _ s W) as Hlast. cbn [length] in Hlast.
  destruct (descend (path key) 0 (tree_of m)) as [sibs e]. cbn [fst SiblingData] in *.
  destruct upd; [|apply empty_subseteq].
  destruct (last sibs) as [s|]; cbn; [|apply empty_subseteq].
  destruct (Hlast s eq_refl) as [_ Hin]. apply singleton_subseteq_l.
  unfold map_preimages, preimages. clear -Hin. set_solver.
Qed.

(** The branches of the whole tree are accepted, and all are there in the end. *)
Lemma run_add_branches U (CF : collision_free U) m brs : ∀ g ps,
  deep_holds g m → map_preimages m ⊆ U →
  Forall (λ br, (∃ upd, br.1.2 = map_proof m br.1.1 upd) ∧ br.2 = map_value m br.1.1) brs →
  has_branches g m ps →
  ∃ g', run (add_branches brs) g = (Ok tt, g') ∧ deep_holds g' m ∧
    has_branches g' m ps ∧ has_branches g' m ((λ br, path br.1.1) <$> brs).
Proof.
  induction brs as [|[[key proof] value] brs IH]; intros g ps Hg HU Hbrs Hps.
  { exists g. split_and!; try done. by intros p ?%not_elem_of_nil. }
  apply Forall_cons in Hbrs as [[[upd Hproof] Hval] Hbrs]. cbn [fst snd] in *. subst proof value.
  pose proof (proj1 Hg) as Hm.
  destruct (run_AddBranch U CF g m (map_proof m key upd) key (map_value m key) Hg HU)
    as (g1 & E1 & Hg1 & Hn & Hv & _).
  { etrans; [by apply map_proof_preimages|done]. }
  { etrans; [by apply map_proof_sibling|done]. }
  { by apply map_proof_verifies. }
  assert (has_branches g1 m (path key :: ps)) as Hps1.
  { intros p [->|Hp]%elem_of_cons; [by split|].
    eapply has_branch_grows; [apply no_delete_AddBranch|done..|by apply Hps]. }
  destruct (IH g1 (path key :: ps) Hg1 HU Hbrs Hps1) as (g2 & E2 & Hg2 & Hps2 & Hbr2).
  exists g2. split_and!; [|done| |].
  - unfold add_branches in *. cbn [for_each fst snd]. by rewrite (run_bind_Ok _ _ _ _ _ E1).
  - intros p Hp. apply Hps2. by right.
  - intros p [->|Hp]%elem_of_cons; [apply Hps2; by left|by apply Hbr2].
Qed.
End add_branches.
