(* ===== verification/DeepBulk.v ===== *)
(** * Bulk updates of deep subtrees.

    What a bulk update reads of a tree: the nodes on the paths of its keys, and
    the values of the leaves at their ends.  A deep subtree that has them does
    what the whole tree does. *)

From S2P Require Import Prelude Utils MapStore TreeHasher Effects Proofs Smt Bulk DeepSubTree.
From S2P Require Import Trie Merkle Store Partial Footprint Walk Spec SmtSpec BulkLists BulkSpec BulkMap.
From S2P Require Import DeepSpec DeepReplay.

Section reads.
Context {HS : Hasher}.
Context (U : gset bytes) (CF : collision_free U).
Implicit Types (kvs : list bulkKV) (t : tree).
Abbreviation kmap kvs := (list_to_map kvs : gmap bytes bytes).

Definition bulk_reads (d : nat) t kvs (st : store_id) (k : bytes) : Prop :=
  match st with
  | NodeStore => ∃ kv x, kv ∈ kvs ∧ x ∈ branch kv.1 d t ∧ k = hsum x
  | ValueStore => ∃ kv w, kv ∈ kvs ∧ (descend kv.1 d t).2 = Leaf k w
  end.

Lemma within_buildSubtree K fuel : ∀ d kvs, within K (buildSubtree Crash fuel d kvs).
Proof.
  induction fuel as [|fuel IH]; intros d kvs; cbn [buildSubtree]; [done|].
  assert (∀ l, within K (if length l =? 0 then Ret placeholder else buildSubtree Crash fuel (S d) l)) as Hside.
  { intros l. destruct (length l =? 0); [done|apply IH]. }
  destruct kvs as [|[p v] [|kv kvs]]; [done| |].
  - destruct (digestLeaf p (digestInto v)). by repeat (apply within_bind; [apply within_Set|intros _]).
  - apply within_bind_lift. intros k _. apply within_bind; [apply Hside|intros l].
    apply within_bind; [apply Hside|intros r]. destruct (digestNode l r).
    apply within_bind; [apply within_Set|done].
Qed.

Lemma within_mergeLeafWithKVs K fuel q w d kvs :
  length q = hsize → K NodeStore (thash (Leaf q w)) → K ValueStore q →
  within K (mergeLeafWithKVs Crash fuel (thash (Leaf q w)) (tdata (Leaf q w)) d kvs).
Proof.
  intros Hq Hn Hv. unfold mergeLeafWithKVs. cbn [tdata]. rewrite parseLeaf_leaf_data by done.
  cbn [lift mbind prog_bind]. apply within_bind.
  { destruct (_ && _); [|done]. by apply within_bind_lift. }
  intros []; [done|]. apply within_bind; [by apply within_Delete|intros _].
  apply within_bind; [|intros m; apply within_buildSubtree]. destruct (negb _); [|done].
  apply within_bind; [by apply within_Get|intros v]. by apply within_bind_lift.
Qed.

(** The reads below a node are reads of the node. *)
Lemma bulk_reads_child (b : bool) d l r kvs kvs' st k :
  (∀ kv, kv ∈ kvs' → kv ∈ kvs ∧ bit kv.1 d = b) →
  bulk_reads (S d) (if b then r else l) kvs' st k → bulk_reads d (Node l r) kvs st k.
Proof.
  intros Hb. destruct st; cbn [bulk_reads].
  - intros (kv & x & Hin & Hx & ->). destruct (Hb kv Hin) as [Hin' Hbit].
    exists kv, x. split_and!; [done| |done]. cbn [branch]. rewrite Hbit. by right.
  - intros (kv & w & Hin & He). destruct (Hb kv Hin) as [Hin' Hbit].
    exists kv, w. split; [done|]. cbn [descend]. rewrite Hbit. by destruct (descend kv.1 (S d) _).
Qed.

Lemma bulk_reads_here d t kvs :
  kvs ≠ [] → t ≠ Empty → bulk_reads d t kvs NodeStore (thash t).
Proof.
  intros Hne Ht. destruct kvs as [|kv kvs]; [done|]. exists kv, (tdata t).
  rewrite thash_tdata by done. split_and!; [by left| |done]. destruct t; [done|by left..].
Qed.

Lemma reads_bind_Ok {A B} K (P : prog A) (k : A → prog B) f a f' :
  reads K P f → run P f = (Ok a, f') → reads K (k a) f' → reads K (P ≫= k) f.
Proof. intros HP E Hk. apply reads_bind; [done|]. intros a2 f2 E2. rewrite E in E2. by injection E2 as <- <-. Qed.

(** One level of the walk. *)
Lemma reads_bulk_node fuel pre l r l' r' kvs R M rt :
  length pre < depth → kvs ≠ [] → walk_ok U pre (Node l r) (Node l' r') kvs R M →
  (∀ b t kvs t' R M, walk_ok U (pre ++ [b]) t t' kvs R M →
     let f := tree_state (dataset t ∪ R) M rt in
     run (bulkApplyAtRoot Crash fuel (thash t) (S (length pre)) kvs) f =
       (Ok (thash t'), tree_state (dataset t' ∪ R) (kmap kvs ∪ M) rt) ∧
     reads (bulk_reads (S (length pre)) t kvs) (bulkApplyAtRoot Crash fuel (thash t) (S (length pre)) kvs) f) →
  reads (bulk_reads (length pre) (Node l r) kvs)
    (bulkApplyAtRoot Crash (S fuel) (thash (Node l r)) (length pre) kvs)
    (tree_state (dataset (Node l r) ∪ R) M rt).
Proof.
  intros Hroom Hne Hwalk IH.
  destruct (walk_ok_children U CF _ _ _ _ _ _ _ _ Hroom Hwalk) as (Hl & Hr & Es & Em).
  destruct Hwalk as [Hok W HUt W' Hm HUt' HR Hdisj HM].
  destruct (node_univ U l r HUt) as (Un & Ul & Ur & Dl & Dr).
  pose proof (bulk_reads_here (length pre) (Node l r) kvs Hne ltac:(done)) as Hhere.
  cbn [bulkApplyAtRoot]. destruct (Nat.eqb_spec (length kvs) 0) as [E0|_]; [by destruct kvs|].
  unfold bytes_Equal at 1. rewrite bool_decide_false by by apply (tdata_hash_ne U CF).
  eapply reads_bind_Ok; [by apply within_reads, within_Get| |].
  { rewrite thash_tdata by done. apply (run_nodes_Get U CF); rewrite dataset_node;
      [clear -Un Dl Dr HR; set_solver|clear; set_solver]. }
  cbn [tdata]. rewrite isLeaf_node_data. cbn [lift mbind prog_bind].
  rewrite parseNode_node_data by apply length_thash. cbn [lift mbind prog_bind].
  destruct (partitionByBit_spec pre kvs Hok Hroom) as (k & Ek & Et & Ed).
  rewrite Ek. cbn [lift mbind prog_bind]. rewrite Et, Ed, Es.
  destruct (IH false _ _ _ _ _ Hl) as [El Rl]. destruct (IH true _ _ _ _ _ Hr) as [Er Rr].
  eapply reads_bind_Ok; [|exact El|].
  { eapply reads_mono; [|exact Rl]. intros st x. apply (bulk_reads_child false).
    intros kv [Hb Hin]%list_elem_of_filter. split; [done|]. by apply not_true_is_false. }
  rewrite Em. eapply reads_bind_Ok; [|exact Er|].
  { eapply reads_mono; [|exact Rr]. intros st x. apply (bulk_reads_child true).
    by intros kv [Hb Hin]%list_elem_of_filter. }
  apply within_reads. destruct (_ && _); [done|]. apply within_bind; [by apply within_Delete|intros _].
  destruct (digestNode _ _). apply within_bind; [apply within_Set|done].
Qed.

Lemma reads_bulkApplyAtRoot fuel : ∀ pre t kvs t' R M rt,
  fuel + length pre = S depth → length pre ≤ depth → walk_ok U pre t t' kvs R M →
  reads (bulk_reads (length pre) t kvs) (bulkApplyAtRoot Crash fuel (thash t) (length pre) kvs)
    (tree_state (dataset t ∪ R) M rt).
Proof.
  induction fuel as [|fuel IH]; intros pre t kvs t' R M rt Hf Hpre Hwalk; [done|].
  pose proof Hwalk as [Hok W HUt W' Hm HUt' HR Hdisj HM].
  destruct (decide (kvs = [])) as [->|Hne]; [done|].
  destruct t as [|q w|l r].
  - apply within_reads. cbn [bulkApplyAtRoot thash]. destruct (length kvs =? 0); [done|].
    unfold bytes_Equal. rewrite bool_decide_true by done. apply within_buildSubtree.
  - pose proof (bulk_reads_here (length pre) (Leaf q w) kvs Hne ltac:(done)) as Hhere.
    cbn [bulkApplyAtRoot]. destruct (Nat.eqb_spec (length kvs) 0); [by destruct kvs|].
    unfold bytes_Equal. rewrite bool_decide_false by by apply (tdata_hash_ne U CF).
    cbn [dataset] in *.
    assert (tdata (Leaf q w) ∈ U) as Hd
      by (clear -HUt; unfold preimages in HUt; cbn [dataset] in HUt; set_solver).
    eapply reads_bind_Ok; [by apply within_reads, within_Get| |].
    { rewrite thash_tdata by done. apply (run_nodes_Get U CF);
        [clear -Hd HR; set_solver|clear; set_solver]. }
    rewrite (isLeaf_leaf_data q (hsum w) : isLeaf (tdata (Leaf q w)) = _). cbn [lift mbind prog_bind].
    apply within_reads, within_mergeLeafWithKVs; [apply W|done|].
    destruct kvs as [|kv kvs]; [done|]. exists kv, w. split; [by left|done].
  - destruct (overridden_is_node pre kvs l r t' W W' Hm) as (l' & r' & ->).
    assert (length pre < depth) as Hroom.
    { destruct (decide (length pre = depth)) as [E|]; [|lia].
      by destruct (wf_full_depth pre (Node l r) W) as (? & ? & ? & _). }
    eapply reads_bulk_node; [done..|]. intros b t kvs' t'' R' M' Hw.
    specialize (IH (pre ++ [b]) t kvs' t'' R' M' rt).
    pose proof (run_bulkApplyAtRoot U CF fuel (pre ++ [b]) t kvs' t'' R' M' rt) as Hrun.
    rewrite length_app, Nat.add_1_r in IH, Hrun. split; [apply Hrun|apply IH]; done || lia.
Qed.
(** *** The method *)

(** What the batch for the paths [ps] reads of the tree of [m]. *)
Definition batch_reads m (ps : list bytes) (st : store_id) (k : bytes) : Prop :=
  match st with
  | NodeStore => ∃ p x, p ∈ ps ∧ x ∈ branch p 0 (tree_of m) ∧ k = hsum x
  | ValueStore => ∃ p w, p ∈ ps ∧ (descend p 0 (tree_of m)).2 = Leaf k w
  end.

Definition all_insertions (values : list bytes) : Prop := Forall (λ v, v ≠ []) values.

Lemma no_bulk_deletes kvs :
  all_insertions kvs.*2 →
  for_each kvs (λ kv,
    if bytes_Equal kv.2 defaultValue then _ ← Delete kv.1; Ret tt else Ret tt) = Ret tt ∧
  deletions kvs = [] ∧ insertions kvs = kvs.
Proof.
  unfold all_insertions. induction kvs as [|kv kvs IH]; intros Hv; [done|].
  cbn [fmap list_fmap] in Hv. apply Forall_cons in Hv as [Hv Hvs]. destruct (IH Hvs) as (E1 & E2 & E3).
  unfold deletions, insertions in *. rewrite !filter_cons. cbn [for_each].
  assert (bytes_Equal kv.2 defaultValue = false) as ->.
  { unfold bytes_Equal. by rewrite bool_decide_false. }
  cbn [mbind prog_bind]. rewrite decide_False, decide_True by done. by rewrite E1, E2, E3.
Qed.

Lemma reads_BulkUpdate keys values m :
  valid_map m → length keys = length values → all_insertions values →
  bulk_preimages (zip keys values) m ⊆ U →
  reads (batch_reads m (path <$> keys)) (BulkUpdate keys values) (map_state m (merkle_root m)).
Proof.
  intros Hm Hlen Hv HU. unfold BulkUpdate. rewrite <-Hlen, Nat.eqb_refl. cbn [negb].
  destruct (length keys =? 0); [done|].
  destruct (no_bulk_deletes (zip keys values)) as (-> & Ed & Ei); [by rewrite snd_zip by lia|].
  cbn [mbind prog_bind]. change (filter _ (zip keys values)) with (insertions (zip keys values)).
  cbv zeta. destruct (_ =? 0); [done|]. rewrite dedup_dedup_spec. cbn [lift mbind prog_bind].
  fold (batch (zip keys values)).
  unfold bulk_preimages, bulk_map in HU. rewrite Ed in HU. cbn [update_all foldl] in HU.
  apply union_subseteq in HU as [HU1 HU2].
  assert (map_preimages m ⊆ U) as HUm by (etrans; [apply history_preimages_first|done]).
  pose proof (reads_bulkApplyAtRoot (S depth) [] (tree_of m) (batch (zip keys values)) _ ∅ m
    (merkle_root m) ltac:(cbn; lia) ltac:(cbn; lia) (batch_walk_ok U _ m Hm HUm HU2)) as Hreads.
  rewrite (right_id_L ∅ (∪)) in Hreads. eapply reads_bind_Ok; [done|apply run_Root|].
  cbn [root map_state tree_state]. apply reads_bind; [|by intros]. eapply reads_mono; [|exact Hreads].
  assert (∀ kv, kv ∈ batch (zip keys values) → kv.1 ∈ path <$> keys) as Hp.
  { intros kv (kv' & -> & Hin)%sort_dedup_elem%list_elem_of_fmap. rewrite Ei in Hin.
    apply list_elem_of_fmap. exists kv'.1. split; [done|]. destruct kv'. by apply elem_of_zip_l in Hin. }
  intros [] k; cbn [bulk_reads batch_reads length].
  - intros (kv & x & Hin & Hx & ->). exists kv.1, x. auto.
  - intros (kv & w & Hin & Hd). exists kv.1, w. auto.
Qed.
(** The leaf at the end of a path is in the map. *)
Lemma descend_leaf_map pre t p q w :
  wf pre t → (descend p (length pre) t).2 = Leaf q w → tmap t !! q = Some w.
Proof.
  revert pre. induction t as [|q' w'|l IHl r IHr]; intros pre W Hd; [done| |].
  - injection Hd as -> ->. apply lookup_singleton_eq.
  - rewrite descend_node in Hd. cbn [snd] in Hd.
    destruct (node_maps pre l r _ W (reflexivity _)) as [Hl Hr].
    pose proof W as (Wl & Wr & _)%wf_node. destruct (bit p (length pre)).
    + eapply lookup_weaken; [|exact Hr]. apply (IHr (pre ++ [true])); [done|].
      by rewrite length_app, Nat.add_1_r.
    + eapply lookup_weaken; [|exact Hl]. apply (IHl (pre ++ [false])); [done|].
      by rewrite length_app, Nat.add_1_r.
Qed.

Lemma batch_same g m ps :
  deep_holds g m → map_preimages m ⊆ U → has_branches g m ps →
  (∀ p q w, p ∈ ps → (descend p 0 (tree_of m)).2 = Leaf q w → q ∈ ps) →
  same_on (batch_reads m ps) g (map_state m (merkle_root m)).
Proof.
  intros [Hm Hp] HU Hps Hends. destruct (tree_of_spec m Hm) as [W M].
  constructor; [apply Hp|]. intros [] k; cbn [batch_reads store_map].
  - intros (p & x & Hin & Hx & ->). destruct (Hps p Hin) as [Hn _].
    pose proof (proj1 (Forall_forall _ _) Hn x Hx) as Hg. rewrite Hg. symmetry.
    eapply lookup_weaken; [exact Hg|apply Hp].
  - intros (p & w & Hin & Hd). destruct (Hps k (Hends p k w Hin Hd)) as [_ Hval].
    assert (m !! k = Some w) as Hk.
    { rewrite <-M. by apply (descend_leaf_map [] (tree_of m) p). }
    rewrite (Hval w Hk). symmetry. exact Hk.
Qed.

(** A bulk update of keys whose branches are known. *)
Lemma run_BulkUpdate_deep g m keys values ps :
  deep_holds g m → length keys = length values → all_insertions values →
  bulk_preimages (zip keys values) m ⊆ U → has_branches g m ps →
  (∀ p q w, p ∈ ps → (descend p 0 (tree_of m)).2 = Leaf q w → q ∈ ps) →
  (∀ key, key ∈ keys → path key ∈ ps) →
  ∃ g', run (BulkUpdate keys values) g = (Ok (merkle_root (bulk_map (zip keys values) m)), g') ∧
    deep_holds g' (bulk_map (zip keys values) m).
Proof.
  intros Hg Hlen Hv HU Hps Hends Hkeys. pose proof (proj1 Hg) as Hm.
  assert (map_preimages m ⊆ U) as HUm.
  { etrans; [apply history_preimages_first|]. etrans; [apply union_subseteq_l|exact HU]. }
  pose proof (run_BulkUpdate U CF keys values m Hm Hlen HU) as Hrun.
  destruct (run_same_reads (batch_reads m ps) (BulkUpdate keys values) g (map_state m (merkle_root m)))
    as [E _]; [|by apply batch_same|].
  { eapply reads_mono; [|by apply reads_BulkUpdate]. intros [] k; cbn [batch_reads].
    - intros (p & x & (key & -> & Hin)%list_elem_of_fmap & Hx). exists (path key), x. auto.
    - intros (p & w & (key & -> & Hin)%list_elem_of_fmap & Hx). exists (path key), w. auto. }
  rewrite Hrun in E. cbn [fst] in E.
  destruct (deep_run (BulkUpdate keys values) g m _ _ Hg (monotone_BulkUpdate keys values) Hrun)
    as [(k & g2 & E2)|(g2 & E2 & Hp)]; rewrite E2 in E |- *; [done|].
  exists g2. split; [done|]. split; [by apply valid_map_update_all, valid_map_update_all|done].
Qed.
End reads.
