(* ===== verification/Compaction.v ===== *)
(** * Compaction and decompaction of proofs.

    [CompactProof] drops the placeholders among the side nodes and marks them
    in a bit mask; [DecompactProof] puts them back. *)

From S2P Require Import Prelude Utils TreeHasher Proofs ProofsCorrect.

Section compaction.
Context {HS : Hasher}.

(** The bits of the mask, and the side nodes that are kept. *)
Definition flags (sns : list bytes) : list bool := (λ sn, bytes_Equal sn placeholder) <$> sns.
Definition kept (sns : list bytes) : list bytes := filter (λ sn, sn ≠ placeholder) sns.

Lemma length_flags sns : length (flags sns) = length sns.
Proof. apply length_fmap. Qed.

Lemma flags_cons sn sns : flags (sn :: sns) = bytes_Equal sn placeholder :: flags sns.
Proof. done. Qed.

Lemma kept_cons sn sns :
  kept (sn :: sns) = if bytes_Equal sn placeholder then kept sns else sn :: kept sns.
Proof.
  unfold kept, bytes_Equal. case_bool_decide as E.
  - by rewrite filter_cons_False by tauto.
  - by rewrite filter_cons_True.
Qed.

Lemma count_true_app l k : count_true (l ++ k) = count_true l + count_true k.
Proof. unfold count_true. by rewrite filter_app, length_app. Qed.

Lemma count_true_replicate n : count_true (replicate n false) = 0.
Proof. induction n; [done|]. simpl. by rewrite count_true_cons. Qed.

Lemma count_flags sns : count_true (flags sns) + length (kept sns) = length sns.
Proof.
  induction sns as [|sn sns IH]; [done|]. rewrite flags_cons, kept_cons, count_true_cons.
  destruct (bytes_Equal sn placeholder); cbn [length]; lia.
Qed.

Lemma bits_emptyBytes n : bits (emptyBytes n) = replicate (n * 8) false.
Proof.
  induction n as [|n IH]; [done|]. change (emptyBytes (S n)) with (x00 :: emptyBytes n).
  rewrite bits_cons, IH. done.
Qed.

(** The mask before a step has no bit at or after the position. *)
Lemma compact_loop_spec sns : ∀ i m l kp,
  Forall (λ sn, length sn = hsize) sns →
  bits m = l ++ replicate (length m * 8 - i) false → length l = i →
  i + length sns ≤ length m * 8 →
  ∃ m', compact_loop sns i m kp = Ok (m', kp ++ kept sns) ∧ length m' = length m ∧
    bits m' = l ++ flags sns ++ replicate (length m * 8 - i - length sns) false.
Proof.
  induction sns as [|sn sns IH]; intros i m l kp Hsn Hm Hl Hlen.
  { exists m. simpl. by rewrite app_nil_r, Nat.sub_0_r. }
  apply Forall_cons in Hsn as [Hx Hsn]. cbn [length] in Hlen. cbn [compact_loop].
  rewrite make_copy_id, flags_cons, kept_cons by done.
  assert (∀ n k, n = S k → replicate n false = false :: replicate k false) as Hrep
    by by intros ? ? ->.
  rewrite (Hrep _ (length m * 8 - S i)) in Hm by lia.
  destruct (bytes_Equal sn placeholder).
  - destruct (setBitAtFromMSB_spec m i) as (m1 & -> & L1 & B1); [lia|].
    cbn [mbind outcome_bind].
    rewrite Hm, insert_middle in B1 by done.
    destruct (IH (S i) m1 (l ++ [true]) kp) as (m' & -> & L' & B'); [done|..].
    + by rewrite B1, L1, <-app_assoc.
    + rewrite length_app. simpl. lia.
    + lia.
    + exists m'. split_and!; [done|lia|]. rewrite B', L1, <-app_assoc.
      cbn [app length]. do 4 f_equal. lia.
  - destruct (IH (S i) m (l ++ [false]) (kp ++ [sn])) as (m' & -> & L' & B'); [done|..].
    + by rewrite Hm, <-app_assoc.
    + rewrite length_app. simpl. lia.
    + lia.
    + exists m'. rewrite <-app_assoc. split_and!; [done|lia|]. rewrite B', <-app_assoc.
      cbn [app length]. do 4 f_equal. lia.
Qed.

Lemma decompact_loop_spec sns : ∀ m i l k pos kp acc,
  bits m = l ++ flags sns ++ k → length l = i → drop pos kp = kept sns →
  decompact_loop m kp (length sns) i pos acc = Ok (acc ++ sns).
Proof.
  induction sns as [|sn sns IH]; intros m i l k pos kp acc Hm Hl Hkp; cbn [length decompact_loop].
  { by rewrite app_nil_r. }
  rewrite flags_cons in Hm. rewrite kept_cons in Hkp.
  rewrite (getBitAtFromMSB_ok m i (bytes_Equal sn placeholder)).
  2: { rewrite Hm, lookup_app_r, Hl, Nat.sub_diag by lia. done. }
  assert (bits m = (l ++ [bytes_Equal sn placeholder]) ++ flags sns ++ k) as Hm'
    by by rewrite Hm, <-app_assoc.
  assert (length (l ++ [bytes_Equal sn placeholder]) = S i) as Hl'
    by (rewrite length_app; simpl; lia).
  cbn [mbind outcome_bind]. destruct (bytes_Equal sn placeholder) eqn:E; cbn [Z_of_bit Z.eqb Pos.eqb].
  - apply bool_decide_eq_true in E as ->.
    by rewrite (IH m (S i) _ k pos kp _ Hm' Hl' Hkp), <-app_assoc.
  - assert (kp !! pos = Some sn ∧ drop (S pos) kp = kept sns) as [H1 H2].
    { split.
      - rewrite <-(Nat.add_0_r pos), <-lookup_drop. by rewrite Hkp.
      - by rewrite <-Nat.add_1_r, <-drop_drop, Hkp. }
    unfold index. rewrite H1. cbn [mbind outcome_bind].
    by rewrite (IH m (S i) _ k (S pos) kp _ Hm' Hl' H2), <-app_assoc.
Qed.

(** What a sane proof compacts to. *)
Lemma CompactProof_spec proof :
  sanityCheck proof = true →
  ∃ m, CompactProof proof =
      Ok (mkCompactProof (kept (SideNodes proof)) (NonMembershipLeafData proof) m
            (Z.of_nat (length (SideNodes proof))) (SiblingData proof)) ∧
    Z.of_nat (length m) = ceil8 (Z.of_nat (length (SideNodes proof))) ∧
    bits m = flags (SideNodes proof) ++
             replicate (length m * 8 - length (SideNodes proof)) false.
Proof.
  intros Hs. pose proof (sanityCheck_true proof Hs) as (_ & Hsn & _).
  unfold CompactProof. rewrite Hs. cbn [negb].
  set (n := Z.to_nat (ceil8 (Z.of_nat (length (SideNodes proof))))).
  assert (length (emptyBytes n) = n) as Hn by apply length_replicate.
  assert (length (SideNodes proof) ≤ n * 8) as Hle.
  { unfold n, ceil8. pose proof (Z.div_mod (Z.of_nat (length (SideNodes proof)) + 7) 8).
    pose proof (Z.mod_pos_bound (Z.of_nat (length (SideNodes proof)) + 7) 8). lia. }
  destruct (compact_loop_spec (SideNodes proof) 0 (emptyBytes n) [] []) as (m & -> & L & B).
  - done.
  - rewrite Hn, Nat.sub_0_r. apply bits_emptyBytes.
  - done.
  - by rewrite Hn.
  - exists m. cbn [mbind outcome_bind app]. split_and!; [done| |].
    + rewrite L, Hn. subst n. rewrite Z2Nat.id; [done|]. apply Z.div_pos; lia.
    + by rewrite B, L, Nat.sub_0_r.
Qed.

Lemma CompactProof_DecompactProof proof :
  sanityCheck proof = true →
  ∃ c, CompactProof proof = Ok c ∧ DecompactProof c = Ok proof.
Proof.
  intros Hs. pose proof (sanityCheck_true proof Hs) as (Hlen & _).
  destruct (CompactProof_spec proof Hs) as (m & -> & L & B).
  eexists. split; [done|]. unfold DecompactProof, compact_sanityCheck.
  cbn [NumSideNodes BitMask cSideNodes cNonMembershipLeafData cSiblingData].
  set (n := length (SideNodes proof)) in *.
  destruct (Z.ltb_spec (Z.of_nat n) 0); [lia|].
  destruct (Z.gtb_spec (Z.of_nat n) (Z.of_nat (pathSize * 8))); [unfold pathSize in *; lia|].
  cbn [orb]. rewrite L, Z.eqb_refl. cbn [negb].
  assert ((if (Z.of_nat n >? 0)%Z
           then c ← countSetBits m;
                Ok (Z.of_nat (length (kept (SideNodes proof))) =? Z.of_nat n - c)%Z
           else Ok true) = Ok true) as ->.
  { destruct (Z.of_nat n >? 0)%Z; [|done]. rewrite countSetBits_spec. cbn [mbind outcome_bind].
    f_equal. apply Z.eqb_eq. pose proof (count_flags (SideNodes proof)).
    rewrite B, count_true_app, count_true_replicate. lia. }
  cbn [mbind outcome_bind negb]. rewrite Nat2Z.id. subst n.
  rewrite (decompact_loop_spec _ m 0 [] _ 0 (kept (SideNodes proof)) [] B eq_refl (drop_0 _)).
  cbn. by destruct proof.
Qed.

(** *** Decompaction of arbitrary proofs *)

(** No bit of the mask is set beyond the side nodes it describes. *)
Definition padding_clear (c : SparseCompactMerkleProof) : bool :=
  forallb negb (drop (Z.to_nat (NumSideNodes c)) (bits (BitMask c))).

Lemma count_true_forallb_negb l : forallb negb l = true → count_true l = 0.
Proof.
  induction l as [|[] l IH]; [done|done|]. rewrite count_true_cons. auto.
Qed.

Lemma decompact_loop_total n : ∀ m kp i pos acc,
  i + n ≤ length (bits m) →
  n ≤ length kp - pos + count_true (take n (drop i (bits m))) →
  ∃ l, decompact_loop m kp n i pos acc = Ok (acc ++ l) ∧ length l = n.
Proof.
  induction n as [|n IH]; intros m kp i pos acc Hi Hn; cbn [decompact_loop].
  { exists []. by rewrite app_nil_r. }
  destruct (lookup_lt_is_Some_2 (bits m) i) as [b Hb]; [lia|].
  rewrite (getBitAtFromMSB_ok _ _ _ Hb). cbn [mbind outcome_bind].
  rewrite (drop_S _ _ _ Hb), firstn_cons, count_true_cons in Hn.
  destruct b; cbn [Z_of_bit Z.eqb Pos.eqb].
  - destruct (IH m kp (S i) pos (acc ++ [placeholder])) as (l & -> & Hl); [lia..|].
    exists (placeholder :: l). rewrite <-app_assoc. cbn [length]. by rewrite Hl.
  - assert (pos < length kp) as Hpos.
    { pose proof (length_filter (λ b, b = true) (take n (drop (S i) (bits m)))).
      pose proof (firstn_le_length n (drop (S i) (bits m))). unfold count_true in Hn. lia. }
    destruct (lookup_lt_is_Some_2 kp pos Hpos) as [sn Hsn].
    unfold index. rewrite Hsn. cbn [mbind outcome_bind].
    destruct (IH m kp (S i) (S pos) (acc ++ [sn])) as (l & -> & Hl); [lia..|].
    exists (sn :: l). rewrite <-app_assoc. cbn [length]. by rewrite Hl.
Qed.

(** [sanityCheck] of a compact proof never panics, and what it accepts
    decompacts if the padding of the mask is clear. *)
Lemma DecompactProof_cases c :
  padding_clear c = true →
  DecompactProof c = Err ErrBadProof ∨
  ∃ sns, DecompactProof c =
      Ok (mkProof sns (cNonMembershipLeafData c) (cSiblingData c)) ∧
    Z.of_nat (length sns) = NumSideNodes c.
Proof.
  intros Hpad. unfold DecompactProof, compact_sanityCheck.
  destruct (Z.ltb_spec (NumSideNodes c) 0) as [|Hn]; [by left|].
  destruct (Z.gtb_spec (NumSideNodes c) (Z.of_nat (pathSize * 8))); [by left|]. cbn [orb].
  destruct (Z.eqb_spec (Z.of_nat (length (BitMask c))) (ceil8 (NumSideNodes c))) as [HL|];
    [|by left]. cbn [negb].
  assert (Z.to_nat (NumSideNodes c) ≤ length (bits (BitMask c))) as Hle.
  { rewrite length_bits. unfold ceil8 in HL.
    pose proof (Z.div_mod (NumSideNodes c + 7) 8).
    pose proof (Z.mod_pos_bound (NumSideNodes c + 7) 8). lia. }
  destruct (Z.gtb_spec (NumSideNodes c) 0).
  2: { cbn [mbind outcome_bind negb]. right. exists [].
       by replace (NumSideNodes c) with 0%Z by lia. }
  rewrite countSetBits_spec. cbn [mbind outcome_bind].
  destruct (Z.eqb_spec (Z.of_nat (length (cSideNodes c)))
    (NumSideNodes c - Z.of_nat (count_true (bits (BitMask c))))) as [Hc|]; [|by left].
  cbn [negb]. right.
  destruct (decompact_loop_total (Z.to_nat (NumSideNodes c)) (BitMask c) (cSideNodes c) 0 0 [])
    as (l & E & Hl).
  - lia.
  - rewrite drop_0, Nat.sub_0_r. apply count_true_forallb_negb in Hpad.
    pose proof (count_true_app (take (Z.to_nat (NumSideNodes c)) (bits (BitMask c)))
      (drop (Z.to_nat (NumSideNodes c)) (bits (BitMask c)))) as HA.
    rewrite take_drop in HA. lia.
  - rewrite E. exists l. split; [done|lia].
Qed.
End compaction.
