(* ===== verification/Typing.v ===== *)
(** * Well-typed trees, for every hash function.

    A state is typed when the node store holds encoded leaves and nodes under
    keys of the digest size, the value store non-default values under paths,
    and the root has the digest size.  What else is known of the values is a
    parameter, [value_typed].  [typed_post P Q]: on a typed state [P] does not
    panic, every Set it executes is of typed data, it ends in a typed state,
    and what it returns satisfies [Q]; [typed_may P Q]: the same for programs
    that may panic.
    Nothing is assumed of the hash function: the invariant also holds where
    digests collide and the stores represent no map. *)

From S2P Require Import Prelude Utils MapStore TreeHasher Effects Proofs Smt DeepSubTree.
From S2P Require Import Merkle Store Compaction.

(** What is known of the values besides that they are not empty. *)
Class ValueTyping : Type := value_typed : bytes → Prop.

Section typing.
Context {HS : Hasher} {VT : ValueTyping}.
Implicit Types g : refstate.

(** A digest, a path or a hash. *)
Definition sized (d : bytes) : Prop := length d = hsize.

(** The encoding of a leaf or of an inner node. *)
Inductive node_typed : bytes → Prop :=
  | leaf_typed p vh : sized p → sized vh → node_typed (leaf_data p vh)
  | inner_typed l r : sized l → sized r → node_typed (node_data l r).

Record typed g : Prop := {
  typed_nodes : map_Forall (λ k d, sized k ∧ node_typed d) (km_m (nodes g));
  typed_values : map_Forall (λ k v, sized k ∧ v ≠ [] ∧ value_typed v) (km_m (values g));
  typed_root : sized (root g);
}.

(** Every [Set] that the program executes is of typed data. *)
Fixpoint sets_typed {A} (m : prog A) g : Prop :=
  match m with
  | Ret _ | Throw _ | Crash => True
  | GetOp st k c =>
      match do_Get st k g with
      | Ok v => sets_typed (c (inr v)) g
      | Err e => sets_typed (c (inl e)) g
      | Panic => True
      end
  | SetOp st k v c =>
      match st with NodeStore => node_typed v | ValueStore => v ≠ [] ∧ value_typed v end ∧
      match do_Set st k v g with
      | (Ok _, g') => sets_typed (c None) g'
      | (Err e, g') => sets_typed (c (Some e)) g'
      | (Panic, _) => True
      end
  | DeleteOp st k c =>
      match do_Delete st k g with
      | (Ok _, g') => sets_typed (c None) g'
      | (Err e, g') => sets_typed (c (Some e)) g'
      | (Panic, _) => True
      end
  | RootOp c => sets_typed (c (root g)) g
  | SetRootOp r c => sets_typed c (mkSMT (nodes g) (values g) r)
  end.

Lemma sets_typed_bind {A B} (P : prog A) (k : A → prog B) g :
  sets_typed P g →
  match run P g with
  | (Ok a, g') => sets_typed (k a) g'
  | _ => True
  end →
  sets_typed (P ≫= k) g.
Proof.
  revert g. induction P as [| | |st k' c IH|st k' v c IH|st k' c IH|c IH|r c IH]; intros g HP Hk;
    cbn -[do_Get do_Set do_Delete] in *; try done.
  - rewrite run_GetOp in Hk. destruct (do_Get st k' g); [by apply IH..|done].
  - destruct HP as [Hv HP]. split; [done|]. rewrite run_SetOp in Hk.
    destruct (do_Set st k' v g) as [[] g']; [by apply IH..|done].
  - rewrite run_DeleteOp in Hk. destruct (do_Delete st k' g) as [[] g']; [by apply IH..|done].
  - by apply IH.
  - by apply IH.
Qed.

Lemma sets_typed_try {A} (P : prog A) g : sets_typed P g → sets_typed (try P) g.
Proof.
  revert g. induction P as [| | |st k' c IH|st k' v c IH|st k' c IH|c IH|r c IH]; intros g HP;
    cbn -[do_Get do_Set do_Delete] in *; try done.
  - destruct (do_Get st k' g); [by apply IH..|done].
  - destruct HP as [Hv HP]. split; [done|].
    destruct (do_Set st k' v g) as [[] g']; [by apply IH..|done].
  - destruct (do_Delete st k' g) as [[] g']; [by apply IH..|done].
  - by apply IH.
  - by apply IH.
Qed.

(** [panics]: whether [P] may panic. *)
Definition typed_run (panics : Prop) {A} (P : prog A) (Q : A → Prop) : Prop :=
  ∀ g, typed g →
  sets_typed P g ∧
  match run P g with
  | (Ok a, g') => Q a ∧ typed g'
  | (Err _, g') => typed g'
  | (Panic, _) => panics
  end.

Lemma typed_run_may {A} (P : prog A) (Q : A → Prop) : typed_run False P Q → typed_run True P Q.
Proof.
  intros HP g Hg. destruct (HP g Hg) as [Hs Hr]. split; [done|].
  by destruct (run P g) as [[a|e|] g'].
Qed.

Context {panics : Prop}.

(** *** Structural rules *)

Lemma typed_weaken {A} (P : prog A) (Q Q' : A → Prop) :
  typed_run panics P Q → (∀ a, Q a → Q' a) → typed_run panics P Q'.
Proof.
  intros HP HQ g Hg. specialize (HP g Hg). destruct (run P g) as [[a|e|] g']; [|done..].
  destruct HP as (? & ? & ?). auto.
Qed.

Lemma typed_Ret {A} (a : A) (Q : A → Prop) : Q a → typed_run panics (Ret a) Q.
Proof. intros Ha g Hg. by split. Qed.

Lemma typed_Throw {A} e (Q : A → Prop) : typed_run panics (Throw e) Q.
Proof. intros g Hg. by split. Qed.

Lemma typed_bind {A B} (P : prog A) (k : A → prog B) (Q : A → Prop) (R : B → Prop) :
  typed_run panics P Q → (∀ a, Q a → typed_run panics (k a) R) → typed_run panics (P ≫= k) R.
Proof.
  intros HP Hk g Hg. destruct (HP g Hg) as [Hs HP']. rewrite run_bind.
  pose proof (sets_typed_bind P k g Hs) as Hb.
  destruct (run P g) as [[a|e|] g']; [|by auto..]. destruct HP' as [Ha Hg'].
  destruct (Hk a Ha g' Hg'). auto.
Qed.

Lemma typed_try {A} (P : prog A) (Q : A → Prop) :
  typed_run panics P Q → typed_run panics (try P) (λ r, match r with inl _ => True | inr a => Q a end).
Proof.
  intros HP g Hg. destruct (HP g Hg) as [Hs HP']. split; [by apply sets_typed_try|].
  rewrite run_try. by destruct (run P g) as [[a|e|] g'].
Qed.

Lemma typed_lift {A} (o : outcome A) (Q : A → Prop) :
  (o = Panic → panics) → (∀ a, o = Ok a → Q a) → typed_run panics (lift o) Q.
Proof.
  intros Ho HQ g Hg. rewrite run_lift. split; [by destruct o|]. destruct o; [|done|auto]. split; [by apply HQ|done].
Qed.

Lemma typed_lift_ok {A} (a : A) (o : outcome A) (Q : A → Prop) :
  o = Ok a → Q a → typed_run panics (lift o) Q.
Proof. intros -> Ha. apply typed_lift; [done|]. by intros ? [= <-]. Qed.

Lemma typed_for_each {A} (l : list A) (body : A → prog unit) :
  (∀ x, x ∈ l → typed_run panics (body x) (λ _, True)) → typed_run panics (for_each l body) (λ _, True).
Proof.
  induction l as [|x l IH]; intros Hb; [by apply typed_Ret|].
  apply typed_bind with (λ _, True); [apply Hb; by left|].
  intros _ _. apply IH. intros y Hy. apply Hb. by right.
Qed.

(** *** The store operations *)

Lemma typed_nodes_Get k : sized k → typed_run panics (nodes_Get k) node_typed.
Proof.
  intros Hk g Hg. unfold store_Get. rewrite run_GetOp. cbn. unfold KeyedMap_Get.
  rewrite toFixedKey_ok by done. cbn. destruct (km_m (nodes g) !! k) as [d|] eqn:E; [|done].
  split; [done|]. split; [apply (typed_nodes _ Hg k d E)|done].
Qed.

Lemma typed_values_Get k : sized k → typed_run panics (values_Get k) (λ v, v ≠ [] ∧ value_typed v).
Proof.
  intros Hk g Hg. unfold store_Get. rewrite run_GetOp. cbn. unfold KeyedMap_Get.
  rewrite toFixedKey_ok by done. cbn. destruct (km_m (values g) !! k) as [v|] eqn:E; [|done].
  split; [done|]. split; [apply (typed_values _ Hg k v E)|done].
Qed.

Lemma typed_nodes_Set k d : sized k → node_typed d → typed_run panics (nodes_Set k d) (λ _, True).
Proof.
  intros Hk Hd g [Hn Hv Hr]. unfold store_Set. rewrite run_SetOp. cbn. unfold KeyedMap_Set.
  rewrite toFixedKey_ok by done. split; [done|]. split; [done|]. constructor; [|done..].
  by apply map_Forall_insert_2.
Qed.

Lemma typed_values_Set k v : sized k → v ≠ [] → value_typed v →
  typed_run panics (values_Set k v) (λ _, True).
Proof.
  intros Hk Hd Hd' g [Hn Hv Hr]. unfold store_Set. rewrite run_SetOp. cbn. unfold KeyedMap_Set.
  rewrite toFixedKey_ok by done. split; [done|]. split; [done|]. constructor; [done| |done].
  by apply map_Forall_insert_2.
Qed.

Lemma typed_Delete st k : sized k → typed_run panics (store_Delete st k) (λ _, True).
Proof.
  intros Hk g [Hn Hv Hr]. unfold store_Delete. rewrite run_DeleteOp.
  destruct st; cbn; unfold KeyedMap_Delete; rewrite toFixedKey_ok by done.
  - destruct (km_m (nodes g) !! k); (split; [done|]); [split; [done|]|]; constructor; try done.
    by apply map_Forall_delete.
  - destruct (km_m (values g) !! k); (split; [done|]); [split; [done|]|]; constructor; try done.
    by apply map_Forall_delete.
Qed.

Lemma typed_Root : typed_run panics Root sized.
Proof. intros g Hg. split; [done|]. rewrite run_Root. split; [apply Hg|done]. Qed.

Lemma typed_SetRoot r : sized r → typed_run panics (SetRoot r) (λ _, True).
Proof. intros Hr g [Hn Hv _]. split; [done|]. rewrite run_SetRoot. by split. Qed.

(** *** Decoding typed data *)

Lemma sized_hsum d : sized (hsum d).
Proof. apply hsum_length. Qed.

Lemma sized_placeholder : sized placeholder.
Proof. apply length_placeholder. Qed.

Lemma node_typed_isLeaf d : node_typed d → ∃ b, isLeaf d = Ok b.
Proof. intros []; [exists true; apply isLeaf_leaf_data|exists false; apply isLeaf_node_data]. Qed.

(** Both parsers split any typed data after the prefix. *)
Lemma node_typed_parse d :
  node_typed d → ∃ a b, sized a ∧ sized b ∧ parseLeaf d = Ok (a, b) ∧ parseNode d = Ok (a, b).
Proof.
  intros [a b Ha Hb|a b Ha Hb]; exists a, b; split_and!; try done.
  - by apply parseLeaf_leaf_data.
  - destruct (parse_pair x00 a b Ha) as [H1 H2]. unfold parseNode.
    change (leaf_data a b) with (x00 :: a ++ b). cbn [length nodePrefix] in *.
    rewrite H1. cbn [mbind outcome_bind]. by rewrite H2.
  - destruct (parse_pair x01 a b Ha) as [H1 H2]. unfold parseLeaf.
    change (node_data a b) with (x01 :: a ++ b). cbn [length leafPrefix] in *.
    rewrite H1. cbn [mbind outcome_bind]. by rewrite H2.
  - by apply parseNode_node_data.
Qed.

Lemma typed_isLeaf d : node_typed d → typed_run panics (lift (isLeaf d)) (λ _, True).
Proof. intros [b Hb]%node_typed_isLeaf. by apply (typed_lift_ok b). Qed.

Lemma typed_parseLeaf d :
  node_typed d → typed_run panics (lift (parseLeaf d)) (λ ab, sized ab.1 ∧ sized ab.2).
Proof. intros (a & b & Ha & Hb & E & _)%node_typed_parse. by apply (typed_lift_ok (a, b)). Qed.

Lemma typed_parseNode d :
  node_typed d → typed_run panics (lift (parseNode d)) (λ ab, sized ab.1 ∧ sized ab.2).
Proof. intros (a & b & Ha & Hb & _ & E)%node_typed_parse. by apply (typed_lift_ok (a, b)). Qed.

Lemma typed_getBit p i :
  sized p → i < depth → typed_run panics (lift (getBitAtFromMSB p i)) (λ _, True).
Proof.
  intros Hp Hi. destruct (lookup_lt_is_Some_2 (bits p) i) as [b Hb].
  { rewrite length_bits, Hp. exact Hi. }
  by apply (typed_lift_ok (Z_of_bit b)); [apply getBitAtFromMSB_ok|].
Qed.
End typing.

Abbreviation typed_post := (typed_run False).
Abbreviation typed_may := (typed_run True).

Create HintDb typed.
#[export] Hint Resolve typed_nodes_Get typed_values_Get typed_nodes_Set typed_values_Set
  typed_Delete typed_Root typed_SetRoot typed_isLeaf typed_parseLeaf typed_parseNode typed_getBit
  sized_hsum sized_placeholder leaf_typed inner_typed : typed.
