(* ===== verification/TypedTree.v ===== *)
(** * The methods of the tree are typed.

    Every method of smt.go, and the descents of deepsubtree.go, end without a
    panic in a typed state, on every typed state: loop by loop. *)

From S2P Require Import Prelude Utils MapStore TreeHasher Effects Proofs Smt DeepSubTree.
From S2P Require Import Merkle Store ProofsCorrect Compaction Typing.

(** Runs the next operation of a program by its typing lemma. *)
Tactic Notation "typed_op" := eapply typed_bind; [solve [eauto with typed]|cbv beta; intros].
Tactic Notation "typed_op" "as" simple_intropattern(a) simple_intropattern(H) :=
  eapply typed_bind; [solve [eauto with typed]|cbv beta; let E := fresh in intros a E; cbn [fst snd] in E; revert E; intros H].

Section typed_tree.
Context {HS : Hasher} {VT : ValueTyping}.

(** ** Walking down *)

(** The data at the end of a walk; nil stands for a placeholder. *)
Definition end_typed (pns : list bytes) (d : option bytes) : Prop :=
  match d with
  | None => last pns = Some placeholder
  | Some d => node_typed d
  end.

Definition walk_typed (w : list bytes * list bytes * bytes * option bytes) : Prop :=
  let '(sns, pns, sib, d) := w in
  Forall sized sns ∧ Forall sized pns ∧ pns ≠ [] ∧ length sns ≤ depth ∧ sized sib ∧
  end_typed pns d.

Lemma typed_fillSideNodes_loop p n : ∀ i d sib sns pns,
  sized p → n + i = depth → node_typed d → (0 < n ∨ sized sib) → length sns = i →
  Forall sized sns → Forall sized pns → pns ≠ [] →
  typed_post (fillSideNodes_loop p n i d sib sns pns) walk_typed.
Proof.
  induction n as [|n IH]; intros i d sib sns pns Hp Hn Hd Hsib Hlen Hs Hps Hne;
    cbn [fillSideNodes_loop].
  { apply typed_Ret. destruct Hsib; [lia|]. split_and!; try done. lia. }
  typed_op as [l r] [Hl Hr].
  eapply typed_bind; [apply typed_getBit; [done|lia]|]. intros b _.
  set (sib' := if (b =? right)%Z then l else r). set (h := if (b =? right)%Z then r else l).
  assert (sized sib' ∧ sized h) as [Hsib' Hh] by (subst sib' h; by destruct (b =? right)%Z).
  assert (Forall sized (sns ++ [sib'])) by (by apply Forall_app_2, Forall_singleton).
  assert (Forall sized (pns ++ [h])) by (by apply Forall_app_2, Forall_singleton).
  assert (pns ++ [h] ≠ []) by (by destruct pns).
  assert (length (sns ++ [sib']) = S i) by (rewrite length_app; cbn; lia).
  unfold bytes_Equal. case_bool_decide as Hz.
  { apply typed_Ret. split_and!; try done; [lia|]. cbn. by rewrite last_snoc, Hz. }
  typed_op. typed_op. destruct a0.
  - apply typed_Ret. split_and!; try done. lia.
  - apply IH; try done; [lia|by right].
Qed.

(** What [fillSideNodes] returns. *)
Definition slices_typed (w : pathSlices * option bytes * option bytes) : Prop :=
  let '(ps, d, sib) := w in
  Forall sized (sideNodes ps) ∧ Forall sized (pathNodes ps) ∧ length (sideNodes ps) ≤ depth ∧
  (∃ h pns, pathNodes ps = h :: pns ∧ match d with None => h = placeholder | Some d => node_typed d end) ∧
  match sib with None => True | Some d => node_typed d end.

Lemma typed_fillSideNodes p root getSib :
  sized p → sized root → typed_post (fillSideNodes p root getSib) slices_typed.
Proof.
  intros Hp Hr. unfold fillSideNodes. assert (Forall sized [root]) by by constructor.
  unfold bytes_Equal. case_bool_decide as Hz.
  { apply typed_Ret. split_and!; try done; first [by eexists _, _|cbn; lia]. }
  typed_op. typed_op. destruct a0.
  { apply typed_Ret. split_and!; try done; first [by eexists _, _|cbn; lia]. }
  eapply typed_bind.
  { apply typed_fillSideNodes_loop; try done; try lia.
    destruct (decide (0 < depth)) as [|E]; [by left|right]. unfold sized, depth, pathSize in *.
    cbn. lia. }
  intros [[[sns pns] sib] d] (Hs & Hps & Hne & Hlen & Hsib & Hd).
  eapply (typed_bind _ _ (λ s, match s with None => True | Some d => node_typed d end)).
  { destruct getSib; [|by apply typed_Ret]. typed_op. by apply typed_Ret. }
  intros s Hs'. rewrite !reverseByteSlicesInPlace_spec. cbn [lift mbind prog_bind].
  apply typed_Ret. split_and!; cbn [sideNodes pathNodes]; try done.
  - by apply Forall_reverse.
  - by apply Forall_reverse.
  - by rewrite length_reverse.
  - destruct pns as [|h pns _] using rev_ind; [done|]. rewrite reverse_snoc.
    exists h, (reverse pns). split; [done|]. destruct d; [done|].
    cbn in Hd. rewrite last_snoc in Hd. by injection Hd.
Qed.

(** ** Deleting *)

Definition opt_sized (h : option bytes) : Prop := match h with None => True | Some h => sized h end.

(** One step up: the hash of a node and its data. *)
Lemma typed_digest_up (c : bool) x y :
  sized x → sized y →
  ∃ h d, (if c then digestNodeInto x y else digestNodeInto y x) = (h, d) ∧ sized h ∧ node_typed d.
Proof.
  intros Hx Hy. destruct c; eexists _, _; (split; [reflexivity|]); split; try apply sized_hsum;
    [apply (inner_typed x y)|apply (inner_typed y x)]; done.
Qed.

Lemma typed_delete_loop p len sns : ∀ i h d b,
  sized p → i + length sns = len → len ≤ depth → Forall sized sns → opt_sized h → opt_sized d →
  typed_post (deleteWithSideNodes_loop p len sns i h d b) opt_sized.
Proof.
  induction sns as [|sn sns IH]; intros i h d b Hp Hlen Hdep Hs Hh Hd;
    cbn [deleteWithSideNodes_loop].
  { by apply typed_Ret. }
  apply Forall_cons in Hs as [Hsn Hs]. cbn [length] in Hlen.
  eapply (typed_bind _ _ (λ st, match st with None => True | Some db => sized db.1 end)).
  { destruct d as [d|]; [by apply typed_Ret|]. typed_op. typed_op.
    destruct a0; apply typed_Ret; [done|apply sized_placeholder]. }
  intros [[d' b']|] Hst; [|apply IH; try done; lia]. cbn [fst] in Hst.
  destruct (negb b' && bytes_Equal sn placeholder); [apply IH; try done; lia|].
  eapply typed_bind; [apply typed_getBit; [done|lia]|]. intros c _.
  destruct (typed_digest_up (c =? right)%Z sn d' Hsn Hst) as (h' & x & -> & Hh' & Hx).
  typed_op. apply IH; try done; lia.
Qed.

Lemma typed_deleteWithSideNodes p ps d sib :
  sized p → slices_typed (ps, d, sib) →
  typed_post (deleteWithSideNodes p (sideNodes ps) (pathNodes ps) d) sized.
Proof.
  intros Hp (Hs & Hps & Hlen & (h & pns & Epn & Hd) & _). unfold deleteWithSideNodes.
  rewrite Epn in *. cbn [index lookup list_lookup lift mbind prog_bind].
  unfold bytes_Equal at 1. case_bool_decide as Hz; [apply typed_Throw|].
  destruct d as [d|]; [|done]. cbn [of_nil default id]. typed_op as [q w] _.
  destruct (negb _); [apply typed_Throw|].
  eapply typed_bind.
  { apply typed_for_each. intros x Hx. apply typed_Delete.
    exact (proj1 (Forall_forall _ _) Hps x Hx). }
  intros _ _. eapply typed_bind; [by apply typed_delete_loop|].
  intros [r|] Hr; apply typed_Ret; [done|apply sized_placeholder].
Qed.

(** ** Inserting *)

Lemma typed_update_loop p sns c n : ∀ i d,
  sized p → n + i = depth → length sns ≤ depth → Forall sized sns → sized d →
  typed_post (updateWithSideNodes_loop p sns c n i d) sized.
Proof.
  induction n as [|n IH]; intros i d Hp Hn Hlen Hs Hd; cbn [updateWithSideNodes_loop].
  { by apply typed_Ret. }
  eapply (typed_bind _ _ opt_sized).
  { case_match.
    - case_match; apply typed_Ret; [apply sized_placeholder|done].
    - set (j := Z.to_nat _). assert (j < length sns) as Hj by (subst j; lia).
      destruct (lookup_lt_is_Some_2 sns j Hj) as [sn Hsn]. rewrite (index_ok _ _ _ Hsn).
      apply typed_Ret. exact (Forall_lookup_1 _ _ _ _ Hs Hsn). }
  intros [sn|] Hsn; [|apply IH; try done; lia].
  eapply typed_bind; [apply typed_getBit; [done|lia]|]. intros b _.
  destruct (typed_digest_up (b =? right)%Z sn d Hsn Hd) as (h & x & -> & Hh & Hx).
  typed_op. apply IH; try done; lia.
Qed.

Lemma typed_updateWithSideNodes p v ps d sib :
  sized p → v ≠ [] → value_typed v → slices_typed (ps, d, sib) →
  typed_post (updateWithSideNodes p v (sideNodes ps) (pathNodes ps) d) sized.
Proof.
  intros Hp Hv Hv' (Hs & Hps & Hlen & (h & pns & Epn & Hd) & _). unfold updateWithSideNodes.
  change (digestLeafInto p (digestInto v))
    with (hsum (leaf_data p (hsum v)), leaf_data p (hsum v)). cbn beta iota zeta.
  rewrite Epn in *. apply Forall_cons in Hps as [Hh Hpns]. typed_op.
  cbn [index lookup list_lookup lift mbind prog_bind drop].
  eapply (typed_bind _ _ (λ c, c.1 ≤ depth)).
  { unfold bytes_Equal. case_bool_decide as Hz; [by apply typed_Ret|].
    destruct d as [d|]; [|done]. cbn [of_nil default id]. typed_op as [q w] [Hq _].
    rewrite countCommonPrefix_spec by (unfold sized in *; congruence).
    cbn [lift mbind prog_bind]. apply typed_Ret. cbn.
    etrans; [apply lcp_le_l|]. rewrite length_bits, Hp. done. }
  intros [c ov] Hc. cbn [fst] in Hc.
  eapply (typed_bind _ _ (λ r, match r with inl r => sized r | inr r => sized r end)).
  { case_bool_decide as Hcd.
    - eapply typed_bind; [apply typed_getBit; [done|lia]|]. intros b _.
      destruct (typed_digest_up (b =? right)%Z h (hsum (leaf_data p (hsum v))) Hh (sized_hsum _))
        as (h' & x & -> & Hh' & Hx). typed_op. by apply typed_Ret.
    - destruct ov as [ov|]; [|apply typed_Ret, sized_hsum].
      destruct (bytes_Equal _ _); [typed_op; by apply typed_Ret|].
      typed_op. typed_op. apply typed_Ret, sized_hsum. }
  intros [r|r] Hr; [by apply typed_Ret|].
  eapply typed_bind.
  { apply typed_for_each. intros x Hx. apply typed_Delete.
    exact (proj1 (Forall_forall _ _) Hpns x Hx). }
  intros _ _. eapply typed_bind; [apply typed_update_loop; try done; lia|].
  intros r' Hr'. typed_op. by apply typed_Ret.
Qed.

(** ** The methods *)

Lemma sized_path key : sized (path key).
Proof. apply length_path. Qed.

(** What a caller may set: the default value deletes. *)
Definition settable (v : bytes) : Prop := v ≠ [] → value_typed v.

Lemma typed_UpdateForRoot key value root :
  settable value → sized root → typed_post (UpdateForRoot key value root) sized.
Proof.
  intros Hset Hr. unfold UpdateForRoot. change (pathInto key) with (path key).
  pose proof (sized_path key) as Hp.
  eapply typed_bind; [by apply typed_fillSideNodes|]. intros [[ps d] sib] Hw.
  unfold bytes_Equal. case_bool_decide as Hv; [|by eapply typed_updateWithSideNodes; [..|apply Hset|]].
  eapply typed_bind; [by eapply typed_try, typed_deleteWithSideNodes|].
  intros [e|r] Hres.
  - destruct e; try by apply typed_Ret.
    all: typed_op; apply typed_Throw.
  - typed_op. by apply typed_Ret.
Qed.

Lemma typed_Update key value : settable value → typed_post (Update key value) sized.
Proof.
  intros Hv. unfold Update. typed_op. eapply typed_bind; [by apply typed_UpdateForRoot|].
  intros r Hr. typed_op. by apply typed_Ret.
Qed.

Lemma typed_Get_method key : typed_post (Get key) (λ _, True).
Proof.
  unfold Get. typed_op. destruct (bytes_Equal _ _); [by apply typed_Ret|].
  eapply typed_bind; [apply typed_try, typed_values_Get, sized_path|].
  intros [[]|v] _; first [apply typed_Throw|by apply typed_Ret].
Qed.

Lemma typed_Has key : typed_post (Has key) (λ _, True).
Proof. unfold Has. eapply typed_bind; [apply typed_Get_method|]. intros v _. by apply typed_Ret. Qed.

(** A proof of a typed tree has sized side nodes and typed leaf data. *)
Definition proof_typed (pr : SparseMerkleProof) : Prop :=
  Forall sized (SideNodes pr) ∧ length (SideNodes pr) ≤ depth ∧
  (∀ d, NonMembershipLeafData pr = Some d → node_typed d) ∧
  (∀ d, SiblingData pr = Some d → node_typed d).

Lemma typed_doProveForRoot key root upd :
  sized root → typed_post (doProveForRoot key root upd) proof_typed.
Proof.
  intros Hr. unfold doProveForRoot. pose proof (sized_path key) as Hp.
  eapply typed_bind; [by apply typed_fillSideNodes|].
  intros [[ps d] sib] (Hs & Hps & Hlen & (h & pns & Epn & Hd) & Hsib).
  rewrite Epn. cbn [index lookup list_lookup lift mbind prog_bind].
  eapply (typed_bind _ _ (λ nd, ∀ d, nd = Some d → node_typed d)).
  { unfold bytes_Equal. case_bool_decide as Hz; cbn [negb]; [by apply typed_Ret|].
    destruct d as [d|]; [|done]. cbn [of_nil default id]. typed_op as [q w] _.
    destruct (negb _); apply typed_Ret; [by intros ? [= <-]|done]. }
  intros nd Hnd. apply typed_Ret. split_and!; cbn; try done. by intros x ->.
Qed.

Lemma typed_Prove key : typed_post (Prove key) proof_typed.
Proof. unfold Prove. typed_op. by apply typed_doProveForRoot. Qed.

Lemma typed_ProveUpdatable key : typed_post (ProveUpdatable key) proof_typed.
Proof. unfold ProveUpdatable. typed_op. by apply typed_doProveForRoot. Qed.

Lemma CompactProof_no_panic pr : CompactProof pr ≠ Panic.
Proof.
  destruct (sanityCheck pr) eqn:E.
  - by destruct (CompactProof_spec pr E) as (m & -> & _).
  - unfold CompactProof. by rewrite E.
Qed.

Lemma typed_ProveCompact key : typed_post (ProveCompact key) (λ _, True).
Proof.
  unfold ProveCompact, ProveCompactForRoot. typed_op.
  eapply typed_bind; [by apply typed_doProveForRoot|]. intros pr _.
  apply typed_lift; [apply CompactProof_no_panic|done].
Qed.

Lemma typed_GetDescend_loop p n : ∀ i h,
  sized p → n + i = depth → sized h → typed_post (GetDescend_loop p n i h) (λ _, True).
Proof.
  induction n as [|n IH]; intros i h Hp Hn Hh; cbn [GetDescend_loop].
  { eapply typed_weaken; [by apply typed_values_Get|done]. }
  typed_op. typed_op. destruct a0.
  - typed_op as [q w] _. destruct (negb _); [by apply typed_Ret|].
    eapply typed_weaken; [by apply typed_values_Get|done].
  - typed_op as [l r] [Hl Hr].
    eapply typed_bind; [apply typed_getBit; [done|lia]|]. intros b _.
    destruct (bytes_Equal _ _); [by apply typed_Ret|]. apply IH; try done; [lia|].
    by destruct (b =? right)%Z.
Qed.

Lemma typed_GetDescend key : typed_post (GetDescend key) (λ _, True).
Proof.
  unfold GetDescend. typed_op. destruct (bytes_Equal _ _); [by apply typed_Ret|].
  apply typed_GetDescend_loop; [apply sized_path|lia|done].
Qed.

Lemma typed_HasDescend key : typed_post (HasDescend key) (λ _, True).
Proof. unfold HasDescend. eapply typed_bind; [apply typed_GetDescend|]. intros v _. by apply typed_Ret. Qed.

Lemma typed_ProveCompactForRoot key root :
  sized root → typed_post (ProveCompactForRoot key root) (λ _, True).
Proof.
  intros Hr. unfold ProveCompactForRoot.
  eapply typed_bind; [by apply typed_doProveForRoot|]. intros pr _.
  apply typed_lift; [apply CompactProof_no_panic|done].
Qed.

(** ** Adding a branch *)

(** One entry of the updates of a verification. *)
Definition update_typed (u : bytes * bytes) : Prop := sized u.1 ∧ node_typed u.2.

Lemma typed_verify_leaf proof p value :
  sanityCheck proof = true → sized p →
  ∃ r, verify_leaf proof p value = Ok r ∧
       match r with None => True | Some (h, us) => sized h ∧ Forall update_typed us end.
Proof.
  intros (_ & _ & Hnm)%sanityCheck_true Hp.
  assert (∀ q x, sized q → sized x →
    sized (hsum (leaf_data q x)) ∧ Forall update_typed [(hsum (leaf_data q x), leaf_data q x)]) as Hleaf.
  { intros q x Hq Hx. split; [apply sized_hsum|]. apply Forall_singleton.
    split; [apply sized_hsum|by apply leaf_typed]. }
  unfold verify_leaf. destruct (bytes_Equal value defaultValue).
  - destruct (NonMembershipLeafData proof) as [d|].
    2: { eexists. split; [done|]. split; [apply sized_placeholder|constructor]. }
    specialize (Hnm d eq_refl). unfold parseLeaf.
    rewrite !slice_ok by (unfold leafPrefix, pathSize; simpl; lia). cbn [mbind outcome_bind].
    set (q := take _ _). set (x := take _ (drop (_ + _) _)). case_match; [by eexists|].
    exists (Some (hsum (leaf_data q x), [(hsum (leaf_data q x), leaf_data q x)])).
    split; [done|]. subst q x. apply Hleaf; unfold sized;
      rewrite length_take, length_drop; unfold leafPrefix, pathSize; simpl; lia.
  - exists (Some (hsum (leaf_data p (hsum value)),
      [(hsum (leaf_data p (hsum value)), leaf_data p (hsum value))])).
    split; [done|]. apply Hleaf; [done|apply sized_hsum].
Qed.

Lemma typed_verify_loop p len sns : ∀ i h us,
  sized p → i + length sns = len → len ≤ depth → Forall sized sns → sized h →
  Forall update_typed us →
  ∃ h' us', verify_loop p len sns i h us = Ok (h', us') ∧ Forall update_typed us'.
Proof.
  induction sns as [|sn sns IH]; intros i h us Hp Hlen Hdep Hs Hh Hus; cbn [verify_loop].
  { by eexists _, _. }
  apply Forall_cons in Hs as [Hsn Hs]. cbn [length] in Hlen.
  rewrite make_copy_id by done.
  destruct (lookup_lt_is_Some_2 (bits p) (len - 1 - i)) as [b Hb].
  { rewrite length_bits, Hp. unfold depth, pathSize in *. lia. }
  rewrite (getBitAtFromMSB_ok _ _ _ Hb). cbn [mbind outcome_bind].
  destruct (typed_digest_up (Z_of_bit b =? right)%Z sn h Hsn Hh) as (h' & d & E & Hh' & Hd).
  change (if (Z_of_bit b =? right)%Z then digestNode sn h else digestNode h sn)
    with (if (Z_of_bit b =? right)%Z then digestNodeInto sn h else digestNodeInto h sn).
  rewrite E. apply IH; try done; [lia|]. by apply Forall_app_2, Forall_singleton.
Qed.

Lemma typed_verifyProofWithUpdates proof root key value :
  ∃ b us, verifyProofWithUpdates proof root key value = Ok (b, us) ∧ Forall update_typed us ∧
          (b = true → Forall sized (SideNodes proof)).
Proof.
  unfold verifyProofWithUpdates. destruct (sanityCheck proof) eqn:Hs; cbn [negb].
  2: { eexists _, _. by split_and!. }
  destruct (typed_verify_leaf proof (path key) value Hs (sized_path key)) as (r & -> & Hr).
  cbn [mbind outcome_bind]. destruct r as [[h us]|]; [|eexists _, _; by split_and!].
  destruct Hr as [Hh Hus]. apply sanityCheck_true in Hs as (Hlen & Hsn & _).
  destruct (typed_verify_loop (path key) (length (SideNodes proof)) (SideNodes proof) 0 h us
    (sized_path key) eq_refl Hlen Hsn Hh Hus) as (h' & us' & -> & Hus').
  cbn [mbind outcome_bind]. eexists _, _. by split_and!.
Qed.

(** The data of the sibling is not checked against the format of nodes. *)
Definition sibling_typed (proof : SparseMerkleProof) : Prop :=
  ∀ d, SiblingData proof = Some d → node_typed d.

Lemma typed_AddBranch proof key value :
  settable value → sibling_typed proof → typed_post (AddBranch proof key value) (λ _, True).
Proof.
  intros Hset Hsib. unfold AddBranch. typed_op as root Hroot.
  destruct (typed_verifyProofWithUpdates proof root key value) as (b & us & -> & Hus & Hsn).
  cbn [lift mbind prog_bind]. destruct b; cbn [negb]; [|apply typed_Throw].
  eapply (typed_bind _ _ (λ _, True)).
  { unfold bytes_Equal. case_bool_decide as Hv; [by apply typed_Ret|].
    apply typed_values_Set; [apply sized_path|done|by apply Hset]. }
  intros _ _. eapply typed_bind.
  { apply typed_for_each. intros [k d] Hx.
    destruct (proj1 (Forall_forall _ _) Hus _ Hx) as [Hk Hd]. by apply typed_nodes_Set. }
  intros _ _. destruct (SiblingData proof) as [d|] eqn:Ed; [|by apply typed_Ret].
  destruct (SideNodes proof) as [|sn sns]; [by apply typed_Ret|].
  apply typed_nodes_Set; [|by apply Hsib].
  by apply Forall_cons_1 in Hsn; [apply Hsn|].
Qed.
End typed_tree.
