(* ===== verification/ToyHasher.v ===== *)
(** * A two-byte hasher, to evaluate the model on concrete inputs.

    A polynomial hash modulo a prime, with paths of sixteen bits.  The maps
    below have no collisions among the strings they hash; the decision
    procedure [collision_freeb] checks it. *)

From S2P Require Import Prelude Utils MapStore TreeHasher Effects Proofs Smt Trie.
From S2P Require Import Merkle Store Spec SmtSpec.

Definition toy_fold (d : bytes) : Z :=
  (foldl (λ acc b, ((acc + byte_val b + 11) * 40503) `mod` 65521) 7 d)%Z.

Definition toy_sum (d : bytes) : bytes :=
  [byte_of_Z (toy_fold d / 256); byte_of_Z (toy_fold d)].

Definition toy : Hasher :=
  {| hsum := toy_sum; hsize := 2; hsum_length := λ d, eq_refl |}.

(** Keys and values of one byte. *)
Definition toy_bytes (z : Z) : bytes := [byte_of_Z z].

Definition toy_kvs (l : list (Z * Z)) : list (bytes * bytes) :=
  (λ '(k, v), (toy_bytes k, toy_bytes v)) <$> l.

Definition toy_map : gmap bytes bytes :=
  @update_all toy (toy_kvs [(1, 10); (2, 20); (77, 30); (200, 40); (5, 50)]%Z) ∅.

(** The reference state of the map. *)
Definition toy_state : SparseMerkleTree (KeyedMap 2) (KeyedMap 2) :=
  @map_state toy toy_map (@merkle_root toy toy_map).

Lemma toy_map_valid : @valid_map toy toy_map.
Proof. apply valid_map_update_all, valid_map_empty. Qed.

Lemma toy_state_holds : @smt_holds toy _ _ _ _ _ _ toy_state toy_map.
Proof. split; [apply toy_map_valid|]. by constructor. Qed.

Ltac collision_free_by_compute :=
  apply collision_freeb_spec; vm_compute; reflexivity.

(** A decidable goal, by evaluating its decision procedure. *)
Ltac decide_by_compute :=
  refine (bool_decide_eq_true_1 _ _); vm_compute; reflexivity.
