(* ===== verification/BasicTheorems.v ===== *)
(** * utils.go, treehasher.go, mapstore.go: what the basics guarantee. *)

From S2P Require Import Prelude Utils MapStore TreeHasher Proofs Trie ToyHasher.

(** ** utils.go *)

(** setBitAtFromMSB sets one bit and no other: within the slice it
    succeeds, keeps the length, and getBitAtFromMSB then reads 1 at that
    position and what it read before at every other; at a position outside
    the slice both panic. *)
Theorem setBitAtFromMSB_getBitAtFromMSB data i :
  if i <? length data * 8
  then ∃ data', setBitAtFromMSB data i = Ok data' ∧ length data' = length data ∧
         ∀ j, getBitAtFromMSB data' j = if i =? j then Ok 1%Z else getBitAtFromMSB data j
  else setBitAtFromMSB data i = Panic ∧ getBitAtFromMSB data i = Panic.
Proof.
  destruct (Nat.ltb_spec i (length data * 8)) as [Hi|Hi].
  - destruct (setBitAtFromMSB_spec data i Hi) as (d' & E & L & B).
    exists d'. split_and!; [done|done|]. intros j. rewrite !getBitAtFromMSB_bits, B.
    destruct (Nat.eqb_spec i j) as [<-|Hne].
    + by rewrite list_lookup_insert_eq by (rewrite length_bits; lia).
    + by rewrite list_lookup_insert_ne.
  - unfold setBitAtFromMSB, getBitAtFromMSB, index.
    assert (data !! (i / 8) = None) as ->; [|done].
    apply lookup_ge_None. apply Nat.div_le_lower_bound; lia.
Qed.

(** CountCommonPrefix of two slices of one length counts the leading bits
    they share: below the count the bits agree, at the count, if it is inside
    the slices, they differ. *)
Theorem countCommonPrefix_correct data1 data2 :
  length data1 = length data2 →
  ∃ c, countCommonPrefix data1 data2 = Ok c ∧ c ≤ length data1 * 8 ∧
    (∀ i, i < c → getBitAtFromMSB data1 i = getBitAtFromMSB data2 i) ∧
    (c < length data1 * 8 → getBitAtFromMSB data1 c ≠ getBitAtFromMSB data2 c).
Proof.
  intros Hlen. exists (lcp (bits data1) (bits data2)).
  pose proof (lcp_le_l (bits data1) (bits data2)) as Hle. rewrite length_bits in Hle.
  assert (∀ i, i < length data1 * 8 →
    getBitAtFromMSB data1 i = Ok (Z_of_bit (nth i (bits data1) false)) ∧
    getBitAtFromMSB data2 i = Ok (Z_of_bit (nth i (bits data2) false))) as Hget.
  { intros i Hi. split; apply getBitAtFromMSB_ok, bit_lookup; rewrite length_bits; lia. }
  split_and!; [by apply countCommonPrefix_spec|done| |].
  - intros i Hi. destruct (Hget i) as [-> ->]; [lia|]. do 2 f_equal. by apply lcp_nth.
  - intros Hc. destruct (Hget _ Hc) as [-> ->].
    rewrite lcp_differ by (rewrite length_bits; lia). by destruct (nth _ _ _).
Qed.

(** The in-place reversal loop ends with the slice reversed, for every
    length: it never indexes out of range. *)
Theorem reverseByteSlicesInPlace_correct {A} (slices : list A) :
  reverseByteSlicesInPlace slices = Ok (reverse slices) ∧
  reverseByteSlices slices = Ok (reverse slices).
Proof. split; apply reverseByteSlicesInPlace_spec. Qed.

(** ** treehasher.go *)

(** Encoding and decoding agree: the data of a digested leaf or node is
    told apart by isLeaf and parses back to its two parts, and its hash is
    the digest of the data; reusing a destination buffer makes no
    difference. *)
Theorem treehasher_roundtrip {HS : Hasher} p vh l r :
  length p = hsize → length l = hsize →
  (let '(h, d) := digestLeaf p vh in
   h = digest d ∧ isLeaf d = Ok true ∧ parseLeaf d = Ok (p, vh)) ∧
  (let '(h, d) := digestNode l r in
   h = digest d ∧ isLeaf d = Ok false ∧ parseNode d = Ok (l, r)) ∧
  digestLeafInto p vh = digestLeaf p vh ∧ digestNodeInto l r = digestNode l r.
Proof.
  intros Hp Hl. rewrite digestLeaf_eq, digestNode_eq. split_and!; try done.
  - by apply parseLeaf_leaf_data.
  - by apply parseNode_node_data.
Qed.

(** The hasher object is left reset by every digest, and a digest of a
    reset hasher depends on the data alone, so digests do not disturb one
    another. *)
Theorem digests_independent {HS : Hasher} data1 data2 dst h :
  let '(sum1, h1) := digest_run data1 h in
  let '(sum2, h2) := digestInto_run dst data2 h1 in
  h1 = hash_New ∧ h2 = hash_New ∧ sum2 = digest data2 ∧ length sum1 = pathSize.
Proof. split_and!; try done. apply hsum_length. Qed.

(** ** mapstore.go, mapstore_fixed.go *)

(** The value of a hexadecimal digit. *)
Definition unhex (d : byte) : Z :=
  let z := byte_val d in (if z <? 58 then z - 48 else z - 87)%Z.

Lemma unhex_digits b :
  byte_of_Z (16 * unhex (hex_digit (byte_val b / 16)) + unhex (hex_digit (byte_val b `mod` 16))) = b.
Proof. destruct b; reflexivity. Qed.

(** The text of an InvalidKeyError tells the key: different keys have
    different texts. *)
Theorem InvalidKeyError_Error_inj k1 k2 :
  InvalidKeyError_Error k1 = InvalidKeyError_Error k2 → k1 = k2.
Proof.
  unfold InvalidKeyError_Error. intros H%app_inv_head. revert k2 H.
  induction k1 as [|b1 k1 IH]; intros [|b2 k2] H; [done..|].
  cbn in H. injection H as E1 E2 E3. f_equal; [|by apply IH].
  rewrite <-(unhex_digits b1), <-(unhex_digits b2). by rewrite E1, E2.
Qed.

Example InvalidKeyError_Error_text :
  InvalidKeyError_Error (byte_of_Z <$> [0; 175; 16])%Z =
  byte_of_Z <$> [105; 110; 118; 97; 108; 105; 100; 32; 107; 101; 121; 58; 32; 48; 48; 97; 102; 49; 48]%Z.
Proof. reflexivity. Qed.

(** FixedSizeMap panics exactly on keys that are not 32 bytes long, in
    every operation and without changing the map; on keys of 32 bytes it is
    a map whose absent keys give InvalidKeyError. *)
Theorem FixedSizeMap_correct (sm : KeyedMap 32) key value :
  if length key =? 32
  then ms_Get key sm = match km_m sm !! key with
                       | Some v => Ok v
                       | None => Err (InvalidKeyError key)
                       end ∧
       ms_Set key value sm = (Ok tt, mkKeyedMap (<[key := value]> (km_m sm))) ∧
       ms_Delete key sm = match km_m sm !! key with
                          | Some _ => (Ok tt, mkKeyedMap (delete key (km_m sm)))
                          | None => (Err (InvalidKeyError key), sm)
                          end
  else ms_Get key sm = Panic ∧ ms_Set key value sm = (Panic, sm) ∧
       ms_Delete key sm = (Panic, sm).
Proof.
  cbn. unfold KeyedMap_Get, KeyedMap_Set, KeyedMap_Delete.
  destruct (Nat.eqb_spec (length key) 32) as [Hk|Hk].
  - by rewrite toFixedKey_ok.
  - unfold toFixedKey. by rewrite bool_decide_true.
Qed.

(** FixedSizeMap and SimpleMap start empty and count distinct keys: Len
    grows by one on a new key, stays on an overwrite, and drops by one on
    the deletion of a present key. *)
Theorem FixedSizeMap_Len_correct (sm : FixedSizeMap) key value :
  length key = 32 →
  FixedSizeMap_Len NewFixedSizeMap = 0 ∧
  FixedSizeMap_Len (ms_Set key value sm).2 =
    FixedSizeMap_Len sm + (if decide (is_Some (km_m sm !! key)) then 0 else 1) ∧
  (is_Some (km_m sm !! key) →
   FixedSizeMap_Len (ms_Delete key sm).2 = FixedSizeMap_Len sm - 1).
Proof.
  intros Hk. cbn. unfold KeyedMap_Set, KeyedMap_Delete, FixedSizeMap_Len.
  rewrite toFixedKey_ok by done. split_and!; [done| |].
  - cbn. rewrite map_size_insert. case_decide as Hs; destruct (km_m sm !! key); cbn; try lia.
    + by destruct Hs.
    + destruct Hs. by eexists.
  - intros [v Hv]. rewrite Hv. cbn. rewrite map_size_delete, Hv. lia.
Qed.

(** ** Witnesses *)
Section witnesses.
#[local] Existing Instance toy.

Lemma countCommonPrefix_correct_witness :
  ∃ c, countCommonPrefix (toy_bytes 208) (toy_bytes 214) = Ok c ∧ c ≤ length (toy_bytes 208) * 8 ∧
    (∀ i, i < c →
      getBitAtFromMSB (toy_bytes 208) i = getBitAtFromMSB (toy_bytes 214) i) ∧
    (c < length (toy_bytes 208) * 8 →
      getBitAtFromMSB (toy_bytes 208) c ≠ getBitAtFromMSB (toy_bytes 214) c).
Proof. apply countCommonPrefix_correct. reflexivity. Defined.

Lemma treehasher_roundtrip_witness :
  let p := toy_sum (toy_bytes 1) in
  let l := toy_sum (toy_bytes 2) in
  (let '(h, d) := digestLeaf p l in
   h = digest d ∧ isLeaf d = Ok true ∧ parseLeaf d = Ok (p, l)) ∧
  (let '(h, d) := digestNode l p in
   h = digest d ∧ isLeaf d = Ok false ∧ parseNode d = Ok (l, p)) ∧
  digestLeafInto p l = digestLeaf p l ∧ digestNodeInto l p = digestNode l p.
Proof. intros p l. apply treehasher_roundtrip; reflexivity. Defined.

Lemma FixedSizeMap_Len_correct_witness :
  let key := replicate 32 x01 in
  FixedSizeMap_Len NewFixedSizeMap = 0 ∧
  FixedSizeMap_Len (ms_Set key [] NewFixedSizeMap).2 =
    FixedSizeMap_Len NewFixedSizeMap +
    (if decide (is_Some (km_m NewFixedSizeMap !! key)) then 0 else 1) ∧
  (is_Some (km_m NewFixedSizeMap !! key) →
   FixedSizeMap_Len (ms_Delete key NewFixedSizeMap).2 = FixedSizeMap_Len NewFixedSizeMap - 1).
Proof. intros key. apply FixedSizeMap_Len_correct. reflexivity. Defined.
End witnesses.
