(* ===== verification/Faults.v ===== *)
(** * Stores that fail.

    A [FaultyStore] is a store whose calls may fail with an error of its own,
    changing nothing: which calls, and when, is a function of the number of
    writes so far and of the call.  A [strict] program ends in an error once a
    store has failed, whatever the stores do after that; [run_faulty] is what
    it amounts to: on failing stores a strict program does what it does on the
    stores without failures, or returns an error. *)

From S2P Require Import Prelude Utils MapStore TreeHasher Effects Proofs Smt DeepSubTree Bulk.

(** ** The stores *)

Inductive store_call : Type :=
  | CallGet (k : bytes)
  | CallSet (k v : bytes)
  | CallDelete (k : bytes).

Record FaultyStore (S : Type) : Type := mkFaulty {
  fs_store : S;
  fs_writes : nat;
  fs_fault : nat → store_call → option N;
}.
Arguments mkFaulty {S} fs_store fs_writes fs_fault.
Arguments fs_store {S} _.
Arguments fs_writes {S} _.
Arguments fs_fault {S} _.

Section faulty.
Context {St : Type} `{MapStore St}.

(** The error the call ends in, if any. *)
Definition fault (f : FaultyStore St) (c : store_call) : option error :=
  OtherError <$> fs_fault f (fs_writes f) c.

Definition Faulty_Get (k : bytes) (f : FaultyStore St) : outcome bytes :=
  match fault f (CallGet k) with
  | Some e => Err e
  | None => ms_Get k (fs_store f)
  end.

Definition Faulty_write (c : store_call) (r : outcome unit * St) (f : FaultyStore St)
    : outcome unit * FaultyStore St :=
  match fault f c with
  | Some e => (Err e, mkFaulty (fs_store f) (S (fs_writes f)) (fs_fault f))
  | None => (r.1, mkFaulty r.2 (S (fs_writes f)) (fs_fault f))
  end.

#[export] Instance Faulty_MapStore : MapStore (FaultyStore St) := {|
  ms_Get := Faulty_Get;
  ms_Set k v f := Faulty_write (CallSet k v) (ms_Set k v (fs_store f)) f;
  ms_Delete k f := Faulty_write (CallDelete k) (ms_Delete k (fs_store f)) f;
|}.
End faulty.

(** What a store may answer for keys of the digest size besides the errors of
    [FaultyStore]: it does not panic, and its errors are [InvalidKeyError] or
    its own. *)
Definition store_error (e : error) : Prop :=
  match e with
  | InvalidKeyError _ | OtherError _ => True
  | _ => False
  end.

Definition own_error (e : error) : Prop :=
  match e with
  | OtherError _ => True
  | _ => False
  end.

Definition fair {A} (o : outcome A) : Prop :=
  match o with
  | Ok _ => True
  | Err e => store_error e
  | Panic => False
  end.

Class SafeMapStore (n : nat) (St : Type) `{MapStore St} : Prop := {
  safe_Get k (s : St) : length k = n → fair (ms_Get k s);
  safe_Set k v (s : St) : length k = n → fair (ms_Set k v s).1;
  safe_Delete k (s : St) : length k = n → fair (ms_Delete k s).1;
}.

#[export] Instance SimpleMap_safe n : SafeMapStore n SimpleMap.
Proof.
  split; cbn; [|done|]; intros k s _; unfold SimpleMap_Get, SimpleMap_Delete; by destruct (_ !! _).
Qed.

#[export] Instance KeyedMap_safe n : SafeMapStore n (KeyedMap n).
Proof.
  split; intros; cbn; unfold KeyedMap_Get, KeyedMap_Set, KeyedMap_Delete;
    rewrite toFixedKey_ok by done; cbn; by repeat case_match.
Qed.

#[export] Instance Faulty_safe n `{SafeMapStore n St} : SafeMapStore n (FaultyStore St).
Proof.
  split; intros; cbn; unfold Faulty_Get, Faulty_write, fault; destruct (fs_fault _ _ _); cbn;
    [done|by apply safe_Get|done|by apply safe_Set|done|by apply safe_Delete].
Qed.

(** ** Strict programs *)

Section strict.
Context {HS : Hasher}.

(** Whatever stores that are safe answer, the program ends in an error of [E],
    and does not assign the root. *)
Fixpoint must_fail {A} (E : error → Prop) (m : prog A) : Prop :=
  match m with
  | Ret _ | Crash | SetRootOp _ _ => False
  | Throw e => E e
  | GetOp _ k c => length k = hsize ∧
      ∀ r, match r with inl e => store_error e | inr _ => True end → must_fail E (c r)
  | SetOp _ k _ c | DeleteOp _ k c => length k = hsize ∧
      ∀ r, match r with Some e => store_error e | None => True end → must_fail E (c r)
  | RootOp c => ∀ r, must_fail E (c r)
  end.

Fixpoint strict {A} (E : error → Prop) (m : prog A) : Prop :=
  match m with
  | Ret _ | Throw _ | Crash => True
  | GetOp _ _ c => (∀ n, must_fail E (c (inl (OtherError n)))) ∧ ∀ r, strict E (c r)
  | SetOp _ _ _ c | DeleteOp _ _ c =>
      (∀ n, must_fail E (c (Some (OtherError n)))) ∧ ∀ r, strict E (c r)
  | RootOp c => ∀ r, strict E (c r)
  | SetRootOp _ c => strict E c
  end.

Lemma must_fail_mono {A} (E E' : error → Prop) (m : prog A) :
  (∀ e, E e → E' e) → must_fail E m → must_fail E' m.
Proof. intros HE. induction m; cbn in *; naive_solver. Qed.

Lemma strict_mono {A} (E E' : error → Prop) (m : prog A) :
  (∀ e, E e → E' e) → strict E m → strict E' m.
Proof. intros HE. induction m; cbn in *; naive_solver eauto using must_fail_mono. Qed.

Lemma must_fail_bind {A B} E (m : prog A) (f : A → prog B) : must_fail E m → must_fail E (m ≫= f).
Proof. induction m; cbn in *; naive_solver. Qed.

Lemma strict_bind {A B} E (m : prog A) (f : A → prog B) :
  strict E m → (∀ a, strict E (f a)) → strict E (m ≫= f).
Proof.
  intros Hm Hf. induction m as [a|e| |st k c IH|st k v c IH|st k c IH|c IH|r c IH]; cbn in *;
    try (split; [intros n; apply must_fail_bind, Hm|intros r; apply IH, Hm]); auto.
Qed.

(** An error that is caught: the handler has to fail on the errors of
    failures. *)
Lemma must_fail_try {A B} E E' (m : prog A) (k : error + A → prog B) :
  (∀ e, E e → must_fail E' (k (inl e))) → must_fail E m → must_fail E' (try m ≫= k).
Proof. intros Hk. induction m; cbn in *; naive_solver. Qed.

Lemma strict_try_bind {A B} E E' (m : prog A) (k : error + A → prog B) :
  strict E m → (∀ e, E e → must_fail E' (k (inl e))) → (∀ r, strict E' (k r)) →
  strict E' (try m ≫= k).
Proof.
  intros Hm Hf Hk. induction m as [a|e| |st key c IH|st key v c IH|st key c IH|c IH|r c IH]; cbn in *;
    try (split; [intros n; by apply (must_fail_try E), Hm|intros r; apply IH, Hm]); auto.
Qed.

Lemma strict_Ret {A} E (a : A) : strict E (Ret a).
Proof. done. Qed.

Lemma strict_Throw {A} E e : strict E (@Throw A e).
Proof. done. Qed.

Lemma strict_lift {A} E (o : outcome A) : strict E (lift o).
Proof. by destruct o. Qed.

Lemma strict_Root E : strict E Root.
Proof. done. Qed.

Lemma strict_SetRoot E r : strict E (SetRoot r).
Proof. done. Qed.

Lemma strict_Get st k : strict own_error (store_Get st k).
Proof. split; [done|]. by intros [|]. Qed.

Lemma strict_Set st k v : strict own_error (store_Set st k v).
Proof. split; [done|]. by intros [|]. Qed.

Lemma strict_Delete st k : strict own_error (store_Delete st k).
Proof. split; [done|]. by intros [|]. Qed.

Lemma strict_for_each {A} E (l : list A) (body : A → prog unit) :
  (∀ x, strict E (body x)) → strict E (for_each l body).
Proof. intros Hb. induction l; [done|]. by apply strict_bind. Qed.
End strict.

Create HintDb strict.
#[export] Hint Resolve strict_Ret strict_Throw strict_lift strict_Root strict_SetRoot strict_Get
  strict_Set strict_Delete : strict.

Ltac strict_step :=
  match goal with
  | |- strict _ (try _ ≫= _) => fail 1
  | |- strict _ (_ ≫= _) => apply strict_bind; [|intros]
  | |- strict _ (for_each _ _) => apply strict_for_each; intros
  | |- strict _ (match ?x with _ => _ end) => destruct x
  | |- strict _ (let '_ := ?x in _) => destruct x
  | |- _ => solve [auto with strict]
  end.
Ltac solve_strict := repeat strict_step.

Section methods.
Context {HS : Hasher}.

Lemma strict_smt_Get key : strict own_error (Get key).
Proof.
  unfold Get. apply strict_bind; [done|]. intros root. case_match; [done|].
  apply (strict_try_bind own_error); [auto with strict| |].
  - by intros [].
  - intros [[]|]; solve_strict.
Qed.

Lemma strict_fillSideNodes_loop p n i d sd sns pns :
  strict own_error (fillSideNodes_loop p n i d sd sns pns).
Proof.
  revert i d sd sns pns. induction n as [|n IH]; intros i d sd sns pns;
    cbn [fillSideNodes_loop]; solve_strict; apply IH.
Qed.

Lemma strict_deleteWithSideNodes_loop p len sns i h d b :
  strict own_error (deleteWithSideNodes_loop p len sns i h d b).
Proof.
  revert i h d b. induction sns as [|sn sns IH]; intros i h d b;
    cbn [deleteWithSideNodes_loop]; solve_strict; apply IH.
Qed.

Lemma strict_updateWithSideNodes_loop p sns c n i d :
  strict own_error (updateWithSideNodes_loop p sns c n i d).
Proof.
  revert i d. induction n as [|n IH]; intros i d;
    cbn [updateWithSideNodes_loop]; solve_strict; apply IH.
Qed.

#[local] Hint Resolve strict_smt_Get strict_fillSideNodes_loop strict_deleteWithSideNodes_loop
  strict_updateWithSideNodes_loop : strict.

Lemma strict_Has key : strict own_error (Has key).
Proof. unfold Has. solve_strict. Qed.

Lemma strict_fillSideNodes p r b : strict own_error (fillSideNodes p r b).
Proof. unfold fillSideNodes. solve_strict. Qed.

#[local] Hint Resolve strict_fillSideNodes : strict.

Lemma strict_doProveForRoot key r b : strict own_error (doProveForRoot key r b).
Proof. unfold doProveForRoot. solve_strict. Qed.

Lemma strict_deleteWithSideNodes p sns pns d : strict own_error (deleteWithSideNodes p sns pns d).
Proof. unfold deleteWithSideNodes. solve_strict. Qed.

Lemma strict_updateWithSideNodes p v sns pns d :
  strict own_error (updateWithSideNodes p v sns pns d).
Proof. unfold updateWithSideNodes. solve_strict. Qed.

(** Errors that may come from a store or from what a failed call has left. *)
Lemma own_store_error e : own_error e → store_error e.
Proof. by destruct e. Qed.

Lemma strict_weaken {A} (m : prog A) : strict own_error m → strict store_error m.
Proof. apply strict_mono, own_store_error. Qed.

(** After a failed deletion the value is deleted all the same; the error of
    that deletion is returned if there is one. *)
Lemma strict_UpdateForRoot key value r : strict store_error (UpdateForRoot key value r).
Proof.
  unfold UpdateForRoot. apply strict_bind; [apply strict_weaken; auto with strict|].
  intros [[ps old] sib]. case_match; [|apply strict_weaken, strict_updateWithSideNodes].
  apply (strict_try_bind own_error); [apply strict_deleteWithSideNodes| |].
  - intros [] He; try done. split; [apply length_path|]. by intros [].
  - intros [[]|]; (apply strict_Ret || (apply strict_weaken; solve_strict)).
Qed.

Lemma strict_Update key value : strict store_error (Update key value).
Proof.
  unfold Update. apply strict_bind; [done|]. intros root.
  apply strict_bind; [apply strict_UpdateForRoot|done].
Qed.

Lemma strict_GetDescend_loop p n i h : strict own_error (GetDescend_loop p n i h).
Proof.
  revert i h. induction n as [|n IH]; intros i h; cbn [GetDescend_loop]; solve_strict; apply IH.
Qed.

#[local] Hint Resolve strict_GetDescend_loop : strict.

Lemma strict_GetDescend key : strict own_error (GetDescend key).
Proof. unfold GetDescend. solve_strict. Qed.

Lemma strict_AddBranch proof key value : strict own_error (AddBranch proof key value).
Proof. unfold AddBranch. solve_strict. Qed.

Lemma strict_buildSubtree fuel d kvs : strict own_error (buildSubtree Crash fuel d kvs).
Proof.
  revert d kvs. induction fuel as [|fuel IH]; intros d kvs; [done|].
  assert (∀ l, strict own_error (if length l =? 0 then Ret placeholder else buildSubtree Crash fuel (S d) l))
    as Hsub by (intros l; destruct (length l =? 0); [done|apply IH]).
  cbn [buildSubtree]. destruct kvs as [|[p v] [|kv kvs]]; [done|solve_strict|].
  apply strict_bind; [auto with strict|]. intros i.
  apply strict_bind; [apply Hsub|]. intros l. apply strict_bind; [apply Hsub|]. intros r. solve_strict.
Qed.

#[local] Hint Resolve strict_buildSubtree : strict.

Lemma strict_mergeLeafWithKVs fuel h ld d kvs : strict own_error (mergeLeafWithKVs Crash fuel h ld d kvs).
Proof. unfold mergeLeafWithKVs. solve_strict. Qed.

#[local] Hint Resolve strict_mergeLeafWithKVs : strict.

Lemma strict_bulkApplyAtRoot fuel h d kvs : strict own_error (bulkApplyAtRoot Crash fuel h d kvs).
Proof.
  revert h d kvs. induction fuel as [|fuel IH]; intros h d kvs; [done|].
  cbn [bulkApplyAtRoot]. solve_strict; apply IH.
Qed.

Lemma strict_BulkUpdate keys values : strict store_error (BulkUpdate keys values).
Proof.
  unfold BulkUpdate. destruct (negb _); [done|]. destruct (length keys =? 0); [done|].
  apply strict_bind.
  - apply strict_for_each. intros kv. case_match; [|done].
    apply strict_bind; [apply strict_Update|done].
  - intros _. cbv zeta. destruct (length _ =? 0); [done|].
    apply strict_weaken, strict_bind; [auto with strict|]. intros l.
    apply strict_bind; [done|]. intros root.
    apply strict_bind; [apply strict_bulkApplyAtRoot|]. done.
Qed.
End methods.

(** ** On failing stores *)

Section run_faulty.
Context {HS : Hasher} {N V : Type} `{SafeMapStore hsize N, SafeMapStore hsize V}.
Abbreviation faulty_tree := (SparseMerkleTree (FaultyStore N) (FaultyStore V)).
Implicit Types s : faulty_tree.

(** The tree on the stores without the failures. *)
Definition reliable s : SparseMerkleTree N V :=
  mkSMT (fs_store (nodes s)) (fs_store (values s)) (root s).

(** Some call fails. *)
Definition some_fault s : Prop :=
  ∃ n c, is_Some (fs_fault (nodes s) n c) ∨ is_Some (fs_fault (values s) n c).

Definition same_faults s s' : Prop :=
  fs_fault (nodes s') = fs_fault (nodes s) ∧ fs_fault (values s') = fs_fault (values s).

Lemma same_faults_some s s' : same_faults s s' → some_fault s' → some_fault s.
Proof. intros [E1 E2] (n & c & Hf). exists n, c. by rewrite <-E1, <-E2. Qed.

Definition fault_of (st : store_id) s (c : store_call) : option error :=
  match st with
  | NodeStore => fault (nodes s) c
  | ValueStore => fault (values s) c
  end.

Lemma fault_of_spec st s c e :
  fault_of st s c = Some e → some_fault s ∧ ∃ n, e = OtherError n.
Proof.
  unfold some_fault. intros Hf. destruct st; cbn in Hf; unfold fault in Hf;
    destruct (fs_fault _ _ _) as [x|] eqn:E; try done; injection Hf as <-;
    (split; [|by eexists]); eexists _, c; [left|right]; by eexists.
Qed.

Lemma do_fair (st : store_id) k v s :
  length k = hsize →
  fair (do_Get st k s) ∧ fair (do_Set st k v s).1 ∧ fair (do_Delete st k s).1.
Proof.
  intros Hk. destruct st; cbn -[ms_Get ms_Set ms_Delete].
  - pose proof (safe_Get k (nodes s) Hk). pose proof (safe_Set k v (nodes s) Hk) as Hf1.
    pose proof (safe_Delete k (nodes s) Hk) as Hf2.
    destruct (ms_Set k v (nodes s)), (ms_Delete k (nodes s)). done.
  - pose proof (safe_Get k (values s) Hk). pose proof (safe_Set k v (values s) Hk) as Hf1.
    pose proof (safe_Delete k (values s) Hk) as Hf2.
    destruct (ms_Set k v (values s)), (ms_Delete k (values s)). done.
Qed.

(** A write fails and changes nothing, or is that of the store below. *)
Lemma do_Set_faulty st k v s o s' :
  do_Set st k v s = (o, s') →
  same_faults s s' ∧ root s' = root s ∧
  match fault_of st s (CallSet k v) with
  | Some e => o = Err e ∧ reliable s' = reliable s
  | None => do_Set st k v (reliable s) = (o, reliable s')
  end.
Proof.
  destruct st; cbn; unfold Faulty_write; destruct (fault _ _) as [e|]; cbn; intros [= <- <-]; try done;
    by destruct (ms_Set _ _ _).
Qed.

Lemma do_Delete_faulty st k s o s' :
  do_Delete st k s = (o, s') →
  same_faults s s' ∧ root s' = root s ∧
  match fault_of st s (CallDelete k) with
  | Some e => o = Err e ∧ reliable s' = reliable s
  | None => do_Delete st k (reliable s) = (o, reliable s')
  end.
Proof.
  destruct st; cbn; unfold Faulty_write; destruct (fault _ _) as [e|]; cbn; intros [= <- <-]; try done;
    by destruct (ms_Delete _ _).
Qed.

Lemma do_Get_faulty st k s :
  do_Get st k s =
    match fault_of st s (CallGet k) with
    | Some e => Err e
    | None => do_Get st k (reliable s)
    end.
Proof. by destruct st. Qed.

Lemma same_faults_trans s1 s2 s3 : same_faults s1 s2 → same_faults s2 s3 → same_faults s1 s3.
Proof. intros [E1 E2] [E3 E4]. by split; etrans. Qed.

(** A program that has to fail does, and keeps the root. *)
Lemma run_must_fail {A} E (P : prog A) s :
  must_fail E P →
  ∃ e s', run P s = (Err e, s') ∧ E e ∧ root s' = root s ∧ same_faults s s'.
Proof.
  revert s. induction P as [a|e| |st k c IH|st k v c IH|st k c IH|c IH|r c IH]; intros s HP;
    rewrite ?run_GetOp, ?run_SetOp, ?run_DeleteOp, ?run_RootOp; cbn [must_fail] in HP; try done.
  - by eexists _, s.
  - destruct HP as [Hk Hc]. destruct (do_fair st k [] s Hk) as (Hf & _).
    destruct (do_Get st k s); [by apply IH, Hc..|done].
  - destruct HP as [Hk Hc]. destruct (do_fair st k v s Hk) as (_ & Hf & _).
    destruct (do_Set st k v s) as [o s1] eqn:E1. apply do_Set_faulty in E1 as (Hs & Hr & _).
    destruct o as [u|e|]; [| |done].
    + destruct (IH None s1) as (e2 & s2 & ? & ? & ? & ?); [by apply Hc|].
      exists e2, s2. split_and!; [done..|congruence|by eapply same_faults_trans].
    + destruct (IH (Some e) s1) as (e2 & s2 & ? & ? & ? & ?); [by apply Hc|].
      exists e2, s2. split_and!; [done..|congruence|by eapply same_faults_trans].
  - destruct HP as [Hk Hc]. destruct (do_fair st k [] s Hk) as (_ & _ & Hf).
    destruct (do_Delete st k s) as [o s1] eqn:E1. apply do_Delete_faulty in E1 as (Hs & Hr & _).
    destruct o as [u|e|]; [| |done].
    + destruct (IH None s1) as (e2 & s2 & ? & ? & ? & ?); [by apply Hc|].
      exists e2, s2. split_and!; [done..|congruence|by eapply same_faults_trans].
    + destruct (IH (Some e) s1) as (e2 & s2 & ? & ? & ? & ?); [by apply Hc|].
      exists e2, s2. split_and!; [done..|congruence|by eapply same_faults_trans].
  - by apply IH.
Qed.

(** What a strict program may do on failing stores. *)
Definition fails_or_same {A} (E : error → Prop) (P : prog A) s (r : outcome A * faulty_tree) : Prop :=
  same_faults s r.2 ∧
  (run P (reliable s) = (r.1, reliable r.2) ∨ ∃ e, r.1 = Err e ∧ E e ∧ some_fault s).

Lemma failed_step {A} E (P : prog A) (m : prog A) s s1 st c e :
  same_faults s s1 → fault_of st s c = Some e → (∀ n, e = OtherError n → must_fail E m) →
  fails_or_same E P s (run m s1).
Proof.
  intros Hs (Hf & n & ->)%fault_of_spec Hm.
  destruct (run_must_fail E m s1 (Hm n eq_refl)) as (e & s2 & -> & HE & _ & Hs2).
  split; cbn; [by eapply same_faults_trans|]. right. by exists e.
Qed.

Lemma fails_or_same_step {A} E (P Q : prog A) s s1 r :
  same_faults s s1 → run P (reliable s) = run Q (reliable s1) →
  fails_or_same E Q s1 r → fails_or_same E P s r.
Proof.
  intros Hs EP [Hs' Hr]. split; [by eapply same_faults_trans|]. rewrite EP.
  destruct Hr as [Hr|(e & ? & ? & Hf)]; [by left|right]. exists e. split_and!; try done.
  by eapply same_faults_some.
Qed.

Lemma run_faulty {A} E (P : prog A) s : strict E P → fails_or_same E P s (run P s).
Proof.
  revert s. induction P as [a|e| |st k c IH|st k v c IH|st k c IH|c IH|r c IH]; intros s HP;
    rewrite ?run_GetOp, ?run_SetOp, ?run_DeleteOp, ?run_RootOp, ?run_SetRootOp; cbn [strict] in HP;
    try (split; [done|by left]).
  - destruct HP as [Hf Hc]. rewrite do_Get_faulty. destruct (fault_of _ _ _) as [e|] eqn:Ef.
    + eapply failed_step; [done|exact Ef|]. by intros n ->.
    + destruct (do_Get st k (reliable s)) as [v|e|] eqn:E1.
      * eapply fails_or_same_step; [done| |by apply IH]. by rewrite run_GetOp, E1.
      * eapply fails_or_same_step; [done| |by apply IH]. by rewrite run_GetOp, E1.
      * split; [done|left]. by rewrite run_GetOp, E1.
  - destruct HP as [Hf Hc]. destruct (do_Set st k v s) as [o s1] eqn:E1.
    apply do_Set_faulty in E1 as (Hs & Hr & E1). destruct (fault_of _ _ _) as [e|] eqn:Ef.
    + destruct E1 as [-> _]. eapply failed_step; [done|exact Ef|]. by intros n ->.
    + destruct o as [u|e|].
      * eapply fails_or_same_step; [done| |by apply IH]. by rewrite run_SetOp, E1.
      * eapply fails_or_same_step; [done| |by apply IH]. by rewrite run_SetOp, E1.
      * split; [done|left]. by rewrite run_SetOp, E1.
  - destruct HP as [Hf Hc]. destruct (do_Delete st k s) as [o s1] eqn:E1.
    apply do_Delete_faulty in E1 as (Hs & Hr & E1). destruct (fault_of _ _ _) as [e|] eqn:Ef.
    + destruct E1 as [-> _]. eapply failed_step; [done|exact Ef|]. by intros n ->.
    + destruct o as [u|e|].
      * eapply fails_or_same_step; [done| |by apply IH]. by rewrite run_DeleteOp, E1.
      * eapply fails_or_same_step; [done| |by apply IH]. by rewrite run_DeleteOp, E1.
      * split; [done|left]. by rewrite run_DeleteOp, E1.
  - eapply fails_or_same_step; [done| |by apply IH]. by rewrite run_RootOp.
  - eapply fails_or_same_step; [| |by apply IH]; [done|]. by rewrite run_SetRootOp.
Qed.
End run_faulty.
