(* ===== verification/PoolLogic.v ===== *)
(** * A program logic for goroutines that share the pools.

    A goroutine owns the objects it has checked out.  [wp c L t Q] says that
    the program [c], on objects of its own with the contents [L] and on a tree
    [t] of its own, names no other objects, gives back path slices that are
    empty, writes digests only, and ends as [Q] says, whatever objects the
    pools hand out.  The steps of other goroutines do not matter to it:
    [cstep_inv] is the invariant of a run of any number of goroutines. *)

From S2P Require Import Prelude Utils MapStore TreeHasher Effects Proofs Smt Bulk Pool.

(** ** A pool and its owners *)

(** The objects each goroutine owns are disjoint parts of the memory, and not
    in the pool; those in the pool are there once; [fit] holds of all objects,
    [clean] of those in the pool. *)
Record pool_inv {T} (fit clean : T → Prop) (p : pool T) (Ls : list (gmap nat T)) : Prop := {
  inv_owned i L : Ls !! i = Some L → L ⊆ objs p;
  inv_disjoint i j L L' id : Ls !! i = Some L → Ls !! j = Some L' →
    is_Some (L !! id) → is_Some (L' !! id) → i = j;
  inv_idle id : id ∈ idle p → ∃ x, objs p !! id = Some x ∧ clean x;
  inv_free id i L : id ∈ idle p → Ls !! i = Some L → L !! id = None;
  inv_nodup : NoDup (idle p);
  inv_fit id x : objs p !! id = Some x → fit x;
}.

Section pool_inv.
Context {T : Type} (fit clean : T → Prop).
Implicit Types (p : pool T) (Ls : list (gmap nat T)) (L : gmap nat T).
Abbreviation inv := (pool_inv fit clean).

Lemma inv_lookup p Ls i L id x :
  inv p Ls → Ls !! i = Some L → L !! id = Some x → objs p !! id = Some x.
Proof. intros Hp Hi. by apply map_subseteq_spec, (inv_owned _ _ _ _ Hp i). Qed.

Lemma inv_other p Ls i L j L' id :
  inv p Ls → Ls !! i = Some L → is_Some (L !! id) → i ≠ j → Ls !! j = Some L' → L' !! id = None.
Proof.
  intros Hp Hi Hid Hne Hj. apply eq_None_not_Some. intros Hs.
  by apply Hne, (inv_disjoint _ _ _ _ Hp i j L L' id).
Qed.

(** The owner [i] has [L] now instead of [L0]; the objects that are new to it
    belong to nobody. *)
Lemma inv_change p p' Ls i L0 L :
  inv p Ls → Ls !! i = Some L0 →
  L ⊆ objs p' →
  (∀ j L', i ≠ j → Ls !! j = Some L' → L' ⊆ objs p') →
  (∀ id, is_Some (L !! id) → L0 !! id = None → ∀ j L', Ls !! j = Some L' → L' !! id = None) →
  (∀ id, id ∈ idle p' → L !! id = None ∧ (∃ x, objs p' !! id = Some x ∧ clean x) ∧
     ∀ j L', i ≠ j → Ls !! j = Some L' → L' !! id = None) →
  NoDup (idle p') → (∀ id x, objs p' !! id = Some x → fit x) →
  inv p' (<[i:=L]> Ls).
Proof.
  intros Hp Hi Hown Hothers Hnew Hidle Hd Hfit.
  assert (∀ id j L', is_Some (L !! id) → i ≠ j → Ls !! j = Some L' → L' !! id = None) as Hdis.
  { intros id j L' Hs Hne Hj. destruct (L0 !! id) eqn:E; [|by eapply Hnew].
    by apply (inv_other p Ls i L0 j L' id). }
  assert (∀ j L', <[i:=L]> Ls !! j = Some L' → (i = j ∧ L = L') ∨ (i ≠ j ∧ Ls !! j = Some L'))
    as Hlk by (intros j L'; rewrite list_lookup_insert_Some; intuition).
  split; [..|done|done].
  - intros j L' [[<- <-]|[Hne Hj]]%Hlk; eauto.
  - intros j k L1 L2 id [[<- <-]|[Hne Hj]]%Hlk [[<- <-]|[Hne' Hk]]%Hlk H1 H2; [done|..].
    + rewrite (Hdis id k L2) in H2 by done. by destruct H2.
    + rewrite (Hdis id j L1) in H1 by done. by destruct H1.
    + by eapply (inv_disjoint _ _ _ _ Hp j k L1 L2 id).
  - intros id Hin. apply Hidle, Hin.
  - intros id j L' Hin [[<- <-]|[Hne Hj]]%Hlk; [by apply Hidle|by eapply Hidle].
Qed.

Lemma inv_write p Ls i L id x :
  inv p Ls → Ls !! i = Some L → is_Some (L !! id) → fit x →
  inv (pool_write id x p) (<[i:=<[id:=x]> L]> Ls).
Proof.
  intros Hp Hi Hid Hx.
  assert (∀ id', id' ∈ idle p → id' ≠ id) as Hne.
  { intros id' Hin ->. rewrite (inv_free _ _ _ _ Hp id i L Hin Hi) in Hid. by destruct Hid. }
  eapply inv_change; [done..| | | | | |]; cbn [pool_write objs idle].
  - by apply insert_mono, (inv_owned _ _ _ _ Hp i).
  - intros j L' Hij Hj. apply insert_subseteq_r; [|by eapply inv_owned].
    by apply (inv_other p Ls i L j L' id).
  - intros id' Hs Hn. destruct (decide (id = id')) as [->|Hd].
    + rewrite Hn in Hid. by destruct Hid.
    + rewrite lookup_insert_ne, Hn in Hs by done. by destruct Hs.
  - intros id' Hin. pose proof (Hne _ Hin) as Hd. rewrite !lookup_insert_ne by done. split_and!.
    + by eapply inv_free.
    + by apply (inv_idle _ _ _ _ Hp).
    + intros j L' _ Hj. by eapply inv_free.
  - apply Hp.
  - intros id' y. rewrite lookup_insert_Some. intros [[_ <-]|[_ Hy]]; [done|by eapply inv_fit].
Qed.

Lemma inv_get p Ls i L new pick id p' :
  inv p Ls → Ls !! i = Some L → fit new → clean new → pool_get new pick p = (id, p') →
  ∃ x, fit x ∧ clean x ∧ L !! id = None ∧ inv p' (<[i:=<[id:=x]> L]> Ls).
Proof.
  intros Hp Hi Hf Hc. unfold pool_get. destruct (idle p !! pick) as [id'|] eqn:E; intros [= <- <-].
  - pose proof (delete_Permutation _ _ _ E) as HP.
    assert (id' ∈ idle p) as Hin by (rewrite HP; by left).
    destruct (inv_idle _ _ _ _ Hp _ Hin) as (x & Hx & Hcl). exists x.
    pose proof (inv_free _ _ _ _ Hp id' i L Hin Hi) as Hn.
    split_and!; [by eapply inv_fit|done|done|].
    pose proof (inv_nodup _ _ _ _ Hp) as Hd. rewrite HP in Hd. apply NoDup_cons in Hd as [Hni Hd].
    eapply inv_change; [done..| | | | | |]; cbn [objs idle].
    + apply insert_subseteq_l; [done|by eapply inv_owned].
    + intros j L' _ Hj. by eapply inv_owned.
    + intros id Hs Hl j L' Hj. destruct (decide (id' = id)) as [->|Hd']; [by eapply inv_free|].
      rewrite lookup_insert_ne, Hl in Hs by done. by destruct Hs.
    + intros id Hid. assert (id ∈ idle p) by (rewrite HP; by right).
      split_and!; [|by apply (inv_idle _ _ _ _ Hp)|intros j L' _ Hj; by eapply inv_free].
      rewrite lookup_insert_ne by (intros ->; done). by eapply inv_free.
    + done.
    + apply Hp.
  - set (id := fresh (dom (objs p))).
    assert (objs p !! id = None) as Hn by (apply not_elem_of_dom, is_fresh).
    assert (∀ j L', Ls !! j = Some L' → L' !! id = None) as Hno.
    { intros j L' Hj. eapply lookup_weaken_None; [exact Hn|by eapply inv_owned]. }
    exists new. split_and!; [done..|by eapply Hno|].
    assert (∀ id', id' ∈ idle p → id' ≠ id) as Hne.
    { intros id' Hin ->. apply (inv_idle _ _ _ _ Hp) in Hin as (x & Hx & _). congruence. }
    eapply inv_change; [done..| | | | | |]; cbn [objs idle].
    + by apply insert_mono, (inv_owned _ _ _ _ Hp i).
    + intros j L' _ Hj. apply insert_subseteq_r; [by eapply Hno|by eapply inv_owned].
    + intros id' Hs Hl j L' Hj. destruct (decide (id = id')) as [<-|Hd']; [by eapply Hno|].
      rewrite lookup_insert_ne, Hl in Hs by done. by destruct Hs.
    + intros id' Hin. pose proof (Hne _ Hin). rewrite !lookup_insert_ne by done.
      split_and!; [by eapply inv_free|by apply (inv_idle _ _ _ _ Hp)|].
      intros j L' _ Hj. by eapply inv_free.
    + apply Hp.
    + intros id' y. rewrite lookup_insert_Some. intros [[_ <-]|[_ Hy]]; [done|by eapply inv_fit].
Qed.

Lemma inv_put p Ls i L id x :
  inv p Ls → Ls !! i = Some L → L !! id = Some x → clean x →
  inv (pool_put id p) (<[i:=delete id L]> Ls).
Proof.
  intros Hp Hi Hid Hc. eapply inv_change; [done..| | | | | |]; cbn [pool_put objs idle].
  - etrans; [apply delete_subseteq|by eapply inv_owned].
  - intros j L' _ Hj. by eapply inv_owned.
  - intros id' Hs Hn. exfalso. destruct Hs as [y Hy]. apply lookup_delete_Some in Hy as [_ Hy]. congruence.
  - intros id' [->|Hin]%elem_of_cons.
    + rewrite lookup_delete_eq. split_and!; [done| |].
      * exists x. split; [by eapply inv_lookup|done].
      * intros j L' Hne Hj. by apply (inv_other p Ls i L j L' id).
    + split_and!; [|by apply (inv_idle _ _ _ _ Hp)|intros j L' _ Hj; by eapply inv_free].
      apply lookup_delete_None. right. by eapply inv_free.
  - constructor; [|apply Hp]. intros Hin. pose proof (inv_free _ _ _ _ Hp id i L Hin Hi). congruence.
  - apply Hp.
Qed.

(** Nobody owns anything. *)
Lemma inv_empty Ls : Forall (.= ∅) Ls → inv empty_pool Ls.
Proof.
  rewrite Forall_lookup. intros HL. split; cbn [empty_pool objs idle].
  - by intros i L ->%HL.
  - intros i j L L' id ->%HL _ Hs. rewrite lookup_empty in Hs. by destruct Hs.
  - by intros id ?%elem_of_nil.
  - by intros id i L ?%elem_of_nil.
  - constructor.
  - intros id x. by rewrite lookup_empty.
Qed.

Lemma inv_resize p Ls Ls' :
  inv p Ls → Forall (.= ∅) Ls → Forall (.= ∅) Ls' → inv p Ls'.
Proof.
  rewrite !Forall_lookup. intros Hp HL HL'. split; try apply Hp.
  - intros i L ->%HL'. apply map_empty_subseteq.
  - intros i j L L' id ->%HL' _ Hs. rewrite lookup_empty in Hs. by destruct Hs.
  - intros id i L _ ->%HL'. by rewrite lookup_empty.
Qed.
End pool_inv.

(** ** The logic *)

(** The objects a goroutine has checked out. *)
Record owned : Type := mkOwned {
  scratch_of : gmap nat updateScratch;
  slices_of : gmap nat pathSlices;
}.

Definition nothing : owned := mkOwned ∅ ∅.

(** Every buffer has its capacity, and is zero beyond the digest size. *)
Definition buf_ok {HS : Hasher} (sc : updateScratch) : Prop :=
  ∀ b, length (buf_get b sc) = hashBufCap ∧
    drop hsize (buf_get b sc) = replicate (hashBufCap - hsize) x00.

Lemma buf_get_set b d sc : buf_get b (buf_set b d sc) = d.
Proof. by destruct b. Qed.

Lemma buf_get_set_ne b b' d sc : b' ≠ b → buf_get b' (buf_set b d sc) = buf_get b' sc.
Proof. by destruct b, b'. Qed.

Section logic.
Context {HS : Hasher}.

Lemma buf_ok_new : buf_ok new_updateScratch.
Proof.
  intros b. destruct b; cbn [buf_get new_updateScratch pathBuf valueHashBuf hashBufA hashBufB];
    by rewrite length_replicate, drop_replicate.
Qed.

Lemma buf_ok_write b sum sc :
  buf_ok sc → length sum = hsize → hsize ≤ hashBufCap → buf_ok (buf_write b sum sc).
Proof.
  intros Hsc Hlen Hle b'. unfold buf_write.
  destruct (decide (b' = b)) as [->|]; [|by rewrite buf_get_set_ne].
  rewrite buf_get_set, Hlen, length_app, length_drop, (proj1 (Hsc b)), Hlen.
  split; [lia|]. rewrite drop_app_length'; [apply Hsc|done].
Qed.

Context {N V : Type} `{MapStore N, MapStore V}.
Implicit Types (t : pooledTree N V) (w : pools) (L : owned).

Fixpoint wp {A} (c : bprog A) L t (Q : outcome A → owned → pooledTree N V → Prop) : Prop :=
  match c with
  | BRet a => Q (Ok a) L t
  | BThrow e => Q (Err e) L t
  | BCrash => Q Panic L t
  | BGetOp st k c =>
      match do_Get st k (p_stores t) with
      | Ok v => wp (c (inr v)) L t Q
      | Err e => wp (c (inl e)) L t Q
      | Panic => Q Panic L t
      end
  | BSetOp st k v c =>
      match do_Set st k v (p_stores t) with
      | (Ok _, s) => wp (c None) L (p_with s t) Q
      | (Err e, s) => wp (c (Some e)) L (p_with s t) Q
      | (Panic, s) => Q Panic L (p_with s t)
      end
  | BDeleteOp st k c =>
      match do_Delete st k (p_stores t) with
      | (Ok _, s) => wp (c None) L (p_with s t) Q
      | (Err e, s) => wp (c (Some e)) L (p_with s t) Q
      | (Panic, s) => Q Panic L (p_with s t)
      end
  | BRootOp c => wp (c (p_root t)) L t Q
  | BSetRootOp r c => wp c L (mkPooled (p_nodes t) (p_values t) r) Q
  | BLoadOp r c => ∃ d, deref (scratch_of L) r = Some d ∧ wp (c d) L t Q
  | BStoreOp id b sum c =>
      length sum = hsize ∧ hsize ≤ hashBufCap ∧
      ∃ sc, scratch_of L !! id = Some sc ∧
        wp c (mkOwned (<[id := buf_write b sum sc]> (scratch_of L)) (slices_of L)) t Q
  | BReadSlicesOp sid c => ∃ ps, slices_of L !! sid = Some ps ∧ wp (c ps) L t Q
  | BWriteSlicesOp sid ps c =>
      is_Some (slices_of L !! sid) ∧
      wp c (mkOwned (scratch_of L) (<[sid := ps]> (slices_of L))) t Q
  | BGetScratchOp c => ∀ id sc, scratch_of L !! id = None → buf_ok sc →
      wp (c id) (mkOwned (<[id := sc]> (scratch_of L)) (slices_of L)) t Q
  | BPutScratchOp id c =>
      is_Some (scratch_of L !! id) ∧
      wp c (mkOwned (delete id (scratch_of L)) (slices_of L)) t Q
  | BGetSlicesOp c => ∀ sid, slices_of L !! sid = None →
      wp (c sid) (mkOwned (scratch_of L) (<[sid := new_pathSlices]> (slices_of L))) t Q
  | BPutSlicesOp sid c =>
      slices_of L !! sid = Some new_pathSlices ∧
      wp c (mkOwned (scratch_of L) (delete sid (slices_of L))) t Q
  end.

Lemma wp_mono {A} (c : bprog A) L t (Q Q' : outcome A → owned → pooledTree N V → Prop) :
  wp c L t Q → (∀ o L' t', Q o L' t' → Q' o L' t') → wp c L t Q'.
Proof.
  intros Hc HQ. revert L t Hc. induction c; intros L t; cbn [wp]; try solve [eauto].
  - destruct (do_Get _ _ _); eauto.
  - destruct (do_Set _ _ _ _) as [[]]; eauto.
  - destruct (do_Delete _ _ _) as [[]]; eauto.
  - naive_solver.
  - naive_solver.
  - naive_solver.
  - naive_solver.
  - naive_solver.
  - naive_solver.
Qed.

Lemma wp_cont {A B} (c : bprog A) (k : error + A → bprog B) L t Q :
  wp c L t (λ o L' t',
    match o with
    | Ok a => wp (k (inr a)) L' t' Q
    | Err e => wp (k (inl e)) L' t' Q
    | Panic => Q Panic L' t'
    end) →
  wp (bcont c k) L t Q.
Proof.
  revert L t. induction c; intros L t; cbn [wp bcont]; try solve [eauto].
  - destruct (do_Get _ _ _); eauto.
  - destruct (do_Set _ _ _ _) as [[]]; eauto.
  - destruct (do_Delete _ _ _) as [[]]; eauto.
  - naive_solver.
  - naive_solver.
  - naive_solver.
  - naive_solver.
  - naive_solver.
  - naive_solver.
Qed.

Lemma wp_bind {A B} (c : bprog A) (k : A → bprog B) L t Q :
  wp c L t (λ o L' t',
    match o with
    | Ok a => wp (k a) L' t' Q
    | Err e => Q (Err e) L' t'
    | Panic => Q Panic L' t'
    end) →
  wp (c ≫= k) L t Q.
Proof. intros Hc. apply wp_cont. eapply wp_mono; [exact Hc|]. by intros []. Qed.

Lemma wp_btry {A} (c : bprog A) L t (Q : outcome (error + A) → owned → pooledTree N V → Prop) :
  wp c L t (λ o, match o with Ok a => Q (Ok (inr a)) | Err e => Q (Ok (inl e)) | Panic => Q Panic end) →
  wp (btry c) L t Q.
Proof. intros Hc. apply wp_cont. eapply wp_mono; [exact Hc|]. by intros []. Qed.

(** ** The invariant of a run *)

Abbreviation slices_inv := (pool_inv (λ _ : pathSlices, True) (.= new_pathSlices)).
Abbreviation scratch_inv := (pool_inv buf_ok (λ _ : updateScratch, True)).

Record world_inv w (Ls : list owned) : Prop := {
  world_scratch : scratch_inv (updateScratchPool w) (scratch_of <$> Ls);
  world_slices : slices_inv (pathSlicesPool w) (slices_of <$> Ls);
}.

Lemma owned_insert_scratch (Ls : list owned) i L m :
  Ls !! i = Some L →
  scratch_of <$> <[i := mkOwned m (slices_of L)]> Ls = <[i:=m]> (scratch_of <$> Ls) ∧
  slices_of <$> <[i := mkOwned m (slices_of L)]> Ls = slices_of <$> Ls.
Proof.
  intros Hi. rewrite !list_fmap_insert. split; [done|]. apply list_insert_id.
  by rewrite list_lookup_fmap, Hi.
Qed.

Lemma owned_insert_slices (Ls : list owned) i L m :
  Ls !! i = Some L →
  scratch_of <$> <[i := mkOwned (scratch_of L) m]> Ls = scratch_of <$> Ls ∧
  slices_of <$> <[i := mkOwned (scratch_of L) m]> Ls = <[i:=m]> (slices_of <$> Ls).
Proof.
  intros Hi. rewrite !list_fmap_insert. split; [|done]. apply list_insert_id.
  by rewrite list_lookup_fmap, Hi.
Qed.

Lemma world_set_scratch w Ls i L m p :
  world_inv w Ls → Ls !! i = Some L →
  scratch_inv p (<[i:=m]> (scratch_of <$> Ls)) →
  world_inv (mkPools p (pathSlicesPool w)) (<[i := mkOwned m (slices_of L)]> Ls).
Proof.
  intros [H1 H2] Hi Hp. destruct (owned_insert_scratch Ls i L m Hi) as [E1 E2].
  split; cbn [updateScratchPool pathSlicesPool]; by rewrite ?E1, ?E2.
Qed.

Lemma world_set_slices w Ls i L m p :
  world_inv w Ls → Ls !! i = Some L →
  slices_inv p (<[i:=m]> (slices_of <$> Ls)) →
  world_inv (mkPools (updateScratchPool w) p) (<[i := mkOwned (scratch_of L) m]> Ls).
Proof.
  intros [H1 H2] Hi Hp. destruct (owned_insert_slices Ls i L m Hi) as [E1 E2].
  split; cbn [updateScratchPool pathSlicesPool]; by rewrite ?E1, ?E2.
Qed.

Lemma owned_deref w Ls i L r d :
  world_inv w Ls → Ls !! i = Some L → deref (scratch_of L) r = Some d →
  deref (objs (updateScratchPool w)) r = Some d.
Proof.
  intros Hw Hi. destruct r as [id b|d']; [|done]. cbn.
  destruct (scratch_of L !! id) as [sc|] eqn:E; [|done]. cbn. intros [= <-].
  erewrite inv_lookup; [done|apply Hw| |exact E]. by rewrite list_lookup_fmap, Hi.
Qed.

(** A step of the owner of [L]: it can be made when the program has not ended,
    and what it owns afterwards does for the rest. *)
Lemma thread_step_inv {A} pick (c : bprog A) t w Ls i L Q :
  world_inv w Ls → Ls !! i = Some L → wp c L t Q →
  (∃ o, ended c = Some o ∧ Q o L t) ∨
  ∃ c' t' w' L', thread_step pick c t w = Some (c', t', w') ∧
    world_inv w' (<[i:=L']> Ls) ∧ wp c' L' t' Q.
Proof.
  intros Hw Hi Hc. assert (<[i:=L]> Ls = Ls) as Hid by by apply list_insert_id.
  assert ((scratch_of <$> Ls) !! i = Some (scratch_of L)) as Hi1 by by rewrite list_lookup_fmap, Hi.
  assert ((slices_of <$> Ls) !! i = Some (slices_of L)) as Hi2 by by rewrite list_lookup_fmap, Hi.
  destruct c as [a|e| |st k c|st k v c|st k c|c|r c|r c|id b sum c|sid c|sid ps c|c|id c|c|sid c];
    cbn [wp thread_step ended] in *; try (left; by eexists); right.
  - eexists _, _, _, L. rewrite Hid. split_and!; [done|done|]. by destruct (do_Get _ _ _).
  - destruct (do_Set _ _ _ _) as [o s]. eexists _, _, _, L. rewrite Hid.
    split_and!; [done|done|]. by destruct o.
  - destruct (do_Delete _ _ _) as [o s]. eexists _, _, _, L. rewrite Hid.
    split_and!; [done|done|]. by destruct o.
  - eexists _, _, _, L. by rewrite Hid.
  - eexists _, _, _, L. by rewrite Hid.
  - destruct Hc as (d & Hd & Hc). eexists _, _, _, L.
    by rewrite (owned_deref _ _ _ _ _ _ Hw Hi Hd), Hid.
  - destruct Hc as (Hlen & Hle & sc & Hsc & Hc).
    pose proof (inv_lookup _ _ _ _ _ _ _ _ (world_scratch _ _ Hw) Hi1 Hsc) as Ho.
    rewrite Ho. eexists _, _, _, _. split_and!; [done| |exact Hc].
    eapply world_set_scratch; [done..|]. eapply inv_write; [apply Hw|done|by eexists|].
    apply buf_ok_write; [|done..]. by eapply inv_fit; [apply Hw|].
  - destruct Hc as (ps & Hps & Hc). eexists _, _, _, L.
    rewrite (inv_lookup _ _ _ _ _ _ _ _ (world_slices _ _ Hw) Hi2 Hps), Hid. done.
  - destruct Hc as [[ps0 Hps] Hc].
    rewrite (inv_lookup _ _ _ _ _ _ _ _ (world_slices _ _ Hw) Hi2 Hps).
    eexists _, _, _, _. split_and!; [done| |exact Hc].
    eapply world_set_slices; [done..|]. eapply inv_write; [apply Hw|done|by eexists|done].
  - destruct (pool_get _ _ _) as [id p] eqn:E.
    destruct (inv_get _ _ _ _ _ _ _ _ _ _ (world_scratch _ _ Hw) Hi1 buf_ok_new I E)
      as (sc & Hf & _ & Hn & Hp).
    eexists _, _, _, _. split_and!; [done| |by apply (Hc id sc)]. by eapply world_set_scratch.
  - destruct Hc as [[sc Hsc] Hc]. eexists _, _, _, _. split_and!; [done| |exact Hc].
    eapply world_set_scratch; [done..|]. by eapply inv_put; [apply Hw| | |].
  - destruct (pool_get _ _ _) as [id p] eqn:E.
    destruct (inv_get _ _ _ _ _ _ _ _ _ _ (world_slices _ _ Hw) Hi2 I eq_refl E)
      as (ps & _ & -> & Hn & Hp).
    eexists _, _, _, _. split_and!; [done| |by apply (Hc id)]. by eapply world_set_slices.
  - destruct Hc as [Hps Hc]. eexists _, _, _, _. split_and!; [done| |exact Hc].
    eapply world_set_slices; [done..|]. by eapply inv_put; [apply Hw| | |].
Qed.

Lemma Forall3_insert_mr {A B C} (P : A → B → C → Prop) l k k' i x y z :
  Forall3 P l k k' → l !! i = Some x → P x y z → Forall3 P l (<[i:=y]> k) (<[i:=z]> k').
Proof.
  intros HF. revert i. induction HF; intros [|i]; cbn; intros Hx Hp; [done..|simplify_eq|].
  - by constructor.
  - constructor; auto.
Qed.

(** What a goroutine owns is enough for the rest of its program, which ends
    with everything given back unless it panics. *)
Definition thread_ok {A} (Q : outcome A → pooledTree N V → Prop) (th : thread N V A) L : Prop :=
  wp th.1 L th.2 (λ o L' t', (o = Panic ∨ L' = nothing) ∧ Q o t').

Definition config_inv {A} (Qs : list (outcome A → pooledTree N V → Prop)) (cfg : config N V A) : Prop :=
  ∃ Ls, world_inv cfg.2 Ls ∧ Forall3 thread_ok Qs cfg.1 Ls.

Lemma config_inv_step {A} Qs (cfg : config N V A) i pick c t :
  config_inv Qs cfg → cfg.1 !! i = Some (c, t) →
  (∃ o Q, ended c = Some o ∧ Qs !! i = Some Q ∧ Q o t) ∨
  ∃ cfg', config_step i pick cfg = Some cfg' ∧ config_inv Qs cfg'.
Proof.
  intros (Ls & Hw & HF) Hi. destruct cfg as [ths w]; cbn [fst snd] in *.
  destruct (Forall3_lookup_m _ _ _ _ _ _ HF Hi) as (Q & L & HQ & HL & Hok).
  destruct (thread_step_inv pick c t w Ls i L _ Hw HL Hok)
    as [(o & Ho & _ & HQo)|(c' & t' & w' & L' & E & Hw' & Hok')]; [left; by eauto|right].
  eexists. unfold config_step. rewrite Hi. cbn [mbind option_bind]. rewrite E. split; [done|].
  exists (<[i:=L']> Ls). split; [done|]. cbn [fst].
  by apply (Forall3_insert_mr _ _ _ _ _ Q).
Qed.

Lemma config_inv_steps {A} Qs (cfg cfg' : config N V A) :
  config_inv Qs cfg → rtc cstep cfg cfg' → config_inv Qs cfg'.
Proof.
  intros Hc Hs. revert Hc. induction Hs as [|cfg cfg1 cfg2 (i & pick & Hstep) _ IH]; [done|].
  intros Hc. apply IH. destruct cfg as [ths w]. pose proof Hstep as Hstep'.
  unfold config_step in Hstep. destruct (ths !! i) as [[c t]|] eqn:Hi; [|done].
  destruct (config_inv_step Qs (ths, w) i pick c t Hc Hi) as [(o & Q & Ho & _)|(cfg' & E & Hc')].
  - by destruct c.
  - congruence.
Qed.

Lemma run_schedule_steps {A} sched (cfg : config N V A) : rtc cstep cfg (run_schedule sched cfg).
Proof.
  revert cfg. induction sched as [|[i pick] sched IH]; intros cfg; [done|]. cbn [run_schedule].
  destruct (config_step i pick cfg) as [cfg'|] eqn:E; [|apply IH].
  eapply rtc_l; [by exists i, pick|apply IH].
Qed.

(** A goroutine can go on exactly when it has not ended, whatever the others
    do; ended, it has ended as it should. *)
Lemma config_inv_progress {A} Qs (cfg : config N V A) i pick :
  config_inv Qs cfg →
  is_Some (config_step i pick cfg) ↔ ∃ th, cfg.1 !! i = Some th ∧ ended th.1 = None.
Proof.
  intros Hc. split.
  - intros [cfg' E]. destruct cfg as [ths w]. unfold config_step in E. cbn [fst].
    destruct (ths !! i) as [[c t]|]; [|done]. exists (c, t). split; [done|]. by destruct c.
  - intros ([c t] & Hi & Hn).
    destruct (config_inv_step Qs cfg i pick c t Hc Hi) as [(o & Q & Ho & _)|(cfg' & E & _)].
    + cbn [fst] in Hn. congruence.
    + by eexists.
Qed.

Lemma config_inv_ended {A} Qs (cfg : config N V A) :
  config_inv Qs cfg →
  Forall2 (λ Q th, match ended th.1 with Some o => Q o th.2 | None => True end) Qs cfg.1.
Proof.
  intros (Ls & _ & HF). induction HF as [|Q [c t] L Qs ths Ls Hok _ IH]; constructor; [|done].
  unfold thread_ok in Hok. by destruct c; cbn in *; try done; apply Hok.
Qed.

Lemma config_inv_ended_lookup {A} Qs (cfg : config N V A) i th o :
  config_inv Qs cfg → cfg.1 !! i = Some th → ended th.1 = Some o →
  ∃ Q, Qs !! i = Some Q ∧ Q o th.2.
Proof.
  intros HF%config_inv_ended Hi Ho. destruct (Forall2_lookup_r _ _ _ _ _ HF Hi) as (Q & HQ & Hok).
  rewrite Ho in Hok. by exists Q.
Qed.

(** A step changes its own goroutine only. *)
Lemma config_step_other {A} i pick (cfg cfg' : config N V A) j :
  config_step i pick cfg = Some cfg' → i ≠ j → cfg'.1 !! j = cfg.1 !! j.
Proof.
  destruct cfg as [ths w]. unfold config_step. intros E Hne.
  destruct (ths !! i) as [[c t]|]; [|done]. cbn [mbind option_bind] in E.
  destruct (thread_step _ _ _ _) as [[[c' t'] w']|]; [|done]. injection E as <-.
  cbn [fst]. by apply list_lookup_insert_ne.
Qed.

(** ** Termination *)

(** The programs one operation can leave. *)
Definition bsub {A} (c' c : bprog A) : Prop :=
  ∃ pick t w t' w', thread_step pick c t w = Some (c', t', w').

Lemma bsub_acc {A} (c : bprog A) : Acc bsub c.
Proof.
  assert (Acc bsub (@BCrash A)) as Hcrash.
  { constructor. intros c' (pick & t & w & t' & w' & E). discriminate. }
  induction c; constructor; intros c' (pick & t & w & t' & w' & E); cbn [thread_step] in E;
    try discriminate.
  - destruct (do_Get _ _ _); injection E as <- <- <-; done.
  - destruct (do_Set _ _ _ _) as [[]]; injection E as <- <- <-; done.
  - destruct (do_Delete _ _ _) as [[]]; injection E as <- <- <-; done.
  - by injection E as <- <- <-.
  - by injection E as <- <- <-.
  - destruct (deref _ _); [|done]. injection E as <- <- <-; done.
  - destruct (objs _ !! _); [|done]. injection E as <- <- <-; done.
  - destruct (objs _ !! _); [|done]. injection E as <- <- <-; done.
  - destruct (objs _ !! _); [|done]. injection E as <- <- <-; done.
  - destruct (pool_get _ _ _). injection E as <- <- <-; done.
  - by injection E as <- <- <-.
  - destruct (pool_get _ _ _). injection E as <- <- <-; done.
  - by injection E as <- <- <-.
Qed.

(** One of the programs goes on. *)
Definition bsubs {A} (cs' cs : list (bprog A)) : Prop :=
  ∃ i c c', cs !! i = Some c ∧ bsub c' c ∧ cs' = <[i:=c']> cs.

Lemma bsubs_acc {A} (cs : list (bprog A)) : Acc bsubs cs.
Proof.
  induction cs as [|c cs IH]; [by constructor; intros cs' (i & ? & ? & ? & _)|].
  revert c. induction IH as [cs _ IH]. intros c. induction (bsub_acc c) as [c Hc IHc].
  constructor. intros cs' ([|i] & d & d' & Hd & Hsub & ->); cbn in *.
  - injection Hd as ->. by apply IHc.
  - apply IH. by exists i, d, d'.
Qed.

(** Every run ends. *)
Lemma cstep_sn {A} (cfg : config N V A) : sn cstep cfg.
Proof.
  destruct cfg as [ths w]. remember (ths.*1) as cs eqn:E. revert ths w E.
  induction (bsubs_acc cs) as [cs _ IH]. intros ths w ->. constructor.
  intros [ths' w'] (i & pick & Hstep). unfold flip, config_step in Hstep.
  destruct (ths !! i) as [[c t]|] eqn:Hi; [|done]. cbn [mbind option_bind] in Hstep.
  destruct (thread_step _ _ _ _) as [[[c' t'] w1]|] eqn:Ht; [|done]. injection Hstep as <- <-.
  eapply IH; [|done]. exists i, c, c'. rewrite list_fmap_insert.
  split_and!; [|by exists pick, t, w, t', w1|done].
  apply list_lookup_fmap_Some. by exists (c, t).
Qed.
End logic.
