(* ===== verification/PoolSpec.v ===== *)
(** * The pooled update path does what the plain one does.

    [sim W c P L s Q] relates a program over pooled buffers to a program of
    [Smt]: on the same stores they end in the same error or panic with the same
    stores, or in results that [Q] relates; only buffers in [W] are written,
    and no object is checked out or given back. *)

From S2P Require Import Prelude Utils MapStore TreeHasher Effects Proofs Smt Bulk Pool PoolLogic.

Section sim.
Context {HS : Hasher} {N V : Type} `{MapStore N, MapStore V}.
Implicit Types (s : SparseMerkleTree N V) (L : owned).

(** The tree over the pools: its root is no slice of a buffer. *)
Definition pooled_of s : pooledTree N V := mkPooled (nodes s) (values s) (Own (root s)).

Abbreviation bytes_of L := (deref (scratch_of L)).

(** Slices outside [W] have the bytes they had. *)
Record frame (W : ref → Prop) L L' : Prop := {
  frame_deref r : ¬ W r → bytes_of L' r = bytes_of L r;
  frame_scratch : dom (scratch_of L') = dom (scratch_of L);
  frame_slices : dom (slices_of L') = dom (slices_of L);
}.

Definition sim_post {A B} (W : ref → Prop) (r : outcome A * SparseMerkleTree N V) L
    (Q : owned → B → A → Prop) (o : outcome B) L' (t' : pooledTree N V) : Prop :=
  t' = pooled_of r.2 ∧
  match r.1 with
  | Ok a => ∃ b, o = Ok b ∧ frame W L L' ∧ Q L' b a
  | Err e => o = Err e ∧ frame W L L'
  | Panic => o = Panic
  end.

Definition sim {A B} (W : ref → Prop) (c : bprog B) (P : prog A) L s (Q : owned → B → A → Prop) : Prop :=
  wp c L (pooled_of s) (sim_post W (run P s) L Q).

Lemma frame_refl W L : frame W L L.
Proof. done. Qed.

Lemma frame_trans W L1 L2 L3 : frame W L1 L2 → frame W L2 L3 → frame W L1 L3.
Proof.
  intros [H1 D1 S1] [H2 D2 S2]. split; [|congruence..]. intros r Hr. by rewrite (H2 _ Hr), (H1 _ Hr).
Qed.

Lemma frame_weaken (W W' : ref → Prop) L L' : (∀ r, W r → W' r) → frame W L L' → frame W' L L'.
Proof. intros HW [Hf ? ?]. split; [|done..]. intros r Hr. apply Hf. auto. Qed.

Lemma sim_post_trans {A B} W L1 L2 r Q o L' t' :
  frame W L1 L2 → @sim_post A B W r L2 Q o L' t' → sim_post W r L1 Q o L' t'.
Proof.
  intros Hf [-> Hr]. split; [done|]. destruct r.1; naive_solver eauto using frame_trans.
Qed.

Lemma sim_mono {A B} W (c : bprog B) (P : prog A) L s Q Q' :
  sim W c P L s Q → (∀ L' b a, Q L' b a → Q' L' b a) → sim W c P L s Q'.
Proof.
  intros Hc HQ. eapply wp_mono; [exact Hc|]. intros o L' t' [-> Hr]. split; [done|].
  destruct (run P s).1; naive_solver.
Qed.

Lemma sim_bret {A B} W (b : B) (a : A) L s (Q : owned → B → A → Prop) :
  Q L b a → sim W (bret b) (Ret a) L s Q.
Proof. intros HQ. split; [done|]. by exists b. Qed.

Lemma sim_throw {A B} W e L s (Q : owned → B → A → Prop) : sim W (throw e) (Throw e) L s Q.
Proof. done. Qed.

Lemma sim_bind {A B A' B'} W (c : bprog B) (P : prog A) (k : B → bprog B') (k' : A → prog A')
    L s Q (R : owned → B' → A' → Prop) :
  sim W c P L s Q →
  (∀ L' s' b a, frame W L L' → Q L' b a → sim W (k b) (k' a) L' s' R) →
  sim W (c ≫= k) (P ≫= k') L s R.
Proof.
  intros Hc Hk. apply wp_bind. eapply wp_mono; [exact Hc|]. intros o L' t' [-> Hr].
  rewrite run_bind. destruct (run P s) as [[a|e|] s1]; cbn [fst snd] in *.
  - destruct Hr as (b & -> & Hf & HQ). eapply wp_mono; [by apply Hk|].
    intros o' L2 t2. by apply sim_post_trans.
  - destruct Hr as [-> Hf]. done.
  - by rewrite Hr.
Qed.

(** The last call of a program. *)
Lemma sim_bind_last {A B B'} W (c : bprog B) (P : prog A) (k : B → bprog B') L s Q
    (R : owned → B' → A → Prop) :
  sim W c P L s Q →
  (∀ L' s' b a, frame W L L' → Q L' b a → sim W (k b) (Ret a) L' s' R) →
  sim W (c ≫= k) P L s R.
Proof.
  intros Hc Hk. pose proof (sim_bind W c P k Ret L s Q R Hc Hk) as Hs.
  unfold sim in *. rewrite run_bind in Hs. by destruct (run P s) as [[]].
Qed.

(** A program of [Smt] runs as it is. *)
Lemma wp_call {A} (P : prog A) L s Q :
  (let '(o, s') := run P s in Q o L (pooled_of s')) → wp (call P) L (pooled_of s) Q.
Proof.
  revert s. induction P as [| | |st k c IH|st k v c IH|st k c IH|c IH|r c IH]; intros s HQ;
    cbn [call wp]; try exact HQ.
  - replace (do_Get st k (p_stores (pooled_of s))) with (do_Get st k s) by by destruct s, st.
    rewrite run_GetOp in HQ. destruct (do_Get st k s); auto.
  - assert (do_Set st k v (p_stores (pooled_of s)) =
      ((do_Set st k v s).1, p_stores (pooled_of (do_Set st k v s).2)) ∧
      root (do_Set st k v s).2 = root s) as [-> Hr].
    { destruct s, st; cbn; by destruct (ms_Set _ _ _). }
    rewrite run_SetOp in HQ. destruct (do_Set st k v s) as [o s1]; cbn [fst snd] in *.
    replace (p_with (p_stores (pooled_of s1)) (pooled_of s)) with (pooled_of s1)
      by (unfold pooled_of; cbn; by rewrite Hr).
    destruct o; auto.
  - assert (do_Delete st k (p_stores (pooled_of s)) =
      ((do_Delete st k s).1, p_stores (pooled_of (do_Delete st k s).2)) ∧
      root (do_Delete st k s).2 = root s) as [-> Hr].
    { destruct s, st; cbn; by destruct (ms_Delete _ _). }
    rewrite run_DeleteOp in HQ. destruct (do_Delete st k s) as [o s1]; cbn [fst snd] in *.
    replace (p_with (p_stores (pooled_of s1)) (pooled_of s)) with (pooled_of s1)
      by (unfold pooled_of; cbn; by rewrite Hr).
    destruct o; auto.
  - exists (root s). split; [done|]. apply IH, HQ.
  - change (mkPooled (p_nodes (pooled_of s)) (p_values (pooled_of s)) (Own r))
      with (pooled_of (mkSMT (nodes s) (values s) r)). apply IH, HQ.
Qed.

Lemma sim_call_id {A} W (P : prog A) L s : sim W (call P) P L s (λ L' b a, L' = L ∧ b = a).
Proof.
  apply wp_call. destruct (run P s) as [[a|e|] s1]; split; cbn; try done. by exists a.
Qed.

Lemma sim_call {A A' B'} W (P : prog A) (k : A → bprog B') (k' : A → prog A') L s
    (R : owned → B' → A' → Prop) :
  (∀ s' a, sim W (k a) (k' a) L s' R) → sim W (call P ≫= k) (P ≫= k') L s R.
Proof.
  intros Hk. eapply sim_bind; [apply sim_call_id|]. intros L' s' b a _ [-> ->]. apply Hk.
Qed.

(** A computation without store effects leaves the tree as it is. *)
Lemma sim_lift {A A' B'} W (o : outcome A) (k : A → bprog B') (k' : A → prog A') L s
    (R : owned → B' → A' → Prop) :
  (∀ a, o = Ok a → sim W (k a) (k' a) L s R) →
  sim W (call (lift o) ≫= k) (lift o ≫= k') L s R.
Proof. destruct o as [a| |]; [|done..]. intros Hk. exact (Hk a eq_refl). Qed.

Lemma sim_btry {A B} W (c : bprog B) (P : prog A) L s Q :
  sim W c P L s Q →
  sim W (btry c) (try P) L s (λ L' r r',
    match r, r' with
    | inl e, inl e' => e = e'
    | inr b, inr a => Q L' b a
    | _, _ => False
    end).
Proof.
  intros Hc. apply wp_btry. eapply wp_mono; [exact Hc|]. intros o L' t' [-> Hr].
  rewrite run_try. destruct (run P s) as [[a|e|] s1]; cbn [fst snd] in *.
  - destruct Hr as (b & -> & Hf & HQ). split; [done|]. by exists (inr b).
  - destruct Hr as [-> Hf]. split; [done|]. by exists (inl e).
  - by subst o.
Qed.

Lemma sim_bSetRoot {A B} W d (k : unit → bprog B) (k' : unit → prog A) L s R :
  sim W (k tt) (k' tt) L (mkSMT (nodes s) (values s) d) R →
  sim W (bSetRoot (Own d) ≫= k) (SetRoot d ≫= k') L s R.
Proof. unfold sim. rewrite run_bind, run_SetRoot. intros Hk. exact Hk. Qed.

(** The root is read as a slice. *)
Lemma sim_bRoot {A B} W (k : ref → bprog B) (k' : bytes → prog A) L s R :
  sim W (k (Own (root s))) (k' (root s)) L s R → sim W (bRoot ≫= k) (Root ≫= k') L s R.
Proof. unfold sim. by rewrite run_bind, run_Root. Qed.

Lemma sim_load {A B} W r d (k : bytes → bprog B) (P : prog A) L s R :
  bytes_of L r = Some d → sim W (k d) P L s R → sim W (load r ≫= k) P L s R.
Proof. intros Hd Hk. by exists d. Qed.

Lemma sim_read_slices {A B} W sid ps (k : pathSlices → bprog B) (P : prog A) L s R :
  slices_of L !! sid = Some ps → sim W (k ps) P L s R → sim W (read_slices sid ≫= k) P L s R.
Proof. intros Hps Hk. by exists ps. Qed.

(** [L] with the path slices [ps] at [sid]. *)
Definition with_slices sid ps L : owned := mkOwned (scratch_of L) (<[sid := ps]> (slices_of L)).

Lemma with_slices_slices sid ps L : slices_of (with_slices sid ps L) !! sid = Some ps.
Proof. apply lookup_insert_eq. Qed.

Lemma with_slices_twice sid ps ps' L :
  with_slices sid ps (with_slices sid ps' L) = with_slices sid ps L.
Proof. unfold with_slices. cbn. by rewrite insert_insert_eq. Qed.

Lemma with_slices_frame W sid ps L : is_Some (slices_of L !! sid) → frame W L (with_slices sid ps L).
Proof.
  intros Hs. split; [done..|]. cbn. apply dom_insert_lookup_L, Hs.
Qed.

Lemma sim_write_slices {A B} W sid ps (k : unit → bprog B) (P : prog A) L s R :
  is_Some (slices_of L !! sid) →
  sim W (k tt) P (with_slices sid ps L) s R → sim W (write_slices sid ps ≫= k) P L s R.
Proof.
  intros Hs Hk. split; [done|]. eapply wp_mono; [exact Hk|]. intros o L' t'.
  by apply sim_post_trans, with_slices_frame.
Qed.

Lemma sim_append_pathNode {A B} W sid d (k : unit → bprog B) (P : prog A) L sns pns s R :
  sim W (k tt) P (with_slices sid (mkPathSlices sns (pns ++ [d])) L) s R →
  sim W (append_pathNode sid d ≫= k) P (with_slices sid (mkPathSlices sns pns) L) s R.
Proof.
  intros Hk. exists (mkPathSlices sns pns). split; [apply with_slices_slices|].
  apply (sim_write_slices W sid _ k P); [by rewrite with_slices_slices|]. by rewrite with_slices_twice.
Qed.

Lemma sim_append_sideNode {A B} W sid d (k : unit → bprog B) (P : prog A) L sns pns s R :
  sim W (k tt) P (with_slices sid (mkPathSlices (sns ++ [d]) pns) L) s R →
  sim W (append_sideNode sid d ≫= k) P (with_slices sid (mkPathSlices sns pns) L) s R.
Proof.
  intros Hk. exists (mkPathSlices sns pns). split; [apply with_slices_slices|].
  apply (sim_write_slices W sid _ k P); [by rewrite with_slices_slices|]. by rewrite with_slices_twice.
Qed.

Lemma sim_weaken {A B} (W W' : ref → Prop) (c : bprog B) (P : prog A) L s Q :
  (∀ r, W r → W' r) → sim W c P L s Q → sim W' c P L s Q.
Proof.
  intros HW Hc. eapply wp_mono; [exact Hc|]. intros o L' t' [-> Hr]. split; [done|].
  destruct (run P s).1; naive_solver eauto using frame_weaken.
Qed.

(** ** Digests *)

(** The step from [L] to [L'] wrote [sum], now the slice [r], and overwrote
    nothing but the buffer [b] of the object [id]. *)
Record wrote (id : nat) (b : bufName) (sum : bytes) L L' (r : ref) : Prop := {
  wrote_slices : slices_of L' = slices_of L;
  wrote_deref : bytes_of L' r = Some sum;
  wrote_frame : frame (.= In id b) L L';
  wrote_ref : r = In id b ∨ r = Own sum;
}.

Lemma wrote_buf id b sum L sc :
  length sum = hsize → scratch_of L !! id = Some sc →
  wrote id b sum L (mkOwned (<[id := buf_write b sum sc]> (scratch_of L)) (slices_of L)) (In id b).
Proof.
  intros Hlen Hsc. split; [done|..|by left].
  - cbn. rewrite lookup_insert_eq. cbn. unfold buf_write.
    by rewrite buf_get_set, <-Hlen, take_app_length.
  - split; [|cbn; apply dom_insert_lookup_L; by eexists|done].
    intros [id' b'|d] Hr; [|done]. cbn. destruct (decide (id = id')) as [<-|].
    + rewrite lookup_insert_eq, Hsc. cbn. unfold buf_write. by rewrite buf_get_set_ne by congruence.
    + by rewrite lookup_insert_ne.
Qed.

Lemma sim_sum_into {A B} (W : ref → Prop) id b sum (k : ref → bprog B) (P : prog A) L s R :
  W (In id b) → length sum = hsize → id ∈ dom (scratch_of L) →
  (∀ L' r, wrote id b sum L L' r → sim W (k r) P L' s R) →
  sim W (sum_into id b sum ≫= k) P L s R.
Proof.
  intros HW Hlen [sc Hsc]%elem_of_dom Hk. unfold sum_into.
  destruct (Nat.leb_spec hsize hashBufCap) as [Hle|_].
  - split_and!; [done..|]. exists sc. split; [done|]. pose proof (wrote_buf id b sum L sc Hlen Hsc) as Hw.
    eapply wp_mono; [exact (Hk _ _ Hw)|]. intros o L' t'. apply sim_post_trans.
    eapply frame_weaken; [|apply Hw]. by intros r ->.
  - apply (Hk L (Own sum)). split; [done|done|apply frame_refl|by right].
Qed.

Lemma sim_digestInto {A B} (W : ref → Prop) id b data (k : ref → bprog B) (P : prog A) L s R :
  W (In id b) → id ∈ dom (scratch_of L) →
  (∀ L' r, wrote id b (digestInto data) L L' r → sim W (k r) P L' s R) →
  sim W (digestInto_buf id b data ≫= k) P L s R.
Proof. intros HW Hid Hk. apply sim_sum_into; [done|apply hsum_length|done|exact Hk]. Qed.

(** [digestLeafInto] and [digestNodeInto] return the new slice and the encoded
    value. *)
Lemma sim_digestLeafInto {A B} (W : ref → Prop) id b p vh pb vb (k : ref * bytes → bprog B) (P : prog A)
    L s R :
  W (In id b) → id ∈ dom (scratch_of L) → bytes_of L p = Some pb → bytes_of L vh = Some vb →
  (∀ L' r, wrote id b (digestLeafInto pb vb).1 L L' r →
     sim W (k (r, (digestLeafInto pb vb).2)) P L' s R) →
  sim W (digestLeafInto_buf id b p vh ≫= k) P L s R.
Proof.
  intros HW Hid Hp Hv Hk. exists pb. split; [done|]. exists vb. split; [done|].
  pose proof (sim_sum_into W id b (digestLeafInto pb vb).1
    (λ h, k (h, (digestLeafInto pb vb).2)) P L s R HW (hsum_length _) Hid Hk) as Hs.
  unfold sum_into in *. by destruct (hsize <=? hashBufCap).
Qed.

Lemma sim_digestNodeInto {A B} (W : ref → Prop) id b l r lb rb (k : ref * bytes → bprog B) (P : prog A)
    L s R :
  W (In id b) → id ∈ dom (scratch_of L) → bytes_of L l = Some lb → bytes_of L r = Some rb →
  (∀ L' h, wrote id b (digestNodeInto lb rb).1 L L' h →
     sim W (k (h, (digestNodeInto lb rb).2)) P L' s R) →
  sim W (digestNodeInto_buf id b l r ≫= k) P L s R.
Proof.
  intros HW Hid Hl Hr Hk. exists lb. split; [done|]. exists rb. split; [done|].
  pose proof (sim_sum_into W id b (digestNodeInto lb rb).1
    (λ h, k (h, (digestNodeInto lb rb).2)) P L s R HW (hsum_length _) Hid Hk) as Hs.
  unfold sum_into in *. by destruct (hsize <=? hashBufCap).
Qed.
End sim.
Arguments pooled_of {N V} s.

(** One step of both programs. *)
Ltac sim_step :=
  lazymatch goal with
  | |- sim _ (call (lift _) ≫= _) _ _ _ _ => apply sim_lift; intros ? ?
  | |- sim _ (call _ ≫= _) _ _ _ _ => apply sim_call; intros
  | |- sim _ (load _ ≫= _) _ _ _ _ => eapply sim_load; [eassumption || reflexivity|]
  | |- sim _ (bRoot ≫= _) _ _ _ _ => apply sim_bRoot
  | |- sim _ (append_pathNode _ _ ≫= _) _ _ _ _ => apply sim_append_pathNode
  | |- sim _ (append_sideNode _ _ ≫= _) _ _ _ _ => apply sim_append_sideNode
  | |- sim _ (bret _) (Ret _) _ _ _ => apply sim_bret
  | |- sim _ (throw _) (Throw _) _ _ _ => apply sim_throw
  | |- sim _ (match ?x with _ => _ end) _ _ _ _ => destruct x
  end.
Ltac sim_steps := repeat (sim_step; cbn [sideNodes pathNodes]).

Section programs.
Context {HS : Hasher} {N V : Type} `{MapStore N, MapStore V}.
Implicit Types (s : SparseMerkleTree N V) (L : owned).
Abbreviation bytes_of L := (deref (scratch_of L)).

Lemma sim_fillSideNodes_loop W sid p pb n : ∀ i cd sn L sns pns s,
  bytes_of L p = Some pb →
  sim W (fillSideNodes_buf_loop sid p n i cd sn)
    (fillSideNodes_loop pb n i cd sn sns pns) (with_slices sid (mkPathSlices sns pns) L) s
    (λ L' r r', L' = with_slices sid (mkPathSlices r'.1.1.1 r'.1.1.2) L ∧ r.1 = r'.1.2 ∧ r.2 = r'.2).
Proof.
  induction n as [|n IH]; intros i cd sn L sns pns s Hp;
    cbn [fillSideNodes_buf_loop fillSideNodes_loop]; [by apply sim_bret|].
  sim_steps; by auto.
Qed.

Lemma sim_fillSideNodes W sid p pb root rb b L s :
  bytes_of L p = Some pb → bytes_of L root = Some rb →
  sim W (fillSideNodes_buf sid p root b) (fillSideNodes pb rb b)
    (with_slices sid new_pathSlices L) s
    (λ L' r r', L' = with_slices sid r'.1.1 L ∧ r = (r'.1.2, r'.2)).
Proof.
  intros Hp Hroot. unfold fillSideNodes_buf, fillSideNodes. sim_steps; try done.
  eapply sim_bind; [by apply sim_fillSideNodes_loop|].
  intros L' s1' [sn cd] [[[sns pns] sn'] cd'] _ (-> & [= ->] & [= ->]). cbn [fst snd].
  eapply (sim_bind _ _ _ _ _ _ _ (λ L' b a, L' = with_slices sid (mkPathSlices sns pns) L ∧ b = a)).
  { sim_steps; done. }
  intros L' s2' d d' _ [-> ->]. eapply sim_read_slices; [apply with_slices_slices|]. cbn [sideNodes pathNodes].
  sim_steps. apply sim_write_slices; [by rewrite with_slices_slices|].
  rewrite with_slices_twice. by apply sim_bret.
Qed.

(** The buffers a walk upwards writes, and all of an object. *)
Definition work_bufs (id : nat) (r : ref) : Prop := ∃ b, r = In id b ∧ b ≠ PathBuf.
Definition all_bufs (id : nat) (r : ref) : Prop := ∃ b, r = In id b.

Lemma work_hashBufs id turn : work_bufs id (In id (hashBufs turn)).
Proof. eexists. split; [done|]. by destruct turn. Qed.

Lemma work_valueHashBuf id : work_bufs id (In id ValueHashBuf).
Proof. by eexists. Qed.

#[local] Hint Resolve work_hashBufs work_valueHashBuf : core.

(** Optional slices with the same bytes. *)
Definition same_bytes L (r : option ref) (d : option bytes) : Prop :=
  match r, d with
  | Some r, Some d => bytes_of L r = Some d
  | None, None => True
  | _, _ => False
  end.

(** A node of [l] and [r], on the side the path says, is stored: the next level
    starts from its hash. *)
Lemma sim_setNode {A B} id turn (bit : Z) l r lb rb (k : ref → bprog B) (k' : bytes → prog A) L s R :
  id ∈ dom (scratch_of L) → bytes_of L l = Some lb → bytes_of L r = Some rb →
  (∀ L' s' h d, frame (work_bufs id) L L' → bytes_of L' h = Some d →
     sim (work_bufs id) (k h) (k' d) L' s' R) →
  sim (work_bufs id)
    ('(currentHash, data) ←
       (if (bit =? right)%Z then digestNodeInto_buf id (hashBufs turn) l r
        else digestNodeInto_buf id (hashBufs turn) r l);
     key ← load currentHash;
     call (nodes_Set key data) ;; k currentHash)
    (let '(currentHash, currentData) :=
       if (bit =? right)%Z then digestNodeInto lb rb
       else digestNodeInto rb lb in
     nodes_Set currentHash currentData ;; k' currentHash) L s R.
Proof.
  intros Hid Hl Hr Hk. destruct (bit =? right)%Z; eapply sim_digestNodeInto; try done; intros L' h Hw;
    (eapply sim_load; [apply Hw|]);
    (apply sim_call); intros s' []; apply Hk; try apply Hw;
    (eapply frame_weaken; [|apply Hw]); by intros p ->.
Qed.

Lemma sim_deleteWithSideNodes_loop id p pb len sns : ∀ i ch cd ch' cd' b turn L s,
  id ∈ dom (scratch_of L) → ¬ work_bufs id p → bytes_of L p = Some pb →
  same_bytes L ch ch' → same_bytes L cd cd' →
  sim (work_bufs id) (deleteWithSideNodes_buf_loop id p len sns i ch cd b turn)
    (deleteWithSideNodes_loop pb len sns i ch' cd' b) L s same_bytes.
Proof.
  induction sns as [|sn sns IH]; intros i ch cd ch' cd' b turn L s Hid Hp Hpb Hch Hcd;
    cbn [deleteWithSideNodes_buf_loop deleteWithSideNodes_loop]; [by apply sim_bret|].
  eapply (sim_bind _ _ _ _ _ _ _ (λ L' st st', L' = L ∧
    match st, st' with
    | Some (r, b), Some (d, b') => bytes_of L r = Some d ∧ b = b'
    | None, None => True
    | _, _ => False
    end)).
  { destruct cd as [d|], cd' as [d'|]; try done; [by apply sim_bret|]. sim_steps; done. }
  intros L' s1 st st' _ [-> Hst].
  destruct st as [[d b1]|], st' as [[d' b1']|]; [destruct Hst as [Hd <-]|done..|by apply IH].
  destruct (negb b1 && bytes_Equal sn placeholder); [by apply IH|].
  eapply sim_load; [done|]. apply sim_lift. intros bit _.
  apply (sim_setNode _ _ _ (Own sn) d); [done..|]. intros L' s' h hb Hf Hh.
  apply IH; [by rewrite (frame_scratch _ _ _ Hf)|done|by rewrite (frame_deref _ _ _ Hf)|done..].
Qed.

Lemma sim_deleteWithSideNodes id p pb sns pns old L s :
  id ∈ dom (scratch_of L) → ¬ work_bufs id p → bytes_of L p = Some pb →
  sim (work_bufs id) (deleteWithSideNodes_buf id p sns pns old)
    (deleteWithSideNodes pb sns pns old) L s (λ L' r d, bytes_of L' r = Some d).
Proof.
  intros Hid Hp Hpb. unfold deleteWithSideNodes_buf, deleteWithSideNodes.
  sim_steps; try done. eapply sim_bind; [by apply sim_deleteWithSideNodes_loop|].
  intros L' s1 [r|] [d|] _ Hr; try done; by apply sim_bret.
Qed.

Lemma sim_updateWithSideNodes_loop id p pb sns c n : ∀ i cd cd' turn L s,
  id ∈ dom (scratch_of L) → ¬ work_bufs id p → bytes_of L p = Some pb → bytes_of L cd = Some cd' →
  sim (work_bufs id) (updateWithSideNodes_buf_loop id p sns c n i cd turn)
    (updateWithSideNodes_loop pb sns c n i cd') L s (λ L' r d, bytes_of L' r = Some d).
Proof.
  induction n as [|n IH]; intros i cd cd' turn L s Hid Hp Hpb Hcd;
    cbn [updateWithSideNodes_buf_loop updateWithSideNodes_loop]; [by apply sim_bret|].
  eapply (sim_bind _ _ _ _ _ _ _ (λ L' b a, L' = L ∧ b = a)).
  { destruct (_ <? 0)%Z; [destruct (_ && _); by apply sim_bret|]. sim_steps; done. }
  intros L' s1 sn sn' _ [-> ->]. destruct sn' as [sn|]; [|by apply IH].
  eapply sim_load; [done|]. apply sim_lift. intros bit _.
  apply (sim_setNode _ _ _ (Own sn) cd); [done..|]. intros L' s' h hb Hf Hh.
  apply IH; [by rewrite (frame_scratch _ _ _ Hf)|done|by rewrite (frame_deref _ _ _ Hf)|done].
Qed.

(** The leaf of the new value: it is stored, and the digest of the value stays
    in its own buffer. *)
Lemma sim_setLeaf {A B} id p pb value lh ld (k : ref → ref → bprog B) (P : prog A) L s R :
  id ∈ dom (scratch_of L) → ¬ work_bufs id p → bytes_of L p = Some pb →
  digestLeafInto pb (digestInto value) = (lh, ld) →
  (∀ L' s' vh h, frame (work_bufs id) L L' →
     bytes_of L' vh = Some (digestInto value) → bytes_of L' h = Some lh →
     sim (work_bufs id) (k vh h) P L' s' R) →
  sim (work_bufs id)
    (valueHash ← digestInto_buf id ValueHashBuf value;
     '(currentHash, data) ← digestLeafInto_buf id (hashBufs false) p valueHash;
     key ← load currentHash;
     call (nodes_Set key data) ;; k valueHash currentHash)
    (nodes_Set lh ld ;; P) L s R.
Proof.
  intros Hid Hp Hpb E Hk. apply sim_digestInto; [done..|]. intros L1 vh Hvh.
  pose proof (wrote_frame _ _ _ _ _ _ Hvh) as Hf1.
  assert (bytes_of L1 p = Some pb) as Hp1.
  { rewrite (frame_deref _ _ _ Hf1); [done|]. intros ->. by apply Hp. }
  eapply sim_digestLeafInto; [done|by rewrite (frame_scratch _ _ _ Hf1)|done|apply Hvh|].
  intros L2 h Hh. rewrite E in Hh |- *. pose proof (wrote_frame _ _ _ _ _ _ Hh) as Hf2.
  eapply sim_load; [apply Hh|]. apply sim_call. intros s' []. apply Hk; [|..|apply Hh].
  - eapply frame_trans; (eapply frame_weaken; [|done]); by intros r ->.
  - rewrite (frame_deref _ _ _ Hf2); [apply Hvh|].
    by destruct (wrote_ref _ _ _ _ _ _ Hvh) as [->| ->].
Qed.

Lemma sim_updateWithSideNodes id p pb value sns pns old L s :
  id ∈ dom (scratch_of L) → ¬ work_bufs id p → bytes_of L p = Some pb →
  sim (work_bufs id) (updateWithSideNodes_buf id p value sns pns old)
    (updateWithSideNodes pb value sns pns old) L s (λ L' r d, bytes_of L' r = Some d).
Proof.
  intros Hid Hp Hpb. unfold updateWithSideNodes_buf, updateWithSideNodes.
  destruct (digestLeafInto pb (digestInto value)) as [lh ld] eqn:E.
  apply (sim_setLeaf _ _ _ _ _ _ _ _ _ _ _ Hid Hp Hpb E). intros L2 s2 vh ch Hf2 Hvh Hch.
  rewrite <-(frame_scratch _ _ _ Hf2) in Hid. rewrite <-(frame_deref _ _ _ Hf2 p Hp) in Hpb.
  sim_steps. eapply (sim_bind _ _ _ _ _ _ _ (λ L' b a, L' = L2 ∧ b = a)).
  { sim_steps; done. }
  intros L' s3 [c ov] ov' _ [-> <-].
  eapply (sim_bind _ _ _ _ _ _ _ (λ L' b a,
    match b, a with
    | inl r, inl d => bytes_of L' r = Some d
    | inr (cd, _), inr d => bytes_of L' cd = Some d
    | _, _ => False
    end)).
  { destruct (bool_decide _).
    - eapply sim_load; [done|]. apply sim_lift. intros bit _.
      apply (sim_setNode _ true _ (Own a) ch _ _ (λ h, bret (inr (h, false))) (λ h, Ret (inr h)));
        [done..|]. intros L' s' h' d' _ Hd'. by apply sim_bret.
    - destruct ov as [ov|]; [|by apply sim_bret]. eapply sim_load; [exact Hvh|].
      destruct (bytes_Equal ov (digestInto value)); sim_steps; done. }
  intros L' s4 [r|[cd turn]] [d'|cd'] Hf4 Hd; try done; [by apply sim_bret|].
  rewrite <-(frame_scratch _ _ _ Hf4) in Hid. rewrite <-(frame_deref _ _ _ Hf4 p Hp) in Hpb.
  apply sim_call. intros s5 [].
  eapply sim_bind; [by apply sim_updateWithSideNodes_loop|].
  intros L5 s6 r r' Hf5 Hr5. rewrite <-(frame_deref _ _ _ Hf5 p Hp) in Hpb.
  sim_steps; done.
Qed.

(** What the caller keeps is no slice of a buffer. *)
Lemma sim_UpdateForRoot sid id key value root L s :
  id ∈ dom (scratch_of L) →
  sim (all_bufs id) (UpdateForRoot_buf sid id key value (Own root))
    (UpdateForRoot key value root) (with_slices sid new_pathSlices L) s (λ _ r d, r = Own d).
Proof.
  intros Hid. assert (∀ r, work_bufs id r → all_bufs id r) as HW by (intros r (b & -> & _); by exists b).
  unfold UpdateForRoot_buf, UpdateForRoot.
  apply sim_digestInto; [by exists PathBuf|done|]. intros L1 p Hw. apply (sim_weaken _ _ _ _ _ _ _ HW).
  assert (¬ work_bufs id p) as Hp.
  { destruct (wrote_ref _ _ _ _ _ _ Hw) as [->| ->]; by intros (b & [= <-] & ?). }
  pose proof (wrote_deref _ _ _ _ _ _ Hw) as Hpb.
  rewrite <-(frame_scratch _ _ _ (wrote_frame _ _ _ _ _ _ Hw) : _ = dom (scratch_of L)) in Hid.
  assert (L1 = with_slices sid new_pathSlices L1) as HL1.
  { destruct L1 as [h1 sl1]. pose proof (wrote_slices _ _ _ _ _ _ Hw) as Hs. cbn in Hs. subst sl1.
    unfold with_slices. cbn. by rewrite insert_insert_eq. }
  rewrite HL1. clear Hw. cbv zeta. change (pathInto key) with (digestInto key).
  eapply sim_bind; [by eapply (sim_fillSideNodes _ sid p _ (Own root))|].
  intros L2 s2 [old sib] [[ps old'] sib'] _ [-> [= -> ->]].
  eapply sim_read_slices; [apply with_slices_slices|]. cbn [fst snd].
  destruct (bytes_Equal value defaultValue).
  - eapply sim_bind; [by apply sim_btry, sim_deleteWithSideNodes|].
    intros L3 s3 r r' Hf Hr. rewrite <-(frame_deref _ _ _ Hf p Hp : _ = bytes_of L1 p) in Hpb.
    destruct r as [e|r], r' as [e'|d]; try done; subst; [destruct e'|]; sim_steps; done.
  - eapply sim_bind_last; [by apply sim_updateWithSideNodes|].
    intros L3 s3 r d _ Hr. eapply sim_load; [exact Hr|]. by apply sim_bret.
Qed.

Lemma sim_doProveForRoot W sid key root b L s :
  sim W (doProveForRoot_buf sid key (Own root) b) (doProveForRoot key root b)
    (with_slices sid new_pathSlices L) s (λ _ r r', r = r').
Proof.
  unfold doProveForRoot_buf, doProveForRoot.
  eapply sim_bind; [by eapply (sim_fillSideNodes _ sid (Own (path key)) _ (Own root))|].
  intros L2 s2 [ld sib] [[ps ld'] sib'] _ [-> [= -> ->]].
  eapply sim_read_slices; [apply with_slices_slices|].
  cbn [fst snd]. apply sim_lift. intros pn _.
  eapply (sim_bind _ _ _ _ _ _ _ (λ _ b a, b = a)); [sim_steps; done|].
  intros L3 s3 d d' _ ->. by apply sim_bret.
Qed.

(** ** The walk of a bulk update

    Its results are no slices of a buffer. *)

Abbreviation is_own := (λ (_ : owned) (r : ref) (d : bytes), r = Own d).

Lemma sim_buildSubtree id fuel : ∀ d kvs L s,
  id ∈ dom (scratch_of L) →
  sim (work_bufs id) (buildSubtree_buf id fuel d kvs) (buildSubtree Crash fuel d kvs) L s is_own.
Proof.
  induction fuel as [|fuel IH]; intros d kvs L s Hid; cbn [buildSubtree_buf buildSubtree]; [done|].
  assert (∀ l L s, id ∈ dom (scratch_of L) → sim (work_bufs id)
    (if length l =? 0 then bret (Own placeholder) else buildSubtree_buf id fuel (S d) l)
    (if length l =? 0 then Ret placeholder else buildSubtree Crash fuel (S d) l) L s is_own) as Hside.
  { intros l L' s' Hid'. destruct (length l =? 0); [by apply sim_bret|by apply IH]. }
  destruct kvs as [|[p v] [|kv kvs]]; [by apply sim_bret| |].
  - apply sim_digestInto; [done..|]. intros L1 vh Hvh. eapply sim_load; [apply Hvh|].
    destruct (digestLeaf p (digestInto v)). sim_steps. done.
  - apply sim_lift. intros k _. cbv zeta.
    eapply sim_bind; [by apply Hside|]. intros L1 s1 r l Hf1 ->.
    eapply sim_bind; [apply Hside; by rewrite (frame_scratch _ _ _ Hf1)|].
    intros L2 s2 r l' Hf2 ->. sim_step. sim_step. destruct (digestNode l l'). sim_steps. done.
Qed.

Lemma sim_mergeLeafWithKVs id fuel h data d kvs L s :
  id ∈ dom (scratch_of L) →
  sim (work_bufs id) (mergeLeafWithKVs_buf id fuel (Own h) data d kvs)
    (mergeLeafWithKVs Crash fuel h data d kvs) L s is_own.
Proof.
  intros Hid. unfold mergeLeafWithKVs_buf, mergeLeafWithKVs. apply sim_lift. intros [p v] _. cbv zeta.
  eapply (sim_bind _ _ _ _ _ _ _ (λ _ b a, b = a)).
  { destruct (_ && _); [|by apply sim_bret]. apply sim_lift. intros kv _.
    apply sim_digestInto; [done..|]. intros L1 vh Hvh. eapply sim_load; [apply Hvh|]. by apply sim_bret. }
  intros L1 s1 b b' Hf1 ->. destruct b'; [by apply sim_bret|]. sim_step. sim_step.
  eapply (sim_bind _ _ _ _ _ _ _ (λ L' b a, L' = L1 ∧ b = a)).
  { destruct (negb _); sim_steps; done. }
  intros L2 s2 m m' _ [-> ->]. apply sim_buildSubtree. by rewrite (frame_scratch _ _ _ Hf1).
Qed.

Lemma sim_bulkApplyAtRoot id fuel : ∀ h d kvs L s,
  id ∈ dom (scratch_of L) →
  sim (work_bufs id) (bulkApplyAtRoot_buf id fuel (Own h) d kvs)
    (bulkApplyAtRoot Crash fuel h d kvs) L s is_own.
Proof.
  induction fuel as [|fuel IH]; intros h d kvs L s Hid; cbn [bulkApplyAtRoot_buf bulkApplyAtRoot]; [done|].
  destruct (length kvs =? 0); [by apply sim_bret|]. sim_step.
  destruct (bytes_Equal h placeholder); [by apply sim_buildSubtree|].
  apply sim_call. intros s0 data. apply sim_lift. intros [] _; [by apply sim_mergeLeafWithKVs|]. apply sim_lift. intros [l r] _.
  apply sim_lift. intros k _. cbv zeta.
  eapply sim_bind; [by apply IH|]. intros L1 s1 nl l' Hf1 ->.
  eapply sim_bind; [apply IH; by rewrite (frame_scratch _ _ _ Hf1)|]. intros L2 s2 nr r' Hf2 ->.
  sim_step. sim_step. destruct (_ && _); [by apply sim_bret|]. sim_step. sim_step.
  destruct (digestNode l' r'). sim_steps. done.
Qed.
End programs.
