(* ===== verification/PoolCalls.v ===== *)
(** * Methods over the pools.

    Every method, with the objects it checks out and gives back, does what the
    method of [Smt] does, owns nothing when it has returned, and returns
    nothing that a later call could overwrite. *)

From S2P Require Import Prelude Utils MapStore TreeHasher Effects Proofs Smt Bulk Calls Pool PoolLogic.
From S2P Require Import PoolSpec.

Section calls.
Context {HS : Hasher} {N V : Type} `{MapStore N, MapStore V}.
Implicit Types (s : SparseMerkleTree N V) (L : owned) (t : pooledTree N V).

(** From nothing to nothing. *)
Definition refines {A B} (c : bprog B) (P : prog A) (R : B → A → Prop) : Prop :=
  ∀ s, sim (N := N) (V := V) (λ _, False) c P nothing s (λ _, R).

Lemma dom_nothing L : dom (scratch_of L) = ∅ → dom (slices_of L) = ∅ → L = nothing.
Proof. destruct L as [m1 m2]; cbn. by intros ->%dom_empty_inv_L ->%dom_empty_inv_L. Qed.

Lemma frame_nothing W L : frame W nothing L → L = nothing.
Proof. intros [_ H1 H2]. apply dom_nothing; [rewrite H1|rewrite H2]; apply dom_empty_L. Qed.

Lemma refines_bind {A B A' B'} (c : bprog B) (P : prog A) (k : B → bprog B') (k' : A → prog A')
    R (R' : B' → A' → Prop) :
  refines c P R → (∀ b a, R b a → refines (k b) (k' a) R') → refines (c ≫= k) (P ≫= k') R'.
Proof.
  intros Hc Hk s. eapply sim_bind; [apply Hc|]. intros L' s' b a ->%frame_nothing HR.
  exact (Hk b a HR s').
Qed.

Lemma refines_bret {A B} (b : B) (a : A) (R : B → A → Prop) : R b a → refines (bret b) (Ret a) R.
Proof. intros HR s. by apply sim_bret. Qed.

Lemma refines_throw {A B} e (R : B → A → Prop) : refines (throw e) (Throw e) R.
Proof. intros s. apply sim_throw. Qed.

Lemma refines_call {A} (P : prog A) : refines (call P) P (=).
Proof. intros s. eapply sim_mono; [apply sim_call_id|]. by intros L b a [_ ->]. Qed.

Lemma refines_btry {A B} (c : bprog B) (P : prog A) R :
  refines c P R →
  refines (btry c) (try P) (λ r r',
    match r, r' with
    | inl e, inl e' => e = e'
    | inr b, inr a => R b a
    | _, _ => False
    end).
Proof. intros Hc s. apply sim_btry, Hc. Qed.

(** The root is a slice that nothing overwrites. *)
Lemma refines_bRoot : refines bRoot Root (λ r d, r = Own d).
Proof. intros s. split; [done|]. by exists (Own (root s)). Qed.

Lemma refines_bSetRoot r : refines (bSetRoot (Own r)) (SetRoot r) (λ _ _, True).
Proof. intros s. split; [done|]. by exists tt. Qed.

(** ** The objects of a call *)

Lemma wp_putPathSlices sid L t Q :
  is_Some (slices_of L !! sid) →
  Q (Ok tt) (mkOwned (scratch_of L) (delete sid (slices_of L))) t →
  wp (putPathSlices sid) L t Q.
Proof.
  intros [ps Hps] HQ. exists ps. split; [done|]. split; [by eexists|].
  eexists. split; [apply lookup_insert_eq|].
  split; [by cbn [slices_of]; rewrite lookup_insert_eq; eexists|].
  split; [by cbn [slices_of]; rewrite lookup_insert_eq, !take_0|].
  cbn [slices_of scratch_of]. by rewrite !delete_insert_eq.
Qed.

(** The end of a method that has path slices, and perhaps a scratch object. *)
Lemma sim_post_give_back {A B} W sid (r : outcome A * SparseMerkleTree N V) Q
    (R : B → A → Prop) o L t m :
  (∀ L' b a, Q L' b a → R b a) →
  sim_post W r (with_slices sid new_pathSlices (mkOwned m ∅)) Q o L t →
  match o with
  | Panic => sim_post (λ _, False) r nothing (λ _, R) Panic L t
  | Ok b => is_Some (slices_of L !! sid) ∧ delete sid (slices_of L) = ∅ ∧
      dom (scratch_of L) = dom m ∧ sim_post (λ _, False) r nothing (λ _, R) (Ok b) nothing t
  | Err e => is_Some (slices_of L !! sid) ∧ delete sid (slices_of L) = ∅ ∧
      dom (scratch_of L) = dom m ∧ sim_post (λ _, False) r nothing (λ _, R) (Err e) nothing t
  end.
Proof.
  intros HQ [-> Hr].
  assert (∀ L', frame W (with_slices sid new_pathSlices (mkOwned m ∅)) L' →
    is_Some (slices_of L' !! sid) ∧ delete sid (slices_of L') = ∅ ∧ dom (scratch_of L') = dom m) as Hf.
  { intros L' [_ H1 H2]. cbn in H1, H2. rewrite dom_insert_L, dom_empty_L, union_empty_r_L in H2.
    split_and!; [apply elem_of_dom; set_solver| |done].
    apply dom_empty_inv_L. rewrite dom_delete_L. set_solver. }
  destruct r as [[a|e|] s']; cbn [fst snd] in *.
  - destruct Hr as (b & -> & (? & ? & ?)%Hf & HQ'). split_and!; try done.
    split; [done|]. exists b. split_and!; [done..|]. by eapply HQ.
  - destruct Hr as [-> (? & ? & ?)%Hf]. by split_and!.
  - by subst o.
Qed.

Lemma refines_UpdateForRoot key value root :
  refines (UpdateForRoot_pooled key value (Own root)) (UpdateForRoot key value root)
    (λ r d, r = Own d).
Proof.
  intros s sid _ id sc _ Hsc. apply wp_bind, wp_btry. cbn [scratch_of slices_of nothing].
  assert (id ∈ dom (scratch_of (mkOwned (<[id:=sc]> ∅) ∅))) as Hid by (cbn; set_solver).
  eapply wp_mono; [exact (sim_UpdateForRoot sid id key value root _ s Hid)|].
  intros o L t HP.
  apply (sim_post_give_back _ sid _ _ (λ r d, r = Own d)) in HP; [|by intros].
  destruct o as [r|e|]; [destruct HP as (Hs & Hd & Hm & HP)..|exact HP].
  all: split; [apply elem_of_dom; rewrite Hm; set_solver|].
  all: apply wp_bind, wp_putPathSlices; [done|]; cbn [scratch_of slices_of bthrow_or wp].
  all: by rewrite Hd, (dom_empty_inv_L (delete id (scratch_of L))) by (rewrite dom_delete_L, Hm; set_solver).
Qed.

Lemma refines_Update key value :
  refines (Update_pooled key value) (Update key value) (λ r d, r = Own d).
Proof.
  eapply refines_bind; [apply refines_bRoot|]. intros r root ->.
  eapply refines_bind; [apply refines_UpdateForRoot|]. intros r newRoot ->.
  eapply refines_bind; [apply refines_bSetRoot|]. intros _ _ _. by apply refines_bret.
Qed.

Lemma refines_doProveForRoot key root isUpdatable :
  refines (doProveForRoot_pooled key (Own root) isUpdatable) (doProveForRoot key root isUpdatable) (=).
Proof.
  intros s sid _. apply wp_bind, wp_btry. cbn [scratch_of slices_of nothing].
  eapply wp_mono; [exact (sim_doProveForRoot (λ _, False) sid key root isUpdatable nothing s)|].
  intros o L t HP.
  apply (sim_post_give_back _ sid _ _ (=)) in HP; [|by intros].
  destruct o as [r|e|]; [destruct HP as (Hs & Hd & Hm & HP)..|exact HP].
  all: apply wp_bind, wp_putPathSlices; [done|]; cbn [scratch_of slices_of bthrow_or wp].
  all: by rewrite Hd, (dom_empty_inv_L (scratch_of L)) by (rewrite Hm; apply dom_empty_L).
Qed.

Lemma refines_BulkUpdate_deletes kvs :
  refines (BulkUpdate_deletes_pooled kvs)
    (for_each kvs (λ kv, if bytes_Equal kv.2 defaultValue then _ ← Delete kv.1; Ret tt else Ret tt))
    (λ _ _, True).
Proof.
  induction kvs as [|kv kvs IH]; cbn [BulkUpdate_deletes_pooled for_each]; [by apply refines_bret|].
  apply (refines_bind _ _ _ _ (λ _ _, True)); [|intros _ _ _; exact IH].
  destruct (bytes_Equal kv.2 defaultValue); [|by apply refines_bret].
  eapply refines_bind; [apply refines_Update|]. intros _ _ _. by apply refines_bret.
Qed.

(** A method that only has a scratch object. *)
Lemma refines_with_scratch {A B} (c : nat → bprog B) (P : prog A) (R : B → A → Prop) :
  (∀ id L s, id ∈ dom (scratch_of L) →
     sim (N := N) (V := V) (all_bufs id) (c id) P L s (λ _, R)) →
  refines (sc ← getUpdateScratch; r ← btry (c sc); putUpdateScratch sc ;; bthrow_or r) P R.
Proof.
  intros Hc s id sc _ Hsc. apply wp_bind, wp_btry. cbn [scratch_of slices_of nothing].
  assert (id ∈ dom (scratch_of (mkOwned (<[id:=sc]> ∅) ∅))) as Hid by (cbn; set_solver).
  eapply wp_mono; [exact (Hc id _ s Hid)|]. intros o L t [-> Hr].
  assert (∀ L', frame (all_bufs id) (mkOwned (<[id:=sc]> ∅) ∅) L' →
    is_Some (scratch_of L' !! id) ∧ mkOwned (delete id (scratch_of L')) (slices_of L') = nothing) as Hf.
  { intros L' [_ H1 H2]. cbn in H1, H2. split; [apply elem_of_dom; rewrite H1; set_solver|].
    apply dom_nothing; cbn; [rewrite dom_delete_L, H1; set_solver|by rewrite H2, dom_empty_L]. }
  destruct (run P s) as [[a|e|] s']; cbn [fst snd] in *.
  - destruct Hr as (b & -> & [Hs HL]%Hf & HR). split; [done|]. cbn. rewrite HL. split; [done|].
    by exists b.
  - destruct Hr as [-> [Hs HL]%Hf]. split; [done|]. cbn. by rewrite HL.
  - by subst o.
Qed.

Lemma refines_BulkUpdate keys values :
  refines (BulkUpdate_pooled keys values) (BulkUpdate keys values) (λ r d, r = Own d).
Proof.
  unfold BulkUpdate_pooled, BulkUpdate.
  destruct (negb _); [apply refines_throw|]. destruct (length keys =? 0); [apply refines_bRoot|].
  eapply refines_bind; [apply refines_BulkUpdate_deletes|]. intros _ _ _. cbv zeta.
  destruct (length _ =? 0); [apply refines_bRoot|].
  eapply refines_bind; [apply refines_call|]. intros kvs ? <-.
  apply refines_with_scratch. intros id L s Hid.
  assert (∀ r, work_bufs id r → all_bufs id r) as HW by (intros r (b & -> & _); by exists b).
  apply (sim_weaken _ _ _ _ _ _ _ HW), sim_bRoot.
  eapply sim_bind; [by apply sim_bulkApplyAtRoot|]. intros L' s' r newRoot _ ->.
  apply sim_bSetRoot. eapply sim_load; [done|]. by apply sim_bret.
Qed.

(** ** Programs of calls *)

Definition call_pooled (c : pcall) : bprog (presult ref) :=
  match c with
  | PUpdate key value => r ← btry (Update_pooled key value); bret (PRoot r)
  | PBulkUpdate keys values => r ← btry (BulkUpdate_pooled keys values); bret (PRoot r)
  | PProve key isUpdatable =>
      r ← btry (root ← bRoot; doProveForRoot_pooled key root isUpdatable);
      bret (PProof r)
  | PGet key => r ← btry (call (Get key)); bret (PValue r)
  end.

(** One call after the other, errors or not: the results in order. *)
Fixpoint calls_pooled (cs : list pcall) : bprog (list (presult ref)) :=
  match cs with
  | [] => bret []
  | c :: cs' => r ← call_pooled c; rs ← calls_pooled cs'; bret (r :: rs)
  end.

(** A result whose root is no slice of a buffer. *)
Definition own_result (r : presult bytes) : presult ref :=
  match r with
  | PRoot (inl e) => PRoot (inl e)
  | PRoot (inr d) => PRoot (inr (Own d))
  | PProof r => PProof r
  | PValue r => PValue r
  end.

Lemma refines_call_pooled c : refines (call_pooled c) (call_plain c) (λ r r', r = own_result r').
Proof.
  destruct c as [key value|keys values|key b|key]; cbn [call_pooled call_plain].
  - eapply refines_bind; [apply refines_btry, refines_Update|].
    intros [] [] Hr; try done; subst; by apply refines_bret.
  - eapply refines_bind; [apply refines_btry, refines_BulkUpdate|].
    intros [] [] Hr; try done; subst; by apply refines_bret.
  - eapply refines_bind; [eapply refines_btry, refines_bind; [apply refines_bRoot|]|].
    { intros r root ->. apply refines_doProveForRoot. }
    intros [] [] Hr; try done; subst; by apply refines_bret.
  - eapply refines_bind; [apply refines_btry, refines_call|].
    intros [] [] Hr; try done; subst; by apply refines_bret.
Qed.

Lemma refines_calls cs :
  refines (calls_pooled cs) (calls_plain cs) (λ rs rs', rs = own_result <$> rs').
Proof.
  induction cs as [|c cs IH]; cbn [calls_pooled calls_plain]; [by apply refines_bret|].
  eapply refines_bind; [apply refines_call_pooled|]. intros r r' ->.
  eapply refines_bind; [apply IH|]. intros rs rs' ->. by apply refines_bret.
Qed.

(** ** Goroutines *)

(** How a goroutine has to end: as the plain program does on its tree. *)
Definition ends_as {A B} (R : B → A → Prop) (P : prog A) s (o : outcome B) t : Prop :=
  t = pooled_of (run P s).2 ∧
  match (run P s).1 with
  | Ok a => ∃ b, o = Ok b ∧ R b a
  | Err e => o = Err e
  | Panic => o = Panic
  end.

Lemma refines_thread_ok {A B} (c : bprog B) (P : prog A) R s :
  refines c P R → thread_ok (ends_as R P s) (c, pooled_of s) nothing.
Proof.
  intros Hc. eapply wp_mono; [apply Hc|]. intros o L t [-> Hr]. unfold ends_as.
  destruct (run P s) as [[a|e|] s']; cbn [fst snd] in *.
  - destruct Hr as (b & -> & ->%frame_nothing & HR). split; [by right|]. split; [done|]. by exists b.
  - destruct Hr as [-> ->%frame_nothing]. split; [by right|done].
  - subst o. split; [by left|done].
Qed.

(** Pools that hold all objects there are, in the state they are put back
    in. *)
Definition pools_ok (w : pools) : Prop := world_inv w [].

Lemma pools_ok_owned w Ls : pools_ok w → Forall (.= nothing) Ls → world_inv w Ls.
Proof.
  intros [H1 H2] HL. split; (eapply inv_resize; [done|by constructor|]);
    apply Forall_fmap; (eapply Forall_impl; [exact HL|]); by intros L ->.
Qed.

(** When all goroutines have ended, everything is back in the pools. *)
Lemma config_inv_pools {A} Qs (cfg : config N V A) :
  config_inv Qs cfg → Forall (λ th, ∃ o, ended th.1 = Some o ∧ o ≠ Panic) cfg.1 → pools_ok cfg.2.
Proof.
  intros (Ls & [H1 H2] & HF) Hend.
  assert (Forall (.= nothing) Ls) as HL.
  { clear H1 H2. induction HF as [|Q [c t] L Qs ths Ls Hok _ IH]; [constructor|].
    apply Forall_cons in Hend as [(o & Ho & Hp) Hend]. constructor; [|by apply IH].
    unfold thread_ok in Hok. destruct c; cbn in *; try done; injection Ho as <-;
      destruct Hok as [[?| ->] _]; done. }
  split; (eapply inv_resize; [done| |by constructor]); apply Forall_fmap;
    (eapply Forall_impl; [exact HL|]); by intros L ->.
Qed.

Lemma no_pools_ok : pools_ok no_pools.
Proof. split; apply inv_empty; constructor. Qed.

Lemma config_inv_init {A B} (R : B → A → Prop) (w : pools)
    (ths : list (bprog B * prog A * SparseMerkleTree N V)) :
  pools_ok w → Forall (λ th, refines th.1.1 th.1.2 R) ths →
  config_inv ((λ th, ends_as R th.1.2 th.2) <$> ths) ((λ th, (th.1.1, pooled_of th.2)) <$> ths, w).
Proof.
  intros Hw Hths. exists (replicate (length ths) nothing). split.
  { apply pools_ok_owned; [done|]. by apply Forall_replicate. }
  cbn [fst]. induction Hths as [|[[c P] s] ths Hc _ IH]; [constructor|].
  cbn [fmap list_fmap length replicate]. constructor; [by apply refines_thread_ok|exact IH].
Qed.

(** Goroutines with a tree and a program each. *)
Definition spawn (jobs : list (list pcall * SparseMerkleTree N V))
    : list (thread N V (list (presult ref))) :=
  (λ job, (calls_pooled job.1, pooled_of job.2)) <$> jobs.

Definition own_results (o : outcome (list (presult bytes))) : outcome (list (presult ref)) :=
  match o with
  | Ok rs => Ok (own_result <$> rs)
  | Err e => Err e
  | Panic => Panic
  end.

Lemma ends_as_calls cs s o t :
  ends_as (λ rs rs', rs = own_result <$> rs') (calls_plain cs) s o t →
  o = own_results (run (calls_plain cs) s).1 ∧ t = pooled_of (run (calls_plain cs) s).2.
Proof.
  intros [-> Hr]. split; [|done]. destruct (run _ s).1; [by destruct Hr as (? & -> & ->)|done..].
Qed.

Lemma spawn_inv jobs :
  config_inv ((λ job, ends_as (λ rs rs', rs = own_result <$> rs') (calls_plain job.1) job.2) <$> jobs)
    (spawn jobs, no_pools).
Proof.
  set (ths := (λ job, (calls_pooled job.1, calls_plain job.1, job.2)) <$> jobs).
  pose proof (config_inv_init (λ rs rs', rs = own_result <$> rs') no_pools ths no_pools_ok) as Hc.
  unfold spawn, ths in *. rewrite <-!list_fmap_compose in Hc. apply Hc, Forall_fmap, Forall_true.
  intros [cs s]. apply refines_calls.
Qed.
End calls.
Arguments PRoot {R} r.
Arguments PProof {R} r.
Arguments PValue {R} r.
