(* ===== verification/PoolTheorems.v ===== *)
(** * pool.go: what the pooled buffers guarantee. *)

From S2P Require Import Prelude Utils MapStore TreeHasher Effects Proofs Smt Bulk Pool.
From S2P Require Import Merkle Spec Calls PoolLogic PoolSpec PoolCalls ToyHasher.

(** C8: goroutines that share the pools do not disturb each other: any number
    of them, each with a tree of its own and any sequence of updates, bulk
    updates, proofs and reads on it, interleaved at every access to a store, a
    buffer or a pool, whatever objects the pools hand out.  One that has not
    ended can always go on, every run ends, and one that has ended has the
    results and the tree of the same calls run alone without buffers, on every
    store and for every hash function; what it returned is no slice of a
    buffer, so nothing is overwritten later. *)
Theorem concurrent_calls_refine {HS : Hasher} {N V} `{MapStore N, MapStore V}
    (jobs : list (list pcall * SparseMerkleTree N V)) (sched : list (nat * nat)) :
  let cfg := run_schedule sched (spawn jobs, no_pools) in
  sn cstep cfg ∧
  (∀ i pick, is_Some (config_step i pick cfg) ↔ ∃ th, cfg.1 !! i = Some th ∧ ended th.1 = None) ∧
  Forall2 (λ job th,
    match ended th.1 with
    | Some o => let '(o', s') := run (calls_plain job.1) job.2 in
        o = own_results o' ∧ th.2 = pooled_of s'
    | None => True
    end) jobs cfg.1.
Proof.
  intros cfg. pose proof (config_inv_steps _ _ _ (spawn_inv jobs) (run_schedule_steps sched _)) as Hc.
  split_and!; [apply cstep_sn|by intros i pick; eapply config_inv_progress|].
  apply config_inv_ended, Forall2_fmap_l in Hc. eapply Forall2_impl; [exact Hc|].
  intros [cs s] [c t]. cbn. destruct (ended c) as [o|]; [|done].
  intros Ho%ends_as_calls. by destruct (run _ s).
Qed.

(** C9: goroutines, pools, trees and stores together implement the abstract
    machine: any number of goroutines, each with a tree that holds a map and
    any sequence of calls on it, interleaved at every access; every run ends,
    no goroutine is stuck before its end, and one that has ended has the
    results that the machine gives for its calls, and a tree that holds the
    machine's map. *)
Theorem concurrent_calls_correct {HS : Hasher} {N V}
    `{LawfulMapStore hsize N, LawfulMapStore hsize V}
    (jobs : list (list pcall * SparseMerkleTree N V)) ms (sched : list (nat * nat)) :
  Forall2 (λ job m, smt_holds job.2 m ∧ collision_free (calls_preimages job.1 m)) jobs ms →
  let cfg := run_schedule sched (spawn jobs, no_pools) in
  sn cstep cfg ∧
  ∀ i cs s m, jobs !! i = Some (cs, s) → ms !! i = Some m →
  ∃ th, cfg.1 !! i = Some th ∧
  match ended th.1 with
  | None => ∀ pick, is_Some (config_step i pick cfg)
  | Some o => let '(results, m') := calls_spec cs m in
      o = Ok (own_result <$> results) ∧ ∃ s', th.2 = pooled_of s' ∧ smt_holds s' m'
  end.
Proof.
  intros Hjobs cfg. pose proof (config_inv_steps _ _ _ (spawn_inv jobs) (run_schedule_steps sched _)) as Hc.
  split; [apply cstep_sn|]. intros i cs s m Hi Hm.
  destruct (Forall2_lookup_lr _ _ _ _ _ _ Hjobs Hi Hm) as [Hs CF]. cbn [fst snd] in Hs, CF.
  pose proof (λ i pick, config_inv_progress _ _ i pick Hc) as Hprog.
  apply config_inv_ended, Forall2_fmap_l in Hc.
  destruct (Forall2_lookup_l _ _ _ _ _ Hc Hi) as (th & Hth & Hend). exists th. split; [exact Hth|].
  cbn in Hend.
  destruct (ended th.1) as [o|] eqn:Eo; [|intros pick; apply Hprog; eauto].
  apply ends_as_calls in Hend as [-> Ht]. cbn [fst snd] in Ht |- *.
  destruct (smt_holds_calls cs s m Hs CF) as (s' & E & Hs'). rewrite E in *.
  destruct (calls_spec cs m) as [rs m']. split; [done|]. by exists s'.
Qed.

(** C36: the pools stay in order at every moment of every run of goroutines
    that share them: no object is in the pool twice, the path slices of the
    pool are empty, and every buffer of every object has its 64 bytes, those
    beyond the digest size never written, for every hash function, one with
    digests longer than the buffers included. *)
Theorem pooled_buffers_bounded {HS : Hasher} {N V} `{MapStore N, MapStore V}
    (jobs : list (list pcall * SparseMerkleTree N V)) (sched : list (nat * nat)) :
  let w := (run_schedule sched (spawn jobs, no_pools)).2 in
  NoDup (idle (updateScratchPool w)) ∧ NoDup (idle (pathSlicesPool w)) ∧
  Forall (λ sid, objs (pathSlicesPool w) !! sid = Some new_pathSlices) (idle (pathSlicesPool w)) ∧
  map_Forall (λ _ sc, ∀ b, length (buf_get b sc) = hashBufCap ∧
    drop hsize (buf_get b sc) = replicate (hashBufCap - hsize) x00) (objs (updateScratchPool w)).
Proof.
  intros w.
  destruct (config_inv_steps _ _ _ (spawn_inv jobs) (run_schedule_steps sched _)) as (Ls & [H1 H2] & _).
  split_and!; [apply H1|apply H2| |intros id sc; apply H1].
  apply Forall_forall. intros sid (ps & Hps & ->)%(inv_idle _ _ _ _ H2). exact Hps.
Qed.

Definition toy_jobs : list (list pcall * SparseMerkleTree (KeyedMap 2) (KeyedMap 2)) :=
  [([PUpdate (toy_bytes 1) (toy_bytes 11); PProve (toy_bytes 1) true], toy_state);
   ([PBulkUpdate [toy_bytes 3; toy_bytes 2] [toy_bytes 30; []]], toy_state)].

(** One step each in turn: both goroutines end, with the results of the
    machine, and with trees that hold its maps. *)
Lemma concurrent_calls_correct_witness :
  let cfg := run_schedule (HS := toy) (mjoin (replicate 1000 [(0, 0); (1, 0)]))
    (spawn (HS := toy) toy_jobs, no_pools) in
  sn (cstep (HS := toy)) cfg ∧
  Forall (λ i, ∃ cs s th s', toy_jobs !! i = Some (cs, s) ∧ cfg.1 !! i = Some th ∧
    ended th.1 = Some (Ok (own_result <$> (calls_spec (HS := toy) cs toy_map).1)) ∧
    th.2 = pooled_of s' ∧ smt_holds (HS := toy) s' (calls_spec (HS := toy) cs toy_map).2) [0; 1].
Proof.
  intros cfg.
  assert (forallb (λ th, bool_decide (is_Some (ended th.1))) cfg.1 = true) as Hended
    by (vm_compute; reflexivity).
  destruct (concurrent_calls_correct (HS := toy) toy_jobs [toy_map; toy_map]
    (mjoin (replicate 1000 [(0, 0); (1, 0)]))) as [Hsn Hres].
  { do 2 (apply List.Forall2_cons; [split; [exact toy_state_holds|collision_free_by_compute]|]).
    apply List.Forall2_nil. }
  fold cfg in Hsn, Hres. clearbody cfg. split; [exact Hsn|].
  assert (∀ i cs s, toy_jobs !! i = Some (cs, s) → [toy_map; toy_map] !! i = Some toy_map →
    ∃ cs s th s', toy_jobs !! i = Some (cs, s) ∧ cfg.1 !! i = Some th ∧
      ended th.1 = Some (Ok (own_result <$> (calls_spec (HS := toy) cs toy_map).1)) ∧
      th.2 = pooled_of s' ∧ smt_holds (HS := toy) s' (calls_spec (HS := toy) cs toy_map).2) as Hall.
  { intros i cs s Hi Hm. destruct (Hres i cs s toy_map Hi Hm) as (th & Hth & Hend).
    assert (is_Some (ended th.1)) as [o Eo].
    { rewrite forallb_forall in Hended. eapply bool_decide_eq_true_1, Hended.
      apply list_elem_of_In. eapply list_elem_of_lookup_2. exact Hth. }
    rewrite Eo in Hend. destruct (calls_spec cs toy_map) as [rs m'] eqn:Ecs.
    destruct Hend as (-> & s' & Ht & Hs'). exists cs, s, th, s'.
    rewrite Ecs. exact (conj Hi (conj Hth (conj Eo (conj Ht Hs')))). }
  apply Forall_cons; split; [eapply Hall; reflexivity|].
  apply Forall_cons; split; [eapply Hall; reflexivity|apply Forall_nil_2].
Defined.

(** Two goroutines on new trees, one step each in turn: both end, and
    the pools have made no more than two objects of a kind, which are free
    again. *)
Example goroutines_reuse_objects :
  let s := NewSparseMerkleTree (HS := toy) NewSimpleMap NewSimpleMap [] in
  let jobs := [([PUpdate (toy_bytes 1) (toy_bytes 10); PProve (toy_bytes 1) true;
                 PUpdate (toy_bytes 2) (toy_bytes 20); PUpdate (toy_bytes 1) []], s);
               ([PUpdate (toy_bytes 3) (toy_bytes 30); PGet (toy_bytes 3);
                 PBulkUpdate [toy_bytes 3; toy_bytes 4] [[]; toy_bytes 40]], s)] in
  let '(ths, w) := run_schedule (HS := toy) (mjoin (replicate 1000 [(0, 0); (1, 0)]))
    (spawn (HS := toy) jobs, no_pools) in
  Forall (λ th, ∃ rs, ended th.1 = Some (Ok rs)) ths ∧
  size (objs (updateScratchPool w)) = length (idle (updateScratchPool w)) ∧
  size (objs (updateScratchPool w)) ≤ 2 ∧ size (objs (pathSlicesPool w)) ≤ 2.
Proof. vm_compute. split_and!; [repeat constructor; by eexists|lia..]. Qed.
