(* ===== verification/ArenaTree.v ===== *)
(** * The tree on arena stores.

    [ArenaFixedSizeMap] is no lawful store: an empty or an oversized value
    breaks it, and its slab numbers are bounded.  The tree stays within its
    limits: the values it sets are encoded nodes and the caller's non-empty
    values, and an Update sets a bounded number of them ([sets_le]).  So a
    tree on arena stores does what the tree on the reference stores does, up
    to a number of updates. *)

From S2P Require Import Prelude Utils MapStore ArenaMap TreeHasher Effects Proofs Smt ReadOnly.
From S2P Require Import DeepSubTree Merkle Store SmtSpec Compaction Typing TypedTree.

(** At most [n] calls of [Set], and what is returned satisfies [Q]; for all
    answers of the stores. *)
Fixpoint sets_le {A} (n : nat) (Q : A → Prop) (m : prog A) : Prop :=
  match m with
  | Ret a => Q a
  | Throw _ | Crash => True
  | GetOp _ _ c => ∀ r, sets_le n Q (c r)
  | SetOp _ _ _ c => match n with 0 => False | S n' => ∀ r, sets_le n' Q (c r) end
  | DeleteOp _ _ c => ∀ r, sets_le n Q (c r)
  | RootOp c => ∀ r, sets_le n Q (c r)
  | SetRootOp _ c => sets_le n Q c
  end.

Definition any {A} (a : A) : Prop := True.

Section sets.

Lemma sets_le_mono {A} (m : prog A) n n' (Q Q' : A → Prop) :
  sets_le n Q m → n ≤ n' → (∀ a, Q a → Q' a) → sets_le n' Q' m.
Proof.
  revert n n'. induction m as [| | |st k c IH|st k v c IH|st k c IH|c IH|r c IH]; intros n n' Hm Hn HQ;
    cbn in *; eauto.
  destruct n as [|n], n' as [|n']; try done; [lia|]. intros r. apply (IH r n); [apply Hm|lia|done].
Qed.

Lemma sets_le_bind {A B} (m : prog A) (f : A → prog B) n n' (Q : A → Prop) (R : B → Prop) :
  sets_le n Q m → (∀ a, Q a → sets_le n' R (f a)) → sets_le (n + n') R (m ≫= f).
Proof.
  revert n. induction m as [| | |st k c IH|st k v c IH|st k c IH|c IH|r c IH]; intros n Hm Hf;
    cbn in *; eauto.
  - eapply sets_le_mono; [by apply Hf|lia|done].
  - destruct n as [|n]; [done|]. cbn. eauto.
Qed.

Lemma sets_le_seq {A B} n n' t (Q : A → Prop) (R : B → Prop) (m : prog A) (f : A → prog B) :
  n + n' ≤ t → sets_le n Q m → (∀ a, Q a → sets_le n' R (f a)) →
  sets_le t R (m ≫= f).
Proof. intros Ht Hm Hf. eapply sets_le_mono; [by eapply sets_le_bind|done|done]. Qed.

(** A step that sets nothing. *)
Lemma sets_le_step {A B} n (Q : A → Prop) (R : B → Prop) (m : prog A) (f : A → prog B) :
  sets_le 0 Q m → (∀ a, Q a → sets_le n R (f a)) → sets_le n R (m ≫= f).
Proof. by apply sets_le_seq. Qed.

Lemma sets_le_try {A} (m : prog A) n (Q : A → Prop) :
  sets_le n Q m → sets_le n (λ r, match r with inl _ => True | inr a => Q a end) (try m).
Proof.
  revert n. induction m as [| | |st k c IH|st k v c IH|st k c IH|c IH|r c IH]; intros n Hm;
    cbn in *; eauto. destruct n; eauto.
Qed.

Lemma sets_le_readonly {A} (m : prog A) n : readonly m → sets_le n any m.
Proof. induction m; cbn in *; naive_solver. Qed.

Lemma sets_le_Delete st k n : sets_le n any (store_Delete st k).
Proof. by intros [|]. Qed.

Lemma sets_le_SetRoot r n : sets_le n any (SetRoot r).
Proof. done. Qed.

Lemma sets_le_nodes_Set k v : sets_le 1 any (nodes_Set k v).
Proof. by intros [|]. Qed.

Lemma sets_le_values_Set k v : sets_le 1 any (values_Set k v).
Proof. by intros [|]. Qed.

Lemma sets_le_for_each {A} (l : list A) (body : A → prog unit) n :
  (∀ x, x ∈ l → sets_le n any (body x)) → sets_le (length l * n) any (for_each l body).
Proof.
  induction l as [|x l IH]; intros Hb; [done|].
  apply (sets_le_bind _ _ n _ any); [apply Hb; by left|].
  intros _ _. apply IH. intros y Hy. apply Hb. by right.
Qed.

Lemma sets_le_for_each_Delete (l : list bytes) st n :
  sets_le n any (for_each l (store_Delete st)).
Proof.
  eapply sets_le_mono; [apply (sets_le_for_each l _ 0); intros; apply sets_le_Delete|lia|done].
Qed.
End sets.

(** Steps of a program that set nothing, and one that sets a node. *)
Ltac sets_step :=
  lazymatch goal with
  | |- sets_le _ _ (nodes_Set _ _ ≫= _) =>
      eapply (sets_le_bind _ _ 1 _ any); [apply sets_le_nodes_Set|intros ? _]
  | |- sets_le _ _ (for_each _ _ ≫= _) =>
      eapply (sets_le_step _ any); [apply sets_le_for_each_Delete|intros ? _]
  | |- sets_le _ _ (store_Delete _ _ ≫= _) =>
      eapply (sets_le_step _ any); [apply sets_le_Delete|intros ? _]
  | |- sets_le _ _ (_ ≫= _) =>
      eapply (sets_le_step _ any); [apply sets_le_readonly; solve [solve_readonly]|intros ? _]
  | |- sets_le _ _ (match ?x with _ => _ end) => destruct x
  | |- sets_le _ _ (Throw _) => exact I
  | |- sets_le _ any (Ret _) => exact I
  end.

Section tree_sets.
Context {HS : Hasher}.

Lemma sets_fillSideNodes_loop p n i d sib sns pns :
  sets_le 0 (λ r, length r.1.1.1 ≤ length sns + n) (fillSideNodes_loop p n i d sib sns pns).
Proof.
  revert i d sib sns pns. induction n as [|n IH]; intros i d sib sns pns; cbn [fillSideNodes_loop];
    [cbn; lia|].
  repeat sets_step; cbn [sets_le fst]; rewrite ?length_app; cbn [length]; try lia.
  eapply sets_le_mono; [apply IH|done|]. intros r. rewrite length_app. cbn [length]. lia.
Qed.

Lemma sets_fillSideNodes p root b :
  sets_le 0 (λ r, length (sideNodes r.1.1) ≤ depth) (fillSideNodes p root b).
Proof.
  unfold fillSideNodes. sets_step; [cbn; lia|]. repeat sets_step; [cbn; lia|].
  eapply sets_le_step; [apply sets_fillSideNodes_loop|].
  intros [[[sns pns] sib] d]. cbn [fst length]. intros Hlen.
  apply (sets_le_step _ any).
  { apply sets_le_readonly. solve_readonly. }
  intros sd _. rewrite !reverseByteSlicesInPlace_spec. cbn. by rewrite length_reverse.
Qed.

Lemma sets_delete_loop p len sns i h d b :
  sets_le (length sns) any (deleteWithSideNodes_loop p len sns i h d b).
Proof.
  revert i h d b. induction sns as [|sn sns IH]; intros i h d b; cbn [deleteWithSideNodes_loop length];
    [done|].
  apply (sets_le_step _ any); [apply sets_le_readonly; solve_readonly|].
  intros st _. destruct st as [[d' b']|].
  2: { eapply sets_le_mono; [apply IH|lia|done]. }
  destruct (negb b' && bytes_Equal sn placeholder).
  { eapply sets_le_mono; [apply IH|lia|done]. }
  sets_step. destruct (a =? right)%Z; cbn; intros [e|]; cbn; auto.
Qed.

Lemma sets_update_loop p sns c n i d :
  sets_le n any (updateWithSideNodes_loop p sns c n i d).
Proof.
  revert i d. induction n as [|n IH]; intros i d; cbn [updateWithSideNodes_loop]; [done|].
  apply (sets_le_step _ any); [apply sets_le_readonly; solve_readonly|].
  intros [sn|] _; [|eapply sets_le_mono; [apply IH|lia|done]].
  sets_step. destruct (a =? right)%Z; cbn; intros [e|]; cbn; auto.
Qed.

(** An update sets the leaf, at most one node where two paths part, at most one
    node a level, and the value. *)
Lemma sets_UpdateForRoot key value root :
  sets_le (depth + 3) any (UpdateForRoot key value root).
Proof.
  unfold UpdateForRoot.
  eapply sets_le_step; [apply sets_fillSideNodes|].
  intros [[ps old] sib] Hlen. cbn [fst] in Hlen. destruct (bytes_Equal value defaultValue).
  - eapply (sets_le_seq depth 0); [lia| |].
    { apply sets_le_try. unfold deleteWithSideNodes. repeat sets_step.
      apply (sets_le_seq depth 0 _ any); [lia| |intros [h|] _; exact I].
      eapply sets_le_mono; [apply sets_delete_loop|done..]. }
    intros r _. destruct r as [e|r]; [destruct e|]; repeat sets_step.
  - unfold updateWithSideNodes. destruct (digestLeafInto _ _) as [h d].
    apply (sets_le_seq 1 (2 + depth) _ any); [lia|apply sets_le_nodes_Set|intros _ _].
    sets_step. apply (sets_le_step _ any); [apply sets_le_readonly; solve_readonly|].
    intros [c ov] _. apply (sets_le_seq 1 (1 + depth) _ any); [lia| |].
    { destruct (bool_decide _).
      - sets_step. destruct (a0 =? right)%Z; cbn; by intros [].
      - destruct ov as [ov|]; [|done]. destruct (bytes_Equal _ _); [done|]. by repeat sets_step. }
    intros [r|d'] _; [done|]. sets_step.
    apply (sets_le_seq depth 1 _ any); [lia|apply sets_update_loop|]. intros r _.
    apply (sets_le_bind _ _ 1 0 any); [apply sets_le_values_Set|done].
Qed.

Lemma sets_Update key value : sets_le (depth + 3) any (Update key value).
Proof.
  unfold Update. apply (sets_le_step _ any); [done|]. intros r _.
  apply (sets_le_seq (depth + 3) 0 _ any); [lia|apply sets_UpdateForRoot|done].
Qed.

Lemma sets_run_updates kvs :
  sets_le (length kvs * (depth + 3)) any (run_updates kvs).
Proof.
  apply sets_le_for_each. intros kv Hkv.
  apply (sets_le_seq (depth + 3) 0 _ any); [lia| |done].
  apply sets_Update.
Qed.
End tree_sets.

(** ** The simulation *)

(** The stores' contracts, at a length known to be 32. *)
Section length_32.
Context {n : nat} (H32 : n = 32).
Implicit Types (am : ArenaFixedSizeMap) (km : KeyedMap n).

Lemma arena_Get_keyed am km b k : arena_rep am (km_m km) b → ms_Get k am = ms_Get k km.
Proof. subst n. destruct km as [m]. apply arena_Get_spec. Qed.

Lemma arena_Delete_keyed am km b k :
  arena_rep am (km_m km) b →
  (ms_Delete k am).1 = (ms_Delete k km).1 ∧
  arena_rep (ms_Delete k am).2 (km_m (ms_Delete k km).2) b.
Proof. subst n. destruct km as [m]. apply arena_Delete_spec. Qed.

Lemma arena_Set_keyed am km b k v :
  arena_rep am (km_m km) (S b) → v ≠ [] → (Z.of_nat (length v) < 2 ^ 32)%Z →
  (ms_Set k v am).1 = (ms_Set k v km).1 ∧
  arena_rep (ms_Set k v am).2 (km_m (ms_Set k v km).2) b.
Proof. subst n. destruct km as [m]. apply arena_Set_spec. Qed.
End length_32.

Lemma arena_rep_le am m b b' : arena_rep am m b → b' ≤ b → arena_rep am m b'.
Proof. intros [] Hb. split; try done. lia. Qed.

Section sim.
Context {HS : Hasher} (H32 : hsize = 32).
Implicit Types (s : SparseMerkleTree ArenaFixedSizeMap ArenaFixedSizeMap) (g : refstate).

(** Both stores hold the maps of the reference stores, with room for the
    numbers of [b] more slabs. *)
Record arena_tree_rep s g (b : nat) : Prop := {
  at_nodes : arena_rep (nodes s) (km_m (nodes g)) b;
  at_values : arena_rep (values s) (km_m (values g)) b;
  at_root : root s = root g;
}.

Definition fits_uint32 (v : bytes) : Prop := (Z.of_nat (length v) < 2 ^ 32)%Z.

(** The values that an arena store can take. *)
#[export] Instance arena_values : ValueTyping := fits_uint32.

Lemma node_typed_fits d : node_typed d → d ≠ [] ∧ fits_uint32 d.
Proof.
  intros Hd. assert (length d = 65) as Hlen.
  { destruct Hd as [x y Hx Hy|x y Hx Hy]; unfold sized in *; rewrite H32 in *;
      [change (leaf_data x y) with (x00 :: x ++ y)|change (node_data x y) with (x01 :: x ++ y)];
      cbn [length]; rewrite length_app; lia. }
  unfold fits_uint32. rewrite Hlen. split; [by intros ->|lia].
Qed.

Lemma arena_do_Get st k s g b : arena_tree_rep s g b → do_Get st k s = do_Get st k g.
Proof. intros [Hn Hv _]. destruct st; by eapply arena_Get_keyed. Qed.

Lemma arena_do_Delete st k s g b o g' :
  arena_tree_rep s g b → do_Delete st k g = (o, g') →
  ∃ s', do_Delete st k s = (o, s') ∧ arena_tree_rep s' g' b.
Proof.
  intros [Hn Hv Hr]. destruct st; cbn [do_Delete].
  - destruct (arena_Delete_keyed H32 _ _ _ k Hn) as [E1 E2].
    destruct (ms_Delete k (nodes s)), (ms_Delete k (nodes g)). cbn in E1, E2.
    intros [= <- <-]. eexists. split; [by rewrite E1|]. by split.
  - destruct (arena_Delete_keyed H32 _ _ _ k Hv) as [E1 E2].
    destruct (ms_Delete k (values s)), (ms_Delete k (values g)). cbn in E1, E2.
    intros [= <- <-]. eexists. split; [by rewrite E1|]. by split.
Qed.

Lemma arena_do_Set st k v s g b o g' :
  arena_tree_rep s g (S b) → v ≠ [] → fits_uint32 v → do_Set st k v g = (o, g') →
  ∃ s', do_Set st k v s = (o, s') ∧ arena_tree_rep s' g' b.
Proof.
  intros [Hn Hv Hr] Hne Hfit. destruct st; cbn [do_Set].
  - destruct (arena_Set_keyed H32 _ _ _ k v Hn Hne Hfit) as [E1 E2].
    destruct (ms_Set k v (nodes s)), (ms_Set k v (nodes g)). cbn in E1, E2.
    intros [= <- <-]. eexists. split; [by rewrite E1|].
    split; [done|apply (arena_rep_le _ _ (S b)); [done|lia]|done].
  - destruct (arena_Set_keyed H32 _ _ _ k v Hv Hne Hfit) as [E1 E2].
    destruct (ms_Set k v (values s)), (ms_Set k v (values g)). cbn in E1, E2.
    intros [= <- <-]. eexists. split; [by rewrite E1|].
    split; [apply (arena_rep_le _ _ (S b)); [done|lia]|done|done].
Qed.

(** A program of at most [n] Sets, all of typed data. *)
Lemma run_arena {A} (P : prog A) s g n b o g' (Q : A → Prop) :
  arena_tree_rep s g (n + b) → sets_le n Q P → sets_typed P g →
  run P g = (o, g') →
  ∃ s', run P s = (o, s') ∧ arena_tree_rep s' g' b.
Proof.
  assert (∀ s g n, arena_tree_rep s g (n + b) → arena_tree_rep s g b) as Hle.
  { intros s1 g1 n1 []. split; [eapply arena_rep_le; [done|lia]..|done]. }
  revert s g n. induction P as [a|e| |st k c IH|st k v c IH|st k c IH|c IH|r c IH];
    intros s g n Hrep Hn Ht Hrun;
    rewrite ?run_GetOp, ?run_SetOp, ?run_DeleteOp, ?run_RootOp, ?run_SetRootOp in *;
    cbn -[do_Get do_Set do_Delete] in Hn, Ht.
  - injection Hrun as <- <-. eauto.
  - injection Hrun as <- <-. eauto.
  - injection Hrun as <- <-. eauto.
  - rewrite (arena_do_Get st k s g _ Hrep). destruct (do_Get st k g); [by eauto..|].
    injection Hrun as <- <-. eauto.
  - destruct Ht as [Hd Ht]. destruct n as [|n]; [done|].
    destruct (do_Set st k v g) as [o1 g1] eqn:E.
    destruct (arena_do_Set st k v s g (n + b) o1 g1 Hrep) as (s1 & -> & Hrep1);
      [by destruct st; [apply node_typed_fits|apply Hd]..|done|].
    destruct o1; [by eauto..|]. injection Hrun as <- <-. eauto.
  - destruct (do_Delete st k g) as [o1 g1] eqn:E.
    destruct (arena_do_Delete st k s g _ o1 g1 Hrep E) as (s1 & -> & Hrep1).
    destruct o1; [by eauto..|]. injection Hrun as <- <-. eauto.
  - rewrite (at_root _ _ _ Hrep). eauto.
  - eapply IH; [|done..]. by destruct Hrep.
Qed.
End sim.
