(* ===== verification/SliceTree.v ===== *)
(** * Trees over stores of slices.

    The methods of a tree work with bytes; on stores of slices they pass
    slices and are handed slices.  [run_mem] runs a program on them, with both
    stores in one memory: the argument of a Set is a slice that was handed out
    before, when [choose] names one with the right bytes, or a new one, and
    everything handed out is recorded with the bytes that it had then.  If it
    still has them at the end, it does not matter when the tree, or its
    caller, reads it. *)

From S2P Require Import Prelude MapStore ArenaMap TreeHasher Effects Proofs Smt Bulk.
From S2P Require Import Merkle Store Typing TypedTree ArenaTree Memory SliceStores SliceLaws.

Record memTree (N V : Type) : Type := mkMemTree {
  mt_mem : memory;
  mt_nodes : N;
  mt_values : V;
  mt_root : bytes;
  mt_seen : list (sref * bytes);
}.
Arguments mkMemTree {N V} mt_mem mt_nodes mt_values mt_root mt_seen.
Arguments mt_mem {N V} _.
Arguments mt_nodes {N V} _.
Arguments mt_values {N V} _.
Arguments mt_root {N V} _.
Arguments mt_seen {N V} _.

Section run_mem.
Context {N V : Type} `{SliceStore N, SliceStore V}.
Context (choose : list (sref * bytes) → bytes → option sref).
Implicit Types s : memTree N V.

(** A slice with the bytes [v]. *)
Definition argument (seen : list (sref * bytes)) (v : bytes) (h : memory) : sref * memory :=
  match choose seen v with
  | Some g => if bool_decide (g ∈ seen.*1 ∧ read h g = v) then (g, h) else alloc v h
  | None => alloc v h
  end.

Definition mem_Get (st : store_id) (k : bytes) s : outcome sref :=
  match st with
  | NodeStore => ss_Get k (mt_nodes s)
  | ValueStore => ss_Get k (mt_values s)
  end.

Definition mem_Set (st : store_id) (k v : bytes) s : outcome unit * memTree N V :=
  let '(g, h) := argument (mt_seen s) v (mt_mem s) in
  match st with
  | NodeStore =>
      let '(o, n, h) := ss_Set k g (mt_nodes s) h in
      (o, mkMemTree h n (mt_values s) (mt_root s) (mt_seen s))
  | ValueStore =>
      let '(o, w, h) := ss_Set k g (mt_values s) h in
      (o, mkMemTree h (mt_nodes s) w (mt_root s) (mt_seen s))
  end.

Definition mem_Delete (st : store_id) (k : bytes) s : outcome unit * memTree N V :=
  match st with
  | NodeStore =>
      let '(o, n) := ss_Delete k (mt_nodes s) in
      (o, mkMemTree (mt_mem s) n (mt_values s) (mt_root s) (mt_seen s))
  | ValueStore =>
      let '(o, w) := ss_Delete k (mt_values s) in
      (o, mkMemTree (mt_mem s) (mt_nodes s) w (mt_root s) (mt_seen s))
  end.

Definition see (g : sref) s : memTree N V :=
  mkMemTree (mt_mem s) (mt_nodes s) (mt_values s) (mt_root s)
    ((g, read (mt_mem s) g) :: mt_seen s).

Fixpoint run_mem {A} (P : prog A) s : outcome A * memTree N V :=
  match P with
  | Ret a => (Ok a, s)
  | Throw e => (Err e, s)
  | Crash => (Panic, s)
  | GetOp st k c =>
      match mem_Get st k s with
      | Ok g => run_mem (c (inr (read (mt_mem s) g))) (see g s)
      | Err e => run_mem (c (inl e)) s
      | Panic => (Panic, s)
      end
  | SetOp st k v c =>
      match mem_Set st k v s with
      | (Ok _, s') => run_mem (c None) s'
      | (Err e, s') => run_mem (c (Some e)) s'
      | (Panic, s') => (Panic, s')
      end
  | DeleteOp st k c =>
      match mem_Delete st k s with
      | (Ok _, s') => run_mem (c None) s'
      | (Err e, s') => run_mem (c (Some e)) s'
      | (Panic, s') => (Panic, s')
      end
  | RootOp c => run_mem (c (mt_root s)) s
  | SetRootOp r c =>
      run_mem c (mkMemTree (mt_mem s) (mt_nodes s) (mt_values s) r (mt_seen s))
  end.
End run_mem.

(** What was handed out has the bytes that it had. *)
Definition seen_stable {N V} (s : memTree N V) : Prop :=
  Forall (λ gv, read (mt_mem s) gv.1 = gv.2) (mt_seen s).

(** ** The simulation *)

(** A Set of one store leaves another one alone. *)
Lemma set_beside {n A B} `{LawfulSliceStore n A, LawfulSliceStore n B} b h u (x : A) (y : B) m m' k r :
  ss_rep (S b) h u x m → ss_rep (S b) h u y m' → ss_owned x ## ss_owned y →
  mem_ok h u → length k = n → settled u r → read h r ≠ [] → fits_uint32 (read h r) →
  ∃ x' h' u', ss_Set k r x h = (Ok tt, x', h') ∧ extends (ss_owned x) h u h' u' ∧
    ss_rep b h' u' x' (<[k := read h r]> m) ∧ ss_rep b h' u' y m' ∧ ss_owned x' ## ss_owned y.
Proof.
  intros Hx Hy Hd Hok Hk Hr Hne Hfit.
  destruct (ss_Set_law _ _ _ _ _ _ _ Hx Hok Hk Hr Hne Hfit) as (x' & h' & u' & E & Hext & Hx' & Ho).
  exists x', h', u'. split_and!; [done..| |].
  - by eapply ss_frame_law; [apply ss_room_law|..].
  - intros a [Ha|Ha]%Ho Hay; [by apply (Hd a)|].
    pose proof (ss_owned_law _ _ _ _ _ _ Hy Hay). lia.
Qed.

Section sim.
Context {HS : Hasher} {N V : Type} `{LawfulSliceStore hsize N, LawfulSliceStore hsize V}.
Context (choose : list (sref * bytes) → bytes → option sref).
Implicit Types (s : memTree N V) (g : refstate).

(** The stores hold the maps of the reference stores, own different arrays,
    and what was handed out is used memory. *)
Record mem_tree_rep (b : nat) (u : list nat) s g : Prop := {
  mr_ok : mem_ok (mt_mem s) u;
  mr_nodes : ss_rep b (mt_mem s) u (mt_nodes s) (km_m (nodes g));
  mr_values : ss_rep b (mt_mem s) u (mt_values s) (km_m (values g));
  mr_disjoint : ss_owned (mt_nodes s) ## ss_owned (mt_values s);
  mr_root : mt_root s = root g;
  mr_seen : Forall (λ rv, settled u rv.1 ∧ read (mt_mem s) rv.1 = rv.2) (mt_seen s);
}.

Lemma mem_tree_rep_stable b u s g : mem_tree_rep b u s g → seen_stable s.
Proof. intros []. eapply Forall_impl; [done|]. by intros ? []. Qed.

Lemma mem_tree_rep_le b b' u s g : mem_tree_rep b u s g → b' ≤ b → mem_tree_rep b' u s g.
Proof.
  intros [] Hb. split; try done; by eapply ss_rep_le.
Qed.

(** What was handed out stays. *)
Lemma seen_extends O h u h' u' (l : list (sref * bytes)) :
  extends O h u h' u' → Forall (λ rv, settled u rv.1 ∧ read h rv.1 = rv.2) l →
  Forall (λ rv, settled u' rv.1 ∧ read h' rv.1 = rv.2) l.
Proof.
  intros Hext Hl. eapply Forall_impl; [exact Hl|]. intros rv [Hs <-].
  split; [by eapply settled_extends|by eapply read_extends].
Qed.

Lemma argument_spec seen v h u :
  mem_ok h u → Forall (λ rv, settled u rv.1 ∧ read h rv.1 = rv.2) seen →
  ∃ r h' u', argument choose seen v h = (r, h') ∧ extends ∅ h u h' u' ∧ settled u' r ∧
    read h' r = v.
Proof.
  intros Hok Hseen.
  assert (∃ r h' u', alloc v h = (r, h') ∧ extends ∅ h u h' u' ∧ settled u' r ∧ read h' r = v)
    as Hnew.
  { eexists _, _, (u ++ [length v]). split_and!; [done|by apply extends_new|by eapply settled_new|].
    apply (read_alloc v h). }
  unfold argument. destruct (choose seen v) as [r|]; [|done].
  case_bool_decide as Hr; [|done]. destruct Hr as [Hin Hr].
  apply list_elem_of_fmap in Hin as (rv & -> & Hin).
  exists rv.1, h, u. split_and!; [done|by apply extends_refl| |done].
  by apply (proj1 (Forall_forall _ _) Hseen).
Qed.

Lemma mem_Get_sim b u s g st k :
  mem_tree_rep b u s g → length k = hsize →
  match do_Get st k g with
  | Ok v => ∃ r, mem_Get st k s = Ok r ∧ settled u r ∧ read (mt_mem s) r = v
  | Err e => mem_Get st k s = Err e
  | Panic => False
  end.
Proof.
  intros [] Hk. destruct st; cbn; unfold KeyedMap_Get; rewrite toFixedKey_ok by done; cbn.
  - pose proof (ss_Get_law _ _ _ _ _ _ mr_nodes0 mr_ok0 Hk) as Hl. by destruct (km_m _ !! k).
  - pose proof (ss_Get_law _ _ _ _ _ _ mr_values0 mr_ok0 Hk) as Hl. by destruct (km_m _ !! k).
Qed.

Lemma mem_Delete_sim b u s g st k o g' :
  mem_tree_rep b u s g → length k = hsize → do_Delete st k g = (o, g') →
  ∃ s', mem_Delete st k s = (o, s') ∧ mem_tree_rep b u s' g'.
Proof.
  intros [] Hk. destruct st; cbn; unfold KeyedMap_Delete; rewrite toFixedKey_ok by done.
  - pose proof (ss_Delete_law _ _ _ _ _ _ mr_nodes0 Hk) as Hl. destruct (km_m _ !! k).
    + destruct Hl as (n' & -> & Hn & Ho). intros [= <- <-]. eexists. split; [done|].
      split; cbn; rewrite ?Ho; done.
    + rewrite Hl. intros [= <- <-]. eexists. split; [done|]. by split.
  - pose proof (ss_Delete_law _ _ _ _ _ _ mr_values0 Hk) as Hl. destruct (km_m _ !! k).
    + destruct Hl as (n' & -> & Hn & Ho). intros [= <- <-]. eexists. split; [done|].
      split; cbn; rewrite ?Ho; done.
    + rewrite Hl. intros [= <- <-]. eexists. split; [done|]. by split.
Qed.

Lemma mem_Set_sim b u s g st k v o g' :
  mem_tree_rep (S b) u s g → length k = hsize → v ≠ [] → fits_uint32 v →
  do_Set st k v g = (o, g') →
  ∃ s' u', mem_Set choose st k v s = (o, s') ∧ mem_tree_rep b u' s' g'.
Proof.
  intros [] Hk Hv Hfit.
  destruct (argument_spec _ v _ _ mr_ok0 mr_seen0) as (r & h1 & u1 & Ea & Hext1 & Hr & <-).
  assert (∀ A (x : A) b m `{LawfulSliceStore hsize A}, ss_rep b (mt_mem s) u x m → ss_rep b h1 u1 x m)
    as Hframe by (intros; eapply ss_frame_law; [done..|set_solver]).
  pose proof (seen_extends _ _ _ _ _ _ Hext1 mr_seen0) as Hseen1.
  pose proof (ext_ok _ _ _ _ _ Hext1) as Hok1.
  unfold mem_Set. rewrite Ea. destruct st; cbn; unfold KeyedMap_Set;
    rewrite toFixedKey_ok by done; intros [= <- <-].
  - destruct (set_beside b h1 u1 (mt_nodes s) (mt_values s) _ _ k r
      (Hframe _ _ _ _ _ _ mr_nodes0) (Hframe _ _ _ _ _ _ mr_values0) mr_disjoint0 Hok1 Hk Hr Hv Hfit)
      as (x' & h2 & u2 & -> & Hext2 & Hx & Hy & Hd).
    eexists _, u2. split; [done|]. split; cbn; try done; [apply Hext2|by eapply seen_extends].
  - destruct (set_beside b h1 u1 (mt_values s) (mt_nodes s) _ _ k r
      (Hframe _ _ _ _ _ _ mr_values0) (Hframe _ _ _ _ _ _ mr_nodes0) (symmetry mr_disjoint0) Hok1 Hk Hr Hv Hfit)
      as (x' & h2 & u2 & -> & Hext2 & Hx & Hy & Hd).
    eexists _, u2. split; [done|]. split; cbn; try done; [apply Hext2|by eapply seen_extends].
Qed.

Lemma see_rep b u s g r :
  mem_tree_rep b u s g → settled u r → mem_tree_rep b u (see r s) g.
Proof. intros [] Hr. split; try done. by constructor. Qed.

(** A program of at most [n] Sets, all of typed data, does on stores of slices
    what it does on the reference stores, unless it panics there. *)
Lemma run_mem_sim (H32 : hsize = 32) {A} (P : prog A) b n u s g o g' (Q : A → Prop) :
  mem_tree_rep (n + b) u s g → sets_le n Q P → sets_typed (VT := arena_values) P g →
  run P g = (o, g') → o ≠ Panic →
  ∃ s' u', run_mem choose P s = (o, s') ∧ mem_tree_rep b u' s' g'.
Proof.
  revert u s g n. induction P as [a|e| |st k c IH|st k v c IH|st k c IH|c IH|r c IH];
    intros u s g n Hrep Hn Ht Hrun Ho;
    rewrite ?run_GetOp, ?run_SetOp, ?run_DeleteOp, ?run_RootOp, ?run_SetRootOp in *;
    cbn -[do_Get do_Set do_Delete] in Hn, Ht; cbn [run_mem].
  1-3: injection Hrun as <- <-; eexists _, u; split; [done|];
    eapply mem_tree_rep_le; [exact Hrep|lia].
  1-3: destruct (decide (length k = hsize)) as [Hk|Hk];
    [|destruct (sim_key_panic st k g Hk) as (EG & ES & ED)].
  - pose proof (mem_Get_sim _ _ _ _ st k Hrep Hk) as Hg. destruct (do_Get st k g) as [v|e|]; [| |done].
    + destruct Hg as (r & -> & Hr & <-). eauto using see_rep.
    + rewrite Hg. eauto.
  - rewrite EG in Hrun. congruence.
  - destruct Ht as [Hd Ht]. destruct n as [|n]; [done|].
    destruct (do_Set st k v g) as [o1 g1] eqn:E.
    destruct (mem_Set_sim (n + b) _ _ _ st k v o1 g1 Hrep Hk) as (s1 & u1 & -> & Hrep1);
      [by destruct st; [apply (node_typed_fits H32)|apply Hd]..|done|].
    destruct o1; [by eauto..|congruence].
  - rewrite ES in Hrun. congruence.
  - destruct (do_Delete st k g) as [o1 g1] eqn:E.
    destruct (mem_Delete_sim _ _ _ _ st k o1 g1 Hrep Hk E) as (s1 & -> & Hrep1).
    destruct o1; [by eauto..|congruence].
  - rewrite ED in Hrun. congruence.
  - rewrite (mr_root _ _ _ _ Hrep). eauto.
  - eapply IH; [|done..]. by destruct Hrep.
Qed.
End sim.
