(* ===== verification/ArenaBulk.v ===== *)
(** * Calls on a tree on arena stores.

    Bulk updates may panic on typed data, when digests collide, but they set
    typed data and at most a number of values and nodes for each pair of the
    batch.  So sequences of all calls are carried over to arena stores. *)

From S2P Require Import Prelude Utils MapStore ArenaMap TreeHasher Effects Proofs Smt Bulk ReadOnly.
From S2P Require Import BulkLists DeepSubTree Merkle Store Compaction Typing TypedTree BulkMap.
From S2P Require Import Calls ArenaTree.

Section typed_bulk.
Context {HS : Hasher} {VT : ValueTyping}.
Implicit Types kvs : list bulkKV.

Definition kv_typed (kv : bulkKV) : Prop := sized kv.1 ∧ kv.2 ≠ [] ∧ value_typed kv.2.

Lemma typed_Crash {A} (Q : A → Prop) : typed_may Crash Q.
Proof. intros g Hg. by split. Qed.

(** A computation of which nothing is known. *)
Lemma typed_lift_any {A B} (o : outcome A) (k : A → prog B) (Q : B → Prop) :
  (∀ a, o = Ok a → typed_may (k a) Q) → typed_may (lift o ≫= k) Q.
Proof.
  intros Hk. eapply (typed_bind _ _ (λ a, o = Ok a)); [by apply typed_lift|]. done.
Qed.

Lemma typed_buildSubtree fuel : ∀ d kvs,
  Forall kv_typed kvs → typed_may (buildSubtree Crash fuel d kvs) sized.
Proof.
  induction fuel as [|fuel IH]; intros d kvs Hkvs; cbn [buildSubtree]; [apply typed_Crash|].
  assert (∀ l, Forall kv_typed l → typed_may (if length l =? 0 then Ret placeholder
    else buildSubtree Crash fuel (S d) l) sized) as Hside.
  { intros l Hl. destruct (length l =? 0); [apply typed_Ret, sized_placeholder|by apply IH]. }
  destruct kvs as [|[p v] [|kv kvs]]; [apply typed_Ret, sized_placeholder| |].
  - apply Forall_cons in Hkvs as [(Hp & Hv & Hv') _]. cbn [fst snd] in *.
    change (digestLeaf p (digestInto v))
      with (hsum (leaf_data p (hsum v)), leaf_data p (hsum v)). cbn beta iota zeta.
    typed_op. typed_op. apply typed_Ret, sized_hsum.
  - apply typed_lift_any. intros k _. cbv zeta.
    eapply typed_bind; [by apply Hside, Forall_take|]. intros l Hl.
    eapply typed_bind; [by apply Hside, Forall_drop|]. intros r Hr.
    change (digestNode l r) with (hsum (node_data l r), node_data l r). cbn beta iota zeta.
    typed_op. apply typed_Ret, sized_hsum.
Qed.

Lemma typed_mergeLeafWithKVs fuel h d n kvs :
  sized h → node_typed d → Forall kv_typed kvs → typed_may (mergeLeafWithKVs Crash fuel h d n kvs) sized.
Proof.
  intros Hh Hd Hkvs. unfold mergeLeafWithKVs. typed_op as [q w] [Hq _]. cbv zeta.
  eapply (typed_bind _ _ (λ _, True)).
  { destruct (_ && _); [|by apply typed_Ret]. apply typed_lift_any. intros kv _. by apply typed_Ret. }
  intros [] _; [by apply typed_Ret|]. typed_op.
  eapply (typed_bind _ _ (Forall kv_typed)); [|intros m Hm; by apply typed_buildSubtree].
  destruct (negb _); [|by apply typed_Ret]. typed_op as v [Hv Hv'].
  apply typed_lift_any. intros k _. apply typed_Ret. repeat apply Forall_app_2.
  - by apply Forall_take.
  - by apply Forall_singleton.
  - by apply Forall_drop.
Qed.

Lemma typed_bulkApplyAtRoot fuel : ∀ h d kvs,
  sized h → Forall kv_typed kvs → typed_may (bulkApplyAtRoot Crash fuel h d kvs) sized.
Proof.
  induction fuel as [|fuel IH]; intros h d kvs Hh Hkvs; cbn [bulkApplyAtRoot]; [apply typed_Crash|].
  destruct (length kvs =? 0); [by apply typed_Ret|].
  destruct (bytes_Equal h placeholder); [by apply typed_buildSubtree|].
  typed_op as x Hx. typed_op. destruct a; [by apply typed_mergeLeafWithKVs|].
  typed_op as [l r] [Hl Hr]. apply typed_lift_any. intros k _. cbv zeta.
  eapply typed_bind; [by apply IH, Forall_take|]. intros l' Hl'.
  eapply typed_bind; [by apply IH, Forall_drop|]. intros r' Hr'.
  destruct (_ && _); [by apply typed_Ret|]. typed_op.
  change (digestNode l' r') with (hsum (node_data l' r'), node_data l' r'). cbn beta iota zeta.
  typed_op. apply typed_Ret, sized_hsum.
Qed.

Lemma settable_default : settable defaultValue.
Proof. by intros []. Qed.

Lemma typed_BulkUpdate keys values :
  Forall settable values → typed_may (BulkUpdate keys values) sized.
Proof.
  intros Hv. assert (∀ kv, kv ∈ zip keys values → settable kv.2) as Hz.
  { intros [k v] Hkv%elem_of_zip_r. by eapply (proj1 (Forall_forall _ _) Hv). }
  unfold BulkUpdate. destruct (negb _); [apply typed_Throw|].
  destruct (length keys =? 0); [apply typed_Root|].
  eapply (typed_bind _ _ (λ _, True)).
  { apply typed_for_each. intros kv Hkv. destruct (bytes_Equal _ _); [|by apply typed_Ret].
    eapply typed_bind; [apply typed_run_may, typed_Update, settable_default|]. intros r _. by apply typed_Ret. }
  intros _ _. cbv zeta. destruct (_ =? 0); [apply typed_Root|]. apply typed_lift_any. intros kvs E.
  typed_op. eapply typed_bind; [apply typed_bulkApplyAtRoot; [done|]|].
  - rewrite dedup_dedup_spec in E. injection E as <-. apply Forall_forall.
    intros kv (kv' & -> & [Hne Hkv]%list_elem_of_filter)%sort_dedup_elem%list_elem_of_fmap.
    assert (kv'.2 ≠ []) as Hne' by (intros E; apply Hne; by rewrite E).
    split_and!; cbn; [apply length_path|done|by apply (Hz kv')].
  - intros r Hr. typed_op. by apply typed_Ret.
Qed.
End typed_bulk.

(** ** How many Sets a bulk update executes *)

(** A computation that is no call of a store. *)
Lemma sets_le_lift {A B} n (R : B → Prop) (o : outcome A) (f : A → prog B) :
  (∀ a, o = Ok a → sets_le n R (f a)) → sets_le n R (lift o ≫= f).
Proof. intros Hf. destruct o; cbn; auto. Qed.

Section bulk_sets.
Context {HS : Hasher}.
Implicit Types kvs : list bulkKV.

Lemma length_take_drop_add {A} k (l : list A) : length (take k l) + length (drop k l) = length l.
Proof. by rewrite <-length_app, take_drop. Qed.

(** One node for each key and bit, and a leaf and a value for each key. *)
Lemma sets_buildSubtree fuel : ∀ d kvs,
  sets_le (length kvs * (fuel + 2)) any (buildSubtree Crash fuel d kvs).
Proof.
  induction fuel as [|fuel IH]; intros d kvs; cbn [buildSubtree]; [done|].
  assert (∀ l, sets_le (length l * (fuel + 2)) any (if length l =? 0 then Ret placeholder
    else buildSubtree Crash fuel (S d) l)) as Hside.
  { intros l. destruct (length l =? 0); [done|apply IH]. }
  destruct kvs as [|[p v] [|kv kvs]]; [done| |].
  - destruct (digestLeaf p (digestInto v)) as [h x].
    eapply (sets_le_seq 1 1); [cbn; lia|apply sets_le_nodes_Set|intros _ _].
    by eapply (sets_le_seq 1 0); [lia|apply sets_le_values_Set|].
  - apply sets_le_lift. intros k _. set (l := (p, v) :: kv :: kvs).
    pose proof (length_take_drop_add k l) as Hl.
    eapply (sets_le_seq (length (take k l) * (fuel + 2)) (length (drop k l) * (fuel + 2) + 1));
      [cbn [length l] in *; nia|apply Hside|intros a _].
    eapply sets_le_bind; [apply Hside|intros b _].
    destruct (digestNode a b). by eapply (sets_le_seq 1 0); [lia|apply sets_le_nodes_Set|].
Qed.

Lemma sets_mergeLeafWithKVs fuel h x d kvs :
  sets_le (S (length kvs) * (fuel + 2)) any (mergeLeafWithKVs Crash fuel h x d kvs).
Proof.
  unfold mergeLeafWithKVs. apply sets_le_lift. intros [q w] _. cbv zeta.
  apply (sets_le_step _ any).
  { destruct (_ && _); [|done]. by apply sets_le_lift. }
  intros [] _; [done|]. apply (sets_le_step _ any); [apply sets_le_Delete|intros _ _].
  apply (sets_le_step _ (λ m : list bulkKV, length m ≤ S (length kvs))).
  - destruct (negb _); [|cbn; lia]. apply (sets_le_step _ any); [apply sets_le_readonly, readonly_Get|].
    intros v _. apply sets_le_lift. intros k _. cbn [sets_le].
    pose proof (length_take_drop_add k kvs). rewrite !length_app. cbn [length]. lia.
  - intros m Hm. eapply sets_le_mono; [apply sets_buildSubtree|nia|done].
Qed.

Lemma sets_bulkApplyAtRoot fuel : ∀ h d kvs,
  sets_le (2 * length kvs * (fuel + 2)) any (bulkApplyAtRoot Crash fuel h d kvs).
Proof.
  induction fuel as [|fuel IH]; intros h d kvs; cbn [bulkApplyAtRoot]; [done|].
  destruct (Nat.eqb_spec (length kvs) 0) as [E|Hne]; [done|].
  destruct (bytes_Equal h placeholder).
  { eapply sets_le_mono; [apply sets_buildSubtree|nia|done]. }
  apply (sets_le_step _ any); [apply sets_le_readonly, readonly_Get|intros x _].
  apply sets_le_lift. intros [] _.
  { eapply sets_le_mono; [apply sets_mergeLeafWithKVs|nia|done]. }
  apply sets_le_lift. intros [l r] _. apply sets_le_lift. intros k _. cbv zeta.
  pose proof (length_take_drop_add k kvs) as Hk.
  eapply (sets_le_seq (2 * length (take k kvs) * (fuel + 2))
    (2 * length (drop k kvs) * (fuel + 2) + 1)); [nia|apply IH|intros l' _].
  eapply sets_le_bind; [apply IH|intros r' _]. destruct (_ && _); [done|].
  apply (sets_le_step _ any); [apply sets_le_Delete|intros _ _].
  destruct (digestNode l' r'). by eapply (sets_le_seq 1 0); [lia|apply sets_le_nodes_Set|].
Qed.

Lemma length_SortStableFunc kvs : length (SortStableFunc kvs) = length kvs.
Proof.
  induction kvs as [|x l IH]; [done|]. cbn [length]. rewrite <-IH. unfold SortStableFunc. cbn [foldr].
  generalize (foldr sort_insert [] l) as k. intros k.
  induction k as [|y k IHk]; [done|]. cbn [sort_insert]. by case_match; cbn [length]; rewrite ?IHk.
Qed.

Lemma length_dedup_spec kvs : length (dedup_spec kvs) ≤ length kvs.
Proof.
  induction kvs as [|x [|y l] IH]; [done..|]. rewrite dedup_spec_cons2.
  case_match; cbn [length] in *; lia.
Qed.

Lemma length_insertions_deletions (kvs : list (bytes * bytes)) :
  length (deletions kvs) + length (insertions kvs) = length kvs.
Proof.
  induction kvs as [|kv kvs IH]; [done|]. unfold deletions, insertions in *.
  rewrite !filter_cons. destruct (decide (bytes_Equal kv.2 defaultValue = true));
    rewrite ?decide_True, ?decide_False by tauto; cbn [length]; lia.
Qed.

Lemma sets_bulk_deletes (kvs : list (bytes * bytes)) :
  sets_le (length (deletions kvs) * (depth + 3)) any (for_each kvs (λ kv,
    if bytes_Equal kv.2 defaultValue then _ ← Delete kv.1; Ret tt else Ret tt)).
Proof.
  induction kvs as [|kv kvs IH]; [done|]. unfold deletions in *. rewrite filter_cons. cbn [for_each].
  destruct (bytes_Equal kv.2 defaultValue) eqn:E.
  - rewrite decide_True by done. cbn [length].
    eapply sets_le_mono; [eapply (sets_le_bind _ _ (depth + 3) _ any); [|intros _ _; apply IH]|lia|done].
    by eapply (sets_le_seq (depth + 3) 0); [lia|apply sets_Update|].
  - rewrite decide_False by done. eapply (sets_le_step _ any); [done|intros _ _; apply IH].
Qed.

Lemma sets_BulkUpdate keys values :
  sets_le (2 * length keys * (depth + 3)) any (BulkUpdate keys values).
Proof.
  unfold BulkUpdate. destruct (Nat.eqb_spec (length keys) (length values)) as [Hlen|]; [|done].
  cbn [negb]. destruct (length keys =? 0); [done|].
  pose proof (length_insertions_deletions (zip keys values)) as Hn.
  rewrite length_zip_with, <-Hlen, Nat.min_id in Hn.
  eapply (sets_le_seq (length (deletions (zip keys values)) * (depth + 3))
    (2 * length (insertions (zip keys values)) * (depth + 3))); [nia|apply sets_bulk_deletes|].
  intros _ _. cbv zeta. destruct (_ =? 0); [done|].
  apply sets_le_lift. intros kvs E. apply (sets_le_step _ any); [done|intros r _].
  rewrite dedup_dedup_spec in E. injection E as <-.
  match goal with |- context [SortStableFunc ?l] => set (kvs := l) end.
  assert (length (dedup_spec (SortStableFunc kvs)) ≤ length (insertions (zip keys values))) as Hle.
  { etrans; [apply length_dedup_spec|]. rewrite length_SortStableFunc. unfold kvs.
    by rewrite length_fmap. }
  eapply (sets_le_seq (2 * length (insertions (zip keys values)) * (depth + 3)) 0); [lia| |done].
  eapply sets_le_mono; [apply sets_bulkApplyAtRoot|nia|done].
Qed.
End bulk_sets.

(** ** Calls *)

Section arena_calls.
Context {HS : Hasher}.

(** The values that a call sets fit into an arena store. *)
Definition call_fits (c : pcall) : Prop :=
  match c with
  | PUpdate _ value => fits_uint32 value
  | PBulkUpdate _ values => Forall fits_uint32 values
  | _ => True
  end.

(** A bound of its Sets. *)
Definition call_cost (c : pcall) : nat :=
  match c with
  | PUpdate _ _ => depth + 3
  | PBulkUpdate keys _ => 2 * length keys * (depth + 3)
  | _ => 0
  end.

Definition calls_cost (cs : list pcall) : nat := sum_list (call_cost <$> cs).

Lemma typed_try_Ret {A B} (P : prog A) (Q : A → Prop) (f : error + A → B) :
  typed_may P Q → typed_may (r ← try P; Ret (f r)) any.
Proof. intros HP. eapply typed_bind; [by apply typed_try|]. intros r _. by apply typed_Ret. Qed.

Lemma typed_call_plain c : call_fits c → typed_may (call_plain c) any.
Proof.
  destruct c as [key value|keys values|key b|key]; intros Hc; cbn [call_plain call_fits] in *.
  - apply (typed_try_Ret _ sized), typed_run_may, typed_Update. by intros _.
  - apply (typed_try_Ret _ sized), typed_BulkUpdate. by eapply Forall_impl; [done|intros v Hv _].
  - apply (typed_try_Ret _ proof_typed). eapply typed_bind; [apply typed_Root|].
    intros r Hr. by apply typed_run_may, typed_doProveForRoot.
  - apply (typed_try_Ret _ (λ _, True)), typed_run_may, typed_Get_method.
Qed.

Lemma typed_calls_plain cs : Forall call_fits cs → typed_may (calls_plain cs) any.
Proof.
  induction 1 as [|c cs Hc Hcs IH]; cbn [calls_plain]; [by apply typed_Ret|].
  eapply typed_bind; [by apply typed_call_plain|]. intros r _.
  eapply typed_bind; [apply IH|]. intros rs _. by apply typed_Ret.
Qed.

Lemma sets_try_Ret {A B} n (P : prog A) (f : error + A → B) :
  sets_le n any P → sets_le n any (r ← try P; Ret (f r)).
Proof.
  intros HP. eapply (sets_le_seq n 0); [lia|by eapply sets_le_try|]. by intros r _.
Qed.

Lemma sets_call_plain c : sets_le (call_cost c) any (call_plain c).
Proof.
  destruct c as [key value|keys values|key b|key]; cbn [call_plain call_cost]; apply sets_try_Ret.
  - apply sets_Update.
  - apply sets_BulkUpdate.
  - apply sets_le_readonly. solve_readonly.
  - apply sets_le_readonly, readonly_smt_Get.
Qed.

Lemma sets_calls_plain cs : sets_le (calls_cost cs) any (calls_plain cs).
Proof.
  induction cs as [|c cs IH]; cbn [calls_plain]; [done|].
  change (calls_cost (c :: cs)) with (call_cost c + calls_cost cs).
  eapply sets_le_bind; [apply sets_call_plain|]. intros r _.
  eapply (sets_le_seq _ 0); [|apply IH|by intros rs _]. lia.
Qed.
End arena_calls.
