(* ===== verification/ShardedArena.v ===== *)
(** * Sharded trees on arena stores.

    The deployment that the performance notes recommend: every shard has arena
    stores.  A sharded tree does on them what it does on reference stores,
    shard by shard, as long as the numbers of their slabs last. *)

From S2P Require Import Prelude Utils MapStore ArenaMap TreeHasher Effects Proofs Smt Bulk Sharded.
From S2P Require Import ShardedSpec ReadOnly DeepSubTree Merkle Store Typing TypedTree Calls ArenaTree ArenaBulk.

(** ** Sequences of calls on a sharded tree *)

(** The goroutines of a bulk update write the shard numbers in the order
    [idx_order] and finish in the order [shard_order]. *)
Inductive scall : Type :=
  | SUpdate (key value : bytes)
  | SBulkUpdate (idx_order : list nat) (shard_order : list nat → list nat)
      (keys values : list bytes)
  | SGet (key : bytes)
  | SRoot.

Section scalls.
Context {HS : Hasher} {N V : Type} `{MapStore N, MapStore V}.

Definition run_scall (c : scall) (s : ShardedSMT N V) : outcome bytes * ShardedSMT N V :=
  match c with
  | SUpdate key value => Sharded_Update key value s
  | SBulkUpdate idx_order shard_order keys values =>
      Sharded_BulkUpdate (replicate (length keys) 0%Z) idx_order shard_order keys values s
  | SGet key => Sharded_Get key s
  | SRoot => (Sharded_Root s, s)
  end.

(** The results in order; a panic ends the program. *)
Fixpoint run_scalls (cs : list scall) (s : ShardedSMT N V) : list (outcome bytes) :=
  match cs with
  | [] => []
  | c :: cs' =>
      match run_scall c s with
      | (Panic, _) => [Panic]
      | (o, s') => o :: run_scalls cs' s'
      end
  end.
End scalls.

Definition scall_fits (c : scall) : Prop :=
  match c with
  | SUpdate _ value => fits_uint32 value
  | SBulkUpdate _ shard_order _ values => Forall fits_uint32 values ∧ ∀ l, shard_order l ≡ₚ l
  | _ => True
  end.

Section arena.
Context {HS : Hasher} (H32 : hsize = 32).

(** A bound of the Sets on each store of each shard. *)
Definition scall_cost (c : scall) : nat :=
  match c with
  | SUpdate _ _ => depth + 3
  | SBulkUpdate _ _ keys _ => 2 * length keys * (depth + 3)
  | _ => 0
  end.

Definition scalls_cost (cs : list scall) : nat := sum_list (scall_cost <$> cs).

Abbreviation arena_sharded := (ShardedSMT ArenaFixedSizeMap ArenaFixedSizeMap).
Abbreviation ref_sharded := (ShardedSMT (KeyedMap hsize) (KeyedMap hsize)).
Implicit Types (sa : arena_sharded) (sg : ref_sharded).

(** The shard [i] has room for the numbers of [bf i] more slabs. *)
Record shards_rel (bf : nat → nat) sa sg : Prop := {
  sr_bits : shardBits sa = shardBits sg;
  sr_length : length (shards sa) = length (shards sg);
  sr_shard i a g : shards sa !! i = Some a → shards sg !! i = Some g →
    arena_tree_rep a g (bf i) ∧ typed g;
}.

Lemma shards_rel_le bf bf' sa sg :
  shards_rel bf sa sg → (∀ i, bf' i ≤ bf i) → shards_rel bf' sa sg.
Proof.
  intros [H1 H2 H3] Hle. constructor; [done..|]. intros i a g Ha Hg.
  destruct (H3 i a g Ha Hg) as [[Hn Hv Hr] Ht]. split; [|done].
  split; [by eapply arena_rep_le..|done].
Qed.

(** A method of one shard. *)
Lemma on_shard_rel {A} bf i (P : prog A) (Q Q' : A → Prop) n b sa sg :
  shards_rel bf sa sg → bf i = n + b → typed_may P Q → sets_le n Q' P →
  ∃ o sa' sg', on_shard i P sa = (o, sa') ∧ on_shard i P sg = (o, sg') ∧
    (o ≠ Panic → shards_rel (λ j, if decide (i = j) then b else bf j) sa' sg').
Proof.
  intros [H1 H2 H3] Hb HP Hn. unfold on_shard.
  destruct (shards sa !! i) as [a|] eqn:Ea.
  2: { apply lookup_ge_None in Ea. rewrite H2 in Ea. apply lookup_ge_None in Ea. rewrite Ea.
       by exists Panic, sa, sg. }
  destruct (shards sg !! i) as [g|] eqn:Eg.
  2: { apply lookup_ge_None in Eg. apply lookup_lt_Some in Ea. lia. }
  destruct (H3 i a g Ea Eg) as [Hrep Hg]. rewrite Hb in Hrep. destruct (HP g Hg) as [Ht Hpost].
  destruct (run P g) as [o g'] eqn:E.
  destruct (run_arena H32 P a g n b o g' Q' Hrep Hn Ht E) as (a' & -> & Ha').
  do 3 eexists. split_and!; [done..|]. intros Ho.
  assert (typed g') as Hg' by (destruct o; [apply Hpost|exact Hpost|done]).
  constructor; cbn [shards shardBits]; [done|by rewrite !length_insert|].
  intros j aj gj Haj Hgj. destruct (decide (i = j)) as [<-|Hne].
  - rewrite list_lookup_insert_eq in Haj by by eapply lookup_lt_Some.
    rewrite list_lookup_insert_eq in Hgj by by eapply lookup_lt_Some.
    by injection Haj as <-; injection Hgj as <-.
  - rewrite list_lookup_insert_ne in Haj by done. rewrite list_lookup_insert_ne in Hgj by done.
    by apply H3.
Qed.

(** The combined root depends on the roots of the shards. *)
Lemma computeRoot_rel bf sa sg : shards_rel bf sa sg → computeRoot sa = computeRoot sg.
Proof.
  intros [_ H2 H3]. unfold computeRoot.
  replace (root <$> shards sa) with (root <$> shards sg); [done|].
  apply list_eq_same_length with (length (shards sg)); [by rewrite length_fmap..|].
  intros i x y _ Hx Hy. rewrite list_lookup_fmap in Hx. rewrite list_lookup_fmap in Hy.
  destruct (shards sg !! i) as [g|] eqn:Eg, (shards sa !! i) as [a|] eqn:Ea; try done.
  injection Hx as <-. injection Hy as <-. by destruct (H3 i a g Ea Eg) as [[] _].
Qed.

(** *** Bulk updates *)

(** The buckets hold at most [n] keys each, and values that fit. *)
Definition buckets_fit (n : nat) (buckets : list (list bytes * list bytes)) : Prop :=
  ∀ i ks vs, buckets !! i = Some (ks, vs) → length ks ≤ n ∧ Forall fits_uint32 vs.

Lemma fill_buckets_fit idxs kvs : ∀ n buckets buckets',
  buckets_fit n buckets → Forall (λ kv, fits_uint32 kv.2) kvs →
  fill_buckets idxs kvs buckets = Ok buckets' → buckets_fit (n + length kvs) buckets'.
Proof.
  revert kvs. induction idxs as [|idx idxs IH]; intros [|[k v] kvs] n bk bk' Hbk Hkvs E;
    cbn [fill_buckets length] in *;
    try (injection E as <-; intros i ks vs Hi; destruct (Hbk i ks vs Hi); split; [lia|done]).
  apply Forall_cons in Hkvs as [Hv Hkvs]. apply bind_inv in E as ([ks0 vs0] & Hidx & E).
  replace (n + S (length kvs)) with (S n + length kvs) by lia. eapply IH; [|done|exact E].
  unfold index in Hidx. destruct (bk !! Z.to_nat idx) as [[ks1 vs1]|] eqn:E1; [|done].
  injection Hidx as -> ->. destruct (Hbk _ _ _ E1) as [Hks Hvs].
  intros i ks vs Hi. destruct (decide (Z.to_nat idx = i)) as [<-|Hne].
  - rewrite list_lookup_insert_eq in Hi by by eapply lookup_lt_Some. injection Hi as <- <-.
    cbn [fst snd]. rewrite length_app. cbn [length]. split; [lia|].
    apply Forall_app_2; [done|by apply Forall_singleton].
  - rewrite list_lookup_insert_ne in Hi by done. destruct (Hbk _ _ _ Hi). split; [lia|done].
Qed.

(** The shards run one after the other, each once. *)
Lemma run_shards_rel n b buckets order :
  buckets_fit n buckets → NoDup order → ∀ bf sa sg e,
  shards_rel bf sa sg → (∀ i, i ∈ order → bf i = 2 * n * (depth + 3) + b) → (∀ i, b ≤ bf i) →
  ∃ o sa' sg', run_shards order buckets sa e = (o, sa') ∧ run_shards order buckets sg e = (o, sg') ∧
    (o ≠ Panic → shards_rel (λ _, b) sa' sg').
Proof.
  intros Hbk. induction 1 as [|i order Hi Hnd IH]; intros bf sa sg e Hrel Hbf Hb; cbn [run_shards].
  { do 3 eexists. split_and!; [done..|]. intros _. by eapply shards_rel_le. }
  destruct (buckets !! i) as [[ks vs]|] eqn:Ei; [|by do 3 eexists].
  destruct (Hbk _ _ _ Ei) as [Hks Hvs].
  destruct (on_shard_rel bf i (BulkUpdate ks vs) sized any (2 * n * (depth + 3)) b sa sg)
    as (o & sa1 & sg1 & -> & -> & Hrel1); [done|apply Hbf; by left|..].
  { apply typed_BulkUpdate. eapply Forall_impl; [exact Hvs|]. by intros v Hv _. }
  { eapply sets_le_mono; [apply sets_BulkUpdate|nia|done]. }
  assert (∀ e', o ≠ Panic → ∃ o' sa' sg', run_shards order buckets sa1 e' = (o', sa') ∧
    run_shards order buckets sg1 e' = (o', sg') ∧ (o' ≠ Panic → shards_rel (λ _, b) sa' sg')) as Hrest.
  { intros e' Ho. eapply IH; [by apply Hrel1| |].
    - intros j Hj. cbv beta. rewrite decide_False by (intros ->; done). apply Hbf. by right.
    - intros j. cbv beta. case_decide; [lia|apply Hb]. }
  destruct o; [by apply Hrest..|by do 3 eexists].
Qed.
(** The buckets of a batch. *)
Lemma batch_buckets_fit idxs keys values m buckets :
  Forall fits_uint32 values →
  fill_buckets idxs (zip keys values) (replicate m ([], [])) = Ok buckets →
  buckets_fit (length keys) buckets.
Proof.
  intros Hvs E.
  assert (buckets_fit (0 + length (zip keys values)) buckets) as Hbk.
  { eapply fill_buckets_fit; [| |exact E].
    - intros i ks vs [[= -> ->] _]%lookup_replicate. split; [cbn; lia|by constructor].
    - apply Forall_forall. intros [k v] Hkv%elem_of_zip_r.
      exact (proj1 (Forall_forall _ _) Hvs v Hkv). }
  intros i ks vs Hi. destruct (Hbk i ks vs Hi) as [Hks Hvs']. split; [|done].
  rewrite length_zip_with in Hks. lia.
Qed.

Lemma Sharded_BulkUpdate_rel b idxs0 idx_order shard_order keys values sa sg :
  Forall fits_uint32 values → (∀ l, shard_order l ≡ₚ l) →
  shards_rel (λ _, 2 * length keys * (depth + 3) + b) sa sg → shards_rel (λ _, b) sa sg →
  ∃ o sa' sg', Sharded_BulkUpdate idxs0 idx_order shard_order keys values sa = (o, sa') ∧
    Sharded_BulkUpdate idxs0 idx_order shard_order keys values sg = (o, sg') ∧
    (o ≠ Panic → shards_rel (λ _, b) sa' sg').
Proof.
  intros Hvs Horder Hrel Hrel0. pose proof (computeRoot_rel _ _ _ Hrel) as Hroot.
  unfold Sharded_BulkUpdate.
  destruct (negb _); [by do 3 eexists|]. rewrite Hroot, (sr_length _ _ _ Hrel), (sr_bits _ _ _ Hrel).
  destruct (length keys =? 0); [by do 3 eexists|]. destruct (length (shards sg) =? 0); [by do 3 eexists|].
  cbv zeta. destruct (mbind _ _) as [bk|e|] eqn:Ebk; [|by do 3 eexists..].
  apply bind_inv in Ebk as (idxs & _ & Ebk).
  destruct (run_shards_rel (length keys) b bk (shard_order (active_shards bk))
    (batch_buckets_fit _ _ _ _ _ Hvs Ebk)) with
    (bf := λ _ : nat, 2 * length keys * (depth + 3) + b) (sa := sa) (sg := sg) (e := @None error)
    as (o & sa' & sg' & -> & -> & Hrel'); [|done..|intros i; cbv beta; lia|].
  { rewrite Horder. apply NoDup_active_shards. }
  assert (∀ e, shards_rel (λ _, b) sa' sg' → ∃ o1 sa1 sg1, (Err (A := bytes) e, sa') = (o1, sa1) ∧
    (Err e, sg') = (o1, sg1) ∧ (o1 ≠ Panic → shards_rel (λ _, b) sa1 sg1)) as Herr
    by (intros e Hr; by do 3 eexists).
  destruct o as [[e|]|e|]; [by apply Herr, Hrel'| |by apply Herr, Hrel'|by do 3 eexists].
  specialize (Hrel' ltac:(done)). exists (computeRoot sg'), sa', sg'.
  by rewrite (computeRoot_rel _ _ _ Hrel').
Qed.

(** A call on trees that are related, with Sets to spare. *)
Lemma run_scall_rel c b sa sg :
  scall_fits c → shards_rel (λ _, scall_cost c + b) sa sg →
  ∃ o sa' sg', run_scall c sa = (o, sa') ∧ run_scall c sg = (o, sg') ∧
    (o ≠ Panic → shards_rel (λ _, b) sa' sg').
Proof.
  intros Hc Hrel. assert (shards_rel (λ _, b) sa sg) as Hrel0.
  { eapply shards_rel_le; [exact Hrel|]. intros i. cbv beta. lia. }
  pose proof (computeRoot_rel _ _ _ Hrel) as Hroot.
  assert (∀ key, shardOf sa key = shardOf sg key) as Hof.
  { intros key. unfold shardOf. by rewrite (sr_bits _ _ _ Hrel). }
  destruct c as [key value|idx_order shard_order keys values|key|]; cbn [run_scall scall_fits scall_cost] in *.
  - unfold Sharded_Update. rewrite Hof.
    destruct (on_shard_rel _ (shardOf sg key) (Update key value) sized any (depth + 3) b sa sg Hrel)
      as (o & sa' & sg' & -> & -> & Hrel'); [done|..].
    { apply typed_run_may, typed_Update. by intros _. }
    { apply sets_Update. }
    assert (o ≠ Panic → shards_rel (λ _, b) sa' sg') as Hrel1.
    { intros Ho. eapply shards_rel_le; [by apply Hrel'|]. intros i. cbv beta. case_decide; lia. }
    destruct o as [r|e|]; [|by do 3 eexists..].
    exists (computeRoot sg'), sa', sg'. specialize (Hrel1 ltac:(done)).
    by rewrite (computeRoot_rel _ _ _ Hrel1).
  - destruct Hc as [Hvs Horder]. by apply Sharded_BulkUpdate_rel.
  - unfold Sharded_Get. rewrite Hof.
    destruct (on_shard_rel _ (shardOf sg key) (Get key) (λ _, True) any 0 b sa sg Hrel)
      as (o & sa' & sg' & -> & -> & Hrel'); [done|..].
    { apply typed_run_may, typed_Get_method. }
    { apply sets_le_readonly, readonly_smt_Get. }
    do 3 eexists. split_and!; [done..|]. intros Ho.
    eapply shards_rel_le; [by apply Hrel'|]. intros i. cbv beta. case_decide; lia.
  - exists (Sharded_Root sg), sa, sg. split_and!; [|done|done]. unfold Sharded_Root. by rewrite Hroot.
Qed.
Lemma run_scalls_rel cs b : ∀ sa sg,
  Forall scall_fits cs → shards_rel (λ _, scalls_cost cs + b) sa sg →
  run_scalls cs sa = run_scalls cs sg.
Proof.
  induction cs as [|c cs IH]; intros sa sg Hcs Hrel; [done|].
  apply Forall_cons in Hcs as [Hc Hcs]. cbn [run_scalls].
  destruct (run_scall_rel c (scalls_cost cs + b) sa sg Hc) as (o & sa' & sg' & -> & -> & Hrel').
  { eapply shards_rel_le; [exact Hrel|]. intros i. unfold scalls_cost. cbn. lia. }
  destruct o; [f_equal..|done]; apply IH; auto.
Qed.

(** Two new trees. *)
Definition new_arena_stores (slabSize : nat) : ArenaFixedSizeMap * ArenaFixedSizeMap :=
  (NewArenaFixedSizeMapWithSlabSize slabSize, NewArenaFixedSizeMapWithSlabSize slabSize).

Definition new_ref_stores : KeyedMap hsize * KeyedMap hsize := (mkKeyedMap ∅, mkKeyedMap ∅).

Lemma NewShardedSMT_rel slabSize count :
  (Z.of_nat slabSize < 2 ^ 32)%Z →
  match NewShardedSMT count (λ _, new_arena_stores slabSize),
        NewShardedSMT count (λ _, new_ref_stores) with
  | Ok sa, Ok sg => shards_rel (λ _, Z.to_nat (2 ^ 32)) sa sg
  | Err e, Err e' => e = e'
  | _, _ => False
  end.
Proof.
  intros Hslab. unfold NewShardedSMT. destruct (_ || _); [done|]. destruct (negb _); [done|].
  constructor; cbn [shards shardBits]; [done|by rewrite !length_fmap|].
  intros i a g Ha Hg. rewrite list_lookup_fmap in Ha. rewrite list_lookup_fmap in Hg.
  destruct (seq _ _ !! i); [|done]. injection Ha as <-. injection Hg as <-.
  split; [split; [by apply arena_rep_new..|done]|].
  split; cbn; [apply map_Forall_empty..|apply length_placeholder].
Qed.
End arena.
