(* ===== verification/ArenaTheorems.v ===== *)
(** * mapstore_arena.go: trees on arena stores. *)

From S2P Require Import Prelude Utils MapStore ArenaMap TreeHasher Effects Proofs Smt Fuzz ReadOnly.
From S2P Require Import Bulk DeepSubTree Merkle Store Spec SmtSpec SmtHolds BulkMap Calls.
From S2P Require Import Typing TypedTree ArenaTree ArenaBulk Sharded ShardedArena.

Section arena.
Context {HS : Hasher}.

(** The new tree of the reference stores. *)
Definition new_reference : refstate := NewSparseMerkleTree (mkKeyedMap ∅) (mkKeyedMap ∅) [].

Lemma typed_new_reference : typed new_reference.
Proof. split; cbn; [apply map_Forall_empty..|apply length_placeholder]. Qed.

Lemma typed_run_updates kvs :
  Forall (λ kv, fits_uint32 kv.2) kvs → typed_post (run_updates kvs) (λ _, True).
Proof.
  intros Hkvs. apply typed_for_each. intros kv Hkv. eapply typed_bind.
  { apply typed_Update. intros _. by eapply (proj1 (Forall_forall _ _) Hkvs). }
  intros r _. by apply typed_Ret.
Qed.

Lemma sets_typed_readonly {A} (P : prog A) g : readonly P → sets_typed P g.
Proof.
  induction P as [| | |st k c IH|st k v c IH|st k c IH|c IH|r c IH]; intros HP;
    cbn -[do_Get do_Set do_Delete] in *; try done.
  - destruct (do_Get st k g); [by apply IH..|done].
  - by apply IH.
Qed.

(** The arena store serves a tree for as long as its uint32 fields last:
    for a hasher of 32 bytes, a tree on two new arena stores gives, for every
    sequence of updates and deletions with values below 2^32 bytes, the
    results, the root and the answers to every later read that the tree on
    reference stores gives, and does not panic, if there are at most
    2^32 / 259 updates, collisions of the hash function included; without
    them, the root is the Merkle root of the map after the updates. *)
Theorem arena_tree_refines slabSize kvs :
  hsize = 32 → (Z.of_nat slabSize < 2 ^ 32)%Z →
  Forall (λ kv, Z.of_nat (length kv.2) < 2 ^ 32)%Z kvs →
  (Z.of_nat (length kvs * (depth + 3)) ≤ 2 ^ 32)%Z →
  let stores := NewArenaFixedSizeMapWithSlabSize slabSize in
  let a := run (run_updates kvs) (NewSparseMerkleTree stores stores []) in
  let g := run (run_updates kvs) new_reference in
  a.1 = g.1 ∧ a.1 ≠ Panic ∧ root a.2 = root g.2 ∧
  (collision_free (history_preimages kvs ∅) → root a.2 = merkle_root (update_all kvs ∅)) ∧
  ∀ key,
    (run (Get key) a.2).1 = (run (Get key) g.2).1 ∧
    (run (Has key) a.2).1 = (run (Has key) g.2).1 ∧
    (run (Prove key) a.2).1 = (run (Prove key) g.2).1 ∧
    (run (ProveUpdatable key) a.2).1 = (run (ProveUpdatable key) g.2).1 ∧
    (run (ProveCompact key) a.2).1 = (run (ProveCompact key) g.2).1.
Proof.
  intros H32 Hslab Hkvs Hlen stores.
  destruct (typed_run_updates kvs Hkvs new_reference typed_new_reference) as [Ht Hpost].
  destruct (run (run_updates kvs) new_reference) as [o' g] eqn:E. cbn [fst snd].
  assert (arena_tree_rep (NewSparseMerkleTree stores stores []) new_reference
    (length kvs * (depth + 3) + 0)) as Hrep.
  { split; [eapply arena_rep_le; [by apply arena_rep_new|lia]..|done]. }
  destruct (run_arena H32 _ _ _ _ _ _ _ _ Hrep (sets_run_updates kvs) Ht E)
    as (a & -> & Ha). cbn [fst snd].
  assert (∀ A (P : prog A), readonly P → (run P a).1 = (run P g).1) as Hread.
  { intros A P HP. destruct (run P g) as [o2 g2] eqn:E2.
    destruct (run_arena H32 P a g 0 0 o2 g2 _ Ha (sets_le_readonly P 0 HP)
      (sets_typed_readonly P g HP) E2) as (a2 & -> & _). done. }
  split_and!; [done|by intros ->|apply Ha| |].
  { intros CF. rewrite (at_root _ _ _ Ha).
    assert (smt_holds new_reference ∅) as Hnew by by apply smt_holds_new.
    destruct (smt_holds_updates kvs _ _ Hnew CF) as (g2 & E2 & Hg2). rewrite E in E2.
    injection E2 as _ ->. by apply smt_holds_root. }
  intros key.
  split_and!; apply Hread; unfold Prove, ProveUpdatable, ProveCompact, ProveCompactForRoot,
    ProveForRoot, ProveUpdatableForRoot; solve_readonly.
Qed.

(** C19: the arena store serves a tree for as long as its uint32 fields last:
    for a hasher of 32 bytes, a tree on two new arena stores gives, for every
    sequence of updates, bulk updates, proofs and reads with values below 2^32
    bytes, the results that the tree on reference stores gives, a panic
    included, and ends at its root, if an update counts as 259 Sets, a pair of
    a batch as 518, and they are at most 2^32; collisions of the hash function
    make no difference.  Without them, the results and the root are those of
    the abstract machine on the empty map, and nothing panics. *)
Theorem arena_calls_refine slabSize cs :
  hsize = 32 → (Z.of_nat slabSize < 2 ^ 32)%Z → Forall call_fits cs →
  (Z.of_nat (calls_cost cs) ≤ 2 ^ 32)%Z →
  let stores := NewArenaFixedSizeMapWithSlabSize slabSize in
  let a := run (calls_plain cs) (NewSparseMerkleTree stores stores []) in
  let g := run (calls_plain cs) new_reference in
  a.1 = g.1 ∧ root a.2 = root g.2 ∧
  (collision_free (calls_preimages cs ∅) →
   a.1 = Ok (calls_spec cs ∅).1 ∧ root a.2 = merkle_root (calls_spec cs ∅).2).
Proof.
  intros H32 Hslab Hcs Hlen stores.
  destruct (typed_calls_plain cs Hcs new_reference typed_new_reference) as [Ht _].
  destruct (run (calls_plain cs) new_reference) as [o g] eqn:E. cbn [fst snd].
  assert (arena_tree_rep (NewSparseMerkleTree stores stores []) new_reference
    (calls_cost cs + 0)) as Hrep.
  { split; [eapply arena_rep_le; [by apply arena_rep_new|lia]..|done]. }
  destruct (run_arena H32 _ _ _ _ _ _ _ _ Hrep (sets_calls_plain cs) Ht E) as (a & -> & Ha).
  cbn [fst snd]. split_and!; [done|apply Ha|]. intros CF. rewrite (at_root _ _ _ Ha).
  assert (smt_holds new_reference ∅) as Hnew by by apply smt_holds_new.
  destruct (smt_holds_calls cs _ _ Hnew CF) as (g2 & E2 & Hg2). rewrite E in E2.
  injection E2 as -> ->. split; [done|]. by apply smt_holds_root.
Qed.

(** C20: sharded trees on arena stores, the recommended deployment: for a hasher
    of 32 bytes, NewShardedSMT with arena stores in every shard accepts the
    shard counts it accepts with reference stores, and every sequence of
    updates, bulk updates, reads and root computations has on it the results
    that it has on reference stores, errors and panics included, in all orders
    in which the goroutines write the shard numbers and the shards finish, as
    long as the values fit and 259 Sets for an update and 518 for each pair of a
    batch are at most 2^32. *)
Theorem sharded_arena_refines slabSize count cs :
  hsize = 32 → (Z.of_nat slabSize < 2 ^ 32)%Z → Forall scall_fits cs →
  (Z.of_nat (scalls_cost cs) ≤ 2 ^ 32)%Z →
  match NewShardedSMT count (λ _, new_arena_stores slabSize),
        NewShardedSMT count (λ _, new_ref_stores) with
  | Ok sa, Ok sg => run_scalls cs sa = run_scalls cs sg
  | Err e, Err e' => e = e'
  | _, _ => False
  end.
Proof.
  intros H32 Hslab Hcs Hlen. pose proof (NewShardedSMT_rel slabSize count Hslab) as Hnew.
  destruct (NewShardedSMT count (λ _, new_arena_stores slabSize)) as [sa|e|],
    (NewShardedSMT count (λ _, new_ref_stores)) as [sg|e'|]; try done.
  apply (run_scalls_rel H32 cs 0 sa sg Hcs). eapply shards_rel_le; [exact Hnew|].
  intros i. cbv beta. lia.
Qed.
End arena.

Lemma arena_tree_refines_witness :
  let kvs := [([x01], [x02]); ([x03], [x04]); ([x01], [])] in
  let a := run (run_updates (HS := sha256_hasher) kvs)
    (NewSparseMerkleTree (HS := sha256_hasher) NewArenaFixedSizeMap NewArenaFixedSizeMap []) in
  let g := run (run_updates (HS := sha256_hasher) kvs) (new_reference (HS := sha256_hasher)) in
  a.1 = g.1 ∧ a.1 ≠ Panic ∧ root a.2 = root g.2.
Proof.
  destruct (arena_tree_refines (HS := sha256_hasher) defaultArenaSlabSize
    [([x01], [x02]); ([x03], [x04]); ([x01], [])]) as (H1 & H2 & H3 & _);
    [reflexivity|reflexivity|repeat constructor|vm_compute; discriminate|].
  exact (conj H1 (conj H2 H3)).
Defined.

Lemma arena_calls_refine_witness :
  let cs := [PUpdate [x01] [x02]; PBulkUpdate [[x03]; [x01]] [[x04]; []]; PGet [x03]] in
  let a := run (calls_plain (HS := sha256_hasher) cs)
    (NewSparseMerkleTree (HS := sha256_hasher) NewArenaFixedSizeMap NewArenaFixedSizeMap []) in
  let g := run (calls_plain (HS := sha256_hasher) cs) (new_reference (HS := sha256_hasher)) in
  a.1 = g.1 ∧ root a.2 = root g.2.
Proof.
  destruct (arena_calls_refine (HS := sha256_hasher) defaultArenaSlabSize
    [PUpdate [x01] [x02]; PBulkUpdate [[x03]; [x01]] [[x04]; []]; PGet [x03]]) as (H1 & H2 & _);
    [reflexivity|reflexivity|repeat constructor|vm_compute; discriminate|].
  exact (conj H1 H2).
Defined.

Definition arena_scalls : list scall :=
  [SUpdate [x01] [x02]; SBulkUpdate [0; 1] reverse [[x03]; [x01]] [[x04]; []]; SGet [x03]; SRoot].

Lemma sharded_arena_refines_witness :
  match NewShardedSMT (HS := sha256_hasher) 2 (λ _, new_arena_stores 64),
        NewShardedSMT (HS := sha256_hasher) 2 (λ _, new_ref_stores) with
  | Ok sa, Ok sg => run_scalls (HS := sha256_hasher) arena_scalls sa = run_scalls arena_scalls sg
  | Err e, Err e' => e = e'
  | _, _ => False
  end.
Proof.
  apply (sharded_arena_refines (HS := sha256_hasher) 64 2 arena_scalls).
  - reflexivity.
  - reflexivity.
  - repeat constructor. intros l. apply reverse_Permutation.
  - vm_compute. discriminate.
Defined.
