(* ===== verification/SliceTheorems.v ===== *)
(** * Trees whose stores hand out slices.

    Nobody overwrites what a store handed out: neither the tree nor the store.
    The arena copies what it is given, so its callers may reuse their buffers,
    where the Go maps keep them; but what it hands out has the rest of the slab
    as capacity, and appending to it overwrites other values. *)

From S2P Require Import Prelude Utils MapStore ArenaMap TreeHasher Effects Proofs Smt Bulk Fuzz.
From S2P Require Import Merkle Store Spec SmtSpec SmtHolds BulkMap Calls Typing TypedTree ArenaTree.
From S2P Require Import ArenaBulk ArenaTheorems Memory SliceStores SliceLaws SliceTree ToyHasher.

Section slices.
Context {HS : Hasher}.

Definition NewMemTree {N V} (n : N) (v : V) : memTree N V := mkMemTree [] n v placeholder [].

Lemma NewMemTree_rep {N V} `{LawfulSliceStore hsize N, LawfulSliceStore hsize V} b (n : N) (v : V) :
  ss_rep b [] [] n ∅ → ss_rep b [] [] v ∅ → mem_tree_rep b [] (NewMemTree n v) new_reference.
Proof.
  intros Hn Hv. split; cbn; try done; [constructor|].
  intros a Ha _. pose proof (ss_owned_law _ _ _ _ _ _ Hn Ha) as Hl. cbn in Hl. lia.
Qed.

(** Calls from a state that corresponds to one of the reference stores. *)
Lemma calls_mem_sim {N V} `{LawfulSliceStore hsize N, LawfulSliceStore hsize V} choose
    (s : memTree N V) u g b cs :
  hsize = 32 → mem_tree_rep (calls_cost cs + b) u s g → typed (VT := arena_values) g →
  Forall call_fits cs → (run (calls_plain cs) g).1 ≠ Panic →
  ∃ u', (run_mem choose (calls_plain cs) s).1 = (run (calls_plain cs) g).1 ∧
    mem_tree_rep b u' (run_mem choose (calls_plain cs) s).2 (run (calls_plain cs) g).2 ∧
    typed (VT := arena_values) (run (calls_plain cs) g).2.
Proof.
  intros H32 Hrep Htyped Hcs Ho. destruct (typed_calls_plain cs Hcs g Htyped) as [Ht Hpost].
  destruct (run (calls_plain cs) g) as [o g'] eqn:E. cbn [fst snd] in *.
  destruct (run_mem_sim choose H32 _ _ _ _ _ _ _ _ _ Hrep (sets_calls_plain cs) Ht E Ho)
    as (s' & u' & -> & Hrep').
  exists u'. split_and!; [done..|]. by destruct o; destruct Hpost.
Qed.

(** C21: the tree may treat what its stores hand out as values: on two new
    stores of slices in one memory, each a SimpleMap, a FixedSizeMap or an arena,
    every sequence of updates, bulk updates, proofs and reads has the results
    that it has on reference stores, if nothing panics there, as long as its
    values and the number of its Sets fit into a uint32, whether its Sets pass new slices
    or some that a store handed out before; and everything that a store handed
    out has at the end the bytes that it had then, so it does not matter when
    the tree or its caller reads it.  Without collisions, the results are those
    of the abstract machine. *)
Theorem slices_refine_values choose n v cs :
  hsize = 32 → new_store n → new_store v → Forall call_fits cs →
  (Z.of_nat (calls_cost cs) ≤ 2 ^ 32)%Z →
  let s := run_mem choose (calls_plain cs) (NewMemTree n v) in
  let g := run (calls_plain cs) new_reference in
  (g.1 ≠ Panic → s.1 = g.1 ∧ mt_root s.2 = root g.2 ∧ seen_stable s.2) ∧
  (collision_free (calls_preimages cs ∅) →
   s.1 = Ok (calls_spec cs ∅).1 ∧ mt_root s.2 = merkle_root (calls_spec cs ∅).2 ∧ seen_stable s.2).
Proof.
  intros H32 Hn Hv Hcs Hcost s g.
  assert (g.1 ≠ Panic → s.1 = g.1 ∧ mt_root s.2 = root g.2 ∧ seen_stable s.2) as Hsim.
  { intros Ho. destruct (calls_mem_sim (H0 := AnyStore_slices H32) (H2 := AnyStore_slices H32)
      choose (NewMemTree n v) [] new_reference 0 cs H32)
      as (u' & E & Hrep & _); [|apply typed_new_reference|done..|].
    { rewrite Nat.add_0_r. apply NewMemTree_rep; by apply new_store_rep. }
    split_and!; [done|apply Hrep|by eapply mem_tree_rep_stable]. }
  split; [done|]. intros CF.
  assert (smt_holds new_reference ∅) as Hnew by by apply smt_holds_new.
  destruct (smt_holds_calls cs _ _ Hnew CF) as (g2 & E2 & Hg2). fold g in E2.
  rewrite E2 in Hsim. cbn [fst snd] in Hsim. destruct Hsim as (-> & -> & Hst); [done|].
  split_and!; [done|by apply smt_holds_root|done].
Qed.

(** ** Who may write *)

(** The caller overwrites arrays of its own: those that no arena owns and that
    nothing handed out lies in. *)
Definition caller_writes (s : memTree SliceArena SliceArena) (h' : memory) : Prop :=
  length h' = length (mt_mem s) ∧
  ∀ a, length (array h' a) = length (array (mt_mem s) a) ∧
    (a ∈ arena_owned (mt_nodes s) ∪ arena_owned (mt_values s) ∪
       list_to_set ((r_array ∘ fst) <$> mt_seen s) → array h' a = array (mt_mem s) a).

Definition with_mem {N V} (h' : memory) (s : memTree N V) : memTree N V :=
  mkMemTree h' (mt_nodes s) (mt_values s) (mt_root s) (mt_seen s).

Lemma arena_slices_memory h h' u sa am :
  arena_slices h u sa am → (∀ a, a ∈ arena_owned sa → array h' a = array h a) →
  arena_slices h' u sa am.
Proof.
  intros [] Hsame. split; try done.
  apply Forall2_same_length_lookup_2; [by eapply Forall2_length|]. intros i r sl Hr Hsl.
  assert (array h' (r_array r) = array h (r_array r)) as Ea
    by (apply Hsame, elem_of_arena_owned; eauto using list_elem_of_lookup_2).
  destruct (Forall2_lookup_lr _ _ _ _ _ _ as_slabs Hr Hsl). by split; rewrite ?Ea.
Qed.

Section arena.
Context (H32 : hsize = 32).
#[local] Instance hsize_arena : LawfulSliceStore hsize SliceArena := Arena_slices H32.
Implicit Types s : memTree SliceArena SliceArena.

Lemma caller_writes_rep b u s g h' :
  mem_tree_rep b u s g → caller_writes s h' → mem_tree_rep b u (with_mem h' s) g.
Proof.
  intros [Hok (am & Hn & Hnr) (am' & Hv & Hvr) Hd Hr Hs] [Hlen Hw]. split; cbn; try done.
  - apply Forall2_same_length_lookup_2; [by rewrite Hlen, <-(mem_ok_length _ _ Hok)|].
    intros a n l Hn' Hl. destruct (mem_ok_array _ _ _ _ Hok Hn') as [_ Hle].
    rewrite <-(proj1 (Hw a)) in Hle. unfold array in Hle. by rewrite Hl in Hle.
  - exists am. split; [|done]. apply (arena_slices_memory (mt_mem s)); [done|].
    intros a Ha. apply Hw. set_solver.
  - exists am'. split; [|done]. apply (arena_slices_memory (mt_mem s)); [done|].
    intros a Ha. apply Hw. set_solver.
  - apply Forall_forall. intros rv Hin. destruct (proj1 (Forall_forall _ _) Hs rv Hin) as [Hset <-].
    split; [done|]. unfold read. rewrite (proj2 (Hw (r_array rv.1))); [done|].
    apply elem_of_union_r, elem_of_list_to_set. by apply (list_elem_of_fmap_2 (r_array ∘ fst)).
Qed.

(** C22: the arena copies what it is given: between two sequences of calls on a
    tree on new arena stores the caller may overwrite its own buffers as it
    likes, the values it passed to Update and BulkUpdate included, anything that
    the stores do not own and did not hand out.  The later calls have the
    results that they have on reference stores, which keep values, and what was
    handed out, before or after, is unchanged.  (With SimpleMap they do not:
    [simple_map_keeps_buffers].) *)
Theorem arena_callers_reuse_buffers choose slabSize cs1 cs2 h' :
  (Z.of_nat slabSize < 2 ^ 32)%Z → Forall call_fits cs1 → Forall call_fits cs2 →
  (Z.of_nat (calls_cost cs1 + calls_cost cs2) ≤ 2 ^ 32)%Z →
  let stores := NewSliceArena slabSize in
  let s1 := run_mem choose (calls_plain cs1) (NewMemTree stores stores) in
  let s2 := run_mem choose (calls_plain cs2) (with_mem h' s1.2) in
  let g1 := run (calls_plain cs1) new_reference in
  let g2 := run (calls_plain cs2) g1.2 in
  caller_writes s1.2 h' → g1.1 ≠ Panic → g2.1 ≠ Panic →
  s1.1 = g1.1 ∧ s2.1 = g2.1 ∧ mt_root s2.2 = root g2.2 ∧ seen_stable s2.2.
Proof.
  intros Hslab Hcs1 Hcs2 Hcost stores s1 s2 g1 g2 Hw Hg1 Hg2.
  assert (ss_rep (calls_cost cs1 + calls_cost cs2) [] [] stores ∅) as Hnew
    by (apply arena_slices_new; lia).
  destruct (calls_mem_sim choose _ _ _ (calls_cost cs2) cs1 H32
    (NewMemTree_rep _ _ _ Hnew Hnew) typed_new_reference Hcs1 Hg1) as (u1 & E1 & Hrep1 & Ht1).
  pose proof (caller_writes_rep _ _ _ _ _ Hrep1 Hw) as Hrep1'.
  rewrite <-(Nat.add_0_r (calls_cost cs2)) in Hrep1'.
  destruct (calls_mem_sim choose _ _ _ 0 cs2 H32 Hrep1' Ht1 Hcs2 Hg2) as (u2 & E2 & Hrep2 & _).
  split_and!; [done|done|apply Hrep2|by eapply mem_tree_rep_stable].
Qed.
End arena.
End slices.

(** ** Capacity *)

(** What the arena hands out has the rest of the slab as capacity: when the
    entry of [k2] follows that of [k1] in a slab, as after two Sets in a row, a
    caller that appends to the slice that Get returned for [k1] is given the
    value of [k1] with the appended bytes, and the value that the store has for
    [k2] starts with these bytes from then on. *)
Theorem arena_append_overwrites b h u am m k1 k2 e1 e2 v1 v2 w :
  ss_rep (LawfulSliceStore := Arena_slices eq_refl) b h u am m → mem_ok h u →
  length k1 = 32 → length k2 = 32 → m !! k1 = Some v1 → m !! k2 = Some v2 →
  sa_m am !! k1 = Some e1 → sa_m am !! k2 = Some e2 →
  slab e2 = slab e1 → off e2 = (off e1 + ln e1)%Z → length w ≤ length v2 →
  ∃ g1 g2, ss_Get k1 am = Ok g1 ∧ read h g1 = v1 ∧ ss_Get k2 am = Ok g2 ∧ read h g2 = v2 ∧
    let '(g, h') := append g1 w h in
    read h' g = v1 ++ w ∧ read h' g2 = w ++ drop (length w) v2.
Proof.
  intros (ar & Hs & Hr) Hok Hk1 Hk2 Hv1 Hv2 He1 He2 Hslab Hoff Hw.
  destruct (arena_entry_slice h u am ar m b k1 e1 v1 Hs Hr Hk1 He1 Hv1)
    as (s & Hs1 & E1 & _ & R1 & O1 & L1 & B1 & Hcap & [n Hn]).
  destruct (arena_entry_slice h u am ar m b k2 e2 v2 Hs Hr Hk2 He2 Hv2)
    as (s2 & Hs2 & E2 & _ & R2 & O2 & _ & B2 & _).
  rewrite Hslab, Hs1 in Hs2. injection Hs2 as <-.
  destruct (mem_ok_array _ _ _ _ Hok Hn) as [Ha _].
  set (g1 := mkRef _ (Z.to_nat (off e1)) _ _) in *. set (g2 := mkRef _ (Z.to_nat (off e2)) _ _) in *.
  exists g1, g2. split_and!; [done..|].
  pose proof (read_append g1 w h Ha B1) as Happ. rewrite R1 in Happ.
  assert (append g1 w h = (mkRef (r_array g1) (r_off g1) (r_len g1 + length w) (r_cap g1),
    write g1 (r_len g1) w h)) as E.
  { unfold append. rewrite (proj2 (Nat.leb_le _ _)); [done|]. cbn. lia. }
  rewrite E in *. split; [exact Happ|]. unfold read at 1. rewrite array_write, !decide_True by done.
  replace (r_off g1 + r_len g1) with (r_off g2) by (cbn; lia).
  rewrite take_drop_overwrite by (cbn; lia).
  f_equal. by rewrite <-R2.
Qed.

(** ** Witnesses *)

(** A caller that passes on the last slice with the right bytes that it was
    handed. *)
Definition reuse (seen : list (sref * bytes)) (v : bytes) : option sref :=
  (λ r, r.2.1) <$> list_find (λ gv, gv.2 = v) seen.

Definition slice_calls : list pcall :=
  [PUpdate [x01] [x02]; PBulkUpdate [[x03]; [x01]; [x04]] [[x04]; []; [x02]]; PProve [x03] true;
   PGet [x04]].

Lemma slices_refine_values_witness :
  let s := run_mem reuse (calls_plain (HS := sha256_hasher) slice_calls)
    (NewMemTree (HS := sha256_hasher) (AnyArena (NewSliceArena 64)) (AnySimpleMap (mkSliceMap ∅))) in
  let g := run (calls_plain (HS := sha256_hasher) slice_calls)
    (new_reference (HS := sha256_hasher)) in
  s.1 = g.1 ∧ mt_root s.2 = root g.2 ∧ seen_stable s.2.
Proof.
  refine (proj1 (slices_refine_values (HS := sha256_hasher) reuse
    (AnyArena (NewSliceArena 64)) (AnySimpleMap (mkSliceMap ∅)) slice_calls _ _ _ _ _) _).
  - reflexivity.
  - by constructor.
  - constructor.
  - repeat constructor.
  - vm_compute. discriminate.
  - vm_compute. discriminate.
Defined.

(** The caller overwrites one array with other bytes. *)
Lemma caller_writes_alter s a f :
  (∀ l, length (f l) = length l) →
  a ∉ arena_owned (mt_nodes s) ∪ arena_owned (mt_values s) ∪
    (list_to_set ((r_array ∘ fst) <$> mt_seen s) : gset nat) →
  caller_writes s (alter f a (mt_mem s)).
Proof.
  intros Hf Ha. split; [apply length_alter|]. intros a'. unfold array.
  destruct (decide (a = a')) as [<-|Hne].
  - rewrite list_lookup_alter_eq. split; [|done]. destruct (mt_mem s !! a); cbn; [apply Hf|done].
  - by rewrite list_lookup_alter_ne.
Qed.

(** After an update, the array of the caller's value is the third. *)
Abbreviation arena_updated := (
  (run_mem reuse (calls_plain (HS := sha256_hasher) [PUpdate [x01] [x02; x03]])
    (NewMemTree (HS := sha256_hasher) (NewSliceArena 64) (NewSliceArena 64))).2).

Definition scribble (l : bytes) : bytes := replicate (length l) xff.

Lemma arena_callers_reuse_buffers_witness :
  array (mt_mem arena_updated) 2 = [x02; x03] ∧
  let s2 := run_mem reuse (calls_plain (HS := sha256_hasher) [PGet [x01]])
    (with_mem (alter scribble 2 (mt_mem arena_updated)) arena_updated) in
  let g1 := run (calls_plain (HS := sha256_hasher) [PUpdate [x01] [x02; x03]])
    (new_reference (HS := sha256_hasher)) in
  let g2 := run (calls_plain (HS := sha256_hasher) [PGet [x01]]) g1.2 in
  s2.1 = g2.1 ∧ mt_root s2.2 = root g2.2 ∧ seen_stable s2.2.
Proof.
  split; [vm_compute; reflexivity|].
  refine (proj2 (arena_callers_reuse_buffers (HS := sha256_hasher) eq_refl reuse 64
    [PUpdate [x01] [x02; x03]] [PGet [x01]] (alter scribble 2 (mt_mem arena_updated))
    _ _ _ _ _ _ _)).
  - reflexivity.
  - repeat constructor.
  - repeat constructor.
  - vm_compute. discriminate.
  - refine (caller_writes_alter arena_updated 2 scribble _ _); [intros l; apply length_replicate|].
    apply (bool_decide_unpack _). vm_compute. exact I.
  - vm_compute. discriminate.
  - vm_compute. discriminate.
Defined.

(** The Go maps keep the slice they are given: a caller that reuses the buffer
    of a value changes what the tree holds, under the root it had. *)
Example simple_map_keeps_buffers :
  let run_toy cs s := run_mem reuse (calls_plain (HS := toy) cs) s in
  let s := (run_toy [PUpdate [x01] [x02; x03]]
    (NewMemTree (HS := toy) (mkSliceMap ∅) (mkSliceMap ∅))).2 in
  array (mt_mem s) 1 = [x02; x03] ∧
  (run_toy [PGet [x01]] s).1 = Ok [PValue (inr [x02; x03])] ∧
  (run_toy [PGet [x01]] (with_mem (alter scribble 1 (mt_mem s)) s)).1 = Ok [PValue (inr [xff; xff])].
Proof. vm_compute. split_and!; reflexivity. Qed.

(** Two Sets on a new arena, of slices of the caller. *)
Definition buffers : memory := [[x01]; [x02; x03]].

Definition set_once : outcome unit * SliceArena * memory :=
  ss_Set (arena_key x00) (mkRef 0 0 1 1) (NewSliceArena 64) buffers.

Definition set_twice : outcome unit * SliceArena * memory :=
  ss_Set (arena_key x01) (mkRef 1 0 2 2) set_once.1.2 set_once.2.

Lemma set_twice_rep :
  ∃ u, ss_rep (LawfulSliceStore := Arena_slices eq_refl) 0 set_twice.2 u set_twice.1.2
      (<[arena_key x01 := [x02; x03]]> {[arena_key x00 := [x01]]}) ∧ mem_ok set_twice.2 u.
Proof.
  assert (extends ∅ [] [] buffers [1; 2]) as Hext.
  { split; [by repeat (apply Forall2_cons; split; [cbn; lia|])|cbn; lia|by intros a n E; rewrite lookup_nil in E]. }
  assert (ss_rep (LawfulSliceStore := Arena_slices eq_refl) 2 buffers [1; 2] (NewSliceArena 64) ∅)
    as Hrep.
  { eapply (ss_frame_law (LawfulSliceStore := Arena_slices eq_refl));
      [by apply arena_slices_new|exact Hext|set_solver]. }
  destruct (ss_Set_law (LawfulSliceStore := Arena_slices eq_refl) _ _ _ _ _ (arena_key x00)
    (mkRef 0 0 1 1) Hrep (ext_ok _ _ _ _ _ Hext)) as (am1 & h1 & u1 & E1 & Hext1 & Hrep1 & _);
    [done|unfold settled; cbn; lia|done|done|].
  destruct (ss_Set_law (LawfulSliceStore := Arena_slices eq_refl) _ _ _ _ _ (arena_key x01)
    (mkRef 1 0 2 2) Hrep1 (ext_ok _ _ _ _ _ Hext1)) as (am2 & h2 & u2 & E2 & Hext2 & Hrep2 & _);
    rewrite ?(read_extends _ _ _ _ _ (mkRef 1 0 2 2) Hext1) in * by (unfold settled; cbn; lia);
    [done|eapply settled_extends; [exact Hext1|unfold settled; cbn; lia]|done|done|].
  exists u2. unfold set_twice. change (ss_Set (arena_key x00) _ _ buffers) with set_once in E1.
  rewrite E1. cbn [fst snd]. rewrite E2. split; [exact Hrep2|apply Hext2].
Qed.

Lemma arena_append_overwrites_witness :
  ∃ g1 g2, ss_Get (arena_key x00) set_twice.1.2 = Ok g1 ∧ read set_twice.2 g1 = [x01] ∧
    ss_Get (arena_key x01) set_twice.1.2 = Ok g2 ∧ read set_twice.2 g2 = [x02; x03] ∧
    let '(g, h') := append g1 [xff] set_twice.2 in
    read h' g = [x01] ++ [xff] ∧ read h' g2 = [xff] ++ drop (length [xff]) [x02; x03].
Proof.
  destruct set_twice_rep as (u & Hrep & Hok).
  apply (arena_append_overwrites 0 set_twice.2 u set_twice.1.2
    (<[arena_key x01 := [x02; x03]]> {[arena_key x00 := [x01]]}) (arena_key x00) (arena_key x01)
    (mkEntry 0 0 1) (mkEntry 0 1 2) [x01] [x02; x03] [xff] Hrep Hok).
  1-6: by vm_compute.
  all: cbn; lia.
Defined.
