(* ===== verification/SmtTheorems.v ===== *)
(** * smt.go: what the tree guarantees.

    The theorems hold for every hasher and every pair of lawful stores; the
    hypothesis [collision_free] names exactly the strings that are hashed. *)

From S2P Require Import Prelude Utils MapStore TreeHasher Effects Proofs Smt ReadOnly.
From S2P Require Import Bulk Trie Merkle Store SmtUpdate Spec SmtSpec SmtHolds BulkMap Calls ToyHasher.

Section lawful.
Context {HS : Hasher}.
Context {N V : Type} `{LawfulMapStore hsize N} `{LawfulMapStore hsize V}.
Implicit Types (s : SparseMerkleTree N V) (m : gmap bytes bytes).

(** C1: Update of a tree that holds a map returns, without error or panic,
    the Merkle root of the updated map, and the tree then holds that map:
    its node store is the set of nodes of that map's tree, nothing less and
    nothing more, its value store is the map, its root the new root.  An
    update with the default value deletes. *)
Theorem Update_correct s m key value :
  smt_holds s m →
  collision_free (map_preimages m ∪ map_preimages (update_map key value m)) →
  ∃ s', run (Update key value) s = (Ok (merkle_root (update_map key value m)), s') ∧
        smt_holds s' (update_map key value m).
Proof. apply smt_holds_update. Qed.

(** Delete removes the key and nothing else: it returns the Merkle root
    of the map without the key, which the tree then holds; a key that is
    absent leaves the map as it was. *)
Theorem Delete_correct s m key :
  smt_holds s m →
  collision_free (map_preimages m ∪ map_preimages (delete (path key) m)) →
  ∃ s', run (Delete key) s = (Ok (merkle_root (delete (path key) m)), s') ∧
        smt_holds s' (delete (path key) m).
Proof.
  intros Hs CF. apply smt_holds_run with m; [done|apply valid_map_delete, Hs|].
  eapply (run_Update _ CF key defaultValue); [apply Hs|set_solver..].
Qed.

(** C4: a tree implements the abstract machine whose state is a map alone:
    every sequence of updates, bulk updates, proofs and reads on a tree that
    holds a map has the results that the machine gives, in order, the error of
    a malformed batch included, and leads to a tree that holds the machine's
    map, with its Merkle root. *)
Theorem calls_correct cs s m :
  smt_holds s m → collision_free (calls_preimages cs m) →
  let '(results, m') := calls_spec cs m in
  ∃ s', run (calls_plain cs) s = (Ok results, s') ∧ smt_holds s' m' ∧ root s' = merkle_root m'.
Proof.
  intros Hs CF. destruct (smt_holds_calls cs s m Hs CF) as (s' & E & Hs').
  destruct (calls_spec cs m) as [rs m']. exists s'. eauto using smt_holds_root.
Qed.

(** A sequence of updates and deletions on a tree that holds a map
    succeeds, and leads to a tree that holds the map updated in order. *)
Theorem update_sequence_correct kvs s m :
  smt_holds s m → collision_free (history_preimages kvs m) →
  ∃ s', run (run_updates kvs) s = (Ok tt, s') ∧ smt_holds s' (update_all kvs m) ∧
        root s' = merkle_root (update_all kvs m).
Proof.
  intros Hs CF. destruct (smt_holds_updates kvs s m Hs CF) as (s' & E & Hs').
  exists s'. eauto using smt_holds_root.
Qed.

(** C6: the root depends on the map alone: two histories of updates and
    deletions from new trees that produce the same map end, with no error,
    at the same root and with stores that hold the same entries. *)
Theorem history_independent (nodes : N) (values : V) kvs1 kvs2 :
  ms_rep nodes ∅ → ms_rep values ∅ →
  update_all kvs1 ∅ = update_all kvs2 ∅ →
  collision_free (history_preimages kvs1 ∅) → collision_free (history_preimages kvs2 ∅) →
  ∃ s1 s2,
    run (run_updates kvs1) (NewSparseMerkleTree nodes values []) = (Ok tt, s1) ∧
    run (run_updates kvs2) (NewSparseMerkleTree nodes values []) = (Ok tt, s2) ∧
    root s1 = root s2 ∧
    ∃ ns vs, ms_rep (Effects.nodes s1) ns ∧ ms_rep (Effects.nodes s2) ns ∧
             ms_rep (Effects.values s1) vs ∧ ms_rep (Effects.values s2) vs.
Proof.
  intros Hn Hv Heq CF1 CF2. pose proof (smt_holds_new nodes values Hn Hv) as Hnew.
  destruct (smt_holds_updates kvs1 _ _ Hnew CF1) as (s1 & E1 & Hs1).
  destruct (smt_holds_updates kvs2 _ _ Hnew CF2) as (s2 & E2 & Hs2). rewrite <-Heq in Hs2.
  exists s1, s2. split_and!; [done|done| |].
  - by rewrite (smt_holds_root _ _ Hs1), (smt_holds_root _ _ Hs2).
  - destruct Hs1 as [_ [??]], Hs2 as [_ [??]]. eauto 10.
Qed.

(** Nothing is leaked: when a history from a new tree ends with every
    key deleted, the root is the placeholder and both stores are empty. *)
Theorem deleted_keys_leave_nothing (nodes : N) (values : V) kvs :
  ms_rep nodes ∅ → ms_rep values ∅ → update_all kvs ∅ = ∅ →
  collision_free (history_preimages kvs ∅) →
  ∃ s, run (run_updates kvs) (NewSparseMerkleTree nodes values []) = (Ok tt, s) ∧
       root s = placeholder ∧ ms_rep (Effects.nodes s) ∅ ∧ ms_rep (Effects.values s) ∅.
Proof.
  intros Hn Hv Heq CF. pose proof (smt_holds_new nodes values Hn Hv) as Hnew.
  destruct (smt_holds_updates kvs _ _ Hnew CF) as (s & E & [_ Hs]). rewrite Heq in Hs.
  unfold map_state, merkle_root, tree_state, store_of, set_to_map in Hs.
  rewrite tree_of_empty in Hs. cbn [dataset] in Hs. rewrite elements_empty in Hs.
  destruct Hs. eauto.
Qed.

(** Get returns the value of the key, the empty value when it is
    absent, and changes nothing. *)
Theorem Get_correct s m key :
  smt_holds s m → collision_free (map_preimages m) →
  run (Get key) s = (Ok (default [] (m !! path key)), s).
Proof. apply smt_holds_get. Qed.

(** Has tells whether the key is present, and changes nothing. *)
Theorem Has_correct s m key :
  smt_holds s m → collision_free (map_preimages m) →
  run (Has key) s = (Ok (bool_decide (is_Some (m !! path key))), s).
Proof.
  intros Hs CF. eapply smt_holds_read; [done|auto with readonly|].
  eapply run_Has; [exact CF|apply Hs|done].
Qed.

(** A Get after an Update returns the new value for the updated key and
    the old value for every key of another path. *)
Theorem Update_then_Get s m key value key' :
  smt_holds s m →
  collision_free (map_preimages m ∪ map_preimages (update_map key value m)) →
  (run (_ ← Update key value; Get key') s).1 =
    if decide (path key = path key') then Ok value else (run (Get key') s).1.
Proof.
  intros Hs CF.
  assert (run (Get key') s = (Ok (map_value m key'), s)) as ->.
  { eapply smt_holds_read; [done|auto with readonly|].
    eapply run_Get; [exact CF|apply Hs|set_solver]. }
  assert (run (_ ← Update key value; Get key') (map_state m (merkle_root m)) =
    (Ok (map_value (update_map key value m) key'),
     map_state (update_map key value m) (merkle_root (update_map key value m)))) as E.
  { erewrite run_bind_Ok by (eapply run_Update; [exact CF|apply Hs|set_solver..]).
    eapply run_Get; [exact CF|by apply valid_map_update, Hs|set_solver]. }
  destruct (smt_holds_run _ s m _ _ Hs (valid_map_update key value m (proj1 Hs)) E)
    as (s' & -> & _). cbn [fst].
  case_decide as Hk; f_equal.
  - unfold map_value. rewrite <-Hk. apply map_value_update_same.
  - by apply map_value_update_other.
Qed.

(** An insertion is undone by a deletion: after Update of an absent key
    and Delete of it the tree holds the same map, with the same root. *)
Theorem Update_then_Delete s m key value :
  smt_holds s m → m !! path key = None →
  collision_free (map_preimages m ∪ map_preimages (update_map key value m)) →
  ∃ s', run (_ ← Update key value; Delete key) s = (Ok (root s), s') ∧ smt_holds s' m ∧
        root s' = root s.
Proof.
  intros Hs Hk CF.
  assert (update_map key defaultValue (update_map key value m) = m) as Hm.
  { unfold update_map, bytes_Equal. rewrite (bool_decide_true (defaultValue = _)) by done.
    case_bool_decide; [rewrite delete_delete_eq|rewrite delete_insert_eq]; by apply delete_id. }
  destruct (smt_holds_run (_ ← Update key value; Delete key) s m (merkle_root m) m Hs (proj1 Hs))
    as (s' & E & Hs').
  - erewrite run_bind_Ok by (eapply run_Update; [exact CF|apply Hs|set_solver..]).
    unfold Delete. rewrite <-Hm at 3 4 5. eapply run_Update; [exact CF|..].
    + by apply valid_map_update, Hs.
    + set_solver.
    + rewrite Hm. set_solver.
  - exists s'. rewrite (smt_holds_root _ _ Hs). split_and!; [done|done|].
    by apply smt_holds_root.
Qed.

(** C25: one root means the same answers.  Two new trees on which any
    sequences of updates, bulk updates, proofs and reads were called have one
    root exactly when Get answers every key alike on both, unless the strings
    that were hashed collide. *)
Theorem equal_roots_equal_reads (nodes1 nodes2 : N) (values1 values2 : V) cs1 cs2 :
  ms_rep nodes1 ∅ → ms_rep values1 ∅ → ms_rep nodes2 ∅ → ms_rep values2 ∅ →
  collision_free (calls_preimages cs1 ∅ ∪ map_preimages (calls_spec cs1 ∅).2 ∪
                  (calls_preimages cs2 ∅ ∪ map_preimages (calls_spec cs2 ∅).2)) →
  let s1 := (run (calls_plain cs1) (NewSparseMerkleTree nodes1 values1 [])).2 in
  let s2 := (run (calls_plain cs2) (NewSparseMerkleTree nodes2 values2 [])).2 in
  root s1 = root s2 ↔ ∀ key, (run (Get key) s1).1 = (run (Get key) s2).1.
Proof.
  intros Hn1 Hv1 Hn2 Hv2 CF.
  assert (∀ (n : N) (v : V) cs, ms_rep n ∅ → ms_rep v ∅ →
    collision_free (calls_preimages cs ∅ ∪ map_preimages (calls_spec cs ∅).2) →
    let s := (run (calls_plain cs) (NewSparseMerkleTree n v [])).2 in
    let m := (calls_spec cs ∅).2 in
    smt_holds s m ∧ keyed m ∧ ∀ key, (run (Get key) s).1 = Ok (map_value m key)) as Hcs.
  { intros n v cs Hn Hv CFc s m.
    destruct (smt_holds_calls cs _ ∅ (smt_holds_new n v Hn Hv)) as (s' & E & Hs').
    { eapply collision_free_mono; [|exact CFc]. apply union_subseteq_l. }
    subst s. rewrite E. cbn [snd]. split_and!; [done|apply keyed_calls, keyed_empty|]. intros key.
    rewrite (smt_holds_get _ _ key Hs'); [done|].
    eapply collision_free_mono; [|exact CFc]. apply union_subseteq_r. }
  destruct (Hcs nodes1 values1 cs1 Hn1 Hv1) as (Hs1 & K1 & G1);
    [eapply collision_free_mono; [apply union_subseteq_l|exact CF]|].
  destruct (Hcs nodes2 values2 cs2 Hn2 Hv2) as (Hs2 & K2 & G2);
    [eapply collision_free_mono; [apply union_subseteq_r|exact CF]|].
  cbn zeta. rewrite (smt_holds_root _ _ Hs1), (smt_holds_root _ _ Hs2). split.
  - intros Heq%merkle_root_inj; [intros key; by rewrite G1, G2, Heq|apply Hs1|apply Hs2|].
    eapply collision_free_mono; [|exact CF]. clear. set_solver.
  - intros Heq. f_equal. apply map_value_ext; [apply Hs1|apply Hs2|done..|].
    intros key. specialize (Heq key). rewrite G1, G2 in Heq. by injection Heq.
Qed.

(** C39: UpdateForRoot returns the root field of the tree instead of the root
    it was asked for when the key already has the value: at the root of any
    stored map, and whatever the root field [r] is, an update with the value
    that the key has in that map returns [r].  The right answer is the root it
    was given: the update leaves the map, and the stores, as they are. *)
Theorem UpdateForRoot_same_value_wrong_root s m r key value :
  valid_map m → tree_rep s (map_state m r) → collision_free (map_preimages m) →
  m !! path key = Some value →
  ∃ s', run (UpdateForRoot key value (merkle_root m)) s = (Ok r, s') ∧
        tree_rep s' (map_state m r) ∧ update_map key value m = m.
Proof.
  intros Hm Hrep CF Hk. destruct (tree_of_spec m Hm) as [W M], (Hm _ _ Hk) as [_ Hv].
  assert (run (UpdateForRoot key value (merkle_root m)) (map_state m r) = (Ok r, map_state m r)) as E.
  { pose proof (run_UpdateForRoot_same _ CF key value Hv (tree_of m) r W (reflexivity _)) as E.
    rewrite M in E. by apply E. }
  destruct (run_sim _ s _ _ _ Hrep E) as (s' & -> & Hrep'); [done|].
  exists s'. split_and!; [done|done|]. unfold update_map, bytes_Equal.
  rewrite bool_decide_false by done. by apply insert_id.
Qed.
End lawful.


(** Reading is pure: Get, Has, Prove, ProveUpdatable and ProveCompact
    leave every tree as it is, whatever its stores hold and whether they
    succeed, fail or panic. *)
Theorem reads_change_nothing {HS : Hasher} {N V} `{MapStore N, MapStore V}
    (s : SparseMerkleTree N V) key r :
  (run (Get key) s).2 = s ∧ (run (Has key) s).2 = s ∧
  (run (ProveForRoot key r) s).2 = s ∧ (run (ProveUpdatableForRoot key r) s).2 = s ∧
  (run (Prove key) s).2 = s ∧ (run (ProveUpdatable key) s).2 = s ∧
  (run (ProveCompact key) s).2 = s.
Proof.
  split_and!; apply readonly_run; unfold Prove, ProveUpdatable, ProveCompact,
    ProveCompactForRoot, ProveForRoot, ProveUpdatableForRoot; solve_readonly.
Qed.

(** Any lawful store will do: when a tree on lawful stores represents a
    tree on the reference store, every program that does not panic there has
    the same outcome on both, and the results correspond again. *)
Theorem stores_are_interchangeable {n : nat} {N V} `{LawfulMapStore n N, LawfulMapStore n V}
    {A} (P : prog A) (s : SparseMerkleTree N V) (g : SparseMerkleTree (KeyedMap n) (KeyedMap n)) :
  tree_rep s g → (run P g).1 ≠ Panic →
  (run P s).1 = (run P g).1 ∧ tree_rep (run P s).2 (run P g).2.
Proof.
  intros Hrep HP. destruct (run P g) as [o g'] eqn:E. cbn [fst snd] in *.
  by destruct (run_sim P s g o g' Hrep E HP) as (s' & -> & Hrep').
Qed.

(** Two calls are enough to see it: the second, with the same arguments but
    at the root that the first returned, answers the placeholder. *)
Example UpdateForRoot_twice :
  let s := NewSparseMerkleTree (HS := toy) NewSimpleMap NewSimpleMap [] in
  let P := r1 ← UpdateForRoot (HS := toy) (toy_bytes 1) (toy_bytes 10) (placeholder (HS := toy));
           r2 ← UpdateForRoot (HS := toy) (toy_bytes 1) (toy_bytes 10) r1;
           Ret (r1, r2) in
  ∃ r, (run P s).1 = Ok (r, placeholder (HS := toy)) ∧ r ≠ placeholder (HS := toy).
Proof. eexists. split; [vm_compute; reflexivity|]. by vm_compute. Qed.

(** An Update that fails keeps the root: on every two stores, failing
    ones included, the tree's root is the root Update returns when it
    succeeds, and the root of before when it ends in an error or a panic,
    whatever the stores and the data in them did. *)
Theorem failed_Update_keeps_root {HS : Hasher} {N V} `{MapStore N, MapStore V}
    (s : SparseMerkleTree N V) key value :
  match run (Update key value) s with
  | (Ok newRoot, s') => root s' = newRoot
  | (Err _, s') | (Panic, s') => root s' = root s
  end.
Proof.
  unfold Update. rewrite run_bind, run_Root, run_bind.
  pose proof (keeps_root_run _ s (keeps_root_UpdateForRoot key value (root s))) as Hr.
  destruct (run _ s) as [[r|e|] s']; [|exact Hr..]. by rewrite run_bind, run_SetRoot.
Qed.

(** The nodes are not kept: here the value store lost the value of a key that
    the tree holds.  Delete of the key returns the store's error after it has
    deleted the nodes of the old root, and the tree can not be proved from. *)
Example failed_Delete_loses_nodes :
  let key := toy_bytes 77 in
  let lost := mkKeyedMap (n := 2) (delete (path (HS := toy) key) (km_m (values toy_state))) in
  let s := mkSMT (nodes toy_state) lost (root toy_state) in
  let '(o, s') := run (Delete (HS := toy) key) s in
  o = Err (InvalidKeyError (path (HS := toy) key)) ∧ root s' = root s ∧
  (run (Prove (HS := toy) (toy_bytes 1)) s).1 ≠ Err (InvalidKeyError (root s)) ∧
  (run (Prove (HS := toy) (toy_bytes 1)) s').1 = Err (InvalidKeyError (root s)).
Proof. vm_compute. split_and!; done. Qed.

(** ** Witnesses *)
Section witnesses.
#[local] Existing Instance toy.
Abbreviation k9 := (toy_bytes 9).
Abbreviation v90 := (toy_bytes 90).

Lemma toy_new_rep : ms_rep (n := 2) (S := SimpleMap) NewSimpleMap ∅.
Proof. reflexivity. Defined.

Lemma Update_correct_witness :
  ∃ s', run (Update k9 v90) toy_state = (Ok (merkle_root (update_map k9 v90 toy_map)), s') ∧
        smt_holds s' (update_map k9 v90 toy_map).
Proof.
  apply Update_correct; [exact toy_state_holds|collision_free_by_compute].
Defined.

Lemma Delete_correct_witness :
  ∃ s', run (Delete (toy_bytes 77)) toy_state =
          (Ok (merkle_root (delete (path (toy_bytes 77)) toy_map)), s') ∧
        smt_holds s' (delete (path (toy_bytes 77)) toy_map).
Proof.
  apply Delete_correct; [exact toy_state_holds|collision_free_by_compute].
Defined.

Definition toy_history : list (bytes * bytes) :=
  toy_kvs [(1, 11); (9, 9); (2, 20)]%Z ++ [(toy_bytes 77, [])].

Definition toy_calls : list pcall :=
  [PUpdate (toy_bytes 1) (toy_bytes 11);
   PBulkUpdate [toy_bytes 2; toy_bytes 9; toy_bytes 77] [[]; toy_bytes 90; toy_bytes 31];
   PProve (toy_bytes 9) true; PBulkUpdate [toy_bytes 5] []; PUpdate (toy_bytes 9) [];
   PProve (toy_bytes 9) false; PGet (toy_bytes 77)].

Lemma calls_correct_witness :
  let '(results, m') := calls_spec (HS := toy) toy_calls toy_map in
  ∃ s', run (calls_plain (HS := toy) toy_calls) toy_state = (Ok results, s') ∧
    smt_holds (HS := toy) s' m' ∧ root s' = merkle_root (HS := toy) m'.
Proof.
  apply (calls_correct (HS := toy) toy_calls toy_state toy_map);
    [exact toy_state_holds|collision_free_by_compute].
Defined.

Lemma update_sequence_correct_witness :
  ∃ s', run (run_updates toy_history) toy_state = (Ok tt, s') ∧
        smt_holds s' (update_all toy_history toy_map) ∧
        root s' = merkle_root (update_all toy_history toy_map).
Proof.
  apply update_sequence_correct; [exact toy_state_holds|collision_free_by_compute].
Defined.

Definition toy_kvs1 : list (bytes * bytes) := toy_kvs [(1, 10); (2, 20)]%Z.
Definition toy_kvs2 : list (bytes * bytes) :=
  toy_kvs [(2, 20); (3, 30); (1, 10)]%Z ++ [(toy_bytes 3, [])].

Lemma history_independent_witness :
  ∃ s1 s2,
    run (run_updates toy_kvs1) (NewSparseMerkleTree NewSimpleMap NewSimpleMap []) = (Ok tt, s1) ∧
    run (run_updates toy_kvs2) (NewSparseMerkleTree NewSimpleMap NewSimpleMap []) = (Ok tt, s2) ∧
    root s1 = root s2 ∧
    ∃ ns vs, ms_rep (n := 2) (nodes s1) ns ∧ ms_rep (n := 2) (nodes s2) ns ∧
             ms_rep (n := 2) (values s1) vs ∧ ms_rep (n := 2) (values s2) vs.
Proof.
  apply (history_independent (HS := toy) (N := SimpleMap) (V := SimpleMap));
    [exact toy_new_rep|exact toy_new_rep|decide_by_compute
    |collision_free_by_compute..].
Defined.

Definition toy_cleared : list (bytes * bytes) :=
  toy_kvs [(2, 20); (3, 30); (1, 10)]%Z ++
  [(toy_bytes 3, []); (toy_bytes 2, []); (toy_bytes 1, [])].

Lemma deleted_keys_leave_nothing_witness :
  ∃ s, run (run_updates toy_cleared) (NewSparseMerkleTree NewSimpleMap NewSimpleMap []) =
         (Ok tt, s) ∧
       root s = placeholder ∧ ms_rep (n := 2) (nodes s) ∅ ∧ ms_rep (n := 2) (values s) ∅.
Proof.
  apply (deleted_keys_leave_nothing (HS := toy) (N := SimpleMap) (V := SimpleMap));
    [exact toy_new_rep|exact toy_new_rep|decide_by_compute
    |collision_free_by_compute].
Defined.

Lemma Get_correct_witness :
  run (Get (toy_bytes 2)) toy_state = (Ok (default [] (toy_map !! path (toy_bytes 2))), toy_state).
Proof. apply Get_correct; [exact toy_state_holds|collision_free_by_compute]. Defined.

Lemma Has_correct_witness :
  run (Has k9) toy_state = (Ok (bool_decide (is_Some (toy_map !! path k9))), toy_state).
Proof. apply Has_correct; [exact toy_state_holds|collision_free_by_compute]. Defined.

Lemma Update_then_Get_witness :
  (run (_ ← Update k9 v90; Get k9) toy_state).1 =
    if decide (path k9 = path k9) then Ok v90 else (run (Get k9) toy_state).1.
Proof. eapply Update_then_Get; [exact toy_state_holds|collision_free_by_compute]. Defined.

Lemma Update_then_Delete_witness :
  ∃ s', run (_ ← Update k9 v90; Delete k9) toy_state = (Ok (root toy_state), s') ∧
        smt_holds s' toy_map ∧ root s' = root toy_state.
Proof.
  apply Update_then_Delete; [exact toy_state_holds|vm_compute; reflexivity
    |collision_free_by_compute].
Defined.

Definition toy_calls1 : list pcall :=
  [PUpdate (toy_bytes 1) (toy_bytes 10); PBulkUpdate [toy_bytes 2; toy_bytes 3] [toy_bytes 20; toy_bytes 30];
   PUpdate (toy_bytes 3) []].
Definition toy_calls2 : list pcall :=
  [PUpdate (toy_bytes 2) (toy_bytes 21); PGet (toy_bytes 2);
   PBulkUpdate [toy_bytes 1; toy_bytes 2] [toy_bytes 10; toy_bytes 20]].

(** Two different histories, one root. *)
Lemma equal_roots_equal_reads_witness :
  let s1 := (run (calls_plain toy_calls1) (NewSparseMerkleTree NewSimpleMap NewSimpleMap [])).2 in
  let s2 := (run (calls_plain toy_calls2) (NewSparseMerkleTree NewSimpleMap NewSimpleMap [])).2 in
  root s1 = root s2 ∧ ∀ key, (run (Get key) s1).1 = (run (Get key) s2).1.
Proof.
  cbn zeta. split; [vm_compute; reflexivity|].
  apply (equal_roots_equal_reads (HS := toy) (N := SimpleMap) (V := SimpleMap)
           NewSimpleMap NewSimpleMap NewSimpleMap NewSimpleMap toy_calls1 toy_calls2);
    [exact toy_new_rep..|collision_free_by_compute|vm_compute; reflexivity].
Defined.

(** After UpdateForRoot of [k9] the tree [toy_state] keeps its root field. *)
Lemma UpdateForRoot_same_value_wrong_root_witness :
  let m := update_map k9 v90 toy_map in
  let s := map_state m (root toy_state) in
  ∃ s', run (UpdateForRoot k9 v90 (merkle_root m)) s = (Ok (root toy_state), s') ∧
        tree_rep s' (map_state m (root toy_state)) ∧ update_map k9 v90 m = m.
Proof.
  cbn zeta.
  apply (UpdateForRoot_same_value_wrong_root (HS := toy) (N := KeyedMap 2) (V := KeyedMap 2));
    [apply valid_map_update, toy_state_holds|by constructor|collision_free_by_compute
    |vm_compute; reflexivity].
Defined.

Lemma stores_are_interchangeable_witness :
  let s : SparseMerkleTree SimpleMap SimpleMap := mkSMT NewSimpleMap NewSimpleMap placeholder in
  let g : refstate := mkSMT (mkKeyedMap ∅) (mkKeyedMap ∅) placeholder in
  (run (Update k9 v90) s).1 = (run (Update k9 v90) g).1 ∧
  tree_rep (n := 2) (run (Update k9 v90) s).2 (run (Update k9 v90) g).2.
Proof.
  intros s g. apply stores_are_interchangeable; [by constructor|by vm_compute].
Defined.
End witnesses.
