(* ===== verification/FaultTheorems.v ===== *)
(** * Trees on stores that fail. *)

From S2P Require Import Prelude Utils MapStore TreeHasher Effects Proofs Smt DeepSubTree Bulk.
From S2P Require Import ReadOnly Trie Merkle Store Spec SmtSpec SmtHolds Faults ToyHasher.

Section faults.
Context {HS : Hasher} {N V : Type} `{SafeMapStore hsize N, SafeMapStore hsize V}.
Abbreviation faulty_tree := (SparseMerkleTree (FaultyStore N) (FaultyStore V)).

(** On failing stores [P] does what it does without the failures, or returns
    an error of a store, which it does only when some call fails. *)
Definition surfaces {A} (P : prog A) : Prop :=
  ∀ s : faulty_tree,
    let '(o, s') := run P s in
    run P (reliable s) = (o, reliable s') ∨ ∃ e, o = Err e ∧ store_error e ∧ some_fault s.

Lemma strict_surfaces {A} E (P : prog A) : (∀ e, E e → store_error e) → strict E P → surfaces P.
Proof.
  intros HE HP s. destruct (run_faulty E P s HP) as [_ Hr]. destruct (run P s) as [o s'].
  destruct Hr as [|(e & ? & ? & ?)]; [by left|right]. exists e. eauto.
Qed.

Lemma strict_bind_Ret {A B} E (P : prog A) (f : A → B) : strict E P → strict E (a ← P; Ret (f a)).
Proof. intros HP. by apply strict_bind. Qed.

(** C16: no method swallows a failure of a store: on stores that may fail at
    any call, every method of trees and deep subtrees, a bulk update
    included, does exactly what it does on the same stores without the
    failures, or returns an error of a store; it does not panic, and it does
    not succeed with another result. *)
Theorem store_failures_surface :
  (∀ key, surfaces (Get key)) ∧ (∀ key, surfaces (Has key)) ∧
  (∀ key value, surfaces (Update key value)) ∧ (∀ key, surfaces (Delete key)) ∧
  (∀ key value r, surfaces (UpdateForRoot key value r)) ∧
  (∀ keys values, surfaces (BulkUpdate keys values)) ∧
  (∀ key, surfaces (Prove key)) ∧ (∀ key, surfaces (ProveUpdatable key)) ∧
  (∀ key, surfaces (ProveCompact key)) ∧
  (∀ proof key value, surfaces (AddBranch proof key value)) ∧
  (∀ key, surfaces (GetDescend key)) ∧ (∀ key, surfaces (HasDescend key)).
Proof.
  split_and!; intros.
  - eapply strict_surfaces; [apply own_store_error|apply strict_smt_Get].
  - eapply strict_surfaces; [apply own_store_error|apply strict_Has].
  - eapply strict_surfaces; [done|apply strict_Update].
  - eapply strict_surfaces; [done|apply strict_Update].
  - eapply strict_surfaces; [done|apply strict_UpdateForRoot].
  - eapply strict_surfaces; [done|apply strict_BulkUpdate].
  - eapply strict_surfaces; [apply own_store_error|].
    apply strict_bind; [done|intros r; apply strict_doProveForRoot].
  - eapply strict_surfaces; [apply own_store_error|].
    apply strict_bind; [done|intros r; apply strict_doProveForRoot].
  - eapply strict_surfaces; [apply own_store_error|].
    apply strict_bind; [done|]. intros r. apply strict_bind; [apply strict_doProveForRoot|].
    intros p. apply strict_lift.
  - eapply strict_surfaces; [apply own_store_error|apply strict_AddBranch].
  - eapply strict_surfaces; [apply own_store_error|apply strict_GetDescend].
  - eapply strict_surfaces; [apply own_store_error|].
    apply strict_bind_Ret, strict_GetDescend.
Qed.
End faults.

(** C15: Update on stores that may fail at any call: it does not panic; when it
    succeeds, it returns the Merkle root of the updated map and the stores
    hold exactly its tree, whatever failed elsewhere; when it returns an
    error, some call has failed, and the tree keeps the root of the map it
    held. *)
Theorem Update_on_failing_stores {HS : Hasher} {N V}
    `{LawfulMapStore hsize N, LawfulMapStore hsize V, !SafeMapStore hsize N, !SafeMapStore hsize V}
    (s : SparseMerkleTree (FaultyStore N) (FaultyStore V)) m key value :
  smt_holds (reliable s) m →
  collision_free (map_preimages m ∪ map_preimages (update_map key value m)) →
  match run (Update key value) s with
  | (Ok r, s') => r = merkle_root (update_map key value m) ∧
      smt_holds (reliable s') (update_map key value m)
  | (Err e, s') => store_error e ∧ some_fault s ∧ root s' = merkle_root m
  | (Panic, _) => False
  end.
Proof.
  intros Hs CF. destruct (smt_holds_update _ m key value Hs CF) as (s2 & E & Hs2).
  destruct (run_faulty _ _ s (strict_Update key value)) as [_ Hr].
  assert (match run (Update key value) s with (Err _, s') => root s' = root s | _ => True end) as Hroot.
  { unfold Update. rewrite run_bind, run_Root, run_bind.
    pose proof (keeps_root_run _ s (keeps_root_UpdateForRoot key value (root s))) as Hk.
    destruct (run (UpdateForRoot key value (root s)) s) as [[r|e|] s']; [|exact Hk|done].
    by rewrite run_bind, run_SetRoot. }
  destruct (run (Update key value) s) as [o s']. cbn [fst snd] in Hr.
  pose proof (smt_holds_root _ _ Hs) as Hm. change (root (reliable s)) with (root s) in Hm.
  destruct Hr as [Hr|(e & -> & He & Hf)]; [|by rewrite Hroot].
  rewrite E in Hr. injection Hr as <- <-. done.
Qed.

(** ** Witnesses *)
Section witnesses.
#[local] Existing Instance toy.

(** The tree of [toy_map] whose node store fails at the write number [n]. *)
Definition toy_failing (n : nat) : SparseMerkleTree (FaultyStore (KeyedMap 2)) (FaultyStore (KeyedMap 2)) :=
  mkSMT
    (mkFaulty (nodes toy_state) 0 (λ i c, match c with
       | CallGet _ => None
       | _ => if i =? n then Some 5%N else None
       end))
    (mkFaulty (values toy_state) 0 (λ _ _, None)) (root toy_state).

Lemma Update_on_failing_stores_witness :
  (∃ e s', run (Update (toy_bytes 77) (toy_bytes 31)) (toy_failing 3) = (Err e, s') ∧
     store_error e ∧ some_fault (toy_failing 3) ∧ root s' = merkle_root toy_map) ∧
  ∃ r s', run (Update (toy_bytes 77) (toy_bytes 31)) (toy_failing 300) = (Ok r, s') ∧
     r = merkle_root (update_map (toy_bytes 77) (toy_bytes 31) toy_map).
Proof.
  assert (∀ n, match run (Update (toy_bytes 77) (toy_bytes 31)) (toy_failing n) with
    | (Ok r, s') => r = merkle_root (update_map (toy_bytes 77) (toy_bytes 31) toy_map) ∧
        smt_holds (reliable s') (update_map (toy_bytes 77) (toy_bytes 31) toy_map)
    | (Err e, s') => store_error e ∧ some_fault (toy_failing n) ∧ root s' = merkle_root toy_map
    | (Panic, _) => False
    end) as Hall.
  { intros n. apply (Update_on_failing_stores (HS := toy) (toy_failing n) toy_map);
      [exact toy_state_holds|collision_free_by_compute]. }
  split.
  - pose proof (Hall 3) as H3.
    assert (match (run (Update (toy_bytes 77) (toy_bytes 31)) (toy_failing 3)).1 with
      | Err _ => True | _ => False end) as E by (vm_compute; exact I).
    destruct (run _ (toy_failing 3)) as [[r|e|] s']; [destruct E| |destruct E]. exists e, s'. exact (conj eq_refl H3).
  - pose proof (Hall 300) as H3.
    assert (match (run (Update (toy_bytes 77) (toy_bytes 31)) (toy_failing 300)).1 with
      | Ok _ => True | _ => False end) as E by (vm_compute; exact I).
    destruct (run _ (toy_failing 300)) as [[r|e|] s']; [|destruct E..]. exists r, s'. exact (conj eq_refl (proj1 H3)).
Defined.

(** On the reference stores. *)
Lemma store_failures_surface_witness :
  surfaces (N := KeyedMap 2) (V := KeyedMap 2)
    (BulkUpdate [toy_bytes 77; toy_bytes 3] [toy_bytes 31; toy_bytes 30]) ∧
  surfaces (N := KeyedMap 2) (V := KeyedMap 2) (Prove (toy_bytes 77)).
Proof.
  destruct (store_failures_surface (HS := toy) (N := KeyedMap 2) (V := KeyedMap 2))
    as (_ & _ & _ & _ & _ & Hbulk & Hprove & _).
  exact (conj (Hbulk _ _) (Hprove _)).
Defined.
End witnesses.
