(* ===== verification/ProofTheorems.v ===== *)
(** * proofs.go: what Merkle proofs guarantee.

    Completeness (the tree's own proofs are accepted), soundness (what is
    accepted is the value the map has), totality of the verifier, and the
    round trip through the compact form. *)

From S2P Require Import Prelude Utils MapStore TreeHasher Effects Proofs Smt ReadOnly.
From S2P Require Import Trie Merkle Store Spec ProofsCorrect SmtSpec Compaction.
From S2P Require Import SmtHolds ToyHasher.

Section lawful.
Context {HS : Hasher}.
Context {N V : Type} `{LawfulMapStore hsize N} `{LawfulMapStore hsize V}.
Implicit Types (s : SparseMerkleTree N V) (m : gmap bytes bytes).

(** C3: completeness: Prove succeeds on a tree that holds a map, and its
    proof is accepted against the tree's root for the value the key has,
    or for the empty value when the key is absent. *)
Theorem Prove_complete s m key :
  smt_holds s m → collision_free (map_preimages m) →
  ∃ proof, run (Prove key) s = (Ok proof, s) ∧
    VerifyProof proof (root s) key (default [] (m !! path key)) = Ok true.
Proof.
  intros Hs CF. pose proof (proj1 Hs) as Hm. exists (map_proof m key false). split.
  - eapply smt_holds_read; [done|unfold Prove, ProveForRoot; solve_readonly|].
    by eapply run_Prove.
  - rewrite (smt_holds_root _ _ Hs). by eapply map_proof_verifies.
Qed.

(** C30: ProveUpdatable yields an accepted proof as well, which carries the
    sibling's data exactly when there are side nodes, and that data hashes
    to the first side node. *)
Theorem ProveUpdatable_complete s m key :
  smt_holds s m → collision_free (map_preimages m) →
  ∃ proof, run (ProveUpdatable key) s = (Ok proof, s) ∧
    VerifyProof proof (root s) key (default [] (m !! path key)) = Ok true ∧
    digest <$> SiblingData proof = head (SideNodes proof).
Proof.
  intros Hs CF. pose proof (proj1 Hs) as Hm. exists (map_proof m key true). split_and!.
  - eapply smt_holds_read; [done|unfold ProveUpdatable, ProveUpdatableForRoot; solve_readonly|].
    by eapply run_ProveUpdatable.
  - rewrite (smt_holds_root _ _ Hs). by eapply map_proof_verifies.
  - pose proof (λ d sn sns, sanityCheck_sibling _ d sn sns
      (map_proof_sane m key true Hm)) as Hsib.
    unfold map_proof in *. destruct (descend _ _ _) as [sibs e].
    cbn [SideNodes SiblingData] in *. destruct sibs as [|sib sibs _] using rev_ind; [done|].
    rewrite reverse_snoc, last_snoc in *. cbn.
    by rewrite (Hsib (tdata sib) (thash sib) (thash <$> reverse sibs)).
Qed.

(** ProveCompact succeeds, and VerifyCompactProof accepts its proof
    for the value the key has. *)
Theorem ProveCompact_complete s m key :
  smt_holds s m → collision_free (map_preimages m) →
  ∃ proof, run (ProveCompact key) s = (Ok proof, s) ∧
    VerifyCompactProof proof (root s) key (default [] (m !! path key)) = Ok true.
Proof.
  intros Hs CF. pose proof (proj1 Hs) as Hm.
  destruct (CompactProof_DecompactProof (map_proof m key false)) as (c & E1 & E2).
  { by eapply map_proof_sane. }
  exists c. split.
  - eapply smt_holds_read; [done|unfold ProveCompact, ProveCompactForRoot, ProveForRoot;
      solve_readonly|].
    unfold ProveCompact, ProveCompactForRoot. erewrite run_bind_Ok by apply run_Root.
    erewrite run_bind_Ok by by eapply run_doProveForRoot. by rewrite run_lift, E1.
  - unfold VerifyCompactProof. rewrite E2, (smt_holds_root _ _ Hs).
    by eapply map_proof_verifies.
Qed.
End lawful.

Section verify.
Context {HS : Hasher}.

(** C2: soundness: a proof that is accepted against the Merkle root of a map
    shows the value the map has at the key (the empty value when it has
    none), whoever made the proof, unless the strings the verifier hashes
    and those hashed for the map collide. *)
Theorem VerifyProof_sound (m : gmap bytes bytes) proof key value :
  valid_map m → VerifyProof proof (merkle_root m) key value = Ok true →
  collision_free (proof_preimages proof key value ∪ map_preimages m) →
  value = default [] (m !! path key).
Proof.
  intros Hm Hv CF.
  eapply (VerifyProof_inj _ CF proof (map_proof m key false)); [done| |set_solver|].
  - by apply map_proof_verifies.
  - etrans; [by apply map_proof_preimages|set_solver].
Qed.

(** C32: binding: two proofs accepted for one key against one root, whatever
    the root, are for the same value and have the same side nodes. *)
Theorem VerifyProof_binding proof1 proof2 root key value1 value2 :
  VerifyProof proof1 root key value1 = Ok true →
  VerifyProof proof2 root key value2 = Ok true →
  collision_free (proof_preimages proof1 key value1 ∪ proof_preimages proof2 key value2) →
  value1 = value2 ∧ SideNodes proof1 = SideNodes proof2.
Proof.
  intros H1 H2 CF. eapply (VerifyProof_inj _ CF); [exact H1|exact H2|set_solver..].
Qed.

(** C33: VerifyProof answers true or false on every input: it neither fails
    nor indexes or slices out of range, on malformed proofs included. *)
Theorem VerifyProof_total proof root key value :
  ∃ b, VerifyProof proof root key value = Ok b.
Proof.
  unfold VerifyProof.
  destruct (verifyProofWithUpdates_spec proof key value) as [E|(h & ds & _ & _ & E)];
    rewrite E; by eexists.
Qed.

(** A proof that fails the sanity check is refused everywhere:
    VerifyProof answers false, CompactProof returns ErrBadProof. *)
Theorem insane_proof_rejected proof root key value :
  sanityCheck proof = false →
  VerifyProof proof root key value = Ok false ∧ CompactProof proof = Err ErrBadProof.
Proof.
  intros Hs. unfold VerifyProof, verifyProofWithUpdates, CompactProof. by rewrite Hs.
Qed.

(** C31: the compact form loses nothing: every sane proof compacts, to a
    proof with a mask of ceil(n/8) bytes and only the side nodes that are
    not placeholders, and decompaction gives back the same proof. *)
Theorem CompactProof_roundtrip proof :
  sanityCheck proof = true →
  ∃ c, CompactProof proof = Ok c ∧ DecompactProof c = Ok proof ∧
    cSideNodes c = filter (λ sn, sn ≠ placeholder) (SideNodes proof) ∧
    Z.of_nat (length (BitMask c)) = ceil8 (NumSideNodes c) ∧
    NumSideNodes c = Z.of_nat (length (SideNodes proof)).
Proof.
  intros Hs. destruct (CompactProof_DecompactProof proof Hs) as (c & E1 & E2).
  destruct (CompactProof_spec proof Hs) as (mask & E3 & L & _).
  rewrite E1 in E3. exists c. injection E3 as ->. eauto.
Qed.

(** A compacted proof is accepted exactly when the proof was. *)
Theorem VerifyCompactProof_CompactProof proof c root key value :
  CompactProof proof = Ok c →
  VerifyCompactProof c root key value = VerifyProof proof root key value.
Proof.
  intros Hc. destruct (sanityCheck proof) eqn:Hs.
  - destruct (CompactProof_DecompactProof proof Hs) as (c' & E1 & E2).
    rewrite Hc in E1. injection E1 as <-. unfold VerifyCompactProof. by rewrite E2.
  - unfold CompactProof in Hc. by rewrite Hs in Hc.
Qed.

(** A compact proof whose mask has no bit set beyond its side nodes is
    verified without panic: the answer is true or false. *)
Theorem VerifyCompactProof_safe c root key value :
  padding_clear c = true → ∃ b, VerifyCompactProof c root key value = Ok b.
Proof.
  intros Hpad. unfold VerifyCompactProof, VerifyProof.
  destruct (DecompactProof_cases c Hpad) as [->|(sns & -> & _)]; [by eexists|].
  destruct (verifyProofWithUpdates_spec (mkProof sns (cNonMembershipLeafData c)
    (cSiblingData c)) key value) as [E|(h & ds & _ & _ & E)]; rewrite E; by eexists.
Qed.

(** C38: the sanity check of a compact proof counts the padding bits of the
    mask too, so a proof of one side node whose mask sets the second bit and
    that carries no side node passes it, and its decompaction indexes the
    missing side node: VerifyCompactProof panics, for every root, key and
    value, when paths have at least one byte. *)
Theorem VerifyCompactProof_panics root key value :
  0 < hsize →
  VerifyCompactProof (mkCompactProof [] None [byte_of_Z 64] 1 None) root key value = Panic.
Proof.
  intros Hh. unfold VerifyCompactProof, DecompactProof, compact_sanityCheck.
  cbn [NumSideNodes BitMask cSideNodes].
  destruct (Z.gtb_spec 1 (Z.of_nat (pathSize * 8))); [unfold pathSize in *; lia|]. done.
Qed.
End verify.

(** ** Witnesses *)
Section witnesses.
#[local] Existing Instance toy.
Abbreviation k9 := (toy_bytes 9).

Lemma Prove_complete_witness :
  ∃ proof, run (Prove (toy_bytes 2)) toy_state = (Ok proof, toy_state) ∧
    VerifyProof proof (root toy_state) (toy_bytes 2)
      (default [] (toy_map !! path (toy_bytes 2))) = Ok true.
Proof. apply Prove_complete; [exact toy_state_holds|collision_free_by_compute]. Defined.

Lemma ProveUpdatable_complete_witness :
  ∃ proof, run (ProveUpdatable k9) toy_state = (Ok proof, toy_state) ∧
    VerifyProof proof (root toy_state) k9 (default [] (toy_map !! path k9)) = Ok true ∧
    digest <$> SiblingData proof = head (SideNodes proof).
Proof. apply ProveUpdatable_complete; [exact toy_state_holds|collision_free_by_compute]. Defined.

Lemma ProveCompact_complete_witness :
  ∃ proof, run (ProveCompact (toy_bytes 77)) toy_state = (Ok proof, toy_state) ∧
    VerifyCompactProof proof (root toy_state) (toy_bytes 77)
      (default [] (toy_map !! path (toy_bytes 77))) = Ok true.
Proof. apply ProveCompact_complete; [exact toy_state_holds|collision_free_by_compute]. Defined.

Definition toy_proof : SparseMerkleProof := map_proof toy_map (toy_bytes 77) false.

Lemma VerifyProof_sound_witness :
  toy_bytes 30 = default [] (toy_map !! path (toy_bytes 77)).
Proof.
  apply (VerifyProof_sound toy_map toy_proof);
    [exact toy_map_valid|vm_compute; reflexivity|collision_free_by_compute].
Defined.

Lemma VerifyProof_binding_witness :
  toy_bytes 30 = toy_bytes 30 ∧
  SideNodes toy_proof = SideNodes (map_proof toy_map (toy_bytes 77) true).
Proof.
  apply (VerifyProof_binding _ _ (merkle_root toy_map) (toy_bytes 77));
    [vm_compute; reflexivity..|collision_free_by_compute].
Defined.

Lemma insane_proof_rejected_witness :
  let proof := mkProof [toy_bytes 1] None None in
  VerifyProof proof (merkle_root toy_map) k9 [] = Ok false ∧ CompactProof proof = Err ErrBadProof.
Proof. apply insane_proof_rejected. reflexivity. Defined.

Lemma CompactProof_roundtrip_witness :
  ∃ c, CompactProof toy_proof = Ok c ∧ DecompactProof c = Ok toy_proof ∧
    cSideNodes c = filter (λ sn, sn ≠ placeholder) (SideNodes toy_proof) ∧
    Z.of_nat (length (BitMask c)) = ceil8 (NumSideNodes c) ∧
    NumSideNodes c = Z.of_nat (length (SideNodes toy_proof)).
Proof. apply CompactProof_roundtrip. vm_compute. reflexivity. Defined.

Definition toy_compact : SparseCompactMerkleProof :=
  match CompactProof toy_proof with Ok c => c | _ => mkCompactProof [] None [] 0 None end.

Lemma VerifyCompactProof_CompactProof_witness :
  VerifyCompactProof toy_compact (merkle_root toy_map) (toy_bytes 77) (toy_bytes 30) =
  VerifyProof toy_proof (merkle_root toy_map) (toy_bytes 77) (toy_bytes 30).
Proof. apply VerifyCompactProof_CompactProof. vm_compute. reflexivity. Defined.

Lemma VerifyCompactProof_safe_witness :
  ∃ b, VerifyCompactProof toy_compact (merkle_root toy_map) k9 [] = Ok b.
Proof. apply VerifyCompactProof_safe. vm_compute. reflexivity. Defined.

Lemma VerifyCompactProof_panics_witness :
  0 < hsize ∧
  VerifyCompactProof (mkCompactProof [] None [byte_of_Z 64] 1 None)
    (merkle_root toy_map) k9 [] = Panic.
Proof.
  assert (0 < hsize) as Hh by (vm_compute; lia).
  split; [exact Hh|exact (VerifyCompactProof_panics _ _ _ Hh)].
Defined.
End witnesses.
