(* ===== verification/DeepTheorems.v ===== *)
(** * deepsubtree.go: what deep subtrees guarantee.

    A deep subtree that starts from the root of a tree and gets accepted
    branches holds part of that tree; what it answers and the roots its
    updates compute are those of the whole tree, or it reports a missing
    key. *)

From S2P Require Import Prelude Utils MapStore TreeHasher Effects Proofs Smt DeepSubTree.
From S2P Require Import ReadOnly Trie Merkle Store Partial Walk Spec ProofsCorrect SmtSpec.
From S2P Require Import Bulk BulkMap DeepSpec DeepUpdate DeepReplay DeepBulk SmtHolds ToyHasher.

Lemma readonly_GetDescend {HS : Hasher} key : readonly (GetDescend key).
Proof.
  unfold GetDescend. solve_readonly. generalize (path key), depth, 0, a.
  intros p n. induction n as [|n IH]; intros i h; cbn [GetDescend_loop]; solve_readonly; apply IH.
Qed.

Section deep.
Context {HS : Hasher}.
Implicit Types (g : refstate) (m : gmap bytes bytes).

Lemma deep_holds_full m : valid_map m → deep_holds (map_state m (merkle_root m)) m.
Proof. by split; [|constructor]. Qed.

Lemma deep_holds_new m :
  valid_map m →
  deep_holds (NewDeepSparseMerkleSubTree (mkKeyedMap ∅) (mkKeyedMap ∅) (merkle_root m)) m.
Proof. intros Hm. split; [done|]. constructor; cbn; [apply map_empty_subseteq..|done]. Qed.

Lemma deep_branch_accepted g m proof key value :
  deep_holds g m → VerifyProof proof (merkle_root m) key value = Ok true →
  collision_free (proof_preimages proof key value ∪ sibling_preimages proof ∪ map_preimages m) →
  ∃ g', run (AddBranch proof key value) g = (Ok tt, g') ∧ deep_holds g' m ∧
    run (GetDescend key) g' = (Ok value, g').
Proof.
  intros Hg Hacc CF. pose proof (proj1 Hg) as Hm.
  destruct (run_AddBranch _ CF g m proof key value Hg) as (g' & E & Hg' & Hn & Hv & _);
    [set_solver..|done|].
  exists g'. split_and!; [done|done|].
  destruct (accepted_updates _ CF m proof key value Hm) as (-> & _ & _); [set_solver..|done|].
  eapply run_GetDescend; [exact CF|done|set_solver|done|done].
Qed.

(** GetDescend on a tree that holds a map returns the value of the key,
    the empty value when it is absent, and changes nothing; HasDescend tells
    whether the key is present. *)
Theorem GetDescend_correct {N V} `{LawfulMapStore hsize N, LawfulMapStore hsize V}
    (s : SparseMerkleTree N V) m key :
  smt_holds s m → collision_free (map_preimages m) →
  run (GetDescend key) s = (Ok (default [] (m !! path key)), s) ∧
  run (HasDescend key) s = (Ok (bool_decide (is_Some (m !! path key))), s).
Proof.
  intros Hs CF. pose proof (proj1 Hs) as Hm.
  assert (run (GetDescend key) s = (Ok (map_value m key), s)) as E.
  { eapply smt_holds_read; [done|apply readonly_GetDescend|].
    eapply run_GetDescend; [exact CF|by apply deep_holds_full|done| |done].
    eapply full_has_nodes; [exact CF|done|apply branch_dataset]. }
  split; [done|]. unfold HasDescend. rewrite (run_bind_Ok _ _ _ _ _ E). unfold map_value.
  destruct (m !! path key) as [v|] eqn:Hk; [|done]. destruct (Hm _ _ Hk) as [_ Hv].
  unfold run. unfold bytes_Equal. cbn [default id].
  rewrite bool_decide_false by (intros <-; by apply Hv). by rewrite bool_decide_true by by eexists.
Qed.

(** AddBranch on a deep subtree of a map accepts exactly the proofs
    VerifyProof accepts against the map's root: such a branch is added and
    the subtree stays a part of the map's tree, and a GetDescend of its key
    then returns the value that was proved. *)
Theorem AddBranch_then_GetDescend g m proof key value :
  deep_holds g m → VerifyProof proof (merkle_root m) key value = Ok true →
  collision_free (proof_preimages proof key value ∪ sibling_preimages proof ∪ map_preimages m) →
  ∃ g', run (AddBranch proof key value) g = (Ok tt, g') ∧ deep_holds g' m ∧
    run (GetDescend key) g' = (Ok value, g').
Proof. apply deep_branch_accepted. Qed.

(** AddBranch refuses a proof that VerifyProof does not accept against
    the tree's root: it returns ErrBadProof and changes nothing, on every
    kind of store. *)
Theorem AddBranch_rejects {N V} `{MapStore N, MapStore V} (s : SparseMerkleTree N V)
    proof key value :
  VerifyProof proof (root s) key value = Ok false →
  run (AddBranch proof key value) s = (Err ErrBadProof, s).
Proof.
  unfold VerifyProof. intros Hrej. unfold AddBranch.
  rewrite (run_bind_Ok _ _ _ _ _ (run_Root s)).
  destruct (verifyProofWithUpdates proof (root s) key value) as [[b u]| |] eqn:E; [|done..].
  cbn in Hrej. injection Hrej as ->. cbn [lift].
  by rewrite (run_bind_Ok _ _ _ (false, u) s).
Qed.

(** C29: a deep subtree never answers wrongly: GetDescend returns the value
    the map of the whole tree has at the key, or reports a missing key. *)
Theorem GetDescend_deep_sound g m key :
  deep_holds g m → collision_free (map_preimages m) →
  missing (run (GetDescend key) g) ∨
  run (GetDescend key) g = (Ok (default [] (m !! path key)), g).
Proof.
  intros Hg CF. pose proof (proj1 Hg) as Hm.
  destruct (deep_run (GetDescend key) g m (map_value m key) (map_state m (merkle_root m)) Hg)
    as [|(g' & E & _)]; [auto with monotone| |by left|right].
  - eapply run_GetDescend; [exact CF|by apply deep_holds_full|done| |done].
    eapply full_has_nodes; [exact CF|done|apply branch_dataset].
  - pose proof (readonly_run (GetDescend key) g (readonly_GetDescend key)) as R.
    rewrite E in R |- *. cbn in R. by subst.
Qed.

(** C13: the state transition of a deep subtree is that of the whole tree: an
    Update that does not report a missing key returns the Merkle root of the
    updated map, and the deep subtree is then part of that map's tree. *)
Theorem Update_deep_sound g m key value :
  deep_holds g m →
  collision_free (map_preimages m ∪ map_preimages (update_map key value m)) →
  missing (run (Update key value) g) ∨
  ∃ g', run (Update key value) g = (Ok (merkle_root (update_map key value m)), g') ∧
    deep_holds g' (update_map key value m).
Proof.
  intros Hg CF. pose proof (proj1 Hg) as Hm.
  destruct (deep_run (Update key value) g m (merkle_root (update_map key value m))
    (map_state (update_map key value m) (merkle_root (update_map key value m))) Hg)
    as [|(g' & E & Hp)]; [auto with monotone| |by left|right].
  - eapply run_Update; [exact CF|done|set_solver..].
  - exists g'. split; [done|]. split; [by apply valid_map_update|done].
Qed.

(** C14: a bulk update of a deep subtree is that of the whole tree: unless it
    reports a missing key, BulkUpdate returns the Merkle root of the map after
    the batch, and the deep subtree is then part of that map's tree. *)
Theorem BulkUpdate_deep_sound g m keys values :
  deep_holds g m → length keys = length values →
  collision_free (bulk_preimages (zip keys values) m) →
  missing (run (BulkUpdate keys values) g) ∨
  ∃ g', run (BulkUpdate keys values) g = (Ok (merkle_root (bulk_map (zip keys values) m)), g') ∧
    deep_holds g' (bulk_map (zip keys values) m).
Proof.
  intros Hg Hlen CF. pose proof (proj1 Hg) as Hm.
  destruct (deep_run (BulkUpdate keys values) g m (merkle_root (bulk_map (zip keys values) m))
    (map_state (bulk_map (zip keys values) m) (merkle_root (bulk_map (zip keys values) m))) Hg)
    as [|(g' & E & Hp)]; [auto with monotone| |by left|right].
  - by eapply (run_BulkUpdate _ CF).
  - exists g'. split; [done|]. split; [by apply valid_map_update_all, valid_map_update_all|done].
Qed.

(** An accepted branch with the sibling of an updatable proof. *)
Lemma map_proof_updatable U (CF : collision_free U) g m key value :
  deep_holds g m → map_preimages m ⊆ U →
  ∃ g', run (AddBranch (map_proof m key true) key (map_value m key)) g = (Ok tt, g') ∧
    deep_holds g' m ∧ updatable g' m key value.
Proof.
  intros Hg HU. pose proof (proj1 Hg) as Hm.
  destruct (run_AddBranch U CF g m (map_proof m key true) key (map_value m key))
    as (g' & E & Hg' & Hn & Hv & Hs); [done|done| | |by apply map_proof_verifies|].
  { etrans; [by apply map_proof_preimages|done]. }
  { etrans; [by apply map_proof_sibling|done]. }
  exists g'. split_and!; [done|done|]. split_and!; [done|done|]. intros _ s Hlast.
  unfold map_proof in Hs. destruct (descend (path key) 0 (tree_of m)) as [sibs e].
  cbn [fst SideNodes SiblingData] in *. destruct sibs as [|x sibs _] using rev_ind; [done|].
  rewrite last_snoc in Hlast, Hs. injection Hlast as ->. rewrite reverse_snoc in Hs.
  by eapply Hs.
Qed.

(** C10: state transitions can be replayed from a branch: with the proof that
    ProveUpdatable gives for a key of a whole tree, a deep subtree of the
    same root accepts the branch, and a following Update of the key, be it
    an insertion, an overwrite or a deletion, succeeds with the root that
    the same Update of the whole tree returns. *)
Theorem updatable_branch_updates {N V} `{LawfulMapStore hsize N, LawfulMapStore hsize V}
    (s : SparseMerkleTree N V) g m key value :
  smt_holds s m → deep_holds g m →
  collision_free (map_preimages m ∪ map_preimages (update_map key value m)) →
  ∃ proof v g1 g2 s2,
    run (ProveUpdatable key) s = (Ok proof, s) ∧ run (Get key) s = (Ok v, s) ∧
    run (AddBranch proof key v) g = (Ok tt, g1) ∧
    run (Update key value) g1 = (Ok (root s2), g2) ∧
    run (Update key value) s = (Ok (root s2), s2) ∧
    deep_holds g2 (update_map key value m) ∧ smt_holds s2 (update_map key value m).
Proof.
  intros Hs Hg CF. pose proof (proj1 Hs) as Hm.
  destruct (smt_holds_update s m key value Hs CF) as (s2 & Es & Hs2).
  destruct (map_proof_updatable _ CF g m key value Hg) as (g1 & E1 & Hg1 & Hup); [set_solver|].
  pose proof (run_Update_deep _ CF g1 m key value Hg1) as Ed.
  specialize (Ed ltac:(set_solver) ltac:(set_solver) Hup).
  destruct (deep_run (Update key value) g1 m _ _ Hg1 (monotone_Update key value)
    (run_Update _ CF key value m Hm ltac:(set_solver) ltac:(set_solver)))
    as [(k & g' & E)|(g2 & E2 & Hp)]; [by rewrite E in Ed|].
  exists (map_proof m key true), (map_value m key), g1, g2, s2.
  rewrite (smt_holds_root _ _ Hs2). split_and!; try done.
  - eapply smt_holds_read; [done|unfold ProveUpdatable, ProveUpdatableForRoot; solve_readonly|].
    eapply run_ProveUpdatable; [exact CF|done|set_solver].
  - eapply smt_holds_get; [done|]. eapply collision_free_mono; [|exact CF]. set_solver.
  - split; [by apply valid_map_update|done].
Qed.

(** Branches that the whole tree gives out. *)
Definition honest_branch {N V} `{MapStore N, MapStore V} (s : SparseMerkleTree N V)
    (br : bytes * SparseMerkleProof * bytes) : Prop :=
  ((run (Prove br.1.1) s).1 = Ok br.1.2 ∨ (run (ProveUpdatable br.1.1) s).1 = Ok br.1.2) ∧
  (run (Get br.1.1) s).1 = Ok br.2.

Lemma honest_branches {N V} `{LawfulMapStore hsize N, LawfulMapStore hsize V}
    (s : SparseMerkleTree N V) m brs :
  smt_holds s m → collision_free (map_preimages m) → Forall (honest_branch s) brs →
  Forall (λ br, (∃ upd, br.1.2 = map_proof m br.1.1 upd) ∧ br.2 = map_value m br.1.1) brs.
Proof.
  intros Hs CF Hbrs. pose proof (proj1 Hs) as Hm.
  eapply Forall_impl; [exact Hbrs|]. intros br [Hpr Hget]. split.
  - destruct Hpr as [Hpr|Hpr]; eexists; revert Hpr;
      [rewrite (smt_holds_read _ s m _ Hs (readonly_Prove _) (run_Prove _ CF _ m Hm (reflexivity _)))
      |rewrite (smt_holds_read _ s m _ Hs (readonly_ProveUpdatable _)
         (run_ProveUpdatable _ CF _ m Hm (reflexivity _)))];
      cbn [fst]; intros [= <-]; done.
  - rewrite (smt_holds_get s m _ Hs CF) in Hget. by injection Hget.
Qed.

(** C11: a block of updates can be replayed from branches: a deep subtree that
    is given the branches which the whole tree proves for some keys replays
    every sequence of insertions and overwrites of these keys, repeated ones
    included, in order and without a missing key, and ends at the root the
    whole tree ends at, as a part of its tree. *)
Theorem branches_replay_updates {N V} `{LawfulMapStore hsize N, LawfulMapStore hsize V}
    (s : SparseMerkleTree N V) g m brs kvs :
  smt_holds s m → deep_holds g m → Forall (honest_branch s) brs →
  Forall (λ kv, kv.1 ∈ brs.*1.*1 ∧ kv.2 ≠ []) kvs →
  collision_free (history_preimages kvs m) →
  ∃ g1 g2 s2, run (add_branches brs) g = (Ok tt, g1) ∧
    run (run_updates kvs) g1 = (Ok tt, g2) ∧ run (run_updates kvs) s = (Ok tt, s2) ∧
    root g2 = root s2 ∧ deep_holds g2 (update_all kvs m) ∧ smt_holds s2 (update_all kvs m).
Proof.
  intros Hs Hg Hbrs Hkvs CF. pose proof (proj1 Hs) as Hm.
  assert (map_preimages m ⊆ history_preimages kvs m) as HU
    by (destruct kvs as [|[k v] kvs]; apply union_subseteq_l).
  pose proof (collision_free_mono _ _ HU CF) as CFm.
  destruct (run_add_branches _ CF m brs g [] Hg HU) as (g1 & E1 & Hg1 & _ & Hb1).
  { exact (honest_branches s m brs Hs CFm Hbrs). }
  { by intros p ?%not_elem_of_nil. }
  destruct (replay_updates _ CF kvs _ g1 m Hg1 Hb1) as (g2 & E2 & Hg2 & _); [done| |].
  { eapply Forall_impl; [exact Hkvs|]. intros kv [Hin Hne]. split; [|done].
    rewrite <-list_fmap_compose in Hin. apply list_elem_of_fmap in Hin as (br & -> & Hin).
    apply list_elem_of_fmap. by exists br. }
  destruct (smt_holds_updates kvs s m Hs CF) as (s2 & E3 & Hs2).
  exists g1, g2, s2. split_and!; try done.
  rewrite (smt_holds_root _ _ Hs2). apply Hg2.
Qed.

(** C12: a batch of insertions and overwrites can be replayed from branches: a
    deep subtree with the branches of the keys of the batch, as the whole tree
    gives them out, and of the keys of the leaves at the ends of their paths,
    answers BulkUpdate with the new root of the whole tree, no data being
    missing, and is then a part of the updated tree. *)
Theorem branches_replay_bulk_update {N V} `{LawfulMapStore hsize N, LawfulMapStore hsize V}
    (s : SparseMerkleTree N V) g m brs keys values :
  smt_holds s m → deep_holds g m → Forall (honest_branch s) brs →
  (∀ key, key ∈ keys → key ∈ brs.*1.*1) → length keys = length values →
  Forall (λ v, v ≠ []) values →
  (∀ br q w, br ∈ brs → (descend (path br.1.1) 0 (tree_of m)).2 = Leaf q w →
     q ∈ path <$> brs.*1.*1) →
  collision_free (bulk_preimages (zip keys values) m) →
  ∃ g1 g2 s2 r, run (add_branches brs) g = (Ok tt, g1) ∧
    run (BulkUpdate keys values) g1 = (Ok r, g2) ∧ run (BulkUpdate keys values) s = (Ok r, s2) ∧
    root g2 = r ∧ deep_holds g2 (bulk_map (zip keys values) m) ∧
    smt_holds s2 (bulk_map (zip keys values) m).
Proof.
  intros Hs Hg Hbrs Hkeys Hlen Hv Hends CF.
  assert (map_preimages m ⊆ bulk_preimages (zip keys values) m) as HU
    by (etrans; [apply history_preimages_first|apply union_subseteq_l]).
  pose proof (collision_free_mono _ _ HU CF) as CFm.
  destruct (run_add_branches _ CF m brs g [] Hg HU) as (g1 & E1 & Hg1 & _ & Hb1).
  { exact (honest_branches s m brs Hs CFm Hbrs). }
  { by intros p ?%not_elem_of_nil. }
  assert ((λ br, path br.1.1) <$> brs = path <$> brs.*1.*1) as Hps by by rewrite <-!list_fmap_compose.
  rewrite Hps in Hb1.
  destruct (run_BulkUpdate_deep _ CF g1 m keys values (path <$> brs.*1.*1) Hg1 Hlen Hv)
    as (g2 & E2 & Hg2); [done|done| | |].
  { intros p q w Hp Hd. rewrite <-Hps in Hp. apply list_elem_of_fmap in Hp as (br & -> & Hbr).
    by apply (Hends br q w). }
  { intros key Hkey. by apply list_elem_of_fmap_2, Hkeys. }
  destruct (smt_holds_bulk s m keys values Hs Hlen CF) as (s2 & E3 & Hs2).
  do 4 eexists. split_and!; [done|exact E2|exact E3|apply Hg2|done|done].
Qed.
End deep.

(** ** Witnesses *)
Section witnesses.
#[local] Existing Instance toy.
Abbreviation k77 := (toy_bytes 77).

Definition toy_deep : SparseMerkleTree (KeyedMap 2) (KeyedMap 2) :=
  NewDeepSparseMerkleSubTree (mkKeyedMap ∅) (mkKeyedMap ∅) (merkle_root toy_map).

Definition toy_updatable : SparseMerkleProof := map_proof toy_map k77 true.

Definition toy_branch (upd : bool) (k : Z) : bytes * SparseMerkleProof * bytes :=
  (toy_bytes k, map_proof toy_map (toy_bytes k) upd, map_value toy_map (toy_bytes k)).

(** An overwrite, two writes of an absent key, and another overwrite. *)
Definition toy_block : list (bytes * bytes) := toy_kvs [(1, 11); (9, 9); (77, 31); (9, 8)]%Z.

Lemma branches_replay_updates_witness :
  let brs := [toy_branch true 1; toy_branch false 9; toy_branch false 77] in
  ∃ g1 g2 s2, run (add_branches brs) toy_deep = (Ok tt, g1) ∧
    run (run_updates toy_block) g1 = (Ok tt, g2) ∧ run (run_updates toy_block) toy_state = (Ok tt, s2) ∧
    root g2 = root s2 ∧ deep_holds g2 (update_all toy_block toy_map) ∧
    smt_holds s2 (update_all toy_block toy_map).
Proof.
  apply (branches_replay_updates (HS := toy) toy_state toy_deep toy_map);
    [exact toy_state_holds|exact (deep_holds_new _ toy_map_valid)| |decide_by_compute
    |collision_free_by_compute].
  repeat (constructor; [split; [first [left; vm_compute; reflexivity|right; vm_compute; reflexivity]
    |vm_compute; reflexivity]|]). constructor.
Defined.

(** With the branch of the leaf that the example above misses: an absent key
    whose path ends at it, and an overwrite. *)
Lemma branches_replay_bulk_update_witness :
  let brs := [toy_branch false 3; toy_branch false 200; toy_branch true 1] in
  let keys := toy_bytes <$> [3; 1]%Z in
  let values := toy_bytes <$> [31; 11]%Z in
  ∃ g1 g2 s2 r, run (add_branches brs) toy_deep = (Ok tt, g1) ∧
    run (BulkUpdate keys values) g1 = (Ok r, g2) ∧
    run (BulkUpdate keys values) toy_state = (Ok r, s2) ∧
    root g2 = r ∧ deep_holds g2 (bulk_map (zip keys values) toy_map) ∧
    smt_holds s2 (bulk_map (zip keys values) toy_map).
Proof.
  apply (branches_replay_bulk_update (HS := toy) toy_state toy_deep toy_map).
  - exact toy_state_holds.
  - exact (deep_holds_new _ toy_map_valid).
  - repeat (constructor; [split; [first [left; vm_compute; reflexivity|right; vm_compute; reflexivity]
      |vm_compute; reflexivity]|]). constructor.
  - refine (proj1 (Forall_forall (λ key, key ∈ _) _) _). decide_by_compute.
  - reflexivity.
  - decide_by_compute.
  - intros br q w Hbr. revert br Hbr q w.
    refine (proj1 (Forall_forall (λ br, ∀ q w, _ → q ∈ _) _) _).
    repeat (constructor; [intros q w Hd; vm_compute in Hd; try discriminate Hd;
      injection Hd as <- _; decide_by_compute|]). constructor.
  - collision_free_by_compute.
Defined.

(** Deletions can not always be replayed: with the updatable branches of two
    keys, whose proofs have the data of their siblings, the deletion of one
    moves the other up, and the deletion of the other needs the data of a node
    that is the sibling then.  The whole tree deletes both. *)
Example two_deletions_missing_sibling :
  let '(o, g1) := run (add_branches [toy_branch true 1; toy_branch true 77]) toy_deep in
  let '(o1, g2) := run (Delete (toy_bytes 1)) g1 in
  let '(o2, _) := run (Delete (toy_bytes 77)) g2 in
  let '(o', _) := run (run_updates [(toy_bytes 1, []); (toy_bytes 77, [])]) toy_state in
  o = Ok tt ∧ (∃ r, o1 = Ok r) ∧ (∃ k, o2 = Err (InvalidKeyError k)) ∧ o' = Ok tt.
Proof. vm_compute. split_and!; first [done|by eexists]. Qed.

Lemma GetDescend_correct_witness :
  run (GetDescend k77) toy_state = (Ok (default [] (toy_map !! path k77)), toy_state) ∧
  run (HasDescend k77) toy_state = (Ok (bool_decide (is_Some (toy_map !! path k77))), toy_state).
Proof. apply GetDescend_correct; [exact toy_state_holds|collision_free_by_compute]. Defined.

Lemma AddBranch_then_GetDescend_witness :
  ∃ g', run (AddBranch toy_updatable k77 (toy_bytes 30)) toy_deep = (Ok tt, g') ∧
    deep_holds g' toy_map ∧ run (GetDescend k77) g' = (Ok (toy_bytes 30), g').
Proof.
  apply (AddBranch_then_GetDescend (HS := toy) toy_deep toy_map toy_updatable k77 (toy_bytes 30));
    [exact (deep_holds_new _ toy_map_valid)|vm_compute; reflexivity|collision_free_by_compute].
Defined.

Lemma AddBranch_rejects_witness :
  run (AddBranch toy_updatable k77 (toy_bytes 31)) toy_deep = (Err ErrBadProof, toy_deep).
Proof. apply AddBranch_rejects. vm_compute. reflexivity. Defined.

Lemma GetDescend_deep_sound_witness :
  missing (run (GetDescend k77) toy_deep) ∨
  run (GetDescend k77) toy_deep = (Ok (default [] (toy_map !! path k77)), toy_deep).
Proof.
  apply (GetDescend_deep_sound (HS := toy) toy_deep toy_map k77);
    [exact (deep_holds_new _ toy_map_valid)|collision_free_by_compute].
Defined.

(** The deep subtree with the branch of one key. *)
Definition toy_deep_77 : SparseMerkleTree (KeyedMap 2) (KeyedMap 2) :=
  (run (AddBranch toy_updatable k77 (toy_bytes 30)) toy_deep).2.

Lemma toy_deep_77_holds : deep_holds toy_deep_77 toy_map.
Proof.
  destruct (deep_branch_accepted (HS := toy) toy_deep toy_map toy_updatable k77 (toy_bytes 30)
    (deep_holds_new _ toy_map_valid)) as (g' & E & Hg' & _).
  - vm_compute. reflexivity.
  - collision_free_by_compute.
  - assert (toy_deep_77 = g') as -> by exact (f_equal snd E). exact Hg'.
Defined.

Lemma Update_deep_sound_witness :
  missing (run (Update k77 (toy_bytes 31)) toy_deep_77) ∨
  ∃ g', run (Update k77 (toy_bytes 31)) toy_deep_77 =
      (Ok (merkle_root (update_map k77 (toy_bytes 31) toy_map)), g') ∧
    deep_holds g' (update_map k77 (toy_bytes 31) toy_map).
Proof.
  apply (Update_deep_sound (HS := toy) toy_deep_77 toy_map k77 (toy_bytes 31)); [exact toy_deep_77_holds|collision_free_by_compute].
Defined.

Lemma BulkUpdate_deep_sound_witness :
  missing (run (BulkUpdate [k77] [toy_bytes 31]) toy_deep_77) ∨
  ∃ g', run (BulkUpdate [k77] [toy_bytes 31]) toy_deep_77 =
      (Ok (merkle_root (bulk_map (zip [k77] [toy_bytes 31]) toy_map)), g') ∧
    deep_holds g' (bulk_map (zip [k77] [toy_bytes 31]) toy_map).
Proof.
  apply (BulkUpdate_deep_sound (HS := toy) toy_deep_77 toy_map [k77] [toy_bytes 31]);
    [exact toy_deep_77_holds|reflexivity|collision_free_by_compute].
Defined.

(** With the branch of an absent key that ends at the leaf of another key, a
    bulk update of one pair needs the value of that other key and reports it
    missing, where Update succeeds. *)
Example bulk_needs_the_value_of_a_leaf :
  let '(_, g) := run (add_branches [toy_branch false 3]) toy_deep in
  (∃ r, (run (Update (toy_bytes 3) (toy_bytes 31)) g).1 = Ok r) ∧
  ∃ k, (run (BulkUpdate [toy_bytes 3] [toy_bytes 31]) g).1 = Err (InvalidKeyError k).
Proof. vm_compute. split; by eexists. Qed.

Lemma updatable_branch_updates_witness :
  ∃ proof v g1 g2 s2,
    run (ProveUpdatable k77) toy_state = (Ok proof, toy_state) ∧
    run (Get k77) toy_state = (Ok v, toy_state) ∧
    run (AddBranch proof k77 v) toy_deep = (Ok tt, g1) ∧
    run (Update k77 []) g1 = (Ok (root s2), g2) ∧
    run (Update k77 []) toy_state = (Ok (root s2), s2) ∧
    deep_holds g2 (update_map k77 [] toy_map) ∧ smt_holds s2 (update_map k77 [] toy_map).
Proof.
  apply (updatable_branch_updates (HS := toy) toy_state toy_deep toy_map k77 []);
    [exact toy_state_holds|exact (deep_holds_new _ toy_map_valid)|collision_free_by_compute].
Defined.

(** The updates of that branch, a new value and a deletion, do not report a
    missing key. *)
Example toy_deep_updates :
  (run (Update k77 (toy_bytes 31)) toy_deep_77).1 =
    Ok (merkle_root (update_map k77 (toy_bytes 31) toy_map)) ∧
  (run (Delete k77) toy_deep_77).1 = Ok (merkle_root (update_map k77 [] toy_map)).
Proof. split; vm_compute; reflexivity. Qed.
End witnesses.
