(* ===== verification/BulkFuel.v ===== *)
(** * The recursion of a bulk update ends.

    On every store, whatever it holds, the walk never goes below the last bit
    of the paths: there the code panics on its bit index.  So the fuel of the
    definitions in [Bulk] is no bound of their own: with [S (depth - d)] units
    at depth [d] the case of no fuel is never reached, whatever program [out]
    stands for it. *)

From S2P Require Import Prelude Utils MapStore TreeHasher Effects Proofs Smt Bulk.

Section fuel.
Context {HS : Hasher}.
Implicit Types (kvs : list bulkKV).

Definition sized_kvs kvs : Prop := Forall (λ kv, length kv.1 = hsize) kvs.

Lemma getBit_below p i : length p = hsize → depth ≤ i → getBitAtFromMSB p i = Panic.
Proof.
  intros Hp Hi. rewrite getBitAtFromMSB_bits, lookup_ge_None_2; [done|].
  rewrite length_bits, Hp. exact Hi.
Qed.

(** A partition below the last bit looks at the bit of some key, and panics. *)
Lemma partition_below kvs d :
  sized_kvs kvs → kvs ≠ [] → depth ≤ d → partitionByBit kvs d = Panic.
Proof.
  intros Hs Hne Hd. unfold partitionByBit, Search.
  destruct (length kvs) as [|n] eqn:En; [by destruct kvs|]. cbn [Nat.eqb Search_loop Nat.ltb Nat.leb].
  destruct (lookup_lt_is_Some_2 kvs ((0 + S n) / 2)) as [kv Hkv].
  { rewrite En. apply Nat.Div0.div_lt_upper_bound. lia. }
  rewrite (index_ok _ _ _ Hkv). cbn [mbind outcome_bind].
  by rewrite getBit_below by (done || exact (Forall_lookup_1 _ _ _ _ Hs Hkv)).
Qed.

Lemma sized_take kvs k : sized_kvs kvs → sized_kvs (take k kvs).
Proof. apply Forall_take. Qed.

Lemma sized_drop kvs k : sized_kvs kvs → sized_kvs (drop k kvs).
Proof. apply Forall_drop. Qed.

Lemma parseLeaf_sized d p v : parseLeaf d = Ok (p, v) → length p = hsize.
Proof.
  intros (q & Hq & E)%bind_inv. apply bind_inv in E as (w & _ & [= <- _]).
  apply slice_inv in Hq as [[_ Hq] ->]. unfold pathSize in *.
  rewrite length_take, length_drop. lia.
Qed.

Section run.
Context {N V : Type} `{MapStore N} `{MapStore V}.
Implicit Types s : SparseMerkleTree N V.

(** Programs with the same runs. *)
Definition same_runs {A} (P Q : prog A) : Prop := ∀ s, run P s = run Q s.

Lemma same_bind {A B} (P P' : prog A) (k k' : A → prog B) :
  same_runs P P' → (∀ a s s', run P' s = (Ok a, s') → same_runs (k a) (k' a)) →
  same_runs (P ≫= k) (P' ≫= k').
Proof.
  intros HP Hk s. rewrite !run_bind, HP. destruct (run P' s) as [[a| |] s'] eqn:E; [|done..].
  by eapply Hk.
Qed.

Lemma same_bind_r {A B} (P : prog A) (k k' : A → prog B) :
  (∀ a s s', run P s = (Ok a, s') → same_runs (k a) (k' a)) → same_runs (P ≫= k) (P ≫= k').
Proof. by apply same_bind. Qed.

Lemma same_bind_lift {A B} (o : outcome A) (k k' : A → prog B) :
  (∀ a, o = Ok a → same_runs (k a) (k' a)) → same_runs (lift o ≫= k) (lift o ≫= k').
Proof. intros Hk. destruct o; [by apply Hk|done..]. Qed.

Lemma buildSubtree_fuel out n : ∀ fuel d kvs,
  sized_kvs kvs → d ≤ depth → depth < fuel + d →
  same_runs (buildSubtree out (fuel + n) d kvs) (buildSubtree Crash fuel d kvs).
Proof.
  induction fuel as [|fuel IH]; intros d kvs Hs Hd Hf; [lia|]. cbn [Nat.add buildSubtree].
  destruct kvs as [|[p v] [|kv kvs]]; [done..|].
  apply same_bind_lift. intros k Hk.
  assert (S d ≤ depth) as Hd'.
  { destruct (decide (d = depth)) as [->|]; [|lia]. by rewrite partition_below in Hk. }
  assert (∀ kvs', sized_kvs kvs' → same_runs
    (if length kvs' =? 0 then Ret placeholder else buildSubtree out (fuel + n) (S d) kvs')
    (if length kvs' =? 0 then Ret placeholder else buildSubtree Crash fuel (S d) kvs')) as Hside.
  { intros kvs' Hs'. destruct (length kvs' =? 0); [done|]. apply IH; [done|lia..]. }
  apply same_bind; [by apply Hside, sized_take|]. intros lh _ _ _.
  apply same_bind; [by apply Hside, sized_drop|]. done.
Qed.

Lemma mergeLeafWithKVs_fuel out n fuel h data d kvs :
  sized_kvs kvs → d ≤ depth → depth < fuel + d →
  same_runs (mergeLeafWithKVs out (fuel + n) h data d kvs) (mergeLeafWithKVs Crash fuel h data d kvs).
Proof.
  intros Hs Hd Hf. unfold mergeLeafWithKVs. apply same_bind_lift.
  intros [p v] Hp%parseLeaf_sized. apply same_bind_r. intros [] _ _ _; [done|].
  apply same_bind_r. intros _ _ _ _. apply same_bind_r. intros merged s s' Hm.
  apply buildSubtree_fuel; [|done..]. destruct (negb _).
  - revert Hm. rewrite run_bind. destruct (run (values_Get p) s) as [[w| |] s1]; [|done..].
    rewrite run_bind, run_lift. destruct (Search _ _) as [k| |]; [|done..].
    intros [= <- _]. apply Forall_app. split; [by apply sized_take|].
    by constructor; [|apply sized_drop].
  - by injection Hm as <- _.
Qed.

Lemma bulkApplyAtRoot_fuel out n : ∀ fuel h d kvs,
  sized_kvs kvs → d ≤ depth → depth < fuel + d →
  same_runs (bulkApplyAtRoot out (fuel + n) h d kvs) (bulkApplyAtRoot Crash fuel h d kvs).
Proof.
  induction fuel as [|fuel IH]; intros h d kvs Hs Hd Hf; [lia|]. cbn [Nat.add bulkApplyAtRoot].
  destruct (Nat.eqb_spec (length kvs) 0) as [|Hne]; [done|].
  destruct (bytes_Equal h placeholder); [by apply (buildSubtree_fuel out n (S fuel))|].
  apply same_bind_r. intros data _ _ _. apply same_bind_r. intros [] _ _ _.
  { by apply (mergeLeafWithKVs_fuel out n (S fuel)). }
  apply same_bind_lift. intros [l r] _. apply same_bind_lift. intros k Hk.
  assert (S d ≤ depth) as Hd'.
  { destruct (decide (d = depth)) as [->|]; [|lia].
    rewrite partition_below in Hk; [done|done|by intros ->|done]. }
  apply same_bind; [apply IH; [by apply sized_take|lia..]|]. intros lh _ _ _.
  apply same_bind; [apply IH; [by apply sized_drop|lia..]|]. done.
Qed.
End run.
End fuel.
