(* ===== verification/BulkTheorems.v ===== *)
(** * bulk.go: what a bulk update guarantees. *)

From Stdlib Require Import Sorting.Sorted.
From S2P Require Import Prelude Utils MapStore TreeHasher Effects Proofs Smt Bulk Trie.
From S2P Require Import BulkFuel BulkLists Merkle Store Spec BulkSpec SmtSpec SmtHolds BulkMap ToyHasher.

Section lawful.
Context {HS : Hasher}.
Context {N V : Type} `{LawfulMapStore hsize N} `{LawfulMapStore hsize V}.
Implicit Types (s : SparseMerkleTree N V) (m : gmap bytes bytes).

(** C5: BulkUpdate of a tree that holds a map returns the Merkle root of the
    map after the batch, deletions first, then insertions in order, and the
    tree then holds that map, with exactly its nodes; the recursive walk
    succeeds for every batch, sorted or not, with repeated keys or not. *)
Theorem BulkUpdate_correct s m keys values :
  smt_holds s m → length keys = length values →
  collision_free (bulk_preimages (zip keys values) m) →
  ∃ s', run (BulkUpdate keys values) s = (Ok (merkle_root (bulk_map (zip keys values) m)), s') ∧
        smt_holds s' (bulk_map (zip keys values) m).
Proof. apply smt_holds_bulk. Qed.

(** C26: one BulkUpdate does what a sequence of single Updates does: if no key
    of the batch is both set and deleted, both succeed and end at the same
    root, with trees that hold the same map. *)
Theorem BulkUpdate_is_iterated_Update s m keys values :
  smt_holds s m → length keys = length values → no_conflict (zip keys values) →
  collision_free (bulk_preimages (zip keys values) m) →
  collision_free (history_preimages (zip keys values) m) →
  ∃ s1 s2 m', run (BulkUpdate keys values) s = (Ok (root s1), s1) ∧
    run (run_updates (zip keys values)) s = (Ok tt, s2) ∧ root s1 = root s2 ∧
    smt_holds s1 m' ∧ smt_holds s2 m'.
Proof.
  intros Hs Hlen Hnc CF1 CF2.
  destruct (smt_holds_bulk s m keys values Hs Hlen CF1) as (s1 & E1 & Hs1).
  destruct (smt_holds_updates _ s m Hs CF2) as (s2 & E2 & Hs2).
  rewrite <-(bulk_map_update_all _ m Hnc) in Hs2.
  exists s1, s2, (bulk_map (zip keys values) m).
  rewrite (smt_holds_root _ _ Hs1), (smt_holds_root _ _ Hs2). done.
Qed.
End lawful.

(** Keys and values of different numbers are refused before anything is
    done: ErrBulkInputMismatch, and the tree is as it was. *)
Theorem BulkUpdate_mismatch {HS : Hasher} {N V} `{MapStore N, MapStore V}
    (s : SparseMerkleTree N V) keys values :
  length keys ≠ length values →
  run (BulkUpdate keys values) s = (Err ErrBulkInputMismatch, s).
Proof.
  intros Hlen. unfold BulkUpdate. by rewrite (proj2 (Nat.eqb_neq _ _)).
Qed.

(** Sorting and the in-place deduplication keep, for every path, the last
    of its values, in strictly increasing order of paths. *)
Theorem sort_dedup_last_wins (kvs : list bulkKV) :
  ∃ kvs', dedup (SortStableFunc kvs) = Ok kvs' ∧ StronglySorted kv_lt kvs' ∧
    ∀ p, last (filter (λ kv, kv.1 = p) kvs') = last (filter (λ kv, kv.1 = p) kvs).
Proof.
  exists (dedup_spec (SortStableFunc kvs)). rewrite dedup_dedup_spec. split_and!; [done| |].
  - apply dedup_spec_sorted, SortStableFunc_sorted.
  - intros p. by rewrite dedup_spec_last, SortStableFunc_filter.
Qed.

(** The map after a batch that sets a key and then deletes it. *)
Lemma bulk_map_set_delete {HS : Hasher} m key value :
  value ≠ [] →
  bulk_map (zip [key; key] [value; []]) m = <[path key := value]> m ∧
  update_all (zip [key; key] [value; []]) m = delete (path key) m.
Proof.
  intros Hv. unfold bulk_map, insertions, deletions. cbn [zip zip_with].
  assert (bytes_Equal value defaultValue = false) as E by by apply bool_decide_eq_false.
  rewrite filter_cons_True, filter_cons_False, filter_cons_False, filter_cons_True
    by (cbn [snd]; rewrite ?E; done || tauto).
  unfold update_all. cbn [filter list_filter foldl fst snd]. unfold update_map. rewrite E.
  change (bytes_Equal [] defaultValue) with true. cbn match.
  split; [by rewrite insert_delete_eq|by rewrite delete_insert_eq].
Qed.

(** C40: when a batch sets a key and then deletes it, the last pair does not
    win: BulkUpdate deletes first, so the tree keeps the inserted value,
    where the same pairs given to Update in order leave the key absent. *)
Theorem BulkUpdate_delete_does_not_win {HS : Hasher}
    {N V : Type} `{LawfulMapStore hsize N} `{LawfulMapStore hsize V}
    (s : SparseMerkleTree N V) m key value :
  smt_holds s m → value ≠ [] →
  collision_free (bulk_preimages (zip [key; key] [value; []]) m) →
  collision_free (history_preimages (zip [key; key] [value; []]) m) →
  ∃ s1 s2,
    run (BulkUpdate [key; key] [value; []]) s = (Ok (root s1), s1) ∧
    run (run_updates (zip [key; key] [value; []])) s = (Ok tt, s2) ∧
    smt_holds s1 (<[path key := value]> m) ∧ smt_holds s2 (delete (path key) m).
Proof.
  intros Hs Hv CF1 CF2. destruct (bulk_map_set_delete m key value Hv) as [E1 E2].
  destruct (smt_holds_bulk s m [key; key] [value; []] Hs eq_refl CF1) as (s1 & R1 & Hs1).
  destruct (smt_holds_updates _ s m Hs CF2) as (s2 & R2 & Hs2).
  rewrite E1 in R1, Hs1. rewrite E2 in Hs2. exists s1, s2.
  by rewrite (smt_holds_root _ _ Hs1).
Qed.

(** C24: the recursive walk of a bulk update ends on every store, lawful or
    not, and whatever it holds, at every root and for all keys of the digest
    size: as many nested calls as a path has bits, and one more, are enough.
    A call that goes deeper would run the program [out] instead, and the
    outcome and the final state are the same for every [out]: one that returns,
    fails, or writes to the stores.  So the panic of a walk that the store
    leads below the last bit is that of the code's bit index. *)
Theorem bulkApplyAtRoot_terminates {HS : Hasher} {N V : Type} `{MapStore N, MapStore V}
    (s : SparseMerkleTree N V) out n currentHash (kvs : list bulkKV) :
  Forall (λ kv, length kv.1 = hsize) kvs →
  run (bulkApplyAtRoot out (S depth + n) currentHash 0 kvs) s =
  run (bulkApplyAtRoot Crash (S depth) currentHash 0 kvs) s.
Proof. intros Hs. apply bulkApplyAtRoot_fuel; [done|lia..]. Qed.

(** ** Witnesses *)
Section witnesses.
#[local] Existing Instance toy.

Definition toy_keys : list bytes := toy_bytes <$> [3; 77; 9; 3; 1; 2]%Z.
Definition toy_values : list bytes :=
  [toy_bytes 30; []; toy_bytes 90; toy_bytes 31; toy_bytes 10; toy_bytes 21].

Lemma BulkUpdate_correct_witness :
  ∃ s', run (BulkUpdate toy_keys toy_values) toy_state =
      (Ok (merkle_root (bulk_map (zip toy_keys toy_values) toy_map)), s') ∧
    smt_holds s' (bulk_map (zip toy_keys toy_values) toy_map).
Proof.
  apply BulkUpdate_correct; [exact toy_state_holds|reflexivity|collision_free_by_compute].
Defined.

Lemma toy_no_conflict : no_conflict (zip toy_keys toy_values).
Proof.
  intros k v k' H1 H2.
  assert (Forall (λ a, Forall (λ b, path a.1 ≠ path b.1) (deletions (zip toy_keys toy_values)))
    (insertions (zip toy_keys toy_values))) as Hall by decide_by_compute.
  rewrite Forall_forall in Hall. specialize (Hall _ H1). rewrite Forall_forall in Hall.
  exact (Hall _ H2).
Defined.

Lemma BulkUpdate_is_iterated_Update_witness :
  ∃ s1 s2 m', run (BulkUpdate toy_keys toy_values) toy_state = (Ok (root s1), s1) ∧
    run (run_updates (zip toy_keys toy_values)) toy_state = (Ok tt, s2) ∧ root s1 = root s2 ∧
    smt_holds s1 m' ∧ smt_holds s2 m'.
Proof.
  apply (BulkUpdate_is_iterated_Update (HS := toy) toy_state toy_map toy_keys toy_values);
    [exact toy_state_holds|reflexivity|exact toy_no_conflict|collision_free_by_compute..].
Defined.

(** On a store that holds a node whose two children are the node itself, the
    walk ends too: in the panic of the bit index, not with the root that
    running out of fuel would return here. *)
Lemma bulkApplyAtRoot_terminates_witness :
  let h := toy_bytes 1 ++ toy_bytes 2 in
  let s := mkSMT (mkSimpleMap {[h := node_data h h]}) NewSimpleMap h in
  let kvs := [(path (toy_bytes 3), toy_bytes 4)] in
  run (bulkApplyAtRoot (Ret h) (S depth + 1000) h 0 kvs) s = (Panic, s) ∧
  run (bulkApplyAtRoot (Ret h) depth h 0 kvs) s = (Ok h, s).
Proof.
  intros h s kvs. split; [|vm_compute; reflexivity].
  rewrite (bulkApplyAtRoot_terminates s (Ret h) 1000 h kvs) by decide_by_compute.
  vm_compute. reflexivity.
Defined.

Lemma BulkUpdate_mismatch_witness :
  run (BulkUpdate toy_keys [toy_bytes 1]) toy_state = (Err ErrBulkInputMismatch, toy_state).
Proof. apply BulkUpdate_mismatch. discriminate. Defined.

Lemma BulkUpdate_delete_does_not_win_witness :
  let key := toy_bytes 9 in let value := toy_bytes 90 in
  ∃ s1 s2,
    run (BulkUpdate [key; key] [value; []]) toy_state = (Ok (root s1), s1) ∧
    run (run_updates (zip [key; key] [value; []])) toy_state = (Ok tt, s2) ∧
    smt_holds s1 (<[path key := value]> toy_map) ∧ smt_holds s2 (delete (path key) toy_map).
Proof.
  apply (BulkUpdate_delete_does_not_win (HS := toy) toy_state toy_map);
    [exact toy_state_holds|discriminate|collision_free_by_compute..].
Defined.
End witnesses.
