(* ===== verification/ShardedPool.v ===== *)
(** * sharded.go: the pooled buffers of a sharded bulk update.

    [BulkUpdate] takes its buckets from a pool that is keyed by the number of
    shards, and the buffer of the shard numbers from another.  [Sharded] has
    the same function with fresh buckets; here it runs on what the pools hand
    out, and any number of sharded trees share the pools. *)

From S2P Require Import Prelude Utils MapStore Sha256 TreeHasher Effects Proofs Smt Bulk Sharded.
From S2P Require Import Trie Merkle Store Spec SmtSpec SmtHolds BulkMap ShardedSpec.

Record shardScratch : Type := mkShardScratch {
  ss_k : list (list bytes);
  ss_v : list (list bytes);
}.

(** [shardScratchPool] by shard count; an index buffer is listed up to its
    capacity. *)
Record shardPools : Type := mkShardPools {
  shardScratchPool : gmap nat (list shardScratch);
  shardIdxBufPool : list (list Z);
}.

Definition no_shardPools : shardPools := mkShardPools ∅ [].

(** [LoadOrStore] of the pool for [n] shards, then its [Get]: the choice of an
    object is [pick]. *)
Definition getShardScratch (n pick : nat) (w : shardPools) : shardScratch * shardPools :=
  let p := default [] (shardScratchPool w !! n) in
  match p !! pick with
  | Some s => (s, mkShardPools (<[n := delete pick p]> (shardScratchPool w)) (shardIdxBufPool w))
  | None =>
      (mkShardScratch (replicate n []) (replicate n []),
       mkShardPools (<[n := p]> (shardScratchPool w)) (shardIdxBufPool w))
  end.

Definition putShardScratch (n : nat) (s : shardScratch) (w : shardPools) : shardPools :=
  match shardScratchPool w !! n with
  | None => w
  | Some p =>
      let s := mkShardScratch (take 0 <$> ss_k s) (take 0 <$> ss_v s) in
      mkShardPools (<[n := s :: p]> (shardScratchPool w)) (shardIdxBufPool w)
  end.

(** A pooled buffer that is too small is dropped; a new one is rounded up to a
    multiple of 4096. *)
Definition getShardIdxBuf (n pick : nat) (w : shardPools) : list Z * shardPools :=
  let new := replicate ((n + 4095) / 4096 * 4096) 0%Z in
  match shardIdxBufPool w !! pick with
  | Some buf =>
      let w := mkShardPools (shardScratchPool w) (delete pick (shardIdxBufPool w)) in
      if n <=? length buf then (buf, w) else (new, w)
  | None => (new, w)
  end.

Definition putShardIdxBuf (buf : list Z) (w : shardPools) : shardPools :=
  mkShardPools (shardScratchPool w) (buf :: shardIdxBufPool w).

Section sharded.
Context {HS : Hasher} {N V : Type} `{MapStore N, MapStore V}.
Abbreviation Sharded := (ShardedSMT N V).

(** The buckets whose capacity is below the hint are made anew, empty;
    [regrow] says which. *)
Definition regrow_buckets (regrow : nat → bool) (b : list (list bytes)) : list (list bytes) :=
  imap (λ i l, if regrow i then [] else l) b.

Definition Sharded_BulkUpdate_pooled (pick1 pick2 : nat) (regrow : nat → bool)
    (idx_order : list nat) (shard_order : list nat → list nat) (keys values : list bytes)
    (s : Sharded) (w : shardPools) : outcome bytes * Sharded * shardPools :=
  if negb (length keys =? length values) then (Err ErrBulkInputMismatch, s, w)
  else if length keys =? 0 then (computeRoot s, s, w)
  else if length (shards s) =? 0 then (Panic, s, w)
  else
    let n := length (shards s) in
    let '(sc, w) := getShardScratch n pick1 w in
    let buckets0 := zip (regrow_buckets regrow (ss_k sc)) (regrow_buckets regrow (ss_v sc)) in
    let '(buf, w) := getShardIdxBuf (length keys) pick2 w in
    match parallelComputeShardIdxs idx_order (take (length keys) buf) keys (shardBits s) with
    | Ok idxs =>
        match fill_buckets idxs (zip keys values) buckets0 with
        | Ok buckets =>
            let '(o, s) := run_shards (shard_order (active_shards buckets)) buckets s None in
            let o :=
              match o with
              | Ok None => computeRoot s
              | Ok (Some e) | Err e => Err e
              | Panic => Panic
              end in
            let w := putShardIdxBuf (idxs ++ drop (length keys) buf) w in
            let w := putShardScratch n (mkShardScratch buckets.*1 buckets.*2) w in
            (o, s, w)
        | Err e => (Err e, s, w)
        | Panic => (Panic, s, w)
        end
    | Err e => (Err e, s, w)
    | Panic => (Panic, s, w)
    end.

(** ** The pools stay in order *)

Definition shardPools_ok (w : shardPools) : Prop :=
  ∀ n p, shardScratchPool w !! n = Some p →
    Forall (.= mkShardScratch (replicate n []) (replicate n [])) p.

Lemma no_shardPools_ok : shardPools_ok no_shardPools.
Proof. intros n p Hp. cbn [no_shardPools shardScratchPool] in Hp. by rewrite lookup_empty in Hp. Qed.

Lemma getShardScratch_ok n pick w s w' :
  shardPools_ok w → getShardScratch n pick w = (s, w') →
  s = mkShardScratch (replicate n []) (replicate n []) ∧ shardPools_ok w'.
Proof.
  intros Hw E.
  assert (Forall (.= mkShardScratch (replicate n []) (replicate n []))
    (default [] (shardScratchPool w !! n))) as Hp.
  { destruct (shardScratchPool w !! n) eqn:En; [by apply Hw|constructor]. }
  unfold getShardScratch in E. destruct (default [] _ !! pick) eqn:Ep; simplify_eq; split.
  - exact (Forall_lookup_1 _ _ _ _ Hp Ep).
  - intros n' p'. cbn. rewrite lookup_insert_Some. intros [[<- <-]|[_ Hp']]; [by apply Forall_delete|].
    by apply Hw.
  - done.
  - intros n' p'. cbn. rewrite lookup_insert_Some. intros [[<- <-]|[_ Hp']]; [done|]. by apply Hw.
Qed.

Lemma fmap_take0 {A} (l : list (list A)) n : length l = n → take 0 <$> l = replicate n [].
Proof. intros <-. induction l; cbn; by f_equal. Qed.

Lemma putShardScratch_ok n s w :
  shardPools_ok w → length (ss_k s) = n → length (ss_v s) = n →
  shardPools_ok (putShardScratch n s w).
Proof.
  intros Hw Hk Hv. unfold putShardScratch. destruct (shardScratchPool w !! n) eqn:En; [|done].
  intros n' p'. cbn [shardScratchPool]. rewrite lookup_insert_Some.
  intros [[<- <-]|[_ Hp']]; [|by apply Hw]. constructor; [|by apply Hw].
  by rewrite !(fmap_take0 _ n).
Qed.

(** The buffer has room for the batch. *)
Lemma getShardIdxBuf_ok n pick w buf w' :
  shardPools_ok w → getShardIdxBuf n pick w = (buf, w') → n ≤ length buf ∧ shardPools_ok w'.
Proof.
  intros Hw E. assert (n ≤ (n + 4095) / 4096 * 4096) as Hr.
  { pose proof (Nat.div_mod_eq (n + 4095) 4096). pose proof (Nat.mod_upper_bound (n + 4095) 4096). lia. }
  unfold getShardIdxBuf in E. destruct (_ !! pick); [destruct (Nat.leb_spec n (length l))|];
    simplify_eq; by rewrite ?length_replicate.
Qed.

Lemma fill_buckets_length idxs kvs buckets buckets' :
  fill_buckets idxs kvs buckets = Ok buckets' → length buckets' = length buckets.
Proof.
  revert kvs buckets. induction idxs as [|i idxs IH]; intros [|[k v] kvs] buckets; cbn [fill_buckets];
    try (by intros [= <-]).
  intros (b & _ & E)%bind_inv. rewrite (IH _ _ E). apply length_insert.
Qed.

(** On the pools of any run, BulkUpdate does what it does on fresh buckets,
    and the pools stay in order. *)
Lemma BulkUpdate_pooled_ok pick1 pick2 regrow idx_order shard_order keys values s w :
  shardPools_ok w →
  ∃ idxs0 w', length idxs0 = length keys ∧ shardPools_ok w' ∧
    Sharded_BulkUpdate_pooled pick1 pick2 regrow idx_order shard_order keys values s w =
      (Sharded_BulkUpdate idxs0 idx_order shard_order keys values s, w').
Proof.
  intros Hw. unfold Sharded_BulkUpdate_pooled, Sharded_BulkUpdate.
  destruct (getShardScratch _ pick1 w) as [sc w1] eqn:E1.
  apply getShardScratch_ok in E1 as [-> Hw1]; [|done].
  destruct (getShardIdxBuf _ pick2 w1) as [buf w2] eqn:E2.
  apply getShardIdxBuf_ok in E2 as [Hlen Hw2]; [|done].
  exists (take (length keys) buf). rewrite length_take, Nat.min_l by done.
  destruct (negb _); [by exists w|]. destruct (length keys =? 0); [by exists w|].
  destruct (length (shards s) =? 0); [by exists w|]. cbn [ss_k ss_v].
  assert (∀ n, regrow_buckets regrow (replicate n []) = replicate n []) as Hre.
  { intros n. apply list_eq. intros i. unfold regrow_buckets. rewrite list_lookup_imap.
    destruct (replicate n [] !! i) eqn:Ei; [|done]. apply lookup_replicate in Ei as [-> _].
    cbn. by destruct (regrow i). }
  rewrite Hre. replace (zip (replicate _ []) (replicate _ []))
    with (replicate (length (shards s)) (@nil bytes, @nil bytes)) by (by induction (length (shards s)); cbn; f_equal).
  destruct (parallelComputeShardIdxs _ _ _ _) as [idxs| |]; [|by exists w2..].
  cbn [mbind outcome_bind].
  destruct (fill_buckets _ _ _) as [buckets| |] eqn:Ef; [|by exists w2..].
  apply fill_buckets_length in Ef. rewrite length_replicate in Ef.
  destruct (run_shards _ _ _ _) as [o s']. eexists. split; [done|].
  split; [|by destruct o as [[]| |]].
  apply putShardScratch_ok; [done|cbn; by rewrite length_fmap..].
Qed.

(** What the reused buffer held does not matter. *)
Lemma BulkUpdate_idxs0 idxs0 procs idx_order shard_order keys values (s : Sharded) :
  length idxs0 = length keys → 0 < procs → idxs_order (length keys) procs idx_order →
  Sharded_BulkUpdate idxs0 idx_order shard_order keys values s =
  Sharded_BulkUpdate (replicate (length keys) 0%Z) idx_order shard_order keys values s.
Proof.
  intros Hl Hp Ho. unfold Sharded_BulkUpdate.
  by rewrite !(parallelComputeShardIdxs_run keys (shardBits s) _ procs idx_order)
    by (done || apply length_replicate).
Qed.

(** ** Bulk updates of trees that share the pools *)

Record bulk_call : Type := mkBulkCall {
  bc_tree : nat;
  bc_picks : nat * nat;
  bc_regrow : nat → bool;
  bc_procs : nat;
  bc_idx_order : list nat;
  bc_shard_order : list nat → list nat;
  bc_keys : list bytes;
  bc_values : list bytes;
}.

(** The goroutines of the call wrote in an order they can write in. *)
Definition bulk_call_ok (c : bulk_call) : Prop :=
  0 < bc_procs c ∧ idxs_order (length (bc_keys c)) (bc_procs c) (bc_idx_order c).

Definition is_panic {A} (o : outcome A) : bool :=
  match o with
  | Panic => true
  | _ => false
  end.

(** Up to the first panic, or the first call of a tree that is not there. *)
Fixpoint bulks_pooled (cs : list bulk_call) (ts : list Sharded) (w : shardPools)
    : list (outcome bytes) * list Sharded * shardPools :=
  match cs with
  | [] => ([], ts, w)
  | c :: cs' =>
      match ts !! bc_tree c with
      | Some t =>
          let '(o, t, w) := Sharded_BulkUpdate_pooled (bc_picks c).1 (bc_picks c).2 (bc_regrow c)
            (bc_idx_order c) (bc_shard_order c) (bc_keys c) (bc_values c) t w in
          let ts := <[bc_tree c := t]> ts in
          if is_panic o then ([o], ts, w)
          else let '(os, ts, w) := bulks_pooled cs' ts w in (o :: os, ts, w)
      | None => ([], ts, w)
      end
  end.

Fixpoint bulks_plain (cs : list bulk_call) (ts : list Sharded)
    : list (outcome bytes) * list Sharded :=
  match cs with
  | [] => ([], ts)
  | c :: cs' =>
      match ts !! bc_tree c with
      | Some t =>
          let '(o, t) := Sharded_BulkUpdate (replicate (length (bc_keys c)) 0%Z)
            (bc_idx_order c) (bc_shard_order c) (bc_keys c) (bc_values c) t in
          let ts := <[bc_tree c := t]> ts in
          if is_panic o then ([o], ts)
          else let '(os, ts) := bulks_plain cs' ts in (o :: os, ts)
      | None => ([], ts)
      end
  end.

Lemma bulks_pooled_ok cs ts w :
  Forall bulk_call_ok cs → shardPools_ok w →
  (bulks_pooled cs ts w).1 = bulks_plain cs ts ∧ shardPools_ok (bulks_pooled cs ts w).2.
Proof.
  intros Hcs. revert ts w. induction Hcs as [|c cs [Hp Ho] _ IH]; intros ts w Hw; [done|].
  cbn [bulks_pooled bulks_plain]. destruct (ts !! bc_tree c) as [t|]; [|done].
  destruct (BulkUpdate_pooled_ok (bc_picks c).1 (bc_picks c).2 (bc_regrow c) (bc_idx_order c)
    (bc_shard_order c) (bc_keys c) (bc_values c) t w Hw) as (idxs0 & w' & Hl & Hw' & ->).
  rewrite (BulkUpdate_idxs0 _ _ _ _ _ _ _ Hl Hp Ho).
  destruct (Sharded_BulkUpdate _ _ _ _ _ _) as [o t']. destruct (is_panic o); [done|].
  destruct (IH (<[bc_tree c := t']> ts) w' Hw') as [<- Hok].
  by destruct (bulks_pooled cs _ w') as [[]].
Qed.
End sharded.
