(* ===== verification/ShardedGo.v ===== *)
(** * sharded.go: the goroutines of a bulk update.

    [Sharded] runs the shards of a bulk update one after the other, in the
    order in which they finish.  Here each shard has its goroutine, which
    interleaves with the others at every access to its stores, to the pooled
    buffers and to the pools, all of them shared; a goroutine that has ended
    records its error under the mutex, unless there is one, and is done for
    the wait group.  Every such run is one of [Sharded], in the order in which
    the goroutines recorded. *)

From S2P Require Import Prelude Utils MapStore TreeHasher Effects Proofs Smt Bulk Pool Sharded.
From S2P Require Import PoolLogic PoolSpec PoolCalls.

Section go.
Context {HS : Hasher} {N V : Type} `{MapStore N, MapStore V}.
Abbreviation Sharded := (ShardedSMT N V).
Abbreviation buckets_t := (list (list bytes * list bytes)).

(** What the shard [i] has to do: nothing when its bucket is empty, and no
    goroutine is started then. *)
Definition shard_go (buckets : buckets_t) (i : nat) : bprog ref :=
  match buckets !! i with
  | Some (ks, vs) => if length ks =? 0 then bret (Own []) else BulkUpdate_pooled ks vs
  | None => bret (Own [])
  end.

(** The goroutines and the memory; those that are not done for the wait
    group; the first error. *)
Record go_state : Type := mkGo {
  go_config : config N V ref;
  go_waiting : list nat;
  go_err : option error;
}.

(** The loop that starts the goroutines. *)
Definition go_start (buckets : buckets_t) (s : Sharded) (w : pools) : go_state :=
  mkGo (imap (λ i t, (shard_go buckets i, pooled_of t)) (shards s), w) (active_shards buckets) None.

(** A step of the goroutine of the shard [i]: of BulkUpdate, or the end of the
    goroutine.  One that panics takes the program down. *)
Definition go_step (i pick : nat) (g : go_state) : option go_state :=
  if bool_decide (i ∈ go_waiting g) then
    th ← (go_config g).1 !! i;
    match ended th.1 with
    | None =>
        cfg ← config_step i pick (go_config g);
        Some (mkGo cfg (go_waiting g) (go_err g))
    | Some Panic => None
    | Some (Ok _) =>
        Some (mkGo (go_config g) (filter (λ j, j ≠ i) (go_waiting g)) (go_err g))
    | Some (Err e) =>
        Some (mkGo (go_config g) (filter (λ j, j ≠ i) (go_waiting g))
          (match go_err g with None => Some e | Some e0 => Some e0 end))
    end
  else None.

Definition gstep (g g' : go_state) : Prop := ∃ i pick, go_step i pick g = Some g'.

(** The steps of a schedule; a goroutine that is done is skipped. *)
Fixpoint run_go (sched : list (nat * nat)) (g : go_state) : go_state :=
  match sched with
  | [] => g
  | (i, pick) :: sched' => run_go sched' (default g (go_step i pick g))
  end.

(** The shards as the goroutines leave them. *)
Definition go_shards (bits : Z) (g : go_state) : Sharded :=
  mkSharded ((λ th, mkSMT (p_nodes th.2) (p_values th.2)
    (default [] (deref (objs (updateScratchPool (go_config g).2)) (p_root th.2)))) <$> (go_config g).1) bits.

(** After [wg.Wait()]. *)
Definition go_result (bits : Z) (g : go_state) : outcome bytes * Sharded :=
  match go_err g with
  | Some e => (Err e, go_shards bits g)
  | None => (computeRoot (go_shards bits g), go_shards bits g)
  end.

(** BulkUpdate up to the goroutines of the shards: it may return before they
    are started. *)
Definition BulkUpdate_spawn (idxs0 : list Z) (idx_order : list nat) (keys values : list bytes)
    (s : Sharded) (w : pools) : outcome bytes + go_state :=
  if negb (length keys =? length values) then inl (Err ErrBulkInputMismatch)
  else if length keys =? 0 then inl (computeRoot s)
  else if length (shards s) =? 0 then inl Panic
  else
    let buckets0 := replicate (length (shards s)) ([], []) in
    match (idxs ← parallelComputeShardIdxs idx_order idxs0 keys (shardBits s);
           fill_buckets idxs (zip keys values) buckets0) with
    | Ok buckets => inr (go_start buckets s w)
    | Err e => inl (Err e)
    | Panic => inl Panic
    end.

(** ** The plain run of the same shards *)

Definition shard_plain (buckets : buckets_t) (i : nat) : prog bytes :=
  match buckets !! i with
  | Some (ks, vs) => if length ks =? 0 then Ret [] else BulkUpdate ks vs
  | None => Ret []
  end.

Lemma refines_shard buckets i :
  refines (N := N) (V := V) (shard_go buckets i) (shard_plain buckets i) (λ r d, r = Own d).
Proof.
  unfold shard_go, shard_plain. destruct (buckets !! i) as [[ks vs]|]; [|by apply refines_bret].
  destruct (length ks =? 0); [by apply refines_bret|apply refines_BulkUpdate].
Qed.

Definition plain_outcome buckets (s : Sharded) (i : nat) : outcome bytes :=
  match shards s !! i with
  | Some t => (run (shard_plain buckets i) t).1
  | None => Panic
  end.

(** The error that is kept when the shards [order] have recorded theirs. *)
Definition record_err buckets (s : Sharded) (e : option error) (i : nat) : option error :=
  match e, plain_outcome buckets s i with
  | None, Err e' => Some e'
  | _, _ => e
  end.

Lemma record_err_ext buckets (s s' : Sharded) order e :
  (∀ j, j ∈ order → plain_outcome buckets s' j = plain_outcome buckets s j) →
  foldl (record_err buckets s') e order = foldl (record_err buckets s) e order.
Proof.
  revert e. induction order as [|j order IH]; intros e Hsame; [done|]. cbn [foldl].
  unfold record_err at 2. rewrite (Hsame j) by by left. apply IH. intros k Hk. apply Hsame. by right.
Qed.

Lemma run_shards_plain buckets order (s : Sharded) e :
  NoDup order → (∀ i, i ∈ order → i ∈ active_shards buckets) →
  (∀ i, i ∈ order → plain_outcome buckets s i ≠ Panic) →
  run_shards order buckets s e =
    (Ok (foldl (record_err buckets s) e order),
     mkSharded (imap (λ i t, if decide (i ∈ order) then (run (shard_plain buckets i) t).2 else t)
       (shards s)) (shardBits s)).
Proof.
  intros Hnd. revert s e. induction Hnd as [|i order Hi Hnd IH]; intros s e Hact Hok; cbn [run_shards foldl].
  - f_equal. destruct s as [ts b]; cbn. f_equal. apply list_eq. intros j.
    rewrite list_lookup_imap. destruct (ts !! j); [|done]. cbn.
    by rewrite decide_False by apply not_elem_of_nil.
  - assert (i ∈ active_shards buckets) as Ha by (apply Hact; by left).
    unfold active_shards in Ha. apply list_elem_of_filter in Ha as [Ha _].
    assert (plain_outcome buckets s i ≠ Panic) as Hi' by (apply Hok; by left).
    unfold record_err at 2. unfold plain_outcome at 1. unfold plain_outcome in Hi'.
    destruct (buckets !! i) as [[ks vs]|] eqn:Eb; [|done].
    assert (shard_plain buckets i = BulkUpdate ks vs) as Ep.
    { unfold shard_plain. rewrite Eb. by destruct (length ks =? 0). }
    rewrite Ep in *. unfold on_shard. destruct (shards s !! i) as [t|] eqn:Et; [|done].
    destruct (run (BulkUpdate ks vs) t) as [o t'] eqn:Er. cbn [fst snd] in *.
    set (s1 := mkSharded (<[i:=t']> (shards s)) (shardBits s)).
    assert (∀ j, j ∈ order → plain_outcome buckets s1 j = plain_outcome buckets s j) as Hsame.
    { intros j Hj. unfold plain_outcome. cbn [s1 shards].
      by rewrite list_lookup_insert_ne by (intros ->; done). }
    assert (∀ e', foldl (record_err buckets s1) e' order = foldl (record_err buckets s) e' order) as Hfold.
    { intros e'. by apply record_err_ext. }
    assert (imap (λ j t, if decide (j ∈ order) then (run (shard_plain buckets j) t).2 else t) (shards s1) =
      imap (λ j t, if decide (j ∈ i :: order) then (run (shard_plain buckets j) t).2 else t) (shards s)) as Hmap.
    { apply list_eq. intros j. rewrite !list_lookup_imap. cbn [s1 shards].
      destruct (decide (i = j)) as [<-|Hne].
      - rewrite list_lookup_insert_eq by by eapply lookup_lt_Some. rewrite Et. cbn.
        by rewrite decide_False, decide_True, Ep, Er by (done || by left).
      - rewrite list_lookup_insert_ne by done. destruct (shards s !! j); [|done]. cbn. f_equal.
        apply decide_ext. rewrite elem_of_cons. intuition congruence. }
    assert (∀ e', run_shards order buckets s1 e' =
      (Ok (foldl (record_err buckets s) e' order),
       mkSharded (imap (λ j t, if decide (j ∈ i :: order) then (run (shard_plain buckets j) t).2 else t)
         (shards s)) (shardBits s))) as Hrun.
    { intros e'. rewrite IH, Hfold, Hmap; [done|intros j Hj; apply Hact; by right|].
      intros j Hj. rewrite Hsame by done. apply Hok. by right. }
    destruct o as [d|er|]; [| |done]; rewrite Hrun; by destruct e.
Qed.

(** ** The invariant of a run *)

Definition shard_jobs buckets (s : Sharded) : list (bprog ref * prog bytes * SparseMerkleTree N V) :=
  imap (λ i t, (shard_go buckets i, shard_plain buckets i, t)) (shards s).

Definition shard_posts buckets (s : Sharded) : list (outcome ref → pooledTree N V → Prop) :=
  (λ th, ends_as (λ r d, r = Own d) th.1.2 th.2) <$> shard_jobs buckets s.

(** [order]: the shards that have recorded. *)
Record go_inv buckets (s : Sharded) (g : go_state) (order : list nat) : Prop := {
  gi_config : config_inv (shard_posts buckets s) (go_config g);
  gi_order : order ++ go_waiting g ≡ₚ active_shards buckets;
  gi_err : go_err g = foldl (record_err buckets s) None order;
  gi_done i : i ∈ order → plain_outcome buckets s i ≠ Panic;
  gi_ended i th : (go_config g).1 !! i = Some th → i ∉ go_waiting g → is_Some (ended th.1);
}.

Lemma shard_posts_lookup buckets (s : Sharded) i :
  shard_posts buckets s !! i =
    (λ t, ends_as (λ r d, r = Own d) (shard_plain buckets i) t) <$> shards s !! i.
Proof.
  unfold shard_posts, shard_jobs. rewrite list_lookup_fmap, list_lookup_imap.
  by destruct (shards s !! i).
Qed.

Lemma inactive_shard buckets i :
  i ∉ active_shards buckets → shard_go buckets i = bret (Own []) ∧ shard_plain buckets i = Ret [].
Proof.
  intros Hi. unfold shard_go, shard_plain. destruct (buckets !! i) as [[ks vs]|] eqn:E; [|done].
  destruct (length ks =? 0) eqn:El; [done|]. destruct Hi. unfold active_shards.
  apply list_elem_of_filter. rewrite E, El. split; [done|].
  apply elem_of_seq. apply lookup_lt_Some in E. lia.
Qed.

Lemma go_start_inv buckets (s : Sharded) w : pools_ok w → go_inv buckets s (go_start buckets s w) [].
Proof.
  intros Hw. split; cbn [go_start go_config go_waiting go_err]; [|done..|by intros i ?%elem_of_nil|].
  - replace (imap _ (shards s)) with ((λ th, (th.1.1, pooled_of th.2)) <$> shard_jobs buckets s)
      by apply fmap_imap.
    apply config_inv_init; [done|]. apply Forall_lookup. intros i th. unfold shard_jobs.
    rewrite list_lookup_imap. destruct (shards s !! i); [|done]. intros [= <-]. apply refines_shard.
  - intros i th. cbn [fst]. rewrite list_lookup_imap. destruct (shards s !! i) as [t|]; [|done].
    intros [= <-] Hi. cbn [fst]. rewrite (proj1 (inactive_shard buckets i Hi)). by eexists.
Qed.

(** What a goroutine that has ended says of the shard. *)
Lemma go_inv_outcome buckets s g order i th o :
  go_inv buckets s g order → (go_config g).1 !! i = Some th → ended th.1 = Some o →
  ∃ t, shards s !! i = Some t ∧ th.2 = pooled_of (run (shard_plain buckets i) t).2 ∧
    match plain_outcome buckets s i with
    | Ok d => o = Ok (Own d)
    | Err e => o = Err e
    | Panic => o = Panic
    end.
Proof.
  intros Hg Hth Ho.
  destruct (config_inv_ended_lookup _ _ _ _ _ (gi_config _ _ _ _ Hg) Hth Ho) as (Q & HQ & Hend).
  rewrite shard_posts_lookup in HQ. destruct (shards s !! i) as [t|] eqn:Ht; [|done].
  injection HQ as <-. destruct Hend as [E Hr]. exists t.
  split_and!; [done..|]. unfold plain_outcome. rewrite Ht.
  destruct (run _ t).1; [by destruct Hr as (? & -> & ->)|done..].
Qed.

Lemma filter_ne_perm (l : list nat) i : NoDup l → i ∈ l → i :: filter (λ j, j ≠ i) l ≡ₚ l.
Proof.
  intros Hd Hi. apply NoDup_Permutation; [|done|].
  - constructor; [|by apply NoDup_filter]. rewrite list_elem_of_filter. tauto.
  - intros j. rewrite elem_of_cons, list_elem_of_filter. destruct (decide (j = i)); naive_solver.
Qed.

(** The goroutine [i] records its result. *)
Lemma go_record_inv buckets s g order i th o :
  go_inv buckets s g order → i ∈ go_waiting g → (go_config g).1 !! i = Some th →
  ended th.1 = Some o → o ≠ Panic →
  go_inv buckets s
    (mkGo (go_config g) (filter (λ j, j ≠ i) (go_waiting g))
       (match o, go_err g with Err e, None => Some e | _, e => e end))
    (order ++ [i]).
Proof.
  intros Hg Hi Hth Ho Hp. destruct (go_inv_outcome _ _ _ _ _ _ _ Hg Hth Ho) as (t & Ht & _ & Hplain).
  pose proof (gi_order _ _ _ _ Hg) as Hord.
  assert (NoDup (order ++ go_waiting g)) as Hnd by (rewrite Hord; apply NoDup_filter, NoDup_seq).
  apply NoDup_app in Hnd as (_ & _ & Hnd).
  split; cbn [go_config go_waiting go_err].
  - apply Hg.
  - rewrite <-Hord, <-app_assoc. cbn [app]. by rewrite (filter_ne_perm _ _ Hnd Hi).
  - rewrite foldl_app. cbn [foldl]. rewrite <-(gi_err _ _ _ _ Hg). unfold record_err.
    destruct (plain_outcome buckets s i); subst o; by destruct (go_err g).
  - intros j [Hj|Hj]%elem_of_app; [by apply (gi_done _ _ _ _ Hg)|].
    apply list_elem_of_singleton in Hj as ->. intros E. by rewrite E in Hplain.
  - intros j th' Hth' Hj. rewrite list_elem_of_filter in Hj. destruct (decide (j = i)) as [->|Hne].
    + simplify_eq. by eexists.
    + apply (gi_ended _ _ _ _ Hg j th' Hth'). tauto.
Qed.

Lemma gstep_inv buckets s g g' order :
  go_inv buckets s g order → gstep g g' → ∃ order', go_inv buckets s g' order'.
Proof.
  intros Hg (i & pick & E). unfold go_step in E. case_bool_decide as Hi; [|done].
  destruct ((go_config g).1 !! i) as [th|] eqn:Hth; [|done]. cbn [mbind option_bind] in E.
  destruct (ended th.1) as [o|] eqn:Ho.
  - exists (order ++ [i]). destruct o as [r|e|]; [..|done]; injection E as <-.
    + exact (go_record_inv _ _ _ _ _ _ _ Hg Hi Hth Ho ltac:(done)).
    + replace (match go_err g with None => Some e | Some e0 => Some e0 end)
        with (match Err (A := ref) e, go_err g with Err e, None => Some e | _, e => e end)
        by by destruct (go_err g).
      exact (go_record_inv _ _ _ _ _ _ _ Hg Hi Hth Ho ltac:(done)).
  - destruct (config_step i pick (go_config g)) as [cfg'|] eqn:Es; [|done]. injection E as <-.
    exists order. split; cbn [go_config go_waiting go_err]; try apply Hg.
    + eapply config_inv_steps; [apply Hg|]. apply rtc_once. by exists i, pick.
    + intros j th' Hth' Hj. apply (gi_ended _ _ _ _ Hg j th'); [|done].
      etrans; [|exact Hth']. symmetry. apply (config_step_other _ _ _ _ j Es). by intros ->.
Qed.

Lemma gsteps_inv buckets s g g' order :
  go_inv buckets s g order → rtc gstep g g' → ∃ order', go_inv buckets s g' order'.
Proof.
  intros Hg Hs. revert order Hg. induction Hs as [|g g1 g2 H1 _ IH]; intros order Hg; [by exists order|].
  destruct (gstep_inv _ _ _ _ _ Hg H1) as [order' Hg']. by eapply IH.
Qed.

Lemma run_go_steps sched g : rtc gstep g (run_go sched g).
Proof.
  revert g. induction sched as [|[i pick] sched IH]; intros g; [done|]. cbn [run_go].
  destruct (go_step i pick g) as [g'|] eqn:E; [|apply IH].
  eapply rtc_l; [by exists i, pick|apply IH].
Qed.

(** A goroutine that is not done can go on, unless its shard panics. *)
Lemma go_progress buckets s g order i pick :
  go_inv buckets s g order → i ∈ go_waiting g → plain_outcome buckets s i ≠ Panic →
  is_Some (go_step i pick g).
Proof.
  intros Hg Hi Hp. unfold go_step. rewrite bool_decide_true by done.
  assert (is_Some ((go_config g).1 !! i)) as [th Hth].
  { unfold plain_outcome in Hp. destruct (shards s !! i) as [t|] eqn:Ht; [|done].
    pose proof (shard_posts_lookup buckets s i) as HQ. rewrite Ht in HQ.
    pose proof (config_inv_ended _ _ (gi_config _ _ _ _ Hg)) as HF.
    destruct (Forall2_lookup_l _ _ _ _ _ HF HQ) as (th & Hth & _). by exists th. }
  rewrite Hth. cbn [mbind option_bind]. destruct (ended th.1) as [o|] eqn:Ho.
  - destruct (go_inv_outcome _ _ _ _ _ _ _ Hg Hth Ho) as (t & _ & _ & Hplain).
    destruct (plain_outcome buckets s i); [subst o; by eexists..|done].
  - assert (is_Some (config_step i pick (go_config g))) as [cfg' ->]; [|by eexists].
    eapply config_inv_progress; [apply Hg|by exists th].
Qed.

(** Every run ends. *)
Lemma gstep_sn g : sn gstep g.
Proof.
  destruct g as [cfg wt e]. revert wt e. induction (cstep_sn cfg) as [cfg _ IH]. intros wt.
  induction (well_founded_ltof _ length wt) as [wt _ IHw]. intros e. constructor.
  intros g' (i & pick & E). unfold go_step in E. cbn [go_config go_waiting go_err] in E.
  case_bool_decide as Hi; [|done]. destruct (cfg.1 !! i) as [th|]; [|done]. cbn [mbind option_bind] in E.
  assert (length (filter (λ j, j ≠ i) wt) < length wt) as Hlt.
  { apply length_filter_lt with i; [done|]. tauto. }
  destruct (ended th.1) as [[r|er|]|].
  - injection E as <-. by apply IHw.
  - injection E as <-. by apply IHw.
  - done.
  - destruct (config_step i pick cfg) as [cfg'|] eqn:Es; [|done]. injection E as <-.
    apply IH. by exists i, pick.
Qed.

(** When all goroutines are done, the shards and the error are those of
    [Sharded], which runs the shards in the order in which they recorded. *)
Lemma go_inv_final buckets s g order :
  go_inv buckets s g order → go_waiting g = [] →
  order ≡ₚ active_shards buckets ∧
  run_shards order buckets s None = (Ok (go_err g), go_shards (shardBits s) g).
Proof.
  intros Hg Hw. pose proof (gi_order _ _ _ _ Hg) as Hord. rewrite Hw, app_nil_r in Hord.
  split; [done|].
  rewrite run_shards_plain; [|rewrite Hord; apply NoDup_filter, NoDup_seq|by intros i; rewrite Hord
    |apply (gi_done _ _ _ _ Hg)].
  rewrite <-(gi_err _ _ _ _ Hg). f_equal. unfold go_shards. f_equal. apply list_eq. intros i.
  rewrite list_lookup_imap, list_lookup_fmap.
  destruct ((go_config g).1 !! i) as [th|] eqn:Hth.
  - destruct (gi_ended _ _ _ _ Hg i th Hth) as [o Ho]; [rewrite Hw; apply not_elem_of_nil|].
    destruct (go_inv_outcome _ _ _ _ _ _ _ Hg Hth Ho) as (t & Ht & E & _). rewrite Ht. cbn. rewrite E.
    f_equal. cbn. case_decide as Hin; [by destruct (run _ t).2|].
    rewrite Hord in Hin. rewrite (proj2 (inactive_shard _ _ Hin)). by destruct t.
  - destruct (shards s !! i) as [t|] eqn:Ht; [|done].
    pose proof (shard_posts_lookup buckets s i) as HQ. rewrite Ht in HQ.
    pose proof (config_inv_ended _ _ (gi_config _ _ _ _ Hg)) as HF.
    destruct (Forall2_lookup_l _ _ _ _ _ HF HQ) as (th & Hth' & _). congruence.
Qed.

Lemma go_inv_pools buckets s g order :
  go_inv buckets s g order → go_waiting g = [] → pools_ok (go_config g).2.
Proof.
  intros Hg Hw. eapply config_inv_pools; [apply Hg|]. apply Forall_lookup. intros i th Hth.
  destruct (gi_ended _ _ _ _ Hg i th Hth) as [o Ho]; [rewrite Hw; apply not_elem_of_nil|].
  exists o. split; [done|]. intros ->.
  destruct (go_inv_outcome _ _ _ _ _ _ _ Hg Hth Ho) as (t & Ht & _ & Hplain).
  pose proof (gi_order _ _ _ _ Hg) as Hord. rewrite Hw, app_nil_r in Hord.
  destruct (decide (i ∈ order)) as [Hi|Hi].
  - apply (gi_done _ _ _ _ Hg i Hi). by destruct (plain_outcome buckets s i).
  - rewrite Hord in Hi. unfold plain_outcome in Hplain.
    by rewrite Ht, (proj2 (inactive_shard _ _ Hi)) in Hplain.
Qed.
End go.
