(* ===== verification/ShardedTheorems.v ===== *)
(** * sharded.go: what a sharded tree guarantees. *)

From S2P Require Import Prelude Utils MapStore Sha256 TreeHasher Effects Proofs Smt Bulk.
From S2P Require Import Sharded Trie Merkle Store Spec SmtSpec SmtHolds BulkMap ShardedSpec ShardedPool.
From S2P Require Import ReadOnly ProofsCorrect Pool PoolLogic PoolCalls ShardedGo ToyHasher.

Section sharded.
Context {HS : Hasher}.
Context {N V : Type} `{LawfulMapStore hsize N} `{LawfulMapStore hsize V}.
Implicit Types (s : ShardedSMT N V) (ms : list (gmap bytes bytes)).

Lemma active_shards_spec buckets i :
  i ∈ active_shards buckets ↔ ∃ ks vs, buckets !! i = Some (ks, vs) ∧ ks ≠ [].
Proof.
  unfold active_shards. rewrite list_elem_of_filter, elem_of_seq. split.
  - intros [Hb _]. destruct (buckets !! i) as [[ks vs]|] eqn:E; [|done].
    exists ks, vs. split; [done|]. by destruct ks.
  - intros (ks & vs & E & Hks). pose proof (lookup_lt_Some _ _ _ E). rewrite E.
    split; [|lia]. by destruct ks.
Qed.

(** Shards without a key are not started, and nothing is routed to them. *)
Lemma bulk_maps_all b buckets order kvs ms :
  order ≡ₚ active_shards buckets →
  (∀ i, i < length ms → buckets !! i = Some ((routed b i kvs).*1, (routed b i kvs).*2)) →
  bulk_maps b order kvs ms = imap (λ i m, bulk_map (routed b i kvs) m) ms.
Proof.
  intros Ho Hb. apply imap_ext. intros i m Hm. case_decide as Hi; [done|]. rewrite Ho in Hi.
  destruct (routed b i kvs) as [|kv l] eqn:E; [done|]. destruct Hi.
  apply active_shards_spec. eexists _, _. rewrite Hb, E; [done|]. by apply lookup_lt_Some in Hm.
Qed.

(** C37: NewShardedSMT accepts exactly the powers of two from 1 to 256, and
    gives that many empty trees, on the stores of the factory; any other
    count is refused with ErrInvalidShardCount. *)
Theorem NewShardedSMT_correct shardCount (factory : nat → N * V) :
  (∀ i, ms_rep (factory i).1 ∅ ∧ ms_rep (factory i).2 ∅) →
  (∃ b s, (0 ≤ b ≤ 8)%Z ∧ shardCount = (2 ^ b)%Z ∧ NewShardedSMT shardCount factory = Ok s ∧
     shardBits s = b ∧ sharded_holds s (replicate (2 ^ Z.to_nat b) ∅)) ∨
  ((∀ b, 0 ≤ b ≤ 8 → shardCount ≠ 2 ^ b)%Z ∧
     NewShardedSMT shardCount factory = Err ErrInvalidShardCount).
Proof.
  intros Hf. unfold NewShardedSMT.
  destruct (Z.ltb_spec shardCount 1), (Z.gtb_spec shardCount 256); cbn [orb];
    try by (right; split; [intros b Hb ->; pose proof (pow2_8_bound b Hb); lia|done]).
  pose proof (shard_counts_ok shardCount ltac:(lia)) as Hok. unfold shard_count_ok in Hok.
  destruct (Z.land shardCount (shardCount - 1) =? 0)%Z; cbn [negb].
  - left. cbn zeta in *. set (b := count_bits _ _ _) in *.
    apply andb_prop in Hok as [[Hb1 Hb2]%andb_prop Hc]. apply Z.eqb_eq in Hc.
    assert (0 ≤ b ≤ 8)%Z as Hb by lia.
    assert (Z.to_nat shardCount = 2 ^ Z.to_nat b) as Hn.
    { rewrite Hc. apply Nat2Z.inj. rewrite Nat2Z.inj_pow, !Z2Nat.id; lia. }
    eexists b, _. split_and!; [lia..|done|done|done|]. rewrite Hn. split; cbn [shards shardBits].
    + done.
    + by rewrite length_fmap, length_seq.
    + apply Forall2_lookup. intros i. rewrite list_lookup_fmap.
      destruct (decide (i < 2 ^ Z.to_nat b)) as [Hi|Hi].
      * rewrite lookup_seq_lt, lookup_replicate_2 by done. constructor. cbn [Nat.add].
        destruct (Hf i). destruct (factory i). by apply smt_holds_new.
      * rewrite lookup_seq_ge by lia. rewrite lookup_ge_None_2 by (rewrite length_replicate; lia).
        constructor.
  - right. split; [|done]. intros b Hb Heq. rewrite forallb_forall in Hok.
    specialize (Hok b). rewrite <-Heq, Z.eqb_refl in Hok.
    discriminate Hok. apply list_elem_of_In, elem_of_seqZ. lia.
Qed.

(** C27: Update routes the pair to the shard that the key's SHA-256 digest
    names, an index that always exists, updates the map of that shard alone,
    and returns the combined root of the maps that the shards then hold. *)
Theorem Sharded_Update_correct s ms key value m :
  sharded_holds s ms → ms !! shardOf s key = Some m →
  collision_free (map_preimages m ∪ map_preimages (update_map key value m)) →
  let ms' := <[shardOf s key := update_map key value m]> ms in
  ∃ s', Sharded_Update key value s = (Ok (sharded_root (shardBits s) ms'), s') ∧
    shardBits s' = shardBits s ∧ sharded_holds s' ms'.
Proof.
  intros Hs Hm CF ms'. destruct (shardOf_lookup s ms key Hs) as (t & m0 & Ht & ? & Htm).
  simplify_eq. destruct (smt_holds_update t m key value Htm CF) as (t' & E & Ht').
  pose proof (sharded_holds_insert s ms (shardOf s key) t' _ Hs Ht') as Hs'.
  eexists. unfold Sharded_Update. rewrite (on_shard_run _ _ _ _ _ _ Ht E).
  rewrite (computeRoot_run _ _ Hs'). done.
Qed.

(** Get returns what the map of the key's shard has for the key, and
    changes nothing. *)
Theorem Sharded_Get_correct s ms key m :
  sharded_holds s ms → ms !! shardOf s key = Some m → collision_free (map_preimages m) →
  Sharded_Get key s = (Ok (map_value m key), s).
Proof.
  intros Hs Hm CF. destruct (shardOf_lookup s ms key Hs) as (t & m0 & Ht & ? & Htm).
  simplify_eq. unfold Sharded_Get.
  rewrite (on_shard_run _ _ _ _ _ _ Ht (smt_holds_get t m key Htm CF)).
  rewrite list_insert_id by done. by destruct s.
Qed.

(** C28: proofs of single shards: with the root that ShardRoot returns for the
    shard of a key, the proof that the tree of this shard makes for the key is
    accepted, and any proof that is accepted, whoever made it, is for the value
    that Get of the sharded tree returns. *)
Theorem Sharded_shard_proofs s ms key m proof value :
  sharded_holds s ms → ms !! shardOf s key = Some m →
  collision_free (proof_preimages proof key value ∪ map_preimages m) →
  ∃ r t p, ShardRoot s (Z.of_nat (shardOf s key)) = Ok r ∧ shards s !! shardOf s key = Some t ∧
    run (Prove key) t = (Ok p, t) ∧ VerifyProof p r key (map_value m key) = Ok true ∧
    Sharded_Get key s = (Ok (map_value m key), s) ∧
    (VerifyProof proof r key value = Ok true → value = map_value m key).
Proof.
  intros Hs Hm CF. destruct (shardOf_lookup s ms key Hs) as (t & m0 & Ht & ? & Htm).
  simplify_eq. pose proof (proj1 Htm) as Hmv.
  assert (collision_free (map_preimages m)) as CFm by (eapply collision_free_mono; [|exact CF]; set_solver).
  exists (merkle_root m), t, (map_proof m key false). split_and!.
  - unfold ShardRoot. destruct (Z.ltb_spec (Z.of_nat (shardOf s key)) 0) as [Hneg|_]; [lia|].
    rewrite Nat2Z.id. rewrite (index_ok _ _ _ Ht). cbn. by rewrite (smt_holds_root _ _ Htm).
  - done.
  - eapply smt_holds_read; [done|apply readonly_Prove|]. by eapply run_Prove.
  - by eapply map_proof_verifies.
  - unfold Sharded_Get. rewrite (on_shard_run _ _ _ _ _ _ Ht (smt_holds_get t m key Htm CFm)).
    rewrite list_insert_id by done. by destruct s.
  - intros Hv. eapply (VerifyProof_inj _ CF proof (map_proof m key false)); [done| |set_solver|].
    + by apply map_proof_verifies.
    + etrans; [by apply map_proof_preimages|set_solver].
Qed.

(** C35: the combined root commits to the map of every shard: sharded trees
    with as many shards whose roots are equal hold the same maps, unless the
    strings hashed for them collide. *)
Theorem Sharded_Root_commits s1 s2 ms1 ms2 :
  sharded_holds s1 ms1 → sharded_holds s2 ms2 → ShardCount s1 = ShardCount s2 →
  collision_free (sharded_preimages (shardBits s1) ms1 ∪ sharded_preimages (shardBits s2) ms2) →
  Sharded_Root s1 = Sharded_Root s2 → ms1 = ms2.
Proof.
  intros Hs1 Hs2 Hcount CF. unfold Sharded_Root.
  rewrite (computeRoot_run _ _ Hs1), (computeRoot_run _ _ Hs2). intros [= Heq].
  pose proof (sharded_holds_length _ _ Hs1) as L1. pose proof (sharded_holds_length _ _ Hs2) as L2.
  assert (Z.to_nat (shardBits s1) = Z.to_nat (shardBits s2)) as Hb.
  { unfold ShardCount in Hcount. rewrite (sh_length _ _ Hs1), (sh_length _ _ Hs2) in Hcount.
    apply Nat.pow_inj_r in Hcount; lia. }
  unfold sharded_root, sharded_preimages in *. rewrite <-Hb in *.
  apply (shard_root_inj _ _ _ _ CF) in Heq;
    [|by rewrite length_fmap|by rewrite length_fmap|apply merkle_roots_size..|set_solver|set_solver].
  apply (maps_of_roots (⋃ (map_preimages <$> ms1) ∪ ⋃ (map_preimages <$> ms2)) (shards s1)
           (shards s2)); [|apply Hs1|apply Hs2|apply union_subseteq_l|apply union_subseteq_r|done].
  eapply collision_free_mono; [|exact CF]. set_solver.
Qed.

(** The goroutines that compute the shard numbers agree with the serial
    computation: with any number of processors and in every interleaving of
    their writes, whatever the reused buffer held, the result is the shard of
    every key, in order. *)
Theorem parallelComputeShardIdxs_correct keys bits idxs procs order :
  length idxs = length keys → 0 < procs → idxs_order (length keys) procs order →
  parallelComputeShardIdxs order idxs keys bits = Ok ((λ k, shard_idx k bits) <$> keys).
Proof. apply parallelComputeShardIdxs_run. Qed.

(** The buckets of a batch: each shard's is the part that is routed to it. *)
Lemma bulk_buckets s ms keys values idxs0 procs idx_order :
  sharded_holds s ms → length keys = length values → length idxs0 = length keys →
  0 < procs → idxs_order (length keys) procs idx_order →
  ∃ buckets,
    (idxs ← parallelComputeShardIdxs idx_order idxs0 keys (shardBits s);
     fill_buckets idxs (zip keys values) (replicate (length (shards s)) ([], []))) = Ok buckets ∧
    length buckets = length (shards s) ∧
    ∀ i, i < length ms → buckets !! i =
      Some ((routed (shardBits s) i (zip keys values)).*1, (routed (shardBits s) i (zip keys values)).*2).
Proof.
  intros Hs Hlen Hidxs Hp Horder. set (kvs := zip keys values) in *. set (b := shardBits s) in *.
  rewrite (parallelComputeShardIdxs_run keys b idxs0 procs idx_order) by done.
  cbn [mbind outcome_bind].
  replace keys with kvs.*1 by (apply fst_zip; lia).
  destruct (fill_buckets_run b kvs (replicate (length (shards s)) ([], []))) as (bk & -> & Hbl & Hb).
  { apply Forall_forall. intros kv _. rewrite length_replicate.
    exact (shardOf_bound s ms kv.1 Hs). }
  rewrite length_replicate in Hbl. exists bk. split_and!; [done..|]. intros i Hi.
  apply (Hb i [] []), lookup_replicate_2. by rewrite (sh_length _ _ Hs), <-(sharded_holds_length _ _ Hs).
Qed.

(** The shards, in any order. *)
Lemma bulk_run_shards s ms kvs buckets order :
  sharded_holds s ms → length buckets = length (shards s) →
  (∀ i, i < length ms → buckets !! i =
     Some ((routed (shardBits s) i kvs).*1, (routed (shardBits s) i kvs).*2)) →
  (∀ i m, ms !! i = Some m → collision_free (bulk_preimages (routed (shardBits s) i kvs) m)) →
  order ≡ₚ active_shards buckets →
  ∃ s', run_shards order buckets s None = (Ok None, s') ∧ shardBits s' = shardBits s ∧
    sharded_holds s' (imap (λ i m, bulk_map (routed (shardBits s) i kvs) m) ms).
Proof.
  intros Hs Hbl Hbk CF Ho. pose proof (sharded_holds_length _ _ Hs) as Hml.
  pose proof (sh_length _ _ Hs) as Hn.
  destruct (run_shards_run (shardBits s) kvs buckets order s ms None Hs) as (s' & E & Hs' & Hbits).
  { rewrite Ho. apply NoDup_active_shards. }
  { intros i Hi. rewrite Ho in Hi. apply active_shards_spec in Hi as (ks & vs & E & _).
    apply lookup_lt_Some in E. destruct (lookup_lt_is_Some_2 ms i ltac:(lia)) as [m Hm].
    exists m. split_and!; [done|by apply CF|apply Hbk; lia]. }
  rewrite (bulk_maps_all _ buckets) in Hs' by done. by exists s'.
Qed.

(** The goroutine of a shard does not panic. *)
Lemma active_shard_outcome s ms kvs buckets i :
  sharded_holds s ms → length buckets = length (shards s) →
  (∀ i, i < length ms → buckets !! i =
     Some ((routed (shardBits s) i kvs).*1, (routed (shardBits s) i kvs).*2)) →
  (∀ i m, ms !! i = Some m → collision_free (bulk_preimages (routed (shardBits s) i kvs) m)) →
  i ∈ active_shards buckets → plain_outcome buckets s i ≠ Panic.
Proof.
  intros Hs Hbl Hbk CF (ks & vs & E & Hks)%active_shards_spec.
  pose proof (lookup_lt_Some _ _ _ E) as Hi. rewrite Hbl in Hi.
  destruct (lookup_lt_is_Some_2 _ _ Hi) as [t Ht].
  destruct (Forall2_lookup_l _ _ _ _ _ (sh_maps _ _ Hs) Ht) as (m & Hm & Htm).
  rewrite Hbk in E by by eapply lookup_lt_Some. injection E as <- <-.
  unfold plain_outcome, shard_plain. rewrite Ht, Hbk by by eapply lookup_lt_Some.
  destruct (length _ =? 0); [done|].
  destruct (smt_holds_bulk t m (routed (shardBits s) i kvs).*1 (routed (shardBits s) i kvs).*2 Htm)
    as (t' & -> & _); [by rewrite !length_fmap| |done].
  rewrite zip_fst_snd. by apply CF.
Qed.

Lemma bulk_maps_nil b kvs ms : kvs = [] → imap (λ i m, bulk_map (routed b i kvs) m) ms = ms.
Proof.
  intros ->. apply list_eq. intros i. rewrite list_lookup_imap. by destruct (ms !! i).
Qed.

(** BulkUpdate applies to the map of every shard the part of the batch
    that is routed to it, and returns the combined root of the resulting
    maps, in every interleaving of the goroutines that compute the shard
    numbers and every order in which the shards finish. *)
Theorem Sharded_BulkUpdate_correct s ms keys values idxs0 procs idx_order shard_order :
  sharded_holds s ms → length keys = length values → length idxs0 = length keys →
  0 < procs → idxs_order (length keys) procs idx_order → (∀ l, shard_order l ≡ₚ l) →
  (∀ i m, ms !! i = Some m →
     collision_free (bulk_preimages (routed (shardBits s) i (zip keys values)) m)) →
  let ms' := imap (λ i m, bulk_map (routed (shardBits s) i (zip keys values)) m) ms in
  ∃ s', Sharded_BulkUpdate idxs0 idx_order shard_order keys values s =
      (Ok (sharded_root (shardBits s) ms'), s') ∧
    shardBits s' = shardBits s ∧ sharded_holds s' ms'.
Proof.
  intros Hs Hlen Hidxs Hp Horder Hshards CF ms'. unfold Sharded_BulkUpdate.
  rewrite <-Hlen, Nat.eqb_refl. cbn [negb].
  destruct (Nat.eqb_spec (length keys) 0) as [E0|E0].
  { apply length_zero_iff_nil in E0. subst ms'. rewrite bulk_maps_nil by by rewrite E0.
    exists s. by rewrite (computeRoot_run _ _ Hs). }
  pose proof (sh_length _ _ Hs) as Hn. pose proof (pow2_lt (Z.to_nat (shardBits s))).
  destruct (Nat.eqb_spec (length (shards s)) 0) as [En|_]; [lia|]. cbn zeta.
  destruct (bulk_buckets s ms keys values idxs0 procs idx_order) as (bk & -> & Hbl & Hbk); [done..|].
  destruct (bulk_run_shards s ms (zip keys values) bk (shard_order (active_shards bk)))
    as (s' & -> & Hbits & Hs'); [done..|].
  exists s'. by rewrite (computeRoot_run _ _ Hs'), Hbits.
Qed.

(** C7: the goroutines of a sharded bulk update work: they share the pools and
    interleave at every access to a store, a buffer or a pool, the shard
    numbers having been computed in any interleaving, on pools in order.  At
    every moment each goroutine that is not done can go on, every run ends,
    and when all are done no error is recorded, the combined root is that of
    the maps with the batch applied, every shard holds its map, and the pools
    have everything back. *)
Theorem Sharded_BulkUpdate_concurrent s ms keys values idxs0 procs idx_order w sched :
  sharded_holds s ms → length keys = length values → keys ≠ [] → length idxs0 = length keys →
  0 < procs → idxs_order (length keys) procs idx_order → pools_ok w →
  (∀ i m, ms !! i = Some m →
     collision_free (bulk_preimages (routed (shardBits s) i (zip keys values)) m)) →
  let ms' := imap (λ i m, bulk_map (routed (shardBits s) i (zip keys values)) m) ms in
  ∃ g0, BulkUpdate_spawn idxs0 idx_order keys values s w = inr g0 ∧
    let g := run_go sched g0 in
    sn gstep g ∧
    (∀ i pick, i ∈ go_waiting g → is_Some (go_step i pick g)) ∧
    (go_waiting g = [] →
       ∃ s', go_result (shardBits s) g = (Ok (sharded_root (shardBits s) ms'), s') ∧
         sharded_holds s' ms' ∧ pools_ok (go_config g).2).
Proof.
  intros Hs Hlen Hne Hidxs Hp Horder Hw CF ms'. unfold BulkUpdate_spawn.
  rewrite <-Hlen, Nat.eqb_refl. cbn [negb].
  destruct (Nat.eqb_spec (length keys) 0) as [E0|_]; [by apply length_zero_iff_nil in E0|].
  pose proof (sh_length _ _ Hs) as Hn. pose proof (pow2_lt (Z.to_nat (shardBits s))).
  destruct (Nat.eqb_spec (length (shards s)) 0) as [En|_]; [lia|]. cbn zeta.
  destruct (bulk_buckets s ms keys values idxs0 procs idx_order) as (bk & -> & Hbl & Hbk); [done..|].
  eexists. split; [done|]. set (g := run_go sched _).
  destruct (gsteps_inv bk s _ g [] (go_start_inv bk s w Hw) (run_go_steps sched _)) as (order & Hg).
  split_and!; [apply gstep_sn| |].
  - intros i pick Hi. eapply go_progress; [done..|].
    assert (i ∈ active_shards bk) as Ha by (rewrite <-(gi_order _ _ _ _ Hg); apply elem_of_app; by right).
    by apply (active_shard_outcome s ms (zip keys values)).
  - intros Hwait. destruct (go_inv_final _ _ _ _ Hg Hwait) as [Ho E].
    destruct (bulk_run_shards s ms (zip keys values) bk order) as (s' & E' & Hbits & Hs'); [done..|].
    rewrite E in E'. injection E' as Herr <-. eexists. unfold go_result. rewrite Herr.
    rewrite (computeRoot_run _ _ Hs'). split_and!; [done..|by eapply go_inv_pools].
Qed.
End sharded.

(** The goroutines of a sharded bulk update do what [Sharded_BulkUpdate]
    does, one shard after the other in the order in which they recorded their
    results: whatever the stores do, errors included, however the goroutines
    interleave at the stores, the pooled buffers and the pools, a run in which
    all of them are done returns the same root or the same error and leaves
    the same shards, with everything back in the pools. *)
Theorem Sharded_goroutines_refine {HS : Hasher} {N V} `{MapStore N, MapStore V}
    (s : ShardedSMT N V) keys values idxs0 idx_order w sched g0 :
  pools_ok w → BulkUpdate_spawn idxs0 idx_order keys values s w = inr g0 →
  let g := run_go sched g0 in
  go_waiting g = [] →
  ∃ shard_order, (∀ l, shard_order l ≡ₚ l) ∧
    Sharded_BulkUpdate idxs0 idx_order shard_order keys values s = go_result (shardBits s) g ∧
    pools_ok (go_config g).2.
Proof.
  intros Hw E g Hwait. unfold BulkUpdate_spawn in E. unfold Sharded_BulkUpdate.
  destruct (negb _); [done|]. destruct (length keys =? 0); [done|].
  destruct (length (shards s) =? 0); [done|]. cbn zeta in *.
  destruct (mbind _ _) as [bk| |]; [|done..]. injection E as <-.
  destruct (gsteps_inv bk s _ g [] (go_start_inv bk s w Hw) (run_go_steps sched _)) as (order & Hg).
  destruct (go_inv_final _ _ _ _ Hg Hwait) as [Ho E].
  exists (λ l, if decide (l = active_shards bk) then order else l). split_and!.
  - intros l. by case_decide; subst.
  - rewrite decide_True, E by done. unfold go_result. by destruct (go_err g).
  - by eapply go_inv_pools.
Qed.

(** Pooling the buckets and the index buffers is invisible: any sequence
    of bulk updates of any number of sharded trees, with any shard counts,
    that share the pools returns what it returns with fresh buffers and leaves
    the trees as it does then, on every store: whatever objects the pools hand
    out and whichever buckets are made anew. *)
Theorem Sharded_pools_refine {HS : Hasher} {N V} `{MapStore N, MapStore V}
    (cs : list bulk_call) (ts : list (ShardedSMT N V)) :
  Forall bulk_call_ok cs → (bulks_pooled cs ts no_shardPools).1 = bulks_plain cs ts.
Proof. intros Hcs. apply (bulks_pooled_ok cs ts _ Hcs no_shardPools_ok). Qed.

(** ** Witnesses *)
Section witnesses.
#[local] Existing Instance toy.

(** The shards of the keys below, by their SHA-256 digests. *)
Example toy_shards :
  (λ k, shard_idx (toy_bytes k) 2) <$> [9; 10; 1; 6; 17; 2; 7; 3; 8]%Z =
    [0; 0; 1; 1; 1; 3; 3; 0; 2]%Z.
Proof. vm_compute. reflexivity. Qed.

Definition toy_maps : list (gmap bytes bytes) :=
  (λ kvs, update_all (toy_kvs kvs) ∅) <$>
    [[(9, 90); (10, 100)]; [(1, 10); (6, 60); (17, 170)]; []; [(2, 20); (7, 70)]]%Z.

Definition toy_tree (m : gmap bytes bytes) : SparseMerkleTree (KeyedMap 2) (KeyedMap 2) :=
  map_state m (merkle_root m).

Definition toy_sharded : ShardedSMT (KeyedMap 2) (KeyedMap 2) :=
  mkSharded (toy_tree <$> toy_maps) 2.

Lemma toy_sharded_holds : sharded_holds toy_sharded toy_maps.
Proof.
  split; [cbn; lia|reflexivity|]. unfold toy_sharded, toy_maps. cbn [shards fmap list_fmap].
  repeat (constructor; [split; [apply valid_map_update_all, valid_map_empty|by constructor]|]).
  constructor.
Qed.

Definition toy_factory (i : nat) : KeyedMap 2 * KeyedMap 2 := (mkKeyedMap ∅, mkKeyedMap ∅).

Lemma NewShardedSMT_correct_witness :
  (∃ b s, (0 ≤ b ≤ 8)%Z ∧ 64%Z = (2 ^ b)%Z ∧ NewShardedSMT 64 toy_factory = Ok s ∧
     shardBits s = b ∧ sharded_holds s (replicate (2 ^ Z.to_nat b) ∅)) ∨
  ((∀ b, 0 ≤ b ≤ 8 → 64 ≠ 2 ^ b)%Z ∧
     NewShardedSMT 64 toy_factory = Err ErrInvalidShardCount).
Proof. apply NewShardedSMT_correct. intros i. split; reflexivity. Defined.

Lemma Sharded_Update_correct_witness :
  let ms' := <[0 := update_map (toy_bytes 3) (toy_bytes 30) (toy_maps !!! 0)]> toy_maps in
  ∃ s', Sharded_Update (toy_bytes 3) (toy_bytes 30) toy_sharded =
      (Ok (sharded_root 2 ms'), s') ∧
    shardBits s' = 2%Z ∧ sharded_holds s' ms'.
Proof.
  apply (Sharded_Update_correct (HS := toy) toy_sharded toy_maps (toy_bytes 3) (toy_bytes 30)
    (toy_maps !!! 0));
    [exact toy_sharded_holds|reflexivity|collision_free_by_compute].
Defined.

Lemma Sharded_Get_correct_witness :
  Sharded_Get (toy_bytes 7) toy_sharded =
    (Ok (map_value (toy_maps !!! 3) (toy_bytes 7)), toy_sharded) ∧
  map_value (toy_maps !!! 3) (toy_bytes 7) = toy_bytes 70.
Proof.
  split; [|vm_compute; reflexivity].
  apply (Sharded_Get_correct (HS := toy) toy_sharded toy_maps (toy_bytes 7) (toy_maps !!! 3));
    [exact toy_sharded_holds|reflexivity|collision_free_by_compute].
Defined.

Lemma Sharded_shard_proofs_witness :
  let m := toy_maps !!! 3 in
  ∃ r t p, ShardRoot toy_sharded 3 = Ok r ∧ shards toy_sharded !! 3 = Some t ∧
    run (Prove (toy_bytes 7)) t = (Ok p, t) ∧ VerifyProof p r (toy_bytes 7) (map_value m (toy_bytes 7)) = Ok true ∧
    Sharded_Get (toy_bytes 7) toy_sharded = (Ok (map_value m (toy_bytes 7)), toy_sharded) ∧
    (VerifyProof (map_proof m (toy_bytes 7) true) r (toy_bytes 7) (toy_bytes 70) = Ok true →
     toy_bytes 70 = map_value m (toy_bytes 7)).
Proof.
  apply (Sharded_shard_proofs (HS := toy) toy_sharded toy_maps (toy_bytes 7) (toy_maps !!! 3));
    [exact toy_sharded_holds|reflexivity|collision_free_by_compute].
Defined.

Lemma Sharded_Root_commits_witness : toy_maps = toy_maps.
Proof.
  apply (Sharded_Root_commits (HS := toy) toy_sharded toy_sharded);
    [exact toy_sharded_holds..|reflexivity|collision_free_by_compute|reflexivity].
Defined.

(** Many copies of the keys, enough for the goroutines to start. *)
Definition toy_many : list bytes := concat (replicate 150 (toy_bytes <$> [9; 10; 1; 6; 17; 2; 7]%Z)).

Lemma interleave_swap {A} (l1 l2 : list A) : interleave [l1; l2] (l2 ++ l1).
Proof.
  induction l2 as [|x l2 IH]; cbn [app].
  - induction l1 as [|x l1 IH]; [by constructor; repeat constructor|].
    by apply (interleave_step _ 0 x l1).
  - by apply (interleave_step _ 1 x l2).
Qed.

(** The second goroutine is faster than the first. *)
Definition toy_order : list nat := seq 525 525 ++ seq 0 525.

Lemma toy_order_possible : idxs_order (length toy_many) 2 toy_order.
Proof. exact (interleave_swap (seq 0 525) (seq 525 525)). Qed.

Lemma parallelComputeShardIdxs_correct_witness :
  parallelComputeShardIdxs toy_order (replicate (length toy_many) 0%Z) toy_many 2 =
    Ok ((λ k, shard_idx k 2) <$> toy_many).
Proof.
  apply (parallelComputeShardIdxs_correct _ _ _ 2);
    [by rewrite length_replicate|lia|exact toy_order_possible].
Defined.

Lemma Sharded_BulkUpdate_correct_witness :
  let keys := toy_bytes <$> [7; 8; 6; 3]%Z in
  let values := [toy_bytes 71; toy_bytes 80; []; toy_bytes 30] in
  let ms' := imap (λ i m, bulk_map (routed 2 i (zip keys values)) m) toy_maps in
  ∃ s', Sharded_BulkUpdate [0; 0; 0; 0]%Z [0; 1; 2; 3] reverse keys values toy_sharded =
      (Ok (sharded_root 2 ms'), s') ∧
    shardBits s' = 2%Z ∧ sharded_holds s' ms'.
Proof.
  apply (Sharded_BulkUpdate_correct (HS := toy) toy_sharded toy_maps
    (toy_bytes <$> [7; 8; 6; 3]%Z) [toy_bytes 71; toy_bytes 80; []; toy_bytes 30] _ 1);
    [exact toy_sharded_holds|reflexivity|reflexivity|lia|reflexivity|apply reverse_Permutation|].
  intros i m Hm.
  do 4 (destruct i as [|i]; [injection Hm as <-; collision_free_by_compute|]). done.
Defined.

Lemma Sharded_BulkUpdate_concurrent_witness :
  let keys := toy_bytes <$> [7; 8; 6; 3]%Z in
  let values := [toy_bytes 71; toy_bytes 80; []; toy_bytes 30] in
  let ms' := imap (λ i m, bulk_map (routed 2 i (zip keys values)) m) toy_maps in
  let sched := mjoin (replicate 400 [(3, 0); (1, 0); (0, 1); (2, 0)]) in
  ∃ g0, BulkUpdate_spawn [0; 0; 0; 0]%Z [0; 1; 2; 3] keys values toy_sharded no_pools = inr g0 ∧
    let g := run_go sched g0 in
    sn gstep g ∧
    (∀ i pick, i ∈ go_waiting g → is_Some (go_step i pick g)) ∧
    (go_waiting g = [] →
       ∃ s', go_result 2 g = (Ok (sharded_root 2 ms'), s') ∧
         sharded_holds s' ms' ∧ pools_ok (go_config g).2).
Proof.
  apply (Sharded_BulkUpdate_concurrent (HS := toy) toy_sharded toy_maps
    (toy_bytes <$> [7; 8; 6; 3]%Z) [toy_bytes 71; toy_bytes 80; []; toy_bytes 30] _ 1);
    [exact toy_sharded_holds|reflexivity|done|reflexivity|lia|reflexivity|exact no_pools_ok|].
  intros i m Hm.
  do 4 (destruct i as [|i]; [injection Hm as <-; collision_free_by_compute|]). done.
Defined.

(** The same with a store of the first shard emptied: its goroutine fails. *)
Definition toy_broken : ShardedSMT (KeyedMap 2) (KeyedMap 2) :=
  mkSharded (<[0 := mkSMT (mkKeyedMap ∅) (mkKeyedMap ∅) (merkle_root (toy_maps !!! 0))]> (shards toy_sharded)) 2.

Definition toy_spawn (s : ShardedSMT (KeyedMap 2) (KeyedMap 2)) : outcome bytes + go_state :=
  BulkUpdate_spawn [0; 0; 0; 0]%Z [0; 1; 2; 3] (toy_bytes <$> [7; 8; 6; 3]%Z)
    [toy_bytes 71; toy_bytes 80; []; toy_bytes 30] s no_pools.

Definition toy_sched : list (nat * nat) := mjoin (replicate 400 [(3, 0); (1, 0); (0, 1); (2, 0)]).

Definition toy_ends (s : ShardedSMT (KeyedMap 2) (KeyedMap 2)) (P : option error → Prop) : Prop :=
  match toy_spawn s with
  | inr g0 => length (go_waiting g0) = 4 ∧ go_waiting (run_go toy_sched g0) = [] ∧
      P (go_err (run_go toy_sched g0))
  | inl _ => False
  end.

(** In that schedule all goroutines are done in the end. *)
Example toy_schedule_ends : toy_ends toy_sharded (.= None).
Proof. vm_compute. done. Qed.

Lemma Sharded_goroutines_refine_witness :
  ∃ g0, toy_spawn toy_broken = inr g0 ∧ let g := run_go toy_sched g0 in
    (∃ e, go_err g = Some e) ∧ ∃ shard_order, (∀ l, shard_order l ≡ₚ l) ∧
    Sharded_BulkUpdate [0; 0; 0; 0]%Z [0; 1; 2; 3] shard_order (toy_bytes <$> [7; 8; 6; 3]%Z)
      [toy_bytes 71; toy_bytes 80; []; toy_bytes 30] toy_broken = go_result 2 g ∧
    pools_ok (go_config g).2.
Proof.
  assert (toy_ends toy_broken (λ e, is_Some e)) as He by (vm_compute; split_and!; [done..|by eexists]).
  unfold toy_ends in He. destruct (toy_spawn toy_broken) as [o|g0] eqn:E; [destruct He|].
  destruct He as (_ & Hw & Herr). exists g0. split; [reflexivity|]. split; [exact Herr|].
  exact (Sharded_goroutines_refine (HS := toy) toy_broken _ _ _ _ no_pools toy_sched g0 no_pools_ok E Hw).
Defined.

(** Two trees; the third call is handed what the first two gave back. *)
Definition toy_bulk (i : nat) (keys : list Z) (values : list bytes) : bulk_call :=
  mkBulkCall i (0, 0) (λ i, i =? 1) 4 (seq 0 (length keys)) reverse (toy_bytes <$> keys) values.

Definition toy_bulks : list bulk_call :=
  [toy_bulk 0 [7; 8; 6]%Z [toy_bytes 71; toy_bytes 80; []];
   toy_bulk 1 [1; 6]%Z [toy_bytes 11; []];
   toy_bulk 0 [3; 9]%Z [toy_bytes 30; []]].

Lemma Sharded_pools_refine_witness :
  (bulks_pooled toy_bulks [toy_sharded; toy_sharded] no_shardPools).1 =
    bulks_plain toy_bulks [toy_sharded; toy_sharded] ∧
  existsb is_panic (bulks_plain toy_bulks [toy_sharded; toy_sharded]).1 = false.
Proof.
  split; [|vm_compute; reflexivity]. apply Sharded_pools_refine.
  repeat constructor; cbn; lia.
Defined.
End witnesses.
