(* ===== verification/ShardedFaults.v ===== *)
(** * Sharded trees on stores that fail.

    A bulk update of a sharded tree is not atomic: when a store of one shard
    fails, the other shards have their parts of the batch. *)

From S2P Require Import Prelude Utils MapStore TreeHasher Effects Proofs Smt Bulk Sharded.
From S2P Require Import Trie Merkle Store Spec SmtSpec SmtHolds BulkMap ShardedSpec Faults Pool.
From S2P Require Import ShardedGo ShardedTheorems ToyHasher.

Section faults.
Context {HS : Hasher} {N V : Type}.
Context `{LawfulMapStore hsize N, LawfulMapStore hsize V, !SafeMapStore hsize N, !SafeMapStore hsize V}.
Abbreviation faulty_tree := (SparseMerkleTree (FaultyStore N) (FaultyStore V)).
Abbreviation faulty_sharded := (ShardedSMT (FaultyStore N) (FaultyStore V)).
Implicit Types (s : faulty_sharded) (t : faulty_tree).

Definition reliable_sharded s : ShardedSMT N V := mkSharded (reliable <$> shards s) (shardBits s).

(** The combined root reads the roots alone. *)
Lemma computeRoot_reliable s : computeRoot (reliable_sharded s) = computeRoot s.
Proof. unfold computeRoot. cbn [reliable_sharded shards]. by rewrite <-list_fmap_compose. Qed.

(** What a shard's bulk update leaves: the map with its part of the batch, or
    an error of a store that can fail. *)
Lemma shard_plain_faulty buckets i t m kvs :
  smt_holds (reliable t) m → buckets !! i = Some (kvs.*1, kvs.*2) →
  collision_free (bulk_preimages kvs m) →
  let '(o, t') := run (shard_plain buckets i) t in
  (is_Ok o ∧ smt_holds (reliable t') (bulk_map kvs m)) ∨
  ∃ e, o = Err e ∧ store_error e ∧ some_fault t.
Proof.
  intros Ht Hb CF. unfold shard_plain. rewrite Hb.
  destruct (Nat.eqb_spec (length kvs.*1) 0) as [E0|_].
  { rewrite length_fmap in E0. apply length_zero_iff_nil in E0 as ->. left. split; [by eexists|done]. }
  destruct (smt_holds_bulk (reliable t) m kvs.*1 kvs.*2 Ht) as (t2 & E & Ht2).
  { by rewrite !length_fmap. }
  { by rewrite zip_fst_snd. }
  rewrite zip_fst_snd in *.
  destruct (run_faulty _ _ t (strict_BulkUpdate kvs.*1 kvs.*2)) as [_ Hr].
  destruct (run (BulkUpdate kvs.*1 kvs.*2) t) as [o t']. cbn [fst snd] in Hr.
  destruct Hr as [Hr|Hr]; [left|by right]. rewrite E in Hr. injection Hr as <- <-.
  split; [by eexists|done].
Qed.
(** The error that is kept is one of a shard; without one, no shard failed. *)
Lemma record_errs buckets s order e0 :
  match foldl (record_err buckets s) e0 order with
  | Some e => e0 = Some e ∨ ∃ i, i ∈ order ∧ plain_outcome buckets s i = Err e
  | None => e0 = None ∧ ∀ i e, i ∈ order → plain_outcome buckets s i ≠ Err e
  end.
Proof.
  revert e0. induction order as [|i order IH]; intros e0; cbn [foldl].
  { destruct e0; [by left|]. split; [done|]. by intros i e ?%not_elem_of_nil. }
  specialize (IH (record_err buckets s e0 i)). destruct (foldl _ _ _) as [e|].
  - destruct IH as [He|(j & Hj & E)]; [|right; exists j; split; [by right|done]].
    unfold record_err in He. destruct e0 as [e0|]; [by left|].
    destruct (plain_outcome buckets s i) as [|e'|] eqn:E; [done| |done].
    injection He as ->. right. exists i. split; [by left|done].
  - destruct IH as [He Hno]. unfold record_err in He. destruct e0; [done|]. split; [done|].
    intros j e [->|Hj]%elem_of_cons; [|by apply Hno].
    intros E. by rewrite E in He.
Qed.

Section bulk.
Context s (ms : list (gmap bytes bytes)) (kvs : list (bytes * bytes)) (buckets : list (list bytes * list bytes)).
Context (Hs : sharded_holds (reliable_sharded s) ms).
Context (Hbl : length buckets = length (shards s)).
Context (Hbk : ∀ i, i < length ms → buckets !! i =
  Some ((routed (shardBits s) i kvs).*1, (routed (shardBits s) i kvs).*2)).
Context (CF : ∀ i m, ms !! i = Some m → collision_free (bulk_preimages (routed (shardBits s) i kvs) m)).

Lemma shard_map i t :
  shards s !! i = Some t → ∃ m, ms !! i = Some m ∧ smt_holds (reliable t) m.
Proof.
  intros Ht. pose proof (sh_maps _ _ Hs) as Hm. cbn [reliable_sharded shards] in Hm.
  rewrite Forall2_fmap_l in Hm. exact (Forall2_lookup_l _ _ _ _ _ Hm Ht).
Qed.

Lemma shard_outcome i t m :
  shards s !! i = Some t → ms !! i = Some m →
  let '(o, t') := run (shard_plain buckets i) t in
  (is_Ok o ∧ smt_holds (reliable t') (bulk_map (routed (shardBits s) i kvs) m)) ∨
  ∃ e, o = Err e ∧ store_error e ∧ some_fault t.
Proof.
  intros Ht Hm. apply shard_plain_faulty; [|apply Hbk; by eapply lookup_lt_Some|by apply CF].
  destruct (shard_map i t Ht) as (m' & Hm' & Htm). by rewrite Hm in Hm'; injection Hm' as ->.
Qed.

(** A shard without a key keeps its map. *)
Lemma inactive_map i m :
  ms !! i = Some m → i ∉ active_shards buckets → routed (shardBits s) i kvs = [].
Proof.
  intros Hm Hi. destruct (routed (shardBits s) i kvs) as [|kv l] eqn:E; [done|]. exfalso. apply Hi.
  apply active_shards_spec. rewrite Hbk, E by by eapply lookup_lt_Some. by eexists _, _.
Qed.

Abbreviation ms' := (imap (λ i m, bulk_map (routed (shardBits s) i kvs) m) ms).

(** The tree of a shard when those of [order] have run, and its outcome. *)
Definition shard_after (order : list nat) i t : faulty_tree :=
  if decide (i ∈ order) then (run (shard_plain buckets i) t).2 else t.

Lemma shard_after_spec order i t m :
  order ≡ₚ active_shards buckets → shards s !! i = Some t → ms !! i = Some m →
  smt_holds (reliable (shard_after order i t)) (bulk_map (routed (shardBits s) i kvs) m) ∨
  ∃ e, i ∈ order ∧ plain_outcome buckets s i = Err e ∧ store_error e ∧ some_fault t.
Proof.
  intros Ho Ht Hm. unfold shard_after. case_decide as Hi.
  - pose proof (shard_outcome i t m Ht Hm) as Hout. unfold plain_outcome. rewrite Ht.
    destruct (run (shard_plain buckets i) t) as [o t']. cbn [fst snd].
    destruct Hout as [[_ ?]|(e & -> & ? & ?)]; [by left|right]. by exists e.
  - rewrite Ho in Hi. rewrite (inactive_map i m Hm Hi), routed_bulk_nil. left.
    destruct (shard_map i t Ht) as (m' & Hm' & Htm). by rewrite Hm in Hm'; injection Hm' as ->.
Qed.

Lemma shard_no_panic i : i ∈ active_shards buckets → plain_outcome buckets s i ≠ Panic.
Proof.
  intros (ks & vs & E & _)%active_shards_spec. apply lookup_lt_Some in E. rewrite Hbl in E.
  destruct (lookup_lt_is_Some_2 _ _ E) as [t Ht]. destruct (shard_map i t Ht) as (m & Hm & _).
  pose proof (shard_outcome i t m Ht Hm) as Hout. unfold plain_outcome. rewrite Ht.
  destruct (run (shard_plain buckets i) t) as [o t']. cbn [fst].
  by destruct Hout as [[[r ->] _]|(e & -> & _)].
Qed.

Lemma run_shards_faulty order :
  order ≡ₚ active_shards buckets →
  ∃ r s', run_shards order buckets s None = (Ok r, s') ∧ shardBits s' = shardBits s ∧
    (∀ i t t' m', shards s !! i = Some t → shards s' !! i = Some t' → ms' !! i = Some m' →
       smt_holds (reliable t') m' ∨ some_fault t) ∧
    match r with
    | None => sharded_holds (reliable_sharded s') ms'
    | Some e => store_error e ∧ ∃ i t, shards s !! i = Some t ∧ some_fault t
    end.
Proof.
  intros Ho. rewrite (run_shards_plain buckets order s None).
  2: { rewrite Ho. apply NoDup_active_shards. }
  2: { intros i. by rewrite Ho. }
  2: { intros i Hi. apply shard_no_panic. by rewrite <-Ho. }
  change (imap _ (shards s)) with (imap (shard_after order) (shards s)).
  do 2 eexists. split; [done|]. split; [done|]. split.
  - intros i t t' m' Ht Ht' Hm'. cbn [shards] in Ht'. rewrite list_lookup_imap, Ht in Ht'.
    injection Ht' as <-. rewrite list_lookup_imap in Hm'.
    destruct (ms !! i) as [m|] eqn:Hm; [|done]. injection Hm' as <-.
    destruct (shard_after_spec order i t m Ho Ht Hm) as [|(? & ? & ? & ? & ?)]; [by left|by right].
  - pose proof (record_errs buckets s order None) as Hr.
    destruct (foldl _ _ _) as [e|].
    + destruct Hr as [|(i & Hi & E)]; [done|]. unfold plain_outcome in E.
      destruct (shards s !! i) as [t|] eqn:Ht; [|done]. destruct (shard_map i t Ht) as (m & Hm & _).
      pose proof (shard_outcome i t m Ht Hm) as Hout.
      destruct (run (shard_plain buckets i) t) as [o t']. cbn [fst] in E. subst o.
      destruct Hout as [[[r [=]] _]|(e' & [= <-] & He & Hf)]. split; [done|]. by exists i, t.
    + destruct Hr as [_ Hr]. destruct Hs as [Hb Hl Hmaps]. split; cbn [reliable_sharded shards shardBits] in *.
      * done.
      * by rewrite length_fmap, length_imap, <-Hl, length_fmap.
      * rewrite Forall2_fmap_l. apply Forall2_same_length_lookup_2.
        { apply Forall2_length in Hmaps. rewrite length_fmap in Hmaps. by rewrite !length_imap. }
        intros i t' m' Ht' Hm'. rewrite list_lookup_imap in Ht'. rewrite list_lookup_imap in Hm'.
        destruct (shards s !! i) as [t|] eqn:Ht; [|done]. destruct (ms !! i) as [m|] eqn:Hm; [|done].
        injection Ht' as <-. injection Hm' as <-.
        destruct (shard_after_spec order i t m Ho Ht Hm) as [|(e & Hi & E & _)]; [done|].
        by destruct (Hr i e Hi).
Qed.
End bulk.

(** C17: a bulk update of a sharded tree on stores that may fail at any call, in
    every interleaving: it does not panic; when it succeeds, every shard holds
    its map with its part of the batch, and the root is theirs; when it returns
    an error, that is a store's error and a store of some shard can fail.  It
    is not atomic: a shard whose stores do not fail has its part of the batch
    in both cases. *)
Theorem Sharded_BulkUpdate_on_failing_stores s ms keys values idxs0 procs idx_order shard_order :
  sharded_holds (reliable_sharded s) ms → length keys = length values →
  length idxs0 = length keys → 0 < procs → idxs_order (length keys) procs idx_order →
  (∀ l, shard_order l ≡ₚ l) →
  (∀ i m, ms !! i = Some m →
     collision_free (bulk_preimages (routed (shardBits s) i (zip keys values)) m)) →
  let ms' := imap (λ i m, bulk_map (routed (shardBits s) i (zip keys values)) m) ms in
  let '(o, s') := Sharded_BulkUpdate idxs0 idx_order shard_order keys values s in
  (∀ i t t' m', shards s !! i = Some t → shards s' !! i = Some t' → ms' !! i = Some m' →
     smt_holds (reliable t') m' ∨ some_fault t) ∧
  match o with
  | Ok r => r = sharded_root (shardBits s) ms' ∧ sharded_holds (reliable_sharded s') ms'
  | Err e => store_error e ∧ ∃ i t, shards s !! i = Some t ∧ some_fault t
  | Panic => False
  end.
Proof.
  intros Hs Hlen Hidxs Hp Horder Hperm CF ms'. unfold Sharded_BulkUpdate.
  rewrite <-Hlen, Nat.eqb_refl. cbn [negb].
  destruct (Nat.eqb_spec (length keys) 0) as [E0|_].
  { apply length_zero_iff_nil in E0. subst ms'. rewrite bulk_maps_nil by by rewrite E0.
    rewrite <-computeRoot_reliable, (computeRoot_run _ _ Hs). split; [|done].
    intros i t t' m' Ht Ht' Hm'. destruct (shard_map s ms Hs i t Ht) as (m & Hm & Htm). left. congruence. }
  pose proof (sh_length _ _ Hs) as Hn. pose proof (pow2_lt (Z.to_nat (shardBits s))).
  cbn [reliable_sharded shards shardBits] in Hn. rewrite length_fmap in Hn.
  destruct (Nat.eqb_spec (length (shards s)) 0) as [En|_]; [lia|]. cbn zeta.
  destruct (bulk_buckets (reliable_sharded s) ms keys values idxs0 procs idx_order)
    as (bk & E & Hbl & Hbk); [done..|].
  cbn [reliable_sharded shards shardBits] in E, Hbl, Hbk. rewrite length_fmap in E, Hbl. rewrite E.
  destruct (run_shards_faulty s ms (zip keys values) bk Hs Hbl Hbk CF (shard_order (active_shards bk)))
    as (r & s' & -> & Hbits & Hshards & Hr); [done|].
  destruct r as [e|]; [by split|]. rewrite <-computeRoot_reliable, (computeRoot_run _ _ Hr).
  split; [done|]. cbn [reliable_sharded shardBits]. by rewrite Hbits.
Qed.
End faults.

(** ** Witness *)
Section witness.
#[local] Existing Instance toy.

(** The tree of [toy_sharded], with a node store in the shard [j] of which
    every write fails. *)
Definition toy_failing_sharded (j : nat) : ShardedSMT (FaultyStore (KeyedMap 2)) (FaultyStore (KeyedMap 2)) :=
  mkSharded (imap (λ i m,
    let t := toy_tree m in
    mkSMT
      (mkFaulty (nodes t) 0 (λ _ c, match c with
         | CallGet _ => None
         | _ => if i =? j then Some 5%N else None
         end))
      (mkFaulty (values t) 0 (λ _ _, None)) (root t)) toy_maps) 2.

Lemma toy_failing_holds j : sharded_holds (reliable_sharded (toy_failing_sharded j)) toy_maps.
Proof. destruct toy_sharded_holds as [H1 H2 H3]. by split. Qed.

(** The shard 3 fails, and the shard 0 has the new value. *)
Lemma Sharded_BulkUpdate_on_failing_stores_witness :
  let keys := toy_bytes <$> [7; 8; 6; 3]%Z in
  let values := [toy_bytes 71; toy_bytes 80; []; toy_bytes 30] in
  let ms' := imap (λ i m, bulk_map (routed 2 i (zip keys values)) m) toy_maps in
  let '(o, s') := Sharded_BulkUpdate [0; 0; 0; 0]%Z [0; 1; 2; 3] reverse keys values
    (toy_failing_sharded 3) in
  (∀ i t t' m', shards (toy_failing_sharded 3) !! i = Some t → shards s' !! i = Some t' →
     ms' !! i = Some m' → smt_holds (reliable t') m' ∨ some_fault t) ∧
  match o with
  | Ok r => r = sharded_root 2 ms' ∧ sharded_holds (reliable_sharded s') ms'
  | Err e => store_error e ∧ ∃ i t, shards (toy_failing_sharded 3) !! i = Some t ∧ some_fault t
  | Panic => False
  end.
Proof.
  apply (Sharded_BulkUpdate_on_failing_stores (HS := toy) (toy_failing_sharded 3) toy_maps
    (toy_bytes <$> [7; 8; 6; 3]%Z) [toy_bytes 71; toy_bytes 80; []; toy_bytes 30] _ 1);
    [exact (toy_failing_holds 3)|reflexivity|reflexivity|lia|reflexivity|apply reverse_Permutation|].
  intros i m Hm.
  do 4 (destruct i as [|i]; [injection Hm as <-; collision_free_by_compute|]). done.
Defined.

(** The call returns the error, and the combined root is another one. *)
Example failing_bulk_update_is_not_atomic :
  let s := toy_failing_sharded 3 in
  let '(o, s') := Sharded_BulkUpdate [0; 0; 0; 0]%Z [0; 1; 2; 3] reverse
    (toy_bytes <$> [7; 8; 6; 3]%Z) [toy_bytes 71; toy_bytes 80; []; toy_bytes 30] s in
  o = Err (OtherError 5) ∧ Sharded_Root s' ≠ Sharded_Root s.
Proof. vm_compute. split; [reflexivity|discriminate]. Qed.
End witness.
