(* ===== verification/FuzzTheorems.v ===== *)
(** * The fuzz harnesses never find a panic.

    The typing of the tree's methods carries over to lawful stores, and from
    there to the harnesses: no input makes them panic, whatever the digests
    of SHA-256 are. *)

From S2P Require Import Prelude Utils MapStore Sha256 TreeHasher Effects Proofs Smt DeepSubTree Bulk.
From S2P Require Import Trie Merkle Store Typing TypedTree Spec SmtSpec SmtHolds Fuzz ToyHasher.

(** Nothing more is known of the values. *)
#[local] Instance any_value : ValueTyping := λ _, True.

Lemma typed_Update_any {HS : Hasher} key value : typed_post (Update key value) sized.
Proof. by apply typed_Update. Qed.

Section lawful.
Context {HS : Hasher}.
Context {N V : Type} `{LawfulMapStore hsize N} `{LawfulMapStore hsize V}.
Implicit Types s : SparseMerkleTree N V.

(** A tree on lawful stores whose contents are typed. *)
Definition well_typed s : Prop := ∃ g, tree_rep s g ∧ typed g.

Lemma well_typed_run {A} (P : prog A) (Q : A → Prop) s :
  typed_post P Q → well_typed s →
  well_typed (run P s).2 ∧
  match (run P s).1 with Ok a => Q a | Err _ => True | Panic => False end.
Proof.
  intros HP (g & Hrep & Hg). destruct (HP g Hg) as [_ HP']. clear HP.
  destruct (run P g) as [o g'] eqn:E.
  assert (o ≠ Panic) as Ho by by intros ->.
  destruct (run_sim P s g o g' Hrep E Ho) as (s' & -> & Hrep'). cbn [fst snd].
  destruct o as [a|e|]; [destruct HP' as [HQ Hg']|..]; split; try done; by exists g'.
Qed.

Lemma well_typed_new (nodes : N) (values : V) :
  ms_rep nodes ∅ → ms_rep values ∅ → well_typed (NewSparseMerkleTree nodes values []).
Proof.
  intros Hn Hv. exists (mkSMT (mkKeyedMap ∅) (mkKeyedMap ∅) placeholder).
  split; [by constructor|]. constructor; [apply map_Forall_empty..|apply sized_placeholder].
Qed.

(** Trees that hold a map are well typed. *)
Lemma dataset_typed pre t d : wf pre t → d ∈ dataset t → node_typed d.
Proof.
  revert pre. induction t as [|p v|l IHl r IHr]; intros pre W; cbn [dataset].
  - by intros ?%elem_of_empty.
  - intros ->%elem_of_singleton. destruct W as (Hp & _). apply leaf_typed; [done|apply sized_hsum].
  - apply wf_node in W as (Wl & Wr & _). rewrite !elem_of_union.
    intros [[->%elem_of_singleton|?]|?]; [|by eapply IHl|by eapply IHr].
    apply (inner_typed (thash l) (thash r)); apply length_thash.
Qed.

Lemma smt_holds_well_typed s m : smt_holds s m → well_typed s.
Proof.
  intros [Hm Hrep]. exists (map_state m (merkle_root m)). split; [done|].
  destruct (tree_of_spec m Hm) as [W _]. constructor; cbn.
  - intros k d Hd. unfold store_of, set_to_map in Hd. apply elem_of_list_to_map_2 in Hd.
    apply list_elem_of_fmap in Hd as (d' & [= -> ->] & Hd%elem_of_elements).
    split; [apply sized_hsum|by eapply dataset_typed].
  - intros k v Hv. destruct (Hm k v Hv) as [Hk Hne]. by split_and!.
  - apply length_thash.
Qed.

(** C23: on a well-typed tree the updates ([Update], [Delete],
    [UpdateForRoot], [DeleteForRoot]), the reads ([Get], [Has], [GetDescend],
    [HasDescend]), the proofs ([Prove], [ProveUpdatable], [ProveCompact] and
    their variants for a root) and [AddBranch] do not panic and leave the tree
    well typed, with their error or their result, whatever the hash function
    and its collisions: for every key and value, every root of the digest size,
    and every proof that is added, accepted or not, whose sibling data, if any,
    encodes a leaf or a node.  [BulkUpdate] is not among them: see below. *)
Theorem well_typed_methods s key value r proof :
  well_typed s → sized r → sibling_typed proof →
  let ok {A} (P : prog A) := (run P s).1 ≠ Panic ∧ well_typed (run P s).2 in
  (ok (Update key value) ∧ ok (Delete key) ∧ ok (UpdateForRoot key value r) ∧
   ok (DeleteForRoot key r)) ∧
  (ok (Get key) ∧ ok (Has key) ∧ ok (GetDescend key) ∧ ok (HasDescend key)) ∧
  (ok (Prove key) ∧ ok (ProveForRoot key r) ∧ ok (ProveUpdatable key) ∧
   ok (ProveUpdatableForRoot key r) ∧ ok (ProveCompact key) ∧ ok (ProveCompactForRoot key r)) ∧
  ok (AddBranch proof key value).
Proof.
  intros Hs Hr Hp ok.
  assert (∀ A (P : prog A) Q, typed_post P Q → ok A P) as Hok.
  { intros A P Q HP. destruct (well_typed_run P Q s HP Hs) as [Hs' Hres].
    split; [|done]. by intros E; rewrite E in Hres. }
  assert (∀ v, settable v) as Hv by done.
  split_and!; eapply Hok; try (by apply typed_doProveForRoot); eauto using typed_Update_any,
    typed_UpdateForRoot, typed_Get_method, typed_Has, typed_GetDescend, typed_HasDescend,
    typed_Prove, typed_ProveUpdatable, typed_ProveCompact, typed_ProveCompactForRoot,
    typed_AddBranch; by apply typed_UpdateForRoot.
Qed.
End lawful.

(** ** The harnesses *)

Lemma new_tree_well_typed : well_typed new_tree.
Proof. by apply well_typed_new. Qed.

Lemma call_well_typed {A} (P : prog A) Q (t : fuzz_tree) :
  typed_post P Q → well_typed t → ∃ t', call P t = Ok t' ∧ well_typed t'.
Proof.
  intros HP Ht. destruct (well_typed_run P Q t HP Ht) as [Ht' Hres]. unfold call.
  destruct (run P t) as [[a|e|] t']; cbn [fst snd] in *; [by eexists..|done].
Qed.

Lemma fuzz_op_well_typed o key i t :
  well_typed t → ∃ t', fuzz_op o key i t = Ok t' ∧ well_typed t'.
Proof.
  intros Ht. destruct o; cbn [fuzz_op]; eapply call_well_typed; eauto using
    typed_Update_any, typed_Get_method, typed_Has, typed_Prove.
Qed.

(** The closure does not panic, and reads on. *)
Lemma fuzz_key_ok keys r : ∃ k keys' r', fuzz_key keys r = Ok (k, keys', r') ∧ length r' ≤ length r.
Proof.
  unfold fuzz_key. destruct r as [|b r]; cbn [readByte length].
  { change (byte_val x00 <? 127)%Z with true. cbn. do 3 eexists. split; [done|]. by rewrite drop_nil. }
  destruct (byte_val b <? 127)%Z.
  { destruct r as [|n r]; cbn [readByte length]; do 3 eexists; (split; [done|]);
      rewrite length_drop; cbn; lia. }
  destruct (Nat.eqb_spec (length keys) 0); [do 3 eexists; split; [done|lia]|].
  destruct r as [|j r]; cbn [readByte].
  - destruct (lookup_lt_is_Some_2 keys (Z.to_nat (byte_val x00) mod length keys)) as [k Hk].
    { by apply Nat.mod_upper_bound. }
    rewrite (index_ok _ _ _ Hk). do 3 eexists. split; [done|cbn; lia].
  - destruct (lookup_lt_is_Some_2 keys (Z.to_nat (byte_val j) mod length keys)) as [k Hk].
    { by apply Nat.mod_upper_bound. }
    rewrite (index_ok _ _ _ Hk). do 3 eexists. split; [done|cbn; lia].
Qed.

Lemma fuzz_loop_ok fuel : ∀ i r keys t,
  length r ≤ fuel → well_typed t → ∃ t', fuzz_loop fuel i r keys t = Ok t'.
Proof.
  induction fuel as [|fuel IH]; intros i [|b r] keys t Hr Ht; cbn [fuzz_loop length] in *;
    try (by eexists); [lia|].
  destruct (fuzz_key_ok keys r) as (k & keys' & r' & -> & Hlen).
  cbn [mbind outcome_bind]. destruct (fuzz_op_well_typed (op_of_byte b) k i t Ht) as (t' & -> & Ht').
  cbn [mbind outcome_bind]. apply IH; [lia|done].
Qed.

(** C34: the fuzz harness ends and never panics: on every input it returns 0
    or 1, 0 exactly for inputs of fewer than 100 bytes. *)
Theorem Fuzz_never_panics input :
  Fuzz input = Ok (if length input <? 100 then 0%Z else 1%Z).
Proof.
  unfold Fuzz. destruct (length input <? 100); [done|].
  destruct (fuzz_loop_ok (length input) 0 input [] new_tree) as [t ->];
    [done|exact new_tree_well_typed|done].
Qed.

Lemma delete_fuzz_loop_ok n : ∀ i splits t,
  length splits ≤ i + 2 * n → well_typed t →
  ∃ t', delete_fuzz_loop n i splits t = Ok t' ∧ well_typed t'.
Proof.
  induction n as [|n IH]; intros i splits t Hn Ht; cbn [delete_fuzz_loop];
    destruct (Nat.ltb_spec i (length splits - 1)); try (by eexists); [lia|].
  destruct (lookup_lt_is_Some_2 splits i ltac:(lia)) as [k Hk].
  destruct (lookup_lt_is_Some_2 splits (i + 1) ltac:(lia)) as [v Hv].
  rewrite (index_ok _ _ _ Hk), (index_ok _ _ _ Hv). cbn [mbind outcome_bind].
  destruct (call_well_typed (Update k v) _ t (typed_Update_any k v) Ht) as (t' & -> & Ht').
  cbn [mbind outcome_bind]. apply IH; [lia|done].
Qed.

(** The delete harness never reaches its panic: a Delete without an error
    returns a root that is not empty.  It returns -1 exactly on inputs with
    fewer than three parts. *)
Theorem delete_Fuzz_never_panics data :
  if length (Split star data) <? 3 then delete_Fuzz data = Ok (-1)%Z
  else delete_Fuzz data = Ok 0%Z ∨ delete_Fuzz data = Ok 1%Z.
Proof.
  unfold delete_Fuzz. destruct data as [|b data]; [done|]. set (d := b :: data).
  change (length d =? 0) with false. cbn iota. destruct (Nat.ltb_spec (length (Split star d)) 3); [done|].
  destruct (delete_fuzz_loop_ok (length (Split star d)) 0 (Split star d) new_tree)
    as (t & -> & Ht); [lia|exact new_tree_well_typed|]. cbn [mbind outcome_bind].
  destruct (lookup_lt_is_Some_2 (Split star d) (length (Split star d) - 1) ltac:(lia)) as [k Hk].
  rewrite (index_ok _ _ _ Hk). cbn [mbind outcome_bind].
  destruct (well_typed_run (Delete k) sized t (typed_Update_any k defaultValue) Ht) as [_ Hres].
  destruct (run (Delete k) t).1 as [r|e|]; [right|by left|done].
  by rewrite Hres.
Qed.

(** ** A bulk update can panic on typed data

    The single methods stop after as many steps as a path has bits; the walk of
    [BulkUpdate] has no such bound of its own, and on a node that is its own
    child it reads the bit after the last one. *)
Lemma BulkUpdate_panics_on_a_cycle :
  let h := toy_bytes 1 ++ toy_bytes 2 in
  let s : SparseMerkleTree (KeyedMap 2) (KeyedMap 2) :=
    mkSMT (mkKeyedMap {[h := node_data h h]}) (mkKeyedMap ∅) h in
  well_typed (HS := toy) s ∧
  (run (BulkUpdate (HS := toy) [toy_bytes 3] [toy_bytes 4]) s).1 = Panic.
Proof.
  intros h s. split; [|vm_compute; reflexivity].
  assert (sized (HS := toy) h) as Hh by reflexivity.
  exists s. split; [by constructor|]. constructor; [|apply map_Forall_empty|done].
  apply map_Forall_singleton. split; [done|by apply inner_typed].
Qed.

(** ** Witnesses *)

(** A proof whose sibling data encodes a leaf; [AddBranch] checks it against
    the root. *)
Definition toy_branch : SparseMerkleProof :=
  let sib := leaf_data (toy_bytes 1 ++ toy_bytes 1) (toy_bytes 2 ++ toy_bytes 2) in
  mkProof [@hsum toy sib] None (Some sib).

Lemma well_typed_methods_witness :
  let s : SparseMerkleTree (KeyedMap 2) (KeyedMap 2) := toy_state in
  let ok {A} (P : prog A) := (run P s).1 ≠ Panic ∧ @well_typed toy _ _ _ _ _ _ (run P s).2 in
  let key := toy_bytes 77 in let value := toy_bytes 1 in let r := toy_bytes 7 ++ toy_bytes 8 in
  (ok (@Update toy key value) ∧ ok (@Delete toy key) ∧ ok (@UpdateForRoot toy key value r) ∧
   ok (@DeleteForRoot toy key r)) ∧
  (ok (@Get toy key) ∧ ok (@Has toy key) ∧ ok (@GetDescend toy key) ∧ ok (@HasDescend toy key)) ∧
  (ok (@Prove toy key) ∧ ok (@ProveForRoot toy key r) ∧ ok (@ProveUpdatable toy key) ∧
   ok (@ProveUpdatableForRoot toy key r) ∧ ok (@ProveCompact toy key) ∧
   ok (@ProveCompactForRoot toy key r)) ∧
  ok (@AddBranch toy toy_branch key value).
Proof.
  apply (@well_typed_methods toy (KeyedMap 2) (KeyedMap 2)).
  - exact (@smt_holds_well_typed toy _ _ _ _ _ _ _ _ toy_state_holds).
  - reflexivity.
  - intros d [= <-]. by apply leaf_typed.
Defined.
